(* ===== verification/_CoqProject ===== *)
-Q . S2P
Prelude.v
ITransport.v
RouteMatch.v
ByteMessage.v
Dispatch.v
Broker.v
InMemoryTransport.v
Custody.v
Cluster.v
Producer.v
Consumer.v
System.v
Stream.v
Pool.v
Restart.v
Factory.v
Logger.v
LogFacade.v
Reconnect.v
SimpleAmqpTransport.v
ClientProperties.v
AmqpConnection.v
AmqpCppTransport.v
Retry.v
AmqpCppState.v
AmqpCppSafety.v
AmqpCppConsumer.v
Contract.v
Interop.v
