(* ===== verification/Prelude.v ===== *)
(** * motus: a verification development

    motus is a C++ messaging library.  Applications publish and consume byte
    messages through [Producer] and [Consumer]; both talk to a middleware only
    through the interface [ITransport], of which the repository has three
    implementations: an in-memory broker (the reference backend), one over
    AMQP-CPP and one over SimpleAmqpClient.  This development models the code as
    it is written and proves what makes it correct.

    ** Files, components and sources

    - [Prelude] (this file): exceptions, outcomes, the state-and-exception monad
      every stateful component is written in, machine integers, byte strings,
      ordered traversal of maps, and their lemmas and tactics.
    - [ITransport]: include/motus/transport/ITransport.hpp -- dispositions,
      capabilities, topic options, statistics, [checkTopicOptions],
      [forensicPressure], and the interface itself as a type class.
    - [RouteMatch]: [routeMatches] of the same header.
    - [ByteMessage]: include/motus/ByteMessage.hpp -- the wire envelope.
    - [Dispatch]: the poison-message policy of src/Consumer.cpp ([decode],
      [classifyTransient], [dispatch]).
    - [Broker]: class [Broker] of src/transport/InMemoryTransport.cpp, the state all
      in-memory transports share.
    - [InMemoryTransport]: class [InMemoryTransport] of the same file.
    - [Custody], [Cluster]: any number of in-memory transports and other users over
      the one broker, as atomic steps, and where each message copy is.
    - [Producer]: include/motus/Producer.hpp, include/motus/MessagePublisher.hpp.
    - [Consumer]: [Consumer] and [SettlementQueue] of include/motus/Consumer.hpp and
      src/Consumer.cpp, proved against the interface; [Accountable] is the part of
      a backend's contract that needs, and [Spectated] what a handler may do to the
      transport that is delivering to it.
    - [System]: producer and consumer over the in-memory backend, which is shown
      to be [Accountable].
    - [Stream]: streams of messages through them -- a specification of a worker and
      what a producer, a topic and a lone consumer do together.
    - [Pool]: a consumer with a deferred handler and a pool of workers behind its
      settlement queue, against a desk that has one job out at a time.
    - [Restart]: the same pool in worker processes that come and go over one broker.
    - [Factory]: src/transport/Factory.cpp.
    - [Logger]: src/Logger.cpp -- levels, the asynchronous hand-off, the hex dump.
    - [LogFacade]: the rest of src/Logger.cpp and include/motus/Logger.hpp -- the
      process-wide object, records and the macro, time stamps, sinks and stderr.
    - [Reconnect]: the back-off both AMQP backends compute.
    - [SimpleAmqpTransport]: src/transport/SimpleAmqpTransport.cpp, over the client
      library as a parameter; also [Accountable].
    - [ClientProperties]: the identity a connection shows to the broker
      (cmake/Version.hpp.in and the top of include/motus/AmqpConnection.hpp).
    - [AmqpConnection]: include/motus/AmqpConnection.hpp -- the blocking byte pump under
      the AMQP-CPP backend, with Boost.Asio, the clock and AMQP-CPP as parameters; its
      Module [Sample] is a toy library the witnesses run on.
    - [AmqpCppTransport]: src/transport/AmqpCppTransport.cpp -- declarations, sending,
      consuming, settling and reconnecting over that connection.
    - [AmqpCppState]: what its delivery tags are worth across connections.
    - [AmqpCppSafety]: what it relies on of its libraries ([Lawful]), and that it then
      never runs into undefined behaviour.
    - [AmqpCppConsumer]: the backend as an instance of the interface, and a consumer
      over it.
    - [Retry]: the abstract machine of reconnecting, which both AMQP backends refine.
    - [Contract]: the class [Guarded] -- what each backend owes its callers when it is
      misused -- its three instances, and what it means for producers and consumers.
    - [Interop]: the methods both AMQP backends send for the same script of calls.

    ** How the code is represented

    A C++ function that can throw or change state is a term of [M S A], that is
    [S -> outcome A * S]: the state is kept when an exception leaves, as C++ keeps
    side effects made before a [throw].  [Undefined] is behaviour the language
    leaves undefined.  Members of a class are the fields of a record with their C++
    names; [std::map] is a [gmap] whose sorted keys give the iteration order;
    deques are lists with the front first; unsigned integers are [Z] with their
    wrap-around written out ([u32], [u64], [incr64]).  Diagnostic texts of
    exceptions are kept.

    User code is a parameter: a handler is any function on the whole state in
    reach that may return or throw.  A backend stores a handler value of type [H]
    and runs it through a [Runner]; the value [Consumer] stores is the record of
    what its C++ closure captures.  Where a theorem needs a handler that does not
    call back into the transport delivering to it, that is the hypothesis [quiet],
    [well_behaved] or [by_others].

    AMQP-CPP calls back while it works.  A call into it is an [Activity], a finite tree
    of callbacks each of which may change the world before the library resumes;
    [perform] runs it, and an exception of a callback leaves through the library.  A
    call made by a destructor goes through [call_noexcept], where an exception is the
    end of the program ([Undefined]).  The connection's methods run on any state that
    contains its members ([ConnState]), so the transport, its handlers and the
    callbacks of its channel share one state.  The closures of a broker request
    share heap cells ([requests]) that are never freed, because answers can be late.

    Concurrency: each public member function of [Broker] holds its mutex throughout
    and is one atomic step.  Other users of the broker interleave between the
    rounds of [InMemoryTransport::pump] (its argument lists what they did), and
    other threads push to a [SettlementQueue] between the iterations of
    [Consumer::poll].  [AsyncLogSink] is a step relation with one transition per
    critical section, and the process-wide logger's state follows it offer by offer.  In
    [Cluster] a pump is two steps, taking a message and answering it, with its handler
    and everyone else in between -- the transport's own methods included, as the handler
    may call them.

    ** What is proved

    - Wire format: [serialize] and [deserialize] are inverse and the accepted bodies
      are characterised; the version accumulator never overflows.
    - Routing: the matcher decides an inductive relation; a grouped publish reaches
      exactly the destinations whose binding accepts the key.
    - The broker: queues stay in order, bounds hold, storing terminates, declaring is
      idempotent and never modifies, evidence in forensic destinations is only
      appended to, take and requeue are inverse up to the redelivered flag.
    - Competing consumers: each message copy is in one place and follows its life
      cycle and settled work is gone, as long as no handler settles the delivery it was
      called for or closes its transport ([orderly]); accepted work is kept until it is
      answered, in any case.
    - Delivery: prefetch is one, every handler outcome, crash safety, settlement,
      accounting, close; a handler that settles its own delivery has it resolved twice
      ([own_settlement_doubles]).
    - The consumer: its policy, its answers and counters, settlement order and
      termination, and "decided equals performed" for every accountable backend.
    - Together: a published message arrives; a poison message is tried twice; a worker
      empties its topic, and what was published to it is handled in that order; a pool
      that settles late is given one job at a time, in order, until the topic is empty,
      and worker processes that close or die with jobs out lose none of them.
    - Misuse: the three backends refuse the same calls with the same kind of exception
      and no effect; nothing works after [close], although a pump under a reconnection
      policy undoes it.
    - Both AMQP backends send the broker the same methods for the same calls.
    - Reconnection: one attempt of either AMQP backend whatever its libraries do, and
      any number of them as runs of one machine with bounded attempts, spaced by the clock
      the calls read; the back-off and where its shift goes wrong; the half-open connection the AMQP-CPP
      backend never retries.
    - The AMQP-CPP connection: no byte of the stream is lost, every wait ends, the end
      of a connection is final, what [connect] returns is usable, when a failed write
      escapes.
    - The AMQP-CPP backend: sends follow declarations, each delivery is answered once,
      handler failures surface outside the parser, the last of them where there are
      several; a deferred delivery is settled at most once; closing over a lost peer; a
      tag of a replaced connection can settle another delivery; a reconnection
      resubscribes to the topic last named; what is performed is a subsequence of the
      answers given ([performed_was_decided]), all of them where no reconnection is
      allowed, so that a consumer's counters then agree with the transport's
      ([decided_and_performed]), and an example of a reconnection that loses an answer
      ([reconnection_loses_answer]); no session of calls reaches a null channel or
      connection, an overrun, an endless wait, a bad shift or a throwing destructor,
      those of [close_over_lost_peer] and of a handler that closes or pumps its own
      transport apart ([never_undefined]).
    - The logger: order, bounds and accounting of the hand-off, and that the
      process-wide object, whatever the interleaving, is in the state the calls made and
      the lines delivered lead to; flush, levels, hex dump; what a logging
      statement does and where its line ends up; the layout of a line.
    - The handshake identity names the build and keeps the application's name.

    ** Fuel

    [enqueueLocked] recurses through dead-letter chains; each nested call names a
    strictly longer existing topic, so the longest topic name bounds the depth
    ([enqueue_fuel], [storing_terminates]).  [Matcher::at] recurses once per pattern
    word ([at_terminates]), [split] once per byte; [drain] runs once per settlement
    that can arrive ([drain_terminates]); the digits and lines of the hex dump are
    bounded by the number and by the bytes shown.  [pump_until] runs once per clock tick
    of its timeout, times the readings one tick can last ([readings_per_tick]), and once
    more ([pumpUntil_returns]); [declare] recurses one level
    ([declare_depth]).

    ** Not modelled

    Of the AMQP-CPP connection: socket options, and a handler that re-enters the pump
    while the parser holds a pointer into the buffer, which is undefined in C++ and
    runs on here ([never_undefined] and [stream_preserved] assume that the buffer is
    left alone).  The AMQP-CPP backend is an instance of [ITransport] but not
    [Accountable], because an answer that fails while a reconnection is resubscribing
    is caught there.  The logger's clock, [localtime], memory, threads and
    stdio are parameters ([Runtime], [Outside]), and the expression of a logging
    statement acts on a state of its own.  Sleeping, build files, packaging, the
    other build templates and the tests are left out: they are I/O, generated code,
    or not part of the library. *)

From stdpp Require Export base tactics numbers list gmap strings pretty sorting fin_maps.
From Stdlib Require Export ZArith Lia.
From Stdlib Require Import Ascii.

#[export] Set Warnings "-clear-no-such-hyp".

Declare Scope motus_scope.
Delimit Scope motus_scope with motus.
Open Scope motus_scope.

(** ** Outcomes and exceptions *)

(** The C++ exception classes the sources throw or catch.  [std_exception]
    is any other class derived from [std::exception]; [foreign_exception] is a
    thrown object that is not derived from it, which [catch (const
    std::exception &)] does not intercept and [catch (...)] does. *)
Inductive exn : Type :=
  | runtime_error (what : string)
  | logic_error (what : string)
  | invalid_argument (what : string)
  | length_error (what : string)
  | TransientFailure (what : string)
  | std_exception (what : string)
  | foreign_exception (payload : Z).

(** [e.what()]; meaningful for classes derived from [std::exception]. *)
Definition what (e : exn) : string :=
  match e with
  | runtime_error w | logic_error w | invalid_argument w | length_error w
  | TransientFailure w | std_exception w => w
  | foreign_exception _ => ""
  end.

(** Is the object caught by [catch (const std::exception &)]? *)
Definition is_std (e : exn) : bool :=
  match e with foreign_exception _ => false | _ => true end.

#[export] Instance exn_eq_dec : EqDecision exn.
Proof. solve_decision. Defined.

(** What running a piece of C++ yields: a value, an exception in flight, or
    behaviour the language leaves undefined (signed overflow, a bad shift, a
    dangling reference, unbounded recursion). *)
Inductive outcome (A : Type) : Type :=
  | Ret (a : A)
  | Throw (e : exn)
  | Undefined.
Arguments Ret {A} a.
Arguments Throw {A} e.
Arguments Undefined {A}.

#[export] Instance outcome_eq_dec {A} `{EqDecision A} : EqDecision (outcome A).
Proof. solve_decision. Defined.

#[export] Instance outcome_ret : MRet outcome := @Ret.
#[export] Instance outcome_bind : MBind outcome := λ A B f o,
  match o with
  | Ret a => f a
  | Throw e => Throw e
  | Undefined => Undefined
  end.

(** [if (c) throw e;] in front of the rest of a function. *)
Lemma guard_Ret {A} (c : bool) (e : exn) (x : outcome A) (r : A) :
  (if c then Throw e else x) = Ret r ↔ c = false ∧ x = Ret r.
Proof. destruct c; naive_solver. Qed.

(** ** Stateful code that can throw

    The state is kept when an exception propagates, as C++ keeps the side
    effects made before the [throw]. *)
Definition M (S A : Type) : Type := S → outcome A * S.

#[export] Instance M_ret S : MRet (M S) := λ A a s, (Ret a, s).
#[export] Instance M_bind S : MBind (M S) := λ A B f m s,
  match m s with
  | (Ret a, s') => f a s'
  | (Throw e, s') => (Throw e, s')
  | (Undefined, s') => (Undefined, s')
  end.

Definition throw {S A} (e : exn) : M S A := λ s, (Throw e, s).
Definition undefined {S A} : M S A := λ s, (Undefined, s).
Definition gets {S A} (f : S → A) : M S A := λ s, (Ret (f s), s).
Definition modify {S} (f : S → S) : M S unit := λ s, (Ret tt, f s).
Definition lift {S A} (o : outcome A) : M S A := λ s, (o, s).

(** [try { m } catch (...) { h }]: the handler sees every exception and decides
    itself which ones it rethrows. *)
Definition try_catch {S A} (m : M S A) (h : exn → M S A) : M S A := λ s,
  match m s with
  | (Throw e, s') => h e s'
  | r => r
  end.

(** Run an operation on the first or second component of a pair state. *)
Definition on_fst {S T A} (m : M S A) : M (S * T) A := λ '(s, t),
  let '(o, s') := m s in (o, (s', t)).
Definition on_snd {S T A} (m : M T A) : M (S * T) A := λ '(s, t),
  let '(o, t') := m t in (o, (s, t')).

(** [if (c) throw e;] *)
Definition throw_if {S} (c : bool) (e : exn) : M S unit :=
  if c then throw e else mret tt.

Create HintDb motus discriminated.
#[export] Hint Unfold mret mbind M_ret M_bind outcome_ret outcome_bind throw
  undefined gets modify lift try_catch on_fst on_snd throw_if : motus.

(** Unfold one layer of monadic plumbing and compute. *)
Ltac run := autounfold with motus; cbv beta iota zeta; cbn [fst snd].
Ltac run_in H := autounfold with motus in H; cbv beta iota zeta in H; cbn [fst snd] in H.

(** Case analysis on every [match] a monadic term is stuck on. *)
Ltac case_steps :=
  repeat (case_match; simplify_eq/=; try done).

Lemma throw_if_Ret {S} (c : bool) (e : exn) (s s' : S) :
  throw_if c e s = (Ret tt, s') → c = false ∧ s' = s.
Proof. unfold throw_if. destruct c; [done|]. by intros [= <-]. Qed.

Lemma M_bind_ret {S A B} (a : A) (f : A → M S B) (s : S) :
  (mret a ≫= f) s = f a s.
Proof. done. Qed.

Lemma M_bind_assoc {S A B C} (m : M S A) (f : A → M S B) (g : B → M S C) (s : S) :
  ((m ≫= f) ≫= g) s = (m ≫= (λ a, f a ≫= g)) s.
Proof. run. by destruct (m s) as [[] ?]. Qed.

Lemma M_bind_Ret {S A B} (m : M S A) (f : A → M S B) (s s' : S) (b : B) :
  (m ≫= f) s = (Ret b, s') ↔ ∃ a s1, m s = (Ret a, s1) ∧ f a s1 = (Ret b, s').
Proof.
  run. split.
  - destruct (m s) as [[] ?]; naive_solver.
  - intros (a & s1 & -> & ?). done.
Qed.

(** A computation that never changes the state on any path. *)
Definition readonly {S A} (m : M S A) : Prop := ∀ s, (m s).2 = s.

(** [I] survives [m] whatever way [m] ends. *)
Definition preserves {S A} (I : S → Prop) (m : M S A) : Prop :=
  ∀ s, I s → I (m s).2.

Section preserves.
Context {S : Type} (I : S → Prop).

Lemma preserves_ret {A} (a : A) : preserves I (mret a).
Proof. by intros s. Qed.

Lemma preserves_bind {A B} (m : M S A) (f : A → M S B) :
  preserves I m → (∀ a, preserves I (f a)) → preserves I (m ≫= f).
Proof.
  intros Hm Hf s Hs. specialize (Hm s Hs). run.
  destruct (m s) as [[a| |] s']; simpl in *; [by apply Hf|done..].
Qed.

Lemma preserves_throw {A} (e : exn) : preserves (A:=A) I (throw e).
Proof. by intros s. Qed.

Lemma preserves_undefined {A} : preserves (A:=A) I undefined.
Proof. by intros s. Qed.

Lemma preserves_gets {A} (f : S → A) : preserves I (gets f).
Proof. by intros s. Qed.

Lemma preserves_lift {A} (o : outcome A) : preserves I (lift o).
Proof. by intros s. Qed.

Lemma preserves_throw_if (c : bool) (e : exn) : preserves I (throw_if c e).
Proof. by destruct c; intros s. Qed.

Lemma preserves_modify (f : S → S) :
  (∀ s, I s → I (f s)) → preserves I (modify f).
Proof. intros Hf s. apply Hf. Qed.

Lemma preserves_try_catch {A} (m : M S A) (h : exn → M S A) :
  preserves I m → (∀ e, preserves I (h e)) → preserves I (try_catch m h).
Proof.
  intros Hm Hh s Hs. specialize (Hm s Hs). unfold try_catch.
  destruct (m s) as [[a|e|] s']; simpl in *; [done|by apply Hh|done].
Qed.
End preserves.

#[export] Hint Resolve preserves_ret preserves_bind preserves_throw
  preserves_undefined preserves_gets preserves_lift preserves_throw_if preserves_modify
  preserves_try_catch : motus.

(** Walk through a computation, binding by binding and branch by branch. *)
Ltac frames :=
  repeat first [solve [eauto with motus] | lazymatch goal with
    | |- ∀ _, _ => intros ?
    | |- preserves _ (_ ≫= _) => apply preserves_bind
    | |- preserves _ (try_catch _ _) => apply preserves_try_catch
    | |- preserves _ _ => case_match
    end].

(** [I] survives [m] when [m] returns a value. *)
Definition returning {S A} (I : S → Prop) (m : M S A) : Prop :=
  ∀ s a s', I s → m s = (Ret a, s') → I s'.

Lemma preserves_returning {S A} (I : S → Prop) (m : M S A) : preserves I m → returning I m.
Proof. intros Hm s a s' Hs Hrun. specialize (Hm s Hs). by rewrite Hrun in Hm. Qed.

Lemma returning_bind {S A B} (I : S → Prop) (m : M S A) (f : A → M S B) :
  returning I m → (∀ a, returning I (f a)) → returning I (m ≫= f).
Proof. intros Hm Hf s b s' Hs (a & s1 & H1 & H2)%M_bind_Ret. eapply Hf, H2. by eapply Hm. Qed.

(** ** Machine integers *)

Definition u16 (z : Z) : Z := z mod 2 ^ 16.
Definition u32 (z : Z) : Z := z mod 2 ^ 32.
Definition u64 (z : Z) : Z := z mod 2 ^ 64.
(** [++x] on a [std::uint64_t] or (64-bit) [std::size_t]. *)
Definition incr64 (z : Z) : Z := u64 (z + 1).

(** Conversion to a 32-bit signed integer keeps the low 32 bits. *)
Definition cast_int32 (z : Z) : Z := (z + 2 ^ 31) mod 2 ^ 32 - 2 ^ 31.

(** Signed [int] arithmetic: leaving the range is undefined. *)
Definition int32 (z : Z) : outcome Z :=
  if bool_decide (- 2 ^ 31 ≤ z < 2 ^ 31)%Z then Ret z else Undefined.

Lemma u32_small z : (0 ≤ z < 2 ^ 32)%Z → u32 z = z.
Proof. apply Z.mod_small. Qed.
Lemma u64_small z : (0 ≤ z < 2 ^ 64)%Z → u64 z = z.
Proof. apply Z.mod_small. Qed.
Lemma incr64_small z : (0 ≤ z)%Z → (z + 1 < 2 ^ 64)%Z → incr64 z = (z + 1)%Z.
Proof. intros. apply u64_small. lia. Qed.

(** ** Byte strings *)

(** [s.size()] *)
Definition size_of (s : string) : Z := Z.of_nat (String.length s).
(** [s.empty()] *)
Definition is_empty (s : string) : bool := String.eqb s "".

(** [s.substr(pos)] and [s.substr(0, n)]; every call site stays in range. *)
Fixpoint sdrop (n : nat) (s : string) : string :=
  match n, s with
  | O, _ => s
  | S n, String _ s => sdrop n s
  | S _, EmptyString => EmptyString
  end.
Fixpoint stake (n : nat) (s : string) : string :=
  match n, s with
  | O, _ => EmptyString
  | S n, String c s => String c (stake n s)
  | S _, EmptyString => EmptyString
  end.

(** Offset of the first [c] in [s]; [None] is [npos]. *)
Fixpoint find_char (c : ascii) (s : string) : option nat :=
  match s with
  | EmptyString => None
  | String d s => if bool_decide (d = c) then Some 0 else S <$> find_char c s
  end.
(** [s.find(c, pos)] *)
Definition find_from (c : ascii) (pos : nat) (s : string) : option nat :=
  Nat.add pos <$> find_char c (sdrop pos s).

Lemma length_app_string s t :
  String.length (s +:+ t) = String.length s + String.length t.
Proof. induction s; simpl; [done|]. by f_equal. Qed.

Lemma size_of_app s t : size_of (s +:+ t) = (size_of s + size_of t)%Z.
Proof. unfold size_of. rewrite length_app_string. lia. Qed.

Lemma size_of_nonneg s : (0 ≤ size_of s)%Z.
Proof. unfold size_of. lia. Qed.

Lemma string_app_nil_r s : s +:+ "" = s.
Proof. induction s; simpl; [done|]. unfold String.app in *. cbn. by f_equal. Qed.

Lemma string_app_cons c s t : String c s +:+ t = String c (s +:+ t).
Proof. done. Qed.

Lemma string_app_assoc s t u : (s +:+ t) +:+ u = s +:+ (t +:+ u).
Proof.
  induction s as [|c s IH]; [done|]. rewrite !string_app_cons. by f_equal.
Qed.

Lemma sdrop_app s t : sdrop (String.length s) (s +:+ t) = t.
Proof. by induction s. Qed.

Lemma stake_app s t : stake (String.length s) (s +:+ t) = s.
Proof. induction s; simpl; [done|]. by f_equal. Qed.

Lemma stake_sdrop n s : stake n s +:+ sdrop n s = s.
Proof.
  revert s. induction n as [|n IH]; intros [|c s]; try done.
  simpl. rewrite string_app_cons. by f_equal.
Qed.

Lemma sdrop_length n s : String.length (sdrop n s) = String.length s - n.
Proof. revert s. induction n; intros [|c s]; simpl; auto. Qed.

Lemma stake_length n s : String.length (stake n s) = n `min` String.length s.
Proof. revert s. induction n; intros [|c s]; simpl; auto. Qed.

Lemma is_empty_true s : is_empty s = true ↔ s = "".
Proof. unfold is_empty. apply String.eqb_eq. Qed.
Lemma is_empty_false s : is_empty s = false ↔ s ≠ "".
Proof. unfold is_empty. apply String.eqb_neq. Qed.

(** Does the byte occur in the string? *)
Fixpoint occurs (c : ascii) (s : string) : Prop :=
  match s with
  | EmptyString => False
  | String d s => d = c ∨ occurs c s
  end.

Lemma find_char_None c s : find_char c s = None ↔ ¬ occurs c s.
Proof.
  induction s as [|d s IH]; simpl; [by split; [intros _ []|]|].
  case_bool_decide as Hd; [split; [done|intros Hn; exfalso; apply Hn; by left]|].
  rewrite fmap_None, IH. split; [intros Hn [?|?]; by auto|auto].
Qed.

Lemma find_char_Some c s n :
  find_char c s = Some n ↔
  ∃ t, s = stake n s +:+ String c t ∧ ¬ occurs c (stake n s) ∧ n < String.length s.
Proof.
  revert n. induction s as [|d s IH]; intros n; simpl.
  { split; [done|]. intros (t & _ & _ & ?). lia. }
  case_bool_decide as Hd.
  - subst. split.
    + intros [= <-]. exists s. simpl. split_and!; [done|auto|lia].
    + intros (t & Heq & Hnot & _). destruct n as [|n]; [done|].
      exfalso. apply Hnot. by left.
  - split.
    + intros (n' & (t & Heq & Hnot & Hlt)%IH & ->)%fmap_Some.
      exists t. simpl. rewrite string_app_cons.
      split_and!; [by f_equal|by intros [?|?]|lia].
    + intros (t & Heq & Hnot & Hlt). destruct n as [|n].
      { simpl in Heq. injection Heq as <- ?. done. }
      simpl in Heq, Hnot, Hlt. rewrite string_app_cons in Heq. injection Heq as Heq.
      apply fmap_Some. exists n. split; [|done].
      apply IH. exists t. split_and!; [done|by intros ?; apply Hnot; right|lia].
Qed.

Lemma find_char_app_notin c s t :
  ¬ occurs c s → find_char c (s +:+ String c t) = Some (String.length s).
Proof.
  induction s as [|d s IH]; intros Hn; simpl.
  - by rewrite bool_decide_true.
  - simpl in Hn. rewrite bool_decide_false by (intros ?; apply Hn; by left).
    rewrite IH by (intros ?; apply Hn; by right). done.
Qed.

Lemma forallb_ext_elem {A} (f g : A → bool) (l : list A) :
  (∀ x, x ∈ l → f x = g x) → forallb f l = forallb g l.
Proof.
  induction l as [|x l IH]; intros H; [done|]. simpl.
  rewrite H by (by left). f_equal. apply IH. intros y Hy. apply H. by right.
Qed.

(** ** Ordered maps

    [std::map] is iterated in key order; a [gmap] together with its keys sorted
    gives the same traversal. *)
Section sorted_keys.
Context {K A : Type} `{Countable K} (R : relation K) `{!RelDecision R}.

Definition sorted_keys (m : gmap K A) : list K := merge_sort R (elements (dom m)).

Lemma elem_of_sorted_keys m k : k ∈ sorted_keys m ↔ is_Some (m !! k).
Proof. unfold sorted_keys. by rewrite merge_sort_Permutation, elem_of_elements, elem_of_dom. Qed.

Lemma NoDup_sorted_keys m : NoDup (sorted_keys m).
Proof. unfold sorted_keys. rewrite merge_sort_Permutation. apply NoDup_elements. Qed.

Lemma StronglySorted_sorted_keys m `{!Transitive R, !Total R} :
  StronglySorted R (sorted_keys m).
Proof. by apply StronglySorted_merge_sort. Qed.

Lemma sorted_keys_empty m : m = ∅ → sorted_keys m = [].
Proof. intros ->. unfold sorted_keys. by rewrite dom_empty_L, elements_empty. Qed.
End sorted_keys.

Lemma sorted_keys_dom {K A B} `{Countable K} (R : relation K) `{!RelDecision R}
    (m1 : gmap K A) (m2 : gmap K B) :
  dom m1 = dom m2 → sorted_keys R m1 = sorted_keys R m2.
Proof. unfold sorted_keys. by intros ->. Qed.
