(* ===== verification/ITransport.v ===== *)
(** The vocabulary of the transport seam ([include/motus/transport/ITransport.hpp]):
    dispositions, capabilities, topic and send options, statistics, the two
    declaration checks that live on the seam, and the [ITransport] interface
    with the part of its contract the layers above rely on. *)

From S2P Require Import Prelude.
#[local] Open Scope Z_scope.

(** ** Dispositions *)

(** [enum class Disposition] *)
Inductive Disposition : Type := Ack | Reject | Requeue | Deferred.

#[export] Instance Disposition_eq_dec : EqDecision Disposition.
Proof. solve_decision. Defined.

(** [using Topic = std::string] *)
Abbreviation Topic := string (only parsing).

(** [struct Endpoint] *)
Record Endpoint : Type := mkEndpoint {
  host : string;
  port : Z;
  user : string;
  password : string;
  realm : string;
}.

Definition default_Endpoint : Endpoint :=
  mkEndpoint "127.0.0.1" 0 "guest" "guest" "/".

(** [struct Capabilities] *)
Record Capabilities : Type := mkCapabilities {
  cap_name : string;
  cap_durableDelivery : bool;
  cap_publisherConfirms : bool;
  cap_manualAcknowledgement : bool;
  cap_redeliveryFlag : bool;
  cap_deadLetter : bool;
  cap_routingGroups : bool;
  cap_fifoPerTopic : bool;
  cap_competingConsumers : bool;
  cap_topicDepth : bool;
  cap_purge : bool;
  cap_requeue : bool;
  cap_reconnect : bool;
  cap_deferredAcknowledgement : bool;
  cap_boundedQueue : bool;
}.

(** [Capabilities caps;] -- everything is declared absent. *)
Definition default_Capabilities : Capabilities :=
  mkCapabilities "unknown" false false false false false false false false
    false false false false false false.

(** [enum class Routing]; the first enumerator has the value 0. *)
Inductive Routing : Type := Exact | Pattern | Broadcast.

#[export] Instance Routing_eq_dec : EqDecision Routing.
Proof. solve_decision. Defined.

(** [enum class OverflowPolicy] *)
Inductive OverflowPolicy : Type := DropHead | RejectPublish | RejectPublishDlx.

#[export] Instance OverflowPolicy_eq_dec : EqDecision OverflowPolicy.
Proof. solve_decision. Defined.

(** [overflowPolicyName(OverflowPolicy)] *)
Definition overflowPolicyName (policy : OverflowPolicy) : string :=
  match policy with
  | DropHead => "drop-head"
  | RejectPublish => "reject-publish"
  | RejectPublishDlx => "reject-publish-dlx"
  end.

(** [struct TopicOptions]; [maxLength] is a [std::uint32_t]. *)
Record TopicOptions : Type := mkTopicOptions {
  durable : bool;
  shared : bool;
  deleteWhenUnused : bool;
  deadLetter : bool;
  maxLength : Z;
  overflow : OverflowPolicy;
  group : string;
  route : string;
  routing : Routing;
}.

Definition default_TopicOptions : TopicOptions :=
  mkTopicOptions true true false true 0 DropHead "" "" Pattern.

#[export] Instance TopicOptions_eq_dec : EqDecision TopicOptions.
Proof. solve_decision. Defined.

(** ** Forensic destinations *)

Definition kDeadLetterExchange : string := "motus.dead-letter".
Definition kDeadLetterPrefix : string := "motus.dead-letter.".
Definition kForensicMaxLength : Z := 2000.

(** [deadLetterTopic(const Topic &)] *)
Definition deadLetterTopic (source : Topic) : Topic := kDeadLetterPrefix +:+ source.

(** [enum class ForensicPressure] *)
Inductive ForensicPressure : Type := Normal | NearCap | AtCap.

#[export] Instance ForensicPressure_eq_dec : EqDecision ForensicPressure.
Proof. solve_decision. Defined.

(** [forensicPressure(depth, cap)], both [std::uint32_t], compared in 64 bits. *)
Definition forensicPressure (depth cap : Z) : ForensicPressure :=
  if bool_decide (cap = 0) then Normal
  else if bool_decide (depth >= cap)%Z then AtCap
  else if bool_decide (u64 (depth * 10) >= u64 (cap * 9))%Z then NearCap
  else Normal.

(** [forensicTopicOptions(const Topic &)] *)
Definition forensicTopicOptions (source : Topic) : TopicOptions := {|
  durable := durable default_TopicOptions;
  shared := shared default_TopicOptions;
  deleteWhenUnused := deleteWhenUnused default_TopicOptions;
  deadLetter := false;
  maxLength := kForensicMaxLength;
  overflow := RejectPublish;
  group := kDeadLetterExchange;
  route := source;
  routing := Exact;
|}.

(** ** The declaration check *)

(** The chained conditional that names the first offending property. *)
Definition asymmetric_offender (options : TopicOptions) : option string :=
  if bool_decide (durable options ≠ durable default_TopicOptions) then Some "durable"
  else if bool_decide (shared options ≠ shared default_TopicOptions) then Some "shared"
  else if bool_decide (deleteWhenUnused options ≠ deleteWhenUnused default_TopicOptions)
  then Some "deleteWhenUnused"
  else if bool_decide (deadLetter options ≠ deadLetter default_TopicOptions)
  then Some "deadLetter"
  else if bool_decide (maxLength options ≠ maxLength default_TopicOptions)
  then Some "maxLength"
  else if bool_decide (overflow options ≠ overflow default_TopicOptions)
  then Some "overflow"
  else None.

(** [checkTopicOptions(caps, options, allowAsymmetric)] *)
Definition checkTopicOptions (caps : Capabilities) (options : TopicOptions)
    (allowAsymmetric : bool) : outcome unit :=
  if deadLetter options && negb (cap_deadLetter caps) then
    Throw (runtime_error ("backend '" +:+ cap_name caps +:+
      "' cannot preserve rejected messages (Capabilities::deadLetter is false), but " +:+
      "dead-lettering was requested. Refused at declaration rather than silently " +:+
      "discarding the forensic payload."))
  else if negb (is_empty (group options)) && negb (cap_routingGroups caps) then
    Throw (runtime_error ("backend '" +:+ cap_name caps +:+
      "' cannot group destinations (Capabilities::routingGroups is false), but the " +:+
      "routing group '" +:+ group options +:+
      "' was requested. Refused at declaration rather than ignored: a silently dropped " +:+
      "group publishes to the default destination and looks exactly like success."))
  else if bool_decide (maxLength options > 0)%Z && negb (cap_boundedQueue caps) then
    Throw (runtime_error ("backend '" +:+ cap_name caps +:+
      "' cannot bound a destination's depth (Capabilities::boundedQueue is false), but " +:+
      "maxLength=" +:+ pretty (maxLength options) +:+
      " was requested. Refused at declaration rather than ignored: a silently unbounded " +:+
      "'bounded' destination is exactly the failure this struct exists to make loud."))
  else if allowAsymmetric then Ret tt
  else
    match asymmetric_offender options with
    | Some offender =>
        Throw (runtime_error ("topic property '" +:+ offender +:+
          "' differs from the default. Producer and Consumer declare the same destination, so " +:+
          "whichever started second would be refused with PRECONDITION_FAILED. Pass " +:+
          "allowAsymmetric if that is intended, or declare through ITransport directly."))
    | None => Ret tt
    end.

(** [struct SendOptions] *)
Record SendOptions : Type := mkSendOptions {
  send_durable : bool;
  send_confirm : bool;
  send_route : string;
}.

Definition default_SendOptions : SendOptions := mkSendOptions true false "".

(** [struct ReconnectPolicy]; [maxAttempts] is [unsigned], the delays are
    millisecond counts held in a signed 64-bit integer. *)
Record ReconnectPolicy : Type := mkReconnectPolicy {
  enabled : bool;
  maxAttempts : Z;
  initialDelay : Z;
  maxDelay : Z;
}.

Definition default_ReconnectPolicy : ReconnectPolicy :=
  mkReconnectPolicy false 5 250 5000.

(** [struct Delivery] *)
Record Delivery : Type := mkDelivery {
  delivery_body : string;
  delivery_redelivered : bool;
  delivery_tag : Z;
}.

(** [struct Stats] *)
Record Stats : Type := mkStats {
  bytesSent : Z;
  bytesReceived : Z;
  sent : Z;
  received : Z;
  acksPerformed : Z;
  rejectsPerformed : Z;
  requeuesPerformed : Z;
  abandoned : Z;
  reconnects : Z;
}.

Definition default_Stats : Stats := mkStats 0 0 0 0 0 0 0 0 0.

(** The [++_stats.x] statements of the backends. *)
Definition bump_acks (s : Stats) : Stats :=
  mkStats (bytesSent s) (bytesReceived s) (sent s) (received s) (incr64 (acksPerformed s))
    (rejectsPerformed s) (requeuesPerformed s) (abandoned s) (reconnects s).
Definition bump_rejects (s : Stats) : Stats :=
  mkStats (bytesSent s) (bytesReceived s) (sent s) (received s) (acksPerformed s)
    (incr64 (rejectsPerformed s)) (requeuesPerformed s) (abandoned s) (reconnects s).
Definition bump_requeues (s : Stats) : Stats :=
  mkStats (bytesSent s) (bytesReceived s) (sent s) (received s) (acksPerformed s)
    (rejectsPerformed s) (incr64 (requeuesPerformed s)) (abandoned s) (reconnects s).
Definition bump_abandoned (s : Stats) : Stats :=
  mkStats (bytesSent s) (bytesReceived s) (sent s) (received s) (acksPerformed s)
    (rejectsPerformed s) (requeuesPerformed s) (incr64 (abandoned s)) (reconnects s).
Definition bump_reconnects (s : Stats) : Stats :=
  mkStats (bytesSent s) (bytesReceived s) (sent s) (received s) (acksPerformed s)
    (rejectsPerformed s) (requeuesPerformed s) (abandoned s) (incr64 (reconnects s)).
Definition bump_received (n : Z) (s : Stats) : Stats :=
  mkStats (bytesSent s) (u64 (bytesReceived s + n)) (sent s) (incr64 (received s))
    (acksPerformed s) (rejectsPerformed s) (requeuesPerformed s) (abandoned s) (reconnects s).
Definition bump_sent (n : Z) (s : Stats) : Stats :=
  mkStats (u64 (bytesSent s + n)) (bytesReceived s) (incr64 (sent s)) (received s)
    (acksPerformed s) (rejectsPerformed s) (requeuesPerformed s) (abandoned s) (reconnects s).

(** The counter a resolved delivery moves; a deferred one moves none. *)
Definition bump_disposition (d : Disposition) (s : Stats) : Stats :=
  match d with
  | Ack => bump_acks s
  | Reject => bump_rejects s
  | Requeue => bump_requeues s
  | Deferred => s
  end.

(** ** The interface

    [T] is everything one transport can observe or change; [H] the handler
    values it stores.  A handler may run user code, so the operations that can
    deliver take [run], which executes a stored handler on the transport
    together with the application's own state [S].  [Slice] describes what
    happens in the outside world during one [pump]. *)
Definition Runner (T H S : Type) : Type := H → Delivery → M (T * S) Disposition.

Class ITransport (T H : Type) : Type := {
  Slice : Type;
  capabilities : T → Capabilities;
  connect : ∀ {S}, Runner T H S → Endpoint → Z → M (T * S) unit;
  close : ∀ {S}, Runner T H S → Z → M (T * S) unit;
  ready : T → bool;
  ensureTopic : ∀ {S}, Runner T H S → Topic → TopicOptions → Z → M (T * S) unit;
  topicDepth : ∀ {S}, Runner T H S → Topic → Z → M (T * S) Z;
  purgeTopic : ∀ {S}, Runner T H S → Topic → Z → M (T * S) Z;
  send : Topic → string → SendOptions → M T bool;
  subscribe : ∀ {S}, Runner T H S → Topic → option H → Z → M (T * S) unit;
  settle : Z → Disposition → M T unit;
  setReconnectPolicy : ReconnectPolicy → M T unit;
  pump : ∀ {S}, Runner T H S → Slice → M (T * S) bool;
  stats : T → Stats;
}.

(** [virtual void setReconnectPolicy(const ReconnectPolicy &)] -- the default
    implementation does nothing. *)
Definition default_setReconnectPolicy {T} (policy : ReconnectPolicy) : M T unit := mret tt.

(** ** The declaration check, as a proposition *)

(** The properties AMQP compares on a redeclaration. *)
Definition same_properties (o1 o2 : TopicOptions) : Prop :=
  durable o1 = durable o2 ∧ shared o1 = shared o2 ∧
  deleteWhenUnused o1 = deleteWhenUnused o2 ∧ deadLetter o1 = deadLetter o2 ∧
  maxLength o1 = maxLength o2 ∧ overflow o1 = overflow o2.

#[export] Instance same_properties_dec o1 o2 : Decision (same_properties o1 o2).
Proof. unfold same_properties. apply _. Defined.

#[export] Instance same_properties_equiv : Equivalence same_properties.
Proof.
  unfold same_properties.
  split; [intros ?; by split_and!|intros ??; naive_solver|intros ???; intuition congruence].
Qed.

(** What a backend must be able to do for a declaration to be honoured. *)
Definition honourable (caps : Capabilities) (options : TopicOptions) : Prop :=
  (deadLetter options = true → cap_deadLetter caps = true) ∧
  (group options ≠ "" → cap_routingGroups caps = true) ∧
  (maxLength options > 0 → cap_boundedQueue caps = true).

Lemma asymmetric_offender_None options :
  asymmetric_offender options = None ↔ same_properties options default_TopicOptions.
Proof.
  unfold asymmetric_offender, same_properties.
  repeat case_bool_decide; split; try done; tauto.
Qed.

Lemma checkTopicOptions_Ret caps options allowAsymmetric :
  checkTopicOptions caps options allowAsymmetric = Ret tt ↔
  honourable caps options ∧
  (allowAsymmetric = true ∨ same_properties options default_TopicOptions).
Proof.
  unfold checkTopicOptions, honourable. rewrite <- asymmetric_offender_None.
  rewrite !guard_Ret, !andb_false_iff, !negb_false_iff, bool_decide_eq_false, is_empty_true.
  assert (Hlast : (if allowAsymmetric then Ret tt else
      match asymmetric_offender options with
      | Some offender => Throw (runtime_error ("topic property '" +:+ offender +:+
          "' differs from the default. Producer and Consumer declare the same destination, so " +:+
          "whichever started second would be refused with PRECONDITION_FAILED. Pass " +:+
          "allowAsymmetric if that is intended, or declare through ITransport directly."))
      | None => Ret tt end) = Ret tt ↔
      allowAsymmetric = true ∨ asymmetric_offender options = None).
  { destruct allowAsymmetric, (asymmetric_offender options); naive_solver. }
  rewrite Hlast. destruct (decide (group options = "")), (deadLetter options);
    destruct (decide (maxLength options > 0)); naive_solver.
Qed.

Lemma checkTopicOptions_Throw caps options allowAsymmetric :
  checkTopicOptions caps options allowAsymmetric ≠ Ret tt →
  ∃ text, checkTopicOptions caps options allowAsymmetric = Throw (runtime_error text).
Proof. unfold checkTopicOptions. repeat case_match; eauto; done. Qed.

(** ** Properties *)

(** [checkTopicOptions] accepts a declaration exactly when the backend can
    honour it and, unless asymmetry was asked for, all six shared properties are
    the defaults; in every other case it throws [std::runtime_error]. *)
Theorem checkTopicOptions_spec caps options allowAsymmetric :
  (checkTopicOptions caps options allowAsymmetric = Ret tt ∧ honourable caps options ∧
   (allowAsymmetric = true ∨ same_properties options default_TopicOptions)) ∨
  ((∃ text, checkTopicOptions caps options allowAsymmetric = Throw (runtime_error text)) ∧
   ¬ (honourable caps options ∧
      (allowAsymmetric = true ∨ same_properties options default_TopicOptions))).
Proof.
  rewrite <- checkTopicOptions_Ret.
  destruct (decide (checkTopicOptions caps options allowAsymmetric = Ret tt)) as [H|H].
  - by left.
  - right. split; [|done]. by apply checkTopicOptions_Throw.
Qed.

(** The forensic alarm, at every [std::uint32_t] depth and cap: [AtCap]
    exactly from the cap on, [NearCap] exactly on the last tenth below it, and a
    cap of 0 is never under pressure.  The 64-bit products do not wrap. *)
Theorem forensicPressure_thresholds depth cap :
  0 ≤ depth < 2 ^ 32 → 0 ≤ cap < 2 ^ 32 →
  (forensicPressure depth cap = AtCap ↔ 0 < cap ≤ depth) ∧
  (forensicPressure depth cap = NearCap ↔ depth < cap ∧ 9 * cap ≤ 10 * depth) ∧
  (forensicPressure depth cap = Normal ↔ cap = 0 ∨ 10 * depth < 9 * cap).
Proof.
  intros Hd Hc. unfold forensicPressure.
  rewrite !u64_small by lia.
  repeat case_bool_decide; split_and!; split; intros; first [done|lia].
Qed.

Lemma forensicPressure_thresholds_witness :
  forensicPressure 1800 kForensicMaxLength = NearCap ∧
  forensicPressure 1799 kForensicMaxLength = Normal ∧
  forensicPressure 2000 kForensicMaxLength = AtCap.
Proof.
  split_and!; [apply (forensicPressure_thresholds 1800 kForensicMaxLength)
              |apply (forensicPressure_thresholds 1799 kForensicMaxLength)
              |apply (forensicPressure_thresholds 2000 kForensicMaxLength)];
    unfold kForensicMaxLength; lia.
Defined.
