(* ===== verification/RouteMatch.v ===== *)
(** [routeMatches] of [include/motus/transport/ITransport.hpp]: splitting a
    route into words, the backtracking matcher over word indices, and its
    specification as an inductive relation. *)

From S2P Require Import Prelude.
From Stdlib Require Import Ascii.

Definition dot : ascii := ".".

(** ** Splitting

    The [for (;;)] loop of the [split] lambda: [start] is the offset of the
    current word.  Each round but the last moves [start] past a dot, so
    [size + 1] rounds are enough. *)
Fixpoint split_from (fuel : nat) (text : string) (start : nat) : option (list string) :=
  match fuel with
  | O => None
  | S fuel =>
      match find_from dot start text with
      | Some d => cons (stake (d - start) (sdrop start text)) <$> split_from fuel text (S d)
      | None => Some [sdrop start text]
      end
  end.

Definition split (text : string) : list string :=
  default [] (split_from (S (String.length text)) text 0).

(** ** Matching *)

(** [for (n = j; n <= k.size(); ++n) if (at(i + 1, n)) return true; return false;]
    with [rounds] iterations left. *)
Fixpoint try_from (at_next : nat → option bool) (rounds n : nat) : option bool :=
  match rounds with
  | O => Some false
  | S rounds =>
      match at_next n with
      | None => None
      | Some true => Some true
      | Some false => try_from at_next rounds (S n)
      end
  end.

(** [Matcher::at(i, j)]; [fuel] bounds the recursion depth. *)
Fixpoint at_ (p k : list string) (fuel i j : nat) : option bool :=
  match fuel with
  | O => None
  | S fuel =>
      match p !! i with
      | None => Some (bool_decide (j = length k))
      | Some pi =>
          if String.eqb pi "#" then
            try_from (at_ p k fuel (S i)) (S (length k) - j) j
          else
            match k !! j with
            | None => Some false
            | Some kj =>
                if negb (String.eqb pi "*") && negb (String.eqb pi kj) then Some false
                else at_ p k fuel (S i) (S j)
            end
      end
  end.

(** [routeMatches(binding, route)]; the recursion is one level per pattern word. *)
Definition routeMatches_words (p k : list string) : bool :=
  default false (at_ p k (S (length p)) 0 0).

Definition routeMatches (binding route : string) : bool :=
  routeMatches_words (split binding) (split route).

(** ** Specification *)

Inductive Matches : list string → list string → Prop :=
  | Matches_nil : Matches [] []
  | Matches_word w p k : w ≠ "#" → Matches p k → Matches (w :: p) (w :: k)
  | Matches_star w p k : Matches p k → Matches ("*" :: p) (w :: k)
  | Matches_hash p k1 k2 : Matches p k2 → Matches ("#" :: p) (k1 ++ k2).

(** Words joined by dots. *)
Fixpoint join (ws : list string) : string :=
  match ws with
  | [] => ""
  | [w] => w
  | w :: ws => w +:+ String dot (join ws)
  end.

(** A binding word that is not a wildcard. *)
Definition literal (w : string) : Prop := w ≠ "*" ∧ w ≠ "#".

(** ** Splitting is the inverse of joining *)

Lemma join_cons w ws : ws ≠ [] → join (w :: ws) = w +:+ String dot (join ws).
Proof. by destruct ws. Qed.

Lemma sdrop_stake_S c text start d :
  find_from c start text = Some d →
  start ≤ d ∧ d < String.length text ∧
  ¬ occurs c (stake (d - start) (sdrop start text)) ∧
  sdrop start text = stake (d - start) (sdrop start text) +:+ String c (sdrop (S d) text).
Proof.
  unfold find_from. intros (n & (t & Heq & Hnot & Hlt)%find_char_Some & ->)%fmap_Some.
  rewrite sdrop_length in Hlt.
  replace (start + n - start) with n by lia. split_and!; [lia|lia|done|].
  rewrite Heq at 1. do 2 f_equal.
  assert (Hlen : String.length (stake n (sdrop start text)) = n).
  { rewrite stake_length, sdrop_length. lia. }
  assert (Ht : sdrop (S n) (sdrop start text) = t).
  { rewrite Heq. replace (S n) with (String.length (stake n (sdrop start text) +:+ String c "")).
    - replace (stake n (sdrop start text) +:+ String c t)
        with ((stake n (sdrop start text) +:+ String c "") +:+ t).
      + apply sdrop_app.
      + by rewrite string_app_assoc.
    - rewrite length_app_string, Hlen. simpl. lia. }
  rewrite <- Ht. clear. revert text.
  induction start as [|start IH]; intros text; [done|].
  destruct text; simpl; [by destruct n|]. apply IH.
Qed.

Lemma sdrop_all n s : String.length s ≤ n → sdrop n s = "".
Proof. revert s. induction n; intros [|c s] ?; simpl in *; auto with lia. Qed.

Lemma split_from_spec fuel text start :
  start ≤ String.length text → String.length text - start < fuel →
  ∃ ws, split_from fuel text start = Some ws ∧ ws ≠ [] ∧
    join ws = sdrop start text ∧ Forall (λ w, ¬ occurs dot w) ws.
Proof.
  revert start. induction fuel as [|fuel IH]; intros start Hle Hfuel; [lia|]. simpl.
  destruct (find_from dot start text) as [d|] eqn:Hfind.
  - apply sdrop_stake_S in Hfind as (Hsd & Hd & Hnot & Heq).
    destruct (IH (S d)) as (ws & -> & Hne & Hjoin & Hall); [lia|lia|].
    eexists. split_and!; [done|done| |by constructor].
    rewrite join_cons by done. by rewrite Hjoin, <- Heq.
  - eexists. split_and!; [done|done|done|].
    unfold find_from in Hfind. rewrite fmap_None, find_char_None in Hfind.
    by repeat constructor.
Qed.

Lemma split_spec text :
  split text ≠ [] ∧ join (split text) = text ∧ Forall (λ w, ¬ occurs dot w) (split text).
Proof.
  unfold split.
  destruct (split_from_spec (S (String.length text)) text 0) as (ws & -> & ?); [lia|lia|done].
Qed.

(** A word without dots and what follows its dot are determined by the text. *)
Lemma cut_unique w1 w2 t1 t2 :
  ¬ occurs dot w1 → ¬ occurs dot w2 →
  w1 +:+ String dot t1 = w2 +:+ String dot t2 → w1 = w2 ∧ t1 = t2.
Proof.
  intros H1 H2 Heq.
  assert (Hlen : String.length w1 = String.length w2).
  { apply (f_equal (find_char dot)) in Heq.
    rewrite !find_char_app_notin in Heq by done. by injection Heq. }
  revert w2 H2 Heq Hlen. induction w1 as [|c w1 IH]; intros [|c2 w2] H2 Heq Hlen;
    simpl in Hlen; try done.
  - by injection Heq.
  - rewrite !string_app_cons in Heq. injection Heq as -> Heq. simpl in H1, H2.
    destruct (IH ltac:(by auto) w2) as [-> ->]; auto.
Qed.

Lemma not_dot_no_tail w w' t :
  ¬ occurs dot w → w = w' +:+ String dot t → False.
Proof.
  intros Hw ->. apply Hw. clear. induction w'; simpl; auto.
Qed.

Lemma join_inj ws1 ws2 :
  ws1 ≠ [] → ws2 ≠ [] →
  Forall (λ w, ¬ occurs dot w) ws1 → Forall (λ w, ¬ occurs dot w) ws2 →
  join ws1 = join ws2 → ws1 = ws2.
Proof.
  revert ws2. induction ws1 as [|w1 ws1 IH]; intros [|w2 ws2] ?? H1 H2 Heq; try done.
  inversion_clear H1. inversion_clear H2.
  destruct ws1 as [|v1 ws1], ws2 as [|v2 ws2].
  - simpl in Heq. by subst.
  - rewrite (join_cons w2) in Heq by done.
    exfalso. eauto using not_dot_no_tail.
  - rewrite (join_cons w1) in Heq by done. symmetry in Heq.
    exfalso. eauto using not_dot_no_tail.
  - rewrite !join_cons in Heq by done.
    apply cut_unique in Heq as [-> Heq]; [|done..].
    f_equal. by apply IH.
Qed.

(** ** The matcher decides the specification *)

Lemma Matches_nil_inv k : Matches [] k ↔ k = [].
Proof. split; [by inversion 1|intros ->; constructor]. Qed.

Lemma Matches_hash_inv p k :
  Matches ("#" :: p) k ↔ ∃ n, n ≤ length k ∧ Matches p (drop n k).
Proof.
  split.
  - inversion 1; simplify_eq. exists (length k1). rewrite length_app.
    split; [lia|]. by rewrite drop_app_length.
  - intros (n & Hn & HM). rewrite <- (take_drop n k). by constructor.
Qed.

Lemma Matches_cons_inv w p k :
  w ≠ "#" →
  Matches (w :: p) k ↔ ∃ v k', k = v :: k' ∧ (w = "*" ∨ w = v) ∧ Matches p k'.
Proof.
  intros Hw. split.
  - inversion 1; simplify_eq; eauto 10.
  - intros (v & k' & -> & [->| ->] & HM); by constructor.
Qed.

Lemma try_from_spec (f : nat → option bool) (P : nat → Prop) rounds n :
  (∀ m, n ≤ m < n + rounds → ∃ b, f m = Some b ∧ (b = true ↔ P m)) →
  ∃ b, try_from f rounds n = Some b ∧ (b = true ↔ ∃ m, n ≤ m < n + rounds ∧ P m).
Proof.
  revert n. induction rounds as [|rounds IH]; intros n Hf; simpl.
  { exists false. split; [done|]. split; [done|]. intros (m & ? & _). lia. }
  destruct (Hf n) as (b & -> & Hb); [lia|]. destruct b.
  - exists true. split; [done|]. split; [|done]. intros _.
    exists n. split; [lia|]. by apply Hb.
  - destruct (IH (S n)) as (b & -> & Hb'); [intros; apply Hf; lia|].
    exists b. split; [done|]. rewrite Hb'. split.
    + intros (m & ? & ?). exists m. split; [lia|done].
    + intros (m & ? & HP). exists m. split; [|done].
      destruct (decide (m = n)) as [->|]; [by apply Hb in HP|lia].
Qed.

Lemma at_spec p k fuel i j :
  length p - i < fuel → j ≤ length k →
  ∃ b, at_ p k fuel i j = Some b ∧ (b = true ↔ Matches (drop i p) (drop j k)).
Proof.
  revert i j. induction fuel as [|fuel IH]; intros i j Hfuel Hj; [lia|]. simpl.
  destruct (p !! i) as [pi|] eqn:Hpi.
  - pose proof (lookup_lt_Some _ _ _ Hpi). rewrite (drop_S p pi i) by done.
    destruct (String.eqb_spec pi "#") as [->|Hhash].
    + destruct (try_from_spec (at_ p k fuel (S i))
        (λ m, Matches (drop (S i) p) (drop m k)) (S (length k) - j) j) as (b & Hb & Hiff).
      { intros m Hm. apply IH; lia. }
      exists b. split; [done|]. rewrite Hiff, Matches_hash_inv. split.
      * intros (m & ? & HM). exists (m - j). rewrite length_drop, drop_drop.
        replace (j + (m - j)) with m by lia. split; [lia|done].
      * intros (n & Hn & HM). rewrite length_drop in Hn. rewrite drop_drop in HM.
        exists (j + n). split; [lia|done].
    + setoid_rewrite (Matches_cons_inv pi _ _ Hhash).
      destruct (k !! j) as [kj|] eqn:Hkj.
      * rewrite (drop_S k kj j) by done. pose proof (lookup_lt_Some _ _ _ Hkj).
        destruct (String.eqb_spec pi "*") as [->|Hstar]; simpl.
        { destruct (IH (S i) (S j)) as (b & -> & Hb); [lia|lia|].
          exists b. split; [done|]. rewrite Hb. naive_solver. }
        destruct (String.eqb_spec pi kj) as [->|Hne]; simpl.
        { destruct (IH (S i) (S j)) as (b & -> & Hb); [lia|lia|].
          exists b. split; [done|]. rewrite Hb. naive_solver. }
        exists false. split; [done|]. naive_solver.
      * exists false. split; [done|]. apply lookup_ge_None in Hkj.
        rewrite (drop_ge k) by lia. naive_solver.
  - apply lookup_ge_None in Hpi. rewrite (drop_ge p) by lia.
    eexists. split; [done|]. rewrite Matches_nil_inv, bool_decide_eq_true.
    rewrite <- length_zero_iff_nil, length_drop. lia.
Qed.

Lemma routeMatches_words_spec p k : routeMatches_words p k = true ↔ Matches p k.
Proof.
  unfold routeMatches_words.
  destruct (at_spec p k (S (length p)) 0 0) as (b & -> & Hb); [lia|lia|done].
Qed.

Lemma Matches_literal p k : Forall literal p → Matches p k ↔ p = k.
Proof.
  intros Hp. revert k. induction Hp as [|w p [? ?] _ IH]; intros k.
  - rewrite Matches_nil_inv. naive_solver.
  - rewrite Matches_cons_inv by done. setoid_rewrite IH. naive_solver.
Qed.

(** ** Properties *)

(** [split] is exact: for every text it produces the one and only non-empty
    list of dot-free words whose dot-join is the text. *)
Theorem split_unique text ws :
  split text = ws ↔ ws ≠ [] ∧ join ws = text ∧ Forall (λ w, ¬ occurs dot w) ws.
Proof.
  destruct (split_spec text) as (Hne & Hjoin & Hall). split; [by intros <-|].
  intros (Hne' & Hjoin' & Hall'). apply join_inj; by rewrite ?Hjoin.
Qed.

(** C11. [routeMatches] decides the documented meaning of a pattern: [*] stands
    for exactly one word, [#] for zero or more (with backtracking), every other
    word for itself. *)
Theorem routeMatches_spec binding route :
  routeMatches binding route = true ↔ Matches (split binding) (split route).
Proof. apply routeMatches_words_spec. Qed.

(** The matcher always returns, whatever the two word lists, within a
    recursion depth of one call per pattern word plus one. *)
Theorem at_terminates p k fuel :
  length p < fuel → is_Some (at_ p k fuel 0 0).
Proof.
  intros Hfuel. destruct (at_spec p k fuel 0 0) as (b & -> & _); [lia|lia|done].
Qed.

Lemma at_terminates_witness :
  length ["A"; "#"; "C"] < 4 ∧ is_Some (at_ ["A"; "#"; "C"] ["A"; "B"; "C"] 4 0 0).
Proof. split; [simpl; lia|]. apply (at_terminates ["A"; "#"; "C"] ["A"; "B"; "C"]). simpl; lia. Defined.

(** A binding without wildcard words matches exactly the route equal to it:
    on such bindings [Routing::Pattern] and [Routing::Exact] agree. *)
Theorem routeMatches_literal binding route :
  Forall literal (split binding) → routeMatches binding route = bool_decide (binding = route).
Proof.
  intros Hlit. apply Bool.eq_iff_eq_true. unfold routeMatches.
  rewrite routeMatches_words_spec, bool_decide_eq_true, Matches_literal by done.
  destruct (split_spec binding) as (_ & Hb & _), (split_spec route) as (_ & Hr & _).
  split; [|by intros ->]. intros Heq. by rewrite <- Hb, <- Hr, Heq.
Qed.

Lemma routeMatches_literal_witness :
  Forall literal (split "TOPIC.Nav") ∧
  routeMatches "TOPIC.Nav" "TOPIC.Nav" = bool_decide ("TOPIC.Nav" = "TOPIC.Nav").
Proof.
  assert (Forall literal (split "TOPIC.Nav")) as Hl by (vm_compute; repeat constructor; done).
  split; [done|]. apply (routeMatches_literal "TOPIC.Nav" "TOPIC.Nav"). done.
Defined.

(** The examples of the header comment. *)
Example nav_star : routeMatches "TOPIC.Nav.*" "TOPIC.Nav.Position" = true.
Proof. reflexivity. Qed.
Example nav_star_short : routeMatches "TOPIC.Nav.*" "TOPIC.Nav" = false.
Proof. reflexivity. Qed.
Example nav_star_long : routeMatches "TOPIC.Nav.*" "TOPIC.Nav.A.B" = false.
Proof. reflexivity. Qed.
Example hash_zero : routeMatches "TOPIC.#" "TOPIC" = true.
Proof. reflexivity. Qed.
Example hash_middle : routeMatches "A.#.C" "A.C.B.C" = true.
Proof. reflexivity. Qed.
