(* ===== verification/ByteMessage.v ===== *)
(** The wire envelope ([include/motus/ByteMessage.hpp]): [serialize] and
    [deserialize] with their size bound and version field, and the proofs that
    they are inverse, that the accepted wire forms are exactly the documented
    ones, and that the version accumulator never overflows an [int]. *)

From S2P Require Import Prelude.
From Stdlib Require Import Ascii.
#[local] Open Scope Z_scope.

(** [struct ByteMessage] *)
Record ByteMessage : Type := mkByteMessage { payload : string }.

Definition FORMAT_VERSION : Z := 1.
Definition MAX_PAYLOAD_BYTES : Z := 4 * 1024 * 1024.

(** [envelopePrefix()] *)
Definition envelopePrefix : string := "motus:" +:+ pretty FORMAT_VERSION +:+ ":".

(** [ByteMessage::serialize()] *)
Definition serialize (message : ByteMessage) : outcome string :=
  let prefix := envelopePrefix in
  if bool_decide (size_of prefix + size_of (payload message) > MAX_PAYLOAD_BYTES) then
    Throw (length_error ("encoded message is " +:+
      pretty (size_of prefix + size_of (payload message)) +:+ " bytes, over the " +:+
      pretty MAX_PAYLOAD_BYTES +:+ " byte limit"))
  else Ret (prefix +:+ payload message).

Definition magic : string := "motus:".
Definition colon : ascii := ":".

(** A byte as a number.  [char] may be signed, in which case the bytes above
    127 are negative; either way they fall outside ['0'..'9']. *)
Definition code (c : ascii) : Z := Z.of_N (N_of_ascii c).

(** The loop over [wire[versionBegin .. versionEnd)]: [version] is an [int]. *)
Fixpoint parse_version (digits : string) (version : Z) : outcome Z :=
  match digits with
  | EmptyString => Ret version
  | String c digits =>
      if bool_decide (code c < code "0") || bool_decide (code c > code "9") then
        Throw (runtime_error "malformed motus envelope: non-numeric version field")
      else if bool_decide (version > 100000) then
        Throw (runtime_error "malformed motus envelope: version field out of range")
      else
        scaled ← int32 (version * 10);
        version ← int32 (scaled + (code c - code "0"));
        parse_version digits version
  end.

(** [ByteMessage::deserialize(const std::string &)] *)
Definition deserialize (wire : string) : outcome ByteMessage :=
  if bool_decide (size_of wire > MAX_PAYLOAD_BYTES) then
    Throw (length_error ("message body is " +:+ pretty (size_of wire) +:+
      " bytes, over the " +:+ pretty MAX_PAYLOAD_BYTES +:+ " byte limit"))
  else if negb (String.eqb (stake (String.length magic) wire) magic) then
    Throw (runtime_error "body is not a motus envelope (missing 'motus:' prefix)")
  else
    let versionBegin := String.length magic in
    match find_from colon versionBegin wire with
    | None => Throw (runtime_error "malformed motus envelope: no version field")
    | Some versionEnd =>
        if bool_decide (versionEnd = versionBegin) then
          Throw (runtime_error "malformed motus envelope: no version field")
        else
          version ← parse_version
            (stake (versionEnd - versionBegin) (sdrop versionBegin wire)) 0;
          if bool_decide (version ≠ FORMAT_VERSION) then
            Throw (runtime_error ("unsupported format_version " +:+ pretty version +:+
              " (this build understands " +:+ pretty FORMAT_VERSION +:+ ")"))
          else Ret (mkByteMessage (sdrop (S versionEnd) wire))
    end.

(** [byteCount()] *)
Definition byteCount (message : ByteMessage) : Z := size_of (payload message).

(** [operator==] *)
#[export] Instance ByteMessage_eq_dec : EqDecision ByteMessage.
Proof. solve_decision. Defined.

(** ** The version field *)

Definition is_digit (c : ascii) : Prop := code "0" ≤ code c ≤ code "9".

Fixpoint all_digits (s : string) : Prop :=
  match s with EmptyString => True | String c s => is_digit c ∧ all_digits s end.

(** The decimal value of a digit string, continuing from [acc]. *)
Fixpoint decimal (acc : Z) (s : string) : Z :=
  match s with
  | EmptyString => acc
  | String c s => decimal (acc * 10 + (code c - code "0")) s
  end.

Fixpoint zeros (n : nat) : string :=
  match n with O => EmptyString | S n => String "0" (zeros n) end.

(** A wire body with version digits [ds] and payload [p]. *)
Definition envelope (ds p : string) : string := magic +:+ ds +:+ String colon p.

Lemma code_0 : code "0" = 48. Proof. done. Qed.
Lemma code_9 : code "9" = 57. Proof. done. Qed.
Lemma code_inj c d : code c = code d → c = d.
Proof.
  unfold code. intros H. apply N2Z.inj in H.
  by rewrite <- (ascii_N_embedding c), H, ascii_N_embedding.
Qed.

Lemma decimal_mono s acc : all_digits s → 0 ≤ acc → acc ≤ decimal acc s.
Proof.
  revert acc. induction s as [|c s IH]; intros acc; simpl; [lia|].
  intros [[Hlo Hhi] Hs] Hacc. rewrite code_0 in *.
  specialize (IH (acc * 10 + (code c - 48)) Hs). lia.
Qed.

(** One round of the loop on a digit never leaves the [int] range. *)
Lemma parse_version_step c s v :
  is_digit c → 0 ≤ v ≤ 100000 →
  parse_version (String c s) v = parse_version s (v * 10 + (code c - code "0")).
Proof.
  intros [Hlo Hhi] Hv. rewrite code_0, code_9 in *. simpl.
  rewrite !bool_decide_false by (rewrite ?code_0, ?code_9; lia). simpl.
  unfold int32. rewrite code_0.
  rewrite bool_decide_true by lia. run.
  by rewrite bool_decide_true by lia.
Qed.

Lemma parse_version_digit_range c s v :
  is_digit c → 100000 < v →
  parse_version (String c s) v =
    Throw (runtime_error "malformed motus envelope: version field out of range").
Proof.
  intros [Hlo Hhi] Hv. rewrite code_0, code_9 in *. simpl.
  rewrite !bool_decide_false by (rewrite ?code_0, ?code_9; lia). simpl.
  by rewrite bool_decide_true by lia.
Qed.

Lemma parse_version_non_digit c s v :
  ¬ is_digit c →
  parse_version (String c s) v =
    Throw (runtime_error "malformed motus envelope: non-numeric version field").
Proof.
  intros Hc. simpl. unfold is_digit in Hc.
  destruct (decide (code c < code "0")); [by rewrite bool_decide_true|].
  rewrite (bool_decide_true (code c > code "9")) by lia. by rewrite orb_true_r.
Qed.

Lemma is_digit_dec c : is_digit c ∨ ¬ is_digit c.
Proof. unfold is_digit. lia. Qed.

Lemma parse_version_defined s v :
  0 ≤ v ≤ 1000009 → parse_version s v ≠ Undefined.
Proof.
  revert v. induction s as [|c s IH]; intros v Hv; [done|].
  destruct (is_digit_dec c) as [Hc|Hc]; [|by rewrite parse_version_non_digit].
  destruct (decide (v ≤ 100000)).
  - rewrite parse_version_step by (auto; lia). apply IH.
    destruct Hc. rewrite code_0, code_9 in *. lia.
  - by rewrite parse_version_digit_range by (auto; lia).
Qed.

Lemma parse_version_small s v :
  all_digits s → 0 ≤ v → decimal v s ≤ 100000 → parse_version s v = Ret (decimal v s).
Proof.
  revert v. induction s as [|c s IH]; intros v; [done|]. simpl all_digits.
  intros [Hc Hs] Hv. simpl decimal. intros Hd.
  assert (0 ≤ v * 10 + (code c - code "0")) by (destruct Hc; lia).
  pose proof (decimal_mono s _ Hs H). destruct Hc.
  rewrite parse_version_step by (by split_and?; try lia).
  by apply IH.
Qed.

Lemma parse_version_Ret_inv s v n :
  parse_version s v = Ret n → 0 ≤ v ≤ 1000009 → all_digits s ∧ n = decimal v s.
Proof.
  revert v. induction s as [|c s IH]; intros v; [by intros [= ->]|].
  intros Hp Hv.
  destruct (is_digit_dec c) as [Hc|Hc]; [|by rewrite parse_version_non_digit in Hp].
  destruct (decide (v ≤ 100000)); [|by rewrite parse_version_digit_range in Hp by (auto; lia)].
  rewrite parse_version_step in Hp by (auto; lia).
  apply IH in Hp as [Hs ->]; [done|].
  destruct Hc. rewrite code_0, code_9 in *. lia.
Qed.

Lemma decimal_zero_inv s : all_digits s → decimal 0 s = 1 → ∃ n, s = zeros n +:+ "1".
Proof.
  induction s as [|c s IH]; [done|]. simpl. intros [Hc Hs] Hd.
  destruct (decide (code c = code "0")) as [Hz|Hz].
  - apply code_inj in Hz as ->. destruct (IH Hs) as [n ->]; [by simpl in Hd|].
    by exists (S n).
  - destruct Hc as [Hlo Hhi]. rewrite code_0, code_9 in *.
    assert (0 ≤ 0 * 10 + (code c - 48)) as Hge by lia.
    pose proof (decimal_mono s _ Hs Hge).
    assert (code c = code "1") as ->%code_inj by (change (code "1") with 49; lia).
    exists 0%nat. destruct s as [|d s]; [done|]. exfalso.
    destruct Hs as [[Hd1 Hd2] Hs]. rewrite code_0, code_9 in *.
    assert (Hd' : decimal (1 * 10 + (code d - 48)) s = 1) by exact Hd.
    pose proof (decimal_mono s (1 * 10 + (code d - 48)) Hs). lia.
Qed.

Lemma decimal_zeros n : all_digits (zeros n +:+ "1") ∧ decimal 0 (zeros n +:+ "1") = 1.
Proof.
  induction n as [|n [IHd IHv]]; [done|].
  simpl zeros. rewrite string_app_cons. simpl. split; [|done].
  split; [by split|done].
Qed.

Lemma digits_no_colon s : all_digits s → ¬ occurs colon s.
Proof.
  induction s as [|c s IH]; simpl; [auto|]. intros [[Hlo Hhi] Hs] [->|Hin]; [|by apply IH].
  by vm_compute in Hhi.
Qed.

(** ** Decoding an envelope *)

Lemma find_colon_envelope ds p :
  ¬ occurs colon ds →
  find_from colon (String.length magic) (envelope ds p) =
    Some (String.length magic + String.length ds)%nat.
Proof.
  intros Hds. unfold find_from, envelope. rewrite sdrop_app.
  by rewrite find_char_app_notin.
Qed.

Lemma envelope_version ds p :
  stake (String.length ds) (sdrop (String.length magic) (envelope ds p)) = ds.
Proof. unfold envelope. by rewrite sdrop_app, stake_app. Qed.

Lemma envelope_payload ds p :
  sdrop (S (String.length magic + String.length ds)) (envelope ds p) = p.
Proof.
  unfold envelope. replace (magic +:+ ds +:+ String colon p)
    with ((magic +:+ ds +:+ String colon "") +:+ p) by by rewrite !string_app_assoc.
  replace (S (String.length magic + String.length ds))
    with (String.length (magic +:+ ds +:+ String colon "")); [apply sdrop_app|].
  rewrite !length_app_string. simpl. lia.
Qed.

(** [deserialize] on a body cut at its second colon. *)
Lemma deserialize_envelope ds p :
  ¬ occurs colon ds → ds ≠ "" → size_of (envelope ds p) ≤ MAX_PAYLOAD_BYTES →
  deserialize (envelope ds p) =
    (version ← parse_version ds 0;
     if bool_decide (version ≠ FORMAT_VERSION) then
       Throw (runtime_error ("unsupported format_version " +:+ pretty version +:+
         " (this build understands " +:+ pretty FORMAT_VERSION +:+ ")"))
     else Ret (mkByteMessage p)).
Proof.
  intros Hds Hne Hsize. unfold deserialize.
  rewrite bool_decide_false by lia.
  replace (stake (String.length magic) (envelope ds p)) with magic
    by (symmetry; apply stake_app).
  rewrite String.eqb_refl. cbn [negb].
  rewrite find_colon_envelope by done.
  rewrite bool_decide_false by (destruct ds; [done|simpl; lia]).
  rewrite envelope_payload.
  by replace (String.length magic + String.length ds - String.length magic)%nat
    with (String.length ds) by lia; rewrite envelope_version.
Qed.

(** Cutting the accepted bodies: everything [deserialize] gets past its prefix
    and separator checks is an [envelope]. *)
Lemma deserialize_cut wire m :
  deserialize wire = Ret m →
  ∃ ds p, wire = envelope ds p ∧ ¬ occurs colon ds ∧ ds ≠ "" ∧
    size_of wire ≤ MAX_PAYLOAD_BYTES.
Proof.
  unfold deserialize. case_bool_decide as Hsize; [done|].
  destruct (String.eqb_spec (stake (String.length magic) wire) magic) as [Hmagic|]; [|done].
  cbn [negb]. destruct (find_from colon _ wire) as [e|] eqn:Hfind; [|done].
  case_bool_decide as He; [done|]. intros _.
  unfold find_from in Hfind.
  apply fmap_Some in Hfind as (n & (t & Hcut & Hno & Hlt)%find_char_Some & ->).
  exists (stake n (sdrop (String.length magic) wire)), t.
  split_and!; [|done| |lia].
  - unfold envelope. rewrite <- Hcut, <- Hmagic at 1.
    by rewrite stake_sdrop.
  - destruct n as [|n]; [lia|]. destruct (sdrop _ wire); [simpl in Hlt; lia|done].
Qed.

Lemma decimal_nonneg s : all_digits s → 0 ≤ decimal 0 s.
Proof. intros. by apply decimal_mono. Qed.

Lemma deserialize_Ret_inv wire m :
  deserialize wire = Ret m →
  size_of wire ≤ MAX_PAYLOAD_BYTES ∧
  ∃ n, wire = envelope (zeros n +:+ "1") (payload m).
Proof.
  intros Hm. destruct (deserialize_cut _ _ Hm) as (ds & p & -> & Hds & Hne & Hsize).
  split; [done|]. rewrite deserialize_envelope in Hm by done.
  destruct (parse_version ds 0) as [v|e|] eqn:Hv; [|done..].
  run_in Hm. case_bool_decide as Hver; [done|]. injection Hm as <-.
  apply parse_version_Ret_inv in Hv as [Hdig ->]; [|lia].
  destruct (decimal_zero_inv ds Hdig) as [n ->]; [|by exists n].
  by destruct (decide (decimal 0 ds = FORMAT_VERSION)).
Qed.

Lemma deserialize_zeros n p :
  size_of (envelope (zeros n +:+ "1") p) ≤ MAX_PAYLOAD_BYTES →
  deserialize (envelope (zeros n +:+ "1") p) = Ret (mkByteMessage p).
Proof.
  intros Hsize. destruct (decimal_zeros n) as [Hdig Hval].
  rewrite deserialize_envelope; [|by apply digits_no_colon|by destruct n|done].
  rewrite parse_version_small by (rewrite ?Hval; auto; lia). by rewrite Hval.
Qed.

Lemma serialize_envelope m :
  envelopePrefix +:+ payload m = envelope (zeros 0 +:+ "1") (payload m).
Proof. done. Qed.

Lemma serialize_Ret m w :
  serialize m = Ret w →
  w = envelope (zeros 0 +:+ "1") (payload m) ∧ size_of w ≤ MAX_PAYLOAD_BYTES.
Proof.
  unfold serialize. case_bool_decide as Hs; [done|]. intros [= <-].
  split; [apply serialize_envelope|]. rewrite size_of_app. lia.
Qed.

Lemma size_of_envelope ds p : size_of (envelope ds p) = 7 + size_of ds + size_of p.
Proof.
  unfold envelope. rewrite !size_of_app.
  change (size_of magic) with 6. change (String colon p) with ((String colon "") +:+ p).
  rewrite size_of_app. change (size_of (String colon "")) with 1. lia.
Qed.

Lemma parse_version_throws_std s v e : parse_version s v = Throw e → is_std e = true.
Proof.
  revert v. induction s as [|c s IH]; intros v; simpl; [done|].
  case_match; [by intros [= <-]|]. case_match; [by intros [= <-]|].
  unfold int32. repeat (case_bool_decide; run; try done). apply IH.
Qed.

Lemma deserialize_not_undefined wire : deserialize wire ≠ Undefined.
Proof.
  unfold deserialize. repeat (case_match; try done). run.
  destruct (parse_version _ 0) eqn:Hp; [by case_match|done|].
  by apply parse_version_defined in Hp.
Qed.

Lemma deserialize_throws_std wire e : deserialize wire = Throw e → is_std e = true.
Proof.
  unfold deserialize. repeat (case_match; try by intros [= <-]). run.
  destruct (parse_version _ 0) eqn:Hp; [|intros [= <-]; by eapply parse_version_throws_std|done].
  case_match; [by intros [= <-]|done].
Qed.

(** ** Properties *)

Lemma deserialize_serialize m wire :
  serialize m = Ret wire → deserialize wire = Ret m.
Proof.
  intros (-> & Hs)%serialize_Ret. rewrite deserialize_zeros by done. by destruct m.
Qed.

(** C10. Round trip: whatever [serialize] produces, [deserialize] turns back into
    the same message. *)
Theorem serialize_deserialize m wire :
  serialize m = Ret wire → deserialize wire = Ret m.
Proof. apply deserialize_serialize. Qed.

Lemma serialize_deserialize_witness :
  serialize (mkByteMessage "a:b") = Ret "motus:1:a:b" ∧
  deserialize "motus:1:a:b" = Ret (mkByteMessage "a:b").
Proof.
  split; [reflexivity|].
  apply (serialize_deserialize (mkByteMessage "a:b") "motus:1:a:b"). reflexivity.
Defined.

(** C37. The accepted wire forms, exactly: at most 4 MiB, the magic, a version
    field that is [1] with any number of leading zeros, a colon, and the payload
    verbatim. *)
Theorem deserialize_accepts wire m :
  deserialize wire = Ret m ↔
  size_of wire ≤ MAX_PAYLOAD_BYTES ∧
  ∃ n, wire = magic +:+ (zeros n +:+ "1") +:+ ":" +:+ payload m.
Proof.
  split; [apply deserialize_Ret_inv|].
  intros (Hs & n & ->). change (deserialize (envelope (zeros n +:+ "1") (payload m)) = Ret m).
  rewrite deserialize_zeros by done. by destruct m.
Qed.

(** Bounds: on every input the [int] accumulating the version stays in range
    (the guard at 100000 comes before the multiplication), so decoding is defined
    everywhere; it returns a message or throws a class derived from
    [std::exception], never anything [dispatch] would let through. *)
Theorem deserialize_defined wire :
  match deserialize wire with
  | Ret m => size_of (payload m) + 8 ≤ MAX_PAYLOAD_BYTES
  | Throw e => is_std e = true
  | Undefined => False
  end.
Proof.
  destruct (deserialize wire) as [m|e|] eqn:Hd.
  - apply deserialize_Ret_inv in Hd as (Hs & n & ->).
    rewrite size_of_envelope, size_of_app in Hs.
    change (size_of "1") with 1 in Hs. pose proof (size_of_nonneg (zeros n)). lia.
  - by eapply deserialize_throws_std.
  - by apply deserialize_not_undefined in Hd.
Qed.

(** A numeric version other than [FORMAT_VERSION] is refused by name, for
    every field the guard lets through, whatever the payload. *)
Theorem deserialize_unsupported ds p :
  all_digits ds → ds ≠ "" → decimal 0 ds ≤ 100000 → decimal 0 ds ≠ FORMAT_VERSION →
  size_of (magic +:+ ds +:+ ":" +:+ p) ≤ MAX_PAYLOAD_BYTES →
  deserialize (magic +:+ ds +:+ ":" +:+ p) =
    Throw (runtime_error ("unsupported format_version " +:+ pretty (decimal 0 ds) +:+
      " (this build understands " +:+ pretty FORMAT_VERSION +:+ ")")).
Proof.
  intros Hdig Hne Hsmall Hver Hsize.
  change (deserialize (envelope ds p) = Throw (runtime_error
    ("unsupported format_version " +:+ pretty (decimal 0 ds) +:+
      " (this build understands " +:+ pretty FORMAT_VERSION +:+ ")"))).
  rewrite deserialize_envelope by (auto using digits_no_colon).
  rewrite parse_version_small by (auto; lia). run. by rewrite bool_decide_true.
Qed.

Lemma deserialize_unsupported_witness :
  deserialize "motus:27:x" =
    Throw (runtime_error "unsupported format_version 27 (this build understands 1)").
Proof.
  apply (deserialize_unsupported "27" "x"); [|done|vm_compute; done|done|vm_compute; done].
  repeat split; vm_compute; done.
Defined.

(** Size bound: [serialize] refuses exactly the messages whose encoding is
    longer than 4 MiB, with [std::length_error], and every body [deserialize]
    accepts can be published again without growing. *)
Theorem size_bound :
  (∀ m, serialize m = Ret (envelopePrefix +:+ payload m) ∨
        (∃ text, serialize m = Throw (length_error text)) ∧
        byteCount m + 8 > MAX_PAYLOAD_BYTES) ∧
  (∀ wire m, deserialize wire = Ret m →
     ∃ wire', serialize m = Ret wire' ∧ size_of wire' ≤ size_of wire ∧
       deserialize wire' = Ret m).
Proof.
  split.
  - intros m. unfold serialize, byteCount. change (size_of envelopePrefix) with 8.
    case_bool_decide; [right|by left]. split; [by eexists|lia].
  - intros wire m (Hs & n & ->)%deserialize_Ret_inv.
    rewrite size_of_envelope, size_of_app in *. change (size_of "1") with 1 in *.
    pose proof (size_of_nonneg (zeros n)).
    exists (envelopePrefix +:+ payload m).
    assert (Hsize : size_of (envelopePrefix +:+ payload m) = 8 + size_of (payload m))
      by apply size_of_app.
    split_and!; [|lia|].
    + unfold serialize. change (size_of envelopePrefix) with 8.
      by rewrite bool_decide_false by lia.
    + rewrite serialize_envelope in *. rewrite deserialize_zeros by lia. by destruct m.
Qed.

(** Leading zeros are accepted although [serialize] never emits them. *)
Example deserialize_leading_zero : deserialize "motus:001:x" = Ret (mkByteMessage "x").
Proof. reflexivity. Qed.
