(* ===== verification/Dispatch.v ===== *)
(** The poison-message policy ([dispatch], [decode] and [classifyTransient] of
    [src/Consumer.cpp]; the handler types of [include/motus/Consumer.hpp]).

    [U] is the state user code lives in.  A [std::function] member may be empty,
    so both handlers are optional. *)

From S2P Require Import Prelude ITransport ByteMessage.
#[local] Open Scope Z_scope.

(** [using MessageHandler], [using DeferredMessageHandler] *)
Definition MessageHandler (U : Type) : Type := ByteMessage → M U unit.
Definition DeferredMessageHandler (U : Type) : Type := ByteMessage → Z → M U Disposition.

(** [struct Handlers] *)
Record Handlers (U : Type) : Type := mkHandlers {
  onMessage : option (MessageHandler U);
  onDeferred : option (DeferredMessageHandler U);
}.
Arguments mkHandlers {U} _ _.
Arguments onMessage {U} _.
Arguments onDeferred {U} _.

(** [struct DispatchResult] *)
Record DispatchResult : Type := mkDispatchResult {
  disposition : Disposition;
  error : string;
}.

#[export] Instance DispatchResult_eq_dec : EqDecision DispatchResult.
Proof. solve_decision. Defined.

(** [decode(body, message, failure)]: the message, or the verdict on a body no
    handler will see.  [deserialize] throws only classes [catch (const
    std::exception &)] catches, so anything else keeps propagating here. *)
Definition decode (body : string) : outcome (ByteMessage + DispatchResult) :=
  if bool_decide (size_of body > MAX_PAYLOAD_BYTES) then
    Ret (inr (mkDispatchResult Reject ("message body is " +:+ pretty (size_of body) +:+
      " bytes, over the " +:+ pretty MAX_PAYLOAD_BYTES +:+ " byte limit")))
  else
    match deserialize body with
    | Ret message => Ret (inl message)
    | Throw e => if is_std e then Ret (inr (mkDispatchResult Reject (what e))) else Throw e
    | Undefined => Undefined
    end.

(** [classifyTransient(e, redelivered)] *)
Definition classifyTransient (text : string) (redelivered : bool) : DispatchResult :=
  if redelivered then
    mkDispatchResult Reject
      ("transient failure persisted across a redelivery, treating as permanent: " +:+ text)
  else mkDispatchResult Requeue text.

(** The two [catch] clauses shared by both handler shapes. *)
Definition classify {U} (redelivered : bool) (e : exn) : M U DispatchResult :=
  match e with
  | TransientFailure text => mret (classifyTransient text redelivered)
  | e => if is_std e then mret (mkDispatchResult Reject (what e)) else throw e
  end.

(** [dispatch(body, handlers, redelivered, deliveryTag)] *)
Definition dispatch {U} (body : string) (handlers : Handlers U) (redelivered : bool)
    (deliveryTag : Z) : M U DispatchResult :=
  decoded ← lift (decode body);
  match decoded with
  | inr failure => mret failure
  | inl message =>
      match onDeferred handlers with
      | Some handler =>
          try_catch (d ← handler message deliveryTag; mret (mkDispatchResult d ""))
            (classify redelivered)
      | None =>
          match onMessage handlers with
          | None => mret (mkDispatchResult Reject
              "message understood, but no handler is configured")
          | Some handler =>
              try_catch (_ ← handler message; mret (mkDispatchResult Ack ""))
                (classify redelivered)
          end
      end
  end.

(** [dispatch(body, handler, redelivered)] *)
Definition dispatch_message {U} (body : string) (handler : option (MessageHandler U))
    (redelivered : bool) : M U DispatchResult :=
  dispatch body (mkHandlers handler None) redelivered 0.

(** ** Lemmas *)

(** The disposition a caught exception leads to. *)
Definition verdict (redelivered : bool) (e : exn) : Disposition :=
  match e with
  | TransientFailure _ => if redelivered then Reject else Requeue
  | _ => Reject
  end.

Lemma classify_spec {U} redelivered e (u : U) :
  if is_std e
  then ∃ text, classify redelivered e u = (Ret (mkDispatchResult (verdict redelivered e) text), u)
  else classify redelivered e u = (Throw e, u).
Proof. destruct e, redelivered; cbn; by eauto. Qed.

Lemma decode_Ret_inl body m : decode body = Ret (inl m) ↔ deserialize body = Ret m.
Proof.
  unfold decode. case_bool_decide as Hsize.
  - split; [done|]. intros Hd%deserialize_Ret_inv. lia.
  - destruct (deserialize body) as [|e|]; [naive_solver| |done].
    destruct (is_std e); naive_solver.
Qed.

(** Decoding always reaches a verdict of its own or hands over a message. *)
Lemma decode_total body :
  (∃ m, decode body = Ret (inl m) ∧ deserialize body = Ret m) ∨
  (∃ text, decode body = Ret (inr (mkDispatchResult Reject text))) ∧
    (∀ m, deserialize body ≠ Ret m).
Proof.
  destruct (deserialize body) as [m|e|] eqn:Hd.
  - left. exists m. split; [|done]. by apply decode_Ret_inl.
  - right. split; [|done]. unfold decode. rewrite Hd.
    case_bool_decide; [by eauto|]. rewrite (deserialize_throws_std _ _ Hd). by eauto.
  - by apply deserialize_not_undefined in Hd.
Qed.

Lemma dispatch_undecodable {U} body (handlers : Handlers U) redelivered tag u :
  (∀ m, deserialize body ≠ Ret m) →
  ∃ text, dispatch body handlers redelivered tag u = (Ret (mkDispatchResult Reject text), u).
Proof.
  intros Hbad. destruct (decode_total body) as [(m & _ & Hm)|((text & Ht) & _)].
  - by apply Hbad in Hm.
  - exists text. unfold dispatch. run. by rewrite Ht.
Qed.

Lemma dispatch_decoded {U} body (handlers : Handlers U) redelivered tag m :
  deserialize body = Ret m →
  dispatch body handlers redelivered tag =
    match onDeferred handlers with
    | Some handler =>
        try_catch (d ← handler m tag; mret (mkDispatchResult d "")) (classify redelivered)
    | None =>
        match onMessage handlers with
        | None => mret (mkDispatchResult Reject
            "message understood, but no handler is configured")
        | Some handler =>
            try_catch (_ ← handler m; mret (mkDispatchResult Ack "")) (classify redelivered)
        end
    end.
Proof. intros Hm%decode_Ret_inl. unfold dispatch. run. by rewrite Hm. Qed.

(** What the policy makes of one run of a handler. *)
Definition judged (redelivered : bool) (o : outcome Disposition) : outcome Disposition :=
  match o with
  | Throw e => if is_std e then Ret (verdict redelivered e) else Throw e
  | o => o
  end.

Definition outcome_disposition (o : outcome DispatchResult) : outcome Disposition :=
  r ← o; mret (disposition r).

Lemma try_classify {U} (m : M U DispatchResult) redelivered u :
  outcome_disposition (try_catch m (classify redelivered) u).1 =
    judged redelivered (outcome_disposition (m u).1) ∧
  (try_catch m (classify redelivered) u).2 = (m u).2.
Proof.
  unfold try_catch. destruct (m u) as [[r|e|] u']; [done| |done].
  pose proof (classify_spec redelivered e u') as H.
  unfold outcome_disposition, judged. run.
  destruct (is_std e) eqn:He.
  - destruct H as (text & H). by rewrite H.
  - by rewrite H.
Qed.

Lemma dispatch_handled {U} body (handlers : Handlers U) redelivered tag m u :
  deserialize body = Ret m →
  outcome_disposition (dispatch body handlers redelivered tag u).1 =
    match onDeferred handlers, onMessage handlers with
    | Some handler, _ => judged redelivered (handler m tag u).1
    | None, Some handler => judged redelivered (_ ← (handler m u).1; mret Ack)
    | None, None => Ret Reject
    end ∧
  (dispatch body handlers redelivered tag u).2 =
    match onDeferred handlers, onMessage handlers with
    | Some handler, _ => (handler m tag u).2
    | None, Some handler => (handler m u).2
    | None, None => u
    end.
Proof.
  intros Hm. rewrite (dispatch_decoded _ _ _ _ m Hm).
  destruct (onDeferred handlers) as [h|]; [|destruct (onMessage handlers) as [h|]]; [..|done].
  - destruct (try_classify (d ← h m tag; mret (mkDispatchResult d "")) redelivered u) as [-> ->].
    run. by destruct (h m tag u) as [[] ?].
  - destruct (try_classify (_ ← h m; mret (mkDispatchResult Ack "")) redelivered u) as [-> ->].
    run. by destruct (h m u) as [[] ?].
Qed.

(** ** Properties *)

(** C2. The policy, complete: a body that does not decode is rejected and no
    handler runs; otherwise the deferred handler (or, failing that, the plain
    one) runs exactly once on the decoded message and the verdict is what it
    returned ([Ack] for the plain one), a requeue for a [TransientFailure] on a
    first delivery, a rejection for any other [std::exception]; an exception
    that is not a [std::exception] is not judged at all and propagates. *)
Theorem dispatch_policy {U} body (handlers : Handlers U) redelivered tag u :
  let '(o, u') := dispatch body handlers redelivered tag u in
  match deserialize body with
  | Ret m =>
      match onDeferred handlers, onMessage handlers with
      | Some handler, _ =>
          outcome_disposition o = judged redelivered (handler m tag u).1 ∧
          u' = (handler m tag u).2
      | None, Some handler =>
          outcome_disposition o = judged redelivered (_ ← (handler m u).1; mret Ack) ∧
          u' = (handler m u).2
      | None, None => outcome_disposition o = Ret Reject ∧ u' = u
      end
  | _ => outcome_disposition o = Ret Reject ∧ u' = u
  end.
Proof.
  destruct (dispatch body handlers redelivered tag u) as [o u'] eqn:Hd.
  destruct (deserialize body) as [m| |] eqn:Hm.
  - destruct (dispatch_handled body handlers redelivered tag m u Hm) as [Ho Hu].
    rewrite Hd in Ho, Hu. cbn in Ho, Hu.
    destruct (onDeferred handlers), (onMessage handlers); by rewrite <- Ho, <- Hu.
  - destruct (dispatch_undecodable body handlers redelivered tag u) as (text & Ht);
      [by rewrite Hm|]. rewrite Hd in Ht. by injection Ht as -> ->.
  - by apply deserialize_not_undefined in Hm.
Qed.

(** The retry is bounded: a redelivered message is never requeued because a
    handler failed -- a [Requeue] verdict on a redelivery is one the deferred
    handler returned itself. *)
Theorem dispatch_no_second_requeue {U} body (handlers : Handlers U) tag u text u' :
  dispatch body handlers true tag u = (Ret (mkDispatchResult Requeue text), u') →
  ∃ handler m, onDeferred handlers = Some handler ∧ deserialize body = Ret m ∧
    handler m tag u = (Ret Requeue, u').
Proof.
  intros Hd. destruct (decode_total body) as [(m & _ & Hm)|(_ & Hbad)].
  - destruct (dispatch_handled body handlers true tag m u Hm) as [Ho Hu].
    rewrite Hd in Ho, Hu. unfold judged, outcome_disposition in Ho. run_in Ho. cbn in Hu.
    destruct (onDeferred handlers) as [h|]; [|destruct (onMessage handlers) as [h|]; [|done]].
    + exists h, m. split_and!; [done..|].
      destruct (h m tag u) as [[d|e|] v]; cbn in *; [by simplify_eq|destruct e; cbn in Ho; done|done].
    + destruct (h m u) as [[d|e|] v]; cbn in *; [done|destruct e; cbn in Ho; done|done].
  - destruct (dispatch_undecodable body handlers true tag u Hbad) as (t & Ht). by rewrite Hd in Ht.
Qed.

Lemma dispatch_no_second_requeue_witness :
  let h : DeferredMessageHandler Z := λ _ tag u, (Ret Requeue, (u + tag)%Z) in
  ∃ handler m, onDeferred (mkHandlers None (Some h)) = Some handler ∧
    deserialize "motus:1:job" = Ret m ∧ handler m 7 1 = (Ret Requeue, 8%Z).
Proof.
  intros h.
  apply (dispatch_no_second_requeue "motus:1:job" (mkHandlers None (Some h)) 7 1 "" 8).
  reflexivity.
Defined.
