(* ===== verification/Broker.v ===== *)
(** The process-wide in-memory broker (class [Broker] of
    [src/transport/InMemoryTransport.cpp]).  Every public member function takes
    the mutex for its whole body, so each one is a single atomic step on the
    broker state. *)

From S2P Require Import Prelude ITransport RouteMatch.
#[local] Open Scope Z_scope.

(** ** State *)

(** [struct Held] *)
Record Held : Type := mkHeld {
  sequence : Z;
  body : string;
  redelivered : bool;
}.

#[export] Instance Held_eq_dec : EqDecision Held.
Proof. solve_decision. Defined.

(** [struct Broker::TopicState]; the deque front is the list head. *)
Record TopicState : Type := mkTopicState {
  messages : list Held;
  options : TopicOptions;
  binding : string;
}.

(** [TopicState{}], what [operator[]] inserts. *)
Definition default_TopicState : TopicState := mkTopicState [] default_TopicOptions "".

(** The members of [Broker] besides the mutex. *)
Record Broker : Type := mkBroker {
  topics : gmap string TopicState;
  groups : gmap string Routing;
  last_sequence : Z;
}.

Definition empty_Broker : Broker := mkBroker ∅ ∅ 0.

Definition with_topics (f : gmap string TopicState → gmap string TopicState) (b : Broker) : Broker :=
  mkBroker (f (topics b)) (groups b) (last_sequence b).
Definition with_groups (f : gmap string Routing → gmap string Routing) (b : Broker) : Broker :=
  mkBroker (topics b) (f (groups b)) (last_sequence b).

(** [state.messages = f(state.messages)] on an entry that exists. *)
Definition with_messages (f : list Held → list Held) (st : TopicState) : TopicState :=
  mkTopicState (f (messages st)) (options st) (binding st).
Definition update_messages (topic : Topic) (f : list Held → list Held) : M Broker unit :=
  modify (with_topics (alter (with_messages f) topic)).

(** [++_sequence] *)
Definition next_sequence : M Broker Z := λ b,
  let n := incr64 (last_sequence b) in
  (Ret n, mkBroker (topics b) (groups b) n).

(** [_topics[topic]] *)
Definition touch_topic (topic : Topic) : M Broker unit :=
  modify (with_topics (λ ts,
    match ts !! topic with Some _ => ts | None => <[topic := default_TopicState]> ts end)).

(** [_groups[group]]; a missing entry is value-initialised to [Exact]. *)
Definition index_group (g : string) : M Broker Routing := λ b,
  match groups b !! g with
  | Some r => (Ret r, b)
  | None => (Ret Exact, with_groups <[g := Exact]> b)
  end.

(** ** Declaration *)

(** The group half of [Broker::ensureTopic]. *)
Definition ensure_group (opts : TopicOptions) : M Broker unit :=
  if is_empty (group opts) then mret tt
  else
    found ← gets (λ b, groups b !! group opts);
    match found with
    | None => modify (with_groups <[group opts := routing opts]>)
    | Some kind =>
        throw_if (bool_decide (kind ≠ routing opts))
          (runtime_error ("cannot declare group '" +:+ group opts +:+
            "': it already exists with a different routing kind (every declarer must " +:+
            "agree on Exact/Pattern/Broadcast)"))
    end.

(** [Broker::ensureTopic] *)
Definition ensureTopic (topic : Topic) (opts : TopicOptions) : M Broker unit :=
  _ ← ensure_group opts;
  found ← gets (λ b, topics b !! topic);
  match found with
  | None =>
      modify (with_topics <[topic := mkTopicState [] opts
        (if is_empty (route opts) then topic else route opts)]>)
  | Some st =>
      let existing := options st in
      throw_if
        (bool_decide (durable existing ≠ durable opts) ||
         bool_decide (shared existing ≠ shared opts) ||
         bool_decide (deleteWhenUnused existing ≠ deleteWhenUnused opts) ||
         bool_decide (deadLetter existing ≠ deadLetter opts) ||
         bool_decide (maxLength existing ≠ maxLength opts) ||
         bool_decide (overflow existing ≠ overflow opts))
        (runtime_error ("cannot declare topic '" +:+ topic +:+
          "': it already exists with different " +:+
          "properties (a PRECONDITION_FAILED here means an existing destination was " +:+
          "declared with different properties -- durable/shared/deleteWhenUnused/" +:+
          "deadLetter/maxLength/overflow must match everywhere)"))
  end.

(** ** Storing a message *)

(** [Broker::deadLetterLocked], with [enqueueLocked] as a parameter: the two
    functions call each other. *)
Definition deadLetterWith (enqueue : Topic → Held → M Broker bool)
    (source : Topic) (message : Held) : M Broker unit :=
  found ← gets (λ b, topics b !! source);
  match found with
  | None => mret tt
  | Some st =>
      if negb (deadLetter (options st)) then mret tt
      else
        let forensic := deadLetterTopic source in
        target ← gets (λ b, topics b !! forensic);
        match target with
        | None =>
            throw (logic_error ("dead-letter destination '" +:+ forensic +:+
              "' was not provisioned with source '" +:+ source +:+ "'"))
        | Some _ =>
            n ← next_sequence;
            _ ← enqueue forensic (mkHeld n (body message) false);
            mret tt
        end
  end.

(** Is the destination at its bound? *)
Definition is_full (st : TopicState) : bool :=
  bool_decide (maxLength (options st) > 0) &&
  bool_decide (Z.of_nat (length (messages st)) >= maxLength (options st)).

(** [Broker::enqueueLocked].  [state] is a reference to the entry [topic] names;
    [fuel] bounds the mutual recursion with [deadLetterLocked]. *)
Fixpoint enqueueLocked (fuel : nat) (topic : Topic) (message : Held) : M Broker bool :=
  match fuel with
  | O => undefined
  | S fuel =>
      let deadLetterLocked := deadLetterWith (enqueueLocked fuel) in
      found ← gets (λ b, topics b !! topic);
      match found with
      | None => undefined
      | Some st =>
          let push_back :=
            _ ← update_messages topic (λ q, q ++ [message]); mret true in
          if is_full st then
            match overflow (options st), messages st with
            | DropHead, [] => undefined
            | DropHead, evicted :: rest =>
                _ ← update_messages topic (λ _, rest);
                _ ← (if deadLetter (options st)
                     then deadLetterLocked topic evicted else mret tt);
                push_back
            | RejectPublish, _ => mret false
            | RejectPublishDlx, _ =>
                _ ← (if deadLetter (options st)
                     then deadLetterLocked topic message else mret tt);
                mret false
            end
          else push_back
      end
  end.

(** Enough fuel for any call on this broker: each nested call names a strictly
    longer topic that exists ([enqueueLocked_defined]). *)
Definition enqueue_fuel (b : Broker) : nat :=
  S (max_list (String.length <$> elements (dom (topics b)))).

Definition enqueue (topic : Topic) (message : Held) : M Broker bool := λ b,
  enqueueLocked (enqueue_fuel b) topic message b.

(** [Broker::deadLetterLocked] *)
Definition deadLetterLocked (source : Topic) (message : Held) : M Broker unit := λ b,
  deadLetterWith (enqueueLocked (enqueue_fuel b)) source message b.

(** [Broker::deadLetter] *)
Definition deadLetter_message (source : Topic) (message : Held) : M Broker unit :=
  deadLetterLocked source message.

(** ** Publishing *)

(** Does a destination of the group receive a message with this key? *)
Definition route_accepts (kind : Routing) (bind key : string) : bool :=
  match kind with
  | Broadcast => true
  | Exact => String.eqb bind key
  | Pattern => routeMatches bind key
  end.

(** [for (auto &[name, state] : _topics)]: the keys never change during the
    loop, the states do. *)
Fixpoint publish_loop (g : string) (kind : Routing) (key text : string)
    (names : list string) (accepted : bool) : M Broker bool :=
  match names with
  | [] => mret accepted
  | name :: names =>
      found ← gets (λ b, topics b !! name);
      match found with
      | None => undefined
      | Some st =>
          if negb (String.eqb (group (options st)) g) then
            publish_loop g kind key text names accepted
          else if route_accepts kind (binding st) key then
            n ← next_sequence;
            stored ← enqueue name (mkHeld n text false);
            publish_loop g kind key text names (stored && accepted)
          else publish_loop g kind key text names accepted
      end
  end.

(** [Broker::publish] *)
Definition publish (topic : Topic) (text routeOverride : string) : M Broker bool :=
  origin ← gets (λ b, topics b !! topic);
  let g := match origin with None => "" | Some st => group (options st) end in
  if is_empty g then
    _ ← touch_topic topic;
    n ← next_sequence;
    enqueue topic (mkHeld n text false)
  else
    kind ← index_group g;
    let key :=
      if is_empty routeOverride
      then match origin with None => "" | Some st => binding st end
      else routeOverride in
    names ← gets (λ b, sorted_keys String.le (topics b));
    publish_loop g kind key text names true.

(** ** Consuming *)

(** [Broker::take]; [None] is the [false] return. *)
Definition take_message (topic : Topic) : M Broker (option Held) :=
  found ← gets (λ b, topics b !! topic);
  match found with
  | None => mret None
  | Some st =>
      match messages st with
      | [] => mret None
      | message :: rest =>
          _ ← update_messages topic (λ _, rest);
          mret (Some message)
      end
  end.

(** [Broker::requeue] *)
Definition requeue_message (topic : Topic) (message : Held) : M Broker unit :=
  _ ← touch_topic topic;
  update_messages topic (cons (mkHeld (sequence message) (body message) true)).

(** [Broker::depth] *)
Definition depth (topic : Topic) : M Broker Z :=
  gets (λ b,
    match topics b !! topic with
    | None => 0
    | Some st => u32 (Z.of_nat (length (messages st)))
    end).

(** [Broker::purge] *)
Definition purge (topic : Topic) : M Broker Z :=
  found ← gets (λ b, topics b !! topic);
  match found with
  | None => mret 0
  | Some st =>
      let removed := u32 (Z.of_nat (length (messages st))) in
      _ ← update_messages topic (λ _, []);
      mret removed
  end.

(** ** Shape: what storing and taking messages never changes *)

Definition shape_of (st : TopicState) : TopicOptions * string := (options st, binding st).

(** Same topics with the same options and bindings, same groups. *)
Definition same_shape (b b' : Broker) : Prop :=
  groups b = groups b' ∧ shape_of <$> topics b = shape_of <$> topics b'.

#[export] Instance same_shape_equiv : Equivalence same_shape.
Proof.
  unfold same_shape. split; [by intros ?|intros ?? []; by split|].
  intros ??? [-> ->] [-> ->]. done.
Qed.

Lemma same_shape_lookup b b' t st :
  same_shape b b' → topics b !! t = Some st →
  ∃ st', topics b' !! t = Some st' ∧ options st' = options st ∧ binding st' = binding st.
Proof.
  intros [_ Hs] Ht. assert (Hl : shape_of <$> topics b' !! t = Some (shape_of st)).
  { rewrite <- lookup_fmap, <- Hs, lookup_fmap, Ht. done. }
  apply fmap_Some in Hl as (st' & ? & [=]). eauto.
Qed.

Lemma same_shape_None b b' t : same_shape b b' → topics b !! t = None → topics b' !! t = None.
Proof.
  intros [_ Hs] Ht. apply (fmap_None shape_of).
  by rewrite <- lookup_fmap, <- Hs, lookup_fmap, Ht.
Qed.

Lemma same_shape_dom b b' : same_shape b b' → dom (topics b) = dom (topics b').
Proof.
  intros [_ Hs]. by rewrite <- (dom_fmap_L shape_of (topics b)), Hs, dom_fmap_L.
Qed.

Lemma same_shape_update t f b : same_shape b (with_topics (alter (with_messages f) t) b).
Proof.
  split; [done|]. apply map_eq. intros u. cbn. rewrite !lookup_fmap, lookup_alter.
  case_decide; [subst|done]. by destruct (topics b !! u).
Qed.

Lemma same_shape_sequence n b : same_shape b (mkBroker (topics b) (groups b) n).
Proof. done. Qed.

#[export] Hint Resolve same_shape_update same_shape_sequence : motus.

Lemma update_lookup t f b u :
  topics (with_topics (alter (with_messages f) t) b) !! u =
    if decide (t = u) then with_messages f <$> topics b !! t else topics b !! u.
Proof. exact (lookup_alter (with_messages f) (topics b) t u). Qed.

(** ** The dead-letter chain of a topic *)

Inductive downstream (t : Topic) : Topic → Prop :=
  | downstream_here : downstream t (deadLetterTopic t)
  | downstream_next u : downstream t u → downstream t (deadLetterTopic u).

Lemma deadLetterTopic_length t :
  String.length (deadLetterTopic t) = (18 + String.length t)%nat.
Proof. unfold deadLetterTopic. by rewrite length_app_string. Qed.

Lemma downstream_length t u : downstream t u → (String.length t < String.length u)%nat.
Proof. induction 1; rewrite deadLetterTopic_length; lia. Qed.

Lemma downstream_irrefl t : ¬ downstream t t.
Proof. intros ?%downstream_length. lia. Qed.

Lemma downstream_trans_here t u : downstream (deadLetterTopic t) u → downstream t u.
Proof. induction 1; repeat constructor; done. Qed.

#[export] Hint Resolve downstream_here downstream_trans_here : motus.

(** ** What storing one message does *)

(** The queue of a destination after a publish reached it. *)
Definition queue_after (st : TopicState) (m : Held) : list Held :=
  if is_full st then
    match overflow (options st) with
    | DropHead => tail (messages st) ++ [m]
    | RejectPublish | RejectPublishDlx => messages st
    end
  else messages st ++ [m].

(** Whether the publish is accepted. *)
Definition admits (st : TopicState) : bool :=
  negb (is_full st) || bool_decide (overflow (options st) = DropHead).

Definition stored (st : TopicState) (m : Held) : TopicState :=
  mkTopicState (queue_after st m) (options st) (binding st).

(** Contract of an enqueue operation. *)
Definition enqueue_contract (enq : Topic → Held → M Broker bool) : Prop :=
  ∀ t m b o b', enq t m b = (o, b') →
    same_shape b b' ∧
    (∀ u, u ≠ t → ¬ downstream t u → topics b' !! u = topics b !! u) ∧
    (∀ r st, o = Ret r → topics b !! t = Some st →
       r = admits st ∧ topics b' !! t = Some (stored st m)).

Lemma deadLetterWith_frame enq t m b o b' :
  enqueue_contract enq → deadLetterWith enq t m b = (o, b') →
  same_shape b b' ∧ (∀ u, ¬ downstream t u → topics b' !! u = topics b !! u).
Proof.
  intros Henq. unfold deadLetterWith. run.
  destruct (topics b !! t) as [st|]; [|by intros [= _ <-]].
  destruct (negb _); [by intros [= _ <-]|].
  destruct (topics b !! deadLetterTopic t); [|by intros [= _ <-]].
  unfold next_sequence. cbn [fst snd].
  destruct (enq _ _ _) as [o1 b1] eqn:He.
  apply Henq in He as (Hshape & Hframe & _).
  assert (Hres : same_shape b b1 ∧ ∀ u, ¬ downstream t u → topics b1 !! u = topics b !! u).
  { split; [by etrans; [|exact Hshape]|].
    intros u Hu. rewrite Hframe; [done| |]; intros ?; subst; apply Hu; auto with motus. }
  by destruct o1; intros [= _ <-].
Qed.

Lemma is_full_nonempty st : is_full st = true → messages st ≠ [].
Proof.
  unfold is_full. intros [H1%bool_decide_eq_true H2%bool_decide_eq_true]%andb_true_iff Hm.
  rewrite Hm in H2. simpl in H2. lia.
Qed.

Lemma push_back_stored b t (m : Held) (q : list Held) st :
  topics b !! t = Some (mkTopicState q (options st) (binding st)) →
  topics (with_topics (alter (with_messages (λ q, q ++ [m])) t) b) !! t =
    Some (mkTopicState (q ++ [m]) (options st) (binding st)).
Proof. intros H. rewrite update_lookup, decide_True by done. by rewrite H. Qed.

Lemma optional_deadLetter_frame enq t (c : bool) m b o b' :
  enqueue_contract enq →
  (if c then deadLetterWith enq t m else mret tt) b = (o, b') →
  same_shape b b' ∧ (∀ u, ¬ downstream t u → topics b' !! u = topics b !! u).
Proof.
  intros Henq. destruct c; [by apply deadLetterWith_frame|by intros [= _ <-]].
Qed.

Lemma enqueueLocked_contract fuel : enqueue_contract (enqueueLocked fuel).
Proof.
  induction fuel as [|fuel IH]; intros t m b o b'; [by intros [= <- <-]|].
  cbn [enqueueLocked]. run.
  destruct (topics b !! t) as [st|] eqn:Ht; [|by intros [= <- <-]].
  unfold stored, queue_after, admits.
  destruct (is_full st) eqn:Hfull; unfold update_messages; run.
  2:{ intros [= <- <-]. split_and!; [auto with motus|intros u Hne _|].
      - rewrite update_lookup, decide_False by done. done.
      - intros r st0 [= <-] [= <-]. rewrite Hfull, ?Hov. split; [done|].
        apply push_back_stored. rewrite Ht. by destruct st. }
  destruct (overflow (options st)) eqn:Hov.
  - destruct (messages st) as [|ev rest] eqn:Hm; [by apply is_full_nonempty in Hfull|].
    set (b1 := with_topics (alter (with_messages (λ _, rest)) t) b).
    match goal with |- context [(if ?c then ?x else ?y) b1] =>
      destruct ((if c then x else y) b1) as [o2 b2] eqn:Hdl end.
    assert (Hb1 : topics b1 !! t = Some (mkTopicState rest (options st) (binding st))).
    { unfold b1. rewrite update_lookup, decide_True by done. by rewrite Ht. }
    apply optional_deadLetter_frame in Hdl as [Hs2 Hf2]; [|done].
    assert (Hs : same_shape b b2) by (etrans; [|exact Hs2]; apply same_shape_update).
    assert (Hfr : ∀ u, u ≠ t → ¬ downstream t u → topics b2 !! u = topics b !! u).
    { intros u Hne Hu. rewrite Hf2 by done. unfold b1.
      by rewrite update_lookup, decide_False by done. }
    destruct o2 as [[]|e|]; intros [= <- <-]; split_and!; try done.
    + etrans; [exact Hs|]. apply same_shape_update.
    + intros u Hne Hu. rewrite update_lookup, decide_False by done. by apply Hfr.
    + intros r st0 [= <-] [= <-]. rewrite Hfull, ?Hov. split; [done|].
      apply push_back_stored. rewrite Hf2 by apply downstream_irrefl.
      rewrite Hb1. by rewrite Hm.
  - intros [= <- <-]. split_and!; [done..|]. intros r st0 [= <-] [= <-]. rewrite Hfull, ?Hov.
    split; [by rewrite bool_decide_false by congruence|]. rewrite Ht. by destruct st.
  - match goal with |- context [(if ?c then ?x else ?y) b] =>
      destruct ((if c then x else y) b) as [o2 b2] eqn:Hdl end.
    apply optional_deadLetter_frame in Hdl as [Hs2 Hf2]; [|done].
    assert (Hfr : ∀ u, u ≠ t → ¬ downstream t u → topics b2 !! u = topics b !! u) by auto.
    destruct o2 as [[]|e|]; intros [= <- <-]; split_and!; try done.
    intros r st0 [= <-] [= <-]. rewrite Hfull, ?Hov.
    split; [by rewrite bool_decide_false by congruence|].
    rewrite Hf2 by apply downstream_irrefl. rewrite Ht. by destruct st.
Qed.

Lemma enqueue_contract_enqueue : enqueue_contract enqueue.
Proof. intros t m b o b'. apply enqueueLocked_contract. Qed.

(** ** Termination: the fuel is always enough *)

Definition chain_bound (b : Broker) (t : Topic) (fuel : nat) : Prop :=
  ∀ u st, topics b !! u = Some st → (String.length u < String.length t + fuel)%nat.

Lemma chain_bound_shape b b' t fuel :
  same_shape b b' → chain_bound b t fuel → chain_bound b' t fuel.
Proof.
  intros Hs Hb u st Hu. symmetry in Hs.
  destruct (same_shape_lookup _ _ _ _ Hs Hu) as (st' & Hu' & _). by eapply Hb.
Qed.

Lemma deadLetterWith_defined fuel t m b :
  (∀ t m b, is_Some (topics b !! t) → chain_bound b t fuel →
     (enqueueLocked fuel t m b).1 ≠ Undefined) →
  chain_bound b t (S fuel) →
  (deadLetterWith (enqueueLocked fuel) t m b).1 ≠ Undefined.
Proof.
  intros Henq Hb. unfold deadLetterWith. run.
  destruct (topics b !! t) as [st|]; [|done].
  destruct (negb _); [done|].
  destruct (topics b !! deadLetterTopic t) as [f|] eqn:Hf; [|done].
  unfold next_sequence. cbn [fst snd].
  match goal with |- context [enqueueLocked fuel ?u ?m ?b] =>
    pose proof (Henq u m b) as He; destruct (enqueueLocked fuel u m b) as [[]?] end;
    cbn in *; [done|done|].
  intros _. apply He; [by eexists| |done]. intros u st' Hu. rewrite deadLetterTopic_length.
  specialize (Hb u st' Hu). lia.
Qed.

Lemma enqueueLocked_defined_at fuel t m b :
  is_Some (topics b !! t) → chain_bound b t fuel →
  (enqueueLocked fuel t m b).1 ≠ Undefined.
Proof.
  revert t m b. induction fuel as [|fuel IH]; intros t m b [st Ht] Hb.
  { specialize (Hb t st Ht). lia. }
  cbn [enqueueLocked]. run. rewrite Ht.
  destruct (is_full st) eqn:Hfull; [|done].
  assert (Hdl : ∀ m b', same_shape b b' →
    ((if deadLetter (options st) then deadLetterWith (enqueueLocked fuel) t m else mret tt) b').1
      ≠ Undefined).
  { intros m' b' Hs. destruct (deadLetter (options st)); [|done].
    apply deadLetterWith_defined; [done|]. by eapply chain_bound_shape. }
  destruct (overflow (options st)); [| done |].
  - destruct (messages st) as [|ev rest] eqn:Hm; [by apply is_full_nonempty in Hfull|].
    unfold update_messages. run.
    match goal with |- context [(if _ then _ else _) ?b1] =>
      specialize (Hdl ev b1 (same_shape_update _ _ _)) end.
    revert Hdl. run.
    by match goal with |- context [(if ?c then ?x else ?y) ?s] =>
      destruct ((if c then x else y) s) as [[] ?] end.
  - specialize (Hdl m b ltac:(done)). revert Hdl. run.
    by match goal with |- context [(if ?c then ?x else ?y) ?s] =>
      destruct ((if c then x else y) s) as [[] ?] end.
Qed.

Lemma enqueue_fuel_bound b t : chain_bound b t (enqueue_fuel b).
Proof.
  intros u st Hu. unfold enqueue_fuel.
  assert (String.length u ≤ max_list (String.length <$> elements (dom (topics b))))%nat; [|lia].
  apply max_list_elem_of_le, list_elem_of_fmap. exists u. split; [done|].
  apply elem_of_elements, elem_of_dom. by eexists.
Qed.

Lemma enqueue_defined_at t m b :
  is_Some (topics b !! t) → (enqueue t m b).1 ≠ Undefined.
Proof. intros Ht. apply enqueueLocked_defined_at; [done|apply enqueue_fuel_bound]. Qed.

Lemma deadLetterLocked_defined t m b : (deadLetterLocked t m b).1 ≠ Undefined.
Proof.
  apply deadLetterWith_defined; [intros; by apply enqueueLocked_defined_at|].
  intros u st Hu. pose proof (enqueue_fuel_bound b t u st Hu). lia.
Qed.

(** ** Provisioned destinations never make storing throw *)

(** The forensic destination exists and is not itself dead-lettered, which is
    how [InMemoryTransport::ensureTopic] declares it. *)
Definition provisioned (b : Broker) (t : Topic) : Prop :=
  ∀ st, topics b !! t = Some st → deadLetter (options st) = true →
    ∃ f, topics b !! deadLetterTopic t = Some f ∧ deadLetter (options f) = false.

Lemma provisioned_shape b b' t : same_shape b b' → provisioned b t → provisioned b' t.
Proof.
  intros Hs Hp st' Ht' Hdl. symmetry in Hs.
  destruct (same_shape_lookup _ _ _ _ Hs Ht') as (st & Ht & Ho & _).
  rewrite <- Ho in Hdl. destruct (Hp _ Ht Hdl) as (f & Hf & Hfd). symmetry in Hs.
  destruct (same_shape_lookup _ _ _ _ Hs Hf) as (f' & Hf' & Ho' & _).
  exists f'. by rewrite Ho'.
Qed.

Lemma broker_eq b b' :
  topics b = topics b' → groups b = groups b' → last_sequence b = last_sequence b' → b = b'.
Proof. destruct b, b'. cbn. by intros -> -> ->. Qed.

(** The broker after [operator[]] on its topics. *)
Definition touched (t : Topic) (b : Broker) : Broker :=
  match topics b !! t with
  | Some _ => b
  | None => with_topics <[t := default_TopicState]> b
  end.

Lemma touch_topic_run t b : touch_topic t b = (Ret tt, touched t b).
Proof.
  unfold touch_topic, touched. run. f_equal. apply broker_eq; unfold with_topics;
    by destruct (topics b !! t).
Qed.

Lemma touched_lookup t b u :
  topics (touched t b) !! u =
    if decide (t = u) then Some (default default_TopicState (topics b !! u)) else topics b !! u.
Proof.
  unfold touched. destruct (topics b !! t) as [st|] eqn:Ht; case_decide as Htu; subst.
  - by rewrite Ht.
  - done.
  - rewrite Ht. apply lookup_insert_eq.
  - by apply lookup_insert_ne.
Qed.

Lemma touched_known t b st : topics b !! t = Some st → touched t b = b.
Proof. unfold touched. by intros ->. Qed.

Lemma touched_sequence t b : last_sequence (touched t b) = last_sequence b.
Proof. unfold touched. by destruct (topics b !! t). Qed.

Lemma touched_groups t b : groups (touched t b) = groups b.
Proof. unfold touched. by destruct (topics b !! t). Qed.

(** Storing into a destination without dead-lettering touches nothing else. *)
Lemma enqueueLocked_leaf fuel t m b st :
  topics b !! t = Some st → deadLetter (options st) = false →
  enqueueLocked (S fuel) t m b = (Ret (admits st), with_topics <[t := stored st m]> b).
Proof.
  intros Ht Hdl. pose proof (enqueueLocked_contract (S fuel) t m b) as Hc.
  destruct (enqueueLocked (S fuel) t m b) as [o b'] eqn:He.
  destruct (Hc o b' eq_refl) as ([Hg _] & _ & Hown).
  assert (Hok : ∃ r, o = Ret r ∧ last_sequence b' = last_sequence b ∧
    ∀ u, u ≠ t → topics b' !! u = topics b !! u).
  { revert He. cbn [enqueueLocked]. run. rewrite Ht, Hdl.
    destruct (is_full st) eqn:Hfull; unfold update_messages; run.
    - destruct (overflow (options st)).
      + destruct (messages st) as [|ev rest] eqn:Hm; [by apply is_full_nonempty in Hfull|].
        intros [= <- <-]. eexists. split_and!; [done..|].
        intros u Hu. by rewrite !update_lookup, !decide_False by done.
      + intros [= <- <-]. by eexists.
      + intros [= <- <-]. by eexists.
    - intros [= <- <-]. eexists. split_and!; [done..|].
      intros u Hu. by rewrite !update_lookup, !decide_False by done. }
  destruct Hok as (r & -> & Hseq & Hfr). destruct (Hown r st eq_refl Ht) as [-> Hown'].
  f_equal. apply broker_eq; [|done..]. apply map_eq. intros u. cbn. rewrite lookup_insert.
  case_decide; [by subst|by apply Hfr].
Qed.

(** The copy a forensic destination receives. *)
Definition forensic_copy (b : Broker) (m : Held) : Held :=
  mkHeld (incr64 (last_sequence b)) (body m) false.

(** The broker after a rejected message was preserved in forensic topic [f]. *)
Definition dead_lettered (t : Topic) (f : TopicState) (m : Held) (b : Broker) : Broker :=
  mkBroker (<[deadLetterTopic t := stored f (forensic_copy b m)]> (topics b)) (groups b)
    (incr64 (last_sequence b)).

Lemma deadLetterWith_provisioned fuel t m b st f :
  topics b !! t = Some st → deadLetter (options st) = true →
  topics b !! deadLetterTopic t = Some f → deadLetter (options f) = false →
  deadLetterWith (enqueueLocked (S fuel)) t m b = (Ret tt, dead_lettered t f m b).
Proof.
  intros Ht Hdl Hf Hfd. unfold deadLetterWith. run. rewrite Ht, Hdl. cbn [negb].
  rewrite Hf. unfold next_sequence. cbn [fst snd].
  by rewrite (enqueueLocked_leaf fuel _ _ _ f).
Qed.

Lemma deadLetterLocked_provisioned t m b st f :
  topics b !! t = Some st → deadLetter (options st) = true →
  topics b !! deadLetterTopic t = Some f → deadLetter (options f) = false →
  deadLetterLocked t m b = (Ret tt, dead_lettered t f m b).
Proof.
  unfold deadLetterLocked, enqueue_fuel. generalize (max_list (String.length <$> elements
    (dom (topics b)))). intros n. apply deadLetterWith_provisioned.
Qed.

Lemma deadLetterLocked_off t m b st :
  topics b !! t = Some st → deadLetter (options st) = false →
  deadLetterLocked t m b = (Ret tt, b).
Proof. intros Ht Hdl. unfold deadLetterLocked, deadLetterWith. run. by rewrite Ht, Hdl. Qed.

Lemma deadLetterLocked_ok t m b :
  provisioned b t → ∃ b', deadLetterLocked t m b = (Ret tt, b').
Proof.
  intros Hp. destruct (topics b !! t) as [st|] eqn:Ht.
  - destruct (deadLetter (options st)) eqn:Hdl.
    + destruct (Hp st Ht Hdl) as (f & Hf & Hfd). eexists.
      by eapply deadLetterLocked_provisioned.
    + exists b. by eapply deadLetterLocked_off.
  - exists b. unfold deadLetterLocked, deadLetterWith. run. by rewrite Ht.
Qed.

(** With a provisioned destination, storing always completes. *)
Lemma enqueue_provisioned t m b st :
  topics b !! t = Some st → provisioned b t →
  ∃ b', enqueue t m b = (Ret (admits st), b').
Proof.
  intros Ht Hp. pose proof (enqueue_contract_enqueue t m b) as Hc.
  pose proof (enqueue_defined_at t m b ltac:(by eexists)) as Hdef.
  destruct (enqueue t m b) as [o b'] eqn:He. exists b'.
  destruct (Hc o b' eq_refl) as (_ & _ & Hown).
  destruct o as [r|e|]; [by destruct (Hown r st eq_refl Ht) as [-> _]| |done].
  exfalso. revert He. unfold enqueue.
  destruct (enqueue_fuel b) as [|n] eqn:Hfuel; [done|]. cbn [enqueueLocked]. run. rewrite Ht.
  assert (Hdl : ∀ m b1, same_shape b b1 → deadLetter (options st) = true →
    ∃ b2, deadLetterWith (enqueueLocked n) t m b1 = (Ret tt, b2)).
  { intros m' b1 Hs Hd. destruct (same_shape_lookup _ _ _ _ Hs Ht) as (st1 & Ht1 & Ho & _).
    rewrite <- Ho in Hd. destruct (provisioned_shape _ _ _ Hs Hp st1 Ht1 Hd) as (f & Hf & Hfd).
    destruct n as [|n].
    - pose proof (enqueue_fuel_bound b1 t _ _ Hf) as Hlen. revert Hlen. unfold enqueue_fuel.
      rewrite <- (same_shape_dom _ _ Hs), deadLetterTopic_length.
      unfold enqueue_fuel in Hfuel. lia.
    - eexists. by eapply deadLetterWith_provisioned. }
  destruct (is_full st); unfold update_messages; run; [|done].
  destruct (overflow (options st)); [|done|].
  - destruct (messages st) as [|ev rest]; [done|].
    match goal with |- context [(if _ then _ else _) ?b1] =>
      specialize (Hdl ev b1 (same_shape_update _ _ _)) end.
    destruct (deadLetter (options st)); [|done]. by destruct Hdl as (b2 & ->).
  - specialize (Hdl m b ltac:(done)).
    destruct (deadLetter (options st)); [|done]. by destruct Hdl as (b2 & ->).
Qed.

(** ** Order: every queue is sorted by sequence number *)

Definition earlier (h1 h2 : Held) : Prop := sequence h1 < sequence h2.

Definition ordered (b : Broker) : Prop :=
  0 ≤ last_sequence b ∧
  ∀ t st, topics b !! t = Some st →
    StronglySorted earlier (messages st) ∧
    Forall (λ h, sequence h ≤ last_sequence b) (messages st).

Lemma StronglySorted_snoc (q : list Held) (m : Held) :
  StronglySorted earlier q → Forall (λ h, earlier h m) q → StronglySorted earlier (q ++ [m]).
Proof.
  induction 1 as [|h q Hq IH Hall]; intros Hm; [by repeat constructor|].
  inversion_clear Hm. constructor; [by apply IH|].
  apply Forall_app. split; [done|by constructor].
Qed.

Lemma ordered_update b t f :
  ordered b →
  (∀ st, topics b !! t = Some st →
     StronglySorted earlier (f (messages st)) ∧
     Forall (λ h, sequence h ≤ last_sequence b) (f (messages st))) →
  ordered (with_topics (alter (with_messages f) t) b).
Proof.
  intros [Hpos Ho] Hf. split; [done|]. intros u st. rewrite update_lookup.
  case_decide; [|by apply Ho]. subst. intros (st0 & Hst0 & ->)%fmap_Some. by apply Hf.
Qed.

Lemma ordered_push b t m :
  ordered b → sequence m ≤ last_sequence b →
  (∀ st, topics b !! t = Some st → Forall (λ h, earlier h m) (messages st)) →
  ordered (with_topics (alter (with_messages (λ q, q ++ [m])) t) b).
Proof.
  intros Ho Hm Hlt. apply ordered_update; [done|]. intros st Ht.
  destruct Ho as [_ Ho]. destruct (Ho t st Ht). split.
  - by apply StronglySorted_snoc; [|apply Hlt].
  - apply Forall_app. split; [done|by constructor].
Qed.

Lemma ordered_set_messages b t q st :
  ordered b → topics b !! t = Some st → q `suffix_of` messages st →
  ordered (with_topics (alter (with_messages (λ _, q)) t) b).
Proof.
  intros Ho Ht [p Hp]. apply ordered_update; [done|]. intros st' Ht'. simplify_eq.
  destruct Ho as [_ Ho]. destruct (Ho t st Ht) as [Hs Hle]. rewrite Hp in Hs, Hle.
  apply Forall_app in Hle as [_ Hle]. split; [|done].
  clear -Hs. induction p; [done|]. apply IHp. by inversion Hs.
Qed.

Lemma ordered_next b n :
  ordered b → last_sequence b ≤ n → ordered (mkBroker (topics b) (groups b) n).
Proof.
  intros [? Ho] Hn. split; [cbn; lia|]. intros t st Ht. destruct (Ho t st Ht) as [? Hle].
  split; [done|]. eapply Forall_impl; [exact Hle|]. cbn. intros; lia.
Qed.

(** Precondition of storing [m] into [t] in order. *)
Definition newest (b : Broker) (t : Topic) (m : Held) : Prop :=
  sequence m ≤ last_sequence b ∧
  ∀ st, topics b !! t = Some st → Forall (λ h, earlier h m) (messages st).

(** What an order-preserving operation guarantees when it draws at most [n]
    sequence numbers. *)
Definition advances (b b' : Broker) (n : Z) : Prop :=
  ordered b' ∧ last_sequence b ≤ last_sequence b' ≤ last_sequence b + n.

Lemma advances_refl b n : ordered b → 0 ≤ n → advances b b n.
Proof. intros. split; [done|lia]. Qed.

Lemma deadLetterWith_ordered fuel t m b o b' :
  (∀ t m b o b', ordered b → newest b t m → last_sequence b + Z.of_nat fuel < 2 ^ 64 →
     enqueueLocked fuel t m b = (o, b') → advances b b' (Z.of_nat fuel)) →
  ordered b → last_sequence b + Z.of_nat (S fuel) < 2 ^ 64 →
  deadLetterWith (enqueueLocked fuel) t m b = (o, b') →
  advances b b' (Z.of_nat (S fuel)).
Proof.
  intros Henq Ho Hmax. unfold deadLetterWith. run.
  destruct (topics b !! t) as [st|]; [|intros [= _ <-]; by apply advances_refl; [|lia]].
  destruct (negb _); [intros [= _ <-]; by apply advances_refl; [|lia]|].
  destruct (topics b !! deadLetterTopic t) as [f|] eqn:Hf;
    [|intros [= _ <-]; by apply advances_refl; [|lia]].
  unfold next_sequence. cbn [fst snd]. destruct Ho as [Hpos Ho].
  rewrite incr64_small by lia.
  destruct (enqueueLocked fuel _ _ _) as [o1 b1] eqn:He.
  apply Henq in He as [Ho1 Hlast1]; cbn [last_sequence topics] in *.
  - assert (advances b b1 (Z.of_nat (S fuel))) by (split; [done|lia]).
    by destruct o1; intros [= _ <-].
  - apply ordered_next; [done|lia].
  - split; [cbn; lia|]. intros st' Hst'. cbn in Hst'. destruct (Ho _ _ Hst') as [_ Hle].
    eapply Forall_impl; [exact Hle|]. unfold earlier. cbn. intros; lia.
  - lia.
Qed.

Lemma optional_deadLetter_ordered fuel t (c : bool) m b o b' :
  (∀ t m b o b', ordered b → newest b t m → last_sequence b + Z.of_nat fuel < 2 ^ 64 →
     enqueueLocked fuel t m b = (o, b') → advances b b' (Z.of_nat fuel)) →
  ordered b → last_sequence b + Z.of_nat (S fuel) < 2 ^ 64 →
  (if c then deadLetterWith (enqueueLocked fuel) t m else mret tt) b = (o, b') →
  advances b b' (Z.of_nat (S fuel)).
Proof.
  intros Henq Ho Hmax. destruct c; [by apply deadLetterWith_ordered|].
  intros [= _ <-]. by apply advances_refl; [|lia].
Qed.

Lemma enqueueLocked_ordered fuel t m b o b' :
  ordered b → newest b t m → last_sequence b + Z.of_nat fuel < 2 ^ 64 →
  enqueueLocked fuel t m b = (o, b') → advances b b' (Z.of_nat fuel).
Proof.
  revert t m b o b'.
  induction fuel as [|fuel IH]; intros t m b o b' Ho Hnew Hmax.
  { intros [= _ <-]. by apply advances_refl. }
  cbn [enqueueLocked]. run.
  destruct (topics b !! t) as [st|] eqn:Ht; [|intros [= _ <-]; by apply advances_refl; [|lia]].
  destruct Hnew as [Hm Hlt]. unfold update_messages. run.
  destruct (is_full st) eqn:Hfull.
  2:{ intros [= _ <-]. split; [by apply ordered_push|cbn; lia]. }
  destruct (overflow (options st)).
  - destruct (messages st) as [|ev rest] eqn:Hq; [by apply is_full_nonempty in Hfull|].
    set (b1 := with_topics (alter (with_messages (λ _, rest)) t) b).
    assert (Ho1 : ordered b1).
    { eapply ordered_set_messages; [done|done|]. rewrite Hq. by exists [ev]. }
    match goal with |- context [(if ?c then ?x else ?y) b1] =>
      destruct ((if c then x else y) b1) as [o2 b2] eqn:Hdl end.
    pose proof Hdl as Hfr. apply optional_deadLetter_frame in Hfr as [_ Hfr];
      [|apply enqueueLocked_contract].
    apply optional_deadLetter_ordered in Hdl as [Ho2 Hlast2]; [|done..].
    assert (advances b b2 (Z.of_nat (S fuel))) by (split; [done|exact Hlast2]).
    destruct o2 as [[]|e|]; intros [= _ <-]; [|done..]. split; [|exact Hlast2].
    apply ordered_push; [done|cbn in Hlast2; lia|].
    intros st2. rewrite Hfr by apply downstream_irrefl. unfold b1.
    rewrite update_lookup, decide_True by done. rewrite Ht. intros [= <-]. cbn.
    specialize (Hlt st Ht). rewrite Hq in Hlt. by inversion Hlt.
  - intros [= _ <-]. by apply advances_refl; [|lia].
  - match goal with |- context [(if ?c then ?x else ?y) b] =>
      destruct ((if c then x else y) b) as [o2 b2] eqn:Hdl end.
    apply optional_deadLetter_ordered in Hdl; [|done..].
    by destruct o2 as [[]|e|]; intros [= _ <-].
Qed.

(** Drawing a number and storing under it: the body of every publish. *)
Lemma enqueue_next_ordered t text b o b' :
  ordered b → last_sequence b + Z.of_nat (enqueue_fuel b) + 1 < 2 ^ 64 →
  (n ← next_sequence; enqueue t (mkHeld n text false)) b = (o, b') →
  advances b b' (Z.of_nat (enqueue_fuel b) + 1).
Proof.
  intros [Hpos Ho] Hmax. unfold next_sequence, enqueue. run.
  rewrite incr64_small by lia.
  match goal with |- context [enqueueLocked ?f ?t ?m ?b] =>
    destruct (enqueueLocked f t m b) as [o1 b1] eqn:He end.
  intros H. assert (b1 = b') as <- by (destruct o1; by simplify_eq). clear H.
  apply enqueueLocked_ordered in He as [Ho1 Hlast1]; cbn [last_sequence] in *.
  - change (enqueue_fuel _) with (enqueue_fuel b) in Hlast1. split; [done|lia].
  - by apply ordered_next; [|lia].
  - split; [cbn; lia|]. intros st Hst. destruct (Ho _ _ Hst) as [_ Hle].
    eapply Forall_impl; [exact Hle|]. unfold earlier. cbn. intros; lia.
  - change (enqueue_fuel _) with (enqueue_fuel b). lia.
Qed.

Lemma enqueue_shape t m b : same_shape b (enqueue t m b).2.
Proof.
  pose proof (enqueue_contract_enqueue t m b) as H. destruct (enqueue t m b) as [o b'].
  by destruct (H o b' eq_refl).
Qed.

Lemma enqueue_fuel_shape b b' : same_shape b b' → enqueue_fuel b = enqueue_fuel b'.
Proof. intros Hs. unfold enqueue_fuel. by rewrite (same_shape_dom _ _ Hs). Qed.

Lemma publish_loop_shape g kind key text names accepted b :
  same_shape b (publish_loop g kind key text names accepted b).2.
Proof.
  revert accepted b. induction names as [|name names IH]; intros accepted b; [done|].
  cbn [publish_loop]. run. destruct (topics b !! name) as [st|]; [|done].
  destruct (negb _); [apply IH|]. destruct (route_accepts _ _ _); [|apply IH].
  unfold next_sequence. cbn [fst snd].
  match goal with |- context [enqueue ?t ?m ?b] =>
    pose proof (enqueue_shape t m b) as Hs; destruct (enqueue t m b) as [[r|e|] b1] end;
    cbn in *; (etrans; [apply same_shape_sequence|]); (etrans; [exact Hs|]); [apply IH|done..].
Qed.

Lemma publish_loop_ordered g kind key text names accepted b o b' :
  ordered b →
  last_sequence b + (Z.of_nat (enqueue_fuel b) + 1) * Z.of_nat (length names) < 2 ^ 64 →
  publish_loop g kind key text names accepted b = (o, b') →
  advances b b' ((Z.of_nat (enqueue_fuel b) + 1) * Z.of_nat (length names)).
Proof.
  revert accepted b. induction names as [|name names IH]; intros accepted b Ho Hmax.
  { intros [= _ <-]. by apply advances_refl; [|lia]. }
  assert (Hskip : ∀ acc, publish_loop g kind key text names acc b = (o, b') →
    advances b b' ((Z.of_nat (enqueue_fuel b) + 1) * Z.of_nat (length (name :: names)))).
  { intros acc H. apply IH in H as [? ?]; [|done|cbn [length] in *; lia].
    split; [done|cbn [length]; lia]. }
  cbn [publish_loop]. run.
  destruct (topics b !! name) as [st|]; [|intros [= _ <-]; by apply advances_refl; [|lia]].
  destruct (negb _); [apply Hskip|]. destruct (route_accepts _ _ _); [|apply Hskip].
  destruct ((n ← next_sequence; enqueue name (mkHeld n text false)) b) as [o1 b1] eqn:He.
  pose proof He as Hadv. apply enqueue_next_ordered in Hadv as [Ho1 Hlast1];
    [|done|cbn [length] in *; lia].
  assert (Hs : same_shape b b1).
  { revert He. unfold next_sequence. run.
    match goal with |- context [enqueue ?t ?m ?b] =>
      pose proof (enqueue_shape t m b) as Hs; destruct (enqueue t m b) as [[r|e|] b2] end;
      cbn in Hs; intros [= _ <-]; (etrans; [apply same_shape_sequence|exact Hs]). }
  revert He. unfold next_sequence. run.
  destruct (enqueue _ _ _) as [[r|e|] b2]; intros [= <- <-].
  2,3: intros [= _ <-]; split; [done|cbn [length]; lia].
  intros H. apply IH in H as [? Hlast]; [|done|].
  - rewrite <- (enqueue_fuel_shape _ _ Hs) in Hlast. split; [done|cbn [length]; lia].
  - rewrite <- (enqueue_fuel_shape _ _ Hs). cbn [length] in Hmax. lia.
Qed.

(** ** Bounds: a bounded destination never grows past its limit *)

Definition bound_kept (b b' : Broker) : Prop :=
  ∀ u st, topics b !! u = Some st → maxLength (options st) > 0 →
    ∃ st', topics b' !! u = Some st' ∧ options st' = options st ∧
      Z.of_nat (length (messages st')) ≤
        Z.max (Z.of_nat (length (messages st))) (maxLength (options st)).

#[export] Instance bound_kept_preorder : PreOrder bound_kept.
Proof.
  split.
  - intros b u st Hu _. exists st. split_and!; [done|done|lia].
  - intros b1 b2 b3 H12 H23 u st Hu Hmax.
    destruct (H12 u st Hu Hmax) as (st2 & Hu2 & Ho2 & Hl2).
    destruct (H23 u st2 Hu2) as (st3 & Hu3 & Ho3 & Hl3); [by rewrite Ho2|].
    exists st3. rewrite Ho2 in *. split_and!; [done|congruence|lia].
Qed.

Lemma bound_kept_topics b b' : topics b' = topics b → bound_kept b b'.
Proof. intros Heq u st Hu _. exists st. rewrite Heq. split_and!; [done|done|lia]. Qed.

Lemma bound_kept_sequence b n : bound_kept b (mkBroker (topics b) (groups b) n).
Proof. by apply bound_kept_topics. Qed.

Lemma bound_kept_update b t f :
  (∀ st, topics b !! t = Some st → maxLength (options st) > 0 →
     Z.of_nat (length (f (messages st))) ≤
       Z.max (Z.of_nat (length (messages st))) (maxLength (options st))) →
  bound_kept b (with_topics (alter (with_messages f) t) b).
Proof.
  intros Hf u st Hu Hmax. rewrite update_lookup. case_decide as Htu.
  - subst. rewrite Hu. eexists. split_and!; [done|done|]. by apply Hf.
  - exists st. split_and!; [done|done|lia].
Qed.

#[export] Hint Resolve bound_kept_sequence : motus.

Lemma not_full_room st :
  is_full st = false → maxLength (options st) > 0 →
  Z.of_nat (length (messages st)) < maxLength (options st).
Proof. unfold is_full. repeat case_bool_decide; cbn; try done; lia. Qed.

Lemma deadLetterWith_bound enq t m b :
  (∀ t m b, bound_kept b (enq t m b).2) → bound_kept b (deadLetterWith enq t m b).2.
Proof.
  intros Henq. unfold deadLetterWith. run.
  destruct (topics b !! t) as [st|]; [|done]. destruct (negb _); [done|].
  destruct (topics b !! deadLetterTopic t); [|done].
  unfold next_sequence. cbn [fst snd].
  match goal with |- context [enq ?t ?m ?b] =>
    specialize (Henq t m b); destruct (enq t m b) as [[r|e|] b1] end;
    cbn in *; (etrans; [apply bound_kept_sequence|exact Henq]).
Qed.

Lemma optional_deadLetter_bound enq t (c : bool) m b :
  (∀ t m b, bound_kept b (enq t m b).2) →
  bound_kept b ((if c then deadLetterWith enq t m else mret tt) b).2.
Proof. intros. destruct c; [by apply deadLetterWith_bound|done]. Qed.

Lemma enqueueLocked_bound fuel t m b : bound_kept b (enqueueLocked fuel t m b).2.
Proof.
  revert t m b. induction fuel as [|fuel IH]; intros t m b; [done|].
  cbn [enqueueLocked]. run.
  destruct (topics b !! t) as [st|] eqn:Ht; [|done].
  unfold update_messages. run.
  destruct (is_full st) eqn:Hfull.
  2:{ cbn. apply bound_kept_update. intros st' Ht' Hmax. assert (st' = st) as -> by congruence.
      pose proof (not_full_room st Hfull Hmax). rewrite length_app. simpl. lia. }
  destruct (overflow (options st)); [| done |].
  - destruct (messages st) as [|ev rest] eqn:Hq; [by apply is_full_nonempty in Hfull|].
    set (b1 := with_topics (alter (with_messages (λ _, rest)) t) b).
    match goal with |- context [(if ?c then ?x else ?y) b1] =>
      pose proof (optional_deadLetter_bound (enqueueLocked fuel) t c ev b1 IH) as Hb2;
      destruct ((if c then x else y) b1) as [o2 b2] eqn:Hdl end.
    assert (H1 : bound_kept b b1).
    { apply bound_kept_update. intros st' Ht' _. assert (st' = st) as -> by congruence.
      rewrite Hq. simpl. lia. }
    change (bound_kept b1 ((if deadLetter (options st)
      then deadLetterWith (enqueueLocked fuel) t ev else mret tt) b1).2) in Hb2.
    pose proof Hdl as Hfr. apply optional_deadLetter_frame in Hfr as [_ Hfr];
      [|apply enqueueLocked_contract].
    assert (Hb2' : bound_kept b1 b2).
    { revert Hb2. change (mret tt) with (λ s : Broker, (Ret tt, s)). by rewrite Hdl. }
    destruct o2 as [[]|e|]; cbn; [|by etrans..].
    (* dropping the head and pushing keeps the length; the cascade cannot see [t] *)
    intros u st0 Hu Hmax. rewrite update_lookup. case_decide as Htu.
    + subst u. rewrite Hfr by apply downstream_irrefl. unfold b1.
      rewrite update_lookup, decide_True by done. rewrite Hu. eexists.
      split_and!; [done|done|]. cbn. simplify_eq. rewrite Hq, length_app. simpl. lia.
    + assert (bound_kept b b2) as Hbb by by etrans. by apply Hbb.
  - match goal with |- context [(if ?c then ?x else ?y) b] =>
      pose proof (optional_deadLetter_bound (enqueueLocked fuel) t c m b IH) as Hb2;
      destruct ((if c then x else y) b) as [o2 b2] eqn:Hdl end.
    revert Hb2. change (mret tt) with (λ s : Broker, (Ret tt, s)). rewrite Hdl.
    by destruct o2 as [[]|e|].
Qed.

Lemma publish_loop_bound g kind key text names accepted b :
  bound_kept b (publish_loop g kind key text names accepted b).2.
Proof.
  revert accepted b. induction names as [|name names IH]; intros accepted b; [done|].
  cbn [publish_loop]. run. destruct (topics b !! name) as [st|]; [|done].
  destruct (negb _); [apply IH|]. destruct (route_accepts _ _ _); [|apply IH].
  unfold next_sequence. cbn [fst snd].
  match goal with |- context [enqueue ?t ?m ?b] =>
    pose proof (enqueueLocked_bound (enqueue_fuel b) t m b) as Hs;
    change (enqueueLocked _ t m b) with (enqueue t m b) in Hs;
    destruct (enqueue t m b) as [[r|e|] b1] end;
    cbn in *; (etrans; [apply bound_kept_sequence|]); (etrans; [exact Hs|]); [apply IH|done..].
Qed.

Lemma touched_bound t b : bound_kept b (touched t b).
Proof.
  intros u st Hu _. exists st. rewrite touched_lookup, Hu.
  by case_decide; split_and!; try done; cbn; lia.
Qed.

Lemma publish_bound t text r b : bound_kept b (publish t text r b).2.
Proof.
  unfold publish. run. set (g := match topics b !! t with None => _ | _ => _ end).
  destruct (is_empty g).
  - pose proof (touched_bound t b) as Hb. rewrite touch_topic_run. unfold next_sequence. run.
    match goal with |- context [enqueue ?t ?m ?b] =>
      pose proof (enqueueLocked_bound (enqueue_fuel b) t m b) as Hs;
      change (enqueueLocked _ t m b) with (enqueue t m b) in Hs end.
    etrans; [exact Hb|]. etrans; [|exact Hs]. apply bound_kept_sequence.
  - unfold index_group. destruct (groups b !! g) as [kind|]; run; [apply publish_loop_bound|].
    etrans; [|apply publish_loop_bound]. by apply bound_kept_topics.
Qed.

(** ** Routing: who receives a grouped publish *)

(** The destination is a member of the group and its binding matches the key. *)
Definition receives (g : string) (kind : Routing) (key : string) (st : TopicState) : bool :=
  String.eqb (group (options st)) g && route_accepts kind (binding st) key.

Definition receives_at (g : string) (kind : Routing) (key : string) (b : Broker) (u : Topic) : bool :=
  match topics b !! u with Some st => receives g kind key st | None => false end.

Definition admits_at (b : Broker) (u : Topic) : bool :=
  match topics b !! u with Some st => admits st | None => true end.

(** No receiving destination is the (transitive) forensic topic of another. *)
Definition isolated (g : string) (kind : Routing) (key : string) (b : Broker) : Prop :=
  ∀ u v, receives_at g kind key b u = true → receives_at g kind key b v = true →
    ¬ downstream u v.

Lemma receives_at_shape g kind key b b' u :
  same_shape b b' → receives_at g kind key b u = receives_at g kind key b' u.
Proof.
  intros Hs. unfold receives_at, receives.
  destruct (topics b !! u) as [st|] eqn:Hu.
  - destruct (same_shape_lookup _ _ _ _ Hs Hu) as (st' & -> & -> & ->). done.
  - by rewrite (same_shape_None _ _ _ Hs Hu).
Qed.

Section publish_loop_spec.
Context (g : string) (kind : Routing) (key text : string).

Definition delivered (b b' : Broker) (u : Topic) : Prop :=
  ∀ st, topics b !! u = Some st → ∃ n, topics b' !! u = Some (stored st (mkHeld n text false)).

Lemma publish_loop_step names name accepted b r b' st :
  topics b !! name = Some st → receives g kind key st = true →
  publish_loop g kind key text (name :: names) accepted b = (Ret r, b') →
  ∃ n b1, enqueue name (mkHeld n text false) (mkBroker (topics b) (groups b) n) = (Ret (admits st), b1) ∧
    same_shape b b1 ∧ topics b1 !! name = Some (stored st (mkHeld n text false)) ∧
    (∀ u, u ≠ name → ¬ downstream name u → topics b1 !! u = topics b !! u) ∧
    publish_loop g kind key text names (admits st && accepted) b1 = (Ret r, b').
Proof.
  intros Hst [Hg Hr]%andb_true_iff. cbn [publish_loop]. run. rewrite Hst, Hg, Hr.
  cbn [negb]. unfold next_sequence. cbn [fst snd]. set (n := incr64 (last_sequence b)).
  destruct (enqueue name _ _) as [[s|e|] b1] eqn:He; try done.
  intros Hloop. exists n, b1.
  destruct (enqueue_contract_enqueue _ _ _ _ _ He) as (Hs & Hf & Hown).
  destruct (Hown s st eq_refl Hst) as [-> Hown']. split_and!; try done.
Qed.

Lemma publish_loop_skip names name accepted b :
  is_Some (topics b !! name) → receives_at g kind key b name = false →
  publish_loop g kind key text (name :: names) accepted b =
    publish_loop g kind key text names accepted b.
Proof.
  intros [st Hst]. unfold receives_at, receives. rewrite Hst. cbn [publish_loop]. run.
  rewrite Hst. by destruct (String.eqb _ _), (route_accepts _ _ _).
Qed.

Lemma publish_loop_spec names accepted b r b' :
  NoDup names → (∀ u, u ∈ names → is_Some (topics b !! u)) → isolated g kind key b →
  publish_loop g kind key text names accepted b = (Ret r, b') →
  (∀ u, u ∈ names → receives_at g kind key b u = true → delivered b b' u) ∧
  (∀ u, ¬ (u ∈ names ∧ receives_at g kind key b u = true) →
     (∀ v, v ∈ names → receives_at g kind key b v = true → ¬ downstream v u) →
     topics b' !! u = topics b !! u) ∧
  r = accepted && forallb (λ u, negb (receives_at g kind key b u) || admits_at b u) names.
Proof.
  revert accepted b. induction names as [|name names IH]; intros accepted b Hnd Hin Hiso.
  { intros [= -> ->]. split_and!; [by intros u ?%elem_of_nil|done|by rewrite andb_true_r]. }
  apply NoDup_cons in Hnd as [Hname Hnd].
  destruct (Hin name) as [st Hst]; [by left|]. intros Hloop.
  destruct (receives_at g kind key b name) eqn:Hrec.
  - assert (Hrs : receives g kind key st = true) by (unfold receives_at in Hrec; by rewrite Hst in Hrec).
    destruct (publish_loop_step _ _ _ _ _ _ _ Hst Hrs Hloop)
      as (n & b1 & He & Hs & Hown & Hf & Hrest).
    assert (Hsame : ∀ u, u ∈ names → receives_at g kind key b u = true →
      topics b1 !! u = topics b !! u).
    { intros u Hu Hru. apply Hf; [by intros ->|]. by apply Hiso. }
    apply IH in Hrest as (Hdel & Hframe & ->); [|done| |].
    2:{ intros u Hu. destruct (Hin u) as [su Hsu]; [by right|].
        destruct (same_shape_lookup _ _ _ _ Hs Hsu) as (? & ? & _). by eexists. }
    2:{ intros u v. rewrite <- !(receives_at_shape _ _ _ b b1) by done. apply Hiso. }
    split_and!.
    + intros u [->|Hu]%elem_of_cons Hru.
      * intros st' Hst'. simplify_eq. exists n. rewrite Hframe; [done|by intros [? _]|].
        intros v Hv. rewrite <- (receives_at_shape _ _ _ b b1) by done. intros Hrv. by apply Hiso.
      * intros su Hsu. apply (Hdel u Hu); rewrite <- ?(receives_at_shape _ _ _ b b1) by done;
          [done|]. by rewrite Hsame.
    + intros u Hnot Hup. rewrite Hframe.
      * apply Hf; [intros ->; apply Hnot; by split; [left|]|apply Hup; [by left|done]].
      * intros [Hu Hru]. apply Hnot. split; [by right|].
        by rewrite (receives_at_shape _ _ _ b b1).
      * intros v Hv Hrv. apply Hup; [by right|]. by rewrite (receives_at_shape _ _ _ b b1).
    + cbn [forallb]. rewrite Hrec. unfold admits_at at 2. rewrite Hst. cbn [negb orb].
      rewrite (andb_comm (admits st)), <- andb_assoc. f_equal. f_equal.
      apply forallb_ext_elem. intros u Hu.
      rewrite <- (receives_at_shape _ _ _ b b1) by done.
      destruct (receives_at g kind key b u) eqn:Hru; [|done]. cbn.
      unfold admits_at. by rewrite Hsame.
  - rewrite publish_loop_skip in Hloop by done.
    apply IH in Hloop as (Hdel & Hframe & ->); [|done|intros u Hu; apply Hin; by right|done].
    split_and!.
    + intros u [->|Hu]%elem_of_cons Hru; [congruence|by apply Hdel].
    + intros u Hnot Hup. apply Hframe.
      * intros [Hu Hru]. apply Hnot. split; [by right|done].
      * intros v Hv. apply Hup. by right.
    + cbn [forallb]. by rewrite Hrec.
Qed.
End publish_loop_spec.

(** A grouped publish on a broker that knows the group. *)
Lemma publish_grouped topic text over b st kind :
  topics b !! topic = Some st → group (options st) ≠ "" →
  groups b !! group (options st) = Some kind →
  publish topic text over b =
    publish_loop (group (options st)) kind (if is_empty over then binding st else over) text
      (sorted_keys String.le (topics b)) true b.
Proof.
  intros Ht Hg Hk. unfold publish. run. rewrite Ht.
  apply is_empty_false in Hg. rewrite Hg. unfold index_group. by rewrite Hk.
Qed.

(** An ungrouped publish. *)
Lemma publish_ungrouped topic text over b :
  match topics b !! topic with Some st => group (options st) = "" | None => True end →
  publish topic text over b =
    (_ ← touch_topic topic; n ← next_sequence; enqueue topic (mkHeld n text false)) b.
Proof.
  intros Hg. unfold publish. run. destruct (topics b !! topic) as [st|]; [|done].
  by rewrite Hg.
Qed.

(** ** Every operation is defined everywhere *)

Lemma publish_loop_defined g kind key text names accepted b :
  (∀ u, u ∈ names → is_Some (topics b !! u)) →
  (publish_loop g kind key text names accepted b).1 ≠ Undefined.
Proof.
  revert accepted b. induction names as [|name names IH]; intros accepted b Hin; [done|].
  destruct (Hin name) as [st Hst]; [by left|].
  cbn [publish_loop]. run. rewrite Hst.
  destruct (negb _); [apply IH; intros; apply Hin; by right|].
  destruct (route_accepts _ _ _); [|apply IH; intros; apply Hin; by right].
  unfold next_sequence. cbn [fst snd].
  match goal with |- context [enqueue ?t ?m ?b] =>
    pose proof (enqueue_defined_at t m b ltac:(by eexists)) as Hdef;
    pose proof (enqueue_shape t m b) as Hs; destruct (enqueue t m b) as [[r|e|] b1] end;
    cbn in Hdef, Hs |- *; [|done|done].
  apply IH. intros u Hu. destruct (Hin u) as [su Hsu]; [by right|].
  destruct (same_shape_lookup _ _ u su Hs Hsu) as (? & ? & _). by eexists.
Qed.

Lemma publish_defined_at topic text over b : (publish topic text over b).1 ≠ Undefined.
Proof.
  unfold publish. run. set (g := match topics b !! topic with None => _ | _ => _ end).
  destruct (is_empty g).
  - rewrite touch_topic_run. unfold next_sequence. run. apply enqueue_defined_at. cbn.
    rewrite touched_lookup, decide_True by done. by eexists.
  - unfold index_group. destruct (groups b !! g); run; apply publish_loop_defined; cbn;
      by intros u ?%elem_of_sorted_keys.
Qed.

(** ** Declarations *)

(** The outcome of [ensure_group]: refused, or the group has the asked kind. *)
Lemma ensure_group_spec opts b :
  (∃ text, ensure_group opts b = (Throw (runtime_error text), b) ∧ group opts ≠ "" ∧
     ∃ kind, groups b !! group opts = Some kind ∧ kind ≠ routing opts) ∨
  (∃ b', ensure_group opts b = (Ret tt, b') ∧ topics b' = topics b ∧
     last_sequence b' = last_sequence b ∧ groups b ⊆ groups b' ∧
     (group opts = "" ∧ b' = b ∨ groups b' = <[group opts := routing opts]> (groups b))).
Proof.
  unfold ensure_group. destruct (is_empty (group opts)) eqn:Hg.
  { right. exists b. apply is_empty_true in Hg. split_and!; by auto. }
  apply is_empty_false in Hg. run. destruct (groups b !! group opts) as [kind|] eqn:Hk.
  - case_bool_decide as Hne; [left|right].
    + eexists. split_and!; [done|done|by eexists].
    + exists b. subst kind. split_and!; [done..|].
      right. by rewrite insert_id.
  - right. eexists. split_and!; [done..| |by right]. by apply insert_subseteq.
Qed.

Definition binding_for (topic : Topic) (opts : TopicOptions) : string :=
  if is_empty (route opts) then topic else route opts.

(** The boolean comparison of [ensureTopic] is [same_properties]. *)
Lemma ensureTopic_mismatch o1 o2 :
  (bool_decide (durable o1 ≠ durable o2) || bool_decide (shared o1 ≠ shared o2) ||
   bool_decide (deleteWhenUnused o1 ≠ deleteWhenUnused o2) ||
   bool_decide (deadLetter o1 ≠ deadLetter o2) ||
   bool_decide (maxLength o1 ≠ maxLength o2) ||
   bool_decide (overflow o1 ≠ overflow o2)) = bool_decide (¬ same_properties o1 o2).
Proof.
  unfold same_properties. apply Bool.eq_iff_eq_true.
  rewrite !orb_true_iff, !bool_decide_eq_true.
  destruct (decide (durable o1 = durable o2)), (decide (shared o1 = shared o2)),
    (decide (deleteWhenUnused o1 = deleteWhenUnused o2)),
    (decide (deadLetter o1 = deadLetter o2)), (decide (maxLength o1 = maxLength o2)),
    (decide (overflow o1 = overflow o2)); tauto.
Qed.

Lemma ensureTopic_spec topic opts b :
  match ensureTopic topic opts b with
  | (Ret _, b') =>
      groups b ⊆ groups b' ∧ (group opts ≠ "" → groups b' !! group opts = Some (routing opts)) ∧
      last_sequence b' = last_sequence b ∧
      match topics b !! topic with
      | None => topics b' = <[topic := mkTopicState [] opts (binding_for topic opts)]> (topics b)
      | Some st => same_properties (options st) opts ∧ topics b' = topics b
      end
  | (Throw e, b') => (∃ text, e = runtime_error text) ∧ topics b' = topics b ∧
      groups b ⊆ groups b' ∧ last_sequence b' = last_sequence b ∧
      ((∃ st, topics b !! topic = Some st ∧ ¬ same_properties (options st) opts) ∨
       (∃ kind, groups b !! group opts = Some kind ∧ kind ≠ routing opts))
  | (Undefined, _) => False
  end.
Proof.
  unfold ensureTopic. run.
  destruct (ensure_group_spec opts b)
    as [(text & -> & Hg & Hk) | (b1 & -> & Ht1 & Hl1 & Hsub & Hgr)].
  { split_and!; try done; [by eexists|by right]. }
  assert (Hgroup : group opts ≠ "" → groups b1 !! group opts = Some (routing opts)).
  { intros Hne. destruct Hgr as [[? _]| ->]; [done|apply lookup_insert_eq]. }
  rewrite Ht1. destruct (topics b !! topic) as [st|] eqn:Ht.
  - rewrite ensureTopic_mismatch. case_bool_decide as Hm; cbn.
    + split_and!; try done; [by eexists|]. left. by eexists.
    + by split_and!.
  - cbn. rewrite Ht1. by split_and!.
Qed.

(** ** Reachable broker states *)

(** The operations any thread may perform, each one atomic. *)
Inductive operation : Type :=
  | OpEnsureTopic (topic : Topic) (opts : TopicOptions)
  | OpPublish (topic : Topic) (text over : string)
  | OpTake (topic : Topic)
  | OpRequeue (topic : Topic) (m : Held)
  | OpDeadLetter (topic : Topic) (m : Held)
  | OpPurge (topic : Topic).

Definition perform (op : operation) (b : Broker) : Broker :=
  match op with
  | OpEnsureTopic topic opts => (ensureTopic topic opts b).2
  | OpPublish topic text over => (publish topic text over b).2
  | OpTake topic => (take_message topic b).2
  | OpRequeue topic m => (requeue_message topic m b).2
  | OpDeadLetter topic m => (deadLetter_message topic m b).2
  | OpPurge topic => (purge topic b).2
  end.

Inductive reachable : Broker → Prop :=
  | reachable_start : reachable empty_Broker
  | reachable_step op b : reachable b → reachable (perform op b).

(** Every grouped destination's group is declared with the kind it asked for. *)
Definition groups_known (b : Broker) : Prop :=
  ∀ t st, topics b !! t = Some st → group (options st) ≠ "" →
    groups b !! group (options st) = Some (routing (options st)).

Lemma groups_known_shape b b' : same_shape b b' → groups_known b → groups_known b'.
Proof.
  intros Hs Hg t st Ht. symmetry in Hs.
  destruct (same_shape_lookup _ _ _ _ Hs Ht) as (st' & Ht' & <- & _).
  destruct Hs as [-> _]. by apply (Hg t).
Qed.

Lemma groups_known_touch t b : groups_known b → groups_known (touched t b).
Proof.
  intros Hg u st. rewrite touched_groups, touched_lookup. case_decide; [|apply Hg]. subst.
  destruct (topics b !! u) eqn:Hu; [|by intros [= <-]]. intros [= <-]. by apply (Hg u).
Qed.

Lemma deadLetterLocked_shape t m b : same_shape b (deadLetterLocked t m b).2.
Proof.
  destruct (deadLetterLocked t m b) as [o b'] eqn:Hd.
  by apply deadLetterWith_frame in Hd as [? _]; [|apply enqueueLocked_contract].
Qed.

(** Publishing on a broker whose groups are known changes no declaration, apart
    from creating an undeclared destination with the default options. *)
Lemma publish_ungrouped_run topic text over b :
  match topics b !! topic with Some st => group (options st) = "" | None => True end →
  publish topic text over b =
    (n ← next_sequence; enqueue topic (mkHeld n text false)) (touched topic b).
Proof.
  intros Hg. rewrite publish_ungrouped by done. unfold mbind at 1, M_bind at 1.
  by rewrite touch_topic_run.
Qed.

(** A destination with room stores the message and accepts it. *)
Lemma enqueue_room t m b st :
  topics b !! t = Some st → is_full st = false → (enqueue t m b).1 = Ret true.
Proof.
  intros Ht Hf. unfold enqueue, enqueue_fuel. cbn [enqueueLocked]. run.
  by rewrite Ht, Hf.
Qed.

Lemma is_full_empty st : messages st = [] → is_full st = false.
Proof.
  intros Hm. destruct (is_full st) eqn:Hf; [|done]. by apply is_full_nonempty in Hf.
Qed.

Lemma publish_room topic text over b :
  match topics b !! topic with
  | Some st => group (options st) = "" ∧ is_full st = false
  | None => True
  end → (publish topic text over b).1 = Ret true.
Proof.
  intros Hst. rewrite publish_ungrouped_run by (destruct (topics b !! topic); tauto).
  unfold next_sequence. run. set (b1 := mkBroker (topics (touched topic b)) _ _).
  set (m := mkHeld _ _ _).
  assert (Hroom : (enqueue topic m b1).1 = Ret true).
  { apply enqueue_room with (default default_TopicState (topics b !! topic)).
    - change (topics b1) with (topics (touched topic b)).
      by rewrite touched_lookup, decide_True.
    - destruct (topics b !! topic); [tauto|done]. }
  by destruct (enqueue topic m b1) as [o b2]; cbn in Hroom; subst o.
Qed.

Lemma enqueue_next_shape t text b :
  same_shape b ((n ← next_sequence; enqueue t (mkHeld n text false)) b).2.
Proof.
  unfold next_sequence. run.
  match goal with |- context [enqueue ?t ?m ?b] =>
    pose proof (enqueue_shape t m b) as Hs; destruct (enqueue t m b) as [[]?] end; exact Hs.
Qed.

Lemma publish_shape topic text over b :
  groups_known b → same_shape (touched topic b) (publish topic text over b).2.
Proof.
  intros Hg. destruct (topics b !! topic) as [st|] eqn:Ht;
    [destruct (decide (group (options st) = "")) as [Hempty|Hgrp]|].
  - rewrite publish_ungrouped_run by (by rewrite Ht). apply enqueue_next_shape.
  - rewrite (touched_known _ _ _ Ht).
    rewrite (publish_grouped _ _ _ _ st (routing (options st))) by (auto; by eapply Hg).
    apply publish_loop_shape.
  - rewrite publish_ungrouped_run by (by rewrite Ht). apply enqueue_next_shape.
Qed.

Lemma take_message_shape t b : same_shape b (take_message t b).2.
Proof.
  unfold take_message. run. destruct (topics b !! t) as [st|]; [|done].
  destruct (messages st); [done|]. cbn. apply same_shape_update.
Qed.

Lemma purge_shape t b : same_shape b (purge t b).2.
Proof.
  unfold purge. run. destruct (topics b !! t); [|done]. cbn. apply same_shape_update.
Qed.

Lemma groups_known_step op b : groups_known b → groups_known (perform op b).
Proof.
  intros Hg. destruct op as [t opts|t text over|t|t m|t m| t]; cbn [perform].
  - pose proof (ensureTopic_spec t opts b) as Hspec.
    assert (Hsub : ∀ b', groups b ⊆ groups b' → topics b' = topics b → groups_known b').
    { intros b' Hs Ht' u st Hu Hne. rewrite Ht' in Hu.
      eapply lookup_weaken; [by apply (Hg u)|done]. }
    destruct (ensureTopic t opts b) as [[[]|e|] b']; cbn; [| |done].
    + destruct Hspec as (Hs & Hgr & _ & Htop).
      destruct (topics b !! t) as [st|] eqn:Ht; [by apply Hsub; naive_solver|].
      intros u st. rewrite Htop, lookup_insert. case_decide.
      * intros [= <-]. by apply Hgr.
      * intros Hu Hne. eapply lookup_weaken; [by apply (Hg u)|done].
    + apply Hsub; naive_solver.
  - eapply groups_known_shape; [by apply publish_shape|]. by apply groups_known_touch.
  - eapply groups_known_shape; [apply take_message_shape|done].
  - unfold requeue_message, update_messages. run. rewrite touch_topic_run.
    eapply groups_known_shape; [apply same_shape_update|by apply groups_known_touch].
  - eapply groups_known_shape; [apply deadLetterLocked_shape|done].
  - eapply groups_known_shape; [apply purge_shape|done].
Qed.

Lemma reachable_groups_known b : reachable b → groups_known b.
Proof.
  induction 1; [|by apply groups_known_step]. intros t st H.
  assert (topics empty_Broker !! t = None) by apply lookup_empty. congruence.
Qed.

(** ** Order, for whole operations *)

(** Sequence numbers one publish can draw. *)
Definition publish_cost (b : Broker) (topic : Topic) : Z :=
  let b' := touched topic b in
  (Z.of_nat (enqueue_fuel b') + 1) * Z.max 1 (Z.of_nat (size (dom (topics b')))).

Lemma sorted_keys_length {A} (m : gmap string A) :
  length (sorted_keys String.le m) = size (dom m).
Proof. unfold sorted_keys. by rewrite merge_sort_Permutation. Qed.

Lemma ordered_touch t b : ordered b → ordered (touched t b).
Proof.
  intros [Hpos Ho]. split; [by rewrite touched_sequence|]. intros u st.
  rewrite touched_lookup, touched_sequence. case_decide; [|apply Ho]. subst.
  destruct (topics b !! u) as [su|] eqn:Hu; intros [= <-]; [by apply (Ho u)|].
  by split; constructor.
Qed.

Lemma publish_ungrouped_ordered topic text over b :
  match topics b !! topic with Some st => group (options st) = "" | None => True end →
  ordered b → last_sequence b + publish_cost b topic < 2 ^ 64 →
  ordered (publish topic text over b).2.
Proof.
  intros Hu Ho Hmax. unfold publish_cost in Hmax.
  rewrite publish_ungrouped_run by done. pose proof (ordered_touch topic b Ho) as Ho1.
  rewrite <- (touched_sequence topic b) in Hmax.
  destruct ((n ← next_sequence; enqueue topic (mkHeld n text false)) (touched topic b))
    as [o2 b2] eqn:He.
  apply enqueue_next_ordered in He as [? _]; [done|done|nia].
Qed.

Lemma publish_ordered topic text over b :
  ordered b → groups_known b → last_sequence b + publish_cost b topic < 2 ^ 64 →
  ordered (publish topic text over b).2.
Proof.
  intros Ho Hg Hmax. destruct (topics b !! topic) as [st|] eqn:Ht;
    [destruct (decide (group (options st) = "")) as [Hempty|Hgrp]|].
  1,3: apply publish_ungrouped_ordered; [by rewrite Ht|done|done].
  unfold publish_cost in Hmax. rewrite (touched_known _ _ _ Ht) in Hmax.
  rewrite (publish_grouped _ _ _ _ st (routing (options st))) by (auto; by eapply Hg).
  destruct (publish_loop _ _ _ _ _ _ b) as [o b'] eqn:Hl.
  apply publish_loop_ordered in Hl as [? _]; [done|done|].
  rewrite sorted_keys_length. nia.
Qed.

Lemma take_message_ordered t b : ordered b → ordered (take_message t b).2.
Proof.
  intros Ho. unfold take_message, update_messages. run.
  destruct (topics b !! t) as [st|] eqn:Ht; [|done].
  destruct (messages st) as [|m rest] eqn:Hq; [done|]. cbn.
  eapply ordered_set_messages; [done|done|]. rewrite Hq. by exists [m].
Qed.

Lemma purge_ordered t b : ordered b → ordered (purge t b).2.
Proof.
  intros Ho. unfold purge, update_messages. run.
  destruct (topics b !! t) as [st|] eqn:Ht; [|done]. cbn.
  eapply ordered_set_messages; [done|done|]. exists (messages st). by rewrite app_nil_r.
Qed.

Lemma ensureTopic_ordered t opts b : ordered b → ordered (ensureTopic t opts b).2.
Proof.
  intros [Hpos Ho]. pose proof (ensureTopic_spec t opts b) as Hspec.
  destruct (ensureTopic t opts b) as [[[]|e|] b']; cbn; [| |done].
  - destruct Hspec as (_ & _ & Hl & Htop). split; [by rewrite Hl|]. rewrite Hl. intros u st.
    destruct (topics b !! t) as [st0|] eqn:Ht.
    + destruct Htop as [_ ->]. apply Ho.
    + rewrite Htop, lookup_insert. case_decide; [|apply Ho].
      intros [= <-]. by split; constructor.
  - destruct Hspec as (_ & Htop & _ & Hl & _). split; [by rewrite Hl|]. rewrite Hl, Htop.
    apply Ho.
Qed.

Lemma deadLetter_ordered t m b :
  ordered b → last_sequence b + Z.of_nat (S (enqueue_fuel b)) < 2 ^ 64 →
  ordered (deadLetter_message t m b).2.
Proof.
  intros Ho Hmax. destruct (deadLetter_message t m b) as [o b'] eqn:Hd.
  apply deadLetterWith_ordered in Hd as [? _]; [done|apply enqueueLocked_ordered|done|done].
Qed.

Lemma requeue_message_run t m b :
  requeue_message t m b =
    (Ret tt, with_topics (alter (with_messages (cons (mkHeld (sequence m) (body m) true))) t)
      (touched t b)).
Proof. unfold requeue_message, update_messages. run. by rewrite touch_topic_run. Qed.

Lemma requeue_ordered t m b :
  ordered b → sequence m ≤ last_sequence b →
  (∀ st, topics b !! t = Some st → Forall (λ h, earlier m h) (messages st)) →
  ordered (requeue_message t m b).2.
Proof.
  intros Ho Hm Hlt. rewrite requeue_message_run. cbn [snd].
  pose proof (ordered_touch t b Ho) as Ho1. apply ordered_update; [done|].
  intros st Hst. destruct Ho1 as [_ Ho1]. destruct (Ho1 t st Hst) as [Hs Hle].
  rewrite touched_lookup, decide_True in Hst by done. rewrite touched_sequence in *.
  split.
  - constructor; [done|]. destruct (topics b !! t) as [st0|] eqn:Ht; simplify_eq; cbn.
    + eapply Forall_impl; [by apply Hlt|]. by unfold earlier.
    + constructor.
  - by constructor.
Qed.

(** ** Properties *)

(** The routing key of one publish. *)
Definition publish_key (st : TopicState) (over : string) : string :=
  if is_empty over then binding st else over.

(** C1. Grouped routing, exactly.  In a broker any operations led to, where no
    receiver is a forensic topic of another ([isolated]), a publish through a
    grouped destination that returns gives one copy to every destination of the
    group whose binding accepts the key (subject to that destination's bound), leaves
    every other destination alone that is not a forensic topic downstream of a
    receiver, and is accepted precisely when every receiver admits its copy. *)
Theorem publish_routing topic text over b st b' r :
  reachable b → topics b !! topic = Some st → group (options st) ≠ "" →
  isolated (group (options st)) (routing (options st)) (publish_key st over) b →
  publish topic text over b = (Ret r, b') →
  let hit := receives (group (options st)) (routing (options st)) (publish_key st over) in
  (∀ u su, topics b !! u = Some su →
     if hit su then ∃ n, topics b' !! u = Some (stored su (mkHeld n text false))
     else (∀ v sv, topics b !! v = Some sv → hit sv = true → ¬ downstream v u) →
          topics b' !! u = Some su) ∧
  (r = true ↔ ∀ u su, topics b !! u = Some su → hit su = true → admits su = true).
Proof.
  intros Hreach Ht Hg Hiso Hpub hit.
  pose proof (reachable_groups_known b Hreach topic st Ht Hg) as Hk.
  rewrite (publish_grouped _ _ _ _ st (routing (options st))) in Hpub by done.
  change (if is_empty over then binding st else over) with (publish_key st over) in Hpub.
  apply publish_loop_spec in Hpub as (Hdel & Hframe & ->);
    [|apply NoDup_sorted_keys|by intros u ?%elem_of_sorted_keys|done].
  assert (Hat : ∀ u su, topics b !! u = Some su →
    receives_at (group (options st)) (routing (options st)) (publish_key st over) b u = hit su).
  { intros u su Hu. unfold receives_at. by rewrite Hu. }
  split.
  - intros u su Hu. destruct (hit su) eqn:Hhit.
    + eapply Hdel; [|by rewrite (Hat u su)|done]. apply elem_of_sorted_keys. by eexists.
    + intros Hdown. rewrite Hframe; [done| |].
      * intros [_ H]. change (receives_at (group (options st)) (routing (options st))
          (publish_key st over) b u = true) in H. rewrite (Hat u su Hu) in H. congruence.
      * intros v Hv%elem_of_sorted_keys Hrv. destruct Hv as [sv Hsv].
        apply (Hdown v sv Hsv). by rewrite <- (Hat v sv Hsv).
  - rewrite andb_true_l, forallb_forall. split.
    + intros Hall u su Hu Hhit.
      specialize (Hall u). rewrite <- list_elem_of_In, elem_of_sorted_keys in Hall.
      specialize (Hall ltac:(by eexists)).
      change (negb (receives_at (group (options st)) (routing (options st))
        (publish_key st over) b u) || admits_at b u = true) in Hall.
      rewrite (Hat u su Hu), Hhit in Hall. unfold admits_at in Hall. by rewrite Hu in Hall.
    + intros Hall u Hin%list_elem_of_In%elem_of_sorted_keys. destruct Hin as [su Hu].
      change (negb (receives_at (group (options st)) (routing (options st))
        (publish_key st over) b u) || admits_at b u = true).
      rewrite (Hat u su Hu). destruct (hit su) eqn:Hhit; [|done].
      unfold admits_at. rewrite Hu. cbn. by apply (Hall u).
Qed.

(** A broker with three destinations in one group, two of them matching. *)
Definition nav_options (r : string) : TopicOptions :=
  mkTopicOptions true true false false 0 DropHead "nav" r Pattern.
Definition nav_broker : Broker :=
  perform (OpEnsureTopic "c" (nav_options "other"))
    (perform (OpEnsureTopic "b" (nav_options "pos.#"))
      (perform (OpEnsureTopic "a" (nav_options "pos.*")) empty_Broker)).

Lemma nav_isolated key : isolated "nav" Pattern key nav_broker.
Proof.
  intros u v Hu Hv Hd%downstream_length.
  assert (Hlen : ∀ w, receives_at "nav" Pattern key nav_broker w = true →
    String.length w = 1%nat).
  { intros w. unfold receives_at.
    destruct (topics nav_broker !! w) as [st|] eqn:Hw; [|done]. intros _.
    assert (w ∈ dom (topics nav_broker)) as Hin by (apply elem_of_dom; by eexists).
    change (dom (topics nav_broker)) with (dom (<["c" := mkTopicState [] (nav_options "other") "other"]>
      (<["b" := mkTopicState [] (nav_options "pos.#") "pos.#"]>
      (<["a" := mkTopicState [] (nav_options "pos.*") "pos.*"]> (∅ : gmap string TopicState))))) in Hin.
    rewrite !dom_insert_L, dom_empty_L in Hin.
    assert (w = "c" ∨ w = "b" ∨ w = "a") as [-> | [-> | ->]] by set_solver; done. }
  rewrite (Hlen u), (Hlen v) in Hd by done. lia.
Qed.

Lemma publish_routing_witness :
  ∃ n, topics (publish "a" "x" "pos.lat" nav_broker).2 !! "b" =
    Some (mkTopicState [mkHeld n "x" false] (nav_options "pos.#") "pos.#").
Proof.
  pose proof (publish_routing "a" "x" "pos.lat" nav_broker
    (mkTopicState [] (nav_options "pos.*") "pos.*")
    (publish "a" "x" "pos.lat" nav_broker).2 true) as H.
  destruct H as [H _].
  - repeat apply reachable_step. apply reachable_start.
  - vm_compute. reflexivity.
  - done.
  - apply nav_isolated.
  - vm_compute. reflexivity.
  - exact (H "b" (mkTopicState [] (nav_options "pos.#") "pos.#") eq_refl).
Defined.

(** C25. Bounded destinations: whatever is published, through whatever group and
    with whatever dead-letter cascades, and however the call ends, no bounded
    destination ends up above the larger of its limit and its previous length. *)
Theorem publish_respects_bounds topic text over b u st :
  topics b !! u = Some st → maxLength (options st) > 0 →
  ∃ st', topics (publish topic text over b).2 !! u = Some st' ∧ options st' = options st ∧
    Z.of_nat (length (messages st')) ≤
      Z.max (Z.of_nat (length (messages st))) (maxLength (options st)).
Proof. apply publish_bound. Qed.

Definition bounded_pair (policy : OverflowPolicy) : Broker :=
  let opts := mkTopicOptions true true false true 2 policy "" "" Pattern in
  perform (OpPublish "t" "2" "") (perform (OpPublish "t" "1" "")
    (perform (OpEnsureTopic "t" opts)
      (perform (OpEnsureTopic (deadLetterTopic "t") (forensicTopicOptions "t")) empty_Broker))).

Lemma publish_respects_bounds_witness :
  ∃ st', topics (publish "t" "3" "" (bounded_pair DropHead)).2 !! "t" = Some st' ∧
    Z.of_nat (length (messages st')) ≤ 2.
Proof.
  destruct (publish_respects_bounds "t" "3" "" (bounded_pair DropHead) "t"
    (mkTopicState [mkHeld 1 "1" false; mkHeld 2 "2" false]
      (mkTopicOptions true true false true 2 DropHead "" "" Pattern) "t"))
    as (st' & H & _ & Hl).
  - vm_compute. reflexivity.
  - done.
  - exists st'. split; [exact H|]. revert Hl. vm_compute. intros Hl. exact Hl.
Defined.

Lemma publish_direct_run topic text over b o b' :
  match topics b !! topic with Some st => group (options st) = "" | None => True end →
  publish topic text over b = (o, b') →
  let st := default default_TopicState (topics b !! topic) in
  (∀ r, o = Ret r → r = admits st ∧
     ∃ n, topics b' !! topic = Some (stored st (mkHeld n text false))) ∧
  (∀ u, u ≠ topic → ¬ downstream topic u → topics b' !! u = topics b !! u).
Proof.
  intros Hg. rewrite publish_ungrouped_run by done. unfold next_sequence. run.
  set (b1 := mkBroker (topics (touched topic b)) _ _).
  destruct (enqueue topic _ b1) as [o1 b2] eqn:He.
  destruct (enqueue_contract_enqueue _ _ _ _ _ He) as (_ & Hf & Hown).
  intros Hres. assert (o1 = o ∧ b2 = b') as [-> ->] by (destruct o1; by simplify_eq).
  split.
  - intros r ->. assert (Hst : topics b1 !! topic =
      Some (default default_TopicState (topics b !! topic))).
    { change (topics b1) with (topics (touched topic b)).
      by rewrite touched_lookup, decide_True. }
    destruct (Hown r _ eq_refl Hst) as [-> ->]. split; [done|by eexists].
  - intros u Hne Hd. rewrite Hf by done. change (topics b1) with (topics (touched topic b)).
    by rewrite touched_lookup, decide_False.
Qed.

(** A publish to an ungrouped (or undeclared) destination: when it returns,
    exactly that queue took the message under its overflow policy and the result
    says whether it was admitted; on every path only the destination and its
    dead-letter chain can change. *)
Theorem publish_direct topic text over b o b' :
  match topics b !! topic with Some st => group (options st) = "" | None => True end →
  publish topic text over b = (o, b') →
  let st := default default_TopicState (topics b !! topic) in
  (∀ r, o = Ret r → r = admits st ∧
     ∃ n, topics b' !! topic = Some (stored st (mkHeld n text false))) ∧
  (∀ u, u ≠ topic → ¬ downstream topic u → topics b' !! u = topics b !! u).
Proof. apply publish_direct_run. Qed.

Lemma publish_direct_witness :
  ∃ n, topics (publish "t" "3" "" (bounded_pair DropHead)).2 !! "t" =
    Some (mkTopicState [mkHeld 2 "2" false; mkHeld n "3" false]
      (mkTopicOptions true true false true 2 DropHead "" "" Pattern) "t").
Proof.
  destruct (publish_direct "t" "3" "" (bounded_pair DropHead)
    (publish "t" "3" "" (bounded_pair DropHead)).1
    (publish "t" "3" "" (bounded_pair DropHead)).2) as [H _].
  - vm_compute. reflexivity.
  - apply surjective_pairing.
  - destruct (H true) as [_ [n Hn]]; [vm_compute; reflexivity|].
    exists n. revert Hn. vm_compute. intros Hn. exact Hn.
Defined.

(** C24. FIFO: in a reachable broker every operation other than a requeue keeps
    every queue sorted by sequence number, and putting a message back in front of
    later ones does too (sequence numbers are 64 bits wide and assumed not to
    wrap). *)
Theorem queues_stay_ordered b :
  reachable b → ordered b →
  (∀ t opts, ordered (ensureTopic t opts b).2) ∧
  (∀ t text over, last_sequence b + publish_cost b t < 2 ^ 64 →
     ordered (publish t text over b).2) ∧
  (∀ t, ordered (take_message t b).2) ∧
  (∀ t, ordered (purge t b).2) ∧
  (∀ t m, last_sequence b + Z.of_nat (S (enqueue_fuel b)) < 2 ^ 64 →
     ordered (deadLetter_message t m b).2) ∧
  (∀ t m, sequence m ≤ last_sequence b →
     (∀ st, topics b !! t = Some st → Forall (λ h, earlier m h) (messages st)) →
     ordered (requeue_message t m b).2).
Proof.
  intros Hr Ho. split_and!; intros.
  - by apply ensureTopic_ordered.
  - by apply publish_ordered; [|apply reachable_groups_known|].
  - by apply take_message_ordered.
  - by apply purge_ordered.
  - by apply deadLetter_ordered.
  - by apply requeue_ordered.
Qed.

Lemma ordered_empty : ordered empty_Broker.
Proof.
  split; [done|]. intros t st H.
  assert (topics empty_Broker !! t = None) by apply lookup_empty. congruence.
Qed.

Lemma queues_stay_ordered_witness : ordered (publish "t" "x" "" empty_Broker).2.
Proof.
  destruct (queues_stay_ordered empty_Broker reachable_start ordered_empty) as (_ & H & _).
  apply H. vm_compute. reflexivity.
Defined.

(** C39. Storing terminates with a result on every broker: the recursion between
    [enqueueLocked] and [deadLetterLocked] ends (each nested call names a longer
    existing topic), no branch reads an empty queue, so publishing and
    dead-lettering either return or throw. *)
Theorem storing_terminates topic text over m b :
  (publish topic text over b).1 ≠ Undefined ∧ (deadLetter_message topic m b).1 ≠ Undefined.
Proof. split; [apply publish_defined_at|apply deadLetterLocked_defined]. Qed.

(** A destination that was declared with these options. *)
Definition declared_with (topic : Topic) (opts : TopicOptions) (b : Broker) : Prop :=
  (∃ st, topics b !! topic = Some st ∧ same_properties (options st) opts) ∧
  (group opts ≠ "" → groups b !! group opts = Some (routing opts)).

Lemma ensureTopic_redeclared topic opts b :
  declared_with topic opts b → ensureTopic topic opts b = (Ret tt, b).
Proof.
  intros [(st & Hst & Hsame) Hgr].
  unfold ensureTopic, ensure_group. destruct (is_empty (group opts)) eqn:Hg; run.
  - by rewrite Hst, ensureTopic_mismatch, bool_decide_false by tauto.
  - apply is_empty_false in Hg. rewrite (Hgr Hg), (bool_decide_false (_ ≠ _)) by tauto.
    by rewrite Hst, ensureTopic_mismatch, bool_decide_false by tauto.
Qed.

Lemma ensureTopic_again topic opts b b' :
  ensureTopic topic opts b = (Ret tt, b') → ensureTopic topic opts b' = (Ret tt, b').
Proof.
  intros He. pose proof (ensureTopic_spec topic opts b) as H1. rewrite He in H1.
  destruct H1 as (_ & Hgr & _ & Htop). apply ensureTopic_redeclared. split; [|exact Hgr].
  destruct (topics b !! topic) as [st|] eqn:Ht.
  - destruct Htop as [Hsame Heq]. exists st. by rewrite Heq.
  - rewrite Htop, lookup_insert_eq. eexists. by split.
Qed.

(** Declaring: an existing destination is never modified (queue, options and
    binding survive any redeclaration, accepted or refused); a redeclaration with
    the same six properties and a consistent group is accepted, anything else is
    refused with [std::runtime_error]; and a successful declaration is idempotent. *)
Theorem ensureTopic_contract topic opts b o b' :
  ensureTopic topic opts b = (o, b') →
  (∀ u st, topics b !! u = Some st → topics b' !! u = Some st) ∧
  (o = Ret tt ↔
     (∀ st, topics b !! topic = Some st → same_properties (options st) opts) ∧
     (group opts ≠ "" → ∀ kind, groups b !! group opts = Some kind → kind = routing opts)) ∧
  (o ≠ Ret tt → ∃ text, o = Throw (runtime_error text)) ∧
  (o = Ret tt → is_Some (topics b' !! topic) ∧ ensureTopic topic opts b' = (Ret tt, b')).
Proof.
  intros He. pose proof (ensureTopic_spec topic opts b) as H1. rewrite He in H1.
  destruct o as [[]|e|]; [| |done].
  - destruct H1 as (Hsub & Hgr & _ & Htop). split_and!.
    + intros u st Hu. destruct (topics b !! topic) as [st0|] eqn:Ht.
      * destruct Htop as [_ ->]. done.
      * rewrite Htop, lookup_insert_ne by congruence. done.
    + split; [|done]. intros _. split.
      * intros st Hst. rewrite Hst in Htop. by destruct Htop.
      * intros Hne kind Hk. pose proof (lookup_weaken _ _ _ _ Hk Hsub). specialize (Hgr Hne).
        congruence.
    + done.
    + intros _. split; [|by eapply ensureTopic_again].
      destruct (topics b !! topic) as [st|] eqn:Ht.
      * destruct Htop as [_ ->]. by rewrite Ht.
      * rewrite Htop, lookup_insert_eq. by eexists.
  - destruct H1 as ((text & ->) & Htop & _ & _ & Hwhy). split_and!.
    + intros u st. by rewrite Htop.
    + split; [done|]. intros [Hs Hk]. exfalso.
      destruct Hwhy as [(st & Hst & Hn)|(kind & Hkind & Hne)]; [by apply Hn, Hs|].
      destruct (decide (group opts = "")) as [Hempty|Hgrp]; [|by apply Hne, Hk].
      revert He. unfold ensureTopic, ensure_group. rewrite Hempty. change (is_empty "") with true. run.
      destruct (topics b !! topic) as [st|] eqn:Ht; [|done].
      rewrite ensureTopic_mismatch, bool_decide_false; [by intros [=]|].
      intros Hn. by apply Hn, Hs.
    + intros _. by eexists.
    + done.
Qed.

Lemma ensureTopic_contract_witness :
  ensureTopic "t" default_TopicOptions empty_Broker =
    (Ret tt, with_topics <["t" := mkTopicState [] default_TopicOptions "t"]> empty_Broker) ∧
  ensureTopic "t" default_TopicOptions
    (with_topics <["t" := mkTopicState [] default_TopicOptions "t"]> empty_Broker) =
    (Ret tt, with_topics <["t" := mkTopicState [] default_TopicOptions "t"]> empty_Broker).
Proof.
  assert (He : ensureTopic "t" default_TopicOptions empty_Broker =
    (Ret tt, with_topics <["t" := mkTopicState [] default_TopicOptions "t"]> empty_Broker))
    by reflexivity.
  split; [exact He|].
  destruct (ensureTopic_contract "t" default_TopicOptions empty_Broker _ _ He)
    as (_ & _ & _ & H).
  by apply H.
Defined.

(** Two declarers that both pass [checkTopicOptions] without asymmetry, and
    name the same group and kind, never refuse each other, in either order: the
    second declaration is accepted and changes no destination. *)
Theorem symmetric_declarers_agree caps topic o1 o2 b b1 :
  checkTopicOptions caps o1 false = Ret tt → checkTopicOptions caps o2 false = Ret tt →
  group o1 = group o2 → routing o1 = routing o2 →
  ensureTopic topic o1 b = (Ret tt, b1) →
  ∃ b2, ensureTopic topic o2 b1 = (Ret tt, b2) ∧ topics b2 = topics b1.
Proof.
  intros [_ [?|H1]]%checkTopicOptions_Ret [_ [?|H2]]%checkTopicOptions_Ret Hg Hr He; try done.
  pose proof (ensureTopic_again _ _ _ _ He) as Hagain.
  pose proof (ensureTopic_spec topic o1 b1) as S1. rewrite Hagain in S1.
  pose proof (ensureTopic_spec topic o2 b1) as S2.
  pose proof (ensureTopic_spec topic o1 b) as S0. rewrite He in S0.
  destruct S1 as (_ & Hk & _ & Htop). destruct S0 as (_ & _ & _ & Htop0).
  assert (Hex : ∃ st, topics b1 !! topic = Some st).
  { destruct (topics b !! topic) as [st|] eqn:Ht.
    - destruct Htop0 as [_ ->]. by eexists.
    - rewrite Htop0, lookup_insert_eq. by eexists. }
  destruct Hex as [st Hst]. rewrite Hst in Htop. destruct Htop as [Hsame _].
  assert (Hsame2 : same_properties (options st) o2) by (rewrite Hsame, H1; by symmetry).
  destruct (ensureTopic topic o2 b1) as [[[]|e|] b2] eqn:He2; [| |done].
  - exists b2. split; [done|]. rewrite Hst in S2. by destruct S2 as (_ & _ & _ & _ & ?).
  - exfalso. destruct S2 as (_ & _ & _ & _ & [(st' & Hst' & Hn)|(kind & Hkind & Hne)]).
    + simplify_eq. by apply Hn.
    + destruct (decide (group o1 = "")) as [Hempty|Hgrp].
      * revert He2. unfold ensureTopic, ensure_group. rewrite <- Hg, Hempty. change (is_empty "") with true. run.
        rewrite Hst, ensureTopic_mismatch, bool_decide_false; [by intros [=]|].
        intros Hn. by apply Hn.
      * rewrite <- Hg, Hk in Hkind by done. congruence.
Qed.

Lemma symmetric_declarers_agree_witness :
  let caps := mkCapabilities "inmemory" false true true true true true true true true true true
    false true true in
  ∃ b2, ensureTopic "t" (mkTopicOptions true true false true 0 DropHead "" "elsewhere" Exact)
      (with_topics <["t" := mkTopicState [] (mkTopicOptions true true false true 0 DropHead "" ""
        Exact) "t"]> empty_Broker) = (Ret tt, b2) ∧
    topics b2 = <["t" := mkTopicState [] (mkTopicOptions true true false true 0 DropHead "" ""
        Exact) "t"]> ∅.
Proof.
  intros caps.
  apply (symmetric_declarers_agree caps "t"
    (mkTopicOptions true true false true 0 DropHead "" "" Exact)
    (mkTopicOptions true true false true 0 DropHead "" "elsewhere" Exact) empty_Broker);
    reflexivity.
Defined.

(** ** Consuming and dead-lettering *)

(** C23. Rejected messages are kept as evidence.  Dead-lettering from a topic whose
    forensic destination was declared as [forensicTopicOptions] says always
    succeeds, adds a fresh copy of the body behind the evidence already there while
    fewer than 2000 are stored, never drops or reorders evidence, and touches no
    other destination. *)
Theorem evidence_is_kept topic m b st f :
  topics b !! topic = Some st → deadLetter (options st) = true →
  topics b !! deadLetterTopic topic = Some f →
  same_properties (options f) (forensicTopicOptions topic) →
  ∃ b' f', deadLetter_message topic m b = (Ret tt, b') ∧
    topics b' !! deadLetterTopic topic = Some f' ∧ options f' = options f ∧
    messages f' =
      (if decide (Z.of_nat (length (messages f)) < 2000)
       then messages f ++ [forensic_copy b m] else messages f) ∧
    body (forensic_copy b m) = body m ∧
    (∀ u, u ≠ deadLetterTopic topic → topics b' !! u = topics b !! u).
Proof.
  intros Hst Hd Hf (_ & _ & _ & Hfd & Hmax & Hov). cbn in Hfd, Hmax, Hov.
  unfold deadLetter_message. rewrite (deadLetterLocked_provisioned topic m b st f) by done.
  eexists _, (stored f (forensic_copy b m)). split_and!; [done| |done| |done|].
  - apply lookup_insert_eq.
  - cbn [stored messages]. unfold queue_after, is_full. rewrite Hmax, Hov. unfold kForensicMaxLength.
    rewrite (bool_decide_true (2000 > 0)) by lia. cbn [andb].
    case_bool_decide; case_decide; [lia|done|done|lia].
  - intros u Hu. cbn. by apply lookup_insert_ne.
Qed.

Lemma evidence_is_kept_witness :
  ∃ b' f', deadLetter_message "t" (mkHeld 9 "bad" true) (bounded_pair DropHead) = (Ret tt, b') ∧
    topics b' !! deadLetterTopic "t" = Some f' ∧ messages f' = [mkHeld 3 "bad" false].
Proof.
  destruct (evidence_is_kept "t" (mkHeld 9 "bad" true) (bounded_pair DropHead)
    (mkTopicState [mkHeld 1 "1" false; mkHeld 2 "2" false]
      (mkTopicOptions true true false true 2 DropHead "" "" Pattern) "t")
    (mkTopicState [] (forensicTopicOptions "t") "t"))
    as (b' & f' & Hr & Hf & _ & Hm & _).
  - vm_compute. reflexivity.
  - reflexivity.
  - vm_compute. reflexivity.
  - reflexivity.
  - exists b', f'. split_and!; [exact Hr|exact Hf|]. rewrite Hm. vm_compute. reflexivity.
Defined.

(** Taking and giving back.  [take] answers nothing exactly when the topic has
    nothing waiting and otherwise removes exactly the front message; giving that
    message back restores the queue as it was but for the redelivery flag, so the
    next [take] gets the same message again, marked. *)
Theorem take_requeue_roundtrip topic b :
  match (match topics b !! topic with Some st => messages st | None => [] end) with
  | [] => take_message topic b = (Ret None, b)
  | m :: rest =>
      ∃ st b1, take_message topic b = (Ret (Some m), b1) ∧
        topics b !! topic = Some st ∧
        topics b1 = <[topic := with_messages (λ _, rest) st]> (topics b) ∧
        let b2 := (requeue_message topic m b1).2 in
        (requeue_message topic m b1).1 = Ret tt ∧
        topics b2 =
          <[topic := with_messages (λ _, mkHeld (sequence m) (body m) true :: rest) st]> (topics b) ∧
        take_message topic b2 = (Ret (Some (mkHeld (sequence m) (body m) true)), b1)
  end.
Proof.
  destruct (topics b !! topic) as [st|] eqn:Ht.
  2:{ unfold take_message. run. by rewrite Ht. }
  destruct (messages st) as [|m rest] eqn:Hm.
  { unfold take_message. run. by rewrite Ht, Hm. }
  assert (Halter : ∀ f (ts : gmap string TopicState) s, ts !! topic = Some s →
    alter (with_messages f) topic ts = <[topic := with_messages f s]> ts).
  { intros f ts s Hs. apply map_eq. intros u. rewrite lookup_alter, lookup_insert.
    case_decide; subst; by rewrite ?Hs. }
  set (b1 := with_topics <[topic := with_messages (λ _, rest) st]> b).
  assert (Htake : take_message topic b = (Ret (Some m), b1)).
  { unfold take_message, update_messages. run. rewrite Ht, Hm. cbn.
    unfold b1, with_topics. by rewrite (Halter _ _ st). }
  assert (Hb1 : topics b1 !! topic = Some (with_messages (λ _, rest) st)) by apply lookup_insert_eq.
  set (m' := mkHeld (sequence m) (body m) true).
  assert (Hreq : requeue_message topic m b1 =
    (Ret tt, with_topics <[topic := with_messages (λ _, m' :: rest) st]> b)).
  { rewrite requeue_message_run, (touched_known _ _ _ Hb1). unfold with_topics. cbn.
    rewrite (Halter _ _ (with_messages (λ _, rest) st)) by apply lookup_insert_eq.
    unfold b1, with_topics. cbn. by rewrite insert_insert_eq. }
  exists st, b1. split_and!; [done|done|done|]. rewrite Hreq. cbn [fst snd].
  split_and!; [done|done|].
  unfold take_message, update_messages. run. unfold with_topics at 1. cbn [topics].
  rewrite lookup_insert_eq. cbn. unfold b1, with_topics. cbn.
  rewrite (Halter _ _ (with_messages (λ _, m' :: rest) st)) by apply lookup_insert_eq.
  by rewrite insert_insert_eq.
Qed.
