(* ===== verification/InMemoryTransport.v ===== *)
(** One in-memory transport ([class InMemoryTransport] of
    [src/transport/InMemoryTransport.cpp]): a connection-shaped object over the
    shared [Broker].  Module [InMemory] holds its state and methods; the file ends
    with the prefetch, crash-safety, settlement and accounting properties.
    A handler may do anything to the broker and to its own state; the properties
    that need it say so when they assume a handler that leaves the delivering
    transport object itself alone ([quiet]).

    The broker is process-wide, so it is a component of the state each method
    runs on; what other transports do to it between two rounds of the delivery
    loop is the [pump] argument.  Logging is not modelled. *)

From S2P Require Import Prelude ITransport Broker.
#[local] Open Scope Z_scope.

Module InMemory.

(** ** State *)

(** The members of one [InMemoryTransport], and the broker all of them share. *)
Record InMemoryTransport (H : Type) : Type := mkInMemory {
  broker : Broker;
  _connected : bool;
  _subscribed : bool;
  _topic : Topic;
  _handler : option H;
  _outstanding : gmap Z Held;
  _stats : Stats;
}.
Arguments mkInMemory {H} _ _ _ _ _ _ _.
Arguments broker {H} _.
Arguments _connected {H} _.
Arguments _subscribed {H} _.
Arguments _topic {H} _.
Arguments _handler {H} _.
Arguments _outstanding {H} _.
Arguments _stats {H} _.

Section transport.
Context {H : Type}.
Local Abbreviation T := (InMemoryTransport H).

(** [InMemoryTransport()]: a new object over an existing broker. *)
Definition new_InMemoryTransport (b : Broker) : T :=
  mkInMemory b false false "" None ∅ default_Stats.

Definition with_broker (f : Broker → Broker) (t : T) : T :=
  mkInMemory (f (broker t)) (_connected t) (_subscribed t) (_topic t) (_handler t)
    (_outstanding t) (_stats t).
Definition with_outstanding (f : gmap Z Held → gmap Z Held) (t : T) : T :=
  mkInMemory (broker t) (_connected t) (_subscribed t) (_topic t) (_handler t)
    (f (_outstanding t)) (_stats t).
Definition with_stats (f : Stats → Stats) (t : T) : T :=
  mkInMemory (broker t) (_connected t) (_subscribed t) (_topic t) (_handler t)
    (_outstanding t) (f (_stats t)).

(** [Broker::instance().m()] *)
Definition on_broker {A} (m : M Broker A) : M T A := λ t,
  let '(o, b) := m (broker t) in (o, with_broker (λ _, b) t).

(** ** Methods without delivery *)

(** [InMemoryTransport::capabilities] *)
Definition capabilities (t : T) : Capabilities := {|
  cap_name := "inmemory";
  cap_durableDelivery := false;
  cap_publisherConfirms := true;
  cap_manualAcknowledgement := true;
  cap_redeliveryFlag := true;
  cap_deadLetter := true;
  cap_routingGroups := true;
  cap_fifoPerTopic := true;
  cap_competingConsumers := true;
  cap_topicDepth := true;
  cap_purge := true;
  cap_requeue := true;
  cap_reconnect := cap_reconnect default_Capabilities;
  cap_deferredAcknowledgement := true;
  cap_boundedQueue := true;
|}.

(** [InMemoryTransport::connect] *)
Definition connect (endpoint : Endpoint) (timeout : Z) : M T unit :=
  modify (λ t, mkInMemory (broker t) true (_subscribed t) (_topic t) (_handler t)
    (_outstanding t) (_stats t)).

(** The requeue loop of [returnOutstanding] over the keys it visits. *)
Fixpoint requeue_all (keys : list Z) : M T unit :=
  match keys with
  | [] => mret tt
  | key :: keys =>
      t ← gets id;
      match _outstanding t !! key with
      | None => undefined
      | Some message =>
          _ ← on_broker (requeue_message (_topic t) message);
          requeue_all keys
      end
  end.

(** [InMemoryTransport::returnOutstanding] *)
Definition returnOutstanding : M T unit :=
  t ← gets id;
  if bool_decide (_outstanding t = ∅) then mret tt
  else
    _ ← requeue_all (reverse (sorted_keys Z.le (_outstanding t)));
    modify (with_outstanding (λ _, ∅)).

(** [InMemoryTransport::close] *)
Definition close (timeout : Z) : M T unit :=
  _ ← returnOutstanding;
  modify (λ t, mkInMemory (broker t) false false "" None (_outstanding t) (_stats t)).

(** [~InMemoryTransport]: every exception is swallowed. *)
Definition destroy : M T unit := try_catch returnOutstanding (λ _, mret tt).

(** [InMemoryTransport::ready] *)
Definition ready (t : T) : bool := _connected t.

(** [if (!_connected) throw std::logic_error("... called before connect()");] *)
Definition require_connected (operation : string) : M T unit :=
  connected ← gets _connected;
  throw_if (negb connected) (logic_error (operation +:+ "() called before connect()")).

(** [InMemoryTransport::ensureTopic] *)
Definition ensureTopic (topic : Topic) (options : TopicOptions) (timeout : Z) : M T unit :=
  _ ← require_connected "ensureTopic";
  _ ← (if deadLetter options then
         on_broker (Broker.ensureTopic (deadLetterTopic topic) (forensicTopicOptions topic))
       else mret tt);
  on_broker (Broker.ensureTopic topic options).

(** [InMemoryTransport::topicDepth] *)
Definition topicDepth (topic : Topic) (timeout : Z) : M T Z :=
  _ ← require_connected "topicDepth";
  on_broker (depth topic).

(** [InMemoryTransport::purgeTopic] *)
Definition purgeTopic (topic : Topic) (timeout : Z) : M T Z :=
  _ ← require_connected "purgeTopic";
  on_broker (purge topic).

(** [InMemoryTransport::send] *)
Definition send (topic : Topic) (payload : string) (options : SendOptions) : M T bool :=
  _ ← require_connected "send";
  _ ← throw_if (send_durable options) (logic_error
        ("backend 'inmemory' cannot deliver durable messages " +:+
         "(Capabilities::durableDelivery is false); check the capability before requesting it"));
  accepted ← on_broker (publish topic payload (send_route options));
  _ ← modify (with_stats (bump_sent (size_of payload)));
  mret accepted.

(** [InMemoryTransport::subscribe] *)
Definition subscribe (topic : Topic) (handler : option H) (timeout : Z) : M T unit :=
  _ ← require_connected "subscribe";
  _ ← throw_if (bool_decide (handler = None))
        (invalid_argument "subscribe() requires a callable handler");
  t ← gets id;
  _ ← throw_if (_subscribed t) (logic_error
        ("subscribe() called twice on one transport; use one transport per " +:+
         "topic instead of overwriting the active subscription to '" +:+ _topic t +:+ "'"));
  modify (λ t, mkInMemory (broker t) (_connected t) true topic handler (_outstanding t)
    (_stats t)).

(** ** Resolving a delivery *)

(** The [switch] that ends [pump] and [settle]; [Deferred] is unreachable in
    both. *)
Definition resolve (disposition : Disposition) (message : Held) : M T unit :=
  topic ← gets _topic;
  match disposition with
  | Ack => modify (with_stats bump_acks)
  | Requeue =>
      _ ← on_broker (requeue_message topic message);
      modify (with_stats bump_requeues)
  | Reject =>
      _ ← on_broker (deadLetter_message topic message);
      modify (with_stats bump_rejects)
  | Deferred => mret tt
  end.

(** [InMemoryTransport::settle] *)
Definition settle (tag : Z) (disposition : Disposition) : M T unit :=
  _ ← require_connected "settle";
  _ ← throw_if (bool_decide (disposition = Deferred)) (invalid_argument
        ("settle() cannot be called with Disposition::Deferred; a delivery already deferred " +:+
         "must be settled with Ack, Reject or Requeue"));
  it ← gets (λ t, _outstanding t !! tag);
  match it with
  | None => throw (logic_error ("settle() called for tag " +:+ pretty tag +:+
      ", which is not an outstanding deferred delivery on this transport (already settled, " +:+
      "or never deferred)"))
  | Some message =>
      _ ← modify (with_outstanding (delete tag));
      resolve disposition message
  end.

(** ** Delivery *)

(** [_outstanding.emplace(tag, message)] keeps an existing entry. *)
Definition emplace (tag : Z) (message : Held) (m : gmap Z Held) : gmap Z Held :=
  match m !! tag with Some _ => m | None => <[tag := message]> m end.

Definition delivery_of (message : Held) : Delivery :=
  mkDelivery (body message) (redelivered message) (sequence message).

(** The loop body of [pump] from the successful [take] on. *)
Definition deliver {S} (run : Runner T H S) (handler : H) (message : Held) : M (T * S) bool :=
  _ ← on_fst (modify (with_stats (bump_received (size_of (body message)))));
  _ ← on_fst (modify (with_outstanding (emplace (sequence message) message)));
  disposition ← try_catch (run handler (delivery_of message))
    (λ e, _ ← on_fst (modify (with_stats bump_abandoned)); throw e);
  if bool_decide (disposition = Deferred) then mret true
  else
    _ ← on_fst (modify (with_outstanding (delete (sequence message))));
    _ ← on_fst (resolve disposition message);
    mret true.

(** What the other users of the broker did since the previous round. *)
Definition perform_all (ops : list operation) : M T unit :=
  modify (with_broker (λ b, foldl (λ b op, perform op b) b ops)).

(** The [while] loop: one element of [rounds] per time the deadline test
    succeeds. *)
Fixpoint pump_loop {S} (run : Runner T H S) (handler : H) (rounds : list (list operation)) :
    M (T * S) bool :=
  match rounds with
  | [] => mret true
  | ops :: rounds =>
      _ ← on_fst (perform_all ops);
      '(t, _) ← gets id;
      if negb (bool_decide (_outstanding t = ∅)) then pump_loop run handler rounds
      else
        taken ← on_fst (on_broker (take_message (_topic t)));
        match taken with
        | None => pump_loop run handler rounds
        | Some message => deliver run handler message
        end
  end.

(** [InMemoryTransport::pump] *)
Definition pump {S} (run : Runner T H S) (rounds : list (list operation)) : M (T * S) bool :=
  '(t, _) ← gets id;
  if negb (_connected t) then mret false
  else
    match _handler t with
    | None => mret true
    | Some handler => pump_loop run handler rounds
    end.

(** [InMemoryTransport::stats] *)
Definition stats (t : T) : Stats := _stats t.

#[export] Instance inmemory_transport : ITransport.ITransport T H := {|
  ITransport.Slice := list (list operation);
  ITransport.capabilities := capabilities;
  ITransport.connect S _ endpoint timeout := on_fst (connect endpoint timeout);
  ITransport.close S _ timeout := on_fst (close timeout);
  ITransport.ready := ready;
  ITransport.ensureTopic S _ topic options timeout := on_fst (ensureTopic topic options timeout);
  ITransport.topicDepth S _ topic timeout := on_fst (topicDepth topic timeout);
  ITransport.purgeTopic S _ topic timeout := on_fst (purgeTopic topic timeout);
  ITransport.send := send;
  ITransport.subscribe S _ topic handler timeout := on_fst (subscribe topic handler timeout);
  ITransport.settle := settle;
  ITransport.setReconnectPolicy := default_setReconnectPolicy;
  ITransport.pump S := @pump S;
  ITransport.stats := stats;
|}.

End transport.

(** ** Lemmas *)

Definition flag (m : Held) : Held := mkHeld (sequence m) (body m) true.

(** The queue of [topic] after the messages [ms] were requeued one by one. *)
Lemma requeue_fold topic ms b :
  ms ≠ [] →
  let b' := foldl (λ b m, (requeue_message topic m b).2) b ms in
  topics b' !! topic = Some (with_messages (λ q, reverse (flag <$> ms) ++ q)
    (default default_TopicState (topics b !! topic))) ∧
  (∀ u, u ≠ topic → topics b' !! u = topics b !! u) ∧
  groups b' = groups b ∧ last_sequence b' = last_sequence b.
Proof.
  intros Hne. induction ms as [|m ms IH] using rev_ind; [done|].
  rewrite foldl_app. cbn [foldl]. rewrite fmap_app, reverse_app. cbn [fmap list_fmap].
  rewrite requeue_message_run. cbn [snd].
  set (b1 := foldl _ b ms) in *.
  assert (Hb1 : topics b1 !! topic = Some (with_messages (λ q, reverse (flag <$> ms) ++ q)
      (default default_TopicState (topics b !! topic))) ∨ (ms = [] ∧ b1 = b)).
  { destruct ms as [|m' ms]; [by right|left; by apply IH]. }
  assert (Hrest : (∀ u, u ≠ topic → topics b1 !! u = topics b !! u) ∧
      groups b1 = groups b ∧ last_sequence b1 = last_sequence b).
  { destruct ms as [|m' ms]; [done|by apply IH]. }
  destruct Hrest as (Hother & Hgroups & Hseq). split_and!.
  - rewrite update_lookup, decide_True by done. rewrite touched_lookup, decide_True by done.
    destruct Hb1 as [->|[-> ->]]; simpl; [done|].
    by destruct (topics b !! topic) as [[]|].
  - intros u Hu. rewrite update_lookup, decide_False by done.
    rewrite touched_lookup, decide_False by done. by apply Hother.
  - cbn. unfold touched. by destruct (topics b1 !! topic).
  - cbn. by rewrite touched_sequence.
Qed.

Section properties.
Context {H : Type}.
Local Abbreviation T := (InMemoryTransport H).

Lemma requeue_all_run (keys : list Z) (ms : list Held) (t : T) :
  Forall2 (λ k m, _outstanding t !! k = Some m) keys ms →
  requeue_all keys t =
    (Ret tt, with_broker (λ b, foldl (λ b m, (requeue_message (_topic t) m b).2) b ms) t).
Proof.
  intros HF. revert ms t HF. induction keys as [|k keys IH]; intros ms t HF.
  { inversion HF; subst. by destruct t. }
  inversion HF as [|? m ? ms' Hk HF']; subst. cbn [requeue_all]. run.
  unfold id. rewrite Hk. unfold on_broker.
  rewrite (surjective_pairing (requeue_message _ _ _)), requeue_message_run. cbn [fst].
  rewrite (IH ms'); [|done]. by rewrite <- requeue_message_run.
Qed.

(** The unresolved deliveries in the order they arrived. *)
Definition unresolved (t : T) : list Held :=
  omap (λ k, _outstanding t !! k) (sorted_keys Z.le (_outstanding t)).

Lemma omap_keys (m : gmap Z Held) (keys : list Z) :
  (∀ k, k ∈ keys → is_Some (m !! k)) → Forall2 (λ k v, m !! k = Some v) keys (omap (m !!.) keys).
Proof.
  induction keys as [|k keys IH]; intros Hin; [done|].
  destruct (Hin k) as [v Hv]; [by left|]. cbn. rewrite Hv. constructor; [done|].
  apply IH. intros k' ?. apply Hin. by right.
Qed.

Lemma unresolved_keys (t : T) :
  Forall2 (λ k m, _outstanding t !! k = Some m) (sorted_keys Z.le (_outstanding t)) (unresolved t).
Proof. apply omap_keys. intros k. apply elem_of_sorted_keys. Qed.

Lemma unresolved_nil (t : T) : unresolved t = [] ↔ _outstanding t = ∅.
Proof.
  pose proof (unresolved_keys t) as HF. split; intros Hu.
  - rewrite Hu in HF. inversion HF as [Hk|]. apply map_eq. intros k. rewrite lookup_empty.
    destruct (_outstanding t !! k) eqn:E; [|done].
    assert (k ∈ sorted_keys Z.le (_outstanding t)) as Hin
      by (apply elem_of_sorted_keys; by eexists).
    rewrite <- Hk in Hin. by apply not_elem_of_nil in Hin.
  - rewrite (sorted_keys_empty _ _ Hu) in HF. by inversion HF.
Qed.

Lemma unresolved_one m (t : T) : _outstanding t = {[sequence m := m]} → unresolved t = [m].
Proof.
  intros Ho. unfold unresolved, sorted_keys. rewrite Ho, dom_singleton_L, elements_singleton. cbn.
  by rewrite lookup_singleton_eq.
Qed.

Lemma returnOutstanding_run (t : T) :
  returnOutstanding t =
    (Ret tt, with_outstanding (λ _, ∅)
      (with_broker (λ b, foldl (λ b m, (requeue_message (_topic t) m b).2) b
         (reverse (unresolved t))) t)).
Proof.
  unfold returnOutstanding. run. unfold id. case_bool_decide as He.
  - apply unresolved_nil in He as Hu. rewrite Hu. cbn. destruct t; cbn in *. by subst.
  - rewrite (requeue_all_run _ (reverse (unresolved t))); [done|].
    apply Forall2_reverse, unresolved_keys.
Qed.

(** ** Unresolved deliveries *)

(** Closing gives the work back in order: whatever the transport still held
    is at the front of its topic in arrival order, each message flagged
    redelivered and otherwise unchanged, ahead of everything that was waiting;
    no other destination moves, nothing stays outstanding, and closing never
    throws and does nothing more the second time. *)
Theorem close_returns_in_order (t : T) timeout :
  let t' := (close timeout t).2 in
  (close timeout t).1 = Ret tt ∧ _outstanding t' = ∅ ∧ ready t' = false ∧ _handler t' = None ∧
  (∀ u, u ≠ _topic t → topics (broker t') !! u = topics (broker t) !! u) ∧
  (_outstanding t ≠ ∅ →
     topics (broker t') !! _topic t =
       Some (with_messages (app (flag <$> unresolved t))
         (default default_TopicState (topics (broker t) !! _topic t)))) ∧
  (_outstanding t = ∅ → broker t' = broker t) ∧
  close timeout t' = (Ret tt, t').
Proof.
  unfold close. run. rewrite returnOutstanding_run. cbn. split_and!; try done.
  - intros u Hu. destruct (decide (reverse (unresolved t) = [])) as [->|Hne]; [done|].
    by apply (requeue_fold (_topic t) _ (broker t) Hne).
  - intros Ho. assert (Hne : reverse (unresolved t) ≠ []).
    { intros Hr. apply (f_equal reverse) in Hr. rewrite reverse_involutive in Hr.
      by apply Ho, unresolved_nil. }
    destruct (requeue_fold (_topic t) _ (broker t) Hne) as [-> _].
    by rewrite fmap_reverse, reverse_involutive.
  - intros Ho. apply unresolved_nil in Ho. by rewrite Ho.
Qed.

(** ** Delivery *)

(** The handler leaves the transport object that is delivering alone; it may
    still use the broker through other transports, and its own state. *)
Definition quiet {S} (run : Runner T H S) : Prop :=
  ∀ h d t s, ∃ b, (run h d (t, s)).2.1 = with_broker (λ _, b) t.

(** The broker after the first rounds of one [pump]. *)
Definition after_rounds (b : Broker) (rounds : list (list operation)) : Broker :=
  foldl (λ b ops, foldl (λ b op, perform op b) b ops) b rounds.

Definition queue_at (b : Broker) (topic : Topic) : list Held :=
  match topics b !! topic with Some st => messages st | None => [] end.

Lemma with_broker_id (t : T) b : broker t = b → with_broker (λ _, b) t = t.
Proof. intros <-. by destruct t. Qed.

Lemma take_message_run topic b :
  take_message topic b =
    match queue_at b topic with
    | [] => (Ret None, b)
    | m :: rest =>
        (Ret (Some m), with_topics (alter (with_messages (λ _, rest)) topic) b)
    end.
Proof.
  unfold take_message, queue_at. run. destruct (topics b !! topic) as [st|] eqn:Ht; [|done].
  destruct (messages st) eqn:Hm; [done|]. unfold update_messages. by run.
Qed.

Lemma pump_loop_busy {S} (run : Runner T H S) h rounds t s :
  _outstanding t ≠ ∅ →
  pump_loop run h rounds (t, s) =
    (Ret true, (with_broker (λ b, after_rounds b rounds) t, s)).
Proof.
  revert t. induction rounds as [|ops rounds IH]; intros t Ho.
  { by destruct t. }
  cbn [pump_loop]. unfold perform_all. run. unfold id. cbn.
  rewrite bool_decide_false by done. cbn [negb]. by rewrite IH.
Qed.

Lemma pump_loop_cases {S} (run : Runner T H S) h rounds t s :
  _outstanding t = ∅ →
  (pump_loop run h rounds (t, s) =
     (Ret true, (with_broker (λ b, after_rounds b rounds) t, s)) ∧
   ∀ k, (0 < k ≤ length rounds)%nat →
     queue_at (after_rounds (broker t) (take k rounds)) (_topic t) = []) ∨
  (∃ k m rest, (0 < k ≤ length rounds)%nat ∧
     let b := after_rounds (broker t) (take k rounds) in
     queue_at b (_topic t) = m :: rest ∧
     (∀ j, (0 < j < k)%nat →
        queue_at (after_rounds (broker t) (take j rounds)) (_topic t) = []) ∧
     pump_loop run h rounds (t, s) =
       deliver run h m
         (with_broker (λ _, with_topics (alter (with_messages (λ _, rest)) (_topic t)) b) t, s)).
Proof.
  revert t. induction rounds as [|ops rounds IH]; intros t Ho.
  { left. split; [by destruct t|]. cbn. intros. lia. }
  cbn [pump_loop]. unfold perform_all. run. unfold id. cbn. rewrite bool_decide_true by done.
  cbn [negb]. unfold on_broker. rewrite take_message_run. cbn.
  set (b1 := foldl (λ b op, perform op b) (broker t) ops).
  destruct (queue_at b1 (_topic t)) as [|m rest] eqn:Hq.
  - destruct (IH (with_broker (λ _, b1) t) Ho) as [[Heq Hall]|(k & m & rest & Hk & Hrest)].
    + left. split; [exact Heq|]. intros [|[|k]] Hk; [lia|exact Hq|].
      apply (Hall (Datatypes.S k)). cbn in Hk. lia.
    + right. exists (Datatypes.S k), m, rest. cbn. split; [lia|].
      destruct Hrest as (Hm & Hbefore & Heq). split_and!; [exact Hm| |exact Heq].
      intros [|[|j]] Hj; [lia|exact Hq|]. apply (Hbefore (Datatypes.S j)). lia.
  - right. exists 1%nat, m, rest. cbn. split; [lia|]. split_and!; [exact Hq| |done].
    intros. lia.
Qed.

(** Prefetch is one.  A pump of a subscribed transport either runs no handler
    at all -- then it changes nothing but what others did to the broker, and that
    is the only case while an earlier delivery is unresolved -- or it finds
    nothing outstanding, takes the message at the front of the queue in the first
    round where the queue is not empty, and delivers exactly that one. *)
Lemma pump_prefetch_one {S} (run : Runner T H S) h rounds t s :
  _connected t = true → _handler t = Some h →
  (pump run rounds (t, s) = (Ret true, (with_broker (λ b, after_rounds b rounds) t, s)) ∧
   (_outstanding t ≠ ∅ ∨ ∀ k, (0 < k ≤ length rounds)%nat →
      queue_at (after_rounds (broker t) (take k rounds)) (_topic t) = [])) ∨
  (_outstanding t = ∅ ∧ ∃ k m rest, (0 < k ≤ length rounds)%nat ∧
     let b := after_rounds (broker t) (take k rounds) in
     queue_at b (_topic t) = m :: rest ∧
     (∀ j, (0 < j < k)%nat →
        queue_at (after_rounds (broker t) (take j rounds)) (_topic t) = []) ∧
     pump run rounds (t, s) =
       deliver run h m
         (with_broker (λ _, with_topics (alter (with_messages (λ _, rest)) (_topic t)) b) t, s)).
Proof.
  intros Hc Hh. unfold pump. run. unfold id. rewrite Hc, Hh. cbn [negb].
  destruct (decide (_outstanding t = ∅)) as [Ho|Ho].
  - destruct (pump_loop_cases run h rounds t s Ho) as [[??]|?]; [left|right]; eauto.
  - left. split; [by apply pump_loop_busy|by left].
Qed.

(** The transport while the handler runs: the delivery is counted and held. *)
Definition holding (m : Held) (t : T) : T :=
  with_outstanding (λ _, {[sequence m := m]})
    (with_stats (bump_received (size_of (body m))) t).

(** Where the message of a resolved delivery ends up, and that no group is touched. *)
Definition disposed (topic : Topic) (d : Disposition) (m : Held) (b b' : Broker) : Prop :=
  groups b' = groups b ∧
  match d with
  | Ack | Deferred => b' = b
  | Requeue =>
      topics b' !! topic = Some (with_messages (cons (flag m))
        (default default_TopicState (topics b !! topic))) ∧
      (∀ u, u ≠ topic → topics b' !! u = topics b !! u)
  | Reject =>
      match topics b !! topic with
      | Some st =>
          if deadLetter (options st) then
            ∃ f n, topics b !! deadLetterTopic topic = Some f ∧
              topics b' = <[deadLetterTopic topic := stored f (mkHeld n (body m) false)]> (topics b)
          else b' = b
      | None => b' = b
      end
  end.

Lemma resolve_run d m (t : T) :
  (d = Reject → provisioned (broker t) (_topic t)) →
  ∃ b', disposed (_topic t) d m (broker t) b' ∧
    resolve d m t = (Ret tt, with_stats (bump_disposition d) (with_broker (λ _, b') t)).
Proof.
  intros Hp. unfold resolve. run. unfold on_broker. destruct d.
  - exists (broker t). split; [done|]. by destruct t.
  - destruct (topics (broker t) !! _topic t) as [st|] eqn:Ht.
    + destruct (deadLetter (options st)) eqn:Hd.
      * destruct (Hp eq_refl st Ht Hd) as (f & Hf & Hfd).
        eexists (dead_lettered (_topic t) f m (broker t)). split.
        { split; [done|]. rewrite Ht, Hd. exists f. by eexists. }
        unfold deadLetter_message. by rewrite (deadLetterLocked_provisioned _ _ _ st f).
      * exists (broker t). split; [unfold disposed; by rewrite Ht, Hd|].
        unfold deadLetter_message. rewrite (deadLetterLocked_off _ _ _ st) by done. by destruct t.
    + exists (broker t). split; [unfold disposed; by rewrite Ht|].
      unfold deadLetter_message, deadLetterLocked, deadLetterWith. run. rewrite Ht. by destruct t.
  - rewrite requeue_message_run. eexists. split; [|done].
    split; [cbn; by rewrite touched_groups|]. split.
    + rewrite update_lookup, decide_True by done. rewrite touched_lookup, decide_True by done.
      done.
    + intros u Hu. rewrite update_lookup, decide_False by done.
      by rewrite touched_lookup, decide_False.
  - exists (broker t). split; [done|]. by destruct t.
Qed.

(** The answer of [pump] to what became of its message. *)
Definition delivered_as {A} (o : outcome A) : outcome bool :=
  match o with Ret _ => Ret true | Throw e => Throw e | Undefined => Undefined end.

(** Any handler, whatever it does to the transport that calls it. *)
Lemma deliver_any {S} (run : Runner T H S) h m t s :
  _outstanding t = ∅ →
  deliver run h m (t, s) =
    let '(o, (t1, s1)) := run h (delivery_of m) (holding m t, s) in
    match o with
    | Ret d =>
        if decide (d = Deferred) then (Ret true, (t1, s1))
        else
          let '(o, t2) := resolve d m (with_outstanding (delete (sequence m)) t1) in
          (delivered_as o, (t2, s1))
    | Throw e => (Throw e, (with_stats bump_abandoned t1, s1))
    | Undefined => (Undefined, (t1, s1))
    end.
Proof.
  intros Ho. unfold deliver. run.
  assert (He : with_outstanding (emplace (sequence m) m)
    (with_stats (bump_received (size_of (body m))) t) = holding m t).
  { unfold holding, with_outstanding. cbn. rewrite Ho. done. }
  rewrite He. destruct (run h (delivery_of m) (holding m t, s)) as [o [t1 s1]]. cbn.
  destruct o as [d| |]; [|done..].
  destruct (decide (d = Deferred)) as [->|Hd]; [done|].
  rewrite bool_decide_false by done.
  by destruct (resolve d m _) as [[[]| |] t2].
Qed.

Lemma deliver_run {S} (run : Runner T H S) h m t s :
  quiet run → _outstanding t = ∅ →
  let r := run h (delivery_of m) (holding m t, s) in
  let t1 := with_broker (λ _, broker r.2.1) (holding m t) in
  deliver run h m (t, s) =
    match r.1 with
    | Ret Deferred => (Ret true, (t1, r.2.2))
    | Ret d =>
        let '(o, t2) := resolve d m (with_outstanding (λ _, ∅) t1) in
        (delivered_as o, (t2, r.2.2))
    | Throw e => (Throw e, (with_stats bump_abandoned t1, r.2.2))
    | Undefined => (Undefined, (t1, r.2.2))
    end.
Proof.
  intros Hq Ho. rewrite (deliver_any run h m t s Ho).
  destruct (Hq h (delivery_of m) (holding m t) s) as [b Hb].
  destruct (run h (delivery_of m) (holding m t, s)) as [o [t1 s1]]. cbn in Hb |- *. subst t1.
  destruct o as [d| |]; [|done..].
  assert (Hdel : with_outstanding (delete (sequence m)) (with_broker (λ _, b) (holding m t)) =
    with_outstanding (λ _, ∅) (with_broker (λ _, b) (holding m t))).
  { unfold holding, with_outstanding. cbn [with_broker with_stats _outstanding].
    by rewrite delete_singleton_eq. }
  rewrite Hdel. by destruct d.
Qed.

(** What a verdict does to the broker, and what it answers: into a provisioned topic
    it always succeeds; a rejection is what [deadLetter] makes of it, which refuses
    one whose forensic destination does not exist. *)
Definition carried_out (topic : Topic) (d : Disposition) (m : Held) (b : Broker)
    (o : outcome unit) (b' : Broker) : Prop :=
  (d = Reject → deadLetter_message topic m b = (o, b')) ∧
  ((d = Reject → provisioned b topic) → o = Ret tt ∧ disposed topic d m b b') ∧
  (∀ st, d = Reject → topics b !! topic = Some st → deadLetter (options st) = true →
    topics b !! deadLetterTopic topic = None →
    b' = b ∧ ∃ text, o = Throw (logic_error text)).

(** The counter moves only if it succeeded. *)
Definition after_verdict (d : Disposition) (o : outcome unit) (b' : Broker) (t : T) : T :=
  match o with
  | Ret _ => with_stats (bump_disposition d) (with_broker (λ _, b') t)
  | _ => with_broker (λ _, b') t
  end.

Lemma resolve_carried_out d m (t : T) :
  ∃ o b', carried_out (_topic t) d m (broker t) o b' ∧ resolve d m t = (o, after_verdict d o b' t).
Proof.
  destruct (decide (d = Reject)) as [->|Hd].
  - destruct (deadLetter_message (_topic t) m (broker t)) as [o b'] eqn:Hdl.
    exists o, b'. split; [split; [done|split]|].
    + intros Hp. destruct (resolve_run Reject m t Hp) as (b1 & Hdisp & Hres).
      revert Hres. unfold resolve. run. unfold on_broker. rewrite Hdl. destruct o as [[]|e|]; [|done..].
      cbn. intros [= Hb]. assert (b1 = b') as -> by done. done.
    + intros st _ Hst Hon Hf. revert Hdl. unfold deadLetter_message, deadLetterLocked, deadLetterWith.
      run. rewrite Hst, Hon. cbn [negb]. rewrite Hf. intros [= <- <-]. by eauto.
    + unfold resolve. run. unfold on_broker. rewrite Hdl. by destruct o as [[]|e|].
  - destruct (resolve_run d m t) as (b' & Hdisp & Hres); [done|].
    exists (Ret tt), b'. split; [split; [done|split; [done|]]|done]. intros st ?. done.
Qed.

Lemma settle_held tag d m (t : T) :
  _connected t = true → d ≠ Deferred → _outstanding t !! tag = Some m →
  settle tag d t = resolve d m (with_outstanding (delete tag) t).
Proof.
  intros Hc Hd Hm. unfold settle, require_connected. run. rewrite Hc, bool_decide_false by done.
  cbn. by rewrite Hm.
Qed.

(** A pump of one round that finds a message. *)
Lemma pump_takes {S} (run : Runner T H S) h m rest t s :
  _connected t = true → _handler t = Some h → _outstanding t = ∅ →
  queue_at (broker t) (_topic t) = m :: rest →
  let t1 := with_broker (λ _, with_topics (alter (with_messages (λ _, rest)) (_topic t)) (broker t)) t in
  pump run [[]] (t, s) = deliver run h m (t1, s) ∧ queue_at (broker t1) (_topic t) = rest.
Proof.
  intros Hc Hh Ho Hq t1. split.
  - unfold pump. run. unfold id. rewrite Hc, Hh. cbn [negb].
    destruct (pump_loop_cases run h [[]] t s Ho) as [[_ Hno]|(k & m' & rest' & Hk & Hq' & _ & ->)].
    + specialize (Hno 1%nat ltac:(cbn; lia)). cbn in Hno. by rewrite Hno in Hq.
    + assert (k = 1%nat) as -> by (cbn in Hk; lia). cbn in Hq'. rewrite Hq in Hq'.
      by injection Hq' as <- <-.
  - unfold queue_at in *. cbn. rewrite lookup_alter_eq. by destruct (topics (broker t) !! _topic t).
Qed.

Lemma disposed_back topic d m b b' :
  d = Ack ∨ d = Requeue → disposed topic d m b b' →
  queue_at b' topic = (if decide (d = Requeue) then [flag m] else []) ++ queue_at b topic.
Proof.
  intros [->| ->] [_ Hb]; [by rewrite Hb|]. destruct Hb as [Hb _]. unfold queue_at. rewrite Hb.
  by destruct (topics b !! topic).
Qed.

(** C9. What one delivery does, whatever the handler does and returns or throws.  A
    handler that returns [Ack], [Requeue] or [Reject] has its message's entry erased
    and the message resolved exactly so ([carried_out]): the counter of that action
    moves if the broker carried it out, which it always does but for a rejection
    into an unprovisioned topic; there, without the forensic destination, [pump]
    throws [std::logic_error] with no counter moved, nothing stored and the message
    released.  [Deferred] and an exception leave things as the handler left them, an
    exception propagating after being counted as an abandoned delivery. *)
Theorem delivery_outcome {S} (run : Runner T H S) h m t s :
  _outstanding t = ∅ →
  let '(r, (t1, s1)) := run h (delivery_of m) (holding m t, s) in
  match r with
  | Ret Deferred => deliver run h m (t, s) = (Ret true, (t1, s1))
  | Ret d => ∃ o b',
      carried_out (_topic t1) d m (broker t1) o b' ∧
      deliver run h m (t, s) = (delivered_as o,
        (after_verdict d o b' (with_outstanding (delete (sequence m)) t1), s1))
  | Throw e => deliver run h m (t, s) = (Throw e, (with_stats bump_abandoned t1, s1))
  | Undefined => (deliver run h m (t, s)).1 = Undefined
  end.
Proof.
  intros Ho. rewrite (deliver_any run h m t s Ho).
  destruct (run h (delivery_of m) (holding m t, s)) as [[d|e|] [t1 s1]]; [|done..].
  destruct (resolve_carried_out d m (with_outstanding (delete (sequence m)) t1)) as (o & b' & Hc & Hres).
  rewrite Hres. destruct d; [eauto..|done].
Qed.

(** C38. A handler that settles its own delivery.  [settle] takes any delivery that is
    held, and [pump] resolves its own copy of the message whether or not the
    delivery is still held: when a handler acknowledges or requeues the delivery it
    was called for and then returns [Ack] or [Requeue], both are carried out and
    both counted -- an acknowledged message that is requeued is back at the front of
    its queue, one that is requeued twice is there twice. *)
Theorem own_settlement_doubles {S} (run : Runner T H S) h m rest t s d1 d2 :
  _connected t = true → _handler t = Some h → _outstanding t = ∅ →
  queue_at (broker t) (_topic t) = m :: rest →
  d1 = Ack ∨ d1 = Requeue → d2 = Ack ∨ d2 = Requeue →
  (∀ x, run h (delivery_of m) x = (_ ← on_fst (settle (sequence m) d1); mret d2) x) →
  ∃ t', pump run [[]] (t, s) = (Ret true, (t', s)) ∧ _outstanding t' = ∅ ∧
    queue_at (broker t') (_topic t) =
      (if decide (d2 = Requeue) then [flag m] else []) ++
      (if decide (d1 = Requeue) then [flag m] else []) ++ rest ∧
    _stats t' = bump_disposition d2 (bump_disposition d1
      (bump_received (size_of (body m)) (_stats t))).
Proof.
  intros Hc Hh Ho Hq Hd1 Hd2 Hrun. destruct (pump_takes run h m rest t s Hc Hh Ho Hq) as [Hpump Hq1].
  set (t1 := with_broker _ t) in *. rewrite Hpump, (deliver_any run h m t1 s) by done. rewrite Hrun. run.
  rewrite (settle_held (sequence m) d1 m) by (done || naive_solver || apply lookup_singleton_eq).
  match goal with |- context [resolve d1 m ?x] => set (x1 := x) end.
  destruct (resolve_run d1 m x1) as (b1 & Hb1 & ->); [naive_solver|].
  cbn [fst snd]. destruct (decide (d2 = Deferred)) as [->|_]; [naive_solver|].
  match goal with |- context [resolve d2 m ?x] => set (x2 := x) end.
  destruct (resolve_run d2 m x2) as (b2 & Hb2 & ->); [naive_solver|].
  eexists. split; [done|]. split; [cbn; by rewrite delete_singleton_eq, delete_empty|].
  split; [|done]. cbn [with_stats with_broker broker].
  rewrite (disposed_back (_topic t) d2 m b1 b2 Hd2 Hb2).
  rewrite (disposed_back (_topic t) d1 m (broker t1) b1 Hd1 Hb1).
  by rewrite Hq1.
Qed.

(** C26. Settling a delivery the transport holds -- deferred, abandoned by its handler,
    or still with it.  Before [connect] and for an unknown tag [settle] throws
    [std::logic_error], for [Deferred] [std::invalid_argument], changing nothing.
    Otherwise the delivery is released and resolved as asked ([carried_out]): the
    counter of that action moves if the broker carried it out, which it always does
    but for a rejection into an unprovisioned topic, where without the forensic
    destination it throws [std::logic_error] and the message is gone.  Either way a
    second settlement of the same tag is refused. *)
Theorem settle_contract (t : T) tag d :
  match _outstanding t !! tag with
  | Some m =>
      if _connected t then
        if decide (d = Deferred) then
          ∃ text, settle tag d t = (Throw (invalid_argument text), t)
        else ∃ o b', carried_out (_topic t) d m (broker t) o b' ∧
          let t' := after_verdict d o b' (with_outstanding (delete tag) t) in
          settle tag d t = (o, t') ∧ ∀ d2, ∃ e, settle tag d2 t' = (Throw e, t')
      else ∃ text, settle tag d t = (Throw (logic_error text), t)
  | None => ∃ e, settle tag d t = (Throw e, t) ∧ ∃ text, e = logic_error text ∨
      (_connected t = true ∧ d = Deferred ∧ e = invalid_argument text)
  end.
Proof.
  assert (Hnone : ∀ (t : T) d, _outstanding t !! tag = None →
    ∃ e, settle tag d t = (Throw e, t) ∧ ∃ text, e = logic_error text ∨
      (_connected t = true ∧ d = Deferred ∧ e = invalid_argument text)).
  { intros t0 d0 Hn. unfold settle, require_connected. run.
    destruct (_connected t0) eqn:Hc; cbn [negb]; [|by eexists; split; [done|]; eexists; left].
    case_bool_decide; cbn; [by eexists; split; [done|]; eexists; right|].
    rewrite Hn. by eexists; split; [done|]; eexists; left. }
  destruct (_outstanding t !! tag) as [m|] eqn:Hm; [|by apply Hnone].
  destruct (_connected t) eqn:Hc.
  2:{ eexists. unfold settle, require_connected. run. by rewrite Hc. }
  case_decide as Hd.
  { eexists. unfold settle, require_connected. run. rewrite Hc. subst d. done. }
  rewrite (settle_held tag d m) by done.
  destruct (resolve_carried_out d m (with_outstanding (delete tag) t)) as (o & b' & Hdisp & ->).
  exists o, b'. split; [exact Hdisp|]. split; [done|]. intros d2.
  destruct (Hnone (after_verdict d o b' (with_outstanding (delete tag) t)) d2) as (e & He & _);
    [|by exists e]. by destruct o; apply lookup_delete_eq.
Qed.

(** C3. A worker that dies gives its work back.  When the handler, which leaves the
    transport itself alone ([quiet]; other users of the broker it does not have to),
    throws, [pump] propagates that very exception; whatever the other users of the broker do
    before the transport is closed, the next message anyone takes from the topic
    after the close is the abandoned one, flagged redelivered, with the rest of
    the queue intact behind it. *)
Theorem crash_returns_work {S} (run : Runner T H S) h m rest t s e ops timeout :
  quiet run → _connected t = true → _handler t = Some h → _outstanding t = ∅ →
  queue_at (broker t) (_topic t) = m :: rest →
  (∀ u, (run h (delivery_of m) u).1 = Throw e) →
  let r := pump run [[]] (t, s) in
  let b := foldl (λ b op, perform op b) (broker r.2.1) ops in
  let t2 := (close timeout (with_broker (λ _, b) r.2.1)).2 in
  r.1 = Throw e ∧
  ∃ b', take_message (_topic t) (broker t2) = (Ret (Some (flag m)), b') ∧
    queue_at b' (_topic t) = queue_at b (_topic t).
Proof.
  intros Hq Hc Hh Ho Hqueue Hthrow r.
  destruct (pump_takes run h m rest t s Hc Hh Ho Hqueue) as [Hpump _]. set (t1 := with_broker _ t) in Hpump.
  assert (Hr : ∃ b1 s1, r = (Throw e, (with_stats bump_abandoned
      (with_broker (λ _, b1) (holding m t1)), s1))).
  { unfold r. rewrite Hpump, (deliver_run run h m t1 s Hq) by done. rewrite Hthrow. by do 2 eexists. }
  destruct Hr as (b1 & s1 & ->). intros b t2. split; [done|].
  set (t' := with_broker (λ _, b) _) in t2.
  assert (Hu : unresolved t' = [m]) by by apply unresolved_one.
  assert (Hb2 : topics (broker t2) !! _topic t =
    Some (with_messages (cons (flag m)) (default default_TopicState (topics b !! _topic t)))).
  { unfold t2, close. run. rewrite returnOutstanding_run, Hu. cbn.
    destruct (requeue_fold (_topic t) [m] b) as [Hf _]; [done|]. exact Hf. }
  rewrite take_message_run. unfold queue_at at 1. rewrite Hb2. cbn [with_messages messages].
  eexists. split; [done|]. unfold queue_at.
  rewrite update_lookup, decide_True, Hb2 by done. cbn.
  by destruct (topics b !! _topic t).
Qed.

(** What one transport and the rest of the system may do next. *)
Inductive step {S} (run : Runner T H S) : T * S → T * S → Prop :=
  | step_others ops t s : step run (t, s) (with_broker (λ _, foldl (λ b op, perform op b) (broker t) ops) t, s)
  | step_connect endpoint timeout t s : step run (t, s) ((connect endpoint timeout t).2, s)
  | step_close timeout t s : step run (t, s) ((close timeout t).2, s)
  | step_ensureTopic topic options timeout t s :
      step run (t, s) ((ensureTopic topic options timeout t).2, s)
  | step_purgeTopic topic timeout t s : step run (t, s) ((purgeTopic topic timeout t).2, s)
  | step_send topic payload options t s : step run (t, s) ((send topic payload options t).2, s)
  | step_subscribe topic handler timeout t s :
      step run (t, s) ((subscribe topic handler timeout t).2, s)
  | step_settle tag d t s : step run (t, s) ((settle tag d t).2, s)
  | step_pump rounds t s : step run (t, s) (pump run rounds (t, s)).2.

(** The books of one transport. *)
Definition resolved (st : Stats) : Z :=
  acksPerformed st + rejectsPerformed st + requeuesPerformed st.

Definition accounted (t : T) : Prop :=
  (size (_outstanding t) ≤ 1)%nat ∧
  (∀ k m, _outstanding t !! k = Some m → k = sequence m) ∧
  0 ≤ acksPerformed (_stats t) ∧ 0 ≤ rejectsPerformed (_stats t) ∧
  0 ≤ requeuesPerformed (_stats t) ∧ 0 ≤ received (_stats t) ∧
  resolved (_stats t) + Z.of_nat (size (_outstanding t)) ≤ received (_stats t).

Lemma accounted_same (t t' : T) :
  _outstanding t' = _outstanding t →
  (∀ f, f ∈ [acksPerformed; rejectsPerformed; requeuesPerformed; received] →
     f (_stats t') = f (_stats t)) →
  accounted t → accounted t'.
Proof.
  intros Ho Hs. unfold accounted, resolved. rewrite Ho.
  rewrite !Hs by set_solver. done.
Qed.

Lemma accounted_release (t : T) tag m d b :
  accounted t → received (_stats t) < 2 ^ 64 → _outstanding t !! tag = Some m →
  accounted (with_stats (bump_disposition d)
    (with_broker (λ _, b) (with_outstanding (delete tag) t))).
Proof.
  intros (Hsize & Hkey & Ha & Hj & Hq & Hr & Hsum) Hlt Hm. unfold accounted, resolved in *.
  cbn [_outstanding _stats with_stats with_broker with_outstanding].
  assert (Hdel : size (_outstanding t) = S (size (delete tag (_outstanding t)))).
  { rewrite map_size_delete_Some by done.
    assert (size (_outstanding t) ≠ 0%nat); [|lia].
    rewrite map_size_ne_0_lookup. eauto. }
  split; [lia|]. split; [intros k m' [_ ?]%lookup_delete_Some; by apply Hkey|].
  destruct d; cbn; rewrite ?incr64_small by lia; lia.
Qed.

Lemma accounted_drop (t : T) tag b :
  accounted t → accounted (with_broker (λ _, b) (with_outstanding (delete tag) t)).
Proof.
  intros (Hsize & Hkey & Hrest). unfold accounted, resolved in *.
  cbn [_outstanding _stats with_broker with_outstanding].
  assert ((size (delete tag (_outstanding t)) ≤ size (_outstanding t))%nat).
  { destruct (_outstanding t !! tag) eqn:E.
    - rewrite map_size_delete_Some by done. lia.
    - by rewrite delete_id. }
  split; [lia|]. split; [intros k m' [_ ?]%lookup_delete_Some; by apply Hkey|]. lia.
Qed.

Lemma resolve_cases d m (t : T) o t' :
  resolve d m t = (o, t') → ∃ b,
    (o = Ret tt ∧ t' = with_stats (bump_disposition d) (with_broker (λ _, b) t)) ∨
    (o ≠ Ret tt ∧ t' = with_broker (λ _, b) t).
Proof.
  unfold resolve. run. unfold on_broker. destruct d.
  - intros [= <- <-]. exists (broker t). left. split; [done|]. by destruct t.
  - destruct (deadLetter_message (_topic t) m (broker t)) as [[[]| |] b];
      intros [= <- <-]; exists b; [by left|by right..].
  - rewrite requeue_message_run. intros [= <- <-]. eexists. left. by split.
  - intros [= <- <-]. exists (broker t). left. split; [done|]. by destruct t.
Qed.

Lemma accounted_holding m (t : T) :
  accounted t → received (_stats t) + 1 < 2 ^ 64 → _outstanding t = ∅ → accounted (holding m t).
Proof.
  intros (Hsize & Hkey & Ha & Hj & Hq & Hr & Hsum) Hlt Ho.
  unfold accounted, resolved in *. rewrite Ho, map_size_empty in Hsum.
  cbn [_outstanding _stats holding with_stats with_outstanding].
  rewrite map_size_singleton. cbn [acksPerformed rejectsPerformed requeuesPerformed received
    bump_received]. rewrite incr64_small by lia.
  split; [lia|]. split; [|lia].
  by intros k m' [<- <-]%lookup_singleton_Some.
Qed.

Lemma accounted_deliver {S} (run : Runner T H S) h m t s :
  quiet run → accounted t → received (_stats t) + 1 < 2 ^ 64 → _outstanding t = ∅ →
  accounted (deliver run h m (t, s)).2.1.
Proof.
  intros Hq Hacc Hlt Ho. rewrite deliver_run by done.
  set (r := run h _ _). set (t1 := with_broker _ (holding m t)).
  assert (H1 : accounted t1) by by apply (accounted_same (holding m t)), accounted_holding.
  assert (Hr1 : received (_stats t1) < 2 ^ 64).
  { destruct Hacc as (_ & _ & _ & _ & _ & ? & _). cbn. rewrite incr64_small; lia. }
  destruct r.1 as [d|e|]; [|by apply (accounted_same t1); set_solver|done].
  assert (Hrel : accounted (let '(o, t2) := resolve d m (with_outstanding (λ _, ∅) t1) in t2)).
  { assert (Hdel : with_outstanding (λ _, ∅) t1 = with_outstanding (delete (sequence m)) t1).
    { unfold t1, holding, with_outstanding, with_broker. cbn. by rewrite delete_singleton_eq. }
    destruct (resolve d m _) as [o t2] eqn:Hres. rewrite Hdel in Hres.
    apply resolve_cases in Hres as (b & [[_ ->]|[_ ->]]).
    - apply accounted_release with m; [done|done|]. apply lookup_singleton_eq.
    - by apply accounted_drop. }
  destruct d; [| | |done];
    by destruct (resolve _ m (with_outstanding (λ _, ∅) t1)) as [o t2].
Qed.

Lemma accounted_on_broker {A} (m : M Broker A) (t : T) :
  accounted t → accounted (on_broker m t).2.
Proof.
  unfold on_broker. destruct (m (broker t)) as [o b]. by apply accounted_same.
Qed.

Lemma accounted_preserves {A} (m : M Broker A) : preserves accounted (on_broker m).
Proof. intros t. apply accounted_on_broker. Qed.

Lemma accounted_require operation : preserves accounted (require_connected operation).
Proof. unfold require_connected. auto with motus. Qed.

Lemma accounted_settle tag d (t : T) :
  accounted t → received (_stats t) < 2 ^ 64 → accounted (settle tag d t).2.
Proof.
  intros Hacc Hlt. unfold settle, require_connected. run.
  destruct (negb (_connected t)); [done|]. destruct (bool_decide _); [done|].
  destruct (_outstanding t !! tag) as [m|] eqn:Hm; [|done].
  destruct (resolve d m _) as [o t'] eqn:Hres.
  apply resolve_cases in Hres as (b & [[_ ->]|[_ ->]]).
  - by apply accounted_release with m.
  - by apply accounted_drop.
Qed.

Lemma accounted_pump {S} (run : Runner T H S) rounds t s :
  quiet run → accounted t → received (_stats t) + 1 < 2 ^ 64 →
  accounted (pump run rounds (t, s)).2.1.
Proof.
  intros Hq Hacc Hlt. unfold pump. run. unfold id.
  destruct (negb (_connected t)); [done|]. destruct (_handler t) as [h|]; [|done].
  destruct (decide (_outstanding t = ∅)) as [Ho|Ho].
  - destruct (pump_loop_cases run h rounds t s Ho) as [[-> _]|(k & m & rest & _ & _ & _ & ->)].
    + by apply (accounted_same t).
    + by apply accounted_deliver.
  - rewrite pump_loop_busy by done. by apply (accounted_same t).
Qed.

(** The books balance, for any sequence of calls on a transport whose
    handlers leave it alone: at most one delivery is outstanding at any time, it
    is filed under its own tag, and every delivery received is resolved at most
    once -- actions performed plus deliveries still held never exceed deliveries
    received. *)
Theorem books_balance {S} (run : Runner T H S) t s t' s' :
  quiet run → step run (t, s) (t', s') → accounted t → received (_stats t) + 1 < 2 ^ 64 →
  accounted t'.
Proof.
  intros Hq Hstep Hacc Hlt. inversion Hstep; subst.
  - by apply (accounted_same t).
  - by apply (accounted_same t).
  - unfold close. run. rewrite returnOutstanding_run. cbn.
    destruct Hacc as (_ & _ & ? & ? & ? & ? & ?).
    unfold accounted, resolved in *. cbn. rewrite map_size_empty. split_and!; [lia| |lia..].
    by intros k m; rewrite lookup_empty.
  - revert Hacc. apply preserves_bind; [apply accounted_require|]. intros [].
    apply preserves_bind; [|intros []; apply accounted_preserves].
    destruct (deadLetter options); [apply accounted_preserves|apply preserves_ret].
  - revert Hacc. apply preserves_bind; [apply accounted_require|]. intros [].
    apply accounted_preserves.
  - revert Hacc. apply preserves_bind; [apply accounted_require|]. intros [].
    apply preserves_bind; [apply preserves_throw_if|]. intros [].
    apply preserves_bind; [apply accounted_preserves|]. intros r.
    apply preserves_bind; [|intros []; apply preserves_ret].
    apply preserves_modify. intros t0. apply accounted_same; [done|]. set_solver.
  - revert Hacc. apply preserves_bind; [apply accounted_require|]. intros [].
    apply preserves_bind; [apply preserves_throw_if|]. intros [].
    apply preserves_bind; [apply preserves_gets|]. intros t0.
    apply preserves_bind; [apply preserves_throw_if|]. intros [].
    apply preserves_modify. intros t1. by apply accounted_same.
  - apply accounted_settle; [done|lia].
  - pose proof (accounted_pump run rounds t s Hq Hacc Hlt) as Hp.
    by match goal with Heq : (t', s') = _ |- _ => rewrite <- Heq in Hp
                     | Heq : _ = (t', s') |- _ => rewrite Heq in Hp end.
Qed.

(** ** Declaring and sending *)

Lemma ensureTopic_existing topic opts b b' :
  Broker.ensureTopic topic opts b = (Ret tt, b') →
  ∃ st, topics b' !! topic = Some st ∧ same_properties (options st) opts.
Proof.
  intros He. pose proof (ensureTopic_spec topic opts b) as H1. rewrite He in H1.
  destruct H1 as (_ & _ & _ & Htop). destruct (topics b !! topic) as [st|] eqn:Ht.
  - destruct Htop as [? ->]. eauto.
  - rewrite Htop, lookup_insert_eq. by eexists.
Qed.

Lemma ensureTopic_keeps topic opts b u st :
  topics b !! u = Some st → topics (Broker.ensureTopic topic opts b).2 !! u = Some st.
Proof.
  intros Hu. pose proof (ensureTopic_spec topic opts b) as H1.
  destruct (Broker.ensureTopic topic opts b) as [[[]| |] b']; cbn [snd]; [| |done].
  - destruct H1 as (_ & _ & _ & Htop). destruct (topics b !! topic) as [st'|] eqn:Ht.
    + by destruct Htop as [_ ->].
    + rewrite Htop, lookup_insert_ne by congruence. done.
  - destruct H1 as (_ & -> & _). done.
Qed.

(** Declaring a topic through a transport provisions it: after a successful
    [ensureTopic] the topic exists with the requested properties and, when
    dead-lettering was requested, so does its forensic destination, itself bounded
    at 2000, refusing further evidence at that bound and not dead-lettering again;
    rejected messages therefore always have somewhere to go. *)
Theorem ensureTopic_provisions topic options timeout (t t' : T) :
  ensureTopic topic options timeout t = (Ret tt, t') →
  provisioned (broker t') topic ∧
  (∃ st, topics (broker t') !! topic = Some st ∧ same_properties (Broker.options st) options) ∧
  (deadLetter options = true → ∃ f, topics (broker t') !! deadLetterTopic topic = Some f ∧
     maxLength (Broker.options f) = kForensicMaxLength ∧
     overflow (Broker.options f) = RejectPublish ∧ deadLetter (Broker.options f) = false).
Proof.
  unfold ensureTopic, require_connected. run. destruct (negb (_connected t)); [done|].
  intros Hrun.
  assert (∃ b0 b', Broker.ensureTopic topic options b0 = (Ret tt, b') ∧ broker t' = b' ∧
    (deadLetter options = true → ∃ f, topics b0 !! deadLetterTopic topic = Some f ∧
       same_properties (Broker.options f) (forensicTopicOptions topic)))
    as (b0 & b' & Hens & Hb & Hforensic).
  { revert Hrun. unfold on_broker. destruct (deadLetter options) eqn:Hd.
    - destruct (Broker.ensureTopic (deadLetterTopic topic) _ _) as [[[]| |] b0] eqn:H1;
        try done.
      cbn. destruct (Broker.ensureTopic topic options b0) as [o b'] eqn:H2.
      intros [= -> <-]. exists b0, b'. split_and!; [done|done|]. intros _.
      by apply ensureTopic_existing in H1.
    - destruct (Broker.ensureTopic topic options (broker t)) as [o b'] eqn:H2.
      intros [= -> <-]. by exists (broker t), b'. }
  rewrite Hb. pose proof (ensureTopic_existing _ _ _ _ Hens) as (st & Hst & Hsame).
  assert (Hf : deadLetter options = true → ∃ f, topics b' !! deadLetterTopic topic = Some f ∧
    same_properties (Broker.options f) (forensicTopicOptions topic)).
  { intros Hd. destruct (Hforensic Hd) as (f & Hf & Hfs). exists f. split; [|done].
    pose proof (ensureTopic_keeps topic options b0 _ _ Hf) as Hk. by rewrite Hens in Hk. }
  split_and!.
  - intros st' Hst' Hd. rewrite Hst in Hst'. injection Hst' as <-.
    destruct Hf as (f & Hf & Hfs).
    + destruct Hsame as (_ & _ & _ & <- & _). done.
    + exists f. split; [done|]. by destruct Hfs as (_ & _ & _ & -> & _).
  - eauto.
  - intros Hd. destruct (Hf Hd) as (f & Hlook & _ & _ & _ & H1 & H2 & H3). eauto 6.
Qed.

(** Sending: refused with [std::logic_error] and no effect before [connect]
    and for a durable message, which memory cannot honour; otherwise the answer is
    the broker's own, and [sent] and [bytesSent] count the frame whether the broker
    accepted or refused it. *)
Theorem send_contract topic payload options (t : T) :
  if _connected t && negb (send_durable options) then
    let '(o, b) := publish topic payload (send_route options) (broker t) in
    ∃ t', send topic payload options t = (o, t') ∧ broker t' = b ∧
      _outstanding t' = _outstanding t ∧
      _stats t' = match o with Ret _ => bump_sent (size_of payload) (_stats t) | _ => _stats t end
  else ∃ text, send topic payload options t = (Throw (logic_error text), t).
Proof.
  unfold send, require_connected. run. destruct (_connected t); cbn [negb andb].
  2:{ by eexists. }
  destruct (send_durable options); cbn [negb]; [by eexists|].
  unfold on_broker. cbn.
  destruct (publish topic payload (send_route options) (broker t)) as [[r|e|] b];
    eexists; split_and!; done.
Qed.

(** Where the forensic destination is missing -- a topic [send] created by
    publishing before anyone declared it -- rejecting loses the message: [settle]
    throws [std::logic_error] after releasing the delivery, so it is on no queue,
    not outstanding, and in no counter. *)
Lemma reject_unprovisioned_drops (t : T) tag m st :
  _connected t = true → _outstanding t !! tag = Some m →
  topics (broker t) !! _topic t = Some st → deadLetter (Broker.options st) = true →
  topics (broker t) !! deadLetterTopic (_topic t) = None →
  ∃ text, settle tag Reject t =
    (Throw (logic_error text), with_outstanding (delete tag) t).
Proof.
  intros Hc Hm Hst Hd Hf. unfold settle, require_connected. run.
  rewrite Hc, bool_decide_false by done. cbv beta iota zeta delta [negb]. rewrite Hm.
  unfold resolve. run. unfold on_broker, deadLetter_message, deadLetterLocked, deadLetterWith.
  run. cbn [with_outstanding broker _topic]. rewrite Hst, Hd. cbn [negb]. rewrite Hf.
  by eexists.
Qed.

End properties.


(** ** The properties on a small system

    One transport subscribed to a declared topic that holds one message; the
    handler values are the answers to give, [None] a handler that throws. *)
Definition demo_run : Runner (InMemoryTransport (option Disposition)) (option Disposition) nat :=
  λ h d '(t, n),
    match h with
    | Some answer => (Ret answer, (t, S n))
    | None => (Throw (runtime_error "worker died"), (t, S n))
    end.

Lemma demo_quiet : quiet demo_run.
Proof. intros [d|] ? t s; exists (broker t); by destruct t. Qed.

Definition demo (h : option Disposition) : InMemoryTransport (option Disposition) :=
  let t1 := (connect default_Endpoint 0 (new_InMemoryTransport empty_Broker)).2 in
  let t2 := (ensureTopic "t" default_TopicOptions 0 t1).2 in
  let t3 := (send "t" "x" (mkSendOptions false false "") t2).2 in
  (subscribe "t" (Some h) 0 t3).2.

(** The same, after the handler deferred the delivery. *)
Definition demo_deferred : InMemoryTransport (option Disposition) :=
  (pump demo_run [[]] (demo (Some Deferred), 0%nat)).2.1.

Lemma pump_prefetch_one_witness :
  (∃ b, pump demo_run [[]; []] (demo_deferred, 0%nat) =
     (Ret true, (with_broker (λ _, b) demo_deferred, 0%nat))) ∧
  (pump demo_run [[]] (demo (Some Ack), 0%nat)).2.2 = 1%nat.
Proof.
  split; [|vm_compute; reflexivity].
  destruct (pump_prefetch_one demo_run (Some Deferred) [[]; []] demo_deferred 0%nat)
    as [[H _]|[H _]]; [vm_compute; reflexivity..| |].
  - exists (after_rounds (broker demo_deferred) [[]; []]). exact H.
  - vm_compute in H. discriminate H.
Defined.

Lemma delivery_outcome_witness :
  ∃ t', deliver demo_run (Some Reject) (mkHeld 1 "x" false) (demo (Some Reject), 0%nat) =
    (Ret true, (t', 1%nat)) ∧ rejectsPerformed (_stats t') = 1.
Proof.
  pose proof (delivery_outcome demo_run (Some Reject) (mkHeld 1 "x" false) (demo (Some Reject)) 0%nat
    ltac:(vm_compute; reflexivity)) as H.
  set (x := holding (mkHeld 1 "x" false) (demo (Some Reject))) in H.
  change (demo_run (Some Reject) (delivery_of (mkHeld 1 "x" false)) (x, 0%nat)) with
    (Ret Reject : outcome Disposition, (x, 1%nat)) in H.
  destruct H as (o & b' & (_ & Hp & _) & Heq).
  destruct Hp as [-> _].
  { intros _ st Hst Hd. eexists. split; vm_compute; reflexivity. }
  eexists. split; [exact Heq|]. vm_compute. reflexivity.
Defined.

Lemma settle_contract_witness :
  ∃ t', settle 1 Ack demo_deferred = (Ret tt, t') ∧
    acksPerformed (_stats t') = 1 ∧ _outstanding t' = ∅.
Proof.
  pose proof (settle_contract demo_deferred 1 Ack) as H.
  assert (Hm : _outstanding demo_deferred !! 1 = Some (mkHeld 1 "x" false)) by (vm_compute; reflexivity).
  assert (Hc : _connected demo_deferred = true) by (vm_compute; reflexivity).
  rewrite Hm, Hc, decide_False in H by discriminate.
  destruct H as (o & b' & (_ & Hp & _) & Hs & _). destruct Hp as [-> _]; [discriminate|].
  eexists. split; [exact Hs|]. split; vm_compute; reflexivity.
Defined.

(** A handler that acknowledges its delivery and then asks for it again. *)
Definition hasty : Runner (InMemoryTransport (option Disposition)) (option Disposition) nat :=
  λ h d, _ ← on_fst (settle 1 Ack); mret Requeue.

Lemma own_settlement_doubles_witness :
  ∃ t', pump hasty [[]] (demo None, 0%nat) = (Ret true, (t', 0%nat)) ∧
    queue_at (broker t') "t" = [mkHeld 1 "x" true] ∧
    acksPerformed (_stats t') = 1 ∧ requeuesPerformed (_stats t') = 1.
Proof.
  destruct (own_settlement_doubles hasty None (mkHeld 1 "x" false) [] (demo None) 0%nat Ack Requeue)
    as (t' & Hp & _ & Hq & Hs).
  - reflexivity.
  - vm_compute. reflexivity.
  - vm_compute. reflexivity.
  - vm_compute. reflexivity.
  - left. reflexivity.
  - right. reflexivity.
  - intros x. reflexivity.
  - exists t'. split; [exact Hp|]. split; [exact Hq|]. rewrite Hs. split; vm_compute; reflexivity.
Defined.

Lemma crash_returns_work_witness :
  let r := pump demo_run [[]] (demo None, 0%nat) in
  r.1 = Throw (runtime_error "worker died") ∧
  (take_message "t" (broker (close 0 (with_broker (λ b, (publish "t" "later" "" b).2) r.2.1)).2)).1 =
    Ret (Some (mkHeld 1 "x" true)).
Proof.
  destruct (crash_returns_work demo_run None (mkHeld 1 "x" false) [] (demo None) 0%nat
    (runtime_error "worker died") [OpPublish "t" "later" ""] 0) as [H1 (b' & H2 & _)].
  - exact demo_quiet.
  - vm_compute; reflexivity.
  - vm_compute; reflexivity.
  - vm_compute; reflexivity.
  - vm_compute; reflexivity.
  - intros [t n]. reflexivity.
  - split; [exact H1|]. exact (f_equal fst H2).
Defined.

Lemma books_balance_witness :
  accounted (settle 1 Reject demo_deferred).2.
Proof.
  apply (books_balance demo_run demo_deferred 0%nat _ 0%nat).
  - exact demo_quiet.
  - apply step_settle.
  - unfold accounted, resolved. vm_compute. split_and!; try done; try lia.
    intros k m Hk. destruct k as [|p|p]; [discriminate| |discriminate].
    destruct p; vm_compute in Hk; try destruct p; try discriminate. by injection Hk as <-.
  - vm_compute. reflexivity.
Defined.

Lemma ensureTopic_provisions_witness :
  let t1 := (connect default_Endpoint 0 (new_InMemoryTransport (H:=unit) empty_Broker)).2 in
  provisioned (broker (ensureTopic "t" default_TopicOptions 0 t1).2) "t".
Proof.
  intros t1.
  apply (ensureTopic_provisions "t" default_TopicOptions 0 t1). vm_compute. reflexivity.
Defined.

(** A topic that came into being because somebody published to it first. *)
Definition demo_undeclared : InMemoryTransport (option Disposition) :=
  let t1 := (connect default_Endpoint 0 (new_InMemoryTransport empty_Broker)).2 in
  let t3 := (send "t" "x" (mkSendOptions false false "") t1).2 in
  let t4 := (subscribe "t" (Some (Some Deferred)) 0 t3).2 in
  (pump demo_run [[]] (t4, 0%nat)).2.1.

Lemma reject_unprovisioned_drops_witness :
  ∃ text, settle 1 Reject demo_undeclared =
    (Throw (logic_error text), with_outstanding (delete 1) demo_undeclared).
Proof.
  apply (reject_unprovisioned_drops demo_undeclared 1 (mkHeld 1 "x" false)
    (mkTopicState [] default_TopicOptions ""));
    vm_compute; reflexivity.
Defined.
End InMemory.
