(* ===== verification/Custody.v ===== *)
(** The numbers of the broker's messages.

    The broker numbers each copy it stores ([Held::sequence] of
    [src/transport/InMemoryTransport.cpp]), so a number names one copy for the life
    of the process.  Storing, evicting and dead-lettering keep every number in at
    most one queue, never bring an old one back, and take none out of a destination
    that is not a bounded drop-head one ([moved]).  [Cluster] builds on this. *)

From S2P Require Import Prelude ITransport Broker InMemoryTransport.
#[local] Open Scope Z_scope.

(** ** Queues as lists of numbers *)

Definition state_of (b : Broker) (t : Topic) : TopicState :=
  default default_TopicState (topics b !! t).
Definition at_topic (b : Broker) (t : Topic) : list Z := sequence <$> messages (state_of b t).

(** Each number is in one queue, once, and was issued. *)
Record tracked (b : Broker) : Prop := mkTracked {
  tracked_last : 0 ≤ last_sequence b;
  tracked_issued n t : n ∈ at_topic b t → 0 < n ≤ last_sequence b;
  tracked_unique t : NoDup (at_topic b t);
  tracked_disjoint n t u : n ∈ at_topic b t → n ∈ at_topic b u → t = u;
}.

(** Issued and in no queue. *)
Definition unqueued (b : Broker) (n : Z) : Prop :=
  0 < n ≤ last_sequence b ∧ ∀ t, n ∉ at_topic b t.

(** Only a bounded drop-head destination gives up a message it has stored. *)
Definition lossless (b : Broker) (t : Topic) : Prop :=
  let o := options (state_of b t) in ¬ (maxLength o > 0 ∧ overflow o = DropHead).

(** What an operation does to the numbers: it draws at most [k] new ones and puts no
    old number into a queue except as [new] says. *)
Record moved (new : Z → Topic → Prop) (k : Z) (b b' : Broker) : Prop := mkMoved {
  moved_tracked : tracked b';
  moved_last : last_sequence b ≤ last_sequence b' ≤ last_sequence b + k;
  moved_old n u : n ≤ last_sequence b → n ∈ at_topic b' u → n ∈ at_topic b u ∨ new n u;
}.

Definition nothing (n : Z) (t : Topic) : Prop := False.
Definition only (n : Z) (t : Topic) (n' : Z) (t' : Topic) : Prop := n' = n ∧ t' = t.

Lemma moved_refl b k : tracked b → 0 ≤ k → moved nothing k b b.
Proof. intros. split; [done|lia|by left]. Qed.

Lemma moved_weaken new new' k k' b b' :
  moved new k b b' → (∀ n u, n ≤ last_sequence b → new n u → new' n u) → k ≤ k' →
  moved new' k' b b'.
Proof.
  intros [Ht Hl Ho] Hnew Hle. split; [done|lia|].
  intros n u Hn Hin. destruct (Ho n u Hn Hin); [by left|right; auto].
Qed.

Lemma moved_trans new k1 k2 b b1 b2 :
  moved new k1 b b1 → moved new k2 b1 b2 → moved new (k1 + k2) b b2.
Proof.
  intros [Ht1 Hl1 Ho1] [Ht2 Hl2 Ho2]. split; [done|lia|].
  intros n u Hn Hin. destruct (Ho2 n u ltac:(lia) Hin) as [Hin1|]; [|by right]. by apply Ho1.
Qed.

Lemma moved_unqueued new k b b' n :
  moved new k b b' → unqueued b n → (∀ u, ¬ new n u) → unqueued b' n.
Proof.
  intros [Ht Hl Ho] [Hn Hout] Hnew. split; [lia|]. intros u Hin.
  destruct (Ho n u ltac:(lia) Hin) as [?|?]; [by eapply Hout|by eapply Hnew].
Qed.

Lemma state_of_update t f b u :
  state_of (with_topics (alter (with_messages f) t) b) u =
    if decide (t = u ∧ is_Some (topics b !! u)) then with_messages f (state_of b u)
    else state_of b u.
Proof.
  unfold state_of. rewrite update_lookup. destruct (decide (t = u)) as [->|Hne].
  - destruct (topics b !! u) eqn:Hu; [by rewrite decide_True by eauto|].
    rewrite decide_False; [done|]. by intros [_ [? ?]].
  - rewrite decide_False; [done|]. by intros [? _].
Qed.

(** Changing the queue of one destination to a part of itself. *)
Lemma tracked_shrink t f b :
  tracked b → (∀ q, sublist (f q) q) → tracked (with_topics (alter (with_messages f) t) b).
Proof.
  intros [Hl Hi Hu Hd] Hf.
  assert (Hsub : ∀ u, sublist (at_topic (with_topics (alter (with_messages f) t) b) u)
    (at_topic b u)).
  { intros u. unfold at_topic. rewrite state_of_update. case_decide; [|done].
    cbn. by apply fmap_sublist. }
  assert (Hin : ∀ n u, n ∈ at_topic (with_topics (alter (with_messages f) t) b) u →
    n ∈ at_topic b u).
  { intros n u Hn. eapply elem_of_submseteq; [exact Hn|]. apply sublist_submseteq, Hsub. }
  split; [done|eauto| |eauto]. intros u. by eapply sublist_NoDup.
Qed.

(** Evicting. *)
Lemma moved_evict t f b :
  tracked b → (∀ q, sublist (f q) q) →
  moved nothing 0 b (with_topics (alter (with_messages f) t) b).
Proof.
  intros Ht Hf. split; [by apply tracked_shrink|cbn; lia|].
  intros n u _ Hin. left. unfold at_topic in *. rewrite state_of_update in Hin.
  case_decide; [|done]. cbn in Hin. eapply elem_of_submseteq; [exact Hin|].
  apply sublist_submseteq. by apply fmap_sublist.
Qed.

Lemma moved_next b :
  tracked b → last_sequence b + 1 < 2 ^ 64 →
  moved nothing 1 b (next_sequence b).2 ∧
  (next_sequence b).1 = Ret (last_sequence b + 1) ∧
  unqueued (next_sequence b).2 (last_sequence b + 1).
Proof.
  intros [Hl Hi Hu Hd] Hmax. unfold next_sequence. rewrite incr64_small by lia. cbn [fst snd].
  split; [|split; [done|]].
  - split; [|cbn; lia|by left]. split; [cbn; lia| |done..].
    intros n t Hin. specialize (Hi n t Hin). cbn. lia.
  - split; [cbn; lia|]. intros t Hin. specialize (Hi _ t Hin). lia.
Qed.

(** Appending a message under its number. *)
Lemma moved_push t m b :
  tracked b → unqueued b (sequence m) →
  moved (only (sequence m) t) 0 b (with_topics (alter (with_messages (λ q, q ++ [m])) t) b).
Proof.
  intros [Hl Hi Hu Hd] [Hm Hout].
  assert (Hat : ∀ u, at_topic (with_topics (alter (with_messages (λ q, q ++ [m])) t) b) u =
    at_topic b u ++ if decide (t = u ∧ is_Some (topics b !! u)) then [sequence m] else []).
  { intros u. unfold at_topic. rewrite state_of_update. case_decide; cbn.
    - by rewrite fmap_app. - by rewrite app_nil_r. }
  assert (Hin : ∀ n u, n ∈ at_topic (with_topics (alter (with_messages (λ q, q ++ [m])) t) b) u →
    n ∈ at_topic b u ∨ n = sequence m ∧ u = t).
  { intros n u. rewrite Hat. case_decide; set_solver. }
  split; [split| |].
  - done.
  - intros n u [Hn|[-> _]]%Hin; [by eapply Hi|done].
  - intros u. rewrite Hat. case_decide; [|by rewrite app_nil_r]. apply NoDup_app.
    split; [done|]. split; [|apply NoDup_singleton].
    intros n Hn ->%list_elem_of_singleton. by eapply Hout.
  - intros n u1 u2 [H1|[-> ->]]%Hin [H2|[? ->]]%Hin; try done; subst; [by eapply Hd|..];
      exfalso; by eapply Hout.
  - cbn; lia.
  - intros n u _ [?|[-> ->]]%Hin; [by left|by right].
Qed.

Lemma moved_ignore new k b b' :
  moved new k b b' → (∀ n u, new n u → last_sequence b < n) → moved nothing k b b'.
Proof. intros Hm Hnew. eapply moved_weaken; [done| |done]. intros n u Hn H. apply Hnew in H. lia. Qed.

(** The contract of [enqueueLocked] on numbers. *)
Definition enqueue_moves (fuel : nat) : Prop := ∀ t m b o b',
  tracked b → unqueued b (sequence m) → last_sequence b + Z.of_nat fuel < 2 ^ 64 →
  enqueueLocked fuel t m b = (o, b') → moved (only (sequence m) t) (Z.of_nat fuel) b b'.

Lemma deadLetterWith_moved fuel t m b o b' :
  enqueue_moves fuel → tracked b → last_sequence b + Z.of_nat (S fuel) < 2 ^ 64 →
  deadLetterWith (enqueueLocked fuel) t m b = (o, b') → moved nothing (Z.of_nat (S fuel)) b b'.
Proof.
  intros Henq Ht Hmax. pose proof (moved_refl b (Z.of_nat (S fuel)) Ht ltac:(lia)) as Hstay.
  unfold deadLetterWith. run.
  destruct (topics b !! t) as [st|]; [|by intros [= _ <-]].
  destruct (negb _); [by intros [= _ <-]|].
  destruct (topics b !! deadLetterTopic t); [|by intros [= _ <-]].
  destruct (moved_next b Ht ltac:(lia)) as (Hnext & Hret & Hfresh).
  destruct (next_sequence b) as [o1 b1]. cbn [fst snd] in *. subst o1.
  destruct (enqueueLocked fuel _ _ b1) as [o2 b2] eqn:He.
  pose proof (moved_last _ _ _ _ Hnext). pose proof (moved_tracked _ _ _ _ Hnext).
  apply Henq in He; [|done|done|lia]. cbn [sequence] in He.
  assert (Hm : moved nothing (Z.of_nat (S fuel)) b b2).
  { apply (moved_ignore (only (last_sequence b + 1) (deadLetterTopic t))).
    - replace (Z.of_nat (S fuel)) with (1 + Z.of_nat fuel) by lia.
      eapply moved_trans; [|exact He]. eapply moved_weaken; [exact Hnext|done|lia].
    - intros n u [-> _]. lia. }
  by destruct o2; intros [= _ <-].
Qed.

Lemma optional_deadLetter_moved fuel t (c : bool) m b o b' :
  enqueue_moves fuel → tracked b → last_sequence b + Z.of_nat (S fuel) < 2 ^ 64 →
  (if c then deadLetterWith (enqueueLocked fuel) t m else mret tt) b = (o, b') →
  moved nothing (Z.of_nat (S fuel)) b b'.
Proof.
  intros Henq Ht Hmax. destruct c; [by apply deadLetterWith_moved|].
  intros [= _ <-]. apply moved_refl; [done|lia].
Qed.

Lemma moved_nothing new k b b' : moved nothing k b b' → moved new k b b'.
Proof. intros Hm. by eapply moved_weaken. Qed.

Lemma enqueueLocked_moved fuel : enqueue_moves fuel.
Proof.
  induction fuel as [|fuel IH]; intros t m b o b' Ht Hm Hmax.
  { intros [= _ <-]. by apply moved_nothing, moved_refl. }
  assert (Hstay : moved (only (sequence m) t) (Z.of_nat (S fuel)) b b)
    by (by apply moved_nothing, moved_refl; [|lia]).
  cbn [enqueueLocked]. run. destruct (topics b !! t) as [st|] eqn:Hst; [|by intros [= _ <-]].
  unfold update_messages. run. destruct (is_full st) eqn:Hfull.
  2:{ intros [= _ <-]. eapply moved_weaken; [by apply moved_push|done|lia]. }
  destruct (overflow (options st)) eqn:Hov; [|by intros [= _ <-]|].
  - destruct (messages st) as [|ev rest] eqn:Hq; [by apply is_full_nonempty in Hfull|].
    set (b1 := with_topics (alter (with_messages (λ _, rest)) t) b).
    assert (Hb1 : moved nothing 0 b b1).
    { assert (b1 = with_topics (alter (with_messages tail) t) b) as ->.
      { apply broker_eq; [|done..]. apply map_eq. intros u. unfold b1. rewrite !update_lookup.
        case_decide; [subst|done]. rewrite Hst. cbn. unfold with_messages. by rewrite Hq. }
      apply moved_evict; [done|].
      intros [|h q]; [done|]. by apply sublist_cons. }
    match goal with |- context [(if ?c then ?x else ?y) b1] =>
      destruct ((if c then x else y) b1) as [o2 b2] eqn:Hdl end.
    pose proof (moved_last _ _ _ _ Hb1).
    apply optional_deadLetter_moved in Hdl; [|done|by apply Hb1|lia].
    assert (Hb2 : moved nothing (Z.of_nat (S fuel)) b b2).
    { replace (Z.of_nat (S fuel)) with (0 + Z.of_nat (S fuel)) by lia. by eapply moved_trans. }
    destruct o2 as [[]|e|]; intros [= _ <-]; [|by apply moved_nothing..].
    replace (Z.of_nat (S fuel)) with (Z.of_nat (S fuel) + 0) by lia.
    eapply moved_trans; [by apply moved_nothing|]. apply moved_push; [by apply Hb2|].
    apply (moved_unqueued _ _ _ _ _ Hb2 Hm). by intros u [].
  - match goal with |- context [(if ?c then ?x else ?y) b] =>
      destruct ((if c then x else y) b) as [o2 b2] eqn:Hdl end.
    apply optional_deadLetter_moved in Hdl; [|done..].
    by destruct o2 as [[]|e|]; intros [= _ <-]; apply moved_nothing.
Qed.

(** ** Whole operations *)

Lemma enqueue_next_moved t text b o b' :
  tracked b → last_sequence b + (Z.of_nat (enqueue_fuel b) + 1) < 2 ^ 64 →
  (n ← next_sequence; enqueue t (mkHeld n text false)) b = (o, b') →
  moved nothing (Z.of_nat (enqueue_fuel b) + 1) b b'.
Proof.
  intros Ht Hmax. destruct (moved_next b Ht ltac:(lia)) as (Hnext & Hret & Hfresh). run.
  change (enqueue_fuel b) with (enqueue_fuel (next_sequence b).2) in *.
  destruct (next_sequence b) as [o1 b1]. cbn [fst snd] in *. subst o1.
  unfold enqueue. destruct (enqueueLocked _ _ _ b1) as [o2 b2] eqn:He.
  pose proof (moved_last _ _ _ _ Hnext). pose proof (moved_tracked _ _ _ _ Hnext).
  apply enqueueLocked_moved in He; [|done|done|lia]. cbn [sequence] in He.
  intros Hb. assert (b2 = b') as <- by (destruct o2; by simplify_eq).
  apply (moved_ignore (only (last_sequence b + 1) t)).
  - replace (Z.of_nat (enqueue_fuel b1) + 1) with (1 + Z.of_nat (enqueue_fuel b1)) by lia.
    eapply moved_trans; [|exact He].
    eapply moved_weaken; [exact Hnext|done|lia].
  - intros n u [-> _]. lia.
Qed.

Lemma state_of_touched t b u : state_of (touched t b) u = state_of b u.
Proof.
  unfold state_of. rewrite touched_lookup. case_decide; [subst|done].
  by destruct (topics b !! u).
Qed.

(** The queues, the counter and the declarations look the same. *)
Lemma moved_same b b' :
  tracked b → (∀ u, state_of b' u = state_of b u) → last_sequence b' = last_sequence b →
  moved nothing 0 b b'.
Proof.
  intros [Hl Hi Hu Hd] Hs Hl'. assert (Hat : ∀ u, at_topic b' u = at_topic b u).
  { intros u. unfold at_topic. by rewrite Hs. }
  split; [split|lia|].
  - lia.
  - intros n t. rewrite Hat, Hl'. apply Hi.
  - intros t. by rewrite Hat.
  - intros n t u. rewrite !Hat. apply Hd.
  - intros n u _. rewrite Hat. by left.
Qed.

Lemma publish_loop_moved g kind key text names accepted b o b' :
  tracked b →
  last_sequence b + (Z.of_nat (enqueue_fuel b) + 1) * Z.of_nat (length names) < 2 ^ 64 →
  publish_loop g kind key text names accepted b = (o, b') →
  moved nothing ((Z.of_nat (enqueue_fuel b) + 1) * Z.of_nat (length names)) b b'.
Proof.
  revert accepted b. induction names as [|name names IH]; intros accepted b Ht Hmax.
  { intros [= _ <-]. by apply moved_refl; [|lia]. }
  assert (Hskip : ∀ acc, publish_loop g kind key text names acc b = (o, b') →
    moved nothing ((Z.of_nat (enqueue_fuel b) + 1) * Z.of_nat (length (name :: names))) b b').
  { intros acc H. apply IH in H; [|done|cbn [length] in *; lia].
    eapply moved_weaken; [exact H|done|cbn [length]; lia]. }
  cbn [publish_loop]. run.
  destruct (topics b !! name) as [st|]; [|intros [= _ <-]; by apply moved_refl; [|lia]].
  destruct (negb _); [apply Hskip|]. destruct (route_accepts _ _ _); [|apply Hskip].
  destruct ((n ← next_sequence; enqueue name (mkHeld n text false)) b) as [o1 b1] eqn:He.
  pose proof (enqueue_next_shape name text b) as Hs. rewrite He in Hs. cbn [snd] in Hs.
  pose proof He as Hm. apply enqueue_next_moved in Hm; [|done|cbn [length] in *; nia].
  pose proof (moved_last _ _ _ _ Hm). pose proof (moved_tracked _ _ _ _ Hm).
  revert He. unfold next_sequence. run.
  destruct (enqueue _ _ _) as [[r|e|] b2]; intros [= <- <-].
  2,3: intros [= _ <-]; eapply moved_weaken; [exact Hm|done|cbn [length]; nia].
  rewrite (enqueue_fuel_shape _ _ Hs) in *. cbn [length] in *.
  intros H1. apply IH in H1; [|done|lia].
  eapply moved_weaken; [eapply moved_trans; [exact Hm|exact H1]|done|lia].
Qed.

Lemma publish_cases topic b :
  match topics b !! topic with Some st => group (options st) = "" | None => True end
  ∨ ∃ st, topics b !! topic = Some st ∧ group (options st) ≠ "".
Proof.
  destruct (topics b !! topic) as [st|]; [|by left].
  destruct (decide (group (options st) = "")); eauto.
Qed.

Lemma publish_moved topic text over b :
  tracked b → last_sequence b + publish_cost b topic < 2 ^ 64 →
  moved nothing (publish_cost b topic) b (publish topic text over b).2.
Proof.
  intros Ht Hmax. unfold publish_cost in *.
  destruct (publish_cases topic b) as [Hu|(st & Hst & Hg)].
  - rewrite publish_ungrouped_run by done.
    assert (Hb1 : moved nothing 0 b (touched topic b)).
    { apply moved_same; [done|apply state_of_touched|apply touched_sequence]. }
    destruct ((n ← next_sequence; enqueue topic (mkHeld n text false)) (touched topic b))
      as [o2 b2] eqn:He. rewrite <- (touched_sequence topic b) in Hmax.
    apply enqueue_next_moved in He; [|by apply Hb1|nia].
    eapply moved_weaken; [eapply moved_trans; [exact Hb1|exact He]|done|cbn [snd]; nia].
  - rewrite (touched_known _ _ _ Hst) in *. unfold publish. run. rewrite Hst.
    apply is_empty_false in Hg. rewrite Hg.
    assert (Hi : ∃ kind b1, index_group (group (options st)) b = (Ret kind, b1) ∧
      topics b1 = topics b ∧ last_sequence b1 = last_sequence b).
    { unfold index_group. destruct (groups b !! _); by do 2 eexists. }
    destruct Hi as (kind & b1 & -> & Htop & Hl).
    assert (Hb1 : moved nothing 0 b b1).
    { apply moved_same; [done| |done]. intros u. unfold state_of. by rewrite Htop. }
    assert (Hf : enqueue_fuel b1 = enqueue_fuel b) by (unfold enqueue_fuel; by rewrite Htop).
    rewrite Htop. destruct (publish_loop _ _ _ _ _ _ b1) as [o b2] eqn:He.
    apply publish_loop_moved in He; [|by apply Hb1|rewrite Hf, Hl, sorted_keys_length; nia].
    eapply moved_weaken; [eapply moved_trans; [exact Hb1|exact He]|done|].
    cbn [snd]. rewrite Hf, sorted_keys_length. nia.
Qed.

Lemma deadLetter_moved t m b :
  tracked b → last_sequence b + Z.of_nat (S (enqueue_fuel b)) < 2 ^ 64 →
  moved nothing (Z.of_nat (S (enqueue_fuel b))) b (deadLetter_message t m b).2.
Proof.
  intros Ht Hmax. destruct (deadLetter_message t m b) as [o b'] eqn:Hd.
  by eapply deadLetterWith_moved; [apply enqueueLocked_moved|..].
Qed.

(** ** What lossless destinations keep *)

(** No message leaves a lossless destination. *)
Definition keeps (b b' : Broker) : Prop :=
  ∀ u, lossless b u → lossless b' u ∧ at_topic b u `prefix_of` at_topic b' u.

#[export] Instance keeps_preorder : PreOrder keeps.
Proof.
  split; [by intros b u Hu|]. intros b1 b2 b3 H1 H2 u [Hu Hp]%H1.
  apply H2 in Hu as [? ?]. split; [done|by etrans].
Qed.

Lemma keeps_same b b' : (∀ u, state_of b' u = state_of b u) → keeps b b'.
Proof. intros Hs u. unfold lossless, at_topic. by rewrite Hs. Qed.

Lemma keeps_evict t f b : ¬ lossless b t → keeps b (with_topics (alter (with_messages f) t) b).
Proof.
  intros Hlossy u Hu. assert (t ≠ u) by (by intros ->). unfold lossless, at_topic.
  rewrite !state_of_update, decide_False by naive_solver. done.
Qed.

Lemma keeps_push t m b : keeps b (with_topics (alter (with_messages (λ q, q ++ [m])) t) b).
Proof.
  intros u. unfold lossless, at_topic. rewrite state_of_update. case_decide; [|done].
  cbn. intros Hk. split; [done|]. rewrite fmap_app. by eexists.
Qed.

Lemma is_full_lossy b t st :
  topics b !! t = Some st → is_full st = true → overflow (options st) = DropHead → ¬ lossless b t.
Proof.
  intros Ht Hf Ho Hl. apply Hl. unfold state_of. rewrite Ht. cbn. split; [|done].
  apply andb_true_iff in Hf as [Hf _]. by apply bool_decide_eq_true in Hf.
Qed.

Lemma deadLetterWith_keeps enqueue t m b :
  (∀ t m b, keeps b (enqueue t m b).2) → keeps b (deadLetterWith enqueue t m b).2.
Proof.
  intros Henq. unfold deadLetterWith. run. destruct (topics b !! t) as [st|]; [|done].
  destruct (negb _); [done|]. destruct (topics b !! deadLetterTopic t); [|done].
  unfold next_sequence. run. match goal with |- context [enqueue ?t' ?m' ?b'] =>
    pose proof (Henq t' m' b') as He; destruct (enqueue t' m' b') as [[]] end;
    (etrans; [|exact He]; by apply keeps_same).
Qed.

Lemma enqueueLocked_keeps fuel t m b : keeps b (enqueueLocked fuel t m b).2.
Proof.
  revert t m b. induction fuel as [|fuel IH]; intros t m b; [done|].
  assert (Hdl : ∀ (c : bool) ev b0 o b1,
    (if c then deadLetterWith (enqueueLocked fuel) t ev else mret tt) b0 = (o, b1) → keeps b0 b1).
  { intros [] ev b0 o b1; [|by intros [= _ <-]]. intros Hrun.
    pose proof (deadLetterWith_keeps (enqueueLocked fuel) t ev b0 IH) as H. by rewrite Hrun in H. }
  cbn [enqueueLocked]. unfold update_messages. run.
  destruct (topics b !! t) as [st|] eqn:Hst; [|done].
  destruct (is_full st) eqn:Hfull; [|apply keeps_push].
  destruct (overflow (options st)) eqn:Hov; [|done|].
  - destruct (messages st) as [|ev rest]; [done|].
    assert (Hb1 : keeps b (with_topics (alter (with_messages (λ _, rest)) t) b))
      by (by eapply keeps_evict, is_full_lossy).
    match goal with |- context [(if ?c then ?x else ?y) ?b1] =>
      destruct ((if c then x else y) b1) as [o2 b2] eqn:H2 end.
    apply Hdl in H2. etrans; [exact Hb1|]. destruct o2; [|done..]. etrans; [exact H2|apply keeps_push].
  - match goal with |- context [(if ?c then ?x else ?y) b] =>
      destruct ((if c then x else y) b) as [o2 b2] eqn:H2 end.
    apply Hdl in H2. by destruct o2.
Qed.

Lemma deadLetter_keeps t m b : keeps b (deadLetter_message t m b).2.
Proof. apply deadLetterWith_keeps, enqueueLocked_keeps. Qed.

Lemma enqueue_next_keeps t text b :
  keeps b ((n ← next_sequence; enqueue t (mkHeld n text false)) b).2.
Proof.
  unfold next_sequence. run. match goal with |- context [enqueue t ?m ?b1] =>
    pose proof (enqueueLocked_keeps (enqueue_fuel b1) t m b1) as H;
    change (enqueueLocked (enqueue_fuel b1) t m b1) with (enqueue t m b1) in H;
    destruct (enqueue t m b1) as [[]] end; (etrans; [|exact H]; by apply keeps_same).
Qed.

Lemma publish_loop_keeps g kind key text names accepted b :
  keeps b (publish_loop g kind key text names accepted b).2.
Proof.
  revert accepted b. induction names as [|name names IH]; intros accepted b; [done|].
  cbn [publish_loop]. run. destruct (topics b !! name) as [st|]; [|done].
  destruct (negb _); [apply IH|]. destruct (route_accepts _ _ _); [|apply IH].
  pose proof (enqueue_next_keeps name text b) as H. revert H. unfold next_sequence. run.
  destruct (enqueue _ _ _) as [[r|e|] b2]; cbn [snd]; [|done..].
  intros H. etrans; [exact H|apply IH].
Qed.

Lemma publish_keeps topic text over b : keeps b (publish topic text over b).2.
Proof.
  destruct (publish_cases topic b) as [Hu|(st & Hst & Hg)].
  - rewrite publish_ungrouped_run by done.
    etrans; [|apply enqueue_next_keeps]. apply keeps_same, state_of_touched.
  - unfold publish. run. rewrite Hst. apply is_empty_false in Hg. rewrite Hg.
    assert (Hi : ∃ kind b1, index_group (group (options st)) b = (Ret kind, b1) ∧
      topics b1 = topics b).
    { unfold index_group. destruct (groups b !! _); by do 2 eexists. }
    destruct Hi as (kind & b1 & -> & Htop).
    etrans; [|apply publish_loop_keeps]. apply keeps_same. intros u. unfold state_of. by rewrite Htop.
Qed.

(** Declaring touches no queue. *)
Lemma ensureTopic_at_topic t opts b :
  last_sequence (ensureTopic t opts b).2 = last_sequence b ∧
  ∀ u, at_topic (ensureTopic t opts b).2 u = at_topic b u.
Proof.
  pose proof (ensureTopic_spec t opts b) as Hspec.
  destruct (ensureTopic t opts b) as [[[]|e|] b']; cbn [snd]; [| |done].
  - destruct Hspec as (_ & _ & Hl & Htop). split; [done|]. intros u.
    unfold at_topic, state_of. destruct (topics b !! t) as [st|] eqn:Ht.
    + by destruct Htop as [_ ->].
    + rewrite Htop, lookup_insert. case_decide; [subst|done]. by rewrite Ht.
  - destruct Hspec as (_ & Htop & _ & Hl & _). split; [done|]. intros u.
    unfold at_topic, state_of. by rewrite Htop.
Qed.

Lemma purge_at_topic t b :
  last_sequence (purge t b).2 = last_sequence b ∧
  ∀ u, at_topic (purge t b).2 u = if decide (t = u) then [] else at_topic b u.
Proof.
  unfold purge, update_messages. run. unfold at_topic.
  destruct (topics b !! t) as [st|] eqn:Ht; cbn [snd]; (split; [done|]); intros u.
  - rewrite state_of_update. destruct (decide (t = u)) as [->|Hne].
    + by rewrite decide_True by eauto.
    + by rewrite decide_False by naive_solver.
  - case_decide; [subst|done]. unfold state_of. by rewrite Ht.
Qed.

Lemma requeue_at_topic t m b :
  last_sequence (requeue_message t m b).2 = last_sequence b ∧
  ∀ u, at_topic (requeue_message t m b).2 u =
    if decide (t = u) then sequence m :: at_topic b u else at_topic b u.
Proof.
  rewrite requeue_message_run. cbn [snd]. split; [apply touched_sequence|]. intros u.
  unfold at_topic. rewrite state_of_update, state_of_touched.
  assert (Hk : is_Some (topics (touched t b) !! t)).
  { rewrite touched_lookup, decide_True by done. by destruct (topics b !! t); eexists. }
  destruct (decide (t = u)) as [->|Hne]; [by rewrite decide_True by done|].
  by rewrite decide_False by naive_solver.
Qed.

Lemma take_at_topic t m b b' :
  take_message t b = (Ret (Some m), b') →
  last_sequence b' = last_sequence b ∧
  at_topic b t = sequence m :: at_topic b' t ∧
  ∀ u, u ≠ t → at_topic b' u = at_topic b u.
Proof.
  unfold take_message, update_messages. run. destruct (topics b !! t) as [st|] eqn:Ht; [|done].
  destruct (messages st) as [|m0 rest] eqn:Hq; [done|]. intros [= <- <-]. unfold at_topic.
  split; [done|]. split.
  - rewrite state_of_update, decide_True by eauto. unfold state_of. rewrite Ht. cbn. by rewrite Hq.
  - intros u Hu. rewrite state_of_update, decide_False by naive_solver. done.
Qed.

(** ** Declarations are permanent *)

(** Every destination keeps its options and its binding. *)
Definition declared_kept (b b' : Broker) : Prop := shape_of <$> topics b ⊆ shape_of <$> topics b'.

#[export] Instance declared_kept_preorder : PreOrder declared_kept.
Proof. unfold declared_kept. split; [by intros ?|intros ?????; by etrans]. Qed.

Lemma same_shape_declared b b' : same_shape b b' → declared_kept b b'.
Proof. unfold declared_kept. by intros [_ ->]. Qed.

Lemma touched_declared t b : declared_kept b (touched t b).
Proof.
  apply map_subseteq_spec. intros u s. rewrite !lookup_fmap, touched_lookup.
  case_decide; [subst|done]. by destruct (topics b !! u).
Qed.

Lemma declared_options b b' t st :
  declared_kept b b' → topics b !! t = Some st →
  ∃ st', topics b' !! t = Some st' ∧ options st' = options st.
Proof.
  intros Hd Ht. assert (Hs : (shape_of <$> topics b) !! t = Some (shape_of st))
    by (by rewrite lookup_fmap, Ht).
  apply (lookup_weaken _ _ _ _ Hs) in Hd. apply lookup_fmap_Some in Hd as (st' & Heq & ?).
  exists st'. split; [done|]. by injection Heq.
Qed.

Lemma publish_declared topic text over b : declared_kept b (publish topic text over b).2.
Proof.
  destruct (publish_cases topic b) as [Hu|(st & Hst & Hg)].
  - rewrite publish_ungrouped_run by done. etrans; [apply touched_declared|].
    apply same_shape_declared, enqueue_next_shape.
  - unfold publish. run. rewrite Hst. apply is_empty_false in Hg. rewrite Hg.
    assert (Hi : ∃ kind b1, index_group (group (options st)) b = (Ret kind, b1) ∧
      topics b1 = topics b).
    { unfold index_group. destruct (groups b !! _); by do 2 eexists. }
    destruct Hi as (kind & b1 & -> & Htop).
    etrans; [|apply same_shape_declared, publish_loop_shape]. unfold declared_kept. by rewrite Htop.
Qed.

Lemma perform_declared op b : declared_kept b (perform op b).
Proof.
  destruct op as [t opts|t text over|t|t m|t m|t]; cbn [perform].
  - apply map_subseteq_spec. intros u s Hu. apply lookup_fmap_Some in Hu as (st & <- & Hu).
    rewrite lookup_fmap. by rewrite (InMemory.ensureTopic_keeps t opts b u st Hu).
  - apply publish_declared.
  - apply same_shape_declared, take_message_shape.
  - rewrite requeue_message_run. cbn [snd].
    etrans; [apply touched_declared|apply same_shape_declared, same_shape_update].
  - apply same_shape_declared, deadLetterLocked_shape.
  - apply same_shape_declared, purge_shape.
Qed.

Lemma requeue_fold_declared t ms b :
  declared_kept b (foldl (λ b m, (requeue_message t m b).2) b ms).
Proof.
  revert b. induction ms as [|m ms IH]; intros b; [done|]. cbn [foldl].
  etrans; [apply (perform_declared (OpRequeue t m))|apply IH].
Qed.

Lemma disposed_declared topic d x b b' :
  is_Some (topics b !! topic) → InMemory.disposed topic d x b b' → declared_kept b b'.
Proof.
  intros [st Hst] [_ Hd]. rewrite Hst in Hd.
  destruct d; [by subst| | |by subst].
  - destruct (deadLetter (options st)); [|by subst]. destruct Hd as (f & n & Hf & Hb).
    apply map_subseteq_spec. intros u s. rewrite !lookup_fmap, Hb, lookup_insert.
    case_decide; [subst|done]. by rewrite Hf.
  - destruct Hd as [Hown Hother]. apply map_subseteq_spec. intros u s. rewrite !lookup_fmap.
    destruct (decide (u = topic)) as [->|Hne]; [by rewrite Hst, Hown|by rewrite Hother].
Qed.

Lemma perform_all_declared ops b : declared_kept b (foldl (λ b op, perform op b) b ops).
Proof.
  revert b. induction ops as [|op ops IH]; intros b; [done|].
  cbn. etrans; [apply perform_declared|apply IH].
Qed.
