(* ===== verification/Cluster.v ===== *)
(** Any number of in-memory transports over one broker
    ([src/transport/InMemoryTransport.cpp]), and the life of each message copy.

    A [Cluster] is the shared broker, the transports of its users and, for each
    transport, the messages its calls of [pump] in progress have in their local
    variable.  [fire] runs one label: a broker operation of a user that holds
    nothing, or one action of a transport.  A [pump] is three of them -- taking the
    message ([Begin]), the handler, during which every other label may fire, those of
    the same transport included, and its answer ([Answer]) or exception ([Throws]) --
    as [pump_is_begin_answer] shows; the other methods make at most one broker call
    and are one action each.  [transition] says what a step may do to the copies,
    whoever made it, and [lifecycle] what that means for one copy.  Both need an
    [orderly] step: a handler that settles the delivery it was called for, or closes
    the transport, and then answers makes two copies of it
    ([own_settlement_doubles] of [InMemoryTransport]). *)

From S2P Require Import Prelude ITransport Broker InMemoryTransport Custody.
#[local] Open Scope Z_scope.

Import InMemory.

Section cluster.
Context {H : Type}.
Local Abbreviation T := (InMemoryTransport H).

(** ** The two halves of a delivery *)

(** [pump] up to the call of the handler: one broker call. *)
Definition begin (t : T) (fs : list Held) : T * list Held :=
  if negb (_connected t) || bool_decide (_handler t = None) || negb (bool_decide (_outstanding t = ∅))
  then (t, fs)
  else
    match on_broker (take_message (_topic t)) t with
    | (Ret (Some m), t) => (holding m t, m :: fs)
    | (_, t) => (t, fs)
    end.

(** [pump] from the handler's return on: the bookkeeping entry is erased, if it is
    still there, and the local variable [m] is resolved -- one broker call. *)
Definition answer (m : Held) (d : Disposition) (t : T) : T :=
  if decide (d = Deferred) then t
  else (resolve d m (with_outstanding (delete (sequence m)) t)).2.

(** ** Steps *)

Inductive action : Type :=
  | Connect
  | Subscribe (topic : Topic) (handler : H)
  | Send (topic : Topic) (payload : string) (options : SendOptions)
  | Begin
  | Answer (n : Z) (d : Disposition)
  | Throws (n : Z)
  | Settle (n : Z) (d : Disposition)
  | Close.

(** The calls of [pump] in progress on one transport, innermost first, by the message
    each took.  A call returns before the one it was made from. *)
Definition Frames : Type := list Held.

(** The innermost [pump], if it is that of delivery [n], returns through [f]; a label
    that names another delivery names no event. *)
Definition return_from (n : Z) (f : Held → T → T) (t : T) (fs : Frames) : T * Frames :=
  match fs with
  | m :: fs' => if decide (sequence m = n) then (f m t, fs') else (t, fs)
  | [] => (t, fs)
  end.

Definition effect (a : action) (t : T) (fs : Frames) : T * Frames :=
  match a with
  | Connect => ((connect default_Endpoint 0 t).2, fs)
  | Subscribe topic h => ((subscribe topic (Some h) 0 t).2, fs)
  | Send topic payload options => ((send topic payload options t).2, fs)
  | Begin => begin t fs
  | Answer n d => return_from n (λ m, answer m d) t fs
  | Throws n => return_from n (λ _, with_stats bump_abandoned) t fs
  | Settle n d => ((settle n d t).2, fs)
  | Close => ((close 0 t).2, fs)
  end.

Record Cluster : Type := mkCluster {
  shared : Broker;
  members : gmap nat T;
  frames : gmap nat Frames;
}.

Definition running (c : Cluster) (i : nat) : Frames := default [] (frames c !! i).

Inductive label : Type :=
  | Outside (op : operation)
  | Member (i : nat) (a : action).

(** A transport sees the shared broker, and leaves its own version behind. *)
Definition view (c : Cluster) (t : T) : T := with_broker (λ _, shared c) t.

Definition fire (l : label) (c : Cluster) : Cluster :=
  match l with
  | Outside op => mkCluster (perform op (shared c)) (members c) (frames c)
  | Member i a =>
      match members c !! i with
      | None => c
      | Some t =>
          let '(t', fs) := effect a (view c t) (running c i) in
          mkCluster (broker t') (<[i := t']> (members c)) (<[i := fs]> (frames c))
      end
  end.

(** Taking, requeueing and dead-lettering are for transports. *)
Definition allowed (l : label) : Prop :=
  match l with
  | Outside (OpEnsureTopic _ _ | OpPublish _ _ _ | OpPurge _) | Member _ _ => True
  | Outside _ => False
  end.

(** Sequence numbers the step can draw; they are 64 bits wide. *)
Definition budget (l : label) (b : Broker) : Z :=
  match l with
  | Outside (OpPublish topic _ _) | Member _ (Send topic _ _) => publish_cost b topic
  | Member _ (Answer _ Reject | Settle _ Reject) => Z.of_nat (S (enqueue_fuel b))
  | _ => 0
  end.

Definition room (l : label) (c : Cluster) : Prop :=
  last_sequence (shared c) + budget l (shared c) < 2 ^ 64.

(** No handler settles the delivery it is called for or closes the transport that is
    calling it. *)
Definition orderly (c : Cluster) (l : label) : Prop :=
  match l with
  | Member i (Settle n _) => n ∉ sequence <$> running c i
  | Member i Close => running c i = []
  | _ => True
  end.

#[export] Instance orderly_dec c l : Decision (orderly c l).
Proof. destruct l as [op|i []]; cbn; apply _. Defined.

(** Runs made of the labels in [P]. *)
Inductive steps (P : Cluster → label → Prop) : Cluster → Cluster → Prop :=
  | steps_none c : steps P c c
  | steps_more l c c' : P c l → allowed l → room l c → steps P (fire l c) c' → steps P c c'.

Definition initial (c : Cluster) : Prop :=
  shared c = empty_Broker ∧ frames c = ∅ ∧
  ∀ i t, members c !! i = Some t → ∃ b, t = new_InMemoryTransport b.

(** ** What a step does to the copies *)

(** Transport [i] holds copy [n], taken from [t]. *)
Definition holder (c : Cluster) (i : nat) (n : Z) (t : Topic) : Prop :=
  ∃ m, members c !! i = Some m ∧ n ∈ dom (_outstanding m) ∧ _topic m = t.

(** Labels that store messages, that end the custody of a delivery for good, and
    that give it back. *)
Definition stores (l : label) : Prop :=
  match l with
  | Outside (OpPublish _ _ _) | Member _ (Send _ _ _)
  | Member _ (Answer _ Reject | Settle _ Reject) => True
  | _ => False
  end.
Definition finishes (l : label) (i : nat) (n : Z) : Prop :=
  match l with
  | Member j (Answer m (Ack | Reject) | Settle m (Ack | Reject)) => j = i ∧ m = n
  | _ => False
  end.
Definition returns (l : label) (i : nat) (n : Z) : Prop :=
  match l with
  | Member j (Answer m Requeue | Settle m Requeue) => j = i ∧ m = n
  | Member j Close => j = i
  | _ => False
  end.

Local Abbreviation same_holders c c' := (∀ i n t, holder c' i n t ↔ holder c i n t).
Definition released (i : nat) (n : Z) (c c' : Cluster) : Prop :=
  ∀ j n' t, holder c' j n' t ↔ holder c j n' t ∧ (j, n') ≠ (i, n).

Inductive transition (l : label) (c c' : Cluster) : Prop :=
  | trans_quiet :
      same_holders c c' → last_sequence (shared c') = last_sequence (shared c) →
      (∀ u, at_topic (shared c') u = at_topic (shared c) u) → transition l c c'
  | trans_purge t :
      l = Outside (OpPurge t) → same_holders c c' →
      last_sequence (shared c') = last_sequence (shared c) →
      (∀ u, at_topic (shared c') u = if decide (t = u) then [] else at_topic (shared c) u) →
      transition l c c'
  | trans_store k :
      stores l → same_holders c c' → moved nothing k (shared c) (shared c') →
      keeps (shared c) (shared c') → transition l c c'
  | trans_take i n t :
      l = Member i Begin →
      (∀ j n' u, holder c' j n' u ↔ holder c j n' u ∨ (j = i ∧ n' = n ∧ u = t)) →
      last_sequence (shared c') = last_sequence (shared c) →
      at_topic (shared c) t = n :: at_topic (shared c') t →
      (∀ u, u ≠ t → at_topic (shared c') u = at_topic (shared c) u) → transition l c c'
  | trans_finish i n t k :
      finishes l i n → holder c i n t → released i n c c' →
      moved nothing k (shared c) (shared c') → keeps (shared c) (shared c') →
      (¬ stores l → last_sequence (shared c') = last_sequence (shared c) ∧
        ∀ u, at_topic (shared c') u = at_topic (shared c) u) → transition l c c'
  | trans_return i n t :
      returns l i n → holder c i n t → released i n c c' →
      last_sequence (shared c') = last_sequence (shared c) →
      (∀ u, at_topic (shared c') u =
        if decide (t = u) then n :: at_topic (shared c) u else at_topic (shared c) u) →
      transition l c c'.

(** Every copy is in one queue or in one transport's hands, not both. *)
Record custody (c : Cluster) : Prop := mkCustody {
  custody_tracked : tracked (shared c);
  custody_unqueued i n t : holder c i n t → unqueued (shared c) n;
  custody_one i j n t u : holder c i n t → holder c j n u → i = j;
}.

(** What each transport keeps about itself. *)
Definition member_ok (t : T) : Prop :=
  (size (_outstanding t) ≤ 1)%nat ∧
  (∀ k m, _outstanding t !! k = Some m → k = sequence m) ∧
  (_outstanding t ≠ ∅ → _subscribed t = true) ∧ (_handler t ≠ None → _subscribed t = true).

(** At most one [pump] is in progress on it, and it still holds what that took. *)
Definition frames_ok (t : T) (fs : Frames) : Prop :=
  match fs with
  | [] => True
  | [m] => _outstanding t !! sequence m = Some m
  | _ => False
  end.

Record sane (c : Cluster) : Prop := mkSane {
  sane_custody : custody c;
  sane_members i t : members c !! i = Some t → member_ok t;
  sane_frames i t : members c !! i = Some t → frames_ok t (running c i);
}.

(** ** The life of one copy *)

Inductive place : Type :=
  | Unissued
  | Waiting (t : Topic)
  | HeldBy (i : nat) (t : Topic)
  | Gone.

Definition placed (c : Cluster) (n : Z) (p : place) : Prop :=
  match p with
  | Unissued => last_sequence (shared c) < n
  | Waiting t => n ∈ at_topic (shared c) t
  | HeldBy i t => holder c i n t
  | Gone => 0 < n ≤ last_sequence (shared c) ∧ (∀ t, n ∉ at_topic (shared c) t) ∧
      ∀ i t, ¬ holder c i n t
  end.

(** The automaton: a copy is issued into a queue (or turned away on the spot), waits
    until a transport takes it, a purge removes it or a bounded drop-head
    destination evicts it, and once held is finished or given back to its topic by
    the transport that holds it.  There is no way out of [Gone]. *)
Inductive lifecycle (l : label) (c : Cluster) (n : Z) : place → place → Prop :=
  | life_same p : lifecycle l c n p p
  | life_issued t : stores l → lifecycle l c n Unissued (Waiting t)
  | life_refused : stores l → lifecycle l c n Unissued Gone
  | life_evicted t : stores l → ¬ lossless (shared c) t → lifecycle l c n (Waiting t) Gone
  | life_purged t : l = Outside (OpPurge t) → lifecycle l c n (Waiting t) Gone
  | life_taken i t : l = Member i Begin → lifecycle l c n (Waiting t) (HeldBy i t)
  | life_finished i t : finishes l i n → lifecycle l c n (HeldBy i t) Gone
  | life_returned i t : returns l i n → lifecycle l c n (HeldBy i t) (Waiting t).

Definition lives (l : label) (c c' : Cluster) : Prop :=
  custody c' ∧ ∀ n p, placed c n p → ∃ p', placed c' n p' ∧ lifecycle l c n p p'.

Lemma queued_or_not b n : (∃ t, n ∈ at_topic b t) ∨ ∀ t, n ∉ at_topic b t.
Proof.
  destruct (decide (map_Exists (λ _ st, n ∈ (sequence <$> messages st)) (topics b))) as [He|Hn].
  - left. destruct He as (t & st & Ht & Hin). exists t. unfold at_topic, state_of. by rewrite Ht.
  - right. intros t Hin. apply Hn. unfold at_topic, state_of in Hin.
    destruct (topics b !! t) as [st|] eqn:Ht; [by exists t, st|by apply not_elem_of_nil in Hin].
Qed.

Lemma placed_ext c c' n p :
  same_holders c c' → last_sequence (shared c') = last_sequence (shared c) →
  (∀ u, at_topic (shared c') u = at_topic (shared c) u) → placed c n p → placed c' n p.
Proof.
  intros Hh Hl Hq. destruct p as [|t|i t|]; simpl.
  - by rewrite Hl.
  - by rewrite Hq.
  - by rewrite Hh.
  - rewrite Hl. setoid_rewrite Hq. setoid_rewrite Hh. done.
Qed.

Lemma tracked_ext b b' :
  last_sequence b' = last_sequence b → (∀ u, at_topic b' u = at_topic b u) → tracked b → tracked b'.
Proof.
  intros Hl Hq [H1 H2 H3 H4]. split; [lia|..]; setoid_rewrite Hq; [|done..].
  intros n t Hin. rewrite Hl. by eapply H2.
Qed.

Lemma unqueued_ext b b' n :
  last_sequence b' = last_sequence b → (∀ u, at_topic b' u = at_topic b u) →
  unqueued b n → unqueued b' n.
Proof. intros Hl Hq [H1 H2]. split; [lia|]. by setoid_rewrite Hq. Qed.

Lemma lives_quiet l c c' :
  custody c → same_holders c c' → last_sequence (shared c') = last_sequence (shared c) →
  (∀ u, at_topic (shared c') u = at_topic (shared c) u) → lives l c c'.
Proof.
  intros [Ht Hu Ho] Hh Hl Hq. split; [split|].
  - by eapply tracked_ext.
  - intros i n t. rewrite Hh. intros. by eapply unqueued_ext, Hu.
  - intros i j n t u. rewrite !Hh. apply Ho.
  - intros n p Hp. exists p. split; [by eapply placed_ext|constructor].
Qed.

Lemma lives_purge t c c' :
  custody c → same_holders c c' → last_sequence (shared c') = last_sequence (shared c) →
  (∀ u, at_topic (shared c') u = if decide (t = u) then [] else at_topic (shared c) u) →
  lives (Outside (OpPurge t)) c c'.
Proof.
  intros [Ht Hu Ho] Hh Hl Hq.
  assert (Hin : ∀ n u, n ∈ at_topic (shared c') u ↔ n ∈ at_topic (shared c) u ∧ t ≠ u).
  { intros n u. rewrite Hq. case_decide; [|naive_solver].
    split; [by intros ?%not_elem_of_nil|naive_solver]. }
  split; [split|].
  - destruct Ht as [H1 H2 H3 H4]. split; [lia|..].
    + intros n u [? _]%Hin. rewrite Hl. by eapply H2.
    + intros u. rewrite Hq. case_decide; [constructor|done].
    + intros n u1 u2 [? _]%Hin [? _]%Hin. by eapply H4.
  - intros i n u [Hn Hout]%Hh%Hu. split; [lia|]. intros u' [? _]%Hin. by eapply Hout.
  - intros i j n u1 u2. rewrite !Hh. apply Ho.
  - intros n p Hp. destruct p as [|u|i u|]; simpl in Hp.
    + exists Unissued. split; [simpl; lia|constructor].
    + destruct (decide (t = u)) as [->|Hne].
      * exists Gone. split; [|by constructor]. simpl. rewrite Hl. split; [by eapply Ht|]. split.
        -- intros u' [Hin' Hne]%Hin. apply Hne. by eapply Ht.
        -- intros i u' [_ Hout]%Hh%Hu. by eapply Hout.
      * exists (Waiting u). split; [by apply Hin|constructor].
    + exists (HeldBy i u). split; [by apply Hh|constructor].
    + exists Gone. split; [|constructor]. simpl. rewrite Hl. destruct Hp as (? & Hout & Hno).
      split; [done|]. split; [intros u [? _]%Hin; by eapply Hout|].
      intros i u Hi%Hh. by eapply Hno.
Qed.

(** What became of the copies that were in queues or not yet issued, after messages
    were stored. *)
Lemma stored_places l c c' k n p :
  custody c → custody c' → stores l → moved nothing k (shared c) (shared c') →
  keeps (shared c) (shared c') → (∀ i n t, holder c' i n t → holder c i n t) →
  match p with Unissued | Waiting _ | Gone => True | HeldBy _ _ => False end →
  placed c n p → ∃ p', placed c' n p' ∧ lifecycle l c n p p'.
Proof.
  intros Hc Hc' Hs Hm Hkeep Hh Hp. pose proof (moved_last _ _ _ _ Hm) as Hl.
  assert (Hold : ∀ u, n ≤ last_sequence (shared c) → n ∈ at_topic (shared c') u →
    n ∈ at_topic (shared c) u) by (intros u ? ?; by destruct (moved_old _ _ _ _ Hm n u)).
  assert (Hgone : 0 < n ≤ last_sequence (shared c') → (∀ t, n ∉ at_topic (shared c') t) →
    (∀ i t, ¬ holder c i n t) → placed c' n Gone) by (simpl; naive_solver).
  destruct p as [|u|i u|]; simpl; [| |done|].
  - intros Hn. destruct (decide (last_sequence (shared c') < n)) as [Hn'|Hn'].
    { exists Unissued. split; [done|constructor]. }
    assert (0 ≤ last_sequence (shared c)) by apply Hc.
    assert (Hno : ∀ i t, ¬ holder c i n t).
    { intros i t [[_ ?] _]%(custody_unqueued c Hc). lia. }
    destruct (queued_or_not (shared c') n) as [[t Hin]|Hout].
    + exists (Waiting t). split; [done|by constructor].
    + exists Gone. split; [apply Hgone; [lia|done|done]|by constructor].
  - intros Hin. destruct (queued_or_not (shared c') n) as [[t Hin']|Hout].
    + exists (Waiting t). split; [done|]. apply Hold in Hin'; [|by eapply Hc].
      assert (t = u) as -> by (by eapply Hc). constructor.
    + exists Gone. destruct (tracked_issued _ (custody_tracked _ Hc) n u Hin). split.
      * apply Hgone; [lia|done|]. intros i t [_ Ho]%(custody_unqueued c Hc). by eapply Ho.
      * apply life_evicted; [done|]. intros Hk. apply (Hout u).
        destruct (Hkeep u Hk) as [_ Hpre]. by eapply elem_of_prefix.
  - intros (Hn & Hout & Hno). exists Gone. split; [|constructor].
    apply Hgone; [lia| |done]. intros t Hin. apply (Hout t), Hold; [lia|done].
Qed.

(** The same when nothing was stored. *)
Lemma kept_places c c' n p :
  last_sequence (shared c') = last_sequence (shared c) →
  (∀ u, at_topic (shared c') u = at_topic (shared c) u) →
  (∀ i n t, holder c' i n t → holder c i n t) →
  match p with Unissued | Waiting _ | Gone => True | HeldBy _ _ => False end →
  placed c n p → placed c' n p.
Proof.
  intros Hl Hq Hh Hp. destruct p as [|u|i u|]; simpl; [by rewrite Hl|by rewrite Hq|done|].
  rewrite Hl. setoid_rewrite Hq. intros (? & ? & Hno). split_and!; [lia..|done|].
  intros i t Hi%Hh. by eapply Hno.
Qed.

Lemma lives_store l c c' k :
  custody c → stores l → same_holders c c' → moved nothing k (shared c) (shared c') →
  keeps (shared c) (shared c') → lives l c c'.
Proof.
  intros Hc Hs Hh Hm Hkeep. pose proof Hc as [Ht Hu Ho].
  assert (Hc' : custody c').
  { split; [apply Hm|..].
    - intros i n t Hi%Hh%Hu. apply (moved_unqueued _ _ _ _ _ Hm Hi). by intros u [].
    - intros i j n t u. rewrite !Hh. apply Ho. }
  split; [done|]. intros n [|u|i u|] Hp.
  1,2,4: eapply stored_places; eauto; intros ???; apply Hh.
  exists (HeldBy i u). split; [by apply Hh|constructor].
Qed.

Lemma holder_topic c i n t u : holder c i n t → holder c i n u → t = u.
Proof. intros (m & Hm & _ & <-) (m' & Hm' & _ & <-). by simplify_eq. Qed.

Lemma stores_dec l : stores l ∨ ¬ stores l.
Proof. destruct l as [[]|? []]; simpl; try destruct d; tauto. Qed.

Lemma lives_finish l c c' i n t k :
  custody c → finishes l i n → holder c i n t → released i n c c' →
  moved nothing k (shared c) (shared c') → keeps (shared c) (shared c') →
  (¬ stores l → last_sequence (shared c') = last_sequence (shared c) ∧
    ∀ u, at_topic (shared c') u = at_topic (shared c) u) → lives l c c'.
Proof.
  intros Hc Hf Hin Hr Hm Hkeep Hquiet. pose proof Hc as [Ht Hu Ho].
  assert (Hsub : ∀ j m u, holder c' j m u → holder c j m u) by (intros j m u ?%Hr; tauto).
  assert (Hout : ∀ j m u, holder c j m u → unqueued (shared c') m).
  { intros j m u Hj%Hu. apply (moved_unqueued _ _ _ _ _ Hm Hj). by intros ? []. }
  assert (Hc' : custody c') by (split; [apply Hm|eauto..]).
  split; [done|]. intros m p Hp.
  destruct (match p with HeldBy j _ => true | _ => false end) eqn:Hheld.
  - destruct p as [|u|j u|]; try done. simpl in Hp.
    destruct (decide ((j, m) = (i, n))) as [[= -> ->]|Hne].
    + exists Gone. split; [|by constructor]. destruct (Hout i n u Hp) as [Hn Hnot].
      split_and!; [lia..|done|]. intros j v [Hj Hne]%Hr.
      apply Hne. f_equal. by eapply Ho.
    + exists (HeldBy j u). split; [by apply Hr|constructor].
  - destruct (stores_dec l) as [Hs|Hs].
    + eapply stored_places; eauto. by destruct p.
    + exists p. split; [|constructor]. destruct (Hquiet Hs).
      apply (kept_places c); eauto. by destruct p.
Qed.

Lemma lives_take i n t c c' :
  custody c →
  (∀ j n' u, holder c' j n' u ↔ holder c j n' u ∨ (j = i ∧ n' = n ∧ u = t)) →
  last_sequence (shared c') = last_sequence (shared c) →
  at_topic (shared c) t = n :: at_topic (shared c') t →
  (∀ u, u ≠ t → at_topic (shared c') u = at_topic (shared c) u) →
  lives (Member i Begin) c c'.
Proof.
  intros Hc Hh Hl Hhd Hrest. pose proof Hc as [Ht Hu Ho].
  assert (Hn : n ∈ at_topic (shared c) t) by (rewrite Hhd; by left).
  pose proof (tracked_unique _ Ht t) as Hnd. rewrite Hhd in Hnd. apply NoDup_cons in Hnd as [Hnot Hnd].
  assert (Hin : ∀ m u, m ∈ at_topic (shared c') u ↔ m ∈ at_topic (shared c) u ∧ m ≠ n).
  { intros m u. destruct (decide (u = t)) as [->|Hne].
    - rewrite Hhd, elem_of_cons. naive_solver.
    - rewrite (Hrest u Hne). split; [|tauto]. intros Hm. split; [done|]. intros ->.
      apply Hne. by eapply Ht. }
  assert (Hno : ∀ j u, ¬ holder c j n u) by (intros j u [_ Hj]%Hu; by eapply Hj).
  assert (Hc' : custody c').
  { split; [split|..].
    - rewrite Hl. apply Ht.
    - intros m u [Hm _]%Hin. rewrite Hl. by eapply Ht.
    - intros u. destruct (decide (u = t)) as [->|Hne]; [done|]. rewrite (Hrest u Hne). apply Ht.
    - intros m u1 u2 [H1 _]%Hin [H2 _]%Hin. by eapply Ht.
    - intros j m u [Hj|(-> & -> & ->)]%Hh.
      + apply Hu in Hj as [Hm Hj]. split; [lia|]. intros v [Hv _]%Hin. by eapply Hj.
      + split; [rewrite Hl; by eapply Ht|]. intros v [_ ?]%Hin. done.
    - intros j1 j2 m u1 u2 [H1|(-> & -> & ->)]%Hh [H2|(? & ? & ?)]%Hh; subst;
        [by eapply Ho|exfalso; by eapply Hno..|done]. }
  split; [done|]. intros m p Hp. destruct p as [|u|j u|]; simpl in Hp.
  - exists Unissued. split; [simpl; lia|constructor].
  - destruct (decide (m = n)) as [->|Hne].
    + assert (u = t) as -> by (by eapply Ht). exists (HeldBy i t).
      split; [apply Hh; by right|by constructor].
    + exists (Waiting u). split; [by apply Hin|constructor].
  - exists (HeldBy j u). split; [apply Hh; by left|constructor].
  - destruct Hp as (Hm & Hout & Hheld). exists Gone. split; [|constructor].
    split_and!; [lia..| |].
    + intros u [Hu' _]%Hin. by eapply Hout.
    + intros j u [?|(-> & -> & ->)]%Hh; [by eapply Hheld|by eapply Hout].
Qed.

Lemma lives_return l i n t c c' :
  custody c → returns l i n → holder c i n t → released i n c c' →
  last_sequence (shared c') = last_sequence (shared c) →
  (∀ u, at_topic (shared c') u =
     if decide (t = u) then n :: at_topic (shared c) u else at_topic (shared c) u) →
  lives l c c'.
Proof.
  intros Hc Hf Hi Hr Hl Hq. pose proof Hc as [Ht Hu Ho].
  destruct (Hu _ _ _ Hi) as [Hn Hnot].
  assert (Hin : ∀ m u, m ∈ at_topic (shared c') u ↔ m ∈ at_topic (shared c) u ∨ m = n ∧ u = t).
  { intros m u. rewrite Hq. case_decide as Hd; [subst; rewrite elem_of_cons|]; naive_solver. }
  assert (Hother : ∀ j m u, holder c j m u → (j, m) ≠ (i, n) → m ≠ n).
  { intros j m u Hj Hne ->. apply Hne. f_equal. by eapply Ho. }
  assert (Hc' : custody c').
  { split; [split|..].
    - rewrite Hl. apply Ht.
    - intros m u. rewrite Hl. intros [Hm|[-> ->]]%Hin; [by eapply Ht|done].
    - intros u. rewrite Hq. case_decide; [|apply Ht]. apply NoDup_cons. split; [done|apply Ht].
    - intros m u1 u2 [H1|[-> ->]]%Hin [H2|[? ->]]%Hin; subst;
        [by eapply Ht|exfalso; by eapply Hnot..|done].
    - intros j m u [Hj Hne]%Hr. pose proof (Hother _ _ _ Hj Hne). apply Hu in Hj as [Hm Hj].
      split; [lia|]. intros v [Hv|[-> ->]]%Hin; [by eapply Hj|done].
    - intros j1 j2 m u1 u2 [H1 _]%Hr [H2 _]%Hr. by eapply Ho. }
  split; [done|]. intros m p Hp. destruct p as [|u|j u|]; simpl in Hp.
  - exists Unissued. split; [simpl; lia|constructor].
  - exists (Waiting u). split; [apply Hin; by left|constructor].
  - destruct (decide ((j, m) = (i, n))) as [[= -> ->]|Hne].
    + rewrite (holder_topic _ _ _ _ _ Hp Hi). exists (Waiting t).
      split; [apply Hin; by right|by constructor].
    + exists (HeldBy j u). split; [by apply Hr|constructor].
  - destruct Hp as (Hm & Hout & Hheld). exists Gone. split; [|constructor].
    split_and!; [lia..| |].
    + intros u [?|[-> ->]]%Hin; [by eapply Hout|by eapply Hheld].
    + intros j u [? _]%Hr. by eapply Hheld.
Qed.

Lemma transition_lives l c c' : custody c → transition l c c' → lives l c c'.
Proof.
  intros Hc Htr. inversion Htr; subst; eauto using lives_quiet, lives_purge, lives_store,
    lives_finish, lives_take, lives_return.
Qed.

(** A copy is in exactly one place. *)
Lemma placed_unique c n p q : custody c → placed c n p → placed c n q → p = q.
Proof.
  intros [Ht Hu Ho].
  assert (Hw : ∀ t, n ∈ at_topic (shared c) t → 0 < n ≤ last_sequence (shared c)) by apply Ht.
  assert (Hwh : ∀ t i u, n ∈ at_topic (shared c) t → ¬ holder c i n u).
  { intros t i u Hn [_ Hi]%Hu. by eapply Hi. }
  assert (Hh : ∀ i u, holder c i n u → 0 < n ≤ last_sequence (shared c)).
  { intros i u [? _]%Hu. done. }
  destruct p as [|t|i t|], q as [|u|j u|]; simpl; intros Hp Hq; try done;
    try (exfalso; first [lia | apply Hw in Hp as ?; lia | apply Hw in Hq as ?; lia
      | apply Hh in Hp as ?; lia | apply Hh in Hq as ?; lia | by apply (Hwh _ _ _ Hp Hq)
      | by apply (Hwh _ _ _ Hq Hp) | by apply (proj1 (proj2 Hp) _ Hq) | by apply (proj1 (proj2 Hq) _ Hp)
      | by apply (proj2 (proj2 Hp) _ _ Hq) | by apply (proj2 (proj2 Hq) _ _ Hp)]).
  - f_equal. by eapply Ht.
  - assert (i = j) as -> by (by eapply Ho). f_equal. by eapply holder_topic.
Qed.

Lemma placed_exists c n : 0 < n → ∃ p, placed c n p.
Proof.
  intros Hn. destruct (decide (last_sequence (shared c) < n)) as [?|?]; [by exists Unissued|].
  destruct (queued_or_not (shared c) n) as [[t Ht]|Hout]; [by exists (Waiting t)|].
  destruct (decide (map_Exists (λ _ m, n ∈ dom (_outstanding m)) (members c))) as [He|Hne].
  - destruct He as (i & m & Hm & Hin). exists (HeldBy i (_topic m)), m. done.
  - exists Gone. split_and!; [lia..|done|]. intros i t (m & Hm & Hin & _).
    apply Hne. by exists i, m.
Qed.

(** ** What the code does to the copies *)

Definition held (t : T) (n : Z) (u : Topic) : Prop := n ∈ dom (_outstanding t) ∧ _topic t = u.

Lemma holder_fire c i t t' b F j n u :
  members c !! i = Some t →
  holder (mkCluster b (<[i := t']> (members c)) F) j n u ↔
    if decide (j = i) then held t' n u else holder c j n u.
Proof.
  intros Ht. unfold holder. cbn. setoid_rewrite lookup_insert. case_decide as Hd.
  - subst. rewrite decide_True by done. unfold held. naive_solver.
  - rewrite decide_False by done. done.
Qed.

Lemma holder_here c i t n u : members c !! i = Some t → holder c i n u ↔ held t n u.
Proof. intros Ht. unfold holder, held. rewrite Ht. naive_solver. Qed.

Lemma same_holders_fire c i t t' b F :
  members c !! i = Some t → (∀ n u, held t' n u ↔ held t n u) →
  same_holders c (mkCluster b (<[i := t']> (members c)) F).
Proof.
  intros Ht Hh j n u. rewrite (holder_fire _ _ _ _ _ _ _ _ _ Ht). case_decide; [subst|done].
  by rewrite (holder_here _ _ _ _ _ Ht).
Qed.

Lemma released_fire c i t t' b F n0 :
  members c !! i = Some t → (∀ n u, held t' n u ↔ held t n u ∧ n ≠ n0) →
  released i n0 c (mkCluster b (<[i := t']> (members c)) F).
Proof.
  intros Ht Hh j n u. rewrite (holder_fire _ _ _ _ _ _ _ _ _ Ht). case_decide; [subst|naive_solver].
  rewrite (holder_here _ _ _ _ _ Ht), Hh. naive_solver.
Qed.

Lemma resolve_effect d m (t : T) :
  let t' := (resolve d m t).2 in
  _outstanding t' = _outstanding t ∧ _topic t' = _topic t ∧ _handler t' = _handler t ∧
  _subscribed t' = _subscribed t ∧
  broker t' =
    match d with
    | Ack | Deferred => broker t
    | Requeue => (requeue_message (_topic t) m (broker t)).2
    | Reject => (deadLetter_message (_topic t) m (broker t)).2
    end.
Proof.
  unfold resolve. run. unfold on_broker. destruct d; try done.
  by destruct (deadLetter_message _ _ _) as [[] ?].
Qed.

Lemma held_delete (t t' : T) n0 :
  _outstanding t' = delete n0 (_outstanding t) → _topic t' = _topic t →
  ∀ n u, held t' n u ↔ held t n u ∧ n ≠ n0.
Proof. intros Ho Ht n u. unfold held. rewrite Ho, Ht, dom_delete_L. set_solver. Qed.

(** The label that answers delivery [n] of transport [i], from either place. *)
Definition answers (l : label) (i : nat) (n : Z) (d : Disposition) : Prop :=
  l = Member i (Answer n d) ∨ l = Member i (Settle n d).

Lemma resolve_transition l c i t n m d F :
  tracked (shared c) → members c !! i = Some t → _outstanding t !! n = Some m → n = sequence m →
  answers l i n d → d ≠ Deferred → room l c →
  let t' := (resolve d m (with_outstanding (delete n) (view c t))).2 in
  transition l c (mkCluster (broker t') (<[i := t']> (members c)) F).
Proof.
  intros Hc Ht Hm -> Hl Hd Hroom t'.
  destruct (resolve_effect d m (with_outstanding (delete (sequence m)) (view c t)))
    as (Ho & Htop & _ & _ & Hb). fold t' in Ho, Htop, Hb. cbn in Ho, Htop, Hb.
  assert (Hheld : holder c i (sequence m) (_topic t)).
  { apply (holder_here _ _ _ _ _ Ht). split; [by apply elem_of_dom|done]. }
  assert (Hrel := released_fire c i t t' (broker t') F (sequence m) Ht (held_delete _ _ _ Ho Htop)).
  destruct d; [| | |done].
  - apply (trans_finish _ _ _ i (sequence m) (_topic t) 0); [|done|done|..].
    + by destruct Hl as [->| ->].
    + cbn. rewrite Hb. by apply moved_refl.
    + cbn. by rewrite Hb.
    + cbn. by rewrite Hb.
  - apply (trans_finish _ _ _ i (sequence m) (_topic t) (Z.of_nat (S (enqueue_fuel (shared c)))));
      [|done|done|..].
    + by destruct Hl as [->| ->].
    + cbn. rewrite Hb. apply deadLetter_moved; [done|]. by destruct Hl as [->| ->].
    + cbn. rewrite Hb. apply deadLetter_keeps.
    + intros Hs. exfalso. apply Hs. by destruct Hl as [->| ->].
  - pose proof (requeue_at_topic (_topic t) m (shared c)) as [Hl1 Hq].
    apply (trans_return _ _ _ i (sequence m) (_topic t)); [|done|done|..].
    + by destruct Hl as [->| ->].
    + cbn. by rewrite Hb.
    + cbn. by rewrite Hb.
Qed.

(** A step whose transport keeps its deliveries and the broker as it was. *)
Lemma idle_transition l c i t t' F :
  members c !! i = Some t → broker t' = shared c → (∀ n u, held t' n u ↔ held t n u) →
  transition l c (mkCluster (broker t') (<[i := t']> (members c)) F).
Proof.
  intros Ht Hb Hh. apply trans_quiet; cbn; [by eapply same_holders_fire|by rewrite Hb..].
Qed.

Lemma held_view c (t : T) n u : held (view c t) n u ↔ held t n u.
Proof. done. Qed.

Lemma unresolved_cases (t : T) :
  member_ok t → unresolved t = [] ∧ _outstanding t = ∅ ∨
    ∃ m, unresolved t = [m] ∧ _outstanding t = {[sequence m := m]}.
Proof.
  intros (Hsize & Hkey & _).
  destruct (decide (_outstanding t = ∅)) as [Ho|Ho]; [left; by split; [apply unresolved_nil|]|right].
  destruct (map_choose _ Ho) as (k & m & Hm). pose proof (Hkey k m Hm) as ->. exists m.
  assert (Hdel : delete (sequence m) (_outstanding t) = ∅).
  { apply map_size_empty_iff. rewrite map_size_delete_Some by done. lia. }
  assert (Hone : _outstanding t = {[sequence m := m]})
    by (by rewrite <- (insert_delete_id _ _ _ Hm), Hdel).
  split; [by apply unresolved_one|done].
Qed.

Lemma take_nothing topic b :
  (∀ m, (take_message topic b).1 ≠ Ret (Some m)) → (take_message topic b).2 = b.
Proof.
  intros Hno. rewrite take_message_run in *. destruct (queue_at _ _) as [|m q]; [done|].
  by destruct (Hno m).
Qed.

(** One transport's part of each step, on the transport as it sees the broker. *)
Section one_step.
Context (c : Cluster) (i : nat) (t : T).
Hypothesis (Hc : sane c) (Ht : members c !! i = Some t).

Local Lemma quiet_effect l t' F :
  broker t' = shared c → (∀ n u, held t' n u ↔ held t n u) →
  transition l c (mkCluster (broker t') (<[i := t']> (members c)) F).
Proof. apply idle_transition; done. Qed.

Lemma send_transition topic payload options F :
  room (Member i (Send topic payload options)) c →
  let t' := (send topic payload options (view c t)).2 in
  transition (Member i (Send topic payload options)) c
    (mkCluster (broker t') (<[i := t']> (members c)) F).
Proof.
  intros Hroom. unfold send, require_connected. run.
  destruct (negb _); [by apply quiet_effect|].
  destruct (send_durable options); [by apply quiet_effect|].
  unfold on_broker. cbn [view with_broker broker].
  pose proof (publish_moved topic payload (send_route options) (shared c)
    (custody_tracked _ (sane_custody _ Hc)) Hroom) as Hm.
  pose proof (publish_keeps topic payload (send_route options) (shared c)) as Hk.
  destruct (publish topic payload (send_route options) (shared c)) as [[r|e|] b];
    cbn [snd] in *; eapply (trans_store _ _ _ (publish_cost (shared c) topic)); try done;
    by eapply same_holders_fire.
Qed.

Lemma subscribe_transition topic h F :
  let t' := (subscribe topic (Some h) 0 (view c t)).2 in
  transition (Member i (Subscribe topic h)) c (mkCluster (broker t') (<[i := t']> (members c)) F).
Proof.
  unfold subscribe, require_connected. run.
  destruct (negb _); [by apply quiet_effect|]. unfold id.
  rewrite bool_decide_false by done. cbn.
  destruct (_subscribed t) eqn:Hs; [by apply quiet_effect|].
  destruct (sane_members _ Hc i t Ht) as (_ & _ & Hsub & _). rewrite Hs in Hsub.
  assert (Ho : _outstanding t = ∅) by (apply dec_stable; intros ?%Hsub; done).
  apply quiet_effect; [done|]. intros n u. unfold held. cbn. rewrite Ho. set_solver.
Qed.

Lemma begin_transition fs F :
  let t' := (begin (view c t) fs).1 in
  transition (Member i Begin) c (mkCluster (broker t') (<[i := t']> (members c)) F).
Proof.
  cbn zeta. unfold begin. destruct (_ || _) eqn:Hguard; [by apply quiet_effect|].
  apply orb_false_iff in Hguard as [_ Ho]. apply negb_false_iff, bool_decide_eq_true in Ho.
  unfold on_broker. cbn [view with_broker broker _topic].
  pose proof (take_nothing (_topic t) (shared c)) as Hsame.
  destruct (take_message (_topic t) (shared c)) as [[[m|]|e|] b] eqn:Htake.
  2-4: apply quiet_effect; [|done]; by apply Hsame.
  apply take_at_topic in Htake as (Hl & Hq & Hrest).
  apply (trans_take _ _ _ i (sequence m) (_topic t)); [done| |done..].
  intros j n u. rewrite (holder_fire _ _ _ _ _ _ _ _ _ Ht).
  assert (Hnone : ∀ n u, ¬ holder c i n u).
  { intros n' u' Hh. apply (holder_here _ _ _ _ _ Ht) in Hh as [Hin _]. cbn in Ho.
    rewrite Ho, dom_empty_L in Hin. by apply not_elem_of_empty in Hin. }
  case_decide as Hj; [subst j|naive_solver]. unfold held. cbn.
  rewrite dom_singleton_L, elem_of_singleton. naive_solver.
Qed.

Lemma settle_transition n d F :
  room (Member i (Settle n d)) c →
  let t' := (settle n d (view c t)).2 in
  transition (Member i (Settle n d)) c (mkCluster (broker t') (<[i := t']> (members c)) F).
Proof.
  intros Hroom. unfold settle, require_connected. run.
  destruct (negb _); [by apply quiet_effect|].
  destruct (bool_decide (d = Deferred)) eqn:Hd; [by apply quiet_effect|].
  apply bool_decide_eq_false in Hd.
  destruct (_outstanding _ !! n) as [m|] eqn:Hm; [|by apply quiet_effect].
  apply (resolve_transition _ c i t n m d); try done; [apply Hc| |by right].
  by apply (sane_members _ Hc i t Ht).
Qed.

Lemma answer_transition m d F :
  _outstanding t !! sequence m = Some m → room (Member i (Answer (sequence m) d)) c →
  let t' := answer m d (view c t) in
  transition (Member i (Answer (sequence m) d)) c (mkCluster (broker t') (<[i := t']> (members c)) F).
Proof.
  intros Hm Hroom. cbn zeta. unfold answer.
  destruct (decide (d = Deferred)) as [Hd|Hd]; [by apply quiet_effect|].
  apply (resolve_transition _ c i t (sequence m) m d); try done; [apply Hc|by left].
Qed.

Lemma close_transition F :
  let t' := (close 0 (view c t)).2 in
  transition (Member i Close) c (mkCluster (broker t') (<[i := t']> (members c)) F).
Proof.
  unfold close. run. rewrite returnOutstanding_run. cbn zeta.
  destruct (unresolved_cases (view c t) (sane_members _ Hc i t Ht)) as [[-> Ho]|(m & -> & Hone)];
    [change (_outstanding t = ∅) in Ho|change (_outstanding t = {[sequence m := m]}) in Hone].
  - apply quiet_effect; [done|]. intros n u. unfold held. cbn. rewrite Ho. set_solver.
  - pose proof (requeue_at_topic (_topic t) m (shared c)) as [Hl Hq].
    apply (trans_return _ _ _ i (sequence m) (_topic t)).
    + done.
    + apply (holder_here _ _ _ _ _ Ht). split; [|done]. rewrite Hone. set_solver.
    + apply (released_fire _ _ _ _ _ _ _ Ht). intros n u. unfold held. cbn.
      rewrite Hone, dom_singleton_L. set_solver.
    + exact Hl.
    + exact Hq.
Qed.
End one_step.

(** The code implements the automaton: whatever label fires, from a sane state
    and with sequence numbers to spare, what it does to the copies is one of the
    transitions. *)
Lemma fire_transition l c : sane c → allowed l → room l c → transition l c (fire l c).
Proof.
  intros Hc Hl Hroom. destruct l as [op|i a]; cbn [fire].
  - destruct op as [topic opts|topic text over|?|? ?|? ?|topic]; try done; cbn [perform].
    + destruct (ensureTopic_at_topic topic opts (shared c)). by apply trans_quiet.
    + eapply (trans_store _ _ _ (publish_cost (shared c) topic)); [done|done|..].
      * apply publish_moved; [apply Hc|done].
      * apply publish_keeps.
    + destruct (purge_at_topic topic (shared c)). by eapply trans_purge.
  - destruct (members c !! i) as [t|] eqn:Ht; [|by apply trans_quiet].
    destruct a as [|topic h|topic payload options| |n d|n|n d|]; cbn [effect].
    + by apply (idle_transition _ _ _ t).
    + by apply subscribe_transition.
    + by apply send_transition.
    + pose proof (begin_transition c i t Ht (running c i)) as Hb.
      destruct (begin _ _) as [t' fs]. apply Hb.
    + pose proof (sane_frames _ Hc i t Ht) as Hfs. destruct (running c i) as [|m [|]]; try done;
        cbn [return_from]; [by apply idle_transition with t|].
      destruct (decide (sequence m = n)) as [<-|]; [|by apply idle_transition with t].
      by apply answer_transition.
    + destruct (running c i) as [|m fs]; cbn [return_from]; [by apply idle_transition with t|].
      by case_decide; apply idle_transition with t.
    + by apply settle_transition.
    + by apply close_transition.
Qed.

(** *** The transports' own records *)

Lemma size_delete_le (m : gmap Z Held) n : (size (delete n m) ≤ size m)%nat.
Proof.
  destruct (m !! n) eqn:E; [rewrite map_size_delete_Some by done; lia|by rewrite delete_id].
Qed.

Lemma member_ok_delete (t t' : T) n :
  _outstanding t' = delete n (_outstanding t) → _handler t' = _handler t →
  _subscribed t' = _subscribed t → member_ok t → member_ok t'.
Proof.
  intros Ho Hh Hs (H1 & H2 & H3 & H4). unfold member_ok. rewrite Ho, Hh, Hs. split_and!; [..|done].
  - pose proof (size_delete_le (_outstanding t) n). lia.
  - intros k m [_ Hk]%lookup_delete_Some. by apply H2.
  - intros Hne. apply H3. intros He. apply Hne. by rewrite He, delete_empty.
Qed.

Lemma resolve_ok d m n (t : T) :
  member_ok t → member_ok (resolve d m (with_outstanding (delete n) t)).2.
Proof.
  destruct (resolve_effect d m (with_outstanding (delete n) t)) as (Ho & _ & Hh & Hs & _).
  by apply (member_ok_delete t _ n).
Qed.

Lemma effect_ok a (t : T) fs : member_ok t → member_ok (effect a t fs).1.
Proof.
  intros Hok. destruct a as [|topic h|topic payload options| |n d|n|n d|]; cbn [effect].
  - exact Hok.
  - unfold subscribe, require_connected. run. destruct (negb _); [done|]. unfold id.
    rewrite bool_decide_false by done. cbn. destruct (_subscribed t); [done|].
    destruct Hok as (? & ? & _). done.
  - unfold send, require_connected. run. destruct (negb _); [done|].
    destruct (send_durable options); [done|]. unfold on_broker.
    by destruct (publish _ _ _ _) as [[r|e|] b].
  - unfold begin. destruct (_ || _) eqn:Hg; [done|].
    apply orb_false_iff in Hg as [[_ Hh]%orb_false_iff _]. apply bool_decide_eq_false in Hh.
    unfold on_broker. destruct (take_message _ _) as [[[m|]|e|] b]; [|done..].
    destruct Hok as (_ & _ & _ & Hsub). unfold member_ok. cbn.
    rewrite map_size_singleton. split_and!; [done| |auto|done].
    by intros k m' [<- <-]%lookup_singleton_Some.
  - destruct fs as [|m fs]; cbn [return_from]; [done|]. case_decide; [|done].
    cbn [fst]. unfold answer. case_decide; [done|]. by apply resolve_ok.
  - destruct fs as [|m fs]; cbn [return_from]; [done|]. by case_decide.
  - unfold settle, require_connected. run. destruct (negb _); [done|].
    destruct (bool_decide _); [done|]. destruct (_outstanding t !! n); [|done].
    by apply resolve_ok.
  - unfold close. run. rewrite returnOutstanding_run. unfold member_ok. cbn.
    rewrite map_size_empty. split_and!; [lia| |done..]. by intros k m; rewrite lookup_empty.
Qed.

Lemma view_ok c (t : T) : member_ok t → member_ok (view c t).
Proof. done. Qed.

(** Only the orderly keep the frames in order. *)
Lemma effect_frames a c i (t : T) :
  orderly c (Member i a) → frames_ok t (running c i) →
  let '(t', fs) := effect a (view c t) (running c i) in frames_ok t' fs.
Proof.
  intros Horder Hfs. destruct a as [|topic h|topic payload options| |n d|n|n d|]; cbn [effect].
  - exact Hfs.
  - unfold subscribe, require_connected. run. destruct (negb _); [done|]. unfold id.
    rewrite bool_decide_false by done. cbn. by destruct (_subscribed t).
  - unfold send, require_connected. run. destruct (negb _); [done|].
    destruct (send_durable options); [done|]. unfold on_broker.
    by destruct (publish _ _ _ _) as [[r|e|] b].
  - unfold begin. destruct (_ || _) eqn:Hg; [done|].
    apply orb_false_iff in Hg as [_ Ho]. apply negb_false_iff, bool_decide_eq_true in Ho.
    unfold on_broker. cbn in Ho. assert (Hnone : running c i = []).
    { destruct (running c i) as [|m [|]]; [done| |done]. cbn in Hfs. by rewrite Ho, lookup_empty in Hfs. }
    rewrite Hnone in *. destruct (take_message _ _) as [[[m|]|e|] b]; [|done..].
    cbn. by rewrite lookup_singleton_eq.
  - destruct (running c i) as [|m [|]]; cbn [return_from]; [done| |done]. by case_decide.
  - destruct (running c i) as [|m [|]]; cbn [return_from]; [done| |done]. by case_decide.
  - cbn in Horder. destruct (running c i) as [|m [|]]; [done| |done].
    assert (Hn : n ≠ sequence m) by (intros ->; apply Horder; cbn; by left).
    unfold settle, require_connected. run. destruct (negb _); [done|].
    destruct (bool_decide _); [done|]. destruct (_outstanding _ !! n) as [m'|]; [|done].
    destruct (resolve_effect d m' (with_outstanding (delete n) (view c t))) as (Ho & _).
    cbn [throw_if]. run. cbn [frames_ok]. rewrite Ho. cbn. by rewrite lookup_delete_ne.
  - cbn in Horder. by rewrite Horder.
Qed.

Lemma fire_members l c i t :
  members (fire l c) !! i = Some t → ∃ t0, members c !! i = Some t0 ∧
    (t = t0 ∨ ∃ a, l = Member i a ∧ t = (effect a (view c t0) (running c i)).1).
Proof.
  destruct l as [op|j a]; cbn [fire]; [by eauto|].
  destruct (members c !! j) as [tj|] eqn:Hj; [|by eauto].
  destruct (effect a (view c tj) (running c j)) as [t' fs] eqn:He. cbn [members].
  rewrite lookup_insert. case_decide; [subst|by eauto]. intros [= <-].
  exists tj. split; [done|]. right. exists a. by rewrite He.
Qed.

Lemma fire_member_ok l c :
  (∀ i t, members c !! i = Some t → member_ok t) →
  ∀ i t, members (fire l c) !! i = Some t → member_ok t.
Proof.
  intros Hok i t (t0 & Ht0 & [->|(a & _ & ->)])%fire_members; [by eapply Hok|].
  apply effect_ok, view_ok. by eapply Hok.
Qed.

Lemma fire_sane l c : sane c → orderly c l → allowed l → room l c → sane (fire l c).
Proof.
  intros Hc Horder Hl Hroom. split.
  - destruct (transition_lives l c (fire l c)); [apply Hc|by apply fire_transition|done].
  - apply fire_member_ok, Hc.
  - destruct l as [op|j a]; cbn [fire]; [apply (sane_frames _ Hc)|].
    destruct (members c !! j) as [tj|] eqn:Hj; [|apply (sane_frames _ Hc)].
    pose proof (effect_frames a c j tj Horder (sane_frames _ Hc j tj Hj)) as Hf.
    destruct (effect a (view c tj) (running c j)) as [t' fs]. intros i t. cbn [members].
    unfold running. cbn [frames]. rewrite !lookup_insert. case_decide; [by intros [= <-]|].
    apply (sane_frames _ Hc).
Qed.

Lemma initial_sane c : initial c → sane c.
Proof.
  intros (Hb & Hf & Hm).
  assert (Hno : ∀ i n t, ¬ holder c i n t).
  { intros i n t (m & Hi & Hin & _). destruct (Hm i m Hi) as [b ->]. cbn in Hin.
    rewrite dom_empty_L in Hin. by apply not_elem_of_empty in Hin. }
  assert (Hq : ∀ t, at_topic (shared c) t = []).
  { intros t. rewrite Hb. unfold at_topic, state_of. cbn. by rewrite lookup_empty. }
  split; [split; [split|..]|..].
  - by rewrite Hb.
  - intros n t. rewrite Hq. by intros ?%not_elem_of_nil.
  - intros t. rewrite Hq. constructor.
  - intros n t u. rewrite Hq. by intros ?%not_elem_of_nil.
  - intros i n t Hi. by apply Hno in Hi.
  - intros i j n t u Hi. by apply Hno in Hi.
  - intros i t Hi. destruct (Hm i t Hi) as [b ->]. unfold member_ok. cbn.
    rewrite map_size_empty. split_and!; [lia| |done..]. by intros k m; rewrite lookup_empty.
  - intros i t _. unfold running. by rewrite Hf, lookup_empty.
Qed.

Lemma steps_sane c c' : steps orderly c c' → sane c → sane c'.
Proof. induction 1; auto using fire_sane. Qed.

(** One step moves a copy from where it is to where it is along the automaton. *)
Lemma fire_lifecycle l c n p q :
  sane c → allowed l → room l c → placed c n p → placed (fire l c) n q → lifecycle l c n p q.
Proof.
  intros Hc Hl Hroom Hp Hq.
  destruct (transition_lives l c (fire l c)) as [Hc' Hlife];
    [apply Hc|by apply fire_transition|].
  destruct (Hlife n p Hp) as (p' & Hp' & Hcycle). by rewrite (placed_unique _ _ _ _ Hc' Hq Hp').
Qed.

Lemma size_one (m : gmap Z Held) i j :
  (size m ≤ 1)%nat → i ∈ dom m → j ∈ dom m → i = j.
Proof.
  intros Hsize [v Hv]%elem_of_dom [w Hw]%elem_of_dom. apply dec_stable. intros Hne.
  assert (Hd : delete i m = ∅).
  { apply map_size_empty_iff. rewrite map_size_delete_Some by eauto. lia. }
  assert (Hj : delete i m !! j = Some w) by (by rewrite lookup_delete_ne).
  by rewrite Hd, lookup_empty in Hj.
Qed.

Lemma resolve_declared d m n (t : T) :
  declared_kept (broker t) (broker (resolve d m (with_outstanding (delete n) t)).2).
Proof.
  destruct (resolve_effect d m (with_outstanding (delete n) t)) as (_ & _ & _ & _ & ->).
  destruct d; [done|apply (perform_declared (OpDeadLetter _ _))
    |apply (perform_declared (OpRequeue _ _))|done].
Qed.

Lemma effect_declared a (t : T) fs : declared_kept (broker t) (broker (effect a t fs).1).
Proof.
  destruct a as [|topic h|topic payload options| |n d|n|n d|]; cbn [effect]; [done|..].
  - unfold subscribe, require_connected. run. destruct (negb _); [done|]. unfold id.
    rewrite bool_decide_false by done. cbn. by destruct (_subscribed t).
  - unfold send, require_connected. run. destruct (negb _); [done|].
    destruct (send_durable options); [done|]. unfold on_broker.
    pose proof (publish_declared topic payload (send_route options) (broker t)) as Hp.
    by destruct (publish _ _ _ _) as [[r|e|] b].
  - unfold begin. destruct (_ || _); [done|]. unfold on_broker.
    pose proof (perform_declared (OpTake (_topic t)) (broker t)) as Hp. cbn in Hp.
    by destruct (take_message _ _) as [[[m|]|e|] b].
  - destruct fs as [|m fs]; cbn [return_from]; [done|]. case_decide; [|done].
    cbn [fst]. unfold answer. case_decide; [done|apply resolve_declared].
  - destruct fs as [|m fs]; cbn [return_from]; [done|]. by case_decide.
  - unfold settle, require_connected. run. destruct (negb _); [done|].
    destruct (bool_decide _); [done|]. destruct (_outstanding t !! n); [|done].
    apply resolve_declared.
  - unfold close. run. rewrite returnOutstanding_run. apply requeue_fold_declared.
Qed.

Lemma fire_declared l c : declared_kept (shared c) (shared (fire l c)).
Proof.
  destruct l as [op|i a]; cbn; [apply perform_declared|].
  destruct (members c !! i) as [t|]; [|done].
  pose proof (effect_declared a (view c t) (running c i)) as Hd.
  by destruct (effect a (view c t) (running c i)).
Qed.

(** ** Properties *)

(** C4. The refinement: whatever the broker and the transports do in one step, to
    every message copy there ever was, is a move of the copy's automaton, as long as
    no handler settles the delivery it was called for or closes the transport that
    called it.  Before and after, the copy is in exactly one place -- not issued
    yet, in one queue, in one transport's hands, or gone -- and it changes place
    only as [lifecycle] allows. *)
Theorem copies_follow_lifecycle l c n :
  sane c → orderly c l → allowed l → room l c → 0 < n →
  sane (fire l c) ∧
  ∃ p q, placed c n p ∧ placed (fire l c) n q ∧ lifecycle l c n p q ∧
    (∀ p', placed c n p' → p' = p) ∧ (∀ q', placed (fire l c) n q' → q' = q).
Proof.
  intros Hc Ho Hl Hroom Hn. pose proof (fire_sane l c Hc Ho Hl Hroom) as Hc'. split; [done|].
  destruct (placed_exists c n Hn) as [p Hp]. destruct (placed_exists (fire l c) n Hn) as [q Hq].
  exists p, q. split_and!; [done|done|by eapply fire_lifecycle|..].
  - intros p' Hp'. by eapply placed_unique; [apply Hc|..].
  - intros q' Hq'. by eapply placed_unique; [apply Hc'|..].
Qed.

(** C7. Competing consumers never share work.  Whatever any number of users and
    transports over one broker have done since the broker was created, except for a
    handler that settles its own delivery or closes the transport calling it, every
    copy is in at most one queue, at most once, or in the hands of at most one
    transport, never both; and each transport holds at most one. *)
Theorem exclusive_custody c0 c :
  initial c0 → steps orderly c0 c →
  (∀ t, NoDup (at_topic (shared c) t)) ∧
  (∀ n t u, n ∈ at_topic (shared c) t → n ∈ at_topic (shared c) u → t = u) ∧
  (∀ n i t, holder c i n t → (∀ u, n ∉ at_topic (shared c) u) ∧ ∀ j u, holder c j n u → j = i) ∧
  (∀ i m k t u, holder c i m t → holder c i k u → m = k).
Proof.
  intros H0 Hs. apply steps_sane in Hs; [|by apply initial_sane].
  destruct Hs as [[Ht Hu Ho] Hm _]. split_and!; [apply Ht|apply Ht|..].
  - intros n i t Hi. split; [by apply (Hu i n t)|]. intros j u Hj. by eapply Ho.
  - intros i m k t u (x & Hx & Hin & _) (y & Hy & Hin' & _).
    assert (y = x) as -> by congruence. eapply size_one; [apply (Hm i x Hx)|done..].
Qed.

Lemma gone_stays c c' n : steps orderly c c' → sane c → placed c n Gone → placed c' n Gone.
Proof.
  induction 1 as [c|l c c' Ho Hl Hroom _ IH]; intros Hc Hp; [done|].
  apply IH; [by apply fire_sane|].
  assert (Hn : 0 < n) by (destruct Hp; lia).
  destruct (placed_exists (fire l c) n Hn) as [q Hq].
  pose proof (fire_lifecycle l c n Gone q Hc Hl Hroom Hp Hq) as Hcycle.
  by inversion Hcycle; subst.
Qed.

(** C6. Settled is settled.  Once [settle] acknowledged or rejected a delivery whose
    handler has returned -- whether or not the rejection could store its evidence --
    that copy is in no queue and no transport holds it, now or after anything that
    any user does next short of a handler settling its own delivery or closing the
    transport that calls it; the evidence a rejection keeps is a new copy. *)
Theorem settled_is_final c c' i t n d :
  sane c → members c !! i = Some t → _connected t = true → n ∈ dom (_outstanding t) →
  n ∉ sequence <$> running c i →
  d = Ack ∨ d = Reject → room (Member i (Settle n d)) c →
  steps orderly (fire (Member i (Settle n d)) c) c' →
  (∀ u, n ∉ at_topic (shared c') u) ∧ ∀ j u, ¬ holder c' j n u.
Proof.
  intros Hc Ht Hconn Hn Hrun Hd Hroom Hs.
  assert (Hl : allowed (Member i (Settle n d))) by done.
  assert (Hheld : placed c n (HeldBy i (_topic t))) by (by exists t).
  assert (Hgone : placed (fire (Member i (Settle n d)) c) n Gone).
  { destruct (transition_lives _ _ _ (sane_custody _ Hc) (fire_transition _ _ Hc Hl Hroom))
      as [Hc' Hlife].
    destruct (Hlife n _ Hheld) as (q & Hq & Hcycle).
    assert (Hno : ¬ holder (fire (Member i (Settle n d)) c) i n (_topic t)).
    { cbn [fire effect]. rewrite Ht, (holder_fire _ _ _ _ _ _ _ _ _ Ht), decide_True by done.
      unfold settle, require_connected. run. cbn. rewrite Hconn. cbn.
      rewrite bool_decide_false by (by destruct Hd; subst). cbn.
      apply elem_of_dom in Hn as [m Hm]. rewrite Hm.
      destruct (resolve_effect d m (with_outstanding (delete n) (view c t))) as (Ho & _).
      intros [Hin _]. rewrite Ho in Hin. cbn in Hin. rewrite dom_delete_L in Hin. set_solver. }
    inversion Hcycle; subst; [done|done|]. exfalso.
    match goal with Hr : returns _ _ _ |- _ => cbn in Hr; by destruct Hd; subst end. }
  apply (gone_stays _ _ _ Hs) in Hgone; [|by apply fire_sane].
  destruct Hgone as (_ & Hout & Hno). done.
Qed.

Lemma holder_stays c i t t' b F j n u :
  members c !! i = Some t → (held t n u → held t' n u) →
  holder c j n u → holder (mkCluster b (<[i := t']> (members c)) F) j n u.
Proof.
  intros Ht Hh Hj. rewrite (holder_fire _ _ _ _ _ _ _ _ _ Ht).
  destruct (decide (j = i)) as [->|]; [|done]. apply Hh. by apply (holder_here _ _ _ _ _ Ht).
Qed.

(** A copy in the queue of [t] or in the hands of a transport that took it there. *)
Definition kept (t : Topic) (n : Z) (c : Cluster) : Prop :=
  n ∈ at_topic (shared c) t ∨ ∃ i, holder c i n t.

Lemma kept_others t n b c i t0 t' F :
  members c !! i = Some t0 → keeps (shared c) b → lossless (shared c) t →
  (held t0 n t → held t' n t) → kept t n c → kept t n (mkCluster b (<[i := t']> (members c)) F).
Proof.
  intros Ht0 Hk Hl Hh [Hin|[j Hj]].
  - left. destruct (Hk t Hl) as [_ Hp]. by eapply elem_of_prefix.
  - right. exists j. by apply (holder_stays _ _ _ _ _ _ _ _ _ Ht0).
Qed.

(** Resolving any message under the number of its entry loses no copy but one that is
    acknowledged or rejected, whoever put that message there. *)
Lemma kept_resolve t n c i t0 d m F :
  members c !! i = Some t0 → lossless (shared c) t → ((d = Ack ∨ d = Reject) → sequence m ≠ n) →
  kept t n c →
  let t' := (resolve d m (with_outstanding (delete (sequence m)) (view c t0))).2 in
  d ≠ Deferred → kept t n (mkCluster (broker t') (<[i := t']> (members c)) F).
Proof.
  intros Ht0 Hl Hn Hkept t' Hd.
  destruct (resolve_effect d m (with_outstanding (delete (sequence m)) (view c t0)))
    as (Ho & Htop & _ & _ & Hb). fold t' in Ho, Htop, Hb. cbn in Ho, Htop, Hb.
  assert (Hheld : sequence m ≠ n → held t0 n t → held t' n t).
  { intros Hne [Hin Htop0]. unfold held. rewrite Ho, Htop, dom_delete_L. split; [set_solver|done]. }
  destruct d; [| | |done].
  - apply (kept_others t n _ c i t0); [done|by rewrite Hb|done|auto|done].
  - apply (kept_others t n _ c i t0); [done|rewrite Hb; apply deadLetter_keeps|done|auto|done].
  - pose proof (requeue_at_topic (_topic t0) m (shared c)) as [_ Hq]. rewrite <- Hb in Hq.
    destruct Hkept as [Hin|[j Hj]].
    { left. cbn. rewrite Hq. case_decide; [by right|done]. }
    destruct (decide (j = i ∧ sequence m = n)) as [[-> <-]|Hne].
    + apply (holder_here _ _ _ _ _ Ht0) in Hj as [_ <-]. left. cbn. rewrite Hq, decide_True by done.
      by left.
    + right. exists j. rewrite (holder_fire _ _ _ _ _ _ _ _ _ Ht0).
      destruct (decide (j = i)) as [->|]; [|done].
      apply Hheld; [naive_solver|]. by apply (holder_here _ _ _ _ _ Ht0).
Qed.

Lemma kept_same t n c c' :
  (∀ i, holder c i n t → holder c' i n t) → (∀ u, at_topic (shared c') u = at_topic (shared c) u) →
  kept t n c → kept t n c'.
Proof. intros Hh Hq [Hin|[i Hi]]; [left; by rewrite Hq|right; eauto]. Qed.

Lemma kept_begin t n c i t0 F :
  members c !! i = Some t0 → kept t n c →
  let t' := (begin (view c t0) (running c i)).1 in
  kept t n (mkCluster (broker t') (<[i := t']> (members c)) F).
Proof.
  intros Ht0 Hkept. cbn zeta. unfold begin. destruct (_ || _) eqn:Hg.
  { apply (kept_same t n c); [|done..]. intros j. by apply (holder_stays _ _ t0). }
  apply orb_false_iff in Hg as [_ Ho]. apply negb_false_iff, bool_decide_eq_true in Ho. cbn in Ho.
  assert (Hother : ∀ j t', holder c j n t → holder (mkCluster (broker t') (<[i := t']> (members c)) F) j n t).
  { intros j t'. apply (holder_stays _ _ _ _ _ _ _ _ _ Ht0). intros [Hin _].
    rewrite Ho in Hin. set_solver. }
  unfold on_broker. cbn [view with_broker broker _topic].
  pose proof (take_nothing (_topic t0) (shared c)) as Hsame.
  destruct (take_message (_topic t0) (shared c)) as [[[m|]|e|] b] eqn:Htake.
  2-4: apply (kept_same t n c); [by intros; apply Hother| |done];
    intros u; cbn; by rewrite <- Hsame.
  apply take_at_topic in Htake as (_ & Hq & Hrest).
  destruct Hkept as [Hin|[j Hj]]; [|right; exists j; by apply Hother].
  destruct (decide (t = _topic t0)) as [->|Hne]; [|left; cbn; by rewrite Hrest].
  rewrite Hq in Hin. apply elem_of_cons in Hin as [->|Hin]; [|by left].
  right. exists i. rewrite (holder_fire _ _ _ _ _ _ _ _ _ Ht0), decide_True by done.
  unfold held. cbn. by rewrite dom_singleton_L, elem_of_singleton.
Qed.

Lemma kept_close t n c i t0 F :
  members c !! i = Some t0 → member_ok t0 → kept t n c →
  let t' := (close 0 (view c t0)).2 in
  kept t n (mkCluster (broker t') (<[i := t']> (members c)) F).
Proof.
  intros Ht0 Hok Hkept. cbn zeta. unfold close. run. rewrite returnOutstanding_run.
  assert (Hother : ∀ j t', j ≠ i → holder c j n t →
    holder (mkCluster (broker t') (<[i := t']> (members c)) F) j n t).
  { intros j t' Hne Hj. by rewrite (holder_fire _ _ _ _ _ _ _ _ _ Ht0), decide_False by done. }
  destruct (unresolved_cases (view c t0) Hok) as [[-> Ho]|(m & -> & Hone)];
    [change (_outstanding t0 = ∅) in Ho|change (_outstanding t0 = {[sequence m := m]}) in Hone].
  - apply (kept_same t n c); [|done..]. intros j Hj. apply Hother; [|done]. intros ->.
    apply (holder_here _ _ _ _ _ Ht0) in Hj as [Hin _]. rewrite Ho in Hin. set_solver.
  - change (reverse [m]) with [m]. cbn [foldl snd].
    pose proof (requeue_at_topic (_topic t0) m (shared c)) as [_ Hq].
    destruct Hkept as [Hin|[j Hj]].
    { left. cbn. rewrite Hq. case_decide; [by right|done]. }
    destruct (decide (j = i)) as [->|Hne]; [|right; exists j; by apply Hother].
    apply (holder_here _ _ _ _ _ Ht0) in Hj as [Hin <-]. rewrite Hone, dom_singleton_L in Hin.
    apply elem_of_singleton in Hin as ->. left. cbn. rewrite Hq, decide_True by done. by left.
Qed.

Lemma kept_member a c i t0 t n :
  members c !! i = Some t0 → member_ok t0 → lossless (shared c) t →
  ¬ finishes (Member i a) i n → kept t n c → kept t n (fire (Member i a) c).
Proof.
  intros Ht0 Hok Hl Hfin Hkept. cbn [fire]. rewrite Ht0.
  assert (Hidle : ∀ (t' : T) F, broker t' = shared c → (held t0 n t → held t' n t) →
    kept t n (mkCluster (broker t') (<[i := t']> (members c)) F)).
  { intros t' F Hb Hh. apply (kept_others t n _ c i t0); [done|by rewrite Hb|done..]. }
  destruct a as [|topic h|topic payload options| |k d|k|k d|]; cbn [effect].
  - by apply Hidle.
  - unfold subscribe, require_connected. run. destruct (negb _); [by apply Hidle|]. unfold id.
    rewrite bool_decide_false by done. cbn. destruct (_subscribed t0) eqn:Hs; [by apply Hidle|].
    apply Hidle; [done|]. intros [Hin _]. destruct Hok as (_ & _ & Hsub & _). rewrite Hs in Hsub.
    assert (Ho : _outstanding t0 = ∅) by (apply dec_stable; intros ?%Hsub; done).
    rewrite Ho in Hin. set_solver.
  - unfold send, require_connected. run. destruct (negb _); [by apply Hidle|].
    destruct (send_durable options); [by apply Hidle|]. unfold on_broker. cbn [view with_broker broker].
    pose proof (publish_keeps topic payload (send_route options) (shared c)) as Hk.
    destruct (publish _ _ _ _) as [[r|e|] b]; cbn [snd] in *; by apply (kept_others t n _ c i t0).
  - pose proof (kept_begin t n c i t0) as Hb. cbn zeta in Hb.
    destruct (begin _ _) as [t' fs]. by apply Hb.
  - destruct (running c i) as [|m fs]; cbn [return_from]; [by apply Hidle|].
    destruct (decide (sequence m = k)) as [<-|]; [|by apply Hidle]. unfold answer.
    destruct (decide (d = Deferred)); [by apply Hidle|].
    apply kept_resolve; try done. intros Hd Heq. apply Hfin. by destruct Hd as [->| ->].
  - destruct (running c i) as [|m fs]; cbn [return_from]; [by apply Hidle|].
    by case_decide; apply Hidle.
  - unfold settle, require_connected. run. destruct (negb _); [by apply Hidle|].
    destruct (bool_decide (d = Deferred)) eqn:Hd; [by apply Hidle|].
    apply bool_decide_eq_false in Hd. cbn [throw_if]. run.
    destruct (_outstanding _ !! k) as [m|] eqn:Hm; [|by apply Hidle]. cbn in Hm.
    destruct Hok as (_ & Hkey & _). pose proof (Hkey k m Hm) as ->.
    apply kept_resolve; try done. intros Hd' Heq. apply Hfin. by destruct Hd' as [->| ->].
  - by apply kept_close.
Qed.

Lemma fire_kept l c t n :
  (∀ i t0, members c !! i = Some t0 → member_ok t0) → allowed l → lossless (shared c) t →
  l ≠ Outside (OpPurge t) → (∀ i, ¬ finishes l i n) → kept t n c → kept t n (fire l c).
Proof.
  intros Hok Hallow Hl Hpurge Hfin Hkept. destruct l as [op|i a].
  - destruct Hkept as [Hin|?]; [left|by right]. cbn [fire shared].
    destruct op as [topic opts|topic text over|?|? ?|? ?|topic]; try done; cbn [perform].
    + destruct (ensureTopic_at_topic topic opts (shared c)) as [_ Hq]. by rewrite Hq.
    + destruct (publish_keeps topic text over (shared c) t Hl) as [_ Hp]. by eapply elem_of_prefix.
    + destruct (purge_at_topic topic (shared c)) as [_ Hq].
      rewrite Hq, decide_False; [done|]. by intros ->.
  - destruct (members c !! i) as [t0|] eqn:Ht0; [|cbn [fire]; by rewrite Ht0].
    by apply (kept_member a c i t0); [|eapply Hok| | |].
Qed.

(** C5. Nothing is lost in between.  A copy stored in a destination that is not a
    bounded drop-head one stays in that destination's queue or in the hands of a
    transport that took it from there, through publishing, competing consumers,
    requeues, crashes and closes -- handlers that settle or close under their own
    delivery included -- for as long as nobody acknowledges or rejects it and the
    destination is not purged. *)
Theorem accepted_is_kept P c c' n t st :
  sane c → topics (shared c) !! t = Some st →
  ¬ (maxLength (options st) > 0 ∧ overflow (options st) = DropHead) →
  (∀ c0 l, P c0 l → l ≠ Outside (OpPurge t) ∧ ∀ i, ¬ finishes l i n) →
  placed c n (Waiting t) ∨ (∃ i, placed c n (HeldBy i t)) →
  steps P c c' →
  placed c' n (Waiting t) ∨ ∃ i, placed c' n (HeldBy i t).
Proof.
  intros [_ Hok _] Hst Hsafe HP Hp Hs. revert st Hok Hst Hsafe Hp.
  induction Hs as [c|l c c' Hl Hallow Hroom _ IH]; intros st Hok Hst Hsafe Hp; [done|].
  destruct (declared_options _ _ _ _ (fire_declared l c) Hst) as (st' & Hst' & Ho).
  destruct (HP c l Hl) as [Hpurge Hfin].
  apply (IH st'); [by apply fire_member_ok|done|by rewrite Ho|].
  apply (fire_kept l c t n); try done. unfold lossless, state_of. by rewrite Hst.
Qed.

(** [pump] is the two halves with the handler in between: it waits for the other
    users of the broker until it can take a message, and then takes it ([begin]),
    runs the handler on what it holds -- which may do anything, to this transport
    too -- and answers with what the handler returned ([answer]).  An exception only
    counts, an undefined handler answers nothing. *)
Lemma pump_is_begin_answer {S} (run : Runner T H S) h rounds t s fs :
  _connected t = true → _handler t = Some h →
  (pump run rounds (t, s)).2.1 = with_broker (λ b, after_rounds b rounds) t ∨
  ∃ k m t1, (k ≤ length rounds)%nat ∧ _outstanding t = ∅ ∧
    begin (with_broker (λ b, after_rounds b (take k rounds)) t) fs = (t1, m :: fs) ∧
    let r := run h (delivery_of m) (t1, s) in
    (pump run rounds (t, s)).2.1 =
      match r.1 with
      | Ret d => answer m d r.2.1
      | Throw _ => with_stats bump_abandoned r.2.1
      | Undefined => r.2.1
      end.
Proof.
  intros Hc Hh. unfold pump. run. unfold id. rewrite Hc, Hh. cbn [negb].
  destruct (decide (_outstanding t = ∅)) as [Ho|Ho]; [|left; by rewrite pump_loop_busy].
  destruct (pump_loop_cases run h rounds t s Ho)
    as [[-> _]|(k & m & rest & Hk & Hqueue & _ & ->)]; [by left|right].
  set (b := after_rounds (broker t) (take k rounds)) in *.
  set (t0 := with_broker (λ _, with_topics (alter (with_messages (λ _, rest)) (_topic t)) b) t).
  exists k, m, (holding m t0). split; [lia|]. split; [done|]. split.
  { unfold begin. cbn [with_broker _connected _handler _outstanding].
    rewrite Hc, Hh, Ho, bool_decide_false, bool_decide_true by done. cbn [negb orb].
    unfold on_broker. cbn [with_broker broker _topic]. fold b.
    by rewrite take_message_run, Hqueue. }
  assert (Hhold : with_outstanding (emplace (sequence m) m)
      (with_stats (bump_received (size_of (body m))) t0) = holding m t0).
  { unfold holding, with_outstanding, emplace. cbn [with_stats _outstanding t0 with_broker].
    by rewrite Ho, lookup_empty. }
  unfold deliver. run. rewrite Hhold.
  destruct (run h (delivery_of m) (holding m t0, s)) as [[d|e|] [t1 s1]]; cbn [fst snd]; [|done..].
  unfold answer. destruct (decide (d = Deferred)) as [->|Hd]; [done|].
  rewrite bool_decide_false by done. by destruct (resolve d m _) as [[[]|e|] t2].
Qed.
End cluster.

(** ** The properties on a small system

    Two transports compete for the messages of one declared topic. *)
Section script.
Context {H : Type}.

Definition allowedb (l : label (H:=H)) : bool :=
  match l with Outside (OpTake _ | OpRequeue _ _ | OpDeadLetter _ _) => false | _ => true end.

Fixpoint script_ok (ls : list (label (H:=H))) (c : Cluster) : bool :=
  match ls with
  | [] => true
  | l :: ls =>
      bool_decide (orderly c l) && allowedb l &&
      (last_sequence (shared c) + budget l (shared c) <? 2 ^ 64) &&
      script_ok ls (fire l c)
  end.

Definition play (ls : list (label (H:=H))) (c : Cluster) : Cluster := foldl (λ c l, fire l c) c ls.

Lemma play_steps (P : Cluster → label → Prop) ls (c : Cluster) :
  script_ok ls c = true → (∀ c l, l ∈ ls → orderly c l → P c l) → steps P c (play ls c).
Proof.
  revert c. induction ls as [|l ls IH]; intros c Hok HP; [constructor|].
  cbn in Hok. apply andb_true_iff in Hok as [[[Ho Ha]%andb_true_iff Hr]%andb_true_iff Hok].
  apply steps_more with l; [by apply HP; [left|by apply bool_decide_eq_true in Ho]
    |by destruct l as [[]|]|by apply Z.ltb_lt|].
  apply IH; [done|]. intros c' l' Hin. apply HP. by right.
Qed.
End script.

Definition demo_start : Cluster (H:=unit) :=
  mkCluster empty_Broker
    (<[0%nat := new_InMemoryTransport empty_Broker]> {[1%nat := new_InMemoryTransport empty_Broker]}) ∅.

Definition demo_script : list (label (H:=unit)) :=
  [Member 0 Connect; Member 1 Connect;
   Outside (OpEnsureTopic (deadLetterTopic "t") (forensicTopicOptions "t"));
   Outside (OpEnsureTopic "t" default_TopicOptions);
   Member 0 (Subscribe "t" tt); Member 1 (Subscribe "t" tt);
   Member 0 (Send "t" "x" (mkSendOptions false false "")); Outside (OpPublish "t" "y" "")].

(** Two messages wait; then the first transport takes one. *)
Definition demo_waiting : Cluster := play demo_script demo_start.
Definition demo_taken : Cluster := fire (Member 0 Begin) demo_waiting.

(** The handler of the first transport deferred it. *)
Definition demo_deferring : Cluster := fire (Member 0 (Answer 1 Deferred)) demo_taken.

Lemma demo_initial : initial demo_start.
Proof.
  split; [done|]. split; [done|]. intros i t Hi. exists empty_Broker. unfold demo_start in Hi. cbn in Hi.
  apply lookup_insert_Some in Hi as [[_ <-]|[_ [_ <-]%lookup_singleton_Some]]; done.
Qed.

Lemma demo_waiting_sane : sane demo_waiting.
Proof.
  apply (steps_sane demo_start); [|apply initial_sane, demo_initial].
  by apply play_steps; [vm_compute; reflexivity|].
Qed.

Lemma demo_taken_sane : sane demo_taken.
Proof.
  apply fire_sane; [apply demo_waiting_sane|exact I..|]. vm_compute. reflexivity.
Qed.

Lemma demo_deferring_sane : sane demo_deferring.
Proof.
  apply fire_sane; [apply demo_taken_sane|exact I..|]. vm_compute. reflexivity.
Qed.

Lemma demo_taken_holder : holder demo_taken 0 1 "t".
Proof.
  eexists. split; [vm_compute; reflexivity|]. split; [|reflexivity].
  apply elem_of_dom. eexists. vm_compute. reflexivity.
Qed.

Lemma copies_follow_lifecycle_witness :
  ∃ p q, placed demo_waiting 1 p ∧ placed demo_taken 1 q ∧
    lifecycle (Member 0 Begin) demo_waiting 1 p q.
Proof.
  destruct (copies_follow_lifecycle (Member 0 Begin) demo_waiting 1) as (_ & p & q & H1 & H2 & H3 & _).
  - exact demo_waiting_sane.
  - exact I.
  - exact I.
  - vm_compute. reflexivity.
  - reflexivity.
  - exists p, q. split; [exact H1|]. split; [exact H2|exact H3].
Defined.

Definition demo_contested : Cluster (H:=unit) :=
  play (demo_script ++ [Member 0 Begin; Member 1 Begin]) demo_start.

Lemma demo_contested_holder : holder demo_contested 0 1 "t".
Proof.
  eexists. split; [vm_compute; reflexivity|]. split; [|reflexivity].
  apply elem_of_dom. eexists. vm_compute. reflexivity.
Qed.

Lemma exclusive_custody_witness :
  holder demo_contested 0 1 "t" ∧ ¬ holder demo_contested 1 1 "t".
Proof.
  split; [exact demo_contested_holder|].
  destruct (exclusive_custody demo_start demo_contested) as (_ & _ & H1 & _).
  - exact demo_initial.
  - apply play_steps; [vm_compute; reflexivity|]. intros c l _ Ho. exact Ho.
  - intros Hh. destruct (H1 1 0%nat "t" demo_contested_holder) as [_ H2].
    discriminate (H2 1%nat "t" Hh).
Defined.

Lemma settled_is_final_witness :
  1 ∉ at_topic (shared (play [Member 0 Close; Member 1 Begin; Member 1 (Throws 2); Member 1 Close]
    (fire (Member 0 (Settle 1 Reject)) demo_deferring))) "t".
Proof.
  eapply (settled_is_final demo_deferring _ 0 _ 1 Reject).
  - exact demo_deferring_sane.
  - vm_compute. reflexivity.
  - reflexivity.
  - apply elem_of_dom. eexists. vm_compute. reflexivity.
  - vm_compute. apply not_elem_of_nil.
  - right. reflexivity.
  - vm_compute. reflexivity.
  - apply play_steps; [vm_compute; reflexivity|]. intros c l _ Ho. exact Ho.
Defined.

Definition demo_later : list (label (H:=unit)) :=
  [Member 0 Close; Member 1 Begin; Outside (OpPublish "t" "z" "")].

Lemma accepted_is_kept_witness :
  placed (play demo_later demo_deferring) 1 (Waiting "t") ∨
  ∃ i, placed (play demo_later demo_deferring) 1 (HeldBy i "t").
Proof.
  eapply (accepted_is_kept (λ _ l, l ∈ demo_later) demo_deferring).
  - exact demo_deferring_sane.
  - vm_compute. reflexivity.
  - intros [Hlen _]. vm_compute in Hlen. discriminate Hlen.
  - intros _ l Hl. repeat (apply elem_of_cons in Hl as [->|Hl]; [split; [discriminate|intros i; exact id]|]).
    by apply not_elem_of_nil in Hl.
  - right. exists 0%nat. eexists. split; [vm_compute; reflexivity|]. split; [|reflexivity].
    apply elem_of_dom. eexists. vm_compute. reflexivity.
  - apply play_steps; [vm_compute; reflexivity|]. intros c l Hl _. exact Hl.
Defined.

Lemma pump_is_begin_answer_witness :
  ∃ m t2, (pump demo_run [[]] (demo (Some Reject), 0%nat)).2.1 = answer m Reject t2.
Proof.
  destruct (pump_is_begin_answer demo_run (Some Reject) [[]] (demo (Some Reject)) 0%nat [])
    as [H|(k & m & t1 & _ & _ & _ & Heq)].
  - reflexivity.
  - vm_compute. reflexivity.
  - exfalso. apply (f_equal (λ t, rejectsPerformed (_stats t))) in H. vm_compute in H. discriminate H.
  - eexists _, _. exact Heq.
Defined.
