(* ===== verification/Producer.v ===== *)
(** Publishing ([include/motus/Producer.hpp] and
    [include/motus/MessagePublisher.hpp]) against the [ITransport] interface.

    A [Producer] borrows its transport, so each method runs on the transport next
    to the producer's own members.  Some backends can deliver while they declare
    or pump; [run] executes whatever handler the transport has stored, on the
    application state [S]. *)

From S2P Require Import Prelude ITransport ByteMessage.
#[local] Open Scope Z_scope.

(** The members of [Producer] besides the borrowed reference. *)
Record Producer : Type := mkProducer {
  producer_options : SendOptions;
  _published : Z;
}.

Section producer.
Context {T H : Type} `{!ITransport T H} {S : Type} (run : Runner T H (Producer * S)).
Local Abbreviation W := (T * (Producer * S))%type.

(** [Producer::Producer(transport, options)] *)
Definition new_Producer (caps : Capabilities) (options : SendOptions) : outcome Producer :=
  if send_durable options && negb (cap_durableDelivery caps) then
    Throw (runtime_error ("transport backend '" +:+ cap_name caps +:+
      "' cannot deliver durable messages, but this producer requires them. " +:+
      "Messages would be lost on any middleware restart. Either select a backend " +:+
      "that supports durability, or construct the Producer with SendOptions{false} " +:+
      "to state explicitly that loss is acceptable."))
  else if send_confirm options && negb (cap_publisherConfirms caps) then
    Throw (runtime_error ("transport backend '" +:+ cap_name caps +:+
      "' does not support publisher confirms, but this producer requires them. " +:+
      "A send would report success once the frame left the socket, which is not the " +:+
      "same as the middleware having stored it."))
  else Ret (mkProducer options 0).

(** [Producer::declareTopic] *)
Definition declareTopic (topic : Topic) (timeout : Z) (options : TopicOptions)
    (allowAsymmetric : bool) : M W Z :=
  '(t, _) ← gets id;
  _ ← lift (checkTopicOptions (capabilities t) options allowAsymmetric);
  _ ← ensureTopic run topic options timeout;
  '(t, _) ← gets id;
  if negb (cap_topicDepth (capabilities t)) then mret 0
  else topicDepth run topic timeout.

(** [MessagePublisher::publish]; [serialize] is the message type's own method. *)
Definition MessagePublisher_publish {Message : Type} (serialize : Message → outcome string)
    (topic : Topic) (message : Message) (options : SendOptions) : M T bool :=
  payload ← lift (serialize message);
  send topic payload options.

(** [Producer::publishWith] *)
Definition publishWith {Message : Type} (serialize : Message → outcome string)
    (topic : Topic) (message : Message) (options : SendOptions) : M W bool :=
  accepted ← on_fst (MessagePublisher_publish serialize topic message options);
  _ ← (if (accepted : bool) then
         on_snd (on_fst (modify (λ p, mkProducer (producer_options p) (incr64 (_published p)))))
       else mret tt);
  mret accepted.

(** [Producer::publish] *)
Definition publish {Message : Type} (serialize : Message → outcome string)
    (topic : Topic) (message : Message) : M W bool :=
  '(_, (p, _)) ← gets id;
  publishWith serialize topic message (producer_options p).

(** [Producer::flush] *)
Definition flush (slice : Slice) : M W unit :=
  _ ← pump run slice; mret tt.

(** [Producer::published] *)
Definition published (p : Producer) : Z := _published p.

(** ** Properties *)

Lemma new_Producer_Throw caps options e :
  new_Producer caps options = Throw e → ∃ text, e = runtime_error text.
Proof. unfold new_Producer. repeat case_match; intros [=]; eauto. Qed.

(** A producer can be constructed exactly when the backend can do what its
    send options require, starts with a count of zero, and is otherwise refused
    with [std::runtime_error]. *)
Theorem new_Producer_spec caps options :
  (new_Producer caps options = Ret (mkProducer options 0) ∧
   (send_durable options = true → cap_durableDelivery caps = true) ∧
   (send_confirm options = true → cap_publisherConfirms caps = true)) ∨
  ((∃ text, new_Producer caps options = Throw (runtime_error text)) ∧
   ((send_durable options = true ∧ cap_durableDelivery caps = false) ∨
    (send_confirm options = true ∧ cap_publisherConfirms caps = false))).
Proof.
  unfold new_Producer.
  destruct (send_durable options), (send_confirm options), (cap_durableDelivery caps),
    (cap_publisherConfirms caps); cbn; naive_solver.
Qed.

(** Publishing counts exactly the accepted sends.  A message that cannot be
    serialised reaches no transport and its exception propagates; otherwise the
    payload is handed to [send] once, the caller gets its answer (or its
    exception), and the count moves if and only if the answer was [true]. *)
Theorem publish_counts {Message} (serialize : Message → outcome string) topic message t p s :
  match serialize message with
  | Ret payload =>
      let '(o, t') := send topic payload (producer_options p) t in
      publish serialize topic message (t, (p, s)) =
        (o, (t', (mkProducer (producer_options p)
          (if decide (o = Ret true) then incr64 (published p) else published p), s)))
  | Throw e => publish serialize topic message (t, (p, s)) = (Throw e, (t, (p, s)))
  | Undefined => publish serialize topic message (t, (p, s)) = (Undefined, (t, (p, s)))
  end.
Proof.
  unfold publish, publishWith, MessagePublisher_publish. run. unfold id.
  destruct (serialize message) as [payload| |]; [|done..].
  destruct (send topic payload (producer_options p) t) as [[[]|e|] t']; cbn; by destruct p.
Qed.

(** Declaring a topic checks before it acts: a declaration the backend cannot
    honour, or an asymmetric one, throws [std::runtime_error] with the transport
    untouched; a declaration the transport refuses propagates that exception; and
    a success reports the depth, or 0 where the backend cannot know it. *)
Theorem declareTopic_order topic timeout options allowAsymmetric t w :
  match checkTopicOptions (capabilities t) options allowAsymmetric with
  | Ret _ =>
      let '(o, (t1, w1)) := ensureTopic run topic options timeout (t, w) in
      declareTopic topic timeout options allowAsymmetric (t, w) =
        match o with
        | Ret _ =>
            if cap_topicDepth (capabilities t1) then topicDepth run topic timeout (t1, w1)
            else (Ret 0, (t1, w1))
        | Throw e => (Throw e, (t1, w1))
        | Undefined => (Undefined, (t1, w1))
        end
  | _ =>
      ¬ (honourable (capabilities t) options ∧
         (allowAsymmetric = true ∨ same_properties options default_TopicOptions)) ∧
      ∃ text, declareTopic topic timeout options allowAsymmetric (t, w) =
        (Throw (runtime_error text), (t, w))
  end.
Proof.
  unfold declareTopic. run. unfold id.
  pose proof (checkTopicOptions_Ret (capabilities t) options allowAsymmetric) as Hret.
  pose proof (checkTopicOptions_Throw (capabilities t) options allowAsymmetric) as Hthrow.
  destruct (checkTopicOptions _ _ _) as [[]|e|] eqn:Hcheck.
  - destruct (ensureTopic run topic options timeout (t, w)) as [[[]| |] [t1 w1]]; [|done..].
    by destruct (cap_topicDepth (capabilities t1)).
  - destruct Hthrow as (text & [= ->]); [done|]. rewrite <- Hret. split; [done|]. by eexists.
  - by destruct Hthrow.
Qed.

End producer.
