(* ===== verification/Consumer.v ===== *)
(** Consuming ([class Consumer] and [class SettlementQueue] of
    [include/motus/Consumer.hpp], [src/Consumer.cpp]) against the [ITransport]
    interface.

    The closure [Consumer::start] hands to [subscribe] captures the consumer, the
    topic and the dead-letter option: it is the value [Subscription], executed by
    [on_delivery] on the consumer's members.  [U] is the state user code lives in;
    a user handler runs with everything in reach, as the C++ does.

    [Accountable] is what the consumer's "decided equals performed" guarantee
    needs from a backend; each backend discharges it. *)

From S2P Require Import Prelude ITransport ByteMessage Dispatch.
#[local] Open Scope Z_scope.

(** ** SettlementQueue *)

(** The deque [_pending]; every member function holds the mutex throughout. *)
Definition SettlementQueue : Type := list (Z * Disposition).

(** [SettlementQueue::push] *)
Definition push (handle : Z) (d : Disposition) : M SettlementQueue unit :=
  modify (λ q, q ++ [(handle, d)]).

(** [SettlementQueue::tryPop]; [None] is the [false] return. *)
Definition tryPop : M SettlementQueue (option (Z * Disposition)) := λ q,
  match q with
  | [] => (Ret None, q)
  | front :: q => (Ret (Some front), q)
  end.

(** ** Consumer *)

(** The members of [Consumer] that change.  [_settlements] is the queue behind
    the pointer, if one is attached. *)
Record Consumer : Type := mkConsumer {
  _acked : Z;
  _rejected : Z;
  _requeued : Z;
  _deferred : Z;
  _settlements : option SettlementQueue;
}.

(** The captures of the delivery handler. *)
Record Subscription : Type := mkSubscription {
  sub_topic : Topic;
  sub_deadLetter : bool;
}.

(** The [switch] over the final disposition in the delivery handler. *)
Definition count_decided (d : Disposition) (c : Consumer) : Consumer :=
  match d with
  | Ack => mkConsumer (incr64 (_acked c)) (_rejected c) (_requeued c) (_deferred c) (_settlements c)
  | Requeue => mkConsumer (_acked c) (_rejected c) (incr64 (_requeued c)) (_deferred c) (_settlements c)
  | Reject => mkConsumer (_acked c) (incr64 (_rejected c)) (_requeued c) (_deferred c) (_settlements c)
  | Deferred => mkConsumer (_acked c) (_rejected c) (_requeued c) (incr64 (_deferred c)) (_settlements c)
  end.

(** The [switch] after [settle] in [poll]. *)
Definition count_settled (d : Disposition) (c : Consumer) : Consumer :=
  match d with
  | Deferred => c
  | d => count_decided d c
  end.

(** [Consumer::Consumer(transport, handlers)] *)
Definition new_Consumer {U} (caps : Capabilities) (handlers : Handlers U) : outcome Consumer :=
  if negb (bool_decide (is_Some (onMessage handlers))) &&
     negb (bool_decide (is_Some (onDeferred handlers))) then
    Throw (invalid_argument "Consumer requires at least one callable handler")
  else if negb (cap_manualAcknowledgement caps) then
    Throw (runtime_error ("transport backend '" +:+ cap_name caps +:+
      "' does not support manual acknowledgement, so a message would be acknowledged " +:+
      "before it is processed. Poison-message rejection and redelivery after a worker " +:+
      "crash both depend on it."))
  else if bool_decide (is_Some (onDeferred handlers)) && negb (cap_deferredAcknowledgement caps) then
    Throw (runtime_error ("transport backend '" +:+ cap_name caps +:+
      "' does not support deferred acknowledgement (Capabilities::deferredAcknowledgement " +:+
      "is false), but a deferred handler was configured."))
  else Ret (mkConsumer 0 0 0 0 None).

(** [Consumer::attachSettlementQueue] *)
Definition attachSettlementQueue (q : SettlementQueue) (c : Consumer) : Consumer :=
  mkConsumer (_acked c) (_rejected c) (_requeued c) (_deferred c) (Some q).

Definition with_settlements (q : SettlementQueue) (c : Consumer) : Consumer :=
  attachSettlementQueue q c.

Section consumer.
Context {T : Type} `{!ITransport T Subscription} {U : Type}.
Local Abbreviation W := (T * (Consumer * U))%type.
Context (handlers : Handlers W).

Definition on_consumer {A} (m : M Consumer A) : M W A := on_snd (on_fst m).

(** The handler [Consumer::start] registers. *)
Definition on_delivery : Runner T Subscription (Consumer * U) := λ _ delivery,
  result ← dispatch (delivery_body delivery) handlers (delivery_redelivered delivery)
             (delivery_tag delivery);
  '(t, _) ← gets id;
  let d :=
    if bool_decide (disposition result = Requeue) && negb (cap_requeue (capabilities t))
    then Reject else disposition result in
  _ ← on_consumer (modify (count_decided d));
  mret d.

(** [Consumer::start] *)
Definition start (topic : Topic) (timeout : Z) (options : TopicOptions)
    (allowAsymmetric : bool) : M W unit :=
  '(t, _) ← gets id;
  _ ← lift (checkTopicOptions (capabilities t) options allowAsymmetric);
  _ ← ensureTopic on_delivery topic options timeout;
  subscribe on_delivery topic (Some (mkSubscription topic (deadLetter options))) timeout.

(** What worker threads push while nobody holds the queue's mutex. *)
Definition push_all (ps : list (Z * Disposition)) (c : Consumer) : Consumer :=
  match _settlements c with Some q => with_settlements (q ++ ps) c | None => c end.

(** [_settlements->tryPop(handle, disposition)] *)
Definition try_pop : M Consumer (option (Z * Disposition)) := λ c,
  match _settlements c with
  | None => (Undefined, c)
  | Some q => let '(o, q) := tryPop q in (o, with_settlements q c)
  end.

(** The [while] loop of [poll]; the n-th element of [pushes] arrives before the
    n-th [tryPop], and [fuel] bounds the number of iterations. *)
Fixpoint drain (fuel : nat) (pushes : list (list (Z * Disposition))) : M W unit :=
  match fuel with
  | O => undefined
  | S fuel =>
      _ ← on_consumer (modify (push_all (default [] (head pushes))));
      popped ← on_consumer try_pop;
      match popped with
      | None => mret tt
      | Some (handle, d) =>
          _ ← on_fst (settle handle d);
          _ ← on_consumer (modify (count_settled d));
          drain fuel (tail pushes)
      end
  end.

(** One iteration per pending settlement, and the one that finds none
    ([drain_terminates]). *)
Definition drain_fuel (pushes : list (list (Z * Disposition))) (c : Consumer) : nat :=
  S (length (default [] (_settlements c)) + length (concat pushes)).

(** [Consumer::poll] *)
Definition poll (pushes : list (list (Z * Disposition))) (slice : Slice) : M W bool :=
  '(_, (c, _)) ← gets id;
  _ ← (if bool_decide (_settlements c = None) then mret tt
       else drain (drain_fuel pushes c) pushes);
  pump on_delivery slice.

End consumer.

(** ** What a backend's books promise *)

(** Actions performed, and what one resolved delivery adds to them. *)
Definition performed (s : Stats) : Z * Z * Z :=
  (acksPerformed s, rejectsPerformed s, requeuesPerformed s).

Definition tally (d : Disposition) (n : Z * Z * Z) : Z * Z * Z :=
  let '(a, j, q) := n in
  match d with
  | Ack => (incr64 a, j, q)
  | Reject => (a, incr64 j, q)
  | Requeue => (a, j, incr64 q)
  | Deferred => (a, j, q)
  end.

Definition decided (c : Consumer) : Z * Z * Z := (_acked c, _rejected c, _requeued c).

(** Handlers that ran to completion one after the other, with their answers. *)
Inductive delivered {T H S} (run : Runner T H S) : S → list Disposition → S → Prop :=
  | delivered_none s : delivered run s [] s
  | delivered_one h d t s answer t' s1 ds s2 :
      run h d (t, s) = (Ret answer, (t', s1)) →
      delivered run s1 ds s2 → delivered run s (answer :: ds) s2.

(** [by_others t t'] is what a handler may cause on the transport that is delivering
    to it without calling it. *)
Class Spectated (T : Type) : Type := {
  by_others : T → T → Prop;
  by_others_refl t : by_others t t;
}.

(** A backend whose counters say what it did. *)
Class Accountable (T H : Type) `{!ITransport T H, !Spectated T} : Prop := {
  settle_accounted tag d t t' :
    settle tag d t = (Ret tt, t') → performed (stats t') = tally d (performed (stats t));
  pump_accounted {S} (run : Runner T H S) slice t s b t' s' :
    (∀ h d t s, by_others t (run h d (t, s)).2.1) →
    pump run slice (t, s) = (Ret b, (t', s')) →
    ∃ ds, delivered run s ds s' ∧
      performed (stats t') = foldl (λ n d, tally d n) (performed (stats t)) ds;
}.

(** ** Construction and subscription *)

(** A consumer exists only over a backend that can keep its promises: at
    least one handler, acknowledgement by hand, and deferral if a deferred handler
    was given; its counters start at zero with no settlement queue.  No handler at
    all is [std::invalid_argument], a missing capability [std::runtime_error]. *)
Theorem new_Consumer_spec {U} caps (handlers : Handlers U) :
  let has_handler := is_Some (onMessage handlers) ∨ is_Some (onDeferred handlers) in
  let capable := cap_manualAcknowledgement caps = true ∧
    (is_Some (onDeferred handlers) → cap_deferredAcknowledgement caps = true) in
  (has_handler ∧ capable ∧ new_Consumer caps handlers = Ret (mkConsumer 0 0 0 0 None)) ∨
  (¬ has_handler ∧ ∃ text, new_Consumer caps handlers = Throw (invalid_argument text)) ∨
  (has_handler ∧ ¬ capable ∧ ∃ text, new_Consumer caps handlers = Throw (runtime_error text)).
Proof.
  intros has_handler capable. unfold new_Consumer, has_handler, capable.
  destruct (onMessage handlers) as [h1|], (onDeferred handlers) as [h2|];
    rewrite ?(bool_decide_true (is_Some (Some _))), ?(bool_decide_false (is_Some None))
      by (by eexists || by intros []);
    destruct (cap_manualAcknowledgement caps), (cap_deferredAcknowledgement caps); cbn.
  all: rewrite ?is_Some_alt; naive_solver.
Qed.

Section clients.
Context {T : Type} `{!ITransport T Subscription} {U : Type}.
Local Abbreviation W := (T * (Consumer * U))%type.
Context (handlers : Handlers W).

(** Starting checks, declares, then subscribes.  A declaration the backend
    cannot honour is refused with [std::runtime_error] before the transport is
    touched; if declaring throws there is no subscription; otherwise [subscribe]
    runs on the very state declaring left, with the handler for that topic. *)
Theorem start_order topic timeout options allowAsymmetric t w :
  match checkTopicOptions (capabilities t) options allowAsymmetric with
  | Ret _ =>
      let '(o, w1) := ensureTopic (on_delivery handlers) topic options timeout (t, w) in
      start handlers topic timeout options allowAsymmetric (t, w) =
        match o with
        | Ret _ => subscribe (on_delivery handlers) topic
            (Some (mkSubscription topic (deadLetter options))) timeout w1
        | Throw e => (Throw e, w1)
        | Undefined => (Undefined, w1)
        end
  | _ => ∃ text, start handlers topic timeout options allowAsymmetric (t, w) =
           (Throw (runtime_error text), (t, w))
  end.
Proof.
  unfold start. run. unfold id.
  pose proof (checkTopicOptions_Throw (capabilities t) options allowAsymmetric) as Hthrow.
  destruct (checkTopicOptions _ _ _) as [[]|e|].
  - by destruct (ensureTopic _ topic options timeout (t, w)) as [[[]| |] w1].
  - destruct Hthrow as (text & [= ->]); [done|]. by eexists.
  - by destruct Hthrow.
Qed.

(** What the consumer answers when user code judged a delivery [d]. *)
Definition degraded (caps : Capabilities) (d : Disposition) : Disposition :=
  if bool_decide (d = Requeue) && negb (cap_requeue caps) then Reject else d.

Lemma on_delivery_run sub delivery w :
  on_delivery handlers sub delivery w =
    match dispatch (delivery_body delivery) handlers (delivery_redelivered delivery)
            (delivery_tag delivery) w with
    | (Ret r, (t, (c, u))) =>
        let d := degraded (capabilities t) (disposition r) in
        (Ret d, (t, (count_decided d c, u)))
    | (Throw e, w') => (Throw e, w')
    | (Undefined, w') => (Undefined, w')
    end.
Proof.
  unfold on_delivery, on_consumer. run. unfold id.
  by destruct (dispatch _ _ _ _ w) as [[r|e|] [t [c u]]].
Qed.

(** One delivery, one decision.  The answer to the transport is the
    policy's verdict -- except that a requeue the backend cannot perform becomes a
    rejection -- and the counter of exactly that answer moves by one after the
    user's handler has run; an exception the policy does not judge reaches the
    transport with no counter moved. *)
Theorem delivery_decision sub delivery w :
  let '(o, (t, (c, u))) := dispatch (delivery_body delivery) handlers
    (delivery_redelivered delivery) (delivery_tag delivery) w in
  match o with
  | Ret r =>
      let d := if decide (disposition r = Requeue ∧ cap_requeue (capabilities t) = false)
               then Reject else disposition r in
      on_delivery handlers sub delivery w = (Ret d, (t, (count_decided d c, u))) ∧
      decided (count_decided d c) = tally d (decided c) ∧
      _deferred (count_decided d c) =
        (if decide (d = Deferred) then incr64 (_deferred c) else _deferred c) ∧
      _settlements (count_decided d c) = _settlements c
  | Throw e => on_delivery handlers sub delivery w = (Throw e, (t, (c, u)))
  | Undefined => True
  end.
Proof.
  rewrite on_delivery_run. destruct (dispatch _ _ _ _ w) as [[r|e|] [t [c u]]]; [|done..].
  assert (Hd : degraded (capabilities t) (disposition r) =
    if decide (disposition r = Requeue ∧ cap_requeue (capabilities t) = false)
    then Reject else disposition r).
  { unfold degraded. destruct (disposition r), (cap_requeue (capabilities t)); done. }
  rewrite <- Hd. split; [done|].
  by destruct (degraded _ _).
Qed.

(** ** Draining settlements *)

Lemma drain_step fuel pushes t c u q :
  _settlements c = Some q →
  drain (U:=U) (S fuel) pushes (t, (c, u)) =
    match q ++ default [] (head pushes) with
    | [] => (Ret tt, (t, (c, u)))
    | (handle, d) :: q' =>
        match settle handle d t with
        | (Ret _, t') =>
            drain fuel (tail pushes) (t', (count_settled d (with_settlements q' c), u))
        | (Throw e, t') => (Throw e, (t', (with_settlements q' c, u)))
        | (Undefined, t') => (Undefined, (t', (with_settlements q' c, u)))
        end
    end.
Proof.
  intros Hq. cbn [drain]. unfold on_consumer, try_pop, push_all. run. rewrite Hq. cbn.
  destruct (q ++ default [] (head pushes)) as [|[handle d] q'] eqn:Happ; cbn.
  - destruct c as [? ? ? ? ?]. cbn in Hq. subst. by apply app_eq_nil in Happ as [-> _].
  - by destruct (settle handle d t) as [[[]|e|] t'].
Qed.

Lemma settlements_count_settled d c : _settlements (count_settled d c) = _settlements c.
Proof. by destruct d. Qed.

(** More fuel than one iteration per settlement that can arrive changes nothing. *)
Lemma drain_enough fuel1 fuel2 pushes t c u q :
  _settlements c = Some q →
  (length q + length (concat pushes) < fuel1)%nat →
  (length q + length (concat pushes) < fuel2)%nat →
  drain (U:=U) fuel1 pushes (t, (c, u)) = drain fuel2 pushes (t, (c, u)).
Proof.
  revert fuel2 pushes t c q. induction fuel1 as [|fuel1 IH]; intros fuel2 pushes t c q Hq H1 H2;
    [lia|]. destruct fuel2 as [|fuel2]; [lia|].
  rewrite !(drain_step _ _ _ _ _ q Hq).
  destruct (q ++ default [] (head pushes)) as [|[handle d] q'] eqn:Happ; [done|].
  destruct (settle handle d t) as [[[]|e|] t']; [|done..].
  assert (Hlen : S (length q' + length (concat (tail pushes))) =
    (length q + length (concat pushes))%nat).
  { apply (f_equal length) in Happ. rewrite length_app in Happ. cbn in Happ.
    destruct pushes as [|p pushes]; cbn in *; [lia|]. rewrite length_app. lia. }
  apply (IH _ _ _ _ q'); [by rewrite settlements_count_settled|lia|lia].
Qed.

(** Settle a list of deliveries in order, stopping at the first exception. *)
Fixpoint settle_each (q : list (Z * Disposition)) : M T unit :=
  match q with
  | [] => mret tt
  | (handle, d) :: q => _ ← settle handle d; settle_each q
  end.

Definition count_each (q : list (Z * Disposition)) (c : Consumer) : Consumer :=
  foldl (λ c x, count_settled x.2 c) c q.

Lemma count_settled_with_settlements d q c :
  count_settled d (with_settlements q c) = with_settlements q (count_settled d c).
Proof. by destruct d. Qed.

Lemma count_each_with_settlements l q c :
  count_each l (with_settlements q c) = with_settlements q (count_each l c).
Proof.
  revert c. induction l as [|x l IH]; intros c; [done|].
  unfold count_each in *. cbn [foldl]. rewrite count_settled_with_settlements. apply IH.
Qed.

Lemma drain_all fuel t c u q t' :
  _settlements c = Some q → (length q < fuel)%nat → settle_each q t = (Ret tt, t') →
  drain (U:=U) fuel [] (t, (c, u)) = (Ret tt, (t', (with_settlements [] (count_each q c), u))).
Proof.
  revert t c q. induction fuel as [|fuel IH]; intros t c q Hq Hlt Hs; [lia|].
  rewrite (drain_step _ _ _ _ _ q Hq). cbn [head default]. rewrite app_nil_r.
  destruct q as [|[handle d] q]; cbn [settle_each] in Hs.
  { injection Hs as <-. destruct c; cbn in *; by subst. }
  run_in Hs. destruct (settle handle d t) as [[[]|e|] t0]; [|done..].
  rewrite (IH t0 _ q); [|by rewrite settlements_count_settled|cbn in Hlt; lia|done].
  rewrite count_settled_with_settlements, count_each_with_settlements. done.
Qed.

Lemma drain_throws fuel t c u q1 handle d q2 t0 e t' :
  _settlements c = Some (q1 ++ (handle, d) :: q2) →
  (length (q1 ++ (handle, d) :: q2) < fuel)%nat →
  settle_each q1 t = (Ret tt, t0) → settle handle d t0 = (Throw e, t') →
  drain (U:=U) fuel [] (t, (c, u)) =
    (Throw e, (t', (with_settlements q2 (count_each q1 c), u))).
Proof.
  revert t c q1. induction fuel as [|fuel IH]; intros t c q1 Hq Hlt Hs He; [lia|].
  rewrite (drain_step _ _ _ _ _ _ Hq). cbn [head default]. rewrite app_nil_r.
  destruct q1 as [|[h0 d0] q1]; cbn [settle_each app] in *.
  { injection Hs as <-. by rewrite He. }
  run_in Hs. destruct (settle h0 d0 t) as [[[]|e0|] t1]; [|done..].
  rewrite (IH t1 _ q1); [|by rewrite settlements_count_settled|cbn in Hlt; lia|done|done].
  rewrite count_settled_with_settlements, count_each_with_settlements. done.
Qed.

(** Settlements are drained in order, before anything new is delivered.  With
    nothing pushed meanwhile, one poll settles every pending entry first-in
    first-out, counts each, and only then pumps, with the queue empty.  When a
    settlement throws, the poll ends there with that exception: nothing is pumped,
    the entries behind it stay queued, and the failing one -- already popped -- is
    gone and uncounted. *)
Lemma poll_drains_first slice t c u q :
  _settlements c = Some q →
  (∀ t', settle_each q t = (Ret tt, t') →
     poll handlers [] slice (t, (c, u)) =
       pump (on_delivery handlers) slice (t', (with_settlements [] (count_each q c), u))) ∧
  (∀ q1 handle d q2 t0 e t', q = q1 ++ (handle, d) :: q2 →
     settle_each q1 t = (Ret tt, t0) → settle handle d t0 = (Throw e, t') →
     poll handlers [] slice (t, (c, u)) =
       (Throw e, (t', (with_settlements q2 (count_each q1 c), u)))).
Proof.
  intros Hq.
  assert (Hpoll : poll handlers [] slice (t, (c, u)) =
    (_ ← drain (drain_fuel [] c) []; pump (on_delivery handlers) slice) (t, (c, u))).
  { unfold poll. run. unfold id. by rewrite bool_decide_false by by rewrite Hq. }
  assert (Hfuel : (length q < drain_fuel [] c)%nat) by (unfold drain_fuel; rewrite Hq; cbn [default from_option id concat length]; lia).
  rewrite Hpoll. run. split.
  - intros t' Hs. by rewrite (drain_all _ _ _ _ q t').
  - intros q1 handle d q2 t0 e t' -> Hs He.
    by rewrite (drain_throws _ _ _ _ q1 handle d q2 t0 e t').
Qed.

(** The drain loop ends: whatever the transport answers and however pushes
    interleave with it, more iterations than the entries that can arrive are never
    made, so the bound in [poll] never cuts the loop short. *)
Theorem drain_terminates fuel pushes t c u :
  _settlements c ≠ None → (drain_fuel pushes c ≤ fuel)%nat →
  drain (U:=U) fuel pushes (t, (c, u)) = drain (drain_fuel pushes c) pushes (t, (c, u)) ∧
  ((∀ h d t, (settle h d t).1 ≠ Undefined) →
   (drain (U:=U) fuel pushes (t, (c, u))).1 ≠ Undefined).
Proof.
  intros Hne Hfuel. destruct (_settlements c) as [q|] eqn:Hq; [|done].
  unfold drain_fuel in *. rewrite Hq in *.
  cbn [default from_option id] in *. unfold id in *. split.
  - apply (drain_enough _ _ _ _ _ _ q Hq); lia.
  - intros Hsettle. clear Hne. revert pushes t c q Hq Hfuel.
    induction fuel as [|fuel IH]; intros pushes t c q Hq Hfuel; [cbn in Hfuel; lia|].
    rewrite (drain_step _ _ _ _ _ q Hq).
    destruct (q ++ default [] (head pushes)) as [|[handle d] q'] eqn:Happ; [done|].
    specialize (Hsettle handle d t) as Hd.
    destruct (settle handle d t) as [[[]|e|] t']; [|done..].
    apply (IH _ _ _ q'); [by rewrite settlements_count_settled|].
    apply (f_equal length) in Happ. rewrite length_app in Happ. cbn in Happ.
    destruct pushes as [|p pushes]; cbn in *; [lia|]. rewrite length_app in Hfuel. lia.
Qed.

(** ** Decided equals performed *)

Lemma decided_count_settled d c : decided (count_settled d c) = tally d (decided c).
Proof. by destruct d. Qed.

Lemma decided_count_decided d c : decided (count_decided d c) = tally d (decided c).
Proof. by destruct d. Qed.

Lemma decided_push_all ps c : decided (push_all ps c) = decided c.
Proof. unfold push_all. by destruct (_settlements c). Qed.

Section spectated.
Context `{!Spectated T}.

(** User handlers that leave the delivering transport and the consumer's counters
    alone; they may push to the settlement queue. *)
Definition well_behaved : Prop :=
  (∀ h m w, onMessage handlers = Some h →
     by_others w.1 (h m w).2.1 ∧ decided (h m w).2.2.1 = decided w.2.1) ∧
  (∀ h m tag w, onDeferred handlers = Some h →
     by_others w.1 (h m tag w).2.1 ∧ decided (h m tag w).2.2.1 = decided w.2.1).

Lemma dispatch_well_behaved body redelivered tag w :
  well_behaved →
  by_others w.1 (dispatch body handlers redelivered tag w).2.1 ∧
  decided (dispatch body handlers redelivered tag w).2.2.1 = decided w.2.1.
Proof.
  intros [Hm Hd]. destruct (decode_total body) as [(m & _ & Hdec)|[_ Hn]].
  - destruct (dispatch_handled body handlers redelivered tag m w Hdec) as [_ ->].
    destruct (onDeferred handlers); [by apply Hd|].
    destruct (onMessage handlers); [by apply Hm|]. split; [apply by_others_refl|done].
  - destruct (dispatch_undecodable body handlers redelivered tag w) as (text & ->); [done|].
    split; [apply by_others_refl|done].
Qed.

Lemma on_delivery_by_others sub delivery w :
  well_behaved → by_others w.1 (on_delivery handlers sub delivery w).2.1.
Proof.
  intros Hw. rewrite on_delivery_run.
  destruct (dispatch_well_behaved (delivery_body delivery) (delivery_redelivered delivery)
    (delivery_tag delivery) w Hw) as [H _].
  by destruct (dispatch _ _ _ _ w) as [[r|e|] [t [c u]]].
Qed.

Lemma delivered_decided s ds s' :
  well_behaved → delivered (on_delivery handlers) s ds s' →
  decided s'.1 = foldl (λ n d, tally d n) (decided s.1) ds.
Proof.
  intros Hw. induction 1 as [|sub delivery t s answer t' s1 ds s2 Hrun _ IH]; [done|].
  cbn. rewrite IH. f_equal. rewrite on_delivery_run in Hrun.
  destruct (dispatch_well_behaved (delivery_body delivery) (delivery_redelivered delivery)
    (delivery_tag delivery) (t, s) Hw) as [_ H].
  destruct (dispatch _ _ _ _ (t, s)) as [[r|e|] [t0 [c u]]]; [|done..].
  injection Hrun as <- _ <-. cbn in *. by rewrite decided_count_decided, H.
Qed.

Section accountable.
Context `{!Accountable T Subscription}.

Lemma drain_accounted fuel pushes t c (u : U) t' c' u' :
  drain fuel pushes (t, (c, u)) = (Ret tt, (t', (c', u'))) →
  decided c = performed (stats t) → decided c' = performed (stats t').
Proof.
  revert pushes t c. induction fuel as [|fuel IH]; intros pushes t c; [done|].
  destruct (_settlements c) as [q|] eqn:Hq.
  2:{ cbn [drain]. unfold on_consumer, try_pop, push_all. run. by rewrite Hq, Hq. }
  rewrite (drain_step _ _ _ _ _ q Hq).
  destruct (q ++ _) as [|[handle d] q']; [by intros [= <- <- <-]|].
  destruct (settle handle d t) as [[[]|e|] t0] eqn:Hs; [|done..].
  intros Hd Hagree. apply (IH _ _ _ Hd).
  rewrite decided_count_settled. apply settle_accounted in Hs. rewrite Hs.
  f_equal. exact Hagree.
Qed.

(** C8. What was decided was performed.  Over any backend whose books are in
    order, with handlers that do not meddle with their own transport, a poll that
    returns keeps the consumer's three counters equal to the transport's: no
    acknowledgement, rejection or requeue was announced that was not carried out,
    whether it came from a handler or from the settlement queue. *)
Theorem decided_equals_performed pushes slice t c u b t' c' u' :
  well_behaved →
  poll handlers pushes slice (t, (c, u)) = (Ret b, (t', (c', u'))) →
  decided c = performed (stats t) → decided c' = performed (stats t').
Proof.
  intros Hw Hpoll Hagree. unfold poll in Hpoll. run_in Hpoll. unfold id in Hpoll.
  assert (Hmid : ∃ t1 c1 u1, decided c1 = performed (stats t1) ∧
    pump (on_delivery handlers) slice (t1, (c1, u1)) = (Ret b, (t', (c', u')))).
  { destruct (bool_decide (_settlements c = None)) in Hpoll; [by eauto|].
    destruct (drain (drain_fuel pushes c) pushes (t, (c, u))) as [[[]| |] [t1 [c1 u1]]] eqn:Hd;
      [|done..]. exists t1, c1, u1. split; [|done]. by eapply drain_accounted. }
  destruct Hmid as (t1 & c1 & u1 & H1 & Hpump).
  apply pump_accounted in Hpump as (ds & Hds & ->);
    [|intros; by apply (on_delivery_by_others h d (t0, s))].
  apply delivered_decided in Hds; [|done]. cbn in Hds. by rewrite Hds, H1.
Qed.

End accountable.
End spectated.

End clients.
