(* ===== verification/System.v ===== *)
(** The parts together: a producer and a consumer over the in-memory backend.

    [inmemory_accountable] discharges the interface the consumer's guarantee is
    proved against; the theorems follow a message from [Producer::publish] to the
    handler, a poison message through its one retry into the forensic
    destination, and evaluate the interface-level theorems on this backend. *)

From S2P Require Import Prelude ITransport ByteMessage Dispatch Broker.
From S2P Require Import InMemoryTransport Producer Consumer.
Import InMemory.
#[local] Open Scope Z_scope.

Local Abbreviation IT := (InMemoryTransport Subscription).

(** ** The in-memory backend keeps its books *)

Lemma performed_bump d s : performed (bump_disposition d s) = tally d (performed s).
Proof. by destruct d. Qed.

Lemma quiet_by_others {S} (run : Runner IT Subscription S) :
  (∀ h d t s, ∃ b, (run h d (t, s)).2.1 = with_broker (λ _, b) t) → quiet run.
Proof. done. Qed.

Lemma inmemory_settle_accounted tag d (t t' : IT) :
  settle tag d t = (Ret tt, t') → performed (_stats t') = tally d (performed (_stats t)).
Proof.
  unfold settle, require_connected. run. destruct (negb (_connected t)); [done|].
  destruct (bool_decide _); [done|]. destruct (_outstanding t !! tag) as [m|]; [|done].
  intros (b & [[_ ->]|[? _]])%resolve_cases; [apply performed_bump|done].
Qed.

Lemma inmemory_deliver_accounted {S} (run : Runner IT Subscription S) h m t s b t' s' :
  quiet run → _outstanding t = ∅ → deliver run h m (t, s) = (Ret b, (t', s')) →
  ∃ ds, delivered run s ds s' ∧
    performed (_stats t') = foldl (λ n d, tally d n) (performed (_stats t)) ds.
Proof.
  intros Hq Ho. rewrite deliver_run by done.
  destruct (run h (delivery_of m) (holding m t, s)) as [o [t1 s1]] eqn:Hrun. cbn [fst snd].
  destruct o as [d|e|]; [|done..]. intros Hres.
  exists [d]. assert (s' = s1) as ->.
  { destruct d; [| | |by injection Hres]; by destruct (resolve _ _ _) as [[[]| |] t2];
      injection Hres. }
  split; [by eapply delivered_one; [|apply delivered_none]|]. cbn [foldl].
  destruct (decide (d = Deferred)) as [->|Hd]; [by injection Hres as _ <-|].
  destruct (resolve d m _) as [o t2] eqn:Hr.
  apply resolve_cases in Hr as (b2 & [[-> ->]|[Hne ->]]).
  - destruct d; [| | |done]; by injection Hres as _ <-.
  - destruct d; [| | |done]; by destruct o as [[]| |].
Qed.

#[export] Instance inmemory_spectated : Spectated IT.
Proof.
  refine {| by_others t t' := ∃ b, t' = with_broker (λ _, b) t |}.
  intros t. exists (broker t). by destruct t.
Defined.

#[export] Instance inmemory_accountable : Accountable IT Subscription.
Proof.
  split.
  - exact inmemory_settle_accounted.
  - intros S run slice t s b t' s' Hq Hpump. cbn in Hpump |- *.
    assert (Hquiet : quiet run) by exact Hq. unfold pump in Hpump. run_in Hpump.
    unfold id in Hpump. unfold stats.
    destruct (negb (_connected t)); [injection Hpump as _ <- <-; by exists []; split; [constructor|]|].
    destruct (_handler t) as [h|]; [|injection Hpump as _ <- <-; by exists []; split; [constructor|]].
    destruct (decide (_outstanding t = ∅)) as [Ho|Ho].
    + destruct (pump_loop_cases run h slice t s Ho)
        as [[Heq _]|(k & m & rest & _ & _ & _ & Heq)]; rewrite Heq in Hpump.
      * injection Hpump as _ <- <-. exists []. by split; [constructor|].
      * by eapply inmemory_deliver_accounted in Hpump.
    + rewrite pump_loop_busy in Hpump by done. injection Hpump as _ <- <-.
      exists []. by split; [constructor|].
Defined.

(** ** One poll over this backend *)

Section poll.
Context {U : Type} (f : ByteMessage → M U unit).
Local Abbreviation W := (IT * (Consumer * U))%type.

(** A user handler that works on its own state only. *)
Definition on_user : MessageHandler W := λ m w,
  let '(t, (c, u)) := w in
  let '(o, u') := f m u in (o, (t, (c, u'))).

Definition user_handlers : Handlers W := mkHandlers (Some on_user) None.

Lemma user_well_behaved : well_behaved user_handlers.
Proof.
  split; [|done]. intros h m [t [c u]] [= <-]. unfold on_user. destruct (f m u) as [o u'].
  split; [apply by_others_refl|done].
Qed.

Lemma user_quiet : quiet (on_delivery user_handlers).
Proof.
  intros h d t s.
  exact (on_delivery_by_others user_handlers h d (t, s) user_well_behaved).
Qed.

(** What becomes of a delivery: the disposition, and what the handler did. *)
Definition judgement (redelivered : bool) (body : string) (u : U) : outcome Disposition * U :=
  match deserialize body with
  | Ret msg => (judged redelivered (_ ← (f msg u).1; mret Ack), (f msg u).2)
  | _ => (Ret Reject, u)
  end.

Lemma judgement_decoded redelivered body u msg :
  deserialize body = Ret msg →
  judgement redelivered body u = (judged redelivered (_ ← (f msg u).1; mret Ack), (f msg u).2).
Proof. unfold judgement. by intros ->. Qed.

Lemma judgement_not_deferred redelivered body u : (judgement redelivered body u).1 ≠ Ret Deferred.
Proof.
  unfold judgement. destruct (deserialize body) as [msg| |]; [|done..]. cbn [fst]. unfold judged. run.
  destruct (f msg u).1 as [|e|]; [done| |done]. destruct (is_std e); [|done].
  by destruct e, redelivered.
Qed.

Lemma on_delivery_user sub delivery t c u :
  let '(o, u') := judgement (delivery_redelivered delivery) (delivery_body delivery) u in
  on_delivery user_handlers sub delivery (t, (c, u)) =
    (o, (t, (match o with Ret d => count_decided d c | _ => c end, u'))).
Proof.
  rewrite on_delivery_run. destruct (judgement _ _ u) as [o u'] eqn:Hj.
  unfold judgement in Hj. assert (Hdeg : ∀ d, degraded (capabilities t) d = d).
  { intros d. unfold degraded. cbn. by rewrite andb_false_r. }
  destruct (deserialize (delivery_body delivery)) as [msg|e|] eqn:Hmsg; cycle 1.
  { destruct (dispatch_undecodable (delivery_body delivery) user_handlers
      (delivery_redelivered delivery) (delivery_tag delivery) (t, (c, u))) as (text & ->);
      [by rewrite Hmsg|]. injection Hj as <- <-. cbn. by rewrite Hdeg. }
  { by apply deserialize_not_undefined in Hmsg. }
  destruct (dispatch_handled (delivery_body delivery) user_handlers
    (delivery_redelivered delivery) (delivery_tag delivery) msg (t, (c, u)) Hmsg) as [Ho Hu].
  cbn [user_handlers onDeferred onMessage] in Ho, Hu.
  destruct (dispatch _ _ _ _ (t, (c, u))) as [o1 w]. cbn [fst snd] in Ho, Hu. subst w.
  unfold on_user in *. destruct (f msg u) as [o2 u2]. cbn [fst snd] in *. injection Hj as <- <-.
  rewrite <- Ho. destruct o1 as [r|e|]; [|done..]. cbn. by rewrite Hdeg.
Qed.

(** Ready to deliver [x], with [rest] behind it. *)
Definition awaiting (t : IT) (x : Held) (rest : list Held) : Prop :=
  _connected t = true ∧ is_Some (_handler t) ∧ _outstanding t = ∅ ∧
  queue_at (broker t) (_topic t) = x :: rest.

Definition taken (t : IT) (rest : list Held) : Broker :=
  with_topics (alter (with_messages (λ _, rest)) (_topic t)) (broker t).

Lemma poll_judged t x rest c u d u' :
  awaiting t x rest → _settlements c = None →
  judgement (redelivered x) (body x) u = (Ret d, u') →
  (d = Reject → provisioned (taken t rest) (_topic t)) →
  ∃ t', poll user_handlers [] [[]] (t, (c, u)) = (Ret true, (t', (count_decided d c, u'))) ∧
    disposed (_topic t) d x (taken t rest) (broker t') ∧
    _connected t' = true ∧ _handler t' = _handler t ∧ _outstanding t' = ∅ ∧
    _topic t' = _topic t ∧
    _stats t' = bump_disposition d (bump_received (size_of (body x)) (_stats t)).
Proof.
  intros (Hc & [h Hh] & Ho & Hq) Hset Hd Hp.
  assert (Hnd : d ≠ Deferred).
  { intros ->. apply (judgement_not_deferred (redelivered x) (body x) u). by rewrite Hd. }
  set (t1 := with_broker (λ _, taken t rest) t).
  assert (Hpump : poll user_handlers [] [[]] (t, (c, u)) =
    deliver (on_delivery user_handlers) h x (t1, (c, u))).
  { unfold poll. run. unfold id. rewrite bool_decide_true by done.
    cbn [ITransport.pump inmemory_transport]. unfold pump. run. unfold id. rewrite Hc, Hh.
    cbn [negb]. destruct (pump_loop_cases (on_delivery user_handlers) h [[]] t (c, u) Ho)
      as [[_ Hempty]|(k & m & rest' & Hk & Hqk & _ & Heq)].
    - specialize (Hempty 1%nat). cbn in Hempty. rewrite Hq in Hempty. by discriminate Hempty; lia.
    - assert (k = 1%nat) as -> by (cbn in Hk; lia).
      change (after_rounds _ _) with (broker t) in Hqk, Heq. rewrite Hq in Hqk.
      injection Hqk as <- <-. exact Heq. }
  rewrite Hpump, (deliver_run _ h x t1 (c, u) user_quiet Ho).
  pose proof (on_delivery_user h (delivery_of x) (holding x t1) c u) as Hrun.
  cbn [delivery_of delivery_redelivered delivery_body] in Hrun. rewrite Hd in Hrun.
  rewrite Hrun. cbn [fst snd].
  change (with_broker (λ _, broker (holding x t1)) (holding x t1)) with (holding x t1).
  destruct (resolve_run d x (with_outstanding (λ _, ∅) (holding x t1))) as (b' & Hdisp & Hres);
    [exact Hp|].
  rewrite Hres. eexists. split; [by destruct d|].
  split; [exact Hdisp|]. cbn. by rewrite Hc.
Qed.

Lemma poll_user t x rest c u msg d :
  awaiting t x rest → _settlements c = None → deserialize (body x) = Ret msg →
  judged (redelivered x) (_ ← (f msg u).1; mret Ack) = Ret d →
  (d = Reject → provisioned (taken t rest) (_topic t)) →
  ∃ t', poll user_handlers [] [[]] (t, (c, u)) =
      (Ret true, (t', (count_decided d c, (f msg u).2))) ∧
    disposed (_topic t) d x (taken t rest) (broker t') ∧
    _connected t' = true ∧ _handler t' = _handler t ∧ _outstanding t' = ∅ ∧
    _topic t' = _topic t ∧
    _stats t' = bump_disposition d (bump_received (size_of (body x)) (_stats t)).
Proof.
  intros Haw Hset Hmsg Hd. apply poll_judged; [done..|]. by rewrite (judgement_decoded _ _ _ msg), Hd.
Qed.

End poll.

(** ** Following a message *)

(** [InMemoryTransport::send] through a producer, into a topic with room. *)
Lemma produce_room {H S} topic payload p (t : InMemoryTransport H) (s : S) m :
  ByteMessage.serialize m = Ret payload → _connected t = true →
  send_durable (producer_options p) = false →
  (Broker.publish topic payload (send_route (producer_options p)) (broker t)).1 = Ret true →
  ∃ t', Producer.publish ByteMessage.serialize topic m (t, (p, s)) =
      (Ret true, (t', (mkProducer (producer_options p) (incr64 (_published p)), s))) ∧
    broker t' = (Broker.publish topic payload (send_route (producer_options p)) (broker t)).2.
Proof.
  intros Hser Hc Hd Hpub.
  unfold Producer.publish, publishWith, MessagePublisher_publish. run. unfold id. rewrite Hser.
  cbn [ITransport.send inmemory_transport]. unfold send, require_connected. run.
  rewrite Hc, Hd. cbn [negb]. unfold on_broker. cbn.
  destruct (Broker.publish topic payload _ (broker t)) as [o b]. cbn in Hpub. subst o. cbn.
  eexists. split; [done|done].
Qed.

(** What is published is what is consumed.  Publish a message through a producer
    to an ungrouped topic with nothing waiting, then let a consumer subscribed to
    that topic poll once: the publish is accepted and counted, the user's handler
    runs exactly once, on exactly the published message, and when it returns the
    message is acknowledged, counted by both sides, and gone from the topic. *)
Lemma message_arrives {U S} (f : ByteMessage → M U unit) topic m payload
    p (tp : IT) (s : S) (t : IT) c u u' :
  ByteMessage.serialize m = Ret payload → f m u = (Ret tt, u') →
  _connected tp = true → send_durable (producer_options p) = false →
  queue_at (broker tp) topic = [] →
  (∀ st, topics (broker tp) !! topic = Some st → group (Broker.options st) = "") →
  _connected t = true → is_Some (_handler t) → _outstanding t = ∅ → _topic t = topic →
  _settlements c = None →
  let r := Producer.publish ByteMessage.serialize topic m (tp, (p, s)) in
  r.1 = Ret true ∧ published r.2.2.1 = incr64 (published p) ∧
  ∃ t', poll (user_handlers f) [] [[]] (with_broker (λ _, broker r.2.1) t, (c, u)) =
      (Ret true, (t', (count_decided Ack c, u'))) ∧
    queue_at (broker t') topic = [] ∧ _outstanding t' = ∅ ∧
    _stats t' = bump_acks (bump_received (size_of payload) (_stats t)).
Proof.
  intros Hser Hf Hcp Hd Hq Hg Hc Hh Ho Ht Hset.
  assert (Hungrouped : match topics (broker tp) !! topic with
    | Some st => group (Broker.options st) = "" | None => True end).
  { destruct (topics (broker tp) !! topic) eqn:E; [by apply Hg|done]. }
  destruct (produce_room topic payload p tp s m Hser Hcp Hd) as (tp' & -> & Hb).
  { apply publish_room. unfold queue_at in Hq. destruct (topics (broker tp) !! topic); [|done].
    split; [done|by apply is_full_empty]. }
  cbn [fst snd]. split; [done|]. split; [done|].
  assert (Hret : (Broker.publish topic payload (send_route (producer_options p))
    (broker tp)).1 = Ret true).
  { apply publish_room. unfold queue_at in Hq. destruct (topics (broker tp) !! topic); [|done].
    split; [done|by apply is_full_empty]. }
  destruct (Broker.publish topic payload _ (broker tp)) as [o b'] eqn:Hpub. cbn in Hb, Hret.
  subst o b'. destruct (publish_direct_run _ _ _ _ _ _ Hungrouped Hpub) as [Hown _].
  destruct (Hown true eq_refl) as (_ & n & Hn).
  assert (Hqueue : queue_at (broker tp') topic = [mkHeld n payload false]).
  { unfold queue_at. rewrite Hn. cbn [stored messages]. unfold queue_after.
    unfold queue_at in Hq. destruct (topics (broker tp) !! topic) as [st|]; [|done].
    cbn [default from_option id]. rewrite is_full_empty by done. unfold id. by rewrite Hq. }
  destruct (poll_user f (with_broker (λ _, broker tp') t) (mkHeld n payload false) [] c u m Ack)
    as (t' & Hpoll & Hdisp & _ & _ & Hout & _ & Hstats).
  - split_and!; [done..|]. cbn. by rewrite Ht.
  - done.
  - cbn. by apply deserialize_serialize.
  - by rewrite Hf.
  - done.
  - rewrite Hf in Hpoll. cbn in Hpoll. exists t'. split_and!; [exact Hpoll| |exact Hout|exact Hstats].
    destruct Hdisp as [_ Hdisp]. cbn in Hdisp. rewrite Hdisp. unfold queue_at, taken. cbn.
    rewrite Ht, lookup_alter_eq, Hn. done.
Qed.

(** C12. A poison message gets two chances.  When the handler reports a transient
    failure every time, the first poll puts the message back at the front flagged
    redelivered, the second rejects it into the forensic destination: the handler
    ran exactly twice, the rest of the queue is as it was, and the evidence is
    there unless that destination already holds its bound. *)
Theorem poison_two_strikes {U} (f : ByteMessage → M U unit) (t : IT) x rest c u msg reason st fo :
  (∀ u, (f msg u).1 = Throw (TransientFailure reason)) →
  awaiting t x rest → redelivered x = false → _settlements c = None →
  deserialize (body x) = Ret msg →
  topics (broker t) !! _topic t = Some st → deadLetter (Broker.options st) = true →
  topics (broker t) !! deadLetterTopic (_topic t) = Some fo →
  deadLetter (Broker.options fo) = false →
  let u1 := (f msg u).2 in
  let u2 := (f msg u1).2 in
  ∃ t1 t2,
    poll (user_handlers f) [] [[]] (t, (c, u)) = (Ret true, (t1, (count_decided Requeue c, u1))) ∧
    queue_at (broker t1) (_topic t) = flag x :: rest ∧
    poll (user_handlers f) [] [[]] (t1, (count_decided Requeue c, u1)) =
      (Ret true, (t2, (count_decided Reject (count_decided Requeue c), u2))) ∧
    queue_at (broker t2) (_topic t) = rest ∧
    ∃ n, topics (broker t2) !! deadLetterTopic (_topic t) =
      Some (stored fo (mkHeld n (body x) false)).
Proof.
  intros Hf Haw Hx Hset Hmsg Hst Hd Hfo Hfd u1 u2.
  assert (Hne : deadLetterTopic (_topic t) ≠ _topic t).
  { intros Heq. apply (f_equal String.length) in Heq. rewrite deadLetterTopic_length in Heq. lia. }
  destruct (poll_user f t x rest c u msg Requeue Haw Hset Hmsg)
    as (t1 & Hp1 & [_ [Hown Hother]] & Hc1 & Hh1 & Ho1 & Ht1 & _); [by rewrite Hf, Hx|done|].
  assert (Htaken : topics (taken t rest) !! _topic t = Some (with_messages (λ _, rest) st)).
  { unfold taken. cbn. by rewrite lookup_alter_eq, Hst. }
  rewrite Htaken in Hown. cbn in Hown.
  assert (Hq1 : queue_at (broker t1) (_topic t) = flag x :: rest) by (unfold queue_at; by rewrite Hown).
  assert (Hfo1 : topics (broker t1) !! deadLetterTopic (_topic t) = Some fo).
  { rewrite Hother by done. unfold taken. cbn. by rewrite lookup_alter_ne. }
  set (st2 := with_messages (λ _, rest) (with_messages (cons (flag x)) (with_messages (λ _, rest) st))).
  assert (Htaken2 : topics (taken t1 rest) !! _topic t1 = Some st2).
  { unfold taken. cbn. by rewrite Ht1, lookup_alter_eq, Hown. }
  assert (Hfo2 : topics (taken t1 rest) !! deadLetterTopic (_topic t1) = Some fo).
  { unfold taken. cbn. by rewrite Ht1, lookup_alter_ne. }
  destruct (poll_user f t1 (flag x) rest (count_decided Requeue c) u1 msg Reject)
    as (t2 & Hp2 & Hdisp & _).
  - destruct Haw as (_ & Hh & _). split_and!; [done|by rewrite Hh1|done|by rewrite Ht1].
  - done.
  - done.
  - by rewrite Hf.
  - intros _ st' Hst' _. by exists fo.
  - exists t1, t2. destruct Hdisp as [_ Hdisp]. rewrite Htaken2 in Hdisp. cbn [st2 with_messages Broker.options] in Hdisp.
    rewrite Hd in Hdisp. destruct Hdisp as (f' & n & Hf' & Htop). rewrite Hfo2 in Hf'.
    injection Hf' as <-. split_and!; [exact Hp1|exact Hq1|exact Hp2| |].
    + unfold queue_at. rewrite Htop, Ht1, lookup_insert_ne by done. rewrite <- Ht1 at 1.
      by rewrite Htaken2.
    + exists n. by rewrite Htop, Ht1, lookup_insert_eq.
Qed.

(** ** The properties on a small system *)

Definition demo_producer : Producer := mkProducer (mkSendOptions false false "") 0.
Definition demo_consumer : Consumer := mkConsumer 0 0 0 0 None.

(** A declared topic with a subscribed transport. *)
Definition demo_subscribed : IT :=
  let t1 := (connect default_Endpoint 0 (new_InMemoryTransport empty_Broker)).2 in
  let t2 := (ensureTopic "jobs" default_TopicOptions 0 t1).2 in
  (subscribe "jobs" (Some (mkSubscription "jobs" true)) 0 t2).2.

(** The same with one job waiting. *)
Definition demo_waiting : IT :=
  (send "jobs" "motus:1:work" (mkSendOptions false false "") demo_subscribed).2.

Definition demo_ok : ByteMessage → M nat unit := λ _ n, (Ret tt, S n).
Definition demo_busy : ByteMessage → M nat unit := λ _ n, (Throw (TransientFailure "busy"), S n).

Lemma message_arrives_witness :
  let r := Producer.publish ByteMessage.serialize "jobs" (mkByteMessage "work")
    (demo_subscribed, (demo_producer, tt)) in
  ∃ t', poll (user_handlers demo_ok) [] [[]]
      (with_broker (λ _, broker r.2.1) demo_subscribed, (demo_consumer, 0%nat)) =
    (Ret true, (t', (count_decided Ack demo_consumer, 1%nat))) ∧
    queue_at (broker t') "jobs" = [].
Proof.
  destruct (message_arrives demo_ok "jobs" (mkByteMessage "work") "motus:1:work" demo_producer
    demo_subscribed tt demo_subscribed demo_consumer 0%nat 1%nat)
    as (_ & _ & t' & Hp & Hq & _);
    [try (vm_compute; reflexivity)..|].
  - intros st Hst. vm_compute in Hst. injection Hst as <-. reflexivity.
  - vm_compute. by eexists.
  - exists t'. split; [exact Hp|exact Hq].
Defined.

Lemma poison_two_strikes_witness :
  ∃ t2, (let r := poll (user_handlers demo_busy) [] [[]] (demo_waiting, (demo_consumer, 0%nat)) in
    poll (user_handlers demo_busy) [] [[]] r.2) =
    (Ret true, (t2, (mkConsumer 0 1 1 0 None, 2%nat))) ∧ queue_at (broker t2) "jobs" = [].
Proof.
  destruct (poison_two_strikes demo_busy demo_waiting (mkHeld 1 "motus:1:work" false) []
    demo_consumer 0%nat (mkByteMessage "work") "busy"
    (mkTopicState [mkHeld 1 "motus:1:work" false] default_TopicOptions "jobs")
    (mkTopicState [] (forensicTopicOptions "jobs") "jobs"))
    as (t1 & t2 & Hp1 & _ & Hp2 & Hq & _).
  - intros u. reflexivity.
  - split_and!; [vm_compute; reflexivity|vm_compute; by eexists|vm_compute; reflexivity..].
  - reflexivity.
  - reflexivity.
  - vm_compute. reflexivity.
  - vm_compute. reflexivity.
  - reflexivity.
  - vm_compute. reflexivity.
  - reflexivity.
  - exists t2. split; [|exact Hq]. rewrite Hp1. exact Hp2.
Defined.

(** A deferred job, settled through the queue. *)
Definition demo_deferring : Handlers (IT * (Consumer * nat)) :=
  mkHandlers None (Some (λ _ tag '(t, (c, n)), (Ret Deferred, (t, (c, S n))))).

Definition demo_queue (q : SettlementQueue) : Consumer :=
  attachSettlementQueue q demo_consumer.

Definition demo_held : IT * (Consumer * nat) :=
  (poll demo_deferring [] [[]] (demo_waiting, (demo_queue [], 0%nat))).2.

Lemma poll_drains_first_witness :
  let '(t, (c, u)) := demo_held in
  ∃ t', poll demo_deferring [] [[]] (t, (push_all [(1, Reject)] c, u)) =
    (Ret true, (t', (mkConsumer 0 1 0 1 (Some []), 1%nat))).
Proof.
  destruct demo_held as [t [c u]] eqn:Hheld.
  assert (Hc : c = mkConsumer 0 0 0 1 (Some []) ∧ u = 1%nat)
    by (split; [apply (f_equal (λ w, w.2.1)) in Hheld|apply (f_equal (λ w, w.2.2)) in Hheld];
        vm_compute in Hheld; by rewrite <- Hheld).
  destruct Hc as [-> ->].
  assert (Ht : t = demo_held.1) by by rewrite Hheld.
  destruct (poll_drains_first (ITransport0 := inmemory_transport) demo_deferring [[]] t
    (mkConsumer 0 0 0 1 (Some [(1, Reject)])) 1%nat [(1, Reject)]) as [H _]; [reflexivity|].
  eexists. etrans.
  - apply (H (settle_each [(1, Reject)] t).2). rewrite Ht. vm_compute. reflexivity.
  - rewrite Ht. vm_compute. reflexivity.
Defined.

Lemma drain_terminates_witness :
  (drain 10 [[(1, Ack)]] demo_held).1 = Ret tt ∧
  (drain 10 [[(1, Ack)]] demo_held).1 = (drain 2 [[(1, Ack)]] demo_held).1.
Proof.
  split; [vm_compute; reflexivity|].
  destruct (drain_terminates (ITransport0 := inmemory_transport) (U:=nat) 10 [[(1, Ack)]] demo_held.1 demo_held.2.1 demo_held.2.2)
    as [H _]; [vm_compute; discriminate|vm_compute; lia|].
  change demo_held with (demo_held.1, (demo_held.2.1, demo_held.2.2)).
  rewrite H. vm_compute. reflexivity.
Defined.

Lemma decided_equals_performed_witness :
  let '(o, (t', (c', u'))) :=
    poll (ITransport0 := inmemory_transport) (user_handlers demo_busy) [] [[]] (demo_waiting, (demo_consumer, 0%nat)) in
  decided c' = performed (stats t').
Proof.
  destruct (poll (ITransport0 := inmemory_transport) (user_handlers demo_busy) [] [[]] (demo_waiting, (demo_consumer, 0%nat)))
    as [o [t' [c' u']]] eqn:Hp.
  assert (Ho : o = Ret true) by (apply (f_equal fst) in Hp; vm_compute in Hp; by rewrite <- Hp).
  subst o.
  apply (decided_equals_performed (ITransport0 := inmemory_transport) (user_handlers demo_busy) [] [[]] demo_waiting demo_consumer
    0%nat true t' c' u'); [apply user_well_behaved|exact Hp|vm_compute; reflexivity].
Defined.
