(* ===== verification/Stream.v ===== *)
(** A stream of messages through the in-memory backend.

    [worked_off] is the specification of a worker: the messages of its queue are
    judged one after the other, oldest first, and a message that is requeued is
    judged once more before the next.  [worker_drains] shows that polling does
    exactly that, and [stream_in_order] that what producers publish to a topic is
    what a single consumer handles, in that order. *)

From S2P Require Import Prelude ITransport ByteMessage Dispatch Broker.
From S2P Require Import InMemoryTransport Custody Producer Consumer System.
Import InMemory.
#[local] Open Scope Z_scope.

Local Abbreviation IT := (InMemoryTransport Subscription).

Section worker.
Context {U : Type} (f : ByteMessage → M U unit).
Local Abbreviation X := (IT * (Consumer * U))%type.

(** A handler that returns or reports its failure as a [std::exception]. *)
Definition answering : Prop := ∀ m u,
  match (f m u).1 with Ret _ => True | Throw e => is_std e = true | Undefined => False end.

(** The verdict on a message, and the state the handler leaves. *)
Definition judge (x : Held) (u : U) : Disposition * U :=
  let '(o, u) := judgement f (redelivered x) (body x) u in
  (match o with Ret d => d | _ => Reject end, u).

(** The verdicts on a queue, in the order they are reached. *)
Fixpoint worked_off (q : list Held) (u : U) : list Disposition * U :=
  match q with
  | [] => ([], u)
  | x :: q =>
      let '(d, u) := judge x u in
      match d with
      | Requeue =>
          let '(d2, u) := judge (flag x) u in
          let '(ds, u) := worked_off q u in (Requeue :: d2 :: ds, u)
      | d => let '(ds, u) := worked_off q u in (d :: ds, u)
      end
  end.

(** [consumer.poll()] so many times, as long as it returns [true]. *)
Fixpoint poll_times (n : nat) : M X bool :=
  match n with
  | O => mret true
  | S n =>
      live ← poll (user_handlers f) [] [[]];
      if (live : bool) then poll_times n else mret false
  end.

Lemma judge_judgement x u :
  answering → judgement f (redelivered x) (body x) u = (Ret (judge x u).1, (judge x u).2) ∧
  (judge x u).1 ≠ Deferred ∧ (redelivered x = true → (judge x u).1 ≠ Requeue).
Proof.
  intros Ha. pose proof (judgement_not_deferred f (redelivered x) (body x) u) as Hn.
  unfold judge, judgement in *. destruct (deserialize (body x)) as [msg| |]; [|done..].
  specialize (Ha msg u). destruct (f msg u).1 as [[]|e|]; [done| |done]. unfold judged in *. run.
  cbn in Ha. rewrite Ha. clear Hn. split; [done|]. by destruct e, (redelivered x).
Qed.

Lemma taken_lookup t rest k : topics (taken t rest) !! k =
  if decide (k = _topic t) then with_messages (λ _, rest) <$> topics (broker t) !! k
  else topics (broker t) !! k.
Proof.
  unfold taken. cbn. destruct (decide (k = _topic t)) as [->|].
  - by rewrite lookup_alter_eq.
  - by rewrite lookup_alter_ne.
Qed.

Lemma taken_declared t rest : declared_kept (broker t) (taken t rest).
Proof. apply same_shape_declared, same_shape_update. Qed.

Lemma taken_provisioned (t : IT) rest :
  provisioned (broker t) (_topic t) → provisioned (taken t rest) (_topic t).
Proof.
  intros Hp st. rewrite taken_lookup, decide_True by done.
  destruct (topics (broker t) !! _topic t) as [st0|] eqn:E; [|done]. intros [= <-] Hd.
  destruct (Hp st0 E Hd) as (fo & Hfo & Hfd). exists fo. split; [|done].
  rewrite taken_lookup, decide_False; [done|]. intros Heq.
  apply (f_equal String.length) in Heq. rewrite deadLetterTopic_length in Heq. lia.
Qed.

(** What one disposition leaves in the queue. *)
Lemma disposed_keeps topic d x (b b' : Broker) :
  is_Some (topics b !! topic) → provisioned b topic → d ≠ Deferred → disposed topic d x b b' →
  queue_at b' topic = (if bool_decide (d = Requeue) then flag x :: queue_at b topic else queue_at b topic) ∧
  provisioned b' topic ∧ is_Some (topics b' !! topic).
Proof.
  intros [st Hst] Hp Hd [_ Hdisp].
  assert (Hne : deadLetterTopic topic ≠ topic).
  { intros Heq. apply (f_equal String.length) in Heq. rewrite deadLetterTopic_length in Heq. lia. }
  unfold queue_at, provisioned in *. rewrite Hst.
  destruct d; [| | |done]; rewrite ?bool_decide_false, ?bool_decide_true by done.
  - cbn in Hdisp. subst b'. split; [by rewrite Hst|]. split; [exact Hp|by eexists].
  - rewrite Hst in Hdisp.
    destruct (deadLetter (options st)) eqn:Hdl; [|subst b'; split; [by rewrite Hst|split; [exact Hp|by eexists]]].
    destruct Hdisp as (fo & n & Hfo & Hb). rewrite Hb, lookup_insert_ne by done.
    split; [by rewrite Hst|]. split; [|by eexists]. intros st' _ _. rewrite lookup_insert_eq.
    destruct (Hp st Hst Hdl) as (fo' & Hfo' & Hfd). rewrite Hfo in Hfo'. injection Hfo' as <-.
    by eexists.
  - destruct Hdisp as [Hown Hother]. rewrite Hst in Hown. cbn [default from_option id] in Hown.
    rewrite Hown. split; [done|]. split; [|by eexists]. intros st' [= <-] Hdl. rewrite Hother by done.
    by apply (Hp st).
Qed.

Lemma taken_queue (t : IT) x rest :
  queue_at (broker t) (_topic t) = x :: rest →
  queue_at (taken t rest) (_topic t) = rest ∧ is_Some (topics (taken t rest) !! _topic t).
Proof.
  unfold queue_at. rewrite taken_lookup, decide_True by done.
  by destruct (topics (broker t) !! _topic t).
Qed.

Lemma disposed_queue (t : IT) d x rest b' :
  queue_at (broker t) (_topic t) = x :: rest → provisioned (broker t) (_topic t) →
  d ≠ Deferred → disposed (_topic t) d x (taken t rest) b' →
  queue_at b' (_topic t) = (if bool_decide (d = Requeue) then flag x :: rest else rest) ∧
  provisioned b' (_topic t) ∧ is_Some (topics b' !! _topic t).
Proof.
  intros Hq Hp Hd Hdisp. destruct (taken_queue t x rest Hq) as [Hqt Hst].
  destruct (disposed_keeps (_topic t) d x (taken t rest) b' Hst) as (Hqb & ?); [|done..|].
  - by apply taken_provisioned.
  - by rewrite Hqt in Hqb.
Qed.

(** A transport that can take from its topic. *)
Definition working (t : IT) (q : list Held) : Prop :=
  _connected t = true ∧ is_Some (_handler t) ∧ _outstanding t = ∅ ∧
  queue_at (broker t) (_topic t) = q ∧ provisioned (broker t) (_topic t).

Lemma poll_once t x rest c u :
  answering → working t (x :: rest) → _settlements c = None →
  let '(d, u') := judge x u in
  ∃ t', poll (user_handlers f) [] [[]] (t, (c, u)) = (Ret true, (t', (count_decided d c, u'))) ∧
    working t' (if bool_decide (d = Requeue) then flag x :: rest else rest) ∧ _topic t' = _topic t ∧
    performed (_stats t') = tally d (performed (_stats t)).
Proof.
  intros Ha (Hc & Hh & Ho & Hq & Hp) Hset. destruct (judge_judgement x u Ha) as (Hj & Hnd & _).
  destruct (judge x u) as [d u']. cbn [fst snd] in Hj, Hnd.
  destruct (poll_judged f t x rest c u d u') as (t' & Hpoll & Hdisp & Hc' & Hh' & Ho' & Ht' & Hs');
    [done|done|done|intros _; by apply taken_provisioned|].
  exists t'. split; [exact Hpoll|]. destruct (disposed_queue t d x rest (broker t') Hq Hp Hnd Hdisp) as (? & ? & _).
  split; [|split; [done|]]; [by rewrite <- Ht' in *; unfold working; rewrite ?Hh', ?Hc'|].
  rewrite Hs', performed_bump. done.
Qed.
Lemma poll_times_step n (x x' : X) :
  poll (user_handlers f) [] [[]] x = (Ret true, x') → poll_times (S n) x = poll_times n x'.
Proof. intros Hp. cbn [poll_times]. run. by rewrite Hp. Qed.

Lemma count_decided_settlements d c : _settlements (count_decided d c) = _settlements c.
Proof. by destruct d. Qed.

Definition decide_all (ds : list Disposition) (c : Consumer) : Consumer :=
  foldl (λ c d, count_decided d c) c ds.
Definition tally_all (ds : list Disposition) (n : Z * Z * Z) : Z * Z * Z :=
  foldl (λ n d, tally d n) n ds.

Lemma drain_queue q : answering → ∀ t c u,
  working t q → _settlements c = None →
  let '(ds, u') := worked_off q u in
  ∃ t', poll_times (length ds) (t, (c, u)) = (Ret true, (t', (decide_all ds c, u'))) ∧
    working t' [] ∧ _topic t' = _topic t ∧
    performed (_stats t') = tally_all ds (performed (_stats t)) ∧
    (length q ≤ length ds ≤ 2 * length q)%nat.
Proof.
  intros Ha. induction q as [|x q IH]; intros t c u Hw Hset; [by exists t|].
  cbn [worked_off]. pose proof (poll_once t x q c u Ha Hw Hset) as Hone.
  destruct (judge x u) as [d u1]. destruct Hone as (t1 & Hp1 & Hw1 & Ht1 & Hs1).
  destruct (decide (d = Requeue)) as [->|Hd].
  - rewrite bool_decide_true in Hw1 by done. pose proof (judge_judgement (flag x) u1 Ha) as (_ & _ & Hno).
    pose proof (poll_once t1 (flag x) q (count_decided Requeue c) u1 Ha Hw1 Hset) as Htwo.
    destruct (judge (flag x) u1) as [d2 u2]. destruct Htwo as (t2 & Hp2 & Hw2 & Ht2 & Hs2).
    rewrite bool_decide_false in Hw2 by by apply Hno.
    specialize (IH t2 (count_decided d2 (count_decided Requeue c)) u2 Hw2).
    rewrite !count_decided_settlements in IH. specialize (IH Hset).
    destruct (worked_off q u2) as [ds u']. destruct IH as (t' & Hp & Hw' & Ht & Hs & Hlen).
    exists t'. cbn [length]. rewrite (poll_times_step _ _ _ Hp1), (poll_times_step _ _ _ Hp2).
    split; [exact Hp|]. split; [done|]. split; [congruence|]. split; [|lia].
    rewrite Hs, Hs2, Hs1. done.
  - rewrite bool_decide_false in Hw1 by done. specialize (IH t1 (count_decided d c) u1 Hw1).
    rewrite count_decided_settlements in IH. specialize (IH Hset).
    assert (Hwo : worked_off (x :: q) u = worked_off (x :: q) u) by done.
    destruct (worked_off q u1) as [ds u']. destruct IH as (t' & Hp & Hw' & Ht & Hs & Hlen).
    assert (Heq : ∀ A (a b : A), match d with Requeue => a | _ => b end = b) by by destruct d.
    rewrite Heq. exists t'. cbn [length]. rewrite (poll_times_step _ _ _ Hp1).
    split; [exact Hp|]. split; [done|]. split; [congruence|]. split; [|lia].
    rewrite Hs, Hs1. done.
Qed.

(** C14. A worker finishes.  Over a provisioned topic with nobody competing, whatever is
    in the queue -- undecodable bodies, messages whose handler fails for good or
    only for now -- and whatever a handler that answers does, polling works the
    queue off exactly as specified: oldest first, every message judged once, or
    twice in a row if it was requeued; after at most two polls per message the queue
    is empty, nothing is held, and consumer and transport have counted the same
    verdicts. *)
Theorem worker_drains t q c u :
  answering → working t q → _settlements c = None →
  let '(ds, u') := worked_off q u in
  ∃ t', poll_times (length ds) (t, (c, u)) = (Ret true, (t', (decide_all ds c, u'))) ∧
    queue_at (broker t') (_topic t) = [] ∧ _outstanding t' = ∅ ∧
    performed (stats t') = tally_all ds (performed (stats t)) ∧
    (length q ≤ length ds ≤ 2 * length q)%nat.
Proof.
  intros Ha Hw Hset. pose proof (drain_queue q Ha t c u Hw Hset) as H.
  destruct (worked_off q u) as [ds u']. destruct H as (t' & Hp & (_ & _ & Ho & Hq & _) & Ht & Hs & Hl).
  exists t'. split; [exact Hp|]. by rewrite <- Ht.
Qed.

End worker.

(** ** Producing a stream *)

Section stream.
Context {S : Type}.
Local Abbreviation Y := (IT * (Producer * S))%type.

(** [producer.publish(topic, m)] for each message, as long as none is refused. *)
Fixpoint publish_all (topic : Topic) (ms : list ByteMessage) : M Y bool :=
  match ms with
  | [] => mret true
  | m :: ms =>
      accepted ← Producer.publish ByteMessage.serialize topic m;
      if (accepted : bool) then publish_all topic ms else mret false
  end.

(** A declared destination without a group and without a bound. *)
Definition open_topic (b : Broker) (topic : Topic) : Prop :=
  ∃ st, topics b !! topic = Some st ∧ group (Broker.options st) = "" ∧ maxLength (Broker.options st) = 0.

(** A first delivery of these bytes. *)
Definition fresh (n : Z) (wire : string) : Held := mkHeld n wire false.

Lemma open_not_full st : maxLength (Broker.options st) = 0 → is_full st = false.
Proof. intros Hm. unfold is_full. by rewrite Hm. Qed.

Lemma publish_open topic wire over b :
  open_topic b topic →
  let r := Broker.publish topic wire over b in
  r.1 = Ret true ∧ same_shape b r.2 ∧ open_topic r.2 topic ∧
  ∃ n, queue_at r.2 topic = queue_at b topic ++ [fresh n wire].
Proof.
  intros (st & Hst & Hg & Hm). pose proof (open_not_full st Hm) as Hroom.
  assert (Hret : (Broker.publish topic wire over b).1 = Ret true)
    by (apply publish_room; by rewrite Hst).
  assert (Hs : same_shape b (Broker.publish topic wire over b).2).
  { rewrite publish_ungrouped_run by (by rewrite Hst).
    rewrite (touched_known _ _ _ Hst). apply enqueue_next_shape. }
  destruct (Broker.publish topic wire over b) as [o b'] eqn:Hpub. cbn in Hret |- *. subst o.
  destruct (publish_direct_run topic wire over b (Ret true) b') as [Hown _]; [by rewrite Hst|done|].
  destruct (Hown true eq_refl) as (_ & n & Hn). rewrite Hst in Hn. cbn in Hn.
  split; [done|]. split; [done|]. split; [by eexists|].
  exists n. unfold queue_at. rewrite Hn, Hst. cbn. unfold queue_after. by rewrite Hroom.
Qed.

Lemma publish_all_run topic ms wires : Forall2 (λ m w, ByteMessage.serialize m = Ret w) ms wires →
  ∀ (t : IT) p (s : S),
  _connected t = true → send_durable (producer_options p) = false → open_topic (broker t) topic →
  ∃ t' ns, publish_all topic ms (t, (p, s)) =
      (Ret true, (t', (mkProducer (producer_options p) (Nat.iter (length ms) incr64 (_published p)), s))) ∧
    length ns = length wires ∧ same_shape (broker t) (broker t') ∧
    queue_at (broker t') topic = queue_at (broker t) topic ++ zip_with fresh ns wires.
Proof.
  induction 1 as [|m w ms wires Hser _ IH]; intros t p s Hc Hd Hopen.
  { exists t, []. rewrite app_nil_r. by destruct p. }
  destruct (publish_open topic w (send_route (producer_options p)) (broker t) Hopen)
    as (Hret & Hshape & Hopen' & n & Hq).
  destruct (produce_room topic w p t s m Hser Hc Hd Hret) as (t1 & Hp & Hb).
  assert (Hc1 : _connected t1 = true).
  { revert Hp. unfold Producer.publish, publishWith, MessagePublisher_publish. run. unfold id.
    rewrite Hser. cbn [ITransport.send inmemory_transport]. unfold send, require_connected. run.
    rewrite Hc, Hd. cbn [negb]. unfold on_broker. cbn.
    destruct (Broker.publish topic w _ (broker t)) as [[[]| |] b]; [|done..]. cbn. by intros [= <-]. }
  rewrite <- Hb in Hshape, Hopen', Hq.
  destruct (IH t1 (mkProducer (producer_options p) (incr64 (_published p))) s Hc1 Hd Hopen')
    as (t' & ns & Hall & Hlen & Hshape' & Hq').
  exists t', (n :: ns). cbn [publish_all]. run. rewrite Hp. split; [|split; [cbn; by rewrite Hlen|split]].
  - rewrite Hall. cbn [producer_options _published length]. by rewrite Nat.iter_succ_r.
  - by etrans.
  - rewrite Hq', Hq. by rewrite <- app_assoc.
Qed.
End stream.

(** Sequence numbers do not matter to a worker. *)
Lemma worked_off_fresh {U} (f : ByteMessage → M U unit) wires : ∀ ns u,
  length ns = length wires →
  worked_off f (zip_with fresh ns wires) u = worked_off f (fresh 0 <$> wires) u.
Proof.
  induction wires as [|w wires IH]; intros [|n ns] u Hlen; [done..|].
  injection Hlen as Hlen. cbn [zip_with fmap list_fmap worked_off].
  change (judge f (fresh n w) u) with (judge f (fresh 0 w) u).
  change (judge f (flag (fresh n w))) with (judge f (flag (fresh 0 w))).
  destruct (judge f (fresh 0 w) u) as [d u1]. destruct (judge f (flag (fresh 0 w)) u1) as [d2 u2].
  by rewrite !IH.
Qed.

Lemma worked_off_succeeding {U} (f : ByteMessage → M U unit) ms wires :
  Forall2 (λ m w, ByteMessage.serialize m = Ret w) ms wires → (∀ m u, (f m u).1 = Ret tt) →
  ∀ u, worked_off f (fresh 0 <$> wires) u =
    (replicate (length ms) Ack, foldl (λ u m, (f m u).2) u ms).
Proof.
  intros Hser Hf. induction Hser as [|m w ms wires Hm _ IH]; intros u; [done|].
  cbn [fmap list_fmap worked_off]. unfold judge at 1, judgement. cbn [fresh body].
  rewrite (deserialize_serialize m w Hm), Hf. cbn. by rewrite IH.
Qed.

(** C13. What goes in comes out, in order.  A producer publishes any list of messages to a
    declared topic without group or bound that was empty; a lone consumer of that
    topic then polls.  Every publish is accepted and counted; the consumer's handler
    is run on exactly these messages in the order they were published -- with the
    retries the specification gives a message that fails for now -- until the topic is
    empty; and a handler that always returns sees each exactly once, all
    acknowledged. *)
Theorem stream_in_order {U S} (f : ByteMessage → M U unit) topic ms wires (tp : IT) p (s : S)
    (t : IT) c u :
  Forall2 (λ m w, ByteMessage.serialize m = Ret w) ms wires → answering f →
  _connected tp = true → send_durable (producer_options p) = false →
  open_topic (broker tp) topic → queue_at (broker tp) topic = [] → provisioned (broker tp) topic →
  _connected t = true → is_Some (_handler t) → _outstanding t = ∅ → _topic t = topic →
  _settlements c = None →
  let r := publish_all topic ms (tp, (p, s)) in
  r.1 = Ret true ∧ published r.2.2.1 = Nat.iter (length ms) incr64 (published p) ∧
  let '(ds, u') := worked_off f (fresh 0 <$> wires) u in
  ∃ t', poll_times f (length ds) (with_broker (λ _, broker r.2.1) t, (c, u)) =
      (Ret true, (t', (decide_all ds c, u'))) ∧
    queue_at (broker t') topic = [] ∧ _outstanding t' = ∅ ∧
    ((∀ m u, (f m u).1 = Ret tt) →
       ds = replicate (length ms) Ack ∧ u' = foldl (λ u m, (f m u).2) u ms).
Proof.
  intros Hser Ha Hcp Hdur Hopen Hempty Hprov Hc Hh Ho Ht Hset.
  destruct (publish_all_run topic ms wires Hser tp p s Hcp Hdur Hopen)
    as (tp' & ns & -> & Hlen & Hshape & Hq).
  cbn [fst snd]. split; [done|]. split; [done|]. rewrite Hempty in Hq. cbn [app] in Hq.
  assert (Hw : working (with_broker (λ _, broker tp') t) (zip_with fresh ns wires)).
  { split_and!; [done..|cbn; by rewrite Ht|]. cbn. rewrite Ht. by apply (provisioned_shape (broker tp)). }
  pose proof (drain_queue f _ Ha _ c u Hw Hset) as Hdrain.
  pose proof (worked_off_succeeding f ms wires Hser) as Hsucc.
  rewrite worked_off_fresh in Hdrain by done.
  destruct (worked_off f (fresh 0 <$> wires) u) as [ds u'] eqn:Hwo.
  destruct Hdrain as (t' & Hp & (_ & _ & Hout & Hq' & _) & Ht' & _).
  cbn in Ht'. rewrite Ht in Ht'. rewrite Ht' in Hq'.
  exists t'. split_and!; [done..|]. intros Hf. specialize (Hsucc Hf u). rewrite Hwo in Hsucc.
  by injection Hsucc.
Qed.

(** ** The properties on a small system *)

(** A handler that writes down what it was given and is busy for one kind of job. *)
Definition logging : ByteMessage → M (list string) unit := λ m log,
  (if bool_decide (payload m = "busy") then Throw (TransientFailure "disk full") else Ret tt,
   log ++ [payload m]).

Definition demo_mixed : IT :=
  foldl (λ t wire, (send "jobs" wire (mkSendOptions false false "") t).2) demo_subscribed
    ["motus:1:a"; "garbage"; "motus:1:busy"; "motus:1:b"].

Lemma logging_answers : answering logging.
Proof. intros m u. unfold logging. by case_bool_decide. Qed.

Lemma demo_provisioned (t : IT) :
  topics (broker t) !! deadLetterTopic (_topic t) =
    Some (mkTopicState [] (forensicTopicOptions (_topic t)) (_topic t)) →
  provisioned (broker t) (_topic t).
Proof. intros Hf st _ _. eexists. split; [exact Hf|done]. Qed.

Lemma worker_drains_witness :
  worked_off logging (queue_at (broker demo_mixed) "jobs") [] =
    ([Ack; Reject; Requeue; Reject; Ack], ["a"; "busy"; "busy"; "b"]) ∧
  ∃ t', poll_times logging 5 (demo_mixed, (demo_consumer, [])) =
    (Ret true, (t', (mkConsumer 2 2 1 0 None, ["a"; "busy"; "busy"; "b"]))) ∧
    queue_at (broker t') "jobs" = [].
Proof.
  assert (Hwo : worked_off logging (queue_at (broker demo_mixed) "jobs") [] =
    ([Ack; Reject; Requeue; Reject; Ack], ["a"; "busy"; "busy"; "b"])) by (vm_compute; reflexivity).
  split; [exact Hwo|].
  assert (Hw : working demo_mixed (queue_at (broker demo_mixed) "jobs")).
  { split; [vm_compute; reflexivity|]. split; [vm_compute; by eexists|].
    split; [vm_compute; reflexivity|]. split; [vm_compute; reflexivity|].
    apply demo_provisioned. vm_compute. reflexivity. }
  pose proof (worker_drains logging demo_mixed (queue_at (broker demo_mixed) "jobs") demo_consumer []
    logging_answers Hw eq_refl) as H.
  rewrite Hwo in H. destruct H as (t' & Hp & Hq & _). exists t'. split; [exact Hp|].
  assert (Ht : _topic demo_mixed = "jobs") by (vm_compute; reflexivity). rewrite Ht in Hq. exact Hq.
Defined.

Lemma stream_in_order_witness :
  let r := publish_all "jobs" [mkByteMessage "a"; mkByteMessage "busy"; mkByteMessage "b"]
    (demo_subscribed, (demo_producer, tt)) in
  r.1 = Ret true ∧
  ∃ t', poll_times logging 4 (with_broker (λ _, broker r.2.1) demo_subscribed, (demo_consumer, [])) =
    (Ret true, (t', (mkConsumer 2 1 1 0 None, ["a"; "busy"; "busy"; "b"]))) ∧
    queue_at (broker t') "jobs" = [].
Proof.
  assert (Hopen : open_topic (broker demo_subscribed) "jobs").
  { eexists. split; [vm_compute; reflexivity|]. split; reflexivity. }
  assert (Hprov : provisioned (broker demo_subscribed) "jobs").
  { apply (demo_provisioned demo_subscribed). vm_compute. reflexivity. }
  assert (Hser : Forall2 (λ m w, ByteMessage.serialize m = Ret w)
    [mkByteMessage "a"; mkByteMessage "busy"; mkByteMessage "b"]
    ["motus:1:a"; "motus:1:busy"; "motus:1:b"]) by (repeat constructor).
  pose proof (stream_in_order logging "jobs" _ _ demo_subscribed demo_producer tt demo_subscribed
    demo_consumer [] Hser logging_answers ltac:(vm_compute; reflexivity) eq_refl Hopen
    ltac:(vm_compute; reflexivity) Hprov ltac:(vm_compute; reflexivity)
    ltac:(vm_compute; by eexists) ltac:(vm_compute; reflexivity) ltac:(vm_compute; reflexivity) eq_refl)
    as (Hret & _ & H).
  split; [exact Hret|].
  assert (Hwo : worked_off logging (fresh 0 <$> ["motus:1:a"; "motus:1:busy"; "motus:1:b"]) [] =
    ([Ack; Requeue; Reject; Ack], ["a"; "busy"; "busy"; "b"])) by (vm_compute; reflexivity).
  rewrite Hwo in H. destruct H as (t' & Hp & Hq & _). exists t'. split; [exact Hp|exact Hq].
Defined.
