(* ===== verification/Pool.v ===== *)
(** A pool of workers behind one consumer, through the in-memory backend.

    A deferred handler takes each delivery in and hands the job to a pool; what a
    worker makes of it comes back through the [SettlementQueue] the consumer drains
    when it polls.  [Desk] is the specification: at most one job is out, the others
    wait in order.  [pool_refines_desk] shows that polling is a run of the desk
    whatever the workers decide and however long they take, [pool_finishes] that a
    pool that answers works its topic off in order. *)

From S2P Require Import Prelude ITransport ByteMessage Dispatch Broker.
From S2P Require Import InMemoryTransport Custody Producer Consumer System Stream.
Import InMemory.
#[local] Open Scope Z_scope.

Local Abbreviation IT := (InMemoryTransport Subscription).

(** ** The desk *)

Record Desk (U : Type) : Type := mkDesk {
  waiting : list Held;
  job : option Held;
  book : U;
}.
Arguments mkDesk {U}. Arguments waiting {U}. Arguments job {U}. Arguments book {U}.

(** A requeued message goes back to the front, flagged. *)
Definition put_back (d : Disposition) (x : Held) (q : list Held) : list Held :=
  if bool_decide (d = Requeue) then flag x :: q else q.

Section desk.
Context {U : Type} (f : ByteMessage → Z → M U Disposition).

(** What the handler [f] makes of a delivery when it takes it in. *)
Definition intake (x : Held) (u : U) : Disposition * U :=
  match deserialize (body x) with
  | Ret msg =>
      (match judged (redelivered x) (f msg (sequence x) u).1 with Ret d => d | _ => Reject end,
       (f msg (sequence x) u).2)
  | _ => (Reject, u)
  end.

(** The pool's verdict on the job that is out, if there is one of each. *)
Definition finish (verdict : option Disposition) (k : Desk U) : list Disposition * Desk U :=
  match job k, verdict with
  | Some x, Some d => ([d], mkDesk (put_back d x (waiting k)) None (book k))
  | _, _ => ([], k)
  end.

(** The next job is taken in when none is out. *)
Definition accept (k : Desk U) : list Disposition * Desk U :=
  match job k, waiting k with
  | None, x :: q =>
      let '(d, u) := intake x (book k) in
      ([d], if bool_decide (d = Deferred) then mkDesk q (Some x) u else mkDesk (put_back d x q) None u)
  | _, _ => ([], k)
  end.

Definition turn (verdict : option Disposition) (k : Desk U) : list Disposition * Desk U :=
  let '(ds, k) := finish verdict k in
  let '(ds', k) := accept k in (ds ++ ds', k).

Fixpoint turns (verdicts : list (option Disposition)) (k : Desk U) : list Disposition * Desk U :=
  match verdicts with
  | [] => ([], k)
  | v :: verdicts =>
      let '(ds, k) := turn v k in
      let '(ds', k) := turns verdicts k in (ds ++ ds', k)
  end.

(** A handler that returns or reports its failure as a [std::exception]. *)
Definition taking : Prop := ∀ msg tag u,
  match (f msg tag u).1 with Ret _ => True | Throw e => is_std e = true | Undefined => False end.

(** ** The consumer at the desk *)

Local Abbreviation X := (IT * (Consumer * U))%type.

Definition on_job : DeferredMessageHandler X := λ msg tag x,
  let '(t, (c, u)) := x in
  let '(o, u) := f msg tag u in (o, (t, (c, u))).

Definition pool_handlers : Handlers X := mkHandlers None (Some on_job).

(** The pool answers for the delivery it holds, by its tag. *)
Definition handed_in (verdict : option Disposition) (t : IT) : list (Z * Disposition) :=
  match elements (dom (_outstanding t)), verdict with
  | tag :: _, Some d => [(tag, d)]
  | _, _ => []
  end.

(** Polls, each with the verdict that arrived since the one before. *)
Fixpoint attend (verdicts : list (option Disposition)) : M X bool :=
  match verdicts with
  | [] => mret true
  | v :: verdicts =>
      '(t, _) ← gets id;
      live ← poll pool_handlers [handed_in v t] [[]];
      if (live : bool) then attend verdicts else mret false
  end.

(** The transport and the consumer in the state the desk describes. *)
Definition at_desk (t : IT) (c : Consumer) (k : Desk U) : Prop :=
  _connected t = true ∧ is_Some (_handler t) ∧
  _outstanding t = match job k with Some x => {[sequence x := x]} | None => ∅ end ∧
  queue_at (broker t) (_topic t) = waiting k ∧
  provisioned (broker t) (_topic t) ∧ is_Some (topics (broker t) !! _topic t) ∧
  _settlements c = Some [].

(** The same subscription, over a broker that forgot no declaration. *)
Definition progressed (t t' : IT) : Prop :=
  _topic t' = _topic t ∧ declared_kept (broker t) (broker t') ∧
  groups (broker t') = groups (broker t).

#[export] Instance progressed_preorder : PreOrder progressed.
Proof.
  unfold progressed. split; [by split|]. intros t1 t2 t3 (-> & ? & ->) (-> & ? & ->).
  split; [done|]. split; [by etrans|done].
Qed.

Lemma disposed_progressed d x b b' (t : IT) :
  is_Some (topics b !! _topic t) → disposed (_topic t) d x b b' →
  declared_kept b b' ∧ groups b' = groups b.
Proof. intros Hst Hd. split; [by apply (disposed_declared (_topic t) d x)|]. by destruct Hd. Qed.

(** ** Taking a job in *)

Lemma pool_well_behaved : well_behaved pool_handlers.
Proof.
  split; [done|]. intros h m tag [t [c u]] [= <-]. unfold on_job. destruct (f m tag u) as [o u'].
  split; [apply by_others_refl|done].
Qed.

Lemma pool_quiet : quiet (on_delivery pool_handlers).
Proof.
  intros h d t s. exact (on_delivery_by_others pool_handlers h d (t, s) pool_well_behaved).
Qed.

Lemma on_delivery_job sub x t c u :
  taking →
  on_delivery pool_handlers sub (delivery_of x) (t, (c, u)) =
    (Ret (intake x u).1, (t, (count_decided (intake x u).1 c, (intake x u).2))).
Proof.
  intros Hf. rewrite on_delivery_run. unfold intake.
  assert (Hdeg : ∀ d, degraded (capabilities t) d = d).
  { intros d. unfold degraded. cbn. by rewrite andb_false_r. }
  cbn [delivery_of delivery_body delivery_redelivered delivery_tag].
  destruct (deserialize (body x)) as [msg|e|] eqn:Hmsg; cycle 1.
  { destruct (dispatch_undecodable (body x) pool_handlers (redelivered x) (sequence x)
      (t, (c, u))) as (text & ->); [by rewrite Hmsg|]. cbn. by rewrite Hdeg. }
  { by apply deserialize_not_undefined in Hmsg. }
  destruct (dispatch_handled (body x) pool_handlers (redelivered x) (sequence x) msg (t, (c, u)) Hmsg)
    as [Ho Hu].
  cbn [pool_handlers onDeferred onMessage] in Ho, Hu.
  destruct (dispatch _ _ _ _ (t, (c, u))) as [o1 w]. cbn [fst snd] in Ho, Hu. subst w.
  specialize (Hf msg (sequence x) u). unfold on_job in *.
  destruct (f msg (sequence x) u) as [o2 u2]. cbn [fst snd] in *.
  assert (Hj : ∃ d, judged (redelivered x) o2 = Ret d).
  { unfold judged. destruct o2 as [d|e|]; [by eexists|rewrite Hf; by eexists|done]. }
  destruct Hj as [d Hd]. rewrite Hd in Ho |- *.
  destruct o1 as [r|e|]; [|done..]. injection Ho as <-. cbn. by rewrite Hdeg.
Qed.

(** ** One poll is one turn *)

Lemma settled_decided d (c : Consumer) :
  d ≠ Deferred → _settlements c = Some [] → count_settled d (with_settlements [] c) = count_decided d c.
Proof. destruct c. cbn. by intros Hd [= ->]; destruct d. Qed.

Lemma accept_simulated t c k :
  taking → at_desk t c k →
  let '(ds, k') := accept k in
  ∃ t', pump (on_delivery pool_handlers) [[]] (t, (c, book k)) =
      (Ret true, (t', (decide_all ds c, book k'))) ∧
    at_desk t' (decide_all ds c) k' ∧ progressed t t' ∧
    performed (_stats t') = tally_all ds (performed (_stats t)).
Proof.
  intros Hf (Hc & [h Hh] & Ho & Hq & Hp & Hst & Hset). unfold accept, pump. run. unfold id.
  rewrite Hc, Hh. cbn [negb]. destruct k as [q [y|] u]; cbn [job waiting book] in *.
  { exists t. rewrite pump_loop_busy by (rewrite Ho; apply map_non_empty_singleton).
    split; [by destruct t|]. split; [by repeat split|]. by split. }
  destruct (pump_loop_cases (on_delivery pool_handlers) h [[]] t (c, u) Ho)
    as [[Heq Hempty]|(n & x & rest & Hn & Hqn & _ & Heq)]; rewrite Heq.
  { specialize (Hempty 1%nat ltac:(cbn; lia)). cbn in Hempty. rewrite Hq in Hempty.
    rewrite Hempty in Hq |- *.
    exists t. split; [by destruct t|]. split; [by repeat split|]. by split. }
  assert (n = 1%nat) as -> by (cbn in Hn; lia).
  change (after_rounds _ _) with (broker t) in Hqn. change (after_rounds _ _) with (broker t).
  rewrite Hq in Hqn. rewrite Hqn in Hq |- *. change (with_broker (λ _, _) t) with (with_broker (λ _, taken t rest) t).
  set (t1 := with_broker (λ _, taken t rest) t).
  rewrite (deliver_run _ h x t1 (c, u) pool_quiet Ho).
  rewrite (on_delivery_job h x (holding x t1) c u Hf). destruct (intake x u) as [d u']. cbn [fst snd].
  destruct (decide (d = Deferred)) as [->|Hd].
  - rewrite bool_decide_true by done. eexists. split; [done|].
    destruct (taken_queue t x rest Hq) as [Hqt Hst'].
    split; [|split; [by split; [|split; [apply taken_declared|]]|done]].
    split; [done|]. split; [by eexists|]. split; [done|]. split; [done|].
    split; [exact (taken_provisioned t rest Hp)|]. by split.
  - rewrite bool_decide_false by done.
    destruct (resolve_run d x (with_outstanding (λ _, ∅)
      (with_broker (λ _, broker (holding x t1)) (holding x t1)))) as (b' & Hdisp & ->).
    { intros _. exact (taken_provisioned t rest Hp). }
    destruct (disposed_queue t d x rest b' Hq Hp Hd Hdisp) as (Hq' & Hp' & Hst').
    eexists. split; [by destruct d|]. split; [|split].
    + split; [done|]. split; [by eexists|]. split; [done|]. split; [exact Hq'|]. split; [exact Hp'|].
      split; [exact Hst'|]. cbn. by rewrite count_decided_settlements.
    + split; [done|]. destruct (taken_queue t x rest Hq) as [_ Hst1].
      destruct (disposed_progressed d x _ _ t Hst1 Hdisp) as [Hdecl Hgr].
      split; [by etrans; [apply taken_declared|]|exact Hgr].
    + cbn. by rewrite performed_bump.
Qed.

Lemma finish_simulated verdict t c k :
  verdict ≠ Some Deferred → at_desk t c k →
  let '(ds, k') := finish verdict k in
  ∃ t', drain (drain_fuel [handed_in verdict t] c) [handed_in verdict t] (t, (c, book k)) =
      (Ret tt, (t', (decide_all ds c, book k'))) ∧
    at_desk t' (decide_all ds c) k' ∧ progressed t t' ∧
    performed (_stats t') = tally_all ds (performed (_stats t)).
Proof.
  intros Hv Hat. pose proof Hat as (Hc & Hh & Ho & Hq & Hp & Hst & Hset).
  assert (Hnone : handed_in verdict t = [] →
    drain (drain_fuel [handed_in verdict t] c) [handed_in verdict t] (t, (c, book k)) =
      (Ret tt, (t, (c, book k)))).
  { intros ->. unfold drain_fuel. by rewrite (drain_step _ _ _ _ _ [] Hset). }
  unfold finish. destruct (job k) as [x|] eqn:Hk; cycle 1.
  { exists t. split; [apply Hnone; unfold handed_in; by rewrite Ho, dom_empty_L, elements_empty|].
    by split_and!. }
  assert (Hin : handed_in verdict t = match verdict with Some d => [(sequence x, d)] | None => [] end).
  { unfold handed_in. by rewrite Ho, dom_singleton_L, elements_singleton. }
  destruct verdict as [d|]; [|by exists t; split; [by apply Hnone|]].
  rewrite Hin. unfold drain_fuel. rewrite Hset. cbn [default from_option id concat app length Nat.add].
  rewrite (drain_step _ _ _ _ _ [] Hset). cbn [head default from_option app].
  cbn [ITransport.settle inmemory_transport]. unfold id, settle, require_connected. run.
  rewrite Hc. cbn [negb]. run. rewrite bool_decide_false by naive_solver. cbn [throw_if].
  rewrite Ho, lookup_singleton_eq. run.
  destruct (resolve_run d x (with_outstanding (delete (sequence x)) t)) as (b' & Hdisp & Hres);
    [by intros _|].
  cbn [throw_if]. run. rewrite Hres.
  destruct (disposed_keeps (_topic t) d x (broker t) b' Hst Hp ltac:(naive_solver) Hdisp)
    as (Hq' & Hp' & Hst').
  rewrite (drain_step _ _ _ _ _ [] ) by (by destruct d). cbn.
  rewrite settled_decided by (done || naive_solver).
  eexists. split; [done|]. split; [|split; [|exact (performed_bump d (_stats t))]].
  2:{ split; [done|]. exact (disposed_progressed d x _ _ t Hst Hdisp). }
  split; [done|]. split; [done|]. split; [cbn; by rewrite Ho, delete_singleton_eq|].
  split; [unfold put_back; by rewrite <- Hq|]. split; [exact Hp'|]. split; [exact Hst'|].
  by rewrite count_decided_settlements.
Qed.

Lemma turn_simulated verdict t c k :
  taking → verdict ≠ Some Deferred → at_desk t c k →
  let '(ds, k') := turn verdict k in
  ∃ t', poll pool_handlers [handed_in verdict t] [[]] (t, (c, book k)) =
      (Ret true, (t', (decide_all ds c, book k'))) ∧
    at_desk t' (decide_all ds c) k' ∧ progressed t t' ∧
    performed (_stats t') = tally_all ds (performed (_stats t)).
Proof.
  intros Hf Hv Hat. unfold turn, poll. run. unfold id.
  pose proof Hat as (_ & _ & _ & _ & _ & _ & Hset). rewrite bool_decide_false by by rewrite Hset.
  pose proof (finish_simulated verdict t c k Hv Hat) as Hfin.
  destruct (finish verdict k) as [ds1 k1]. destruct Hfin as (t1 & Hrun & Hat1 & Ht1 & Hs1).
  rewrite Hrun. pose proof (accept_simulated t1 _ k1 Hf Hat1) as Hacc.
  destruct (accept k1) as [ds2 k2]. destruct Hacc as (t2 & Hrun2 & Hat2 & Ht2 & Hs2).
  exists t2. unfold decide_all, tally_all in *. rewrite !foldl_app.
  split; [exact Hrun2|]. split; [exact Hat2|]. split; [by etrans|]. by rewrite Hs2, Hs1.
Qed.

Lemma turns_simulated verdicts : taking → Forall (λ v, v ≠ Some Deferred) verdicts →
  ∀ t c k, at_desk t c k →
  let '(ds, k') := turns verdicts k in
  ∃ t', attend verdicts (t, (c, book k)) = (Ret true, (t', (decide_all ds c, book k'))) ∧
    at_desk t' (decide_all ds c) k' ∧ progressed t t' ∧
    performed (_stats t') = tally_all ds (performed (_stats t)).
Proof.
  intros Hf. induction 1 as [|v verdicts Hv _ IH]; intros t c k Hat; [by exists t; split_and!|].
  cbn [turns attend]. pose proof (turn_simulated v t c k Hf Hv Hat) as Hturn.
  destruct (turn v k) as [ds1 k1]. destruct Hturn as (t1 & Hrun1 & Hat1 & Ht1 & Hs1).
  specialize (IH t1 _ k1 Hat1). destruct (turns verdicts k1) as [ds2 k2].
  destruct IH as (t2 & Hrun2 & Hat2 & Ht2 & Hs2). exists t2. run. unfold id. rewrite Hrun1.
  unfold decide_all, tally_all in *. rewrite !foldl_app.
  split; [exact Hrun2|]. split; [exact Hat2|]. split; [by etrans|]. by rewrite Hs2, Hs1.
Qed.

(** C15. Polling is attending the desk.  Whatever a handler that answers does with the
    jobs it is given, whatever the pool decides on each and however many polls pass
    before it does: every poll returns [true] and is exactly one turn of the desk --
    the pool's verdict on the job that is out is carried out, and then, only if no
    job is out, the oldest waiting message is handed over -- and consumer and
    transport count exactly the verdicts of the desk. *)
Theorem pool_refines_desk verdicts t c k :
  taking → Forall (λ v, v ≠ Some Deferred) verdicts → at_desk t c k →
  let '(ds, k') := turns verdicts k in
  ∃ t', attend verdicts (t, (c, book k)) = (Ret true, (t', (decide_all ds c, book k'))) ∧
    at_desk t' (decide_all ds c) k' ∧ progressed t t' ∧
    performed (stats t') = tally_all ds (performed (stats t)).
Proof. intros. by apply turns_simulated. Qed.

(** ** A pool that answers *)

(** The verdicts [ds], one after the other, finish the queue; the jobs were [hs]. *)
Inductive works : list Held → list Disposition → list Held → Prop :=
  | works_none : works [] [] []
  | works_one x q d ds hs : works (put_back d x q) ds hs → works (x :: q) (d :: ds) (x :: hs).

(** The pool takes so many polls before each verdict. *)
Definition answers (js : list (nat * Disposition)) : list (option Disposition) :=
  concat ((λ '(n, d), replicate n None ++ [Some d]) <$> js).

(** What the handler has seen of the jobs. *)
Definition take_in (u : U) (x : Held) : U :=
  match deserialize (body x) with Ret msg => (f msg (sequence x) u).2 | _ => u end.

Definition decodable (x : Held) : Prop := ∃ msg, deserialize (body x) = Ret msg.

Definition deferring : Prop := ∀ msg tag u, (f msg tag u).1 = Ret Deferred.

Lemma turns_app vs1 vs2 k :
  turns (vs1 ++ vs2) k =
    let '(ds1, k1) := turns vs1 k in let '(ds2, k2) := turns vs2 k1 in (ds1 ++ ds2, k2).
Proof.
  revert k. induction vs1 as [|v vs1 IH]; intros k; cbn [turns app].
  - by destruct (turns vs2 k).
  - destruct (turn v k) as [ds k0]. rewrite IH. destruct (turns vs1 k0) as [ds1 k1].
    destruct (turns vs2 k1) as [ds2 k2]. by rewrite app_assoc.
Qed.

(** While a job is out nothing else happens. *)
Lemma turns_idle n q x u : turns (replicate n None) (mkDesk q (Some x) u) = ([], mkDesk q (Some x) u).
Proof. induction n as [|n IH]; [done|]. cbn [replicate turns]. unfold turn. cbn. by rewrite IH. Qed.

Lemma accept_deferring x q u : deferring → decodable x →
  accept (mkDesk (x :: q) None u) = ([Deferred], mkDesk q (Some x) (take_in u x)).
Proof.
  intros Hf [msg Hx]. unfold accept, intake, take_in. cbn [job waiting book].
  rewrite Hx, Hf. cbn [judged]. by rewrite bool_decide_true.
Qed.

Lemma put_back_decodable d x q :
  decodable x → Forall decodable q → Forall decodable (put_back d x q).
Proof. intros Hx Hq. unfold put_back. case_bool_decide; [|done]. by constructor. Qed.

Lemma works_turns q ds hs : deferring → works q ds hs → ∀ js u,
  js.*2 = ds → Forall decodable q →
  let '(ds0, k) := accept (mkDesk q None u) in
  let '(ds1, k') := turns (answers js) k in
  ds0 ++ ds1 = concat ((λ d, [Deferred; d]) <$> ds) ∧ k' = mkDesk [] None (foldl take_in u hs).
Proof.
  intros Hf. induction 1 as [|x q d ds hs _ IH]; intros js u Hjs Hdec.
  { by apply fmap_nil_inv in Hjs as ->. }
  destruct js as [|[n d'] js]; [done|]. injection Hjs as -> Hjs.
  apply Forall_cons in Hdec as [Hx Hq]. rewrite (accept_deferring x q u Hf Hx).
  specialize (IH js (take_in u x) Hjs (put_back_decodable d x q Hx Hq)).
  change (answers ((n, d) :: js)) with ((replicate n None ++ [Some d]) ++ answers js).
  rewrite <- app_assoc, turns_app, turns_idle. cbn [app turns]. unfold turn at 1.
  cbn [finish job waiting book]. destruct (accept _) as [ds0 k].
  destruct (turns (answers js) k) as [ds1 k']. destruct IH as [IH ->]. split; [|done].
  cbn [fmap list_fmap concat app]. by rewrite <- IH.
Qed.

Lemma works_once q ds hs : works q ds hs → Forall (λ d, d ≠ Requeue) ds → hs = q.
Proof.
  induction 1 as [|x q d ds hs _ IH]; intros Hds; [done|]. apply Forall_cons in Hds as [Hd Hds].
  rewrite (IH Hds). unfold put_back. by rewrite bool_decide_false.
Qed.

Lemma tally_deferred ds n :
  tally_all (concat ((λ d, [Deferred; d]) <$> ds)) n = tally_all ds n.
Proof.
  revert n. unfold tally_all. induction ds as [|d ds IH]; intros [[a b] e]; [done|]. cbn. apply IH.
Qed.

Lemma answers_final js :
  Forall (λ d, d ≠ Deferred) js.*2 → Forall (λ v, v ≠ Some Deferred) (answers js).
Proof.
  induction js as [|[n d] js IH]; intros Hds; [by constructor|]. apply Forall_cons in Hds as [Hd Hds].
  apply Forall_app. split; [|by apply IH]. apply Forall_app. split; [by apply Forall_replicate|].
  constructor; [cbn in Hd; naive_solver|done].
Qed.

(** C16. A pool that answers works its topic off.  A handler that defers every job, over a
    queue of decodable messages; workers that take however many polls they like for
    each job and then acknowledge, reject or requeue it, until the last one is done.
    Then the jobs were handed over one at a time, the next only when the last was
    settled, oldest first, a requeued one again before the others; every verdict
    was carried out and counted once by consumer and transport; and the topic is
    empty with nothing held.  Without requeues each message was handed over once. *)
Theorem pool_finishes t c u q js hs :
  deferring → Forall decodable q → at_desk t c (mkDesk q None u) →
  Forall (λ d, d ≠ Deferred) js.*2 → works q js.*2 hs →
  ∃ t', attend (None :: answers js) (t, (c, u)) =
      (Ret true, (t', (decide_all (concat ((λ d, [Deferred; d]) <$> js.*2)) c, foldl take_in u hs))) ∧
    queue_at (broker t') (_topic t) = [] ∧ _outstanding t' = ∅ ∧
    performed (stats t') = tally_all js.*2 (performed (stats t)) ∧
    (Forall (λ d, d ≠ Requeue) js.*2 → hs = q).
Proof.
  intros Hf Hdec Hat Hjs Hw. pose proof (works_turns q _ hs Hf Hw js u eq_refl Hdec) as Hdesk.
  assert (Hv : Forall (λ v, v ≠ Some Deferred) (None :: answers js)).
  { constructor; [done|]. by apply answers_final. }
  assert (Htaking : taking) by (intros msg tag u0; by rewrite Hf).
  pose proof (turns_simulated _ Htaking Hv t c _ Hat) as Hrun.
  cbn [turns] in Hrun. unfold turn in Hrun. cbn [finish job waiting book] in Hrun.
  destruct (accept _) as [ds0 k]. cbn [app] in Hrun. destruct (turns (answers js) k) as [ds1 k'].
  destruct Hdesk as [Hds ->]. rewrite Hds in Hrun.
  destruct Hrun as (t' & Hrun & (_ & _ & Ho & Hq & _) & [Ht _] & Hs). rewrite Ht in Hq.
  exists t'. rewrite tally_deferred in Hs. split_and!; [exact Hrun|exact Hq|exact Ho|exact Hs|].
  by apply works_once.
Qed.

End desk.

(** ** The properties on a small system *)

(** A pool that writes down the jobs it is given; it is full for one kind of them. *)
Definition hiring : ByteMessage → Z → M (list (string * Z)) Disposition := λ m tag log,
  (if bool_decide (payload m = "busy") then Throw (TransientFailure "pool full") else Ret Deferred,
   log ++ [(payload m, tag)]).

Definition enlisting : ByteMessage → Z → M (list (string * Z)) Disposition := λ m tag log,
  (Ret Deferred, log ++ [(payload m, tag)]).

Definition demo_jobs : IT :=
  foldl (λ t wire, (send "jobs" wire (mkSendOptions false false "") t).2) demo_subscribed
    ["motus:1:a"; "motus:1:b"].

Definition demo_pool : Consumer := mkConsumer 0 0 0 0 (Some []).

Lemma demo_at_desk {U} (t : IT) (u : U) :
  _connected t = true → is_Some (_handler t) → _outstanding t = ∅ →
  topics (broker t) !! deadLetterTopic (_topic t) =
    Some (mkTopicState [] (forensicTopicOptions (_topic t)) (_topic t)) →
  is_Some (topics (broker t) !! _topic t) →
  at_desk t demo_pool (mkDesk (queue_at (broker t) (_topic t)) None u).
Proof.
  intros Hc Hh Ho Hf Hst. split; [done|]. split; [done|]. split; [done|]. split; [done|].
  split; [by apply demo_provisioned|]. by split.
Qed.

(** The second job is requeued, then found to be beyond repair. *)
Lemma pool_finishes_witness :
  ∃ t', attend enlisting [None; None; None; Some Ack; Some Requeue; None; Some Reject]
      (demo_jobs, (demo_pool, [])) =
    (Ret true, (t', (mkConsumer 1 1 1 3 (Some []), [("a", 1); ("b", 2); ("b", 2)]))) ∧
    queue_at (broker t') "jobs" = [].
Proof.
  assert (Hd : deferring enlisting) by (intros ???; reflexivity).
  assert (Hq : queue_at (broker demo_jobs) (_topic demo_jobs) =
    [mkHeld 1 "motus:1:a" false; mkHeld 2 "motus:1:b" false]) by (vm_compute; reflexivity).
  assert (Hat : at_desk demo_jobs demo_pool (mkDesk (queue_at (broker demo_jobs) (_topic demo_jobs)) None
    (@nil (string * Z)))).
  { apply demo_at_desk; [vm_compute; reflexivity|vm_compute; by eexists|vm_compute; reflexivity..|].
    vm_compute. by eexists. }
  rewrite Hq in Hat.
  destruct (pool_finishes enlisting demo_jobs demo_pool []
    [mkHeld 1 "motus:1:a" false; mkHeld 2 "motus:1:b" false] [(2%nat, Ack); (0%nat, Requeue); (1%nat, Reject)]
    [mkHeld 1 "motus:1:a" false; mkHeld 2 "motus:1:b" false; mkHeld 2 "motus:1:b" true] Hd
    ltac:(repeat constructor; eexists; vm_compute; reflexivity) Hat ltac:(repeat constructor; done)
    ltac:(cbn; repeat constructor)) as (t' & Hrun & Hempty & _).
  exists t'. split; [exact Hrun|].
  assert (Ht : _topic demo_jobs = "jobs") by (vm_compute; reflexivity). rewrite Ht in Hempty. exact Hempty.
Defined.

(** A pool with no room hands a job back and gets it again. *)
Definition demo_full : IT := (send "jobs" "motus:1:busy" (mkSendOptions false false "") demo_jobs).2.

Lemma pool_refines_desk_witness :
  let start := mkDesk (queue_at (broker demo_full) (_topic demo_full)) None [] in
  turns hiring [None; Some Ack; Some Ack; None; Some Ack] start =
    ([Deferred; Ack; Deferred; Ack; Requeue; Reject],
     mkDesk [] None [("a", 1); ("b", 2); ("busy", 3); ("busy", 3)]) ∧
  ∃ t', attend hiring [None; Some Ack; Some Ack; None; Some Ack] (demo_full, (demo_pool, [])) =
    (Ret true, (t', (mkConsumer 2 1 1 2 (Some []), [("a", 1); ("b", 2); ("busy", 3); ("busy", 3)]))).
Proof.
  intros start.
  assert (Hturns : turns hiring [None; Some Ack; Some Ack; None; Some Ack] start =
    ([Deferred; Ack; Deferred; Ack; Requeue; Reject],
     mkDesk [] None [("a", 1); ("b", 2); ("busy", 3); ("busy", 3)])) by (vm_compute; reflexivity).
  split; [exact Hturns|].
  assert (Ht : taking hiring) by (intros m tag u; unfold hiring; by case_bool_decide).
  assert (Hv : Forall (λ v, v ≠ Some Deferred) [None; Some Ack; Some Ack; None; Some Ack])
    by (repeat constructor; done).
  assert (Hat : at_desk demo_full demo_pool start).
  { apply demo_at_desk; [vm_compute; reflexivity|vm_compute; by eexists|vm_compute; reflexivity..|].
    vm_compute. by eexists. }
  pose proof (pool_refines_desk hiring _ demo_full demo_pool start Ht Hv Hat) as H.
  rewrite Hturns in H. destruct H as (t' & Hrun & _). exists t'. exact Hrun.
Defined.
