(* ===== verification/Restart.v ===== *)
(** A pool of workers through restarts.

    A worker process builds a transport and a consumer, starts it, polls for a while
    and goes away, with or without [close()]; what its pool was still working on has
    been settled by nobody.  The broker stays, and the next process starts on it.
    [Desk] of [Pool] gains the interruption, [restarts_lose_nothing] shows that any
    number of such shifts in a row are shifts at the desk, and what that means for
    the messages of the queue. *)

From S2P Require Import Prelude ITransport ByteMessage Dispatch Broker.
From S2P Require Import InMemoryTransport Custody Producer Consumer System Stream Pool.
Import InMemory.
#[local] Open Scope Z_scope.

Local Abbreviation IT := (InMemoryTransport Subscription).

(** ** Shifts at the desk *)

(** The job that is out comes back, flagged, before all others. *)
Definition interrupt {U} (k : Desk U) : Desk U :=
  mkDesk (match job k with Some x => flag x :: waiting k | None => waiting k end) None (book k).

Fixpoint desk_shifts {U} (f : ByteMessage → Z → M U Disposition)
    (vss : list (list (option Disposition))) (k : Desk U) : list (list Disposition) * Desk U :=
  match vss with
  | [] => ([], k)
  | vs :: vss =>
      let '(ds, k) := turns f vs k in
      let '(dss, k) := desk_shifts f vss (interrupt k) in (ds :: dss, k)
  end.

(** The numbers of the messages the desk answers for, oldest first, and how many of
    them a list of verdicts ends. *)
Definition numbers {U} (k : Desk U) : list Z :=
  sequence <$> (match job k with Some x => [x] | None => [] end ++ waiting k).

Definition ended (ds : list Disposition) : nat :=
  length (filter (λ d, d = Ack ∨ d = Reject) ds).

Lemma ended_app ds1 ds2 : ended (ds1 ++ ds2) = (ended ds1 + ended ds2)%nat.
Proof. unfold ended. by rewrite filter_app, length_app. Qed.

Lemma put_back_numbers d x q :
  d ≠ Deferred → sequence <$> put_back d x q = drop (ended [d]) (sequence x :: (sequence <$> q)).
Proof. by destruct d. Qed.

Section desk.
Context {U : Type} (f : ByteMessage → Z → M U Disposition).

Lemma turn_numbers verdict k :
  verdict ≠ Some Deferred →
  let '(ds, k') := turn f verdict k in numbers k' = drop (ended ds) (numbers k).
Proof.
  intros Hv. unfold turn.
  assert (Hfin : let '(ds, k') := finish verdict k in numbers k' = drop (ended ds) (numbers k)).
  { unfold finish, numbers. destruct (job k) as [x|] eqn:Hk, verdict as [d|]; rewrite ?Hk; [|done..].
    cbn [job waiting app fmap list_fmap]. apply put_back_numbers. naive_solver. }
  destruct (finish verdict k) as [ds1 k1].
  assert (Hacc : let '(ds, k') := accept f k1 in numbers k' = drop (ended ds) (numbers k1)).
  { unfold accept, numbers. destruct (job k1) as [x|] eqn:Hk, (waiting k1) as [|y q] eqn:Hq;
      rewrite ?Hk, ?Hq; [done..|].
    destruct (intake f y (book k1)) as [d u]. case_bool_decide as Hd; [by subst|].
    cbn [job waiting app fmap list_fmap]. by apply put_back_numbers. }
  destruct (accept f k1) as [ds2 k2]. by rewrite Hacc, Hfin, drop_drop, ended_app.
Qed.

Lemma turns_numbers vs : Forall (λ v, v ≠ Some Deferred) vs → ∀ k,
  let '(ds, k') := turns f vs k in numbers k' = drop (ended ds) (numbers k).
Proof.
  induction 1 as [|v vs Hv _ IH]; intros k; [done|]. cbn [turns].
  pose proof (turn_numbers v k Hv) as H1. destruct (turn f v k) as [ds1 k1].
  specialize (IH k1). destruct (turns f vs k1) as [ds2 k2]. by rewrite IH, H1, drop_drop, ended_app.
Qed.

Lemma interrupt_numbers (k : Desk U) : numbers (interrupt k) = numbers k.
Proof. unfold interrupt, numbers. by destruct (job k). Qed.

Lemma shifts_numbers vss : Forall (Forall (λ v, v ≠ Some Deferred)) vss → ∀ k,
  let '(dss, k') := desk_shifts f vss k in numbers k' = drop (ended (concat dss)) (numbers k).
Proof.
  induction 1 as [|vs vss Hvs _ IH]; intros k; [done|]. cbn [desk_shifts].
  pose proof (turns_numbers vs Hvs k) as H1. destruct (turns f vs k) as [ds k1].
  specialize (IH (interrupt k1)). destruct (desk_shifts f vss (interrupt k1)) as [dss k2].
  rewrite IH, interrupt_numbers, H1, drop_drop. cbn [concat]. by rewrite ended_app.
Qed.

Lemma shifts_no_job vss k : job k = None → job (desk_shifts f vss k).2 = None.
Proof.
  revert k. induction vss as [|vs vss IH]; intros k Hk; [done|]. cbn [desk_shifts].
  destruct (turns f vs k) as [ds k1]. specialize (IH (interrupt k1) eq_refl).
  by destruct (desk_shifts f vss (interrupt k1)).
Qed.
End desk.

(** ** Worker processes *)

(** How a process leaves: [close()] and the destructor, or the destructor alone. *)
Inductive Leaving : Type := closes | dies.

Definition leave (l : Leaving) (t : IT) : IT :=
  match l with closes => (destroy (close 0 t).2).2 | dies => (destroy t).2 end.

Section process.
Context {U : Type} (f : ByteMessage → Z → M U Disposition).
Context (topic : Topic) (options : TopicOptions) (allowAsymmetric : bool).
Local Abbreviation X := (IT * (Consumer * U))%type.

(** A consumer that has just been constructed, with its settlement queue. *)
Definition newcomer : Consumer := attachSettlementQueue [] (mkConsumer 0 0 0 0 None).

(** [connect], the constructor, [attachSettlementQueue], [start]; then [poll]. *)
Definition enter : M X unit :=
  _ ← ITransport.connect (on_delivery (pool_handlers f)) default_Endpoint 0;
  '(t, _) ← gets id;
  c ← lift (new_Consumer (ITransport.capabilities t) (pool_handlers f));
  _ ← on_consumer (modify (λ _, attachSettlementQueue [] c));
  start (pool_handlers f) topic 0 options allowAsymmetric.

Definition process (verdicts : list (option Disposition)) : M X Consumer :=
  _ ← enter;
  _ ← attend f verdicts;
  '(_, (c, _)) ← gets id;
  mret c.

(** One process after the other over the broker. *)
Definition shift (verdicts : list (option Disposition)) (l : Leaving) : M (Broker * U) Consumer :=
  λ '(b, u),
    let '(o, (t, (_, u))) := process verdicts
      (new_InMemoryTransport b, (mkConsumer 0 0 0 0 None, u)) in
    (o, (broker (leave l t), u)).

Fixpoint shifts (ss : list (list (option Disposition) * Leaving)) :
    M (Broker * U) (list Consumer) :=
  match ss with
  | [] => mret []
  | (verdicts, l) :: ss => c ← shift verdicts l; cs ← shifts ss; mret (c :: cs)
  end.

(** The topic was declared with these options, and its forensic destination. *)
Definition declared (b : Broker) : Prop :=
  declared_with topic options b ∧
  (deadLetter options = true → declared_with (deadLetterTopic topic) (forensicTopicOptions topic) b).

Lemma known_stays name opts b b' :
  declared_kept b b' → groups b' = groups b → declared_with name opts b → declared_with name opts b'.
Proof.
  intros Hk Hg [(st & Hst & Hs) Hgr]. split; [|by rewrite Hg].
  destruct (declared_options b b' name st Hk Hst) as (st' & ? & Ho). exists st'. by rewrite Ho.
Qed.

Lemma declared_stays b b' :
  declared_kept b b' → groups b' = groups b → declared b → declared b'.
Proof. intros Hk Hg [H1 H2]. split; [|intros Hd; specialize (H2 Hd)]; by eapply known_stays. Qed.

Lemma declared_provisioned b : declared b → provisioned b topic.
Proof.
  intros [[(st & Hst & Hs) _] Hf] st' Hst' Hd. rewrite Hst in Hst'. injection Hst' as <-.
  destruct Hs as (_ & _ & _ & Hdl & _).
  destruct Hf as [(fo & Hfo & (_ & _ & _ & Hfd & _)) _]; [congruence|].
  exists fo. split; [done|]. by rewrite Hfd.
Qed.

Section started.
Context (permitted : checkTopicOptions (capabilities (new_InMemoryTransport empty_Broker : IT))
  options allowAsymmetric = Ret tt).

Lemma ensureTopic_declared timeout (t : IT) :
  _connected t = true → declared (broker t) → InMemory.ensureTopic topic options timeout t = (Ret tt, t).
Proof.
  intros Hc [Hk Hf]. unfold InMemory.ensureTopic, require_connected, on_broker. run.
  rewrite Hc. cbn [negb throw_if]. run.
  assert (Hsame : with_broker (λ _, broker t) t = t) by by destruct t.
  destruct (deadLetter options) eqn:Hdl.
  - rewrite (ensureTopic_redeclared _ _ _ (Hf eq_refl)), Hsame.
    by rewrite (ensureTopic_redeclared _ _ _ Hk), Hsame.
  - run. by rewrite (ensureTopic_redeclared _ _ _ Hk), Hsame.
Qed.

(** A process that has started is at the desk with the queue it found. *)
Lemma entered b (u : U) :
  declared b →
  ∃ t, enter (new_InMemoryTransport b, (mkConsumer 0 0 0 0 None, u)) = (Ret tt, (t, (newcomer, u))) ∧
    at_desk t newcomer (mkDesk (queue_at b topic) None u) ∧ _topic t = topic ∧ broker t = b.
Proof.
  intros Hd. pose proof Hd as [[(st & Hst & _) _] _].
  set (t0 := mkInMemory b true false "" None ∅ default_Stats : IT).
  exists (mkInMemory b true true topic (Some (mkSubscription topic (deadLetter options))) ∅ default_Stats).
  split; [|split; [|done]].
  2:{ split; [done|]. split; [by eexists|]. split; [done|]. split; [done|].
      split; [by apply declared_provisioned|]. split; [by eexists|done]. }
  change (enter _) with (start (pool_handlers f) topic 0 options allowAsymmetric (t0, (newcomer, u))).
  unfold start. run. unfold id.
  change (ITransport.capabilities t0) with (capabilities (new_InMemoryTransport empty_Broker : IT)).
  rewrite permitted. change (ITransport.ensureTopic _ _ _ _) with
    (on_fst (InMemory.ensureTopic topic options 0) : M X unit).
  run. by rewrite (ensureTopic_declared 0 t0).
Qed.

(** ** Leaving *)

Lemma destroy_idle (t : IT) : _outstanding t = ∅ → broker (destroy t).2 = broker t.
Proof.
  intros Ho. unfold destroy, try_catch. rewrite returnOutstanding_run.
  by rewrite (proj2 (unresolved_nil t) Ho).
Qed.

Lemma leave_broker l (t : IT) : broker (leave l t) = broker (returnOutstanding t).2.
Proof.
  destruct l; cbn [leave].
  - unfold close. run. rewrite returnOutstanding_run. by rewrite destroy_idle.
  - unfold destroy, try_catch. by rewrite returnOutstanding_run.
Qed.

(** Whoever leaves while a job is out gives it back. *)
Lemma left_desk l t c (k : Desk U) :
  at_desk t c k → _topic t = topic →
  queue_at (broker (leave l t)) topic = waiting (interrupt k) ∧
  declared_kept (broker t) (broker (leave l t)) ∧ groups (broker (leave l t)) = groups (broker t).
Proof.
  intros (_ & _ & Ho & Hq & _ & [st Hst] & _) Ht. rewrite leave_broker, returnOutstanding_run.
  cbn [snd broker with_outstanding with_broker]. rewrite Ht in *. unfold interrupt.
  destruct (job k) as [x|]; cbn [waiting].
  - rewrite (unresolved_one x t Ho). cbn [reverse rev_append foldl].
    change (reverse [x]) with [x]. cbn [foldl]. split; [|split].
    + rewrite requeue_message_run, (touched_known _ _ _ Hst). unfold queue_at in *. cbn [snd topics with_topics].
      rewrite lookup_alter_eq. rewrite Hst in *. cbn in *. by rewrite Hq.
    + apply (perform_declared (OpRequeue topic x)).
    + rewrite requeue_message_run. cbn. by rewrite touched_groups.
  - by rewrite (proj2 (unresolved_nil t) Ho).
Qed.

(** One process is one shift. *)
Lemma shift_simulated vs l b (u : U) :
  taking f → Forall (λ v, v ≠ Some Deferred) vs → declared b →
  let '(ds, k) := turns f vs (mkDesk (queue_at b topic) None u) in
  ∃ b', shift vs l (b, u) = (Ret (decide_all ds newcomer), (b', book k)) ∧
    declared b' ∧ queue_at b' topic = waiting (interrupt k).
Proof.
  intros Hf Hvs Hd. destruct (entered b u Hd) as (t & Hrun & Hat & Ht & Hb).
  pose proof (turns_simulated f vs Hf Hvs t newcomer _ Hat) as Hsim.
  destruct (turns f vs _) as [ds k]. destruct Hsim as (t' & Hatt & Hat' & (Ht' & Hk & Hg) & _).
  cbn [book] in Hatt. destruct (left_desk l t' _ k Hat') as (Hq & Hk' & Hg'); [congruence|].
  exists (broker (leave l t')). split; [|split; [|done]].
  - unfold shift, process. run. rewrite Hrun. by rewrite Hatt.
  - eapply declared_stays; [| |exact Hd]; rewrite <- Hb; [by etrans|congruence].
Qed.

Lemma shifts_simulated ss :
  taking f → Forall (Forall (λ v, v ≠ Some Deferred)) ss.*1 → ∀ b (k : Desk U),
  declared b → job k = None → queue_at b topic = waiting k →
  let '(dss, k') := desk_shifts f ss.*1 k in
  ∃ b', shifts ss (b, book k) =
      (Ret ((λ ds, decide_all ds newcomer) <$> dss), (b', book k')) ∧
    declared b' ∧ queue_at b' topic = waiting k'.
Proof.
  intros Hf. induction ss as [|[vs l] ss IH]; intros Hss b k Hd Hk Hq; [by exists b|].
  apply Forall_cons in Hss as [Hvs Hss]. cbn [fmap list_fmap desk_shifts fst].
  pose proof (shift_simulated vs l b (book k) Hf Hvs Hd) as H1. rewrite Hq in H1.
  assert (Hdesk : mkDesk (waiting k) None (book k) = k) by (destruct k; cbn in *; by subst).
  rewrite Hdesk in H1. destruct (turns f vs k) as [ds k1]. destruct H1 as (b1 & Hrun & Hd1 & Hq1).
  specialize (IH Hss b1 (interrupt k1) Hd1 eq_refl Hq1).
  change (list_fmap _ _ fst ss) with ss.*1.
  destruct (desk_shifts f ss.*1 (interrupt k1)) as [dss k2]. destruct IH as (b2 & Hrun2 & Hd2 & Hq2).
  exists b2. split; [|done]. cbn [shifts]. run. rewrite Hrun.
  change (book (interrupt k1)) with (book k1) in Hrun2. by rewrite Hrun2.
Qed.

(** C17. A pool that is restarted loses nothing.  Worker processes come and go over the
    broker, each closing its transport or just dying, whatever the handler and the
    pool decide and however many verdicts are outstanding when one goes.  Each
    process starts, polls and counts exactly as the desk does in that shift, a job
    that was out coming back first and flagged in the next; and after all of them
    the queue is what it was, less as many messages from its front as were
    acknowledged or rejected -- none lost, none twice, none overtaken. *)
Theorem restarts_lose_nothing ss b (u : U) :
  taking f → Forall (Forall (λ v, v ≠ Some Deferred)) ss.*1 → declared b →
  let '(dss, k) := desk_shifts f ss.*1 (mkDesk (queue_at b topic) None u) in
  ∃ b', shifts ss (b, u) = (Ret ((λ ds, decide_all ds newcomer) <$> dss), (b', book k)) ∧
    queue_at b' topic = waiting k ∧
    sequence <$> queue_at b' topic = drop (ended (concat dss)) (sequence <$> queue_at b topic).
Proof.
  intros Hf Hss Hd. set (k0 := mkDesk _ _ u).
  pose proof (shifts_simulated ss Hf Hss b k0 Hd eq_refl eq_refl) as Hrun.
  pose proof (shifts_numbers f ss.*1 Hss k0) as Hnum.
  pose proof (shifts_no_job f ss.*1 k0 eq_refl) as Hjob.
  destruct (desk_shifts f ss.*1 k0) as [dss k]. destruct Hrun as (b' & Hrun & _ & Hq).
  exists b'. split; [exact Hrun|]. split; [exact Hq|]. rewrite Hq. unfold numbers in Hnum.
  cbn [snd] in Hjob. by rewrite Hjob in Hnum.
Qed.
End started.
End process.

(** ** The property on a small system *)

(** The first process dies over job "a", the second has "a" acknowledged and closes
    over "b", the third rejects "b". *)
Definition demo_shifts : list (list (option Disposition) * Leaving) :=
  [([None], dies); ([None; Some Ack; None], closes); ([None; Some Reject], dies)].

Lemma restarts_lose_nothing_witness :
  let r := shifts enlisting "jobs" default_TopicOptions false demo_shifts (broker demo_jobs, []) in
  r.1 = Ret [mkConsumer 0 0 0 1 (Some []); mkConsumer 1 0 0 2 (Some []); mkConsumer 0 1 0 1 (Some [])] ∧
  r.2.2 = [("a", 1); ("a", 1); ("b", 2); ("b", 2)] ∧
  queue_at r.2.1 "jobs" = [].
Proof.
  intros r.
  assert (Hd : declared "jobs" default_TopicOptions (broker demo_jobs)).
  { split; [|intros _]; (split; [eexists; split; [vm_compute; reflexivity|by repeat split]|]);
      [by intros H; destruct H|by vm_compute]. }
  assert (Hdesk : desk_shifts enlisting demo_shifts.*1
      (mkDesk (queue_at (broker demo_jobs) "jobs") None []) =
    ([[Deferred]; [Deferred; Ack; Deferred]; [Deferred; Reject]],
     mkDesk [] None [("a", 1); ("a", 1); ("b", 2); ("b", 2)])) by (vm_compute; reflexivity).
  pose proof (restarts_lose_nothing enlisting "jobs" default_TopicOptions false eq_refl
    demo_shifts (broker demo_jobs) [] (λ _ _ _, I)) as H.
  rewrite Hdesk in H. destruct H as (b' & Hrun & Hq & _); [|exact Hd|].
  - repeat constructor; discriminate.
  - unfold r. rewrite Hrun. split; [reflexivity|]. split; [reflexivity|]. exact Hq.
Defined.
