(* ===== verification/Factory.v ===== *)
(** Choosing a backend by name ([include/motus/transport/Factory.hpp],
    [src/transport/Factory.cpp]).  The [MOTUS_WITH_*] preprocessor symbols of one
    build are the record [Build]; constructing a transport yields the name of the
    class constructed, the classes themselves being modelled elsewhere. *)

From S2P Require Import Prelude.

(** [enum class Backend] *)
Inductive Backend : Type := AmqpCpp | InMemory | SimpleAmqp.

#[export] Instance Backend_eq_dec : EqDecision Backend.
Proof. solve_decision. Defined.

(** Which of [MOTUS_WITH_AMQPCPP], [MOTUS_WITH_INMEMORY] and
    [MOTUS_WITH_SIMPLEAMQP] the build defines. *)
Record Build : Type := mkBuild {
  MOTUS_WITH_AMQPCPP : bool;
  MOTUS_WITH_INMEMORY : bool;
  MOTUS_WITH_SIMPLEAMQP : bool;
}.

(** [cmakeOptionFor] *)
Definition cmakeOptionFor (backend : Backend) : string :=
  match backend with
  | AmqpCpp => "MOTUS_WITH_AMQPCPP"
  | InMemory => "MOTUS_WITH_INMEMORY"
  | SimpleAmqp => "MOTUS_WITH_SIMPLEAMQP"
  end.

(** [backendName] *)
Definition backendName (backend : Backend) : string :=
  match backend with
  | AmqpCpp => "amqpcpp"
  | InMemory => "inmemory"
  | SimpleAmqp => "simpleamqp"
  end.

(** [defaultBackend] *)
Definition defaultBackend : Backend := AmqpCpp.

(** [isAvailable] *)
Definition isAvailable (build : Build) (backend : Backend) : bool :=
  match backend with
  | AmqpCpp => MOTUS_WITH_AMQPCPP build
  | InMemory => MOTUS_WITH_INMEMORY build
  | SimpleAmqp => MOTUS_WITH_SIMPLEAMQP build
  end.

(** The candidates both loops range over, in order. *)
Definition candidates : list Backend := [AmqpCpp; InMemory; SimpleAmqp].

(** [availableBackends] *)
Fixpoint push_available (build : Build) (cs available : list Backend) : list Backend :=
  match cs with
  | [] => available
  | candidate :: cs =>
      push_available build cs
        (if isAvailable build candidate then available ++ [candidate] else available)
  end.
Definition availableBackends (build : Build) : list Backend :=
  push_available build candidates [].

(** [parseBackend(text, out)]: the answer and the new value of [out]. *)
Fixpoint parse_candidates (text : string) (cs : list Backend) (out : Backend) : bool * Backend :=
  match cs with
  | [] => (false, out)
  | candidate :: cs =>
      if String.eqb text (backendName candidate) then (true, candidate)
      else parse_candidates text cs out
  end.
Definition parseBackend (text : string) (out : Backend) : bool * Backend :=
  parse_candidates text candidates out.

(** [availableBackendList] *)
Fixpoint append_names (backends : list Backend) (acc : string) : string :=
  match backends with
  | [] => acc
  | backend :: backends =>
      append_names backends
        ((if is_empty acc then acc else acc +:+ ", ") +:+ backendName backend)
  end.
Definition availableBackendList (build : Build) : string :=
  let acc := append_names (availableBackends build) "" in
  if is_empty acc then "(none)" else acc.

(** [makeTransport]: the class whose object it returns. *)
Definition makeTransport (build : Build) (backend : Backend) : outcome Backend :=
  if isAvailable build backend then Ret backend
  else Throw (runtime_error ("transport backend '" +:+ backendName backend +:+
    "' is not in this build -- reconfigure with -D" +:+ cmakeOptionFor backend +:+
    "=ON (available here: " +:+ availableBackendList build +:+ ")")).

(** ** Properties *)

Lemma backendName_inj b1 b2 : backendName b1 = backendName b2 → b1 = b2.
Proof. by destruct b1, b2. Qed.

Lemma push_available_filter build cs acc :
  push_available build cs acc = acc ++ filter (λ b, isAvailable build b = true) cs.
Proof.
  revert acc. induction cs as [|c cs IH]; intros acc; cbn [push_available].
  - by rewrite app_nil_r.
  - rewrite IH, filter_cons. destruct (isAvailable build c) eqn:Hc;
      [rewrite decide_True by done|rewrite decide_False by done].
    + by rewrite <- app_assoc.
    + done.
Qed.

(** Selecting by name never guesses.  [parseBackend] accepts exactly the three
    names, answers the backend of that name whether or not this build has it, and
    on any other text leaves the caller's variable alone. *)
Theorem parseBackend_spec text out :
  (∃ b, text = backendName b ∧ parseBackend text out = (true, b)) ∨
  ((∀ b, text ≠ backendName b) ∧ parseBackend text out = (false, out)).
Proof.
  unfold parseBackend, candidates. cbn [parse_candidates].
  destruct (String.eqb_spec text (backendName AmqpCpp)) as [->|H1]; [left; by eexists|].
  destruct (String.eqb_spec text (backendName InMemory)) as [->|H2]; [left; by eexists|].
  destruct (String.eqb_spec text (backendName SimpleAmqp)) as [->|H3]; [left; by eexists|].
  right. split; [|done]. by intros [].
Qed.

(** A build gives exactly the backends it contains.  [availableBackends] lists
    each of them once, in declaration order; [makeTransport] constructs the class
    asked for when it is listed and otherwise throws [std::runtime_error] with a
    text that names the backend, the build option and what is available. *)
Theorem makeTransport_spec build backend :
  NoDup (availableBackends build) ∧ availableBackends build `sublist_of` candidates ∧
  (backend ∈ availableBackends build ↔ isAvailable build backend = true) ∧
  (backend ∈ availableBackends build → makeTransport build backend = Ret backend) ∧
  (backend ∉ availableBackends build → ∃ before between after,
     makeTransport build backend = Throw (runtime_error
       (before +:+ backendName backend +:+ between +:+ cmakeOptionFor backend +:+
        "=ON (available here: " +:+ availableBackendList build +:+ after))).
Proof.
  assert (Hl : availableBackends build = filter (λ b, isAvailable build b = true) candidates)
    by apply push_available_filter.
  assert (Hin : backend ∈ availableBackends build ↔ isAvailable build backend = true).
  { rewrite Hl, list_elem_of_filter. unfold candidates. destruct backend; set_solver. }
  split_and!.
  - rewrite Hl. apply NoDup_filter. unfold candidates.
    by repeat (constructor; [set_solver|]); constructor.
  - rewrite Hl. apply sublist_filter.
  - exact Hin.
  - intros Hav%Hin. unfold makeTransport. by rewrite Hav.
  - intros Hn. unfold makeTransport.
    destruct (isAvailable build backend) eqn:Hav; [by exfalso; apply Hn, Hin|].
    by eexists _, _, _.
Qed.
