(* ===== verification/Logger.v ===== *)
(** Diagnostics ([include/motus/Logger.hpp], [src/Logger.cpp]): levels, the
    bounded hand-off to the worker thread, and the hex dump.

    [AsyncLogSink] is a state machine: application threads enqueue, one worker
    takes, writes and finishes, each under the queue mutex, so every critical
    section is one transition.  What reaches the queue, time stamps, the sink and
    [stderr] are in [LogFacade]; here a sink accepts a line or throws.  The sink may be replaced at
    any time, which is why its answer is part of the transition. *)

From S2P Require Import Prelude.
From Stdlib Require Import Ascii.
#[local] Open Scope Z_scope.

(** ** Levels *)

(** [enum class LogLevel] *)
Inductive LogLevel : Type := Trace | Debug | Info | Warn | Error | Off.

#[export] Instance LogLevel_eq_dec : EqDecision LogLevel.
Proof. solve_decision. Defined.

(** [static_cast<int>(level)] *)
Definition level_value (level : LogLevel) : Z :=
  match level with Trace => 0 | Debug => 1 | Info => 2 | Warn => 3 | Error => 4 | Off => 5 end.

(** The initial threshold. *)
Definition default_level : LogLevel := Info.

(** [Logger::enabled], the threshold being the value of the atomic. *)
Definition enabled (threshold level : LogLevel) : bool :=
  if bool_decide (threshold = Off) then false
  else bool_decide (level_value level >= level_value threshold).

(** [Logger::levelName] *)
Definition levelName (level : LogLevel) : string :=
  match level with
  | Trace => "TRACE"
  | Debug => "DEBUG"
  | Info => "INFO "
  | Warn => "WARN "
  | Error => "ERROR"
  | Off => "OFF  "
  end.

(** [std::tolower] in the "C" locale. *)
Definition tolower (c : ascii) : ascii :=
  let n := nat_of_ascii c in
  if bool_decide (65 ≤ n ≤ 90)%nat then ascii_of_nat (n + 32) else c.

Fixpoint lower (s : string) : string :=
  match s with
  | EmptyString => EmptyString
  | String c s => String (tolower c) (lower s)
  end.

(** [Logger::parseLevel(text, out)]: the answer and the new value of [out]. *)
Definition parseLevel (text : string) (out : LogLevel) : bool * LogLevel :=
  let lowered := lower text in
  if String.eqb lowered "trace" then (true, Trace)
  else if String.eqb lowered "debug" then (true, Debug)
  else if String.eqb lowered "info" then (true, Info)
  else if String.eqb lowered "warn" || String.eqb lowered "warning" then (true, Warn)
  else if String.eqb lowered "error" then (true, Error)
  else if String.eqb lowered "off" || String.eqb lowered "none" then (true, Off)
  else (false, out).

(** [Logger::initFromEnvironment] on the threshold; [value] is
    [std::getenv("MOTUS_LOG_LEVEL")]. *)
Definition initFromEnvironment (value : option string) : M LogLevel bool :=
  match value with
  | None => mret true
  | Some value =>
      let '(ok, parsed) := parseLevel value Trace in
      if negb ok then mret false
      else _ ← modify (λ _, parsed); mret true
  end.

(** ** The bounded hand-off *)

Definition kMaxPendingLines : Z := 1024.
Definition kMaxPendingBytes : Z := 1024 * 1024.

(** [AsyncLogSink::Record] *)
Record LogEntry : Type := mkLogEntry {
  entry_level : LogLevel;
  line : string;
}.

(** The members of [AsyncLogSink] besides the synchronisation objects, plus the
    worker's local [record] while [_inFlight]. *)
Record AsyncLogSink : Type := mkAsyncLogSink {
  _pending : list LogEntry;
  _pendingBytes : Z;
  _inFlight : option LogEntry;
  _dropped : Z;
}.

Definition new_AsyncLogSink : AsyncLogSink := mkAsyncLogSink [] 0 None 0.

(** [_dropped.fetch_add(1)] *)
Definition drop_one (s : AsyncLogSink) : AsyncLogSink :=
  mkAsyncLogSink (_pending s) (_pendingBytes s) (_inFlight s) (incr64 (_dropped s)).

(** The test of [AsyncLogSink::enqueue]; [std::size_t] subtraction. *)
Definition refuses (s : AsyncLogSink) (text : string) : bool :=
  bool_decide (Z.of_nat (length (_pending s)) >= kMaxPendingLines) ||
  bool_decide (size_of text > u64 (kMaxPendingBytes - Z.min (_pendingBytes s) kMaxPendingBytes)).

(** [AsyncLogSink::enqueue]; [alloc] is whether the deque got its memory (the
    counter has moved by then). *)
Definition enqueue (level : LogLevel) (text : string) (alloc : bool) (s : AsyncLogSink) :
    AsyncLogSink :=
  if refuses s text then drop_one s
  else
    let s := mkAsyncLogSink (_pending s) (u64 (_pendingBytes s + size_of text)) (_inFlight s)
               (_dropped s) in
    if alloc then
      mkAsyncLogSink (_pending s ++ [mkLogEntry level text]) (_pendingBytes s) (_inFlight s)
        (_dropped s)
    else drop_one s.

(** The first critical section of [AsyncLogSink::run]; its wait condition is that
    something is pending. *)
Definition run_take (s : AsyncLogSink) : option AsyncLogSink :=
  match _pending s, _inFlight s with
  | record :: rest, None =>
      Some (mkAsyncLogSink rest (u64 (_pendingBytes s - size_of (line record))) (Some record)
        (_dropped s))
  | _, _ => None
  end.

(** The rest of one iteration of [run]: the sink took the line or threw. *)
Definition run_finish (accepted : bool) (s : AsyncLogSink) : option AsyncLogSink :=
  match _inFlight s with
  | None => None
  | Some _ =>
      let s := if accepted then s else drop_one s in
      Some (mkAsyncLogSink (_pending s) (_pendingBytes s) None (_dropped s))
  end.

(** When [AsyncLogSink::flush] returns. *)
Definition drained (s : AsyncLogSink) : bool :=
  bool_decide (_pending s = []) && bool_decide (_inFlight s = None).

(** ** The hand-off as a state machine *)

(** The sink with the history of the records: accepted, finished (with the
    sink's answer), and how many were refused. *)
Record LogSystem : Type := mkLogSystem {
  sink : AsyncLogSink;
  accepted : list LogEntry;
  finished : list (LogEntry * bool);
  refused : Z;
}.

Definition new_LogSystem : LogSystem := mkLogSystem new_AsyncLogSink [] [] 0.

Inductive log_step : LogSystem → LogSystem → Prop :=
  | log_accept level text s :
      refuses (sink s) text = false →
      log_step s (mkLogSystem (enqueue level text true (sink s))
        (accepted s ++ [mkLogEntry level text]) (finished s) (refused s))
  | log_refuse level text s :
      refuses (sink s) text = true →
      log_step s (mkLogSystem (enqueue level text true (sink s)) (accepted s) (finished s)
        (refused s + 1))
  | log_no_memory level text s :
      log_step s (mkLogSystem (enqueue level text false (sink s)) (accepted s) (finished s)
        (refused s + 1))
  | log_take s k :
      run_take (sink s) = Some k →
      log_step s (mkLogSystem k (accepted s) (finished s) (refused s))
  | log_finish ok record s k :
      _inFlight (sink s) = Some record → run_finish ok (sink s) = Some k →
      log_step s (mkLogSystem k (accepted s) (finished s ++ [(record, ok)]) (refused s)).

Inductive log_reachable : LogSystem → Prop :=
  | log_start : log_reachable new_LogSystem
  | log_next s s' : log_reachable s → log_step s s' → log_reachable s'.

Definition bytes_of (q : list LogEntry) : Z := foldr (λ e n, size_of (line e) + n) 0 q.

Lemma bytes_of_app q1 q2 : bytes_of (q1 ++ q2) = bytes_of q1 + bytes_of q2.
Proof. unfold bytes_of. induction q1 as [|e q IH]; cbn; [done|]. rewrite IH. lia. Qed.

Lemma bytes_of_cons e q : bytes_of (e :: q) = size_of (line e) + bytes_of q.
Proof. done. Qed.

Lemma bytes_of_single e : bytes_of [e] = size_of (line e).
Proof. unfold bytes_of. cbn [foldr]. lia. Qed.

Lemma bytes_of_nonneg q : 0 ≤ bytes_of q.
Proof.
  unfold bytes_of. induction q as [|e q IH]; [done|]. cbn [foldr]. pose proof (size_of_nonneg (line e)). lia.
Qed.

Definition failures (done : list (LogEntry * bool)) : Z :=
  Z.of_nat (length (filter (λ x, x.2 = false) done)).

(** The invariant of the machine. *)
Definition log_ok (s : LogSystem) : Prop :=
  Z.of_nat (length (_pending (sink s))) ≤ kMaxPendingLines ∧
  bytes_of (_pending (sink s)) ≤ _pendingBytes (sink s) ≤ kMaxPendingBytes ∧
  accepted s = (finished s).*1 ++ option_list (_inFlight (sink s)) ++ _pending (sink s) ∧
  _dropped (sink s) = u64 (refused s + failures (finished s)).

Lemma incr64_u64 z : incr64 (u64 z) = u64 (z + 1).
Proof. unfold incr64, u64. by rewrite Zplus_mod_idemp_l. Qed.

Lemma refuses_false s text :
  refuses s text = false → 0 ≤ _pendingBytes s ≤ kMaxPendingBytes →
  Z.of_nat (length (_pending s)) < kMaxPendingLines ∧
  _pendingBytes s + size_of text ≤ kMaxPendingBytes.
Proof.
  unfold refuses. intros [H1%bool_decide_eq_false H2%bool_decide_eq_false]%orb_false_iff Hb.
  rewrite Z.min_l in H2 by lia.
  rewrite u64_small in H2 by (unfold kMaxPendingBytes in *; lia). lia.
Qed.

Lemma failures_app l1 l2 : failures (l1 ++ l2) = failures l1 + failures l2.
Proof. unfold failures. rewrite filter_app, length_app. lia. Qed.

Lemma failures_single r ok : failures [(r, ok)] = if ok then 0 else 1.
Proof. by destruct ok. Qed.

Ltac fields := cbn [drop_one _pending _pendingBytes _inFlight _dropped].

Lemma log_ok_step s s' : log_ok s → log_step s s' → log_ok s'.
Proof.
  intros (Hlines & Hbytes & Hfifo & Hdrop) Hstep.
  pose proof (bytes_of_nonneg (_pending (sink s))) as Hnn.
  destruct Hstep as [level text s Hr|level text s Hr|level text s|s k Hk|ok record s k Hi Hk];
    unfold log_ok; cbn [sink accepted finished refused].
  - destruct (refuses_false _ _ Hr ltac:(lia)) as [Hn Hb].
    pose proof (size_of_nonneg text) as Hsz. unfold enqueue. rewrite Hr.
    cbn [_pending _pendingBytes _inFlight _dropped].
    rewrite length_app, bytes_of_app, bytes_of_single.
    rewrite u64_small by (unfold kMaxPendingBytes in *; lia). cbn [length line].
    split_and!; [lia|lia|lia| |done]. by rewrite Hfifo, !(assoc_L (++)).
  - unfold enqueue. rewrite Hr. fields. split_and!; [done|lia|lia|done|].
    rewrite Hdrop, incr64_u64. f_equal. lia.
  - unfold enqueue. destruct (refuses (sink s) text) eqn:Hr; fields.
    + split_and!; [done|lia|lia|done|]. rewrite Hdrop, incr64_u64. f_equal. lia.
    + destruct (refuses_false _ _ Hr ltac:(lia)) as [Hn Hb].
      pose proof (size_of_nonneg text) as Hsz.
      rewrite u64_small by (unfold kMaxPendingBytes in *; lia).
      split_and!; [done|lia|lia|done|]. rewrite Hdrop, incr64_u64. f_equal. lia.
  - unfold run_take in Hk. destruct (_pending (sink s)) as [|e q] eqn:Hq; [done|].
    destruct (_inFlight (sink s)) eqn:Hi; [done|]. injection Hk as <-.
    rewrite bytes_of_cons in *. cbn [length _pending _pendingBytes _inFlight _dropped] in *.
    pose proof (size_of_nonneg (line e)). pose proof (bytes_of_nonneg q).
    rewrite u64_small by (unfold kMaxPendingBytes in *; lia).
    split_and!; [lia|lia|lia|done|done].
  - unfold run_finish in Hk. rewrite Hi in Hk. injection Hk as <-. rewrite Hi in Hfifo.
    rewrite fmap_app, failures_app, failures_single. cbn [fmap list_fmap].
    destruct ok; fields; (split_and!; [done|lia|lia| |]).
    + by rewrite Hfifo, <- !(assoc_L (++)).
    + by rewrite Z.add_0_r.
    + by rewrite Hfifo, <- !(assoc_L (++)).
    + rewrite Hdrop, incr64_u64. f_equal. lia.
Qed.

Lemma log_ok_new : log_ok new_LogSystem.
Proof. by vm_compute. Qed.

Lemma log_reachable_ok s : log_reachable s → log_ok s.
Proof. induction 1 as [|s s' _ IH Hstep]; [apply log_ok_new|by eapply log_ok_step]. Qed.

(** The diagnostic hand-off, in every reachable state: at most 1024 lines and
    1 MiB are waiting; records reach the sink in the order they were accepted, none
    skipped, duplicated or overtaken; every record is accounted for as finished,
    in the worker's hands or waiting; and [dropped()] is exactly the records
    refused plus those the sink failed on. *)
Theorem handoff_invariant s :
  log_reachable s →
  Z.of_nat (length (_pending (sink s))) ≤ kMaxPendingLines ∧
  bytes_of (_pending (sink s)) ≤ kMaxPendingBytes ∧
  accepted s = (finished s).*1 ++ option_list (_inFlight (sink s)) ++ _pending (sink s) ∧
  _dropped (sink s) = u64 (refused s + failures (finished s)) ∧
  (drained (sink s) = true → accepted s = (finished s).*1).
Proof.
  intros (H1 & H2 & H3 & H4)%log_reachable_ok.
  split_and!; [done|lia|done|done|]. unfold drained.
  intros [Hp%bool_decide_eq_true Hi%bool_decide_eq_true]%andb_true_iff.
  rewrite H3, Hp, Hi. cbn. by rewrite app_nil_r.
Qed.

(** What the worker does next: finish the line it holds or take one. *)
Definition worker (ok : bool) (s : AsyncLogSink) : option AsyncLogSink :=
  match _inFlight s with Some _ => run_finish ok s | None => run_take s end.

Fixpoint worker_run (answers : list bool) (s : AsyncLogSink) : AsyncLogSink :=
  match answers with
  | [] => s
  | ok :: answers =>
      match worker ok s with Some s => worker_run answers s | None => s end
  end.

Definition work_left (s : AsyncLogSink) : nat :=
  2 * length (_pending s) + match _inFlight s with Some _ => 1 | None => 0 end.

Lemma worker_progress ok s :
  match worker ok s with
  | Some s' => drained s = false ∧ work_left s = S (work_left s')
  | None => drained s = true ∧ work_left s = 0%nat
  end.
Proof.
  unfold worker, drained, work_left, run_finish, run_take.
  destruct s as [[|e q] bytes [r|] dropped]; cbn; [|done| |].
  - by destruct ok.
  - split; [done|]. destruct ok; cbn; lia.
  - split; [done|]. lia.
Qed.

(** [flush] returns: while anything is pending or being written the worker has a
    step to take, each one leaves strictly less to do, and once nobody logs any
    more exactly two steps per waiting line (plus the one in progress) drain the
    queue, whatever the sink answers. *)
Theorem flush_terminates answers s :
  length answers = work_left s → drained (worker_run answers s) = true.
Proof.
  revert s. induction answers as [|ok answers IH]; intros s Hlen; cbn [worker_run];
    pose proof (worker_progress true s) as Hp.
  - destruct (worker true s) as [s'|]; destruct Hp as [? Hw]; [cbn [length] in Hlen; lia|done].
  - clear Hp. pose proof (worker_progress ok s) as Hp.
    destruct (worker ok s) as [s'|]; destruct Hp as [? Hw]; [|done].
    apply IH. cbn [length] in Hlen. lia.
Qed.

(** A record lost to a failed allocation keeps its bytes booked: the queue is as
    it was, the record is counted as dropped, but [_pendingBytes] has grown by a
    line that will never be taken, so the byte bound is permanently tighter. *)
Theorem failed_enqueue_leaks level text s :
  0 ≤ _pendingBytes s ≤ kMaxPendingBytes → refuses s text = false →
  let s' := enqueue level text false s in
  _pending s' = _pending s ∧ _dropped s' = incr64 (_dropped s) ∧
  _pendingBytes s' = _pendingBytes s + size_of text.
Proof.
  intros Hb Hr. destruct (refuses_false _ _ Hr Hb) as [_ Hsum].
  pose proof (size_of_nonneg text). unfold enqueue. rewrite Hr. fields.
  split_and!; [done|done|]. apply u64_small. unfold kMaxPendingBytes in *. lia.
Qed.

Definition demo_log : LogSystem :=
  mkLogSystem (mkAsyncLogSink [mkLogEntry Warn "two"] 3 (Some (mkLogEntry Info "one")) 0)
    [mkLogEntry Info "one"; mkLogEntry Warn "two"] [] 0.

Lemma demo_log_reachable : log_reachable demo_log.
Proof.
  pose (s0 := new_LogSystem).
  pose (s1 := mkLogSystem (enqueue Info "one" true (sink s0)) [mkLogEntry Info "one"] [] 0).
  pose (s2 := mkLogSystem (mkAsyncLogSink [] 0 (Some (mkLogEntry Info "one")) 0)
    [mkLogEntry Info "one"] [] 0).
  apply (log_next s2); [apply (log_next s1); [apply (log_next s0)|]|].
  - constructor.
  - apply (log_accept Info "one" s0). vm_compute. reflexivity.
  - apply (log_take s1). vm_compute. reflexivity.
  - exact (log_accept Warn "two" s2 eq_refl).
Qed.

Lemma handoff_invariant_witness :
  accepted demo_log = option_list (_inFlight (sink demo_log)) ++ _pending (sink demo_log).
Proof. apply (handoff_invariant demo_log demo_log_reachable). Defined.

Lemma flush_terminates_witness :
  drained (worker_run [true; false; true] (sink demo_log)) = true.
Proof. apply (flush_terminates [true; false; true] (sink demo_log)). reflexivity. Defined.

Lemma failed_enqueue_leaks_witness :
  let s' := enqueue Info "lost" false new_AsyncLogSink in
  _pending s' = [] ∧ _dropped s' = incr64 0 ∧ _pendingBytes s' = 0 + size_of "lost".
Proof.
  apply (failed_enqueue_leaks Info "lost" new_AsyncLogSink).
  - unfold kMaxPendingBytes. cbn. lia.
  - vm_compute. reflexivity.
Defined.

(** ** Selecting a level *)

(** The lower-case texts that mean a level. *)
Definition spellings (level : LogLevel) : list string :=
  match level with
  | Trace => ["trace"]
  | Debug => ["debug"]
  | Info => ["info"]
  | Warn => ["warn"; "warning"]
  | Error => ["error"]
  | Off => ["off"; "none"]
  end.

Lemma parseLevel_cases text out :
  (∃ level, lower text ∈ spellings level ∧ parseLevel text out = (true, level)) ∨
  ((∀ level, lower text ∉ spellings level) ∧ parseLevel text out = (false, out)).
Proof.
  unfold parseLevel.
  repeat match goal with
  | |- context [String.eqb (lower text) ?x] =>
      destruct (String.eqb_spec (lower text) x) as [->|?]; cbn [orb]
  end.
  all: cycle -1.
  { right. split; [|done]. intros []; cbn [spellings]; rewrite ?elem_of_cons, elem_of_nil; tauto. }
  all: left; eexists; split; [|reflexivity]; cbn [spellings]; rewrite ?elem_of_cons; tauto.
Qed.

(** The level from the environment.  Unset keeps the threshold and succeeds; one
    of the known spellings in any letter case sets exactly that level; anything
    else reports failure with the threshold as it was.  A record is then emitted
    exactly when its level is at least the threshold and the threshold is not
    [Off]. *)
Theorem initFromEnvironment_spec value threshold :
  match value with
  | None => initFromEnvironment value threshold = (Ret true, threshold)
  | Some text =>
      (∃ level, lower text ∈ spellings level ∧
         initFromEnvironment value threshold = (Ret true, level) ∧
         ∀ l, enabled level l = true ↔ level ≠ Off ∧ level_value level ≤ level_value l) ∨
      ((∀ level, lower text ∉ spellings level) ∧
         initFromEnvironment value threshold = (Ret false, threshold))
  end.
Proof.
  destruct value as [text|]; [|done]. unfold initFromEnvironment. run.
  destruct (parseLevel_cases text Trace) as [(level & Hin & ->)|[Hn ->]]; [left|by right].
  exists level. split_and!; [done|done|]. intros l. unfold enabled.
  case_bool_decide as Ho; [naive_solver|]. rewrite bool_decide_eq_true. naive_solver lia.
Qed.

(** ** Hex dump *)

Definition kPerLine : nat := 16.

(** One lower-case hexadecimal digit. *)
Definition hex_digit (n : nat) : ascii :=
  if bool_decide (n < 10)%nat then ascii_of_nat (48 + n) else ascii_of_nat (87 + n).

(** [out << std::hex << n], with [fuel] digits at most. *)
Fixpoint hex_digits (fuel n : nat) (acc : string) : string :=
  match fuel with
  | O => acc
  | S fuel =>
      let acc := String (hex_digit (n mod 16)) acc in
      if bool_decide (n < 16)%nat then acc else hex_digits fuel (n / 16) acc
  end.
Definition hex (n : nat) : string := hex_digits (S n) n "".

(** [std::setw(w)] with the fill character [fill]. *)
Fixpoint pad (fill : ascii) (count : nat) (s : string) : string :=
  match count with O => s | S count => String fill (pad fill count s) end.
Definition setw (w : nat) (s : string) : string := pad "0"%char (w - String.length s) s.

(** [std::isprint] in the "C" locale. *)
Definition isprint (c : ascii) : bool :=
  bool_decide (32 ≤ nat_of_ascii c)%nat && bool_decide (nat_of_ascii c ≤ 126)%nat.

(** The two inner loops of [hexDump], over the bytes of one line. *)
Definition hex_cell (c : option ascii) : string :=
  match c with
  | Some c => setw 2 (hex (nat_of_ascii c)) +:+ " "
  | None => "   "
  end.
Definition concat_strings (ss : list string) : string := foldr (λ s t, s +:+ t) "" ss.
Definition hex_columns (line : list ascii) : string :=
  concat_strings ((λ i, hex_cell (line !! i)) <$> seq 0 kPerLine).
Definition ascii_column (line : list ascii) : string :=
  concat_strings ((λ c, String (if isprint c then c else "."%char) "") <$> line).

(** One line of output. *)
Definition hex_line (offset : nat) (line : list ascii) : string :=
  String "010" ("  " +:+ setw 4 (hex offset) +:+ "  " +:+ hex_columns line +:+ " |" +:+
    ascii_column line +:+ "|").

(** The outer loop, on what is left to show. *)
Fixpoint hex_lines (fuel offset : nat) (data : list ascii) : string :=
  match fuel, data with
  | O, _ | _, [] => ""
  | S fuel, _ =>
      hex_line offset (take kPerLine data) +:+
      hex_lines fuel (offset + kPerLine) (drop kPerLine data)
  end.

(** [hexDump(data, size, maxBytes)]; [None] is the null pointer, and the list holds
    [size] bytes. *)
Definition hexDump (data : option (list ascii)) (maxBytes : nat) : string :=
  match data with
  | None | Some [] => "(empty)"
  | Some data =>
      let size := length data in
      let shown := Nat.min size maxBytes in
      hex_lines shown 0 (take shown data) +:+
      (if bool_decide (shown < size)%nat
       then String "010" ("  ... " +:+ pretty (size - shown)%nat +:+ " more byte(s)") else "")
  end.

Example hexDump_small :
  hexDump (Some ["A"; "000"; "z"]%char) 2 =
    String "010" "  0000  41 00                                            |A.|" +:+
    String "010" "  ... 1 more byte(s)".
Proof. vm_compute. reflexivity. Qed.

(** Reading the columns of one line back. *)
Definition unhex (c : ascii) : option nat :=
  let n := nat_of_ascii c in
  if bool_decide (48 ≤ n ≤ 57)%nat then Some (n - 48)%nat
  else if bool_decide (97 ≤ n ≤ 102)%nat then Some (n - 87)%nat
  else None.

Fixpoint read_columns (s : string) : list ascii :=
  match s with
  | String hi (String lo (String _ s)) =>
      match unhex hi, unhex lo with
      | Some h, Some l => ascii_of_nat (16 * h + l) :: read_columns s
      | _, _ => []
      end
  | _ => []
  end.

Lemma concat_strings_cons x l : concat_strings (x :: l) = x +:+ concat_strings l.
Proof. done. Qed.

Lemma hex_cell_read c s :
  read_columns (hex_cell (Some c) +:+ s) = c :: read_columns s.
Proof. destruct c as [[] [] [] [] [] [] [] []]; vm_compute (hex_cell _); reflexivity. Qed.

Lemma hex_cell_width c : String.length (hex_cell c) = 3%nat.
Proof. destruct c as [[[] [] [] [] [] [] [] []]|]; reflexivity. Qed.

Lemma cells_width (line : list ascii) (ixs : list nat) :
  String.length (concat_strings ((λ i, hex_cell (line !! i)) <$> ixs)) = (3 * length ixs)%nat.
Proof.
  induction ixs as [|i ixs IH]; [done|].
  rewrite fmap_cons, concat_strings_cons, length_app_string, hex_cell_width, IH.
  cbn [length]. lia.
Qed.

Lemma cells_read (line : list ascii) k n :
  (length line ≤ k + n)%nat →
  read_columns (concat_strings ((λ i, hex_cell (line !! i)) <$> seq k n)) = drop k line.
Proof.
  revert k. induction n as [|n IH]; intros k Hlen.
  - cbn. by rewrite drop_ge by lia.
  - cbn [seq]. rewrite fmap_cons, concat_strings_cons. destruct (line !! k) as [c|] eqn:Hk.
    + rewrite hex_cell_read, (drop_S _ _ _ Hk). f_equal. apply IH. lia.
    + apply lookup_ge_None in Hk. by rewrite drop_ge by lia.
Qed.

Lemma hex_columns_read line : (length line ≤ 16)%nat → read_columns (hex_columns line) = line.
Proof. intros Hl. unfold hex_columns. rewrite cells_read; [done|]. exact Hl. Qed.

(** The 16-byte chunks of the bytes shown. *)
Fixpoint chunks (fuel : nat) (data : list ascii) : list (list ascii) :=
  match fuel, data with
  | O, _ | _, [] => []
  | S fuel, _ => take kPerLine data :: chunks fuel (drop kPerLine data)
  end.

Lemma hex_lines_chunks fuel offset data :
  hex_lines fuel offset data =
    concat_strings (imap (λ i l, hex_line (offset + 16 * i) l) (chunks fuel data)).
Proof.
  revert offset data. induction fuel as [|fuel IH]; intros offset [|c data]; [done..|].
  cbn [hex_lines chunks imap]. rewrite concat_strings_cons, Nat.add_0_r, IH.
  do 2 f_equal. apply imap_ext. intros i x _. unfold compose, kPerLine.
  f_equal. lia.
Qed.

Lemma chunks_spec fuel data :
  (length data ≤ fuel)%nat →
  concat (chunks fuel data) = data ∧
  Forall (λ l, (0 < length l ≤ 16)%nat) (chunks fuel data).
Proof.
  revert data. induction fuel as [|fuel IH]; intros [|c data] Hlen; [done|cbn in Hlen; lia|done|].
  cbn [chunks concat]. cbn [length] in Hlen.
  destruct (IH (drop kPerLine (c :: data))) as [Hc HF].
  { rewrite length_drop. cbn [length]. unfold kPerLine. lia. }
  rewrite Hc. split; [apply take_drop|]. constructor; [|done].
  rewrite length_take. cbn [length]. unfold kPerLine. lia.
Qed.

(** The hex dump shows the bytes it claims to.  A non-empty buffer is cut into
    lines of at most 16 bytes that together are its first [maxBytes] bytes; each
    line carries its offset, its hex field is 48 characters wide whatever the line
    holds and reads back as exactly those bytes; and a notice with the number of
    bytes left out follows exactly when some were. *)
Theorem hexDump_layout data maxBytes :
  match data with
  | [] => hexDump (Some data) maxBytes = "(empty)" ∧ hexDump None maxBytes = "(empty)"
  | _ => ∃ lines : list (list ascii),
      concat lines = take maxBytes data ∧
      Forall (λ l, (0 < length l ≤ 16)%nat ∧ String.length (hex_columns l) = 48%nat ∧
        read_columns (hex_columns l) = l) lines ∧
      hexDump (Some data) maxBytes =
        concat_strings (imap (λ i l, hex_line (16 * i) l) lines) +:+
        (if decide (maxBytes < length data)%nat
         then String "010" ("  ... " +:+ pretty (length data - maxBytes)%nat +:+ " more byte(s)")
         else "")
  end.
Proof.
  destruct data as [|c data]; [done|]. cbn [hexDump].
  set (all := c :: data). set (shown := Nat.min (length all) maxBytes).
  assert (Htake : take shown all = take maxBytes all).
  { unfold shown. destruct (decide (maxBytes ≤ length all)%nat).
    - by rewrite Nat.min_r by done.
    - rewrite Nat.min_l by lia. by rewrite !take_ge by lia. }
  destruct (chunks_spec shown (take shown all)) as [Hc HF]; [rewrite length_take; lia|].
  exists (chunks shown (take shown all)). split_and!.
  - by rewrite Hc.
  - eapply Forall_impl; [exact HF|]. intros l [Hl1 Hl2]. split_and!; [lia|lia| |].
    + unfold hex_columns. by rewrite cells_width.
    + apply hex_columns_read. lia.
  - rewrite hex_lines_chunks. f_equal. unfold shown.
    case_bool_decide as Hb; case_decide as Hd; [|lia|lia|done].
    by rewrite Nat.min_r by lia.
Qed.
