(* ===== verification/LogFacade.v ===== *)
(** The process-wide logger ([class Logger] and [class LogRecord] of
    [include/motus/Logger.hpp] and [src/Logger.cpp]): the level, the hand-off behind
    a lazily created worker, the line format and what the worker does with a line.

    [Logger.v] has the hand-off itself; here it is one object of the process
    state, created by the first use, which fails if no thread can be started.  The
    runtime's answers (clock, time zone, memory, threads, [stderr], the user's
    sink) are arguments. *)

From S2P Require Import Prelude Logger.
From Stdlib Require Import Ascii.
#[local] Open Scope Z_scope.

(** ** Time stamps *)

(** The fields of [std::tm] the format uses. *)
Record tm : Type := mkTm {
  tm_year : Z; tm_mon : Z; tm_mday : Z; tm_hour : Z; tm_min : Z; tm_sec : Z;
}.

(** [n] copies of a fill character. *)
Fixpoint fill (n : nat) : string :=
  match n with O => EmptyString | S n => String "0" (fill n) end.

(** [std::setfill('0') << std::setw(w) << text] *)
Definition padded (w : nat) (text : string) : string := fill (w - String.length text) +:+ text.

(** [std::put_time(&tm, "%Y-%m-%d %H:%M:%S")] *)
Definition put_time (t : tm) : string :=
  pretty (tm_year t + 1900) +:+ "-" +:+ padded 2 (pretty (tm_mon t + 1)) +:+ "-" +:+
  padded 2 (pretty (tm_mday t)) +:+ " " +:+ padded 2 (pretty (tm_hour t)) +:+ ":" +:+
  padded 2 (pretty (tm_min t)) +:+ ":" +:+ padded 2 (pretty (tm_sec t)).

(** [timestamp()]; [now] is the system clock in nanoseconds since the epoch. *)
Definition timestamp (localtime : Z → tm) (now : Z) : string :=
  let time := Z.quot now (10 ^ 9) in
  let ms := Z.rem (Z.quot now (10 ^ 6)) 1000 in
  put_time (localtime time) +:+ "." +:+ padded 3 (pretty ms).

(** ** State *)

Section logger.
Context {K : Type}.

(** The members of [AsyncLogSink]; an empty [LogSink] is [None]. *)
Record SinkObject : Type := mkSinkObject {
  queue : AsyncLogSink;
  _sink : option K;
}.

(** The statics of [currentLevel()] and [asyncSink()]; the latter does not exist
    before its first use. *)
Record Logger : Type := mkLogger {
  currentLevel : LogLevel;
  instance : option SinkObject;
}.

Definition new_SinkObject : SinkObject := mkSinkObject new_AsyncLogSink None.

(** [AsyncLogSink::setSink] and [AsyncLogSink::sinkSnapshot], each one critical
    section of the sink's own mutex. *)
Definition set_sink (sink : option K) (s : SinkObject) : SinkObject := mkSinkObject (queue s) sink.
Definition sinkSnapshot (s : SinkObject) : option K := _sink s.

Definition initial_Logger : Logger := mkLogger default_level None.

Definition with_instance (s : SinkObject) (g : Logger) : Logger := mkLogger (currentLevel g) (Some s).

(** What the runtime answers during one call. *)
Record Runtime : Type := mkRuntime {
  rt_now : Z;
  rt_localtime : Z → tm;
  (** why [std::thread] could not start the worker, if it could not *)
  rt_no_thread : option string;
  (** is there memory for the line, and for its place in the queue? *)
  rt_line_memory : bool;
  rt_queue_memory : bool;
}.

(** [asyncSink()] *)
Definition asyncSink (rt : Runtime) : M Logger SinkObject := λ g,
  match instance g, rt_no_thread rt with
  | Some s, _ => (Ret s, g)
  | None, None => (Ret new_SinkObject, with_instance new_SinkObject g)
  | None, Some reason => (Throw (std_exception reason), g)
  end.

(** ** Operations *)

(** [Logger::setLevel] *)
Definition setLevel (level : LogLevel) : M Logger unit :=
  modify (λ g, mkLogger level (instance g)).

(** [Logger::level] *)
Definition level : M Logger LogLevel := gets currentLevel.

(** [Logger::enabled] *)
Definition is_enabled (l : LogLevel) (g : Logger) : bool := enabled (currentLevel g) l.

(** [Logger::setSink] *)
Definition setSink (rt : Runtime) (sink : option K) : M Logger unit :=
  s ← asyncSink rt;
  modify (with_instance (set_sink sink s)).

(** The text of a record. *)
Definition log_line (rt : Runtime) (l : LogLevel) (message : string) : string :=
  timestamp (rt_localtime rt) (rt_now rt) +:+ " [" +:+ levelName l +:+ "] " +:+ message.

(** [Logger::write] *)
Definition write (rt : Runtime) (l : LogLevel) (message : string) : M Logger unit :=
  _ ← throw_if (negb (rt_line_memory rt)) (std_exception "std::bad_alloc");
  s ← asyncSink rt;
  modify (with_instance
    (mkSinkObject (enqueue l (log_line rt l message) (rt_queue_memory rt) (queue s)) (_sink s))).

(** [Logger::flush]: [Ret true] when it returns at once, [Ret false] when it waits. *)
Definition flush (rt : Runtime) : M Logger bool :=
  s ← asyncSink rt; mret (drained (queue s)).

(** [Logger::dropped] *)
Definition dropped (rt : Runtime) : M Logger Z :=
  s ← asyncSink rt; mret (_dropped (queue s)).

(** The members of [LogRecord]: the level and what was streamed. *)
Record LogRecord : Type := mkLogRecord { _level : LogLevel; _stream : string }.

(** [LogRecord::~LogRecord] *)
Definition destroy_record (rt : Runtime) (record : LogRecord) : M Logger unit :=
  try_catch (write rt (_level record) (_stream record)) (λ _, mret tt).

(** [MOTUS_LOG_AT(l) << expr]: [expr] yields what it streamed and how it ended; the
    record is destroyed either way. *)
Definition log_at {S} (rt : Runtime) (l : LogLevel) (expr : S → string * outcome unit * S) :
    M (Logger * S) unit := λ '(g, s),
  if negb (is_enabled l g) then (Ret tt, (g, s))
  else
    let '(text, o, s) := expr s in
    let '(_, g) := destroy_record rt (mkLogRecord l text) g in
    (o, (g, s)).

(** ** The worker *)

(** [stderr] and the user's sinks. *)
Record Outside : Type := mkOutside {
  fwrite : string → Z;
  fflush : string → Z;
  call_sink : K → LogLevel → string → outcome unit;
}.

(** [AsyncLogSink::writeToStderr] *)
Definition writeToStderr (out : Outside) (text : string) : outcome unit :=
  let complete := text +:+ String "010" EmptyString in
  if bool_decide (fwrite out complete ≠ size_of complete) || bool_decide (fflush out complete ≠ 0)
  then Throw (runtime_error "stderr write failed")
  else Ret tt.

(** The [try] block of [AsyncLogSink::run]; [sinkSnapshot] reads the sink then. *)
Definition run_write (out : Outside) (s : SinkObject) (record : LogEntry) : outcome unit :=
  match sinkSnapshot s with
  | Some k => call_sink out k (entry_level record) (line record)
  | None => writeToStderr out (line record)
  end.

(** Everything in [AsyncLogSink::run] after the first critical section. *)
Definition run_rest (out : Outside) (s : SinkObject) : option SinkObject :=
  record ← _inFlight (queue s);
  let ok := match run_write out s record with Ret _ => true | _ => false end in
  q ← run_finish ok (queue s);
  Some (mkSinkObject q (_sink s)).

Definition run_first (s : SinkObject) : option SinkObject :=
  q ← run_take (queue s); Some (mkSinkObject q (_sink s)).

(** ** The logger as a state machine *)

Inductive call : Type :=
  | SetLevel (l : LogLevel)
  | SetSink (rt : Runtime) (sink : option K)
  | Write (rt : Runtime) (l : LogLevel) (message : string)
  | Flush (rt : Runtime)
  | Dropped (rt : Runtime).

Definition perform_call (c : call) (g : Logger) : Logger :=
  match c with
  | SetLevel l => (setLevel l g).2
  | SetSink rt sink => (setSink rt sink g).2
  | Write rt l message => (write rt l message g).2
  | Flush rt => (flush rt g).2
  | Dropped rt => (dropped rt g).2
  end.

Definition object (g : Logger) : SinkObject := default new_SinkObject (instance g).

Lemma asyncSink_run rt g :
  (∃ g1, asyncSink rt g = (Ret (object g), g1) ∧ object g1 = object g ∧
     currentLevel g1 = currentLevel g) ∨
  (∃ reason, asyncSink rt g = (Throw (std_exception reason), g) ∧ instance g = None ∧
     rt_no_thread rt = Some reason).
Proof.
  unfold asyncSink, object. destruct (instance g) as [s|] eqn:Hg.
  - left. exists g. cbn. by rewrite Hg.
  - destruct (rt_no_thread rt) as [reason|]; [right; by exists reason|left; by eexists].
Qed.

(** The line a call offers to the queue -- if it had the memory to build it, and there
    is a worker to hand it to -- and whether there is room and memory for it there. *)
Definition offer (c : call) (g : Logger) : option (LogEntry * bool) :=
  match c with
  | Write rt l message =>
      if rt_line_memory rt && (bool_decide (rt_no_thread rt = None) || bool_decide (instance g ≠ None))
      then
        let text := log_line rt l message in
        Some (mkLogEntry l text, rt_queue_memory rt && negb (refuses (queue (object g)) text))
      else None
  | _ => None
  end.

(** Callers and the worker interleave at the critical sections.  The history of a
    process: the lines offered, with their admission, in the order of the calls; and
    the lines handed to the sink, or to [stderr], with whether it took them, in the
    order it got them. *)
Inductive history : Logger → list (LogEntry * bool) → list (LogEntry * bool) → Prop :=
  | history_start : history initial_Logger [] []
  | history_call c g offers outs :
      history g offers outs →
      history (perform_call c g) (offers ++ option_list (offer c g)) outs
  | history_take g s s' offers outs :
      history g offers outs → instance g = Some s → run_first s = Some s' →
      history (with_instance s' g) offers outs
  | history_write out g s s' record offers outs :
      history g offers outs → instance g = Some s → run_rest out s = Some s' →
      _inFlight (queue s) = Some record →
      history (with_instance s' g) offers
        (outs ++ [(record, match run_write out s record with Ret _ => true | _ => false end)]).

Definition admitted (offers : list (LogEntry * bool)) : list LogEntry :=
  (filter (λ x, x.2 = true) offers).*1.

Lemma admitted_app l1 l2 : admitted (l1 ++ l2) = admitted l1 ++ admitted l2.
Proof. unfold admitted. by rewrite filter_app, fmap_app. Qed.

Lemma drained_admitted s : drained s = true → option_list (_inFlight s) ++ _pending s = [].
Proof. unfold drained. by intros [->%bool_decide_eq_true ->%bool_decide_eq_true]%andb_true_iff. Qed.

(** What each call does to the queue. *)
Lemma call_queue c g :
  queue (object (perform_call c g)) =
    match c, offer c g with
    | Write rt l message, Some _ =>
        enqueue l (log_line rt l message) (rt_queue_memory rt) (queue (object g))
    | _, _ => queue (object g)
    end.
Proof.
  destruct c as [l|rt sink|rt l message|rt|rt]; cbn [perform_call offer]; [done|..];
    unfold setSink, write, flush, dropped; run.
  1,3,4: destruct (asyncSink_run rt g) as [(g1 & -> & Ho & _)|(reason & -> & _)]; cbn [snd];
    [first [done|by rewrite Ho]|done].
  destruct (rt_line_memory rt); cbn [negb andb]; [|done].
  destruct (asyncSink_run rt g) as [(g1 & Hrun & Ho & _)|(reason & Hrun & Hg & Hn)]; rewrite Hrun.
  - assert (Hb : bool_decide (rt_no_thread rt = None) || bool_decide (instance g ≠ None) = true).
    { revert Hrun. unfold asyncSink. by destruct (instance g), (rt_no_thread rt). }
    by rewrite Hb.
  - by rewrite Hg, Hn.
Qed.

(** The hand-off machine that has seen the same history. *)
Definition handoff (g : Logger) (offers outs : list (LogEntry * bool)) : LogSystem :=
  mkLogSystem (queue (object g)) (admitted offers) outs (failures offers).

Lemma call_simulated c g offers outs :
  handoff (perform_call c g) (offers ++ option_list (offer c g)) outs = handoff g offers outs ∨
  log_step (handoff g offers outs) (handoff (perform_call c g) (offers ++ option_list (offer c g)) outs).
Proof.
  unfold handoff. rewrite call_queue, admitted_app, failures_app.
  destruct c as [l|rt sk|rt l message|rt|rt]; cbn [offer];
    try (left; by rewrite app_nil_r, Z.add_0_r).
  destruct (rt_line_memory rt && _); [right|left; by rewrite app_nil_r, Z.add_0_r].
  set (text := log_line rt l message). set (L := mkLogSystem (queue (object g)) _ outs _).
  cbn [option_list option_rect]. rewrite failures_single.
  destruct (rt_queue_memory rt); cbn [andb]; [destruct (refuses (queue (object g)) text) eqn:Hr|];
    cbn [negb].
  - rewrite app_nil_r. exact (log_refuse l text L Hr).
  - rewrite Z.add_0_r. exact (log_accept l text L Hr).
  - rewrite app_nil_r. exact (log_no_memory l text L).
Qed.

Lemma history_reachable g offers outs : history g offers outs → log_reachable (handoff g offers outs).
Proof.
  induction 1 as [|c g offers outs _ IH|g s s' offers outs _ IH Hg Hf|out g s s' record offers outs _ IH Hg Hf Hr].
  - constructor.
  - destruct (call_simulated c g offers outs) as [->|Hs]; [done|by eapply log_next].
  - eapply log_next; [exact IH|]. unfold run_first in Hf.
    destruct (run_take (queue s)) as [q|] eqn:Hq; [|done]. injection Hf as <-.
    apply (log_take (handoff g offers outs) q). unfold handoff, object. cbn. by rewrite Hg.
  - eapply log_next; [exact IH|]. unfold run_rest in Hf. rewrite Hr in Hf. cbn in Hf.
    destruct (run_finish _ (queue s)) as [q|] eqn:Hq; [|done]. injection Hf as <-.
    eapply (log_finish _ record (handoff g offers outs) q); unfold handoff, object; cbn;
      rewrite Hg; [done|exact Hq].
Qed.

(** C40. The process-wide logger is the bounded hand-off.  However calls from any
    threads and the worker interleave -- level and sink changes, flushes, calls that
    fail for want of memory or of a thread, sinks that throw, a worker that does not
    exist yet -- the logger is in the state of a hand-off machine that saw exactly
    these calls and these deliveries: the lines that found room and memory, in the
    order they were offered, are those the sink was handed, in the order it got
    them, then the one the worker holds, then those still waiting, at most 1024 and
    1 MiB; [dropped()] counts the lines turned away and those the sink failed on; and
    when a [flush] returns, every line admitted before has been handed to the sink. *)
Theorem logger_is_handoff g offers outs :
  history g offers outs →
  log_reachable (handoff g offers outs) ∧
  admitted offers = outs.*1 ++ option_list (_inFlight (queue (object g))) ++ _pending (queue (object g)) ∧
  Z.of_nat (length (_pending (queue (object g)))) ≤ kMaxPendingLines ∧
  bytes_of (_pending (queue (object g))) ≤ kMaxPendingBytes ∧
  _dropped (queue (object g)) = u64 (failures offers + failures outs) ∧
  ∀ rt g', flush rt g = (Ret true, g') → admitted offers = outs.*1.
Proof.
  intros Hh. pose proof (history_reachable g offers outs Hh) as Hr. split; [done|].
  apply log_reachable_ok in Hr as (Hlines & Hbytes & Hfifo & Hdrop).
  unfold handoff in *. cbn [sink accepted finished refused] in *.
  split; [done|]. split; [done|]. split; [lia|]. split; [done|].
  intros rt g' Hflush. unfold flush in Hflush. apply M_bind_Ret in Hflush as (s & g1 & Hs & [= Hd <-]).
  destruct (asyncSink_run rt g) as [(g2 & Hrun & _)|(reason & Hrun & _)]; [|congruence].
  rewrite Hrun in Hs. injection Hs as <- _. apply drained_admitted in Hd.
  by rewrite Hfifo, Hd, app_nil_r.
Qed.

(** A logging statement.  Below the threshold the streamed expression is not
    evaluated and nothing changes.  Otherwise it runs once, the statement ends the
    way it ended -- logging itself never throws, even without memory or a thread --
    and whatever it streamed, all of it or what came before its exception, is
    offered to the queue as one line under its level's name; the level and the sink
    stay as they were. *)
Theorem log_at_contract {S} rt l (expr : S → string * outcome unit * S) (g : Logger) s :
  if is_enabled l g then
    let r := expr s in
    ∃ g', log_at rt l expr (g, s) = (r.1.2, (g', r.2)) ∧
      currentLevel g' = currentLevel g ∧ _sink (object g') = _sink (object g) ∧
      queue (object g') =
        if rt_line_memory rt && (bool_decide (rt_no_thread rt = None) || bool_decide (instance g ≠ None))
        then enqueue l (log_line rt l r.1.1) (rt_queue_memory rt) (queue (object g))
        else queue (object g)
  else log_at rt l expr (g, s) = (Ret tt, (g, s)).
Proof.
  unfold log_at. destruct (is_enabled l g); cbn [negb]; [|done]. cbn zeta.
  destruct (expr s) as [[text o] s']. cbn [fst snd]. unfold destroy_record, write. run.
  destruct (rt_line_memory rt); cbn [negb andb]; [|by eexists].
  destruct (asyncSink_run rt g) as [(g1 & Hrun & Ho & Hl)|(reason & Hrun & Hg & Hn)];
    rewrite Hrun; eexists; (split; [done|]).
  - assert (Hb : bool_decide (rt_no_thread rt = None) || bool_decide (instance g ≠ None) = true).
    { revert Hrun. unfold asyncSink. by destruct (instance g), (rt_no_thread rt). }
    by rewrite Hb.
  - by rewrite Hg, Hn.
Qed.

(** From the statement to the sink.  Where the queue is idle and the call finds its
    memory and its thread, the worker hands the sink installed at that moment -- or
    [stderr], with a newline, when there is none -- exactly the formatted line, and
    the drop count moves exactly if that destination failed; afterwards the queue
    is idle again. *)
Theorem line_reaches_sink {S} rt l (expr : S → string * outcome unit * S) (g : Logger) s out :
  is_enabled l g = true → drained (queue (object g)) = true → _pendingBytes (queue (object g)) = 0 →
  rt_line_memory rt = true → rt_queue_memory rt = true → rt_no_thread rt = None →
  let text := log_line rt l (expr s).1.1 in
  size_of text ≤ kMaxPendingBytes →
  let g' := (log_at rt l expr (g, s)).2.1 in
  ∃ s1 s2, run_first (object g') = Some s1 ∧ _inFlight (queue s1) = Some (mkLogEntry l text) ∧
    run_rest out s1 = Some s2 ∧ drained (queue s2) = true ∧
    run_write out s1 (mkLogEntry l text) =
      match _sink (object g) with
      | Some k => call_sink out k l text
      | None => writeToStderr out text
      end ∧
    _dropped (queue s2) =
      match run_write out s1 (mkLogEntry l text) with
      | Ret _ => _dropped (queue (object g))
      | _ => incr64 (_dropped (queue (object g)))
      end.
Proof.
  intros Hen Hidle Hbytes Hm Hq Hthread text Hsize.
  unfold log_at. rewrite Hen. cbn [negb]. subst text. destruct (expr s) as [[text0 o] s'].
  cbn [fst snd] in *. set (text := log_line rt l text0) in *. unfold destroy_record, write. run.
  rewrite Hm. cbn [negb].
  destruct (asyncSink_run rt g) as [(g1 & -> & _ & _)|(reason & _ & _ & Hn)]; [|congruence].
  cbn [snd fst _level _stream]. rewrite Hq. fold text.
  destruct (object g) as [[pending bytes inflight drops] sk]. cbn in Hidle, Hbytes |- *.
  apply andb_true_iff in Hidle as [Hp%bool_decide_eq_true Hi%bool_decide_eq_true]. cbn in Hp, Hi.
  subst. unfold object, with_instance. cbn [instance default].
  assert (Hr : refuses (mkAsyncLogSink [] 0 None drops) text = false).
  { unfold refuses. cbn [_pending _pendingBytes length]. rewrite orb_false_iff.
    split; apply bool_decide_eq_false; [unfold kMaxPendingLines; lia|].
    change (u64 (kMaxPendingBytes - Z.min 0 kMaxPendingBytes)) with kMaxPendingBytes. lia. }
  unfold enqueue, run_first. rewrite Hr. cbn.
  eexists _, _. split; [done|]. split; [done|]. unfold run_rest. cbn.
  split; [done|]. split; [by destruct (run_write _ _ _)|]. split; [by destruct sk|].
  by destruct (run_write _ _ _).
Qed.
End logger.
Arguments SinkObject K : clear implicits.
Arguments Logger K : clear implicits.
Arguments Outside K : clear implicits.

(** ** The line format *)

Lemma length_padded w text :
  String.length (padded w text) = (w `max` String.length text)%nat.
Proof.
  unfold padded. rewrite length_app_string.
  assert (Hf : ∀ n, String.length (fill n) = n) by (induction n; cbn; congruence).
  rewrite Hf. lia.
Qed.

(** Numbers of at most [d] digits, checked one by one. *)
Definition narrow (bound width : nat) : bool :=
  forallb (λ n, String.length (pretty (Z.of_nat n)) <=? width)%nat (seq 0 bound).

Lemma narrow_spec bound width n :
  narrow bound width = true → 0 ≤ n < Z.of_nat bound → (String.length (pretty n) ≤ width)%nat.
Proof.
  unfold narrow. rewrite forallb_forall. intros Hall Hn.
  specialize (Hall (Z.to_nat n)). rewrite Z2Nat.id in Hall by lia.
  apply Nat.leb_le, Hall, in_seq. lia.
Qed.

Lemma narrow_2 : narrow 100 2 = true.
Proof. vm_compute. reflexivity. Qed.
Lemma narrow_3 : narrow 1000 3 = true.
Proof. vm_compute. reflexivity. Qed.

(** Four-digit years. *)
Definition year_width : bool :=
  forallb (λ n, Nat.eqb (String.length (pretty (1000 + Z.of_nat n))) 4) (seq 0 (90 * 100)).
Lemma year_width_true : year_width = true.
Proof. vm_compute. reflexivity. Qed.

(** A calendar date of the years 1000 to 9999, as [localtime_r] fills it. *)
Definition calendar (t : tm) : Prop :=
  1000 ≤ tm_year t + 1900 < 10000 ∧ 0 ≤ tm_mon t < 12 ∧ 1 ≤ tm_mday t ≤ 31 ∧
  0 ≤ tm_hour t < 24 ∧ 0 ≤ tm_min t < 60 ∧ 0 ≤ tm_sec t ≤ 60.

Lemma year_digits n : 1000 ≤ n < 10000 → String.length (pretty n) = 4%nat.
Proof.
  intros Hn. pose proof year_width_true as H. unfold year_width in H. rewrite forallb_forall in H.
  specialize (H (Z.to_nat (n - 1000))). apply Nat.eqb_eq. rewrite <- H; [|apply in_seq; lia].
  rewrite Z2Nat.id by lia. do 3 f_equal. lia.
Qed.

(** Every line starts with the same 32 columns: a 23-column time stamp, the level in
    a field of five, and two separators; the message follows verbatim. *)
Theorem line_layout rt l message :
  0 ≤ rt_now rt → calendar (rt_localtime rt (Z.quot (rt_now rt) (10 ^ 9))) →
  ∃ prefix, log_line rt l message = prefix +:+ message ∧ String.length prefix = 32%nat.
Proof.
  intros Hnow (Hy & Hm & Hd & Hh & Hmin & Hs).
  exists (timestamp (rt_localtime rt) (rt_now rt) +:+ " [" +:+ levelName l +:+ "] "). split.
  { unfold log_line. by rewrite !string_app_assoc. }
  assert (Hlevel : String.length (levelName l) = 5%nat) by by destruct l.
  rewrite !length_app_string, Hlevel. unfold timestamp. cbn zeta. unfold put_time.
  set (t := rt_localtime rt _) in *. set (ms := Z.rem _ 1000).
  assert (Hms : 0 ≤ ms < 1000).
  { apply Z.rem_bound_pos; [|lia]. apply Z.quot_pos; lia. }
  rewrite !length_app_string, !length_padded, year_digits by lia.
  pose proof (narrow_spec _ _ ms narrow_3 ltac:(lia)).
  pose proof (narrow_spec _ _ (tm_mon t + 1) narrow_2 ltac:(lia)).
  pose proof (narrow_spec _ _ (tm_mday t) narrow_2 ltac:(lia)).
  pose proof (narrow_spec _ _ (tm_hour t) narrow_2 ltac:(lia)).
  pose proof (narrow_spec _ _ (tm_min t) narrow_2 ltac:(lia)).
  pose proof (narrow_spec _ _ (tm_sec t) narrow_2 ltac:(lia)).
  cbn [String.length]. lia.
Qed.

(** ** The properties on a concrete run *)

Definition demo_runtime : Runtime :=
  mkRuntime 1785152703123000000 (λ _, mkTm 126 6 27 11 45 3) None true true.

(** A sink that takes every line, and a [stderr] that is broken. *)
Definition demo_outside : Outside nat :=
  mkOutside (λ _, 0) (λ _, 0) (λ _ _ _, Ret tt).

Definition demo_expr (s : nat) : string * outcome unit * nat := ("connected", Ret tt, S s).

(** A user sink is installed and one record was logged. *)
Definition demo_logger : Logger nat := (setSink demo_runtime (Some 7%nat) initial_Logger).2.

Example demo_line : log_line demo_runtime Warn "x" = "2026-07-27 11:45:03.123 [WARN ] x".
Proof. vm_compute. reflexivity. Qed.

Lemma logger_is_handoff_witness :
  let e := mkLogEntry Warn "2026-07-27 11:45:03.123 [WARN ] connected" in
  let g := (log_at demo_runtime Warn demo_expr (demo_logger, 0%nat)).2.1 in
  history g [(e, true)] [] ∧ [e] = _pending (queue (object g)).
Proof.
  cbv zeta. set (e := mkLogEntry Warn _).
  assert (Hh : history (perform_call (Write demo_runtime Warn "connected") demo_logger)
    (([] ++ option_list (offer (SetSink demo_runtime (Some 7%nat)) initial_Logger)) ++
      option_list (offer (Write demo_runtime Warn "connected") demo_logger)) []).
  { apply history_call. apply (history_call (SetSink demo_runtime (Some 7%nat))). constructor. }
  assert (Ho : ([] ++ option_list (offer (SetSink demo_runtime (Some 7%nat)) initial_Logger)) ++
      option_list (offer (Write demo_runtime Warn "connected") demo_logger) = [(e, true)])
    by (vm_compute; reflexivity).
  rewrite Ho in Hh. split; [exact Hh|].
  destruct (logger_is_handoff _ _ _ Hh) as (_ & H & _).
  exact H.
Defined.

Lemma line_reaches_sink_witness :
  ∃ s1, run_first (object (log_at demo_runtime Warn demo_expr (demo_logger, 0%nat)).2.1) = Some s1 ∧
    _inFlight (queue s1) = Some (mkLogEntry Warn "2026-07-27 11:45:03.123 [WARN ] connected").
Proof.
  destruct (line_reaches_sink demo_runtime Warn demo_expr demo_logger 0%nat demo_outside)
    as (s1 & s2 & H1 & H2 & _); [vm_compute; reflexivity..|vm_compute; discriminate|].
  exists s1. split; [exact H1|exact H2].
Defined.

Lemma line_layout_witness :
  ∃ prefix, log_line demo_runtime Warn "x" = prefix +:+ "x" ∧ String.length prefix = 32%nat.
Proof.
  apply (line_layout demo_runtime Warn "x"); [vm_compute; discriminate|].
  unfold calendar. cbn. lia.
Defined.
