(* ===== verification/Reconnect.v ===== *)
(** The reconnection delay both AMQP backends compute after a failed attempt
    ([serviceReconnect] of [src/transport/AmqpCppTransport.cpp] and
    [src/transport/SimpleAmqpTransport.cpp]), on 64-bit signed milliseconds. *)

From S2P Require Import Prelude ITransport.
#[local] Open Scope Z_scope.

(** A 64-bit unsigned value converted to [std::int64_t]. *)
Definition to_int64 (z : Z) : Z := if bool_decide (z < 2 ^ 63) then z else z - 2 ^ 64.

(** [e1 << e2] on [std::int64_t] under C++17: defined while the value is
    representable in the unsigned type, whose bits it then has. *)
Definition shl64 (e1 e2 : Z) : outcome Z :=
  if bool_decide (e1 < 0) || bool_decide (e2 < 0) || bool_decide (e2 >= 64) then Undefined
  else if bool_decide (Z.shiftl e1 e2 < 2 ^ 64) then Ret (to_int64 (Z.shiftl e1 e2))
  else Undefined.

(** [std::min(_policy.maxDelay, milliseconds(_policy.initialDelay.count() <<
    (_failedAttempts - 1)))]; the subtraction is on [unsigned]. *)
Definition backoff (policy : ReconnectPolicy) (failedAttempts : Z) : outcome Z :=
  scaled ← shl64 (initialDelay policy) (u32 (failedAttempts - 1));
  mret (Z.min (maxDelay policy) scaled).

Lemma shl64_small e1 e2 :
  0 ≤ e1 → 0 ≤ e2 < 64 → e1 * 2 ^ e2 < 2 ^ 63 → shl64 e1 e2 = Ret (e1 * 2 ^ e2).
Proof.
  intros H1 H2 H3. unfold shl64.
  rewrite !bool_decide_false by lia. cbn [orb]. rewrite Z.shiftl_mul_pow2 by lia.
  rewrite bool_decide_true by lia. unfold to_int64. by rewrite bool_decide_true by lia.
Qed.

(** The back-off doubles up to its cap: as long as the doubled delay fits 63
    bits, the wait after the n-th consecutive failure is [initialDelay * 2^(n-1)]
    capped at [maxDelay]; it is never negative, never above the cap, and never
    shorter than the wait before it. *)
Theorem backoff_doubles policy n :
  1 ≤ n → n < 2 ^ 32 → 0 ≤ initialDelay policy → 0 ≤ maxDelay policy →
  initialDelay policy * 2 ^ (n - 1) < 2 ^ 63 → n ≤ 64 →
  ∃ d, backoff policy n = Ret d ∧ d = Z.min (maxDelay policy) (initialDelay policy * 2 ^ (n - 1)) ∧
    0 ≤ d ≤ maxDelay policy ∧
    (1 < n → ∃ d', backoff policy (n - 1) = Ret d' ∧ d' ≤ d).
Proof.
  intros Hn Hn32 Hi Hm Hfit Hn64.
  assert (Hb : ∀ k, 1 ≤ k ≤ n →
    backoff policy k = Ret (Z.min (maxDelay policy) (initialDelay policy * 2 ^ (k - 1)))).
  { intros k Hk. unfold backoff. rewrite u32_small by lia. run.
    rewrite shl64_small; [done|lia|lia|].
    assert (2 ^ (k - 1) ≤ 2 ^ (n - 1)) by (apply Z.pow_le_mono_r; lia). nia. }
  exists (Z.min (maxDelay policy) (initialDelay policy * 2 ^ (n - 1))).
  assert (0 < 2 ^ (n - 1)) by (apply Z.pow_pos_nonneg; lia).
  split_and!; [apply Hb; lia|done|nia|lia|].
  intros H1. eexists. split; [apply Hb; lia|].
  assert (2 ^ (n - 1 - 1) ≤ 2 ^ (n - 1)) by (apply Z.pow_le_mono_r; lia). nia.
Qed.

Lemma backoff_doubles_witness :
  backoff default_ReconnectPolicy 3 = Ret 1000 ∧ backoff default_ReconnectPolicy 5 = Ret 4000.
Proof.
  split.
  - destruct (backoff_doubles default_ReconnectPolicy 3) as (d & H & -> & _); cbn; try lia.
    exact H.
  - destruct (backoff_doubles default_ReconnectPolicy 5) as (d & H & -> & _); cbn; try lia.
    exact H.
Defined.

(** The doubling is not guarded.  With the default initial delay of 250 ms and a
    policy that allows more attempts than the default five, the 57th consecutive
    failure computes a negative wait -- an immediate retry instead of a capped
    one, whatever the cap -- and the 58th shifts out of range, which C++ leaves
    undefined. *)
Theorem backoff_unguarded policy :
  initialDelay policy = 250 → 0 ≤ maxDelay policy →
  (∃ d, backoff policy 57 = Ret d ∧ d < 0) ∧ backoff policy 58 = Undefined.
Proof.
  intros Hi Hm. unfold backoff. rewrite Hi. split.
  - exists (Z.min (maxDelay policy) (250 * 2 ^ 56 - 2 ^ 64)). split; [reflexivity|].
    apply Z.min_lt_iff. right. reflexivity.
  - reflexivity.
Qed.

Lemma backoff_unguarded_witness :
  backoff (mkReconnectPolicy true 100 250 5000) 58 = Undefined.
Proof. apply (backoff_unguarded (mkReconnectPolicy true 100 250 5000)); cbn; lia. Defined.
