(* ===== verification/SimpleAmqpTransport.v ===== *)
(** The SimpleAmqpClient backend ([class SimpleAmqpTransport],
    [src/transport/SimpleAmqpTransport.cpp]).

    SimpleAmqpClient, Boost.Asio and the clock are not part of the program: the
    class [SimpleAmqpClient] names the calls the backend makes into them, as
    operations on an abstract world that may return, throw or (for a call that can
    block or corrupt) leave behaviour undefined.  Nothing is assumed about what
    they do.  Logging is not modelled. *)

From S2P Require Import Prelude ITransport Reconnect Consumer.
#[local] Open Scope Z_scope.

(** [AmqpClient::Table]: field names and values. *)
Inductive TableValue : Type := table_string (s : string) | table_int32 (z : Z).
Definition Table : Type := list (string * TableValue).

(** The third-party calls. *)
Class SimpleAmqpClient (W : Type) : Type := {
  Channel : Type;
  Envelope : Type;
  Address : Type;
  Message_Body : Envelope → string;
  Redelivered : Envelope → bool;
  DeliveryTag : Envelope → Z;
  (** [steady_clock::now()] in milliseconds; it does not throw. *)
  steady_now : W → Z * W;
  make_address : string → option Address;
  (** [resolver.resolve(host, port, ec)]: the error text, if any, and the results. *)
  resolve : string → string → M W (option string * list Address);
  (** [async_connect] driven by [run_for]: [None] when it did not complete in time,
      otherwise the error text and value, if any. *)
  connect_within : Address → Z → Z → M W (option (option (string * Z)));
  Channel_Create : string → Z → string → string → string → M W Channel;
  Channel_release : Channel → M W unit;
  DeclareExchange : Channel → string → bool → bool → bool → M W unit;
  DeclareQueue : Channel → string → bool → bool → bool → bool → Table → M W unit;
  DeclareQueueWithCounts : Channel → string → bool → bool → bool → bool → Table → M W Z;
  BindQueue : Channel → string → string → string → M W unit;
  PurgeQueue : Channel → string → M W unit;
  BasicPublish : Channel → string → string → string → bool → M W unit;
  BasicConsume : Channel → string → string → bool → bool → bool → Z → M W string;
  BasicConsumeMessage : Channel → string → Z → M W (option Envelope);
  BasicCancel : Channel → string → M W unit;
  BasicAck : Channel → Envelope → M W unit;
  BasicReject : Channel → Envelope → bool → M W unit;
}.

Module SimpleAmqp.

Definition kDefaultPort : Z := 5672.

(** [queueArguments] *)
Definition queueArguments (topic : Topic) (options : TopicOptions) : Table :=
  (if deadLetter options then
     [("x-dead-letter-exchange", table_string kDeadLetterExchange);
      ("x-dead-letter-routing-key", table_string topic)] else []) ++
  (if bool_decide (maxLength options > 0) then
     [("x-max-length", table_int32 (cast_int32 (maxLength options)));
      ("x-overflow", table_string (overflowPolicyName (overflow options)))] else []).

Section transport.
Context {W : Type} `{!SimpleAmqpClient W} {H : Type}.

(** The members of [SimpleAmqpTransport]; [_channel] is the shared pointer. *)
Record SimpleAmqpTransport : Type := mkSimpleAmqp {
  world : W;
  _channel : option Channel;
  _consumerTag : string;
  _endpoint : Endpoint;
  _policy : ReconnectPolicy;
  _topic : Topic;
  _topicOptions : TopicOptions;
  _topicDeclared : bool;
  _subscribed : bool;
  _connected : bool;
  _failedAttempts : Z;
  _nextAttempt : Z;
  _handler : option H;
  _stats : Stats;
}.
Local Abbreviation T := SimpleAmqpTransport.

Definition new_SimpleAmqpTransport (w : W) : T :=
  mkSimpleAmqp w None "" default_Endpoint default_ReconnectPolicy "" default_TopicOptions
    false false false 0 0 None default_Stats.

(** Assignments to the members. *)
Definition set_world (w : W) (t : T) : T :=
  mkSimpleAmqp w (_channel t) (_consumerTag t) (_endpoint t) (_policy t) (_topic t)
    (_topicOptions t) (_topicDeclared t) (_subscribed t) (_connected t) (_failedAttempts t)
    (_nextAttempt t) (_handler t) (_stats t).
Definition set_channel (ch : option Channel) (t : T) : T :=
  mkSimpleAmqp (world t) ch (_consumerTag t) (_endpoint t) (_policy t) (_topic t)
    (_topicOptions t) (_topicDeclared t) (_subscribed t) (_connected t) (_failedAttempts t)
    (_nextAttempt t) (_handler t) (_stats t).
Definition set_consumerTag (tag : string) (t : T) : T :=
  mkSimpleAmqp (world t) (_channel t) tag (_endpoint t) (_policy t) (_topic t)
    (_topicOptions t) (_topicDeclared t) (_subscribed t) (_connected t) (_failedAttempts t)
    (_nextAttempt t) (_handler t) (_stats t).
Definition set_endpoint (e : Endpoint) (t : T) : T :=
  mkSimpleAmqp (world t) (_channel t) (_consumerTag t) e (_policy t) (_topic t)
    (_topicOptions t) (_topicDeclared t) (_subscribed t) (_connected t) (_failedAttempts t)
    (_nextAttempt t) (_handler t) (_stats t).
Definition set_topic (topic : Topic) (options : TopicOptions) (declared : bool) (t : T) : T :=
  mkSimpleAmqp (world t) (_channel t) (_consumerTag t) (_endpoint t) (_policy t) topic
    options declared (_subscribed t) (_connected t) (_failedAttempts t)
    (_nextAttempt t) (_handler t) (_stats t).
Definition set_subscribed (b : bool) (t : T) : T :=
  mkSimpleAmqp (world t) (_channel t) (_consumerTag t) (_endpoint t) (_policy t) (_topic t)
    (_topicOptions t) (_topicDeclared t) b (_connected t) (_failedAttempts t)
    (_nextAttempt t) (_handler t) (_stats t).
Definition set_connected (b : bool) (t : T) : T :=
  mkSimpleAmqp (world t) (_channel t) (_consumerTag t) (_endpoint t) (_policy t) (_topic t)
    (_topicOptions t) (_topicDeclared t) (_subscribed t) b (_failedAttempts t)
    (_nextAttempt t) (_handler t) (_stats t).
Definition set_retry (policy : ReconnectPolicy) (failed next : Z) (t : T) : T :=
  mkSimpleAmqp (world t) (_channel t) (_consumerTag t) (_endpoint t) policy (_topic t)
    (_topicOptions t) (_topicDeclared t) (_subscribed t) (_connected t) failed
    next (_handler t) (_stats t).
Definition set_handler (h : option H) (t : T) : T :=
  mkSimpleAmqp (world t) (_channel t) (_consumerTag t) (_endpoint t) (_policy t) (_topic t)
    (_topicOptions t) (_topicDeclared t) (_subscribed t) (_connected t) (_failedAttempts t)
    (_nextAttempt t) h (_stats t).
Definition with_stats (f : Stats → Stats) (t : T) : T :=
  mkSimpleAmqp (world t) (_channel t) (_consumerTag t) (_endpoint t) (_policy t) (_topic t)
    (_topicOptions t) (_topicDeclared t) (_subscribed t) (_connected t) (_failedAttempts t)
    (_nextAttempt t) (_handler t) (f (_stats t)).

(** [std::chrono::steady_clock::now()] *)
Definition now : M T Z := λ t,
  let '(n, w) := steady_now (world t) in (Ret n, set_world w t).

(** A call into a library. *)
Definition on_world {A} (m : M W A) : M T A := λ t,
  let '(o, w) := m (world t) in (o, set_world w t).

(** [if (!_channel) throw ...;] and the channel. *)
Definition require_channel (operation : string) : M T Channel :=
  t ← gets id;
  match _channel t with
  | None => throw (logic_error (operation +:+ "() called before connect()"))
  | Some ch => mret ch
  end.

(** [_channel->...]: dereferencing an empty pointer is undefined. *)
Definition the_channel : M T Channel :=
  t ← gets id;
  match _channel t with None => undefined | Some ch => mret ch end.

(** [_channel.reset()] *)
Definition reset_channel : M T unit :=
  t ← gets id;
  match _channel t with
  | None => mret tt
  | Some ch =>
      _ ← modify (set_channel None);
      on_world (Channel_release ch)
  end.

(** [SimpleAmqpTransport::capabilities] *)
Definition capabilities (t : T) : Capabilities := {|
  cap_name := "simpleamqp";
  cap_durableDelivery := true;
  cap_publisherConfirms := false;
  cap_manualAcknowledgement := true;
  cap_redeliveryFlag := true;
  cap_deadLetter := true;
  cap_routingGroups := false;
  cap_fifoPerTopic := true;
  cap_competingConsumers := true;
  cap_topicDepth := true;
  cap_purge := true;
  cap_requeue := true;
  cap_reconnect := true;
  cap_deferredAcknowledgement := false;
  cap_boundedQueue := true;
|}.

(** [SimpleAmqpTransport::settle] *)
Definition settle (tag : Z) (disposition : Disposition) : M T unit :=
  throw (logic_error ("backend 'simpleamqp' does not support deferred acknowledgement " +:+
    "(Capabilities::deferredAcknowledgement is false); check the capability before " +:+
    "returning Disposition::Deferred against it")).

(** ** Connecting *)

(** [probeReachable] *)
Definition probeReachable (host : string) (port timeout : Z) : M W unit :=
  endpoint ← match make_address host with
             | Some literal => mret literal
             | None =>
                 '(resolveEc, endpoints) ← resolve host (pretty port);
                 match resolveEc, endpoints with
                 | None, endpoint :: _ => mret endpoint
                 | _, _ => throw (runtime_error ("cannot resolve '" +:+ host +:+ "': " +:+
                     default "" resolveEc +:+
                     " (pass an IP literal such as 127.0.0.1 instead -- restrictive DNS policy can" +:+
                     " break even localhost lookups)"))
                 end
             end;
  completed ← connect_within endpoint port timeout;
  match completed with
  | None => throw (runtime_error ("timed out after " +:+ pretty timeout +:+ "ms connecting to " +:+
      host +:+ ":" +:+ pretty port))
  | Some (Some (message, value)) => throw (runtime_error ("cannot reach broker at " +:+ host +:+
      ":" +:+ pretty port +:+ " -- " +:+ message +:+ " (value=" +:+ pretty value +:+
      "; is rabbitmq-server.bat running?)"))
  | Some None => mret tt
  end.

(** [_channel = ...]: the old channel, if there is one, is released once the new one
    is in place. *)
Definition assign_channel (ch : Channel) : M T unit :=
  old ← gets _channel;
  _ ← modify (set_channel (Some ch));
  match old with None => mret tt | Some old => on_world (Channel_release old) end.

(** [~SimpleAmqpTransport] *)
Definition destroy : M T unit := try_catch reset_channel (λ _, mret tt).

(** [SimpleAmqpTransport::openChannel] *)
Definition openChannel (timeout : Z) : M T unit :=
  t ← gets id;
  let e := _endpoint t in
  let port := if bool_decide (port e ≠ 0) then port e else kDefaultPort in
  _ ← on_world (probeReachable (host e) port timeout);
  ch ← on_world (Channel_Create (host e) port (user e) (password e) (realm e));
  _ ← assign_channel ch;
  modify (set_connected true).

(** [SimpleAmqpTransport::connect] *)
Definition connect (endpoint : Endpoint) (timeout : Z) : M T unit :=
  _ ← modify (set_endpoint endpoint);
  openChannel timeout.

(** [try { m } catch (const std::exception &) {}] *)
Definition swallow_std (m : M T unit) : M T unit :=
  try_catch m (λ e, if is_std e then mret tt else throw e).

(** [SimpleAmqpTransport::close] *)
Definition close (timeout : Z) : M T unit :=
  t ← gets id;
  _ ← match _channel t with
      | Some ch =>
          if _subscribed t && negb (is_empty (_consumerTag t))
          then swallow_std (on_world (BasicCancel ch (_consumerTag t)))
          else mret tt
      | None => mret tt
      end;
  _ ← try_catch reset_channel (λ _, mret tt);
  _ ← modify (set_connected false);
  _ ← modify (set_subscribed false);
  _ ← modify (set_consumerTag "");
  modify (set_handler None).

(** [SimpleAmqpTransport::ready] *)
Definition ready (t : T) : bool := _connected t && bool_decide (is_Some (_channel t)).

(** ** Topics *)

(** [SimpleAmqpTransport::ensureTopic] *)
Definition ensureTopic (topic : Topic) (options : TopicOptions) (timeout : Z) : M T unit :=
  ch ← require_channel "ensureTopic";
  _ ← (if deadLetter options then
         let forensicTopic := deadLetterTopic topic in
         let forensic := forensicTopicOptions topic in
         _ ← on_world (DeclareExchange ch kDeadLetterExchange false true false);
         _ ← on_world (DeclareQueue ch forensicTopic false (durable forensic)
               (negb (shared forensic)) (deleteWhenUnused forensic)
               (queueArguments forensicTopic forensic));
         on_world (BindQueue ch forensicTopic kDeadLetterExchange topic)
       else mret tt);
  _ ← on_world (DeclareQueue ch topic false (durable options) (negb (shared options))
        (deleteWhenUnused options) (queueArguments topic options));
  modify (set_topic topic options true).

(** [topic.rfind(kDeadLetterPrefix, 0) == 0] *)
Definition is_forensic (topic : Topic) : bool :=
  String.eqb (stake (String.length kDeadLetterPrefix) topic) kDeadLetterPrefix.

(** The options [topicDepth] redeclares a queue with. *)
Definition depth_options (t : T) (topic : Topic) : TopicOptions :=
  if is_forensic topic then forensicTopicOptions (sdrop (String.length kDeadLetterPrefix) topic)
  else if _topicDeclared t && String.eqb topic (_topic t) then _topicOptions t
  else default_TopicOptions.

(** [SimpleAmqpTransport::topicDepth] *)
Definition topicDepth (topic : Topic) (timeout : Z) : M T Z :=
  ch ← require_channel "topicDepth";
  t ← gets id;
  let options := depth_options t topic in
  messages ← on_world (DeclareQueueWithCounts ch topic false (durable options)
    (negb (shared options)) (deleteWhenUnused options) (queueArguments topic options));
  mret (u32 messages).

(** [SimpleAmqpTransport::purgeTopic] *)
Definition purgeTopic (topic : Topic) (timeout : Z) : M T Z :=
  ch ← require_channel "purgeTopic";
  before ← topicDepth topic 5000;
  _ ← on_world (PurgeQueue ch topic);
  mret before.

(** [SimpleAmqpTransport::send] *)
Definition send (topic : Topic) (payload : string) (options : SendOptions) : M T bool :=
  ch ← require_channel "send";
  _ ← throw_if (send_confirm options) (logic_error
        ("backend 'simpleamqp' does not support publisher confirms " +:+
         "(Capabilities::publisherConfirms is false); SimpleAmqpClient's Channel exposes no " +:+
         "confirm API at all. Check the capability before requesting it."));
  _ ← on_world (BasicPublish ch "" topic payload (send_durable options));
  _ ← modify (with_stats (bump_sent (size_of payload)));
  mret true.

(** ** Consuming *)

(** [SimpleAmqpTransport::startConsuming] *)
Definition startConsuming : M T unit :=
  ch ← the_channel;
  t ← gets id;
  tag ← on_world (BasicConsume ch (_topic t) "" false false false 1);
  modify (set_consumerTag tag).

(** [SimpleAmqpTransport::subscribe] *)
Definition subscribe (topic : Topic) (handler : option H) (timeout : Z) : M T unit :=
  _ ← require_channel "subscribe";
  _ ← throw_if (bool_decide (handler = None))
        (invalid_argument "subscribe() requires a callable handler");
  t ← gets id;
  _ ← throw_if (_subscribed t) (logic_error
        ("subscribe() called twice on one transport; use one transport per " +:+
         "topic instead of overwriting the active subscription to '" +:+ _topic t +:+ "'"));
  _ ← modify (set_handler handler);
  _ ← modify (λ t, set_topic topic (_topicOptions t) (_topicDeclared t) t);
  _ ← startConsuming;
  modify (set_subscribed true).

(** ** Reconnection *)

(** [SimpleAmqpTransport::setReconnectPolicy] *)
Definition setReconnectPolicy (policy : ReconnectPolicy) : M T unit :=
  modify (set_retry policy 0 0).

(** The [try] block of [serviceReconnect], up to the bookkeeping of a success: a new
    channel with the topic, then the subscription. *)
Definition reopen : M T unit :=
  _ ← reset_channel;
  _ ← openChannel 5000;
  t ← gets id;
  if _topicDeclared t then ensureTopic (_topic t) (_topicOptions t) 5000 else mret tt.
Definition restore_session : M T unit :=
  _ ← reopen;
  t ← gets id;
  if _subscribed t then startConsuming else mret tt.

Definition restore : M T unit :=
  _ ← restore_session;
  _ ← modify (λ t, set_retry (_policy t) 0 (_nextAttempt t) t);
  modify (with_stats bump_reconnects).

(** Its [catch] block. *)
Definition restore_failed : M T unit :=
  t ← gets id;
  delay ← lift (backoff (_policy t) (_failedAttempts t));
  n ← now;
  _ ← modify (λ t, set_retry (_policy t) (_failedAttempts t) (n + delay) t);
  modify (set_connected false).

(** [SimpleAmqpTransport::serviceReconnect] *)
Definition serviceReconnect : M T bool :=
  t ← gets id;
  if negb (enabled (_policy t)) then mret false
  else if bool_decide (_failedAttempts t >= maxAttempts (_policy t)) then mret false
  else
    n ← now;
    if bool_decide (n < _nextAttempt t) then mret true
    else
      _ ← modify (λ t, set_retry (_policy t) (u32 (_failedAttempts t + 1)) (_nextAttempt t) t);
      _ ← try_catch restore (λ e, if is_std e then restore_failed else throw e);
      mret true.

(** ** Delivery *)

(** [if (!_policy.enabled) return false; return serviceReconnect();] *)
Definition reconnect_or_stop : M T bool :=
  t ← gets id;
  if negb (enabled (_policy t)) then mret false else serviceReconnect.

(** The [switch] of [pump]; there is no case for [Deferred]. *)
Definition acknowledge (envelope : Envelope) (d : Disposition) : M T unit :=
  match d with
  | Ack =>
      ch ← the_channel;
      _ ← on_world (BasicAck ch envelope);
      modify (with_stats bump_acks)
  | Requeue =>
      ch ← the_channel;
      _ ← on_world (BasicReject ch envelope true);
      modify (with_stats bump_requeues)
  | Reject =>
      ch ← the_channel;
      _ ← on_world (BasicReject ch envelope false);
      modify (with_stats bump_rejects)
  | Deferred => mret tt
  end.

Definition delivery_of (envelope : Envelope) : Delivery :=
  mkDelivery (Message_Body envelope) (Redelivered envelope) (u64 (DeliveryTag envelope)).

(** [pump] from a received envelope on. *)
Definition deliver {S} (run : Runner T H S) (handler : H) (envelope : Envelope) : M (T * S) bool :=
  _ ← on_fst (modify (with_stats (bump_received (size_of (Message_Body envelope)))));
  d ← try_catch (run handler (delivery_of envelope))
    (λ e, _ ← on_fst (modify (with_stats bump_abandoned)); throw e);
  _ ← on_fst (acknowledge envelope d);
  mret true.

(** The fenced receive: [None] when the connection was lost in it. *)
Definition receive (slice : Z) : M T (option (option Envelope)) :=
  ch ← the_channel;
  t ← gets id;
  try_catch
    (got ← on_world (BasicConsumeMessage ch (_consumerTag t) (cast_int32 slice)); mret (Some got))
    (λ e, if is_std e then _ ← modify (set_connected false); mret None else throw e).

(** [SimpleAmqpTransport::pump] *)
Definition pump {S} (run : Runner T H S) (slice : Z) : M (T * S) bool :=
  '(t, _) ← gets id;
  if negb (ready t) then on_fst reconnect_or_stop
  else
    match _handler t with
    | None => mret true
    | Some handler =>
        if negb (_subscribed t) then mret true
        else
          got ← on_fst (receive slice);
          match got with
          | None => on_fst reconnect_or_stop
          | Some None => mret true
          | Some (Some envelope) => deliver run handler envelope
          end
    end.

(** [SimpleAmqpTransport::stats] *)
Definition stats (t : T) : Stats := _stats t.

#[export] Instance simpleamqp_transport : ITransport.ITransport T H := {|
  ITransport.Slice := Z;
  ITransport.capabilities := capabilities;
  ITransport.connect S _ endpoint timeout := on_fst (connect endpoint timeout);
  ITransport.close S _ timeout := on_fst (close timeout);
  ITransport.ready := ready;
  ITransport.ensureTopic S _ topic options timeout := on_fst (ensureTopic topic options timeout);
  ITransport.topicDepth S _ topic timeout := on_fst (topicDepth topic timeout);
  ITransport.purgeTopic S _ topic timeout := on_fst (purgeTopic topic timeout);
  ITransport.send := send;
  ITransport.subscribe S _ topic handler timeout := on_fst (subscribe topic handler timeout);
  ITransport.settle := settle;
  ITransport.setReconnectPolicy := setReconnectPolicy;
  ITransport.pump S := @pump S;
  ITransport.stats := stats;
|}.

End transport.

(** ** Lemmas *)

Section properties.
Context {W : Type} `{!SimpleAmqpClient W} {H : Type}.
Local Abbreviation T := (@SimpleAmqpTransport W _ H).

(** What was asked for: everything a reconnection must restore. *)
Definition identity (t : T) :
    Endpoint * ReconnectPolicy * Topic * TopicOptions * bool * bool * option H :=
  (_endpoint t, _policy t, _topic t, _topicOptions t, _topicDeclared t, _subscribed t, _handler t).

Lemma preserves_on_world (I : T → Prop) {A} (m : M W A) :
  (∀ t w, I t → I (set_world w t)) → preserves I (on_world m).
Proof. intros Hw t Ht. unfold on_world. destruct (m (world t)) as [o w]. by apply Hw. Qed.

(** A statement about members the library calls and the given assignments do not
    touch survives each piece of [restore]. *)
Section frame.
Context (I : T → Prop).
Context (I_world : ∀ t w, I t → I (set_world w t)).
Context (I_channel : ∀ t ch, I t → I (set_channel ch t)).
Context (I_tag : ∀ t tag, I t → I (set_consumerTag tag t)).
Context (I_connected : ∀ t b, I t → I (set_connected b t)).
Context (I_topic : ∀ t, I t → _topicDeclared t = true →
  I (set_topic (_topic t) (_topicOptions t) true t)).

Lemma frame_world {A} (m : M W A) : preserves I (on_world m).
Proof. by apply preserves_on_world. Qed.

Lemma frame_reset : preserves I reset_channel.
Proof.
  intros t Ht. unfold reset_channel. run. unfold id. destruct (_channel t); [|done].
  unfold on_world. destruct (Channel_release _ _) as [o w]. cbn. by apply I_world, I_channel.
Qed.

Lemma frame_assign_channel ch : preserves I (assign_channel ch).
Proof.
  intros t Ht. unfold assign_channel. run. destruct (_channel t) as [old|]; cbn; [|by apply I_channel].
  by apply frame_world, I_channel.
Qed.

Lemma frame_open timeout : preserves I (openChannel timeout).
Proof.
  unfold openChannel. apply preserves_bind; [apply preserves_gets|]. intros t.
  apply preserves_bind; [apply frame_world|]. intros [].
  apply preserves_bind; [apply frame_world|]. intros ch.
  apply preserves_bind; [apply frame_assign_channel|]. intros [].
  apply preserves_modify. auto.
Qed.

Lemma frame_consume : preserves I startConsuming.
Proof.
  unfold startConsuming, the_channel. apply preserves_bind.
  { apply preserves_bind; [apply preserves_gets|]. intros t. destruct (_channel t);
      [apply preserves_ret|apply preserves_undefined]. }
  intros ch. apply preserves_bind; [apply preserves_gets|]. intros t.
  apply preserves_bind; [apply frame_world|]. intros tag. apply preserves_modify. auto.
Qed.

Lemma frame_ensure t :
  I t → _topicDeclared t = true → I (ensureTopic (_topic t) (_topicOptions t) 5000 t).2.
Proof.
  intros Ht Hd.
  set (J := λ t', I t' ∧ _topic t' = _topic t ∧ _topicOptions t' = _topicOptions t ∧
    _topicDeclared t' = true).
  assert (HJ : ∀ A (m : M W A), preserves J (on_world m)).
  { intros A m. apply preserves_on_world. intros t' w (H1 & H2 & H3 & H4).
    split_and!; [by apply I_world|done..]. }
  assert (Hp : preserves J (ensureTopic (_topic t) (_topicOptions t) 5000));
    [|by apply (Hp t)].
  unfold ensureTopic, require_channel. apply preserves_bind.
  { apply preserves_bind; [apply preserves_gets|]. intros t'. destruct (_channel t');
      [apply preserves_ret|apply preserves_throw]. }
  intros ch. apply preserves_bind.
  { destruct (deadLetter _); [|apply preserves_ret].
    apply preserves_bind; [apply HJ|intros []].
    apply preserves_bind; [apply HJ|intros []]. apply HJ. }
  intros []. apply preserves_bind; [apply HJ|intros []].
  apply preserves_modify. intros t' (H1 & H2 & H3 & H4). rewrite <- H2, <- H3.
  split_and!; [by apply I_topic|done..].
Qed.
End frame.

Lemma preserves_gets_id (I : T → Prop) {A} (f : T → M T A) :
  (∀ t, I t → I (f t t).2) → preserves I (gets id ≫= f).
Proof. intros Hf t Ht. by apply Hf. Qed.

(** What [restore_session] leaves alone. *)
Definition frozen (t t' : T) : Prop :=
  identity t' = identity t ∧ _stats t' = _stats t ∧
  _failedAttempts t' = _failedAttempts t.

(** ... and the instant before which no attempt is made. *)
Definition unmoved (t t' : T) : Prop := frozen t t' ∧ _nextAttempt t' = _nextAttempt t.

Lemma reopen_unmoved t0 : preserves (unmoved t0) reopen.
Proof.
  assert (Htopic : ∀ t, unmoved t0 t → _topicDeclared t = true →
    unmoved t0 (set_topic (_topic t) (_topicOptions t) true t)).
  { intros t [(Hi & Hs & Hf) Hn] Hd. split; [|done]. split_and!; [|done|done].
    rewrite <- Hi. unfold identity. cbn. by rewrite Hd. }
  unfold reopen.
  apply preserves_bind; [apply frame_reset; by intros|intros []].
  apply preserves_bind; [apply frame_open; by intros|intros []].
  apply preserves_gets_id. intros t Ht. destruct (_topicDeclared t) eqn:Hd; [|done].
  apply (frame_ensure (unmoved t0)); [by intros|exact Htopic|done..].
Qed.


Lemma resume_unmoved t0 :
  preserves (unmoved t0) (t ← gets id; if _subscribed t then startConsuming else mret tt).
Proof.
  apply preserves_gets_id. intros t Ht. destruct (_subscribed t); [|done].
  apply frame_consume; [by intros..|done].
Qed.

Lemma restore_session_unmoved t : unmoved t (restore_session t).2.
Proof.
  assert (Hp : preserves (unmoved t) restore_session); [|by apply Hp].
  apply preserves_bind; [apply reopen_unmoved|intros []; apply resume_unmoved].
Qed.

Lemma restore_session_frozen t : frozen t (restore_session t).2.
Proof. apply restore_session_unmoved. Qed.

Lemma openChannel_ready timeout (t t' : T) :
  openChannel timeout t = (Ret tt, t') → ready t' = true.
Proof.
  unfold openChannel, on_world. run. unfold id.
  destruct (probeReachable _ _ _ _) as [[[]| |] w]; [|done..]. cbn.
  destruct (Channel_Create _ _ _ _ _ _) as [[ch| |] w2]; [|done..]. cbn.
  unfold assign_channel, on_world. run. cbn. destruct (_channel t) as [old|]; cbn.
  - destruct (Channel_release old w2) as [[[]| |] w3]; [by intros [= <-]|done..].
  - by intros [= <-].
Qed.

Lemma ensureTopic_preserves (I : T → Prop) topic options timeout :
  (∀ t w, I t → I (set_world w t)) → (∀ t, I t → I (set_topic topic options true t)) →
  preserves I (ensureTopic topic options timeout).
Proof.
  intros Hw Ht. unfold ensureTopic, require_channel. apply preserves_bind.
  { apply preserves_gets_id. intros t H0. by destruct (_channel t). }
  intros ch. apply preserves_bind.
  { destruct (deadLetter _); [|apply preserves_ret].
    apply preserves_bind; [by apply preserves_on_world|intros []].
    apply preserves_bind; [by apply preserves_on_world|intros []].
    by apply preserves_on_world. }
  intros []. apply preserves_bind; [by apply preserves_on_world|intros []].
  by apply preserves_modify.
Qed.

Lemma restore_session_ready (t t' : T) : restore_session t = (Ret tt, t') → ready t' = true.
Proof.
  unfold restore_session, reopen.
  intros ([] & t1 & ([] & t2 & _ & ([] & t3 & Hopen & H1)%M_bind_Ret)%M_bind_Ret & H2)%M_bind_Ret.
  apply openChannel_ready in Hopen as Hr.
  assert (Hr1 : ready t1 = true).
  { revert H1. run. unfold id. destruct (_topicDeclared t3); [|by intros [= <-]].
    pose proof (ensureTopic_preserves (λ t, ready t = true) (_topic t3) (_topicOptions t3) 5000
      ltac:(done) ltac:(done) t3 Hr) as Hp. intros H1. by rewrite H1 in Hp. }
  revert H2. run. unfold id. destruct (_subscribed t1); [|by intros [= <-]].
  intros H2. assert (Hp : preserves (λ t : T, ready t = true) startConsuming)
    by (by apply frame_consume). specialize (Hp t1 Hr1). by rewrite H2 in Hp.
Qed.

(** The endpoint a new channel was asked of, and got from. *)
Definition contacted (e : Endpoint) (timeout : Z) (w : W) : Prop :=
  let port := if bool_decide (port e ≠ 0) then port e else kDefaultPort in
  ∃ w1 ch w2, probeReachable (host e) port timeout w = (Ret tt, w1) ∧
    Channel_Create (host e) port (user e) (password e) (realm e) w1 = (Ret ch, w2).

Lemma restore_session_contacts (t t' : T) :
  _channel t = None → restore_session t = (Ret tt, t') → contacted (_endpoint t) 5000 (world t).
Proof.
  intros Hch. unfold restore_session, reopen.
  intros ([] & t1 & ([] & t2 & Hreset & ([] & t3 & Hopen & _)%M_bind_Ret)%M_bind_Ret & _)%M_bind_Ret.
  assert (t2 = t) as ->.
  { unfold reset_channel in Hreset. run_in Hreset. unfold id in Hreset. rewrite Hch in Hreset.
    by injection Hreset. }
  unfold openChannel in Hopen. apply M_bind_Ret in Hopen as (? & ? & [= <- <-] & Hopen).
  apply M_bind_Ret in Hopen as ([] & t4 & Hprobe & Hopen).
  apply M_bind_Ret in Hopen as (ch & t5 & Hcreate & _). unfold id in *. unfold contacted.
  unfold on_world in Hprobe, Hcreate.
  destruct (probeReachable _ _ _ _) as [o w1]. injection Hprobe as -> <-. cbn in Hcreate.
  destruct (Channel_Create _ _ _ _ _ _) as [o w2] eqn:E. injection Hcreate as -> <-. eauto.
Qed.

Lemma restore_run (t : T) :
  restore t =
    match restore_session t with
    | (Ret _, t') => (Ret tt, with_stats bump_reconnects (set_retry (_policy t') 0 (_nextAttempt t') t'))
    | r => r
    end.
Proof. unfold restore. run. by destruct (restore_session t) as [[[]| |] t']. Qed.

(** ** Reconnection *)

(** The state in which an attempt starts, its failure counted in advance. *)
Definition attempting (t : T) : T :=
  set_retry (_policy t) (_failedAttempts t + 1) (_nextAttempt t) (set_world (steady_now (world t)).2 t).

(** One reconnection attempt.  Whatever the libraries do, [serviceReconnect]
    leaves what must be restored -- endpoint, policy, topic with its options,
    subscription and handler -- as it was.  It answers [false], changing nothing,
    exactly when no policy is enabled or the allowed attempts are used up;
    otherwise it waits out the back-off, or succeeds (usable again, failures back to
    zero, one reconnect counted), or counts one more failure and adds the back-off to
    the reading of the clock it takes when the attempt has failed.  Only exceptions that are not [std::exception]s
    escape. *)
Lemma reconnect_attempt (t : T) :
  0 ≤ _failedAttempts t → _failedAttempts t + 1 < 2 ^ 32 →
  let '(o, t') := serviceReconnect t in
  let may_try := enabled (_policy t) = true ∧ _failedAttempts t < maxAttempts (_policy t) in
  identity t' = identity t ∧
  match o with
  | Ret false => t' = t ∧ ¬ may_try
  | Ret true => may_try ∧
      ((t' = set_world (steady_now (world t)).2 t ∧ (steady_now (world t)).1 < _nextAttempt t) ∨
       ((steady_now (world t)).1 >= _nextAttempt t ∧ ready t' = true ∧ _failedAttempts t' = 0 ∧
        _nextAttempt t' = _nextAttempt t ∧ _stats t' = bump_reconnects (_stats t)) ∨
       ((steady_now (world t)).1 >= _nextAttempt t ∧ ready t' = false ∧ _failedAttempts t' = _failedAttempts t + 1 ∧
        _stats t' = _stats t ∧
        ∃ d, backoff (_policy t) (_failedAttempts t + 1) = Ret d ∧
          _nextAttempt t' = (steady_now (world (restore_session (attempting t)).2)).1 + d))
  | Throw e => is_std e = false
  | Undefined => True
  end.
Proof.
  intros H0 H1. unfold serviceReconnect. run. unfold id.
  destruct (enabled (_policy t)) eqn:He; cbn [negb]; [|by split; [|split; [|intros [? ?]]]].
  case_bool_decide as Hmax; [by split; [|split; [|intros [? ?]; lia]]|].
  unfold now. destruct (steady_now (world t)) as [n w] eqn:Hnow. cbn.
  case_bool_decide as Hwait.
  { split; [done|]. split; [split; [done|lia]|]. by left. }
  cbn [set_world _policy _failedAttempts _nextAttempt]. rewrite u32_small by lia.
  fold (set_world w t). unfold attempting. rewrite Hnow. cbn [snd].
  set (t1 := set_retry _ _ _ _). rewrite restore_run.
  pose proof (restore_session_unmoved t1) as [(Hi & Hs & Hf) Hnext].
  assert (Hi1 : identity t1 = identity t) by done.
  destruct (restore_session t1) as [[[]|e|] t2] eqn:Hres; cbn in Hi, Hs, Hf, Hnext.
  - apply restore_session_ready in Hres. split; [by rewrite <- Hi1, <- Hi|].
    split; [split; [done|lia]|]. right. left. split_and!; [lia|done|done|done|]. cbn. by rewrite Hs.
  - destruct (is_std e) eqn:Hstd; [|by split; [rewrite <- Hi1, <- Hi|]].
    assert (Hpol : _policy t2 = _policy t) by (unfold identity in Hi; by injection Hi).
    unfold restore_failed, now. run. unfold id. rewrite Hpol, Hf.
    destruct (backoff (_policy t) (_failedAttempts t + 1)) as [d|e'|] eqn:Hb.
    + cbn [snd]. destruct (steady_now (world t2)) as [n2 w2]. cbn.
      split; [rewrite <- Hi1, <- Hi; unfold identity; cbn; by rewrite Hpol|].
      split; [split; [done|lia]|]. right. right.
      split_and!; [lia|done|done|done|]. by exists d.
    + exfalso. revert Hb. unfold backoff, shl64. run. by repeat case_match.
    + split; [|done]. by rewrite <- Hi1, <- Hi.
  - split; [|done]. by rewrite <- Hi1, <- Hi.
Qed.




(** The destructor lets no exception out, and the channel is gone even if releasing it
    failed. *)
Lemma destroy_quiet (t : T) :
  let '(o, t') := destroy t in
  (∀ e, o ≠ Throw e) ∧ _channel t' = None ∧ identity t' = identity t ∧ _stats t' = _stats t.
Proof.
  unfold destroy, try_catch, reset_channel, on_world. run. unfold id.
  destruct (_channel t) as [ch|] eqn:Hch; [|by split_and!].
  cbn [world set_channel]. by destruct (Channel_release ch (world t)) as [[[]|e|] w].
Qed.

(** ** Delivery *)

(** The library call a disposition becomes. *)
Definition action (ch : Channel) (envelope : Envelope) (d : Disposition) : M W unit :=
  match d with
  | Ack => BasicAck ch envelope
  | Requeue => BasicReject ch envelope true
  | Reject => BasicReject ch envelope false
  | Deferred => mret tt
  end.

Lemma acknowledge_run envelope d (t : T) ch :
  _channel t = Some ch →
  acknowledge envelope d t =
    let '(o, w) := action ch envelope d (world t) in
    (o, match o with
        | Ret _ => with_stats (bump_disposition d) (set_world w t)
        | _ => set_world w t
        end).
Proof.
  intros Hch. unfold acknowledge, the_channel, on_world. run. unfold id.
  destruct d; rewrite ?Hch; cbn;
    [by destruct (BasicAck _ _ _) as [[[]| |] w]
    |by destruct (BasicReject _ _ _ _) as [[[]| |] w]..|by destruct t].
Qed.

(** C27. Receiving and answering.  For a subscribed, usable transport: a bounded wait
    that finds nothing runs no handler; a loss of the connection reported while
    receiving is not itself thrown at the caller and runs no handler -- without a policy
    [pump] answers [false] and the transport is no longer ready, with one it does what
    [serviceReconnect] does; a handler that
    throws has its own exception propagated, counted as abandoned, with no further
    call into the library, so the broker still holds the delivery; and a handler
    that answers has exactly that answer sent once, counted only if the library took
    it, and the exception of a library that did not take it propagates. *)
Theorem receive_and_answer {S} (run : Runner T H S) slice t s h ch :
  ready t = true → _handler t = Some h → _subscribed t = true → _channel t = Some ch →
  let '(o, w) := BasicConsumeMessage ch (_consumerTag t) (cast_int32 slice) (world t) in
  match o with
  | Ret None => pump run slice (t, s) = (Ret true, (set_world w t, s))
  | Ret (Some envelope) =>
      let t1 := with_stats (bump_received (size_of (Message_Body envelope))) (set_world w t) in
      match run h (delivery_of envelope) (t1, s) with
      | (Throw e, (t2, s2)) =>
          pump run slice (t, s) = (Throw e, (with_stats bump_abandoned t2, s2))
      | (Ret d, (t2, s2)) => ∀ ch2, _channel t2 = Some ch2 →
          let '(o2, w2) := action ch2 envelope d (world t2) in
          pump run slice (t, s) =
            match o2 with
            | Ret _ => (Ret true, (with_stats (bump_disposition d) (set_world w2 t2), s2))
            | Throw e => (Throw e, (set_world w2 t2, s2))
            | Undefined => (Undefined, (set_world w2 t2, s2))
            end
      | (Undefined, _) => True
      end
  | Throw e =>
      is_std e = true →
      let t1 := set_connected false (set_world w t) in
      ready t1 = false ∧
      pump run slice (t, s) =
        (if enabled (_policy t) then
           let '(o2, t2) := serviceReconnect t1 in (o2, (t2, s))
         else (Ret false, (t1, s)))
  | Undefined => True
  end.
Proof.
  intros Hr Hh Hs Hch.
  destruct (BasicConsumeMessage ch (_consumerTag t) (cast_int32 slice) (world t)) as [o w] eqn:Hget.
  assert (Hpump : pump run slice (t, s) =
    (got ← on_fst (receive slice);
     match got with
     | None => on_fst reconnect_or_stop
     | Some None => mret true
     | Some (Some envelope) => deliver run h envelope
     end) (t, s)).
  { unfold pump. run. unfold id. by rewrite Hr, Hh, Hs. }
  assert (Hrec : receive slice t =
    match o with
    | Ret got => (Ret (Some got), set_world w t)
    | Throw e => if is_std e then (Ret None, set_connected false (set_world w t))
                 else (Throw e, set_world w t)
    | Undefined => (Undefined, set_world w t)
    end).
  { unfold receive, the_channel, on_world. run. unfold id. rewrite Hch, Hget.
    destruct o as [got|e|]; [done| |done]. by destruct (is_std e). }
  rewrite Hpump. run. rewrite Hrec. destruct o as [[envelope|]|e|]; [|done| |done].
  - unfold deliver. run.
    destruct (run h (delivery_of envelope) _) as [[d|e|] [t2 s2]]; [|done..].
    intros ch2 Hch2. rewrite (acknowledge_run envelope d t2 ch2 Hch2).
    by destruct (action ch2 envelope d (world t2)) as [[[]|e|] w2].
  - intros ->. split; [done|]. unfold reconnect_or_stop. run. unfold id.
    change (_policy (set_connected false (set_world w t))) with (_policy t).
    destruct (enabled (_policy t)); cbn [negb]; [|done].
    by destruct (serviceReconnect _) as [[b| |] t2].
Qed.

(** ** The books *)

Lemma serviceReconnect_performed (t : T) :
  performed (_stats (serviceReconnect t).2) = performed (_stats t).
Proof.
  unfold serviceReconnect. run. unfold id. destruct (negb _); [done|].
  destruct (bool_decide (_ >= _)); [done|]. unfold now.
  destruct (steady_now (world t)) as [n w]. cbn [set_world _nextAttempt].
  destruct (bool_decide (_ < _)); [done|]. rewrite restore_run.
  set (t1 := set_retry _ _ _ _). pose proof (restore_session_frozen t1) as (_ & Hs & _).
  destruct (restore_session t1) as [[[]|e|] t2]; cbn in Hs.
  - cbn. rewrite Hs. done.
  - destruct (is_std e); [|cbn; by rewrite Hs].
    unfold restore_failed, now. run. unfold id.
    destruct (backoff _ _); cbn; rewrite ?Hs; [|done..].
    destruct (steady_now (world t2)) as [n2 w2]. cbn. by rewrite Hs.
  - cbn. by rewrite Hs.
Qed.

Lemma reconnect_or_stop_performed (t : T) :
  performed (_stats (reconnect_or_stop t).2) = performed (_stats t).
Proof.
  unfold reconnect_or_stop. run. unfold id. destruct (negb _); [done|].
  apply serviceReconnect_performed.
Qed.

End properties.
End SimpleAmqp.

#[export] Instance simpleamqp_spectated {W} (L : SimpleAmqpClient W) :
  Spectated (@SimpleAmqp.SimpleAmqpTransport W L Subscription).
Proof.
  refine {| by_others t t' := ∃ w, t' = SimpleAmqp.set_world w t |}.
  intros t. exists (SimpleAmqp.world t). by destruct t.
Defined.

(** The consumer's guarantee holds over this backend too. *)
#[export] Instance simpleamqp_accountable {W} (L : SimpleAmqpClient W) :
  Accountable (ITransport0 := SimpleAmqp.simpleamqp_transport)
    (@SimpleAmqp.SimpleAmqpTransport W L Subscription) Subscription.
Proof.
  split.
  - done.
  - intros S run slice t s b t' s' Hothers Hpump. cbn in Hpump |- *.
    unfold SimpleAmqp.stats. unfold SimpleAmqp.pump in Hpump. run_in Hpump. unfold id in Hpump.
    assert (Hstop : ∀ t0, performed (SimpleAmqp._stats t0) = performed (SimpleAmqp._stats t) →
      (let '(o, t1) := SimpleAmqp.reconnect_or_stop t0 in (o, (t1, s))) = (Ret b, (t', s')) →
      ∃ ds, delivered run s ds s' ∧ performed (SimpleAmqp._stats t') =
        foldl (λ n d, tally d n) (performed (SimpleAmqp._stats t)) ds).
    { intros t0 H0. pose proof (SimpleAmqp.reconnect_or_stop_performed t0) as Hperf.
      destruct (SimpleAmqp.reconnect_or_stop t0) as [o t1]. intros [= -> -> ->].
      exists []. split; [constructor|]. cbn in *. by rewrite Hperf. }
    destruct (negb (SimpleAmqp.ready t)); [by apply (Hstop t)|].
    destruct (SimpleAmqp._handler t) as [h|];
      [|injection Hpump as _ <- <-; by exists []; split; [constructor|]].
    destruct (negb (SimpleAmqp._subscribed t));
      [injection Hpump as _ <- <-; by exists []; split; [constructor|]|].
    assert (Hrec : SimpleAmqp._stats (SimpleAmqp.receive slice t).2 = SimpleAmqp._stats t).
    { unfold SimpleAmqp.receive, SimpleAmqp.the_channel, SimpleAmqp.on_world. run. unfold id.
      destruct (SimpleAmqp._channel t); [|done].
      destruct (BasicConsumeMessage _ _ _ _) as [[got|e|] w]; [done| |done].
      by destruct (is_std e). }
    destruct (SimpleAmqp.receive slice t) as [[[[envelope|]|]|e|] t0]; cbn in Hrec; [| | |done..].
    2:{ injection Hpump as _ <- <-. exists []. split; [constructor|]. by rewrite Hrec. }
    2:{ apply (Hstop t0); [by rewrite Hrec|exact Hpump]. }
    unfold SimpleAmqp.deliver in Hpump. run_in Hpump.
    set (t1 := SimpleAmqp.with_stats _ t0) in Hpump.
    destruct (Hothers h (SimpleAmqp.delivery_of envelope) t1 s) as [w Hw].
    destruct (run h (SimpleAmqp.delivery_of envelope) (t1, s)) as [[d|e|] [t2 s2]] eqn:Hrun;
      [|done..]. cbn in Hw. subst t2.
    set (t2 := SimpleAmqp.set_world w t1) in *.
    exists [d]. cbn [foldl].
    destruct (SimpleAmqp._channel t2) as [ch|] eqn:Hch.
    + rewrite (SimpleAmqp.acknowledge_run envelope d t2 ch Hch) in Hpump.
      destruct (SimpleAmqp.action ch envelope d _) as [[[]| |] w2]; [|done..].
      injection Hpump as _ <- <-. split; [by eapply delivered_one; [exact Hrun|constructor]|].
      cbn. rewrite Hrec. by destruct d.
    + assert (d = Deferred ∧ t' = t2 ∧ s' = s2) as (-> & -> & ->).
      { revert Hpump. unfold SimpleAmqp.acknowledge, SimpleAmqp.the_channel. run. unfold id.
        destruct d; rewrite ?Hch; [done..|]. by intros [= _ <- <-]. }
      split; [by eapply delivered_one; [exact Hrun|constructor]|]. cbn. by rewrite Hrec.
Defined.

(** ** The properties on a small broker *)

Module Sample.
Import SimpleAmqp.

(** A broker that is up or down, with one queue of waiting messages. *)
Record Broker : Type := mkBroker {
  up : bool;
  waiting : list (string * bool * Z);
  declared : list string;
  acted : list (Z * Disposition);
}.

Definition unreachable {A} : M Broker A := throw (std_exception "connection refused").
Definition when_up {A} (m : M Broker A) : M Broker A := λ b, if up b then m b else unreachable b.
Definition act (tag : Z) (d : Disposition) : M Broker unit :=
  when_up (modify (λ b, mkBroker (up b) (waiting b) (declared b) (acted b ++ [(tag, d)]))).

Instance client : SimpleAmqpClient Broker := {|
  Channel := unit;
  Envelope := string * bool * Z;
  Address := unit;
  Message_Body e := e.1.1;
  Redelivered e := e.1.2;
  DeliveryTag e := e.2;
  steady_now b := (0, b);
  make_address _ := Some tt;
  resolve _ _ := mret (None, [tt]);
  connect_within _ _ _ := λ b,
    (Ret (Some (if up b then None else Some ("connection refused", 111))), b);
  Channel_Create _ _ _ _ _ := when_up (mret tt);
  Channel_release _ := mret tt;
  DeclareExchange _ _ _ _ _ := when_up (mret tt);
  DeclareQueue _ name _ _ _ _ _ := when_up
    (modify (λ b, mkBroker (up b) (waiting b) (declared b ++ [name]) (acted b)));
  DeclareQueueWithCounts _ _ _ _ _ _ _ :=
    when_up (gets (λ b, Z.of_nat (length (waiting b))));
  BindQueue _ _ _ _ := when_up (mret tt);
  PurgeQueue _ _ := when_up (mret tt);
  BasicPublish _ _ _ _ _ := when_up (mret tt);
  BasicConsume _ _ _ _ _ _ _ := when_up (mret "ctag");
  BasicConsumeMessage _ _ _ := when_up (λ b,
    match waiting b with
    | [] => (Ret None, b)
    | e :: rest => (Ret (Some e), mkBroker (up b) rest (declared b) (acted b))
    end);
  BasicCancel _ _ := mret tt;
  BasicAck _ e := act e.2 Ack;
  BasicReject _ e requeue := act e.2 (if requeue then Requeue else Reject);
|}.

Local Abbreviation T := (@SimpleAmqpTransport Broker client bool).

Definition run : Runner T bool unit := λ h d w,
  (if h then Ret Ack else Throw (runtime_error "worker died"), w).

(** Declared and subscribed, with a reconnect policy. *)
Definition subscribed (h : bool) : T :=
  let t0 := new_SimpleAmqpTransport (mkBroker true [("job", false, 7)] [] []) in
  let t1 := (connect default_Endpoint 1000 t0).2 in
  let t2 := (setReconnectPolicy (mkReconnectPolicy true 5 250 5000) t1).2 in
  let t3 := (ensureTopic "jobs" default_TopicOptions 1000 t2).2 in
  (subscribe "jobs" (Some h) 1000 t3).2.

(** The broker goes away; a pump notices and fails to reconnect. *)
Definition disconnected : T :=
  (pump run 100 (set_world (mkBroker false [] [] []) (subscribed true), tt)).2.1.

Lemma reconnect_attempt_witness :
  let t := set_world (mkBroker true [] [] []) (set_retry (_policy disconnected) 1 0 disconnected) in
  ready disconnected = false ∧ _failedAttempts disconnected = 1 ∧
  identity (serviceReconnect t).2 = identity (subscribed true) ∧
  ready (serviceReconnect t).2 = true.
Proof.
  intros t. split; [vm_compute; reflexivity|]. split; [vm_compute; reflexivity|].
  pose proof (reconnect_attempt t) as Hr.
  destruct (serviceReconnect t) as [o t'] eqn:Ht. cbn [snd].
  destruct Hr as [Hi _]; [vm_compute; discriminate|vm_compute; reflexivity|].
  split; [rewrite Hi; vm_compute; reflexivity|].
  apply (f_equal (λ r, ready r.2)) in Ht. cbn [snd] in Ht. rewrite <- Ht.
  vm_compute. reflexivity.
Defined.



Lemma receive_and_answer_witness :
  (∃ t', pump run 100 (subscribed true, tt) = (Ret true, (t', tt)) ∧
     acted (world t') = [(7, Ack)] ∧ acksPerformed (_stats t') = 1) ∧
  (∃ t', pump run 100 (subscribed false, tt) = (Throw (runtime_error "worker died"), (t', tt)) ∧
     acted (world t') = [] ∧ abandoned (_stats t') = 1).
Proof.
  split.
  - pose proof (receive_and_answer run 100 (subscribed true) tt true tt) as H.
    eexists. split; [|split].
    + exact (H eq_refl eq_refl eq_refl eq_refl tt eq_refl).
    + vm_compute. reflexivity.
    + vm_compute. reflexivity.
  - pose proof (receive_and_answer run 100 (subscribed false) tt false tt) as H.
    eexists. split; [|split].
    + exact (H eq_refl eq_refl eq_refl eq_refl).
    + vm_compute. reflexivity.
    + vm_compute. reflexivity.
Defined.

End Sample.
