(* ===== verification/ClientProperties.v ===== *)
(** The identity a connection shows to the broker: [versionString] of
    [cmake/Version.hpp.in] (its four constants are filled in by the build) and
    [detail::applyMotusClientProperties] of [include/motus/AmqpConnection.hpp],
    which the handshake callback [onProperties] calls.  [AMQP::Table] is the
    library's: a class with the behaviour its documentation gives it. *)

From S2P Require Import Prelude.

(** The constants of the generated header. *)
Record Build : Type := mkBuild {
  kVersion : string;
  kCommit : string;
  kCommitDate : string;
  kProvenance : string;
}.

(** [versionString] *)
Definition versionString (b : Build) : string :=
  let commit := kCommit b in
  let commit := if (7 <? String.length commit)%nat then stake 7 commit else commit in
  "motus " +:+ kVersion b +:+ " (commit " +:+ commit +:+ ", " +:+ kCommitDate b +:+ ", " +:+
  kProvenance b +:+ ")".

(** [AMQP::Table] as it is used here: text under names; a missing name reads as the
    empty text. *)
Class AmqpTable (Tb : Type) : Type := {
  get : Tb → string → string;
  set_field : string → string → Tb → Tb;
}.

Class AmqpTableLaws (Tb : Type) `{AmqpTable Tb} : Prop := {
  get_set_same k v client : get (set_field k v client) k = v;
  get_set_other k k' v client : k' ≠ k → get (set_field k v client) k' = get client k';
}.

(** [detail::applyMotusClientProperties] *)
Definition applyMotusClientProperties {Tb} `{AmqpTable Tb} (b : Build) (client : Tb) : Tb :=
  let existingName := get client "connection_name" in
  let identity := versionString b in
  let client := set_field "product" "motus" client in
  let client := set_field "version" (kVersion b) client in
  let client := set_field "information" "https://github.com/mertefesensoy/motus" client in
  let client := set_field "motus_commit" (kCommit b) client in
  let client := set_field "motus_commit_date" (kCommitDate b) client in
  let client := set_field "motus_provenance" (kProvenance b) client in
  set_field "connection_name"
    (if is_empty existingName then identity else existingName +:+ " | " +:+ identity) client.

(** [AmqpConnection::onProperties] *)
Definition onProperties {Tb} `{AmqpTable Tb} (b : Build) (client : Tb) : Tb :=
  applyMotusClientProperties b client.

Definition identity_keys : list string :=
  ["product"; "version"; "information"; "motus_commit"; "motus_commit_date"; "motus_provenance";
   "connection_name"].

(** The handshake names the build that owns the connection: the version, the full
    commit and its provenance are in fields of their own, the connection's name ends
    in the build's one-line identity after whatever name the application chose, and
    no other property is touched. *)
Theorem handshake_identity {Tb} `{AmqpTableLaws Tb} (b : Build) (client : Tb) :
  let client' := onProperties b client in
  get client' "version" = kVersion b ∧ get client' "motus_commit" = kCommit b ∧
  get client' "motus_commit_date" = kCommitDate b ∧ get client' "motus_provenance" = kProvenance b ∧
  (∃ own, get client' "connection_name" = own +:+ versionString b ∧
     (get client "connection_name" = "" → own = "") ∧
     (get client "connection_name" ≠ "" → own = get client "connection_name" +:+ " | ")) ∧
  ∀ k, k ∉ identity_keys → get client' k = get client k.
Proof.
  unfold onProperties, applyMotusClientProperties. cbn zeta.
  split_and!; try by rewrite ?get_set_other, get_set_same by done.
  - rewrite get_set_same. destruct (is_empty _) eqn:He.
    + apply is_empty_true in He. exists "". by split_and!.
    + apply is_empty_false in He. eexists. split; [by rewrite <- string_app_assoc|]. done.
  - intros k Hk. unfold identity_keys in Hk. rewrite !get_set_other; [done|set_solver..].
Qed.

(** The name shows at most seven characters of the commit. *)
Lemma versionString_commit b :
  ∃ short, versionString b = "motus " +:+ kVersion b +:+ " (commit " +:+ short +:+ ", " +:+
      kCommitDate b +:+ ", " +:+ kProvenance b +:+ ")" ∧
    (String.length short ≤ 7)%nat ∧ short = stake 7 (kCommit b).
Proof.
  eexists. split; [done|]. destruct (7 <? _)%nat eqn:Hl.
  - split; [|done]. rewrite stake_length. lia.
  - apply Nat.ltb_ge in Hl. split; [done|]. destruct (kCommit b) as [|c1 s]; [done|].
    do 7 (destruct s as [|? s]; [done|]). cbn in Hl. lia.
Qed.

(** A table that behaves as documented. *)
Definition map_get (m : gmap string string) (k : string) : string := default "" (m !! k).

#[local] Instance map_table : AmqpTable (gmap string string) :=
  {| get := map_get; set_field k v := <[k := v]> |}.

#[local] Instance map_table_laws : AmqpTableLaws (gmap string string).
Proof.
  split; intros; cbn; unfold map_get; [by rewrite lookup_insert_eq|by rewrite lookup_insert_ne].
Qed.

Definition demo_build : Build := mkBuild "0.1.0" "9a28ff5c0ffee" "2026-08-23" "git".

Lemma handshake_identity_witness :
  get (onProperties demo_build {["connection_name" := "planner"]} : gmap string string)
    "connection_name" = "planner | motus 0.1.0 (commit 9a28ff5, 2026-08-23, git)".
Proof.
  destruct (handshake_identity demo_build
    ({["connection_name" := "planner"]} : gmap string string)) as (_ & _ & _ & _ & Hn & _).
  destruct Hn as (own & -> & _ & Hown). rewrite Hown; [vm_compute; reflexivity|].
  vm_compute. discriminate.
Defined.
