(* ===== verification/AmqpConnection.v ===== *)
(** The blocking AMQP byte pump ([class AmqpConnection],
    [include/motus/AmqpConnection.hpp]).

    AMQP-CPP and Boost.Asio are not part of the program.  AMQP-CPP is a state
    machine that is handed bytes and requests and calls back while it works: an
    [Activity] is one such call, a finite tree of callbacks after each of which the
    library resumes on the world the callback left.  The class [AmqpLibrary] names
    every library call the connection and the transport over it make; nothing is
    assumed about what they do.

    The connection's methods run on any state that holds its members and the
    world ([ConnState]); callbacks that belong to a channel are executed by the
    owner of that channel ([on_channel]).  Logging is not modelled. *)

From Stdlib Require Import Ascii.
From S2P Require Import Prelude ITransport.
#[local] Open Scope Z_scope.

(** ** The library *)

(** Calls of [AMQP::ConnectionHandler]; a null message is [None]. *)
Inductive ConnCallback : Type :=
  | call_onData (data : string)
  | call_onReady
  | call_onError (message : option string)
  | call_onClosed.

(** Calls of the closures a channel user registered with its [Deferred]s.  A
    request is named by the call that made it and the step of that call. *)
Inductive RequestStep : Type := ExchangeStep | QueueStep | BindStep.
Inductive ChannelCallback : Type :=
  | call_onSuccess (request : Z) (step : RequestStep) (count : Z)
  | call_onFailure (request : Z) (step : RequestStep) (message : option string)
  | call_onReceived (body : string) (tag : Z) (redelivered : bool).

(** One call into the library that may call back. *)
Inductive Activity (W C A : Type) : Type :=
  | Finished (o : outcome A) (w : W)
  | Calls (c : C) (w : W) (resume : W → Activity W C A).
Arguments Finished {W C A} o w.
Arguments Calls {W C A} c w resume.

Definition AnyCallback : Type := ConnCallback + ChannelCallback.

(** What an asynchronous read ended with: the bytes, or an error -- one that
    only says the peer is gone, or another one with its text. *)
Inductive ReadResult : Type :=
  | read_bytes (bytes : string)
  | read_ended
  | read_failed (message : string).

(** Fields of an AMQP table the transport sets. *)
Inductive AmqpValue : Type := amqp_string (s : string) | amqp_int32 (z : Z).

(** [AMQP::ExchangeType], the three the transport uses. *)
Inductive ExchangeType : Type := exchange_direct | exchange_topic | exchange_fanout.

(** The flags of [declareQueue] and [declareExchange] the transport sets. *)
Record QueueFlags : Type := mkQueueFlags {
  flag_durable : bool;
  flag_exclusive : bool;
  flag_autodelete : bool;
  flag_passive : bool;
}.

Class AmqpLibrary (W : Type) : Type := {
  Address : Type;
  (** A channel of the connection. *)
  Channel : Type;
  (** Ticks of [steady_clock] per millisecond, how often it can be read before it
      moves, and a reading of it. *)
  ticks_per_ms : Z;
  readings_per_tick : positive;
  steady_now : W → Z * W;
  make_address : string → option Address;
  resolve : string → string → M W (option string * list Address);
  socket_connect : list Address → Z → M W (option string);
  socket_write : string → W → option string * W;
  socket_is_open : W → bool;
  socket_close : W → W;
  (** A read of at most 8192 bytes given that many milliseconds: [None] when it did
      not complete and was cancelled and drained. *)
  async_read : Z → W → option ReadResult * W;
  Connection_create : string → string → string → W → Activity W ConnCallback unit;
  Connection_parse : string → W → Activity W AnyCallback Z;
  Connection_close : W → Activity W ConnCallback unit;
  Connection_release : W → Activity W ConnCallback unit;
  Channel_create : W → Activity W ConnCallback Channel;
  Channel_release : Channel → W → Activity W ConnCallback unit;
  (** Channel requests: the text of an immediate failure, if the frame could not
      be sent. *)
  declareExchange : Channel → Z → string → ExchangeType → bool → W → Activity W ConnCallback (option string);
  declareQueue : Channel → Z → string → QueueFlags → list (string * AmqpValue) → W →
    Activity W ConnCallback (option string);
  bindQueue : Channel → Z → string → string → string → W → Activity W ConnCallback (option string);
  purgeQueue : Channel → Z → string → W → Activity W ConnCallback (option string);
  setQos : Channel → Z → W → Activity W ConnCallback unit;
  consume : Channel → Z → string → W → Activity W ConnCallback (option string);
  channel_publish : Channel → string → string → string → bool → W → Activity W ConnCallback bool;
  channel_ack : Channel → Z → W → Activity W ConnCallback unit;
  channel_reject : Channel → Z → bool → W → Activity W ConnCallback unit;
}.

(** ** State *)

(** The members of [AmqpConnection] besides the socket, which is in the world;
    [_connection] is whether the [AMQP::Connection] exists. *)
Record AmqpConnection : Type := mkAmqpConnection {
  _host : string;
  _port : Z;
  _user : string;
  _password : string;
  _vhost : string;
  _inBuffer : string;
  _connection : bool;
  _ready : bool;
  _closed : bool;
  _error : string;
  _bytesSent : Z;
  _bytesReceived : Z;
}.

(** [AmqpConnection(host, port, user, password, vhost)] *)
Definition new_AmqpConnection (host : string) (port : Z) (user password vhost : string) :
    AmqpConnection :=
  mkAmqpConnection host port user password vhost "" false false false "" 0 0.

(** Assignments to the members. *)
Definition set_inBuffer (b : string) (c : AmqpConnection) : AmqpConnection :=
  mkAmqpConnection (_host c) (_port c) (_user c) (_password c) (_vhost c) b (_connection c)
    (_ready c) (_closed c) (_error c) (_bytesSent c) (_bytesReceived c).
Definition set_connection (b : bool) (c : AmqpConnection) : AmqpConnection :=
  mkAmqpConnection (_host c) (_port c) (_user c) (_password c) (_vhost c) (_inBuffer c) b
    (_ready c) (_closed c) (_error c) (_bytesSent c) (_bytesReceived c).
Definition set_ready (b : bool) (c : AmqpConnection) : AmqpConnection :=
  mkAmqpConnection (_host c) (_port c) (_user c) (_password c) (_vhost c) (_inBuffer c)
    (_connection c) b (_closed c) (_error c) (_bytesSent c) (_bytesReceived c).
Definition set_closed (b : bool) (c : AmqpConnection) : AmqpConnection :=
  mkAmqpConnection (_host c) (_port c) (_user c) (_password c) (_vhost c) (_inBuffer c)
    (_connection c) (_ready c) b (_error c) (_bytesSent c) (_bytesReceived c).
Definition set_error (e : string) (c : AmqpConnection) : AmqpConnection :=
  mkAmqpConnection (_host c) (_port c) (_user c) (_password c) (_vhost c) (_inBuffer c)
    (_connection c) (_ready c) (_closed c) e (_bytesSent c) (_bytesReceived c).
Definition add_sent (n : Z) (c : AmqpConnection) : AmqpConnection :=
  mkAmqpConnection (_host c) (_port c) (_user c) (_password c) (_vhost c) (_inBuffer c)
    (_connection c) (_ready c) (_closed c) (_error c) (u64 (_bytesSent c + n)) (_bytesReceived c).
Definition add_received (n : Z) (c : AmqpConnection) : AmqpConnection :=
  mkAmqpConnection (_host c) (_port c) (_user c) (_password c) (_vhost c) (_inBuffer c)
    (_connection c) (_ready c) (_closed c) (_error c) (_bytesSent c) (u64 (_bytesReceived c + n)).

(** [AmqpConnection::ready], [closed]: usable right now, over for any reason. *)
Definition ready (c : AmqpConnection) : bool := _ready c && negb (_closed c).
Definition closed (c : AmqpConnection) : bool := _closed c.

(** A state that contains one connection's members and the world. *)
Class ConnState (W X : Type) : Type := {
  get_world : X → W;
  set_world : W → X → X;
  get_conn : X → AmqpConnection;
  set_conn : AmqpConnection → X → X;
  get_set_world w x : get_world (set_world w x) = w;
  get_set_conn c x : get_conn (set_conn c x) = c;
  get_conn_world w x : get_conn (set_world w x) = get_conn x;
  get_world_conn c x : get_world (set_conn c x) = get_world x;
}.

Section connection.
Context {W : Type} `{!AmqpLibrary W} {X : Type} `{!ConnState W X}.

Definition modify_conn (f : AmqpConnection → AmqpConnection) : M X unit :=
  modify (λ x, set_conn (f (get_conn x)) x).
Definition get_member {A} (f : AmqpConnection → A) : M X A := gets (λ x, f (get_conn x)).

(** A library call that cannot call back. *)
Definition on_world {A} (m : M W A) : M X A := λ x,
  let '(o, w) := m (get_world x) in (o, set_world w x).
Definition on_pure {A} (f : W → A * W) : M X A := on_world (λ w, let '(a, w) := f w in (Ret a, w)).

(** ** The handler *)

(** [AmqpConnection::onData] *)
Definition onData (data : string) : M X unit :=
  _ ← modify_conn (add_sent (size_of data));
  ec ← on_pure (socket_write data);
  match ec with
  | None => mret tt
  | Some message =>
      alreadyDown ← get_member _closed;
      _ ← modify_conn (set_closed true);
      if (alreadyDown : bool) then mret tt
      else throw (runtime_error ("socket write failed: " +:+ message))
  end.

(** [AmqpConnection::onReady], [onError], [onClosed] *)
Definition onReady : M X unit := modify_conn (set_ready true).
Definition onError (message : option string) : M X unit :=
  modify_conn (set_error (default "unknown protocol error" message)).
Definition onClosed : M X unit := modify_conn (set_closed true).

Definition on_conn (c : ConnCallback) : M X unit :=
  match c with
  | call_onData data => onData data
  | call_onReady => onReady
  | call_onError message => onError message
  | call_onClosed => onClosed
  end.

(** Run a library call, executing its callbacks as they come; an exception from
    a callback leaves through the library. *)
Fixpoint perform {C A} (on : C → M X unit) (a : Activity W C A) (x : X) : outcome A * X :=
  match a with
  | Finished o w => (o, set_world w x)
  | Calls c w resume =>
      match on c (set_world w x) with
      | (Ret _, x) => perform on (resume (get_world x)) x
      | (Throw e, x) => (Throw e, x)
      | (Undefined, x) => (Undefined, x)
      end
  end.

(** A library call whose callbacks are all for the connection. *)
Definition call {A} (f : W → Activity W ConnCallback A) : M X A := λ x,
  perform on_conn (f (get_world x)) x.

(** The same from a destructor, which is [noexcept]: an exception terminates the
    program. *)
Definition call_noexcept {A} (f : W → Activity W ConnCallback A) : M X A :=
  try_catch (call f) (λ _, undefined).

(** ** The pump *)

(** [AmqpConnection::pumpOnce], the channel owner's closures being
    [on_channel]. *)
Definition on_any (on_channel : ChannelCallback → M X unit) (c : AnyCallback) : M X unit :=
  match c with inl c => on_conn c | inr c => on_channel c end.

(** [_connection->parse(...)]: dereferencing an empty pointer is undefined. *)
Definition parse (on_channel : ChannelCallback → M X unit) : M X Z := λ x,
  if _connection (get_conn x) then
    perform (on_any on_channel) (Connection_parse (_inBuffer (get_conn x)) (get_world x)) x
  else (Undefined, x).

Definition pumpOnce (on_channel : ChannelCallback → M X unit) (timeout : Z) : M X bool :=
  completed ← on_pure (async_read timeout);
  match completed with
  | None => mret false
  | Some read_ended => _ ← modify_conn (set_closed true); mret false
  | Some (read_failed message) =>
      _ ← modify_conn (set_closed true);
      throw (runtime_error ("socket read failed: " +:+ message))
  | Some (read_bytes bytes) =>
      _ ← modify_conn (add_received (size_of bytes));
      _ ← modify_conn (λ c, set_inBuffer (_inBuffer c +:+ bytes) c);
      consumed ← parse on_channel;
      buffered ← get_member _inBuffer;
      if bool_decide (consumed > size_of buffered) then undefined
      else
        _ ← modify_conn (set_inBuffer (sdrop (Z.to_nat consumed) buffered));
        mret true
  end.

(** The [while] loop of [AmqpConnection::pumpUntil]; the predicates of all
    callers look at the state. *)
Fixpoint pump_until (on_channel : ChannelCallback → M X unit) (predicate : X → bool)
    (fuel : nat) (deadline : Z) : M X unit :=
  match fuel with
  | O => undefined
  | S fuel =>
      done ← gets predicate;
      if (done : bool) then mret tt
      else
        n ← on_pure steady_now;
        if bool_decide (n >= deadline) then mret tt
        else
          more ← pumpOnce on_channel (Z.quot (deadline - n) ticks_per_ms);
          if (more : bool) then pump_until on_channel predicate fuel deadline else mret tt
  end.

(** One iteration per reading of the clock before the deadline, and the one that sees
    it ([pump_until_enough]). *)
Definition pump_fuel (timeout : Z) : nat :=
  S (Z.to_nat (Zpos readings_per_tick * (timeout * ticks_per_ms))).

(** [AmqpConnection::pumpUntil] *)
Definition pumpUntil (on_channel : ChannelCallback → M X unit) (predicate : X → bool)
    (timeout : Z) : M X bool :=
  start ← on_pure steady_now;
  _ ← pump_until on_channel predicate (pump_fuel timeout) (start + timeout * ticks_per_ms);
  gets predicate.

(** ** Opening and closing *)

(** [AmqpConnection::connect] *)
Definition connect (on_channel : ChannelCallback → M X unit) (handshakeTimeout : Z) : M X unit :=
  c ← get_member id;
  ec ← match make_address (_host c) with
       | Some literal => on_world (socket_connect [literal] (_port c))
       | None =>
           '(ec, endpoints) ← on_world (resolve (_host c) (pretty (_port c)));
           match ec with
           | Some message =>
               throw (runtime_error ("cannot resolve '" +:+ _host c +:+ "': " +:+ message +:+
                 " (pass an IP literal such as 127.0.0.1 instead -- restrictive DNS policy" +:+
                 " can break even localhost lookups)"))
           | None => on_world (socket_connect endpoints (_port c))
           end
       end;
  match ec with
  | Some message =>
      throw (runtime_error ("cannot reach broker at " +:+ _host c +:+ ":" +:+ pretty (_port c) +:+
        " -- " +:+ message +:+ " (is rabbitmq-server.bat running?)"))
  | None =>
      _ ← call (Connection_create (_user c) (_password c) (_vhost c));
      _ ← modify_conn (set_connection true);
      settled ← pumpUntil on_channel
        (λ x, _ready (get_conn x) || negb (is_empty (_error (get_conn x))) || _closed (get_conn x))
        handshakeTimeout;
      c ← get_member id;
      if negb (is_empty (_error c)) then
        throw (runtime_error ("AMQP handshake rejected: " +:+ _error c +:+
          " (check credentials and vhost '" +:+ _vhost c +:+ "')"))
      else if _closed c then
        throw (runtime_error "broker closed the connection during handshake")
      else if negb (settled : bool) || negb (_ready c) then
        throw (runtime_error ("timed out waiting for AMQP handshake from " +:+ _host c))
      else mret tt
  end.

(** [AmqpConnection::connection]: the library's object, which the calls on the world
    stand for. *)
Definition connection : M X unit :=
  c ← get_member id;
  throw_if (negb (_connection c)) (logic_error "connection() called before connect()").

(** [if (_socket.is_open()) { shutdown; close }], also what the socket's own
    destructor does. *)
Definition shut_socket : M X unit :=
  w ← gets get_world;
  if socket_is_open w then modify (λ x, set_world (socket_close (get_world x)) x) else mret tt.

(** [AmqpConnection::close] *)
Definition close (on_channel : ChannelCallback → M X unit) (timeout : Z) : M X unit :=
  c ← get_member id;
  _ ← (if _connection c && negb (_closed c) then
         _ ← call Connection_close;
         _ ← pumpUntil on_channel (λ x, _closed (get_conn x)) timeout;
         mret tt
       else mret tt);
  shut_socket.

(** [~AmqpConnection]: [close] with its exceptions swallowed, then the members. *)
Definition destroy (on_channel : ChannelCallback → M X unit) : M X unit :=
  _ ← try_catch (close on_channel 250) (λ _, mret tt);
  c ← get_member id;
  _ ← (if _connection c then call_noexcept Connection_release else mret tt);
  shut_socket.

End connection.

(** ** Latches

    [evolves c c']: the members may have moved from [c] to [c'] through the
    connection's own code -- credentials fixed, the three flags only ever set. *)
Definition evolves (c c' : AmqpConnection) : Prop :=
  (_host c', _port c', _user c', _password c', _vhost c') =
    (_host c, _port c, _user c, _password c, _vhost c) ∧
  (_connection c = true → _connection c' = true) ∧
  (_ready c = true → _ready c' = true) ∧
  (_closed c = true → _closed c' = true).

#[export] Instance evolves_preorder : PreOrder evolves.
Proof.
  split; [by intros c; split_and!|].
  intros c1 c2 c3 (E1 & ? & ? & ?) (E2 & ? & ? & ?). unfold evolves. rewrite E2, E1. tauto.
Qed.

(** What the callbacks of a channel must leave alone is a parameter [I]; it has to
    survive the library's own steps and everything the connection does. *)
Section frame.
Context {W : Type} `{!AmqpLibrary W} {X : Type} `{!ConnState W X}.
Context (I : X → Prop).
Context (I_world : ∀ w x, I x → I (set_world w x)).
Context (I_conn : ∀ c x, I x → evolves (get_conn x) c → I (set_conn c x)).

Lemma frame_modify f : (∀ c, evolves c (f c)) → preserves I (modify_conn f).
Proof. intros Hf. apply preserves_modify. auto. Qed.

Lemma frame_member {A} (f : AmqpConnection → A) : preserves I (get_member f).
Proof. apply preserves_gets. Qed.

Lemma frame_on_world {A} (m : M W A) : preserves I (on_world m).
Proof. intros x Hx. unfold on_world. destruct (m (get_world x)) as [o w]. by apply I_world. Qed.

Lemma frame_on_pure {A} (f : W → A * W) : preserves I (on_pure f).
Proof. apply frame_on_world. Qed.

Lemma evolves_connection c : evolves c (set_connection true c).
Proof. by split_and!. Qed.
Lemma evolves_ready c : evolves c (set_ready true c).
Proof. by split_and!. Qed.
Lemma evolves_closed c : evolves c (set_closed true c).
Proof. by split_and!. Qed.
Lemma evolves_error e c : evolves c (set_error e c).
Proof. by split_and!. Qed.
Lemma evolves_sent n c : evolves c (add_sent n c).
Proof. by split_and!. Qed.
Lemma evolves_received n c : evolves c (add_received n c).
Proof. by split_and!. Qed.
Lemma evolves_inBuffer b c : evolves c (set_inBuffer b c).
Proof. by split_and!. Qed.
#[local] Hint Resolve frame_modify frame_member frame_on_world frame_on_pure evolves_connection
  evolves_ready evolves_closed evolves_error evolves_sent evolves_received
  evolves_inBuffer : motus.

Lemma frame_on_conn c : preserves I (on_conn c).
Proof.
  destruct c; simpl; unfold onData, onReady, onError, onClosed; frames.
Qed.

Lemma frame_perform {C A} (on : C → M X unit) (a : Activity W C A) :
  (∀ c, preserves I (on c)) → preserves I (perform on a).
Proof.
  intros Hon. induction a as [o w|c w resume IH]; intros x Hx; simpl; [by apply I_world|].
  specialize (Hon c (set_world w x) (I_world w x Hx)).
  destruct (on c (set_world w x)) as [[[]|e|] x']; simpl in *; [by apply IH|done..].
Qed.

Lemma frame_call {A} (f : W → Activity W ConnCallback A) : preserves I (call f).
Proof. intros x Hx. apply frame_perform; [apply frame_on_conn|done]. Qed.

Lemma frame_call_noexcept {A} (f : W → Activity W ConnCallback A) : preserves I (call_noexcept f).
Proof. apply preserves_try_catch; [apply frame_call|intros; apply preserves_undefined]. Qed.

Section pump.
Context (on_channel : ChannelCallback → M X unit).
Context (I_channel : ∀ c, preserves I (on_channel c)).

Lemma frame_pumpOnce timeout : preserves I (pumpOnce on_channel timeout).
Proof.
  assert (preserves I (parse on_channel)).
  { intros x Hx. unfold parse. case_match; [|done]. apply frame_perform; [|done].
    intros [c|c]; [apply frame_on_conn|apply I_channel]. }
  unfold pumpOnce. frames.
Qed.
#[local] Hint Resolve frame_pumpOnce frame_call frame_call_noexcept : motus.

Lemma frame_pump_until predicate fuel deadline :
  preserves I (pump_until on_channel predicate fuel deadline).
Proof. induction fuel; simpl; frames. Qed.
#[local] Hint Resolve frame_pump_until : motus.

Lemma frame_pumpUntil predicate timeout : preserves I (pumpUntil on_channel predicate timeout).
Proof. unfold pumpUntil. frames. Qed.
#[local] Hint Resolve frame_pumpUntil : motus.

Lemma frame_shut : preserves I shut_socket.
Proof. unfold shut_socket. frames. Qed.
#[local] Hint Resolve frame_shut : motus.

Lemma frame_connect timeout : preserves I (connect on_channel timeout).
Proof. unfold connect. frames. Qed.

Lemma frame_close timeout : preserves I (close on_channel timeout).
Proof. unfold close. frames. Qed.
#[local] Hint Resolve frame_close : motus.

Lemma frame_destroy : preserves I (destroy on_channel).
Proof. unfold destroy. frames. Qed.
End pump.

(** The pump, for a statement the callbacks of the channel keep when they return. *)
Section returning.
Context (on_channel : ChannelCallback → M X unit).
Context (I_channel : ∀ c, returning I (on_channel c)).

Lemma returning_perform {C A} (on : C → M X unit) (a : Activity W C A) :
  (∀ c, returning I (on c)) → returning I (perform on a).
Proof.
  intros Hon. induction a as [o w|c w resume IH]; intros x r x' Hx; simpl.
  - intros [= _ <-]. by apply I_world.
  - specialize (Hon c (set_world w x)).
    destruct (on c (set_world w x)) as [[[]|e|] x1]; [|done..].
    apply IH. by eapply Hon; [apply I_world|].
Qed.

Lemma returning_pumpOnce timeout : returning I (pumpOnce on_channel timeout).
Proof.
  assert (Hparse : returning I (parse on_channel)).
  { intros x r x'. unfold parse. case_match; [|done]. apply returning_perform.
    intros [c|c]; [|apply I_channel]. apply preserves_returning, frame_on_conn. }
  unfold pumpOnce. apply returning_bind; [apply preserves_returning, frame_on_pure|].
  intros [[bytes| |message]|]; [|apply preserves_returning; frames..].
  apply returning_bind; [apply preserves_returning; frames|]. intros [].
  apply returning_bind; [apply preserves_returning; frames|]. intros [].
  apply returning_bind; [apply Hparse|]. intros n. apply preserves_returning. frames.
Qed.

Lemma returning_pump_until predicate fuel deadline :
  returning I (pump_until on_channel predicate fuel deadline).
Proof.
  induction fuel as [|fuel IH]; simpl; [by apply preserves_returning, preserves_undefined|].
  apply returning_bind; [apply preserves_returning; frames|]. intros [];
    [apply preserves_returning; frames|].
  apply returning_bind; [apply preserves_returning; frames|]. intros n.
  case_match; [apply preserves_returning; frames|].
  apply returning_bind; [apply returning_pumpOnce|]. intros [];
    [apply IH|apply preserves_returning; frames].
Qed.

Lemma returning_pumpUntil predicate timeout : returning I (pumpUntil on_channel predicate timeout).
Proof.
  unfold pumpUntil. apply returning_bind; [apply preserves_returning; frames|]. intros start.
  apply returning_bind; [apply returning_pump_until|]. intros []. apply preserves_returning. frames.
Qed.
End returning.
End frame.

(** ** Properties *)

(** A library call that itself always returns a value, whatever the callbacks do
    to the world. *)
Fixpoint soft {W C A} (a : Activity W C A) : Prop :=
  match a with
  | Finished o _ => ∃ v, o = Ret v
  | Calls _ _ resume => ∀ w, soft (resume w)
  end.

Section properties.
Context {W : Type} `{!AmqpLibrary W} {X : Type} `{!ConnState W X}.
Context (on_channel : ChannelCallback → M X unit).

(** The end of a connection is final: once [closed], no operation of the
    connection clears the latch, so [ready] stays [false] for good -- a health check
    cannot come back to life on a dead socket. *)
Theorem closed_is_final x timeout predicate :
  (∀ c x, closed (get_conn x) = true → closed (get_conn (on_channel c x).2) = true) →
  closed (get_conn x) = true →
  let over {A} (m : M X A) := closed (get_conn (m x).2) = true ∧ ready (get_conn (m x).2) = false in
  over (connect on_channel timeout) ∧ over (pumpUntil on_channel predicate timeout) ∧
  over (close on_channel timeout) ∧ over (destroy on_channel).
Proof.
  intros Hch Hx over.
  assert (Hover : ∀ A (m : M X A), preserves (λ x, closed (get_conn x) = true) m → over A m).
  { intros A m Hm. specialize (Hm x Hx). split; [done|]. unfold ready.
    unfold closed in Hm. rewrite Hm. apply andb_false_r. }
  assert (Hw : ∀ w x, closed (get_conn x) = true → closed (get_conn (set_world w x)) = true)
    by (intros; by rewrite get_conn_world).
  assert (Hc : ∀ c x, closed (get_conn x) = true → evolves (get_conn x) c →
    closed (get_conn (set_conn c x)) = true).
  { intros c x0 ? (_ & _ & _ & Hl). rewrite get_set_conn. by apply Hl. }
  split_and!; apply Hover;
    [by apply frame_connect|by apply frame_pumpUntil|by apply frame_close|by apply frame_destroy].
Qed.

Lemma on_conn_closed c x :
  closed (get_conn x) = true →
  ∃ x', on_conn c x = (Ret tt, x') ∧ closed (get_conn x') = true.
Proof.
  unfold closed. intros Hx.
  destruct c; simpl; unfold onData, onReady, onError, onClosed, modify_conn, on_pure, on_world,
    get_member; run.
  2-4: eexists; split; [done|]; by rewrite get_set_conn.
  destruct (socket_write _ _) as [[message|] w]; cbn.
  - rewrite get_conn_world, get_set_conn. cbn. rewrite Hx. eexists. split; [done|].
    by rewrite get_set_conn.
  - eexists. split; [done|]. by rewrite get_conn_world, get_set_conn.
Qed.

Lemma perform_closed {A} (a : Activity W ConnCallback A) x :
  soft a → closed (get_conn x) = true →
  ∃ v x', perform on_conn a x = (Ret v, x') ∧ closed (get_conn x') = true.
Proof.
  revert x. induction a as [o w|c w resume IH]; intros x Hsoft Hx; simpl in *.
  - destruct Hsoft as [v ->]. exists v. eexists. split; [done|]. by rewrite get_conn_world.
  - destruct (on_conn_closed c (set_world w x)) as (x1 & -> & Hx1); [by rewrite get_conn_world|].
    by apply IH.
Qed.

Lemma call_noexcept_closed {A} (f : W → Activity W ConnCallback A) x :
  closed (get_conn x) = true → (∀ w, soft (f w)) →
  ∃ v x', call_noexcept f x = (Ret v, x') ∧ closed (get_conn x') = true.
Proof.
  intros Hx Hsoft. unfold call_noexcept, try_catch, call.
  destruct (perform_closed (f (get_world x)) x) as (v & x' & -> & Hx'); [done..|]. by exists v, x'.
Qed.

Lemma call_live_failure {A} (f : W → Activity W ConnCallback A) x data w resume message w' :
  closed (get_conn x) = false → f (get_world x) = Calls (call_onData data) w resume →
  socket_write data w = (Some message, w') →
  ∃ x', call f x = (Throw (runtime_error ("socket write failed: " +:+ message)), x') ∧
    closed (get_conn x') = true.
Proof.
  intros Hx Hf Hw. unfold call. rewrite Hf. simpl.
  unfold onData, modify_conn, on_pure, on_world, get_member. run.
  rewrite get_world_conn, get_set_world, Hw. cbn.
  rewrite get_conn_world, get_set_conn. cbn. rewrite get_conn_world.
  unfold closed in *. rewrite Hx. eexists. split; [done|]. by rewrite get_set_conn.
Qed.

(** When a failed write escapes.  On a connection already known to be over, a
    library call made by a destructor cannot throw, however many frames it tries to
    send: teardown is silent and the program survives.  On one still believed live,
    the first failed write records the end and throws -- which is fatal if the call
    came from a destructor. *)
Theorem write_failure_escalation {A} (f : W → Activity W ConnCallback A) x :
  (closed (get_conn x) = true → (∀ w, soft (f w)) →
   ∃ v x', call_noexcept f x = (Ret v, x') ∧ closed (get_conn x') = true) ∧
  (∀ data w resume message w', closed (get_conn x) = false →
   f (get_world x) = Calls (call_onData data) w resume →
   socket_write data w = (Some message, w') →
   ∃ x', call f x = (Throw (runtime_error ("socket write failed: " +:+ message)), x') ∧
     closed (get_conn x') = true ∧ call_noexcept f x = (Undefined, x')).
Proof.
  split; [apply call_noexcept_closed|]. intros data w resume message w' Hx Hf Hw.
  destruct (call_live_failure f x data w resume message w' Hx Hf Hw) as (x' & Hcall & Hx').
  exists x'. split_and!; [done..|]. unfold call_noexcept, try_catch. by rewrite Hcall.
Qed.

(** A connection handed back by [connect] is usable: whatever the library, the
    broker and the network do, a normal return means the handshake completed, no
    protocol error was reported and nothing has closed it. *)
Theorem connect_ready timeout x x' :
  connect on_channel timeout x = (Ret tt, x') →
  ready (get_conn x') = true ∧ _error (get_conn x') = "".
Proof.
  unfold connect. intros (c & x1 & _ & H)%M_bind_Ret.
  apply M_bind_Ret in H as (ec & x2 & _ & H). destruct ec; [done|].
  apply M_bind_Ret in H as ([] & x3 & _ & H). apply M_bind_Ret in H as ([] & x4 & _ & H).
  apply M_bind_Ret in H as (settled & x5 & _ & H). revert H.
  unfold get_member, ready, id. run. destruct (is_empty _) eqn:Hempty; [|done]. cbn.
  apply is_empty_true in Hempty.
  destruct (_closed (get_conn x5)) eqn:Hclosed; [done|]. destruct settled; [|done]. cbn.
  destruct (_ready (get_conn x5)) eqn:Hready; [|done]. cbn. intros [= <-].
  by rewrite Hclosed, Hready, Hempty.
Qed.

(** *** The byte stream *)

(** The state in which the library is handed the buffer, after a read. *)
Definition handed (bytes : string) (w : W) (x : X) : X :=
  let x := set_conn (add_received (size_of bytes) (get_conn (set_world w x))) (set_world w x) in
  set_conn (set_inBuffer (_inBuffer (get_conn x) +:+ bytes) (get_conn x)) x.

(** A run of the pump: the bytes the socket produced and the bytes the library
    consumed; in between anything may happen that leaves the buffer alone. *)
Inductive pumped : X → string → string → X → Prop :=
  | pumped_end x : pumped x "" "" x
  | pumped_else x x1 fed eaten x2 :
      _inBuffer (get_conn x1) = _inBuffer (get_conn x) →
      pumped x1 fed eaten x2 → pumped x fed eaten x2
  | pumped_read x timeout bytes w n x0 x1 fed eaten x2 :
      async_read timeout (get_world x) = (Some (read_bytes bytes), w) →
      parse on_channel (handed bytes w x) = (Ret n, x0) →
      pumpOnce on_channel timeout x = (Ret true, x1) →
      pumped x1 fed eaten x2 →
      pumped x (bytes +:+ fed)
        (stake (Z.to_nat n) (_inBuffer (get_conn (handed bytes w x))) +:+ eaten) x2.

Lemma on_conn_keeps_buffer c x : _inBuffer (get_conn (on_conn c x).2) = _inBuffer (get_conn x).
Proof.
  destruct c; simpl; unfold onData, onReady, onError, onClosed, modify_conn, on_pure, on_world,
    get_member; run; try by rewrite get_set_conn.
  destruct (socket_write _ _) as [[message|] w]; cbn;
    rewrite ?get_conn_world, ?get_set_conn; cbn; rewrite ?get_conn_world, ?get_set_conn;
    [|done].
  case_match; cbn; by rewrite get_set_conn.
Qed.

Lemma perform_keeps_buffer {C A} (on : C → M X unit) (a : Activity W C A) x :
  (∀ c x, _inBuffer (get_conn (on c x).2) = _inBuffer (get_conn x)) →
  _inBuffer (get_conn (perform on a x).2) = _inBuffer (get_conn x).
Proof.
  intros Hon. apply (frame_perform (λ y, _inBuffer (get_conn y) = _inBuffer (get_conn x))).
  - intros w z. by rewrite get_conn_world.
  - intros c z Hz. by rewrite Hon.
  - done.
Qed.

Lemma parse_keeps_buffer x :
  (∀ c x, _inBuffer (get_conn (on_channel c x).2) = _inBuffer (get_conn x)) →
  _inBuffer (get_conn (parse on_channel x).2) = _inBuffer (get_conn x).
Proof.
  intros Hch. unfold parse. case_match; [|done]. apply perform_keeps_buffer.
  intros [c|c] y; [apply on_conn_keeps_buffer|apply Hch].
Qed.

(** C31. No byte is lost, repeated or reordered between the socket and the parser: over
    any run of the pump, what the library consumed followed by what is still
    buffered is what was buffered before followed by everything the socket
    produced. *)
Theorem stream_preserved x fed eaten x' :
  (∀ c x, _inBuffer (get_conn (on_channel c x).2) = _inBuffer (get_conn x)) →
  pumped x fed eaten x' →
  eaten +:+ _inBuffer (get_conn x') = _inBuffer (get_conn x) +:+ fed.
Proof.
  intros Hch. induction 1 as [x|x x1 fed eaten x2 Hb _ IH|x timeout bytes w n x0 x1 fed eaten x2
    Hread Hparse Hpump _ IH]; [by rewrite string_app_nil_r|by rewrite IH, Hb|].
  pose proof (parse_keeps_buffer (handed bytes w x) Hch) as Hkeep. rewrite Hparse in Hkeep.
  cbn in Hkeep. rewrite string_app_assoc, IH.
  assert (Hx1 : _inBuffer (get_conn x1) = sdrop (Z.to_nat n) (_inBuffer (get_conn x0))).
  { revert Hpump. unfold pumpOnce, on_pure, on_world, modify_conn, get_member. run.
    rewrite Hread. cbn. unfold handed in Hparse. rewrite Hparse.
    case_bool_decide; [done|]. intros [= <-]. by rewrite get_set_conn. }
  rewrite Hx1, Hkeep, <- string_app_assoc, stake_sdrop. unfold handed.
  rewrite get_set_conn. cbn. by rewrite get_set_conn, get_conn_world, string_app_assoc.
Qed.

(** *** Every wait is bounded *)

(** A reading [n] of the clock that begins at one time and ends at a later one, both
    counted in possible readings: it is neither older than the one nor newer than the
    other, so readings never decrease, and at most [readings_per_tick] in a row are
    the same. *)
Definition reads_between (before n after : Z) : Prop :=
  before < Zpos readings_per_tick * (n + 1) ∧ Zpos readings_per_tick * n ≤ after ∧ before < after.

Section clock.
(** How far time has got, counted in possible readings of the clock. *)
Context (time : W → Z).

(** A library call during which the clock does not run backwards. *)
Fixpoint forward {C A} (t : Z) (a : Activity W C A) : Prop :=
  match a with
  | Finished _ w => t ≤ time w
  | Calls _ w resume => t ≤ time w ∧ ∀ w', time w ≤ time w' → forward (time w') (resume w')
  end.

Context (clock_advances : ∀ w, reads_between (time w) (steady_now w).1 (time (steady_now w).2)).
Context (read_forward : ∀ timeout w, time w ≤ time (async_read timeout w).2).
Context (write_forward : ∀ data w, time w ≤ time (socket_write data w).2).
Context (parse_forward : ∀ b w, forward (time w) (Connection_parse b w)).
Context (channel_forward : ∀ c x, time (get_world x) ≤ time (get_world (on_channel c x).2)).

Lemma on_conn_forward c x : time (get_world x) ≤ time (get_world (on_conn c x).2).
Proof.
  destruct c; simpl; unfold onData, onReady, onError, onClosed, modify_conn, on_pure, on_world,
    get_member; run; rewrite ?get_world_conn; [|done..].
  pose proof (write_forward data (get_world x)).
  destruct (socket_write _ _) as [[message|] w]; cbn; [|by rewrite get_set_world].
  case_match; cbn; by rewrite get_world_conn, get_set_world.
Qed.

Lemma perform_forward {C A} (on : C → M X unit) (a : Activity W C A) x :
  (∀ c x, time (get_world x) ≤ time (get_world (on c x).2)) →
  forward (time (get_world x)) a → time (get_world x) ≤ time (get_world (perform on a x).2).
Proof.
  intros Hon. revert x. induction a as [o w|c w resume IH]; intros x; simpl.
  { by rewrite get_set_world. }
  intros [Hw Hr]. specialize (Hon c (set_world w x)). rewrite get_set_world in Hon.
  destruct (on c (set_world w x)) as [[[]|e|] x']; simpl in *; [|lia..].
  specialize (IH (get_world x') x' (Hr _ Hon)). lia.
Qed.

Lemma pumpOnce_forward timeout x :
  time (get_world x) ≤ time (get_world (pumpOnce on_channel timeout x).2).
Proof.
  unfold pumpOnce, on_pure, on_world, modify_conn, get_member. run.
  pose proof (read_forward timeout (get_world x)) as Hr.
  destruct (async_read _ _) as [[[bytes| |message]|] w]; cbn in *;
    rewrite ?get_world_conn, ?get_set_world; [|done..].
  set (x1 := set_conn _ _). assert (Hx1 : get_world x1 = w).
  { unfold x1. by rewrite !get_world_conn, get_set_world. }
  assert (Hp : time (get_world x1) ≤ time (get_world (parse on_channel x1).2)).
  { unfold parse. case_match; [|done]. apply perform_forward; [|apply parse_forward].
    intros [c|c] y; [apply on_conn_forward|apply channel_forward]. }
  rewrite Hx1 in Hp. clearbody x1.
  destruct (parse on_channel x1) as [[n|e|] x2]; cbn in *; [|lia..].
  case_bool_decide; cbn; rewrite ?get_world_conn; lia.
Qed.

(** The states the loop goes through: a reading of the clock, a round of the pump that
    read something. *)
Inductive rounds : X → X → Prop :=
  | rounds_none x : rounds x x
  | rounds_clock x x' :
      rounds (set_world (steady_now (get_world x)).2 x) x' → rounds x x'
  | rounds_pump remaining x x1 x' :
      pumpOnce on_channel remaining x = (Ret true, x1) → rounds x1 x' → rounds x x'.

(** Running out of fuel is not among the things that can happen. *)
Lemma pump_until_enough predicate fuel deadline x x' :
  Z.max 0 (Zpos readings_per_tick * deadline - time (get_world x)) < Z.of_nat fuel →
  pump_until on_channel predicate fuel deadline x = (Undefined, x') →
  ∃ remaining x1, rounds x x1 ∧ pumpOnce on_channel remaining x1 = (Undefined, x').
Proof.
  revert x. induction fuel as [|fuel IH]; intros x Hfuel; [lia|]. simpl.
  run. destruct (predicate x); [done|]. unfold on_pure, on_world.
  pose proof (clock_advances (get_world x)) as (Hlo & Hhi & Hlt).
  pose proof (rounds_clock x) as Hclock.
  destruct (steady_now (get_world x)) as [n w]. cbn in *. case_bool_decide; [done|].
  set (remaining := Z.quot _ _).
  pose proof (pumpOnce_forward remaining (set_world w x)) as Hf. rewrite get_set_world in Hf.
  destruct (pumpOnce on_channel remaining (set_world w x)) as [[[]|e|] x1] eqn:Hp; cbn in *; try done.
  - intros Hl. destruct (IH x1) as (r & x2 & Hr & Hx2); [nia|done|].
    exists r, x2. split; [|done]. by eapply Hclock, rounds_pump.
  - intros [= <-]. exists remaining, (set_world w x). split; [|done]. apply Hclock, rounds_none.
Qed.

(** C32. Every wait ends.  As long as the clock does not stand still -- it never goes
    back, and moves before it was read [readings_per_tick] times more -- the loop of
    [pumpUntil] stops after at most one iteration per possible reading before the
    deadline and one more, whatever arrives and whatever the callbacks do; what it
    returns is the value of the predicate at that moment, and only an exception, or
    the undefined behaviour, of a single round of the pump itself can leave
    otherwise. *)
Theorem pumpUntil_returns predicate timeout x :
  match pumpUntil on_channel predicate timeout x with
  | (Ret b, x') => b = predicate x'
  | (Throw _, _) => True
  | (Undefined, x') =>
      ∃ remaining x1, rounds x x1 ∧ pumpOnce on_channel remaining x1 = (Undefined, x')
  end.
Proof.
  unfold pumpUntil, on_pure, on_world.
  pose proof (λ d, pump_until_enough predicate (pump_fuel timeout) d) as Henough.
  assert (Hfuel : Zpos readings_per_tick * (timeout * ticks_per_ms) < Z.of_nat (pump_fuel timeout))
    by (unfold pump_fuel; lia).
  assert (0 < Z.of_nat (pump_fuel timeout)) by (unfold pump_fuel; lia).
  set (fuel := pump_fuel timeout) in *. clearbody fuel.
  run. pose proof (clock_advances (get_world x)) as (_ & Hhi & _). pose proof (rounds_clock x) as Hclock.
  destruct (steady_now (get_world x)) as [start w]. cbn in *.
  destruct (pump_until _ _ _ _ _) as [[[]|e|] x'] eqn:Hl; cbn in *; [done|done|].
  apply Henough in Hl as (r & x1 & Hr & Hx1); [|rewrite get_set_world; lia]. eauto.
Qed.
End clock.
End properties.

(** ** The properties on a toy library *)

Module Sample.

(** A network with a scripted peer: what successive reads give, whether writes
    succeed, what was sent; what the peer says on a new connection and in answer to
    a request; the request last made and the tag last delivered. *)
Record Wire : Type := mkWire {
  wire_now : Z;
  wire_reads : list ReadResult;
  wire_up : bool;
  wire_open : bool;
  wire_sent : list string;
  wire_hello : string;
  wire_answer : string;
  wire_request : Z * RequestStep;
  wire_tag : Z;
  wire_channel : bool;
}.

Definition tick (n : Z) (w : Wire) : Wire :=
  mkWire (wire_now w + n) (wire_reads w) (wire_up w) (wire_open w) (wire_sent w) (wire_hello w)
    (wire_answer w) (wire_request w) (wire_tag w) (wire_channel w).
Definition set_reads (l : list ReadResult) (w : Wire) : Wire :=
  mkWire (wire_now w) l (wire_up w) (wire_open w) (wire_sent w) (wire_hello w)
    (wire_answer w) (wire_request w) (wire_tag w) (wire_channel w).
Definition set_up (b : bool) (w : Wire) : Wire :=
  mkWire (wire_now w) (wire_reads w) b (wire_open w) (wire_sent w) (wire_hello w)
    (wire_answer w) (wire_request w) (wire_tag w) (wire_channel w).
Definition set_open (b : bool) (w : Wire) : Wire :=
  mkWire (wire_now w) (wire_reads w) (wire_up w) b (wire_sent w) (wire_hello w)
    (wire_answer w) (wire_request w) (wire_tag w) (wire_channel w).
Definition note (s : string) (w : Wire) : Wire :=
  mkWire (wire_now w) (wire_reads w) (wire_up w) (wire_open w) (wire_sent w ++ [s]) (wire_hello w)
    (wire_answer w) (wire_request w) (wire_tag w) (wire_channel w).
Definition set_script (hello answer : string) (w : Wire) : Wire :=
  mkWire (wire_now w) (wire_reads w) (wire_up w) (wire_open w) (wire_sent w) hello
    answer (wire_request w) (wire_tag w) (wire_channel w).
Definition set_request (r : Z * RequestStep) (w : Wire) : Wire :=
  mkWire (wire_now w) (wire_reads w) (wire_up w) (wire_open w) (wire_sent w) (wire_hello w)
    (wire_answer w) r (wire_tag w) (wire_channel w).
Definition next_tag (w : Wire) : Wire :=
  mkWire (wire_now w) (wire_reads w) (wire_up w) (wire_open w) (wire_sent w) (wire_hello w)
    (wire_answer w) (wire_request w) (wire_tag w + 1) (wire_channel w).

(** A new channel counts its deliveries from one; without one there are none. *)
Definition reset_tag (w : Wire) : Wire :=
  mkWire (wire_now w) (wire_reads w) (wire_up w) (wire_open w) (wire_sent w) (wire_hello w)
    (wire_answer w) (wire_request w) 0 true.
Definition end_channel (w : Wire) : Wire :=
  mkWire (wire_now w) (wire_reads w) (wire_up w) (wire_open w) (wire_sent w) (wire_hello w)
    (wire_answer w) (wire_request w) (wire_tag w) false.

(** The peer says something. *)
Definition says (s : string) (w : Wire) : Wire :=
  if is_empty s then w else set_reads (wire_reads w ++ [read_bytes s]) w.

Definition is_channel (c : AnyCallback) : bool := match c with inl _ => false | inr _ => true end.

(** The protocol: R ready, E error, X closed, S and F the answer to the last
    request, D a delivery and M one of a message, C a request for a heartbeat reply, and [-] the first byte
    of a two-byte frame without effect.  Frames of a channel that is gone are skipped. *)
Fixpoint frames_of (s : string) (n : Z) (w : Wire) : Activity Wire AnyCallback Z :=
  match s with
  | EmptyString => Finished (Ret n) w
  | String c rest =>
      if bool_decide (c = "-"%char) then
        match rest with
        | EmptyString => Finished (Ret n) w
        | String _ rest => frames_of rest (n + 2) w
        end
      else
        let callback :=
          if bool_decide (c = "R"%char) then inl call_onReady
          else if bool_decide (c = "E"%char) then inl (call_onError (Some "denied"))
          else if bool_decide (c = "X"%char) then inl call_onClosed
          else if bool_decide (c = "S"%char) then
            inr (call_onSuccess (wire_request w).1 (wire_request w).2 3)
          else if bool_decide (c = "F"%char) then
            inr (call_onFailure (wire_request w).1 (wire_request w).2 (Some "PRECONDITION_FAILED"))
          else if bool_decide (c = "D"%char) then inr (call_onReceived "job" (wire_tag w + 1) false)
          else if bool_decide (c = "M"%char) then
            inr (call_onReceived "motus:1:job" (wire_tag w + 1) false)
          else inl (call_onData "heartbeat") in
        let w := if bool_decide (c = "D"%char) || bool_decide (c = "M"%char) then next_tag w else w in
        if is_channel callback && negb (wire_channel w) then frames_of rest (n + 1) w
        else Calls callback w (λ w, frames_of rest (n + 1) w)
  end.

(** A frame is sent; the library then does [k]. *)
Definition sends {A} (s : string) (k : Wire → Wire) (a : A) (w : Wire) :
    Activity Wire ConnCallback A :=
  Calls (call_onData s) w (λ w, Finished (Ret a) (k w)).

(** A request that the peer answers. *)
Definition asks (r : Z) (step : RequestStep) (s : string) (w : Wire) :
    Activity Wire ConnCallback (option string) :=
  sends s (λ w, says (wire_answer w) w) None (set_request (r, step) w).

Definition kind_name (t : ExchangeType) : string :=
  match t with exchange_direct => "direct" | exchange_topic => "topic" | exchange_fanout => "fanout" end.

#[export] Instance library : AmqpLibrary Wire := {|
  Address := unit;
  Channel := unit;
  ticks_per_ms := 1;
  readings_per_tick := 1;
  steady_now w := (wire_now w, tick 1 w);
  make_address _ := Some tt;
  resolve _ _ := mret (None, [tt]);
  socket_connect _ _ w :=
    if wire_up w then (Ret None, set_open true w) else (Ret (Some "connection refused"), w);
  socket_write s w := if wire_up w then (None, note s w) else (Some "broken pipe", w);
  socket_is_open := wire_open;
  socket_close := set_open false;
  async_read timeout w :=
    if wire_open w then
      match wire_reads w with
      | r :: rest => (Some r, tick 1 (set_reads rest w))
      | [] => if wire_up w then (None, tick (Z.max 0 timeout) w) else (Some read_ended, tick 1 w)
      end
    else (Some read_ended, tick 1 w);
  Connection_create _ _ _ := sends "AMQP" (λ w, says (wire_hello w) w) tt;
  Connection_parse s w := frames_of s 0 w;
  Connection_close := sends "connection.close" (λ w, set_reads [read_bytes "X"] w) tt;
  Connection_release w := Finished (Ret tt) w;
  Channel_create := sends "channel.open" reset_tag tt;
  Channel_release _ := sends "channel.close" end_channel tt;
  declareExchange _ r name kind _ := asks r ExchangeStep ("exchange " +:+ kind_name kind +:+ " " +:+ name);
  declareQueue _ r name flags arguments :=
    asks r QueueStep ("queue " +:+ name +:+ (if flag_passive flags then " passive" else ""));
  bindQueue _ r exchange queue key := asks r BindStep ("bind " +:+ exchange +:+ " " +:+ queue +:+ " " +:+ key);
  purgeQueue _ r name := asks r QueueStep ("purge " +:+ name);
  setQos _ n := sends ("qos " +:+ pretty n) id tt;
  consume _ r name := asks r QueueStep ("consume " +:+ name);
  channel_publish _ exchange key body persistent :=
    sends ("publish " +:+ exchange +:+ "/" +:+ key +:+ (if persistent then " persistent " else " ") +:+ body) id true;
  channel_ack _ tag := sends ("ack " +:+ pretty tag) id tt;
  channel_reject _ tag requeue :=
    sends ((if requeue then "requeue " else "reject ") +:+ pretty tag) id tt;
|}.

Definition wire (up : bool) (reads : list ReadResult) : Wire :=
  mkWire 0 reads up false [] "R" "S" (0, QueueStep) 0 false.

(** A connection and its network. *)
#[local] Instance plain : ConnState Wire (Wire * AmqpConnection).
Proof.
  refine {| get_world x := x.1; set_world w x := (w, x.2);
    get_conn x := x.2; set_conn c x := (x.1, c) |}; reflexivity.
Defined.

Definition no_channel : ChannelCallback → M (Wire * AmqpConnection) unit := λ _, mret tt.

Definition fresh : AmqpConnection := new_AmqpConnection "127.0.0.1" 5672 "guest" "guest" "/".

(** A connection established over a healthy network, and the same after the peer
    vanished and a read noticed. *)
Definition established : Wire * AmqpConnection :=
  (connect no_channel 1000 (wire true [], fresh)).2.
Definition vanished : Wire * AmqpConnection :=
  (set_up false established.1, established.2).
Definition noticed : Wire * AmqpConnection :=
  (pumpUntil no_channel (λ _, false) 100 vanished).2.

Lemma connect_ready_witness :
  connect no_channel 1000 (wire true [], fresh) = (Ret tt, established) ∧
  ready (get_conn established) = true ∧ _error (get_conn established) = "".
Proof.
  assert (Hx : connect no_channel 1000 (wire true [], fresh) = (Ret tt, established))
    by (vm_compute; reflexivity).
  split; [exact Hx|]. exact (connect_ready no_channel 1000 (wire true [], fresh) established Hx).
Defined.

Lemma closed_is_final_witness :
  closed (get_conn noticed) = true ∧ ready (get_conn (connect no_channel 1000 noticed).2) = false.
Proof.
  assert (Hx : closed (get_conn noticed) = true) by (vm_compute; reflexivity).
  split; [exact Hx|].
  exact (proj2 (proj1 (closed_is_final no_channel noticed 1000 (λ _, false) (λ _ _ H, H) Hx))).
Defined.

Definition release_channel : Wire → Activity Wire ConnCallback unit := @Channel_release Wire _ tt.

Lemma write_failure_escalation_witness :
  (∃ v x', call_noexcept release_channel noticed = (Ret v, x')) ∧
  (∃ x', call_noexcept release_channel vanished = (Undefined, x')).
Proof.
  split.
  - destruct (write_failure_escalation release_channel noticed) as [H _].
    assert (Hx : closed (get_conn noticed) = true) by (vm_compute; reflexivity).
    destruct (H Hx) as (v & x' & H' & _); [intros w; simpl; eauto|]. by exists v, x'.
  - destruct (write_failure_escalation release_channel vanished) as [_ H].
    assert (Hx : closed (get_conn vanished) = false) by (vm_compute; reflexivity).
    assert (Hw : socket_write "channel.close" vanished.1 = (Some "broken pipe", vanished.1))
      by (vm_compute; reflexivity).
    destruct (H "channel.close" vanished.1 _ _ _ Hx eq_refl Hw) as (x' & _ & _ & H').
    by exists x'.
Defined.

(** A frame that arrives in two reads. *)
Definition split_frame : Wire * AmqpConnection :=
  (set_reads [read_bytes "S-"; read_bytes "-S"] established.1, established.2).

Definition half : Wire * AmqpConnection := (pumpOnce no_channel 100 split_frame).2.
Definition whole : Wire * AmqpConnection := (pumpOnce no_channel 100 half).2.

Lemma split_frame_pumped : pumped no_channel split_frame "S--S" "S--S" whole.
Proof.
  pose proof (pumped_read no_channel half 100 "-S" (async_read 100 (get_world half)).2 3
    (parse no_channel (handed "-S" (async_read 100 (get_world half)).2 half)).2 whole "" "" whole)
    as H2.
  pose proof (pumped_read no_channel split_frame 100 "S-" (async_read 100 (get_world split_frame)).2 1
    (parse no_channel (handed "S-" (async_read 100 (get_world split_frame)).2 split_frame)).2
    half "-S" "--S" whole) as H1.
  apply H1; [vm_compute; reflexivity..|]. apply H2; [vm_compute; reflexivity..|]. constructor.
Qed.

Lemma stream_preserved_witness :
  _inBuffer (get_conn half) = "-" ∧ "S--S" +:+ _inBuffer (get_conn whole) = "S--S".
Proof.
  split; [vm_compute; reflexivity|].
  exact (stream_preserved no_channel split_frame _ _ _ (λ _ _, eq_refl) split_frame_pumped).
Defined.

Lemma frames_of_forward s n w : forward wire_now (wire_now w) (frames_of s n w).
Proof.
  revert n w. induction s as [s IH] using (induction_ltof1 _ String.length). intros n w.
  destruct s as [|c rest]; simpl; [done|]. case_bool_decide; [destruct rest as [|c' rest]|].
  - simpl. lia.
  - apply IH. unfold ltof. simpl. lia.
  - match goal with |- forward _ _ (if is_channel ?cb && _ then frames_of _ _ ?w0 else _) =>
      assert (wire_now w0 = wire_now w) as Hw0 by (by destruct (_ || _)); generalize dependent w0;
      generalize cb end.
    intros callback w0 Hw0. case_match.
    + rewrite <- Hw0. apply IH. unfold ltof. simpl. lia.
    + split; [lia|]. intros w' _. apply IH. unfold ltof. simpl. lia.
Qed.

Lemma frames_of_count s n w x :
  match (perform (on_any no_channel) (frames_of s n w) x).1 with
  | Ret m => m ≤ n + size_of s
  | Throw _ => True
  | Undefined => False
  end.
Proof.
  revert n w x. induction s as [s IH] using (induction_ltof1 _ String.length). intros n w x.
  assert (Hrest : ∀ rest k m w x, s = stake m s +:+ rest → (0 < m)%nat → (m <= String.length s)%nat →
    k = n + Z.of_nat m →
    match (perform (on_any no_channel) (frames_of rest k w) x).1 with
    | Ret m => m ≤ n + size_of s | Throw _ => True | Undefined => False end).
  { intros rest k m w0 x0 Hs Hm Hlen ->.
    assert (String.length s = m + String.length rest)%nat.
    { rewrite Hs at 1. rewrite length_app_string, stake_length. lia. }
    specialize (IH rest). unfold ltof in IH. specialize (IH ltac:(lia) (n + Z.of_nat m) w0 x0).
    destruct (perform _ _ _) as [[v|e|] x']; cbn in *; [|done..]. unfold size_of in *. lia. }
  clear IH. destruct s as [|c rest]; simpl; [unfold size_of; simpl; lia|].
  case_bool_decide; [destruct rest as [|c' rest]|].
  - simpl. unfold size_of. simpl. lia.
  - apply (Hrest rest _ 2%nat); [done|lia|simpl; lia|lia].
  - match goal with |- context [if is_channel ?cb && _ then frames_of _ _ ?w0 else _] =>
      generalize cb w0; intros callback w1 end.
    destruct (is_channel callback && negb (wire_channel w1)).
    { apply (Hrest rest _ 1%nat); [done|lia|simpl; lia|lia]. }
    cbn [perform].
    assert (H0 : (on_any no_channel callback (set_world w1 x)).1 ≠ Undefined).
    { destruct callback as [[data| |m|]|c0]; [|done..]. simpl.
      unfold onData, modify_conn, on_pure, on_world, get_member. run. cbn.
      destruct (wire_up w1); cbn; [done|]. by destruct (_closed x.2). }
    destruct (on_any _ _ _) as [[[]|e|] x']; cbn in *; [|done..].
    apply (Hrest rest _ 1%nat); [done|lia|simpl; lia|lia].
Qed.

Lemma pumpOnce_defined timeout x :
  _connection x.2 = true → (pumpOnce no_channel timeout x).1 ≠ Undefined.
Proof.
  intros Hx. unfold pumpOnce, on_pure, on_world, modify_conn, get_member. run.
  destruct (async_read _ _) as [[[bytes| |message]|] w]; cbn; [|done..].
  set (x1 := (_, _)). pose proof (parse_keeps_buffer no_channel x1 (λ _ _, eq_refl)) as Hk.
  pose proof (frames_of_count (_inBuffer x1.2) 0 x1.1 x1) as Hc. cbn in Hk.
  unfold parse in *. cbn in Hk, Hc |- *. rewrite Hx in *.
  destruct (perform _ _ _) as [[n|e|] x2]; cbn in *; [|done..].
  rewrite bool_decide_false; [done|]. rewrite Hk. lia.
Qed.

(** The library object stays. *)
Lemma rounds_keep_connection x x' :
  rounds no_channel x x' → _connection x.2 = true → _connection x'.2 = true.
Proof.
  induction 1 as [x|x x' _ IH|remaining x x1 x' Hp _ IH]; intros Hx; [done|by apply IH|apply IH].
  assert (Hk : preserves (λ x : Wire * AmqpConnection, _connection x.2 = true)
    (pumpOnce no_channel remaining)).
  { apply frame_pumpOnce; [done| |by intros c y].
    intros c y Hy (_ & Hc & _). by apply Hc. }
  specialize (Hk x Hx). by rewrite Hp in Hk.
Qed.

Lemma pumpUntil_returns_witness :
  (pumpUntil no_channel (λ x, _closed x.2) 100 vanished).1 = Ret true ∧
  (pumpUntil no_channel (λ _, false) 100 established).1 = Ret false ∧
  ∀ predicate timeout, (pumpUntil no_channel predicate timeout established).1 ≠ Undefined.
Proof.
  split; [vm_compute; reflexivity|]. split; [vm_compute; reflexivity|]. intros predicate timeout.
  pose proof (pumpUntil_returns no_channel wire_now) as H.
  assert (H' : match pumpUntil no_channel predicate timeout established with
    | (Ret b, x') => b = predicate x' | (Throw _, _) => True
    | (Undefined, x') => ∃ remaining x1, rounds no_channel established x1 ∧
        pumpOnce no_channel remaining x1 = (Undefined, x') end).
  { apply H.
    - intros w. unfold reads_between. simpl. lia.
    - intros t w. simpl. destruct (wire_open w), (wire_reads w); simpl; try destruct (wire_up w); simpl; lia.
    - intros d w. simpl. destruct (wire_up w); simpl; lia.
    - intros b w. apply frames_of_forward.
    - done. }
  destruct (pumpUntil _ _ _ _) as [[b|e|] x']; [done|done|]. destruct H' as (r & x1 & Hr & Hx1).
  apply rounds_keep_connection in Hr; [|vm_compute; reflexivity].
  pose proof (pumpOnce_defined r x1 Hr) as Hd. by rewrite Hx1 in Hd.
Defined.

End Sample.
