(* ===== verification/AmqpCppTransport.v ===== *)
(** The AMQP-CPP backend ([class AmqpCppTransport],
    [src/transport/AmqpCppTransport.cpp]), over the connection of [AmqpConnection].

    A request to the broker is answered through closures that outlive the call that
    made it: the cells they share are on the heap and are never freed here
    ([requests]); a call then runs the pump until one of its cells changes.
    Deliveries run the stored handler from inside the library's parser.  Every
    operation is a computation on the transport together with the application's
    state [S], because a handler may run while it pumps. *)

From S2P Require Import Prelude ITransport Reconnect AmqpConnection.
#[local] Open Scope Z_scope.

Module AmqpCpp.

(** [amqpExchangeType]; the three enumerators are all of them. *)
Definition amqpExchangeType (routing : Routing) : ExchangeType :=
  match routing with
  | Exact => exchange_direct
  | Pattern => exchange_topic
  | Broadcast => exchange_fanout
  end.

(** [struct RouteBinding] *)
Record RouteBinding : Type := mkRouteBinding { binding_group : string; binding_key : string }.

(** The heap cells one call shares with its closures: [exchangeReady], [ready] (also
    [done], [consuming]), [bound], [waiting] (also [removed]) and [failure]. *)
Record Request : Type := mkRequest {
  cell_exchange : bool;
  cell_ready : bool;
  cell_bound : bool;
  cell_count : Z;
  cell_failure : string;
}.

Definition new_Request : Request := mkRequest false false false 0 "".

(** The bodies of the [onSuccess] and [onError] closures. *)
Definition succeed (step : RequestStep) (count : Z) (r : Request) : Request :=
  match step with
  | ExchangeStep => mkRequest true (cell_ready r) (cell_bound r) (cell_count r) (cell_failure r)
  | QueueStep => mkRequest (cell_exchange r) true (cell_bound r) count (cell_failure r)
  | BindStep => mkRequest (cell_exchange r) (cell_ready r) true (cell_count r) (cell_failure r)
  end.
Definition failed (message : option string) (r : Request) : Request :=
  mkRequest (cell_exchange r) (cell_ready r) (cell_bound r) (cell_count r)
    (default "unknown error" message).

(** The cell a step of a call sets. *)
Definition step_done (step : RequestStep) (r : Request) : bool :=
  match step with
  | ExchangeStep => cell_exchange r
  | QueueStep => cell_ready r
  | BindStep => cell_bound r
  end.

(** The [arguments] table and the [flags] of a declaration. *)
Definition queueFlags (options : TopicOptions) : QueueFlags :=
  mkQueueFlags (durable options) (negb (shared options)) (deleteWhenUnused options) false.
Definition passive : QueueFlags := mkQueueFlags false false false true.
Definition queueArguments (topic : Topic) (options : TopicOptions) : list (string * AmqpValue) :=
  (if deadLetter options then
     [("x-dead-letter-exchange", amqp_string kDeadLetterExchange);
      ("x-dead-letter-routing-key", amqp_string topic)] else []) ++
  (if bool_decide (maxLength options > 0) then
     [("x-max-length", amqp_int32 (cast_int32 (maxLength options)));
      ("x-overflow", amqp_string (overflowPolicyName (overflow options)))] else []).

(** [++_stats.received], [++_stats.sent] *)
Definition count_received (s : Stats) : Stats :=
  mkStats (bytesSent s) (bytesReceived s) (sent s) (incr64 (received s)) (acksPerformed s)
    (rejectsPerformed s) (requeuesPerformed s) (abandoned s) (reconnects s).
Definition count_sent (s : Stats) : Stats :=
  mkStats (bytesSent s) (bytesReceived s) (incr64 (sent s)) (received s) (acksPerformed s)
    (rejectsPerformed s) (requeuesPerformed s) (abandoned s) (reconnects s).

Section state.
Context {W : Type} `{!AmqpLibrary W} {H : Type}.

(** The members of [AmqpCppTransport], the heap cells and the world. *)
Record AmqpCppTransport : Type := mkAmqpCpp {
  world : W;
  requests : gmap Z Request;
  nextRequest : Z;
  _connection : option AmqpConnection;
  _channel : option Channel;
  _handler : option H;
  _stats : Stats;
  _outstandingDeferred : gset Z;
  _routes : gmap string RouteBinding;
  _endpoint : Endpoint;
  _policy : ReconnectPolicy;
  _topic : Topic;
  _topicOptions : TopicOptions;
  _topicDeclared : bool;
  _subscribed : bool;
  _failedAttempts : Z;
  _nextAttempt : Z;
  _handlerFailure : option exn;
}.
Local Abbreviation T := AmqpCppTransport.

Definition new_AmqpCppTransport (w : W) : T :=
  mkAmqpCpp w ∅ 0 None None None default_Stats ∅ ∅ default_Endpoint default_ReconnectPolicy ""
    default_TopicOptions false false 0 0 None.

(** Assignments to the members. *)
Definition set_wire (w : W) (c : option AmqpConnection) (t : T) : T :=
  mkAmqpCpp w (requests t) (nextRequest t) c (_channel t) (_handler t) (_stats t)
    (_outstandingDeferred t) (_routes t) (_endpoint t) (_policy t) (_topic t) (_topicOptions t)
    (_topicDeclared t) (_subscribed t) (_failedAttempts t) (_nextAttempt t) (_handlerFailure t).
Definition set_requests (rs : gmap Z Request) (next : Z) (t : T) : T :=
  mkAmqpCpp (world t) rs next (_connection t) (_channel t) (_handler t) (_stats t)
    (_outstandingDeferred t) (_routes t) (_endpoint t) (_policy t) (_topic t) (_topicOptions t)
    (_topicDeclared t) (_subscribed t) (_failedAttempts t) (_nextAttempt t) (_handlerFailure t).
Definition set_channel (ch : option Channel) (t : T) : T :=
  mkAmqpCpp (world t) (requests t) (nextRequest t) (_connection t) ch (_handler t) (_stats t)
    (_outstandingDeferred t) (_routes t) (_endpoint t) (_policy t) (_topic t) (_topicOptions t)
    (_topicDeclared t) (_subscribed t) (_failedAttempts t) (_nextAttempt t) (_handlerFailure t).
Definition set_handler (h : option H) (t : T) : T :=
  mkAmqpCpp (world t) (requests t) (nextRequest t) (_connection t) (_channel t) h (_stats t)
    (_outstandingDeferred t) (_routes t) (_endpoint t) (_policy t) (_topic t) (_topicOptions t)
    (_topicDeclared t) (_subscribed t) (_failedAttempts t) (_nextAttempt t) (_handlerFailure t).
Definition with_stats (f : Stats → Stats) (t : T) : T :=
  mkAmqpCpp (world t) (requests t) (nextRequest t) (_connection t) (_channel t) (_handler t)
    (f (_stats t)) (_outstandingDeferred t) (_routes t) (_endpoint t) (_policy t) (_topic t)
    (_topicOptions t) (_topicDeclared t) (_subscribed t) (_failedAttempts t) (_nextAttempt t)
    (_handlerFailure t).
Definition set_outstanding (d : gset Z) (t : T) : T :=
  mkAmqpCpp (world t) (requests t) (nextRequest t) (_connection t) (_channel t) (_handler t)
    (_stats t) d (_routes t) (_endpoint t) (_policy t) (_topic t) (_topicOptions t)
    (_topicDeclared t) (_subscribed t) (_failedAttempts t) (_nextAttempt t) (_handlerFailure t).
Definition set_routes (r : gmap string RouteBinding) (t : T) : T :=
  mkAmqpCpp (world t) (requests t) (nextRequest t) (_connection t) (_channel t) (_handler t)
    (_stats t) (_outstandingDeferred t) r (_endpoint t) (_policy t) (_topic t) (_topicOptions t)
    (_topicDeclared t) (_subscribed t) (_failedAttempts t) (_nextAttempt t) (_handlerFailure t).
Definition set_endpoint (e : Endpoint) (t : T) : T :=
  mkAmqpCpp (world t) (requests t) (nextRequest t) (_connection t) (_channel t) (_handler t)
    (_stats t) (_outstandingDeferred t) (_routes t) e (_policy t) (_topic t) (_topicOptions t)
    (_topicDeclared t) (_subscribed t) (_failedAttempts t) (_nextAttempt t) (_handlerFailure t).
Definition set_topic (topic : Topic) (options : TopicOptions) (declared : bool) (t : T) : T :=
  mkAmqpCpp (world t) (requests t) (nextRequest t) (_connection t) (_channel t) (_handler t)
    (_stats t) (_outstandingDeferred t) (_routes t) (_endpoint t) (_policy t) topic options
    declared (_subscribed t) (_failedAttempts t) (_nextAttempt t) (_handlerFailure t).
Definition set_subscribed (b : bool) (t : T) : T :=
  mkAmqpCpp (world t) (requests t) (nextRequest t) (_connection t) (_channel t) (_handler t)
    (_stats t) (_outstandingDeferred t) (_routes t) (_endpoint t) (_policy t) (_topic t)
    (_topicOptions t) (_topicDeclared t) b (_failedAttempts t) (_nextAttempt t) (_handlerFailure t).
Definition set_retry (policy : ReconnectPolicy) (attempts next : Z) (t : T) : T :=
  mkAmqpCpp (world t) (requests t) (nextRequest t) (_connection t) (_channel t) (_handler t)
    (_stats t) (_outstandingDeferred t) (_routes t) (_endpoint t) policy (_topic t)
    (_topicOptions t) (_topicDeclared t) (_subscribed t) attempts next (_handlerFailure t).
Definition set_handlerFailure (e : option exn) (t : T) : T :=
  mkAmqpCpp (world t) (requests t) (nextRequest t) (_connection t) (_channel t) (_handler t)
    (_stats t) (_outstandingDeferred t) (_routes t) (_endpoint t) (_policy t) (_topic t)
    (_topicOptions t) (_topicDeclared t) (_subscribed t) (_failedAttempts t) (_nextAttempt t) e.

(** The connection object callbacks refer to; without one it is a fresh object no
    call is made on. *)
Definition the_conn (t : T) : AmqpConnection :=
  default (new_AmqpConnection "" 0 "" "" "") (_connection t).

#[export] Instance transport_conn {S} : ConnState W (T * S).
Proof.
  refine {| get_world x := world x.1;
    AmqpConnection.set_world w x := (set_wire w (_connection x.1) x.1, x.2);
    get_conn x := the_conn x.1;
    set_conn c x := (set_wire (world x.1) (Some c) x.1, x.2) |}; reflexivity.
Defined.
(** The transport while a connection it no longer names is destroyed: that object
    comes last, and the library's calls still reach it. *)
Definition dying_conn {S} : ConnState W (T * (S * AmqpConnection)).
Proof.
  refine {| get_world x := world x.1;
    AmqpConnection.set_world w x := (set_wire w (_connection x.1) x.1, x.2);
    get_conn x := x.2.2;
    set_conn c x := (x.1, (x.2.1, c)) |}; try reflexivity; by intros ? [? [? ?]].
Defined.
End state.
Arguments AmqpCppTransport W {_} H.

Section transport.
Context {W : Type} `{!AmqpLibrary W} {H : Type}.
Local Abbreviation T := (AmqpCppTransport W H).

(** [AmqpCppTransport::capabilities] *)
Definition capabilities (t : T) : Capabilities := {|
  cap_name := "amqpcpp";
  cap_durableDelivery := true;
  cap_publisherConfirms := false;
  cap_manualAcknowledgement := true;
  cap_redeliveryFlag := true;
  cap_deadLetter := true;
  cap_routingGroups := true;
  cap_fifoPerTopic := true;
  cap_competingConsumers := true;
  cap_topicDepth := true;
  cap_purge := true;
  cap_requeue := true;
  cap_reconnect := true;
  cap_deferredAcknowledgement := true;
  cap_boundedQueue := true;
|}.

(** [AmqpCppTransport::ready] *)
Definition ready (t : T) : bool :=
  match _connection t with Some c => AmqpConnection.ready c | None => false end.

(** [_connection->closed()] *)
Definition connection_closed (t : T) : bool :=
  match _connection t with Some c => closed c | None => false end.

(** [AmqpCppTransport::stats] *)
Definition stats (t : T) : Stats :=
  match _connection t with
  | Some c => mkStats (_bytesSent c) (_bytesReceived c) (sent (_stats t)) (received (_stats t))
      (acksPerformed (_stats t)) (rejectsPerformed (_stats t)) (requeuesPerformed (_stats t))
      (abandoned (_stats t)) (reconnects (_stats t))
  | None => _stats t
  end.

Section closures.
Context {S : Type} (run : Runner T H S) `{!ConnState W (T * S)}.
Local Abbreviation X := (T * S)%type.

Definition modify_t (f : T → T) : M X unit := modify (λ x, (f x.1, x.2)).
Definition get_t {A} (f : T → A) : M X A := gets (λ x, f x.1).

(** [if (!_channel) throw ...;] and the channel. *)
Definition require_channel (operation : string) : M X Channel :=
  ch ← get_t _channel;
  match ch with
  | None => throw (logic_error (operation +:+ "() called before connect()"))
  | Some ch => mret ch
  end.

(** [_channel->...]: dereferencing an empty pointer is undefined. *)
Definition the_channel : M X Channel :=
  ch ← get_t _channel;
  match ch with None => undefined | Some ch => mret ch end.

(** ** Deliveries *)

(** The library call and the counter of a disposition; a deferred one only
    remembers its tag. *)
Definition resolve_delivery (tag : Z) (disposition : Disposition) : M X unit :=
  match disposition with
  | Ack =>
      ch ← the_channel; _ ← call (channel_ack ch tag); modify_t (with_stats bump_acks)
  | Requeue =>
      ch ← the_channel; _ ← call (channel_reject ch tag true); modify_t (with_stats bump_requeues)
  | Reject =>
      ch ← the_channel; _ ← call (channel_reject ch tag false); modify_t (with_stats bump_rejects)
  | Deferred => modify_t (λ t, set_outstanding ({[tag]} ∪ _outstandingDeferred t) t)
  end.

(** Calling the stored handler; an empty [std::function] throws. *)
Definition invoke_handler (delivery : Delivery) : M X Disposition :=
  h ← get_t _handler;
  match h with
  | Some h => run h delivery
  | None => throw (std_exception "bad_function_call")
  end.

(** The [onReceived] closure of [startConsuming]. *)
Definition onReceived (body : string) (tag : Z) (redelivered : bool) : M X unit :=
  let delivery := mkDelivery body redelivered tag in
  _ ← modify_t (with_stats count_received);
  disposition ← try_catch (d ← invoke_handler delivery; mret (Some d)) (λ e,
    _ ← modify_t (set_handlerFailure (Some e));
    _ ← modify_t (with_stats bump_abandoned);
    mret None);
  match disposition with
  | None => mret tt
  | Some disposition => resolve_delivery tag disposition
  end.

(** Every closure the transport registers with its channel. *)
Definition on_channel (c : ChannelCallback) : M X unit :=
  match c with
  | call_onSuccess r step count =>
      modify_t (λ t, set_requests (alter (succeed step count) r (requests t)) (nextRequest t) t)
  | call_onFailure r step message =>
      modify_t (λ t, set_requests (alter (failed message) r (requests t)) (nextRequest t) t)
  | call_onReceived body tag redelivered => onReceived body tag redelivered
  end.

End closures.

Context {S : Type} (run : Runner T H S).
Local Abbreviation X := (T * S)%type.

(** [_channel.reset()], [_channel] being emptied before the channel dies. *)
Definition reset_channel : M X unit :=
  ch ← get_t _channel;
  match ch with
  | None => mret tt
  | Some ch => _ ← modify_t (set_channel None); call_noexcept (Channel_release ch)
  end.

(** ** Requests *)

(** Fresh cells. *)
Definition make_request : M X Z :=
  r ← get_t nextRequest;
  _ ← modify_t (λ t, set_requests (<[r := new_Request]> (requests t)) (r + 1) t);
  mret r.

Definition the_request (r : Z) (t : T) : Request := default new_Request (requests t !! r).

(** [_connection->pumpUntil(...)] *)
Definition pumpUntil (predicate : X → bool) (timeout : Z) : M X bool :=
  c ← get_t _connection;
  match c with
  | None => undefined
  | Some _ => AmqpConnection.pumpUntil (on_channel run) predicate timeout
  end.

(** A channel request with its closures -- [onError] fires at once when the frame
    could not be sent -- and the wait for one of its cells; [failure] and [timed_out]
    are the exceptions of the two checks that follow. *)
Definition ask (f : Channel → Z → W → Activity W ConnCallback (option string))
    (r : Z) (step : RequestStep) (timeout : Z) (failure : T → string → exn) (timed_out : T → exn) : M X unit :=
  ch ← the_channel;
  immediate ← call (f ch r);
  _ ← match immediate with
      | None => mret tt
      | Some message => on_channel run (call_onFailure r step (Some message))
      end;
  _ ← pumpUntil (λ x, step_done step (the_request r x.1) ||
        negb (is_empty (cell_failure (the_request r x.1)))) timeout;
  t ← get_t id;
  let cells := the_request r t in
  _ ← throw_if (negb (is_empty (cell_failure cells))) (failure t (cell_failure cells));
  throw_if (negb (step_done step cells)) (timed_out t).

(** ** Topics *)

(** [AmqpCppTransport::declare] after the forensic destination: the group, the
    queue, the binding. *)
Definition declare_destination (topic : Topic) (options : TopicOptions) (timeout : Z) : M X Z :=
  r ← make_request;
  _ ← (if is_empty (group options) then mret tt else
         ask (λ ch r, declareExchange ch r (group options) (amqpExchangeType (routing options))
                (durable options)) r ExchangeStep timeout
           (λ _ failure, runtime_error ("cannot declare group '" +:+ group options +:+ "': " +:+ failure +:+
              " (a PRECONDITION_FAILED here means the exchange already exists with a" +:+
              " different type; every declarer must agree on Exact/Pattern/Broadcast)"))
           (λ _, runtime_error ("timed out declaring group '" +:+ group options +:+ "'")));
  _ ← ask (λ ch r, declareQueue ch r topic (queueFlags options) (queueArguments topic options))
        r QueueStep timeout
        (λ _ failure, runtime_error ("cannot declare topic '" +:+ topic +:+ "': " +:+ failure +:+
           " (a PRECONDITION_FAILED here means an existing destination was declared with" +:+
           " different properties -- durable/shared/deleteWhenUnused/deadLetter/maxLength/overflow " +:+
           "must match everywhere; changing queue properties requires the documented " +:+
           "delete-and-recreate migration)"))
        (λ _, runtime_error ("timed out declaring topic '" +:+ topic +:+ "'"));
  _ ← (if is_empty (group options) then mret tt else
         let key := if is_empty (route options) then topic else route options in
         _ ← ask (λ ch r, bindQueue ch r (group options) topic key) r BindStep timeout
               (λ _ failure, runtime_error ("cannot bind topic '" +:+ topic +:+ "' into group '" +:+
                  group options +:+ "': " +:+ failure))
               (λ _, runtime_error ("timed out binding topic '" +:+ topic +:+ "'"));
         modify_t (λ t, set_routes (<[topic := mkRouteBinding (group options) key]> (_routes t)) t));
  get_t (λ t, cell_count (the_request r t)).

(** [AmqpCppTransport::declare]; the recursion is one deep, because a forensic
    destination has no dead-letter destination of its own ([declare_depth]). *)
Fixpoint declare_fuel (fuel : nat) (topic : Topic) (options : TopicOptions) (timeout : Z) : M X Z :=
  match fuel with
  | O => undefined
  | Datatypes.S fuel =>
      _ ← require_channel "ensureTopic";
      _ ← (if deadLetter options then
             _ ← declare_fuel fuel (deadLetterTopic topic) (forensicTopicOptions topic) timeout;
             mret tt
           else mret tt);
      declare_destination topic options timeout
  end.
Definition declare : Topic → TopicOptions → Z → M X Z := declare_fuel 2.

(** [AmqpCppTransport::ensureTopic] *)
Definition ensureTopic (topic : Topic) (options : TopicOptions) (timeout : Z) : M X unit :=
  _ ← declare topic options timeout;
  modify_t (set_topic topic options true).

(** [AmqpCppTransport::topicDepth] *)
Definition topicDepth (topic : Topic) (timeout : Z) : M X Z :=
  _ ← require_channel "topicDepth";
  r ← make_request;
  _ ← ask (λ ch r, declareQueue ch r topic passive []) r QueueStep timeout
        (λ _ failure, runtime_error ("cannot inspect topic '" +:+ topic +:+ "': " +:+ failure))
        (λ _, runtime_error ("timed out inspecting topic '" +:+ topic +:+ "'"));
  get_t (λ t, cell_count (the_request r t)).

(** [AmqpCppTransport::purgeTopic] *)
Definition purgeTopic (topic : Topic) (timeout : Z) : M X Z :=
  _ ← require_channel "purgeTopic";
  r ← make_request;
  _ ← ask (λ ch r, purgeQueue ch r topic) r QueueStep timeout
        (λ _ failure, runtime_error ("cannot purge topic '" +:+ topic +:+ "': " +:+ failure))
        (λ _, runtime_error ("timed out purging topic '" +:+ topic +:+ "'"));
  get_t (λ t, cell_count (the_request r t)).

(** ** Sending *)

(** Where [send] publishes: the exchange and the routing key. *)
Definition destination (t : T) (topic : Topic) (options : SendOptions) : string * string :=
  let '(exchange, routingKey) :=
    match _routes t !! topic with
    | Some binding => (binding_group binding, binding_key binding)
    | None => ("", topic)
    end in
  if negb (is_empty (send_route options)) && negb (is_empty exchange)
  then (exchange, send_route options)
  else (exchange, routingKey).

(** [AmqpCppTransport::send] *)
Definition send (topic : Topic) (payload : string) (options : SendOptions) : M X bool :=
  ch ← require_channel "send";
  _ ← throw_if (send_confirm options) (logic_error
        ("backend 'amqpcpp' does not support publisher confirms " +:+
         "(Capabilities::publisherConfirms is false); check the capability before requesting it"));
  '(exchange, routingKey) ← get_t (λ t, destination t topic options);
  accepted ← call (channel_publish ch exchange routingKey payload (send_durable options));
  _ ← (if (accepted : bool) then modify_t (with_stats count_sent) else mret tt);
  mret accepted.

(** ** Consuming *)

(** [AmqpCppTransport::startConsuming]; [topic] is a reference to the member. *)
Definition startConsuming (timeout : Z) : M X unit :=
  topic ← get_t _topic;
  ch ← the_channel;
  _ ← call (setQos ch 1);
  r ← make_request;
  ask (λ ch r, consume ch r topic) r QueueStep timeout
    (λ t failure, runtime_error ("failed to subscribe to '" +:+ _topic t +:+ "': " +:+ failure))
    (λ t, runtime_error ("timed out subscribing to '" +:+ _topic t +:+ "'")).

(** [AmqpCppTransport::subscribe] *)
Definition subscribe (topic : Topic) (handler : option H) (timeout : Z) : M X unit :=
  _ ← require_channel "subscribe";
  match handler with
  | None => throw (invalid_argument "subscribe() requires a callable handler")
  | Some h =>
      t ← get_t id;
      _ ← throw_if (_subscribed t) (logic_error
            ("subscribe() called twice on one transport; use one transport per " +:+
             "topic instead of overwriting the active subscription to '" +:+ _topic t +:+ "'"));
      _ ← modify_t (set_handler (Some h));
      _ ← modify_t (λ t, set_topic topic (_topicOptions t) (_topicDeclared t) t);
      _ ← startConsuming timeout;
      modify_t (set_subscribed true)
  end.

(** [AmqpCppTransport::settle] *)
Definition settle (tag : Z) (disposition : Disposition) : M X unit :=
  _ ← require_channel "settle";
  _ ← throw_if (bool_decide (disposition = Deferred)) (invalid_argument
        ("settle() cannot be called with Disposition::Deferred; a delivery already deferred " +:+
         "must be settled with Ack, Reject or Requeue"));
  outstanding ← get_t _outstandingDeferred;
  _ ← throw_if (negb (bool_decide (tag ∈ outstanding))) (logic_error
        ("settle() called for tag " +:+ pretty tag +:+ ", which is not an outstanding " +:+
         "deferred delivery on this transport (already settled, never deferred, or from a " +:+
         "connection that has since been replaced)"));
  _ ← modify_t (λ t, set_outstanding (_outstandingDeferred t ∖ {[tag]}) t);
  match disposition with
  | Deferred => mret tt
  | _ => resolve_delivery tag disposition
  end.

(** ** Opening and closing *)

(** The end of a connection the member no longer names: closures that run meanwhile
    find the member as it is now, while their frames still go through the old object.
    (Frames a handler sends of its own accord are charged to the object the member
    names.) *)
Definition run_dying : Runner T H (S * AmqpConnection) := λ h d x,
  let '(o, x') := run h d (x.1, x.2.1) in (o, (x'.1, (x'.2, x.2.2))).
Definition retire (c : AmqpConnection) : M X unit := λ x,
  let '(o, x') := @AmqpConnection.destroy W _ _ dying_conn
    (@on_channel _ run_dying dying_conn) (x.1, (x.2, c)) in
  (o, (x'.1, x'.2.1)).

(** Assigning to the [unique_ptr] [_connection], as its [reset()] does: the new pointer is
    stored, and then the object it held is destroyed. *)
Definition assign_connection (c : option AmqpConnection) : M X unit :=
  old ← get_t _connection;
  _ ← modify_t (λ t, set_wire (world t) c t);
  match old with None => mret tt | Some old => retire old end.
Definition reset_connection : M X unit := assign_connection None.

(** [AmqpCppTransport::openConnection]; the socket of the new object is not opened
    before [connect], so until then the one in the world is still that of the old. *)
Definition openConnection (timeout : Z) : M X unit :=
  e ← get_t _endpoint;
  let port := if bool_decide (port e ≠ 0) then port e else 5672 in
  _ ← assign_connection
        (Some (new_AmqpConnection (host e) port (user e) (password e) (realm e)));
  _ ← AmqpConnection.connect (on_channel run) timeout;
  _ ← AmqpConnection.connection;
  ch ← call Channel_create;
  old ← get_t _channel;
  _ ← modify_t (set_channel (Some ch));
  match old with None => mret tt | Some old => call_noexcept (Channel_release old) end.

(** [AmqpCppTransport::connection], with what its callers then ask the connection. *)
Definition connection {A} (f : AmqpConnection → A) : M X A :=
  c ← get_t _connection;
  match c with
  | None => throw (logic_error "connection() called before connect()")
  | Some c => mret (f c)
  end.

(** [AmqpCppTransport::connect] *)
Definition connect (endpoint : Endpoint) (timeout : Z) : M X unit :=
  _ ← modify_t (set_endpoint endpoint);
  openConnection timeout.

(** [AmqpCppTransport::close] *)
Definition close (timeout : Z) : M X unit :=
  _ ← modify_t (set_outstanding ∅);
  _ ← reset_channel;
  c ← get_t _connection;
  _ ← match c with None => mret tt | Some _ => AmqpConnection.close (on_channel run) timeout end;
  _ ← modify_t (set_subscribed false);
  modify_t (set_handler None).

(** [~AmqpCppTransport] *)
Definition destroy : M X unit :=
  try_catch (_ ← reset_channel; reset_connection) (λ _, mret tt).

(** ** Reconnection *)

(** [steady_clock::now()] *)
Definition now : M X Z := on_pure steady_now.

(** [AmqpCppTransport::setReconnectPolicy]; a default [time_point] is the epoch. *)
Definition setReconnectPolicy (policy : ReconnectPolicy) : M X unit :=
  modify_t (set_retry policy 0 0).

(** The [try] block of [serviceReconnect]: the old objects die, what was established
    is established again, and only then is the attempt a success. *)
Definition restore_session : M X unit :=
  _ ← reset_channel;
  _ ← reset_connection;
  _ ← modify_t (set_outstanding ∅);
  _ ← openConnection 5000;
  t ← get_t id;
  _ ← (if _topicDeclared t then _ ← declare (_topic t) (_topicOptions t) 5000; mret tt else mret tt);
  t ← get_t id;
  if _subscribed t then startConsuming 5000 else mret tt.
Definition restore : M X unit :=
  _ ← restore_session;
  _ ← modify_t (λ t, set_retry (_policy t) 0 (_nextAttempt t) t);
  modify_t (with_stats bump_reconnects).

(** Its [catch (const std::exception &)] block. *)
Definition restore_failed : M X unit :=
  t ← get_t id;
  delay ← lift (backoff (_policy t) (_failedAttempts t));
  n ← now;
  modify_t (λ t, set_retry (_policy t) (_failedAttempts t) (n + delay * ticks_per_ms) t).

(** [AmqpCppTransport::serviceReconnect] *)
Definition serviceReconnect : M X bool :=
  t ← get_t id;
  if negb (enabled (_policy t)) then mret false
  else if bool_decide (_failedAttempts t >= maxAttempts (_policy t)) then mret false
  else
    n ← now;
    if bool_decide (n < _nextAttempt t) then mret true
    else
      _ ← modify_t (λ t, set_retry (_policy t) (u32 (_failedAttempts t + 1)) (_nextAttempt t) t);
      try_catch (_ ← restore; mret true)
        (λ e, if is_std e then _ ← restore_failed; mret true else throw e).

(** ** Pumping *)

(** What [pump] does once the slice is over. *)
Definition after_slice : M X bool :=
  failure ← get_t _handlerFailure;
  match failure with
  | Some e => _ ← modify_t (set_handlerFailure None); throw e
  | None =>
      t ← get_t id;
      match _connection t with
      | None => undefined
      | Some c =>
          if closed c && enabled (_policy t) then serviceReconnect else mret (negb (closed c))
      end
  end.

(** [AmqpCppTransport::pump] *)
Definition pump (slice : Z) : M X bool :=
  t ← get_t id;
  let down := match _connection t with None => true | Some c => closed c end in
  if down then
    if negb (enabled (_policy t)) then mret false else serviceReconnect
  else
    _ ← pumpUntil (λ _, false) slice;
    after_slice.

End transport.
(** ** What an operation touches *)

(** The counter steps of a delivery that is not abandoned. *)
Inductive delivery_counter : (Stats → Stats) → Prop :=
  | counts_received : delivery_counter count_received
  | counts_answer d : delivery_counter (bump_disposition d).

Lemma delivery_counter_keeps f s :
  delivery_counter f → reconnects (f s) = reconnects s ∧ abandoned (f s) = abandoned s.
Proof. intros []; [done|by destruct d]. Qed.

(** Statements the closures keep, run over the connection they belong to. *)
Section deliveries.
Context {W : Type} `{!AmqpLibrary W} {H S : Type} (run : Runner (AmqpCppTransport W H) H S)
  `{HC : !ConnState W (AmqpCppTransport W H * S)}.
Local Abbreviation T := (AmqpCppTransport W H).
Local Abbreviation X := (T * S)%type.
Context (I : X → Prop).
Context (I_world : ∀ w x, I x → I (AmqpConnection.set_world w x)).
Context (I_conn : ∀ c x, I x → evolves (get_conn x) c → I (set_conn c x)).

Lemma frame_modify_t f : (∀ x, I x → I (f x.1, x.2)) → preserves I (modify_t f).
Proof. intros Hf. apply preserves_modify. auto. Qed.
Lemma frame_get_t {A} (f : T → A) : preserves I (get_t f).
Proof. apply preserves_gets. Qed.
Lemma frame_calls {A} (f : W → Activity W ConnCallback A) : preserves I (call f).
Proof. apply frame_call; auto with motus. Qed.
Lemma frame_calls_noexcept {A} (f : W → Activity W ConnCallback A) : preserves I (call_noexcept f).
Proof. apply frame_call_noexcept; auto with motus. Qed.
#[local] Hint Resolve frame_modify_t frame_get_t frame_calls frame_calls_noexcept : motus.

Lemma frame_the_channel : preserves I the_channel.
Proof. unfold the_channel. frames. Qed.
Lemma frame_require op : preserves I (require_channel op).
Proof. unfold require_channel. frames. Qed.
#[local] Hint Resolve frame_the_channel frame_require : motus.

Lemma counts_acks : delivery_counter bump_acks. Proof. exact (counts_answer Ack). Qed.
Lemma counts_rejects : delivery_counter bump_rejects. Proof. exact (counts_answer Reject). Qed.
Lemma counts_requeues : delivery_counter bump_requeues. Proof. exact (counts_answer Requeue). Qed.
#[local] Hint Resolve counts_acks counts_rejects counts_requeues counts_received : motus.

(** Statements that do not mention what a delivery assigns. *)
Section plain.
Context (I_stats : ∀ f x, delivery_counter f → I x → I (with_stats f x.1, x.2)).
Context (I_abandon : ∀ e x, I x →
  I (with_stats bump_abandoned (set_handlerFailure (Some e) x.1), x.2)).
Context (I_outstanding : ∀ d x, I x → I (set_outstanding d x.1, x.2)).
Context (I_run : ∀ h d, preserves I (run h d)).

Lemma frame_stats f : delivery_counter f → preserves I (modify_t (with_stats f)).
Proof. intros Hf. apply frame_modify_t. auto. Qed.
Lemma frame_abandon e : preserves I
  (_ ← modify_t (set_handlerFailure (Some e)); _ ← modify_t (with_stats bump_abandoned);
   mret (None (A:=Disposition))).
Proof. intros x Hx. exact (I_abandon e x Hx). Qed.
#[local] Hint Resolve frame_stats frame_abandon : motus.

Lemma frame_resolve tag d : preserves I (resolve_delivery tag d).
Proof. unfold resolve_delivery. frames. Qed.
#[local] Hint Resolve frame_resolve : motus.

Lemma frame_invoke d : preserves I (invoke_handler run d).
Proof. unfold invoke_handler. frames. Qed.
#[local] Hint Resolve frame_invoke : motus.

Lemma frame_received body tag redelivered : preserves I (onReceived run body tag redelivered).
Proof. unfold onReceived. frames. Qed.
End plain.
End deliveries.

Section frame.
Context {W : Type} `{!AmqpLibrary W} {H S : Type} (run : Runner (AmqpCppTransport W H) H S).
Local Abbreviation T := (AmqpCppTransport W H).
Local Abbreviation X := (T * S)%type.

(** A call into the library outside a delivery changes the world and the connection,
    and nothing else. *)
Lemma call_wire {A} (f : W → Activity W ConnCallback A) (x : X) :
  ∃ w c, (call f x).2 = (set_wire w c x.1, x.2).
Proof.
  apply (frame_call (λ x', ∃ w c, x' = (set_wire w c x.1, x.2))).
  - intros w _ (w0 & c0 & ->). by exists w, c0.
  - intros c _ (w0 & c0 & ->) _. by exists w0, (Some c).
  - exists (world x.1), (_connection x.1). by destruct x as [[] ?].
Qed.

Lemma call_noexcept_wire {A} (f : W → Activity W ConnCallback A) (x : X) :
  ∃ w c, (call_noexcept f x).2 = (set_wire w c x.1, x.2).
Proof.
  destruct (call_wire f x) as (w & c & Hx). exists w, c. unfold call_noexcept, try_catch.
  by destruct (call f x) as [[]].
Qed.

(** A delivery run by a connection that dies, for statements about the rest. *)
Lemma frame_dying (I : X → Prop) :
  (∀ w x, I x → I (set_wire w (_connection x.1) x.1, x.2)) →
  (∀ f x, delivery_counter f → I x → I (with_stats f x.1, x.2)) →
  (∀ e x, I x → I (with_stats bump_abandoned (set_handlerFailure (Some e) x.1), x.2)) →
  (∀ d x, I x → I (set_outstanding d x.1, x.2)) → (∀ h d, preserves I (run h d)) →
  ∀ body tag redelivered, preserves (λ y, I (y.1, y.2.1))
    (@onReceived _ _ _ _ (run_dying run) dying_conn body tag redelivered).
Proof.
  intros Hw Hs Ha Ho Hrun body tag redelivered. apply frame_received.
  - intros w y. apply Hw.
  - done.
  - intros f y. apply Hs.
  - intros e y. apply Ha.
  - intros d y. apply Ho.
  - intros h d [t [s c]] Hy. unfold run_dying. specialize (Hrun h d (t, s) Hy). cbn in *.
    by destruct (run h d (t, s)) as [o [t' s']].
Qed.

(** A statement the connection, the answers to requests, new requests and whole
    deliveries keep. *)
Record framed (I : X → Prop) : Prop := mkFramed {
  framed_world w x : I x → I (set_wire w (_connection x.1) x.1, x.2);
  framed_conn c x : I x → I (set_wire (world x.1) (Some c) x.1, x.2);
  framed_answer r f x :
    I x → I (set_requests (alter f r (requests x.1)) (nextRequest x.1) x.1, x.2);
  framed_request x :
    I x → I (set_requests (<[nextRequest x.1 := new_Request]> (requests x.1))
      (nextRequest x.1 + 1) x.1, x.2);
  framed_received body tag redelivered : preserves I (onReceived run body tag redelivered);
}.

Section framed.
Context (I : X → Prop).


(** ... and of whole operations. *)
Context (HI : framed I).
Lemma framed_set_world w x : I x → I (AmqpConnection.set_world w x).
Proof. apply HI. Qed.
Lemma framed_set_conn c x : I x → evolves (get_conn x) c → I (set_conn c x).
Proof. intros Hx _. by apply HI. Qed.
Lemma framed_connected c : preserves I (modify_t (λ t, set_wire (world t) (Some c) t)).
Proof. apply frame_modify_t. intros x. apply HI. Qed.
#[local] Hint Resolve framed_set_world framed_set_conn framed_connected : motus.
#[local] Hint Resolve frame_modify_t frame_get_t : motus.

Lemma framed_calls {A} (f : W → Activity W ConnCallback A) : preserves I (call f).
Proof. apply frame_calls; auto with motus. Qed.
Lemma framed_calls_noexcept {A} (f : W → Activity W ConnCallback A) : preserves I (call_noexcept f).
Proof. apply frame_calls_noexcept; auto with motus. Qed.
Lemma framed_now : preserves I now.
Proof. apply frame_on_pure; auto with motus. Qed.
#[local] Hint Resolve framed_calls framed_calls_noexcept framed_now frame_the_channel frame_require : motus.

Lemma frame_on_channel c : preserves I (on_channel run c).
Proof.
  destruct c; simpl; [apply frame_modify_t; intros x; apply HI..|apply HI].
Qed.
#[local] Hint Resolve frame_on_channel : motus.

Lemma frame_pumping predicate timeout : preserves I (pumpUntil run predicate timeout).
Proof. unfold pumpUntil. frames. apply AmqpConnection.frame_pumpUntil; auto with motus. Qed.
#[local] Hint Resolve frame_pumping : motus.

Lemma frame_ask f r step timeout failure timed_out :
  preserves I (ask run f r step timeout failure timed_out).
Proof. unfold ask. frames. Qed.
Lemma frame_make_request : preserves I make_request.
Proof. intros x Hx. exact (framed_request _ HI x Hx). Qed.
#[local] Hint Resolve frame_ask frame_make_request : motus.

Lemma frame_startConsuming timeout : preserves I (startConsuming run timeout).
Proof. unfold startConsuming. frames. Qed.

Lemma frame_topicDepth topic timeout : preserves I (topicDepth run topic timeout).
Proof. unfold topicDepth. frames. Qed.
Lemma frame_purgeTopic topic timeout : preserves I (purgeTopic run topic timeout).
Proof. unfold purgeTopic. frames. Qed.

Section routes.
Context (I_routes : ∀ r x, I x → I (set_routes r x.1, x.2)).

Lemma frame_declare topic options timeout : preserves I (declare run topic options timeout).
Proof.
  assert (∀ topic options, preserves I (declare_destination run topic options timeout)).
  { intros. unfold declare_destination. frames. }
  unfold declare. generalize 2%nat. intros n. revert topic options.
  induction n; intros topic options; simpl; frames.
Qed.
End routes.

(** Operations that end a connection. *)
Section reset.
Context (I_disconnected : ∀ x, I x → I (set_wire (world x.1) None x.1, x.2)).
Context (I_dying : ∀ body tag redelivered, preserves (λ y, I (y.1, y.2.1))
  (@onReceived _ _ _ _ (run_dying run) dying_conn body tag redelivered)).

Lemma frame_retire c : preserves I (retire run c).
Proof.
  intros x Hx. unfold retire. set (I' := λ y : T * (S * AmqpConnection), I (y.1, y.2.1)).
  assert (Hd : preserves I' (@AmqpConnection.destroy W _ _ dying_conn
    (@on_channel W _ H _ (run_dying run) dying_conn))).
  { apply (@AmqpConnection.frame_destroy W _ _ dying_conn I').
    - intros w y. apply (framed_world _ HI).
    - done.
    - intros [r step n|r step m|body tag redelivered]; [..|apply I_dying]; apply frame_modify_t;
        intros y; apply (framed_answer _ HI). }
  specialize (Hd (x.1, (x.2, c))). destruct (AmqpConnection.destroy _ _) as [o x'].
  apply Hd. by destruct x.
Qed.
Lemma frame_assign c :
  (∀ x, I x → I (set_wire (world x.1) c x.1, x.2)) → preserves I (assign_connection run c).
Proof. intros Hc. pose proof frame_retire. unfold assign_connection. frames. Qed.
Lemma frame_reset_connection : preserves I (reset_connection run).
Proof. by apply frame_assign. Qed.
#[local] Hint Resolve frame_reset_connection : motus.

Context (I_channel : ∀ ch x, I x → I (set_channel ch x.1, x.2)).

Lemma frame_reset_channel : preserves I reset_channel.
Proof. unfold reset_channel. frames. Qed.

Lemma frame_openConnection timeout : preserves I (openConnection run timeout).
Proof.
  assert (∀ c, preserves I (assign_connection run (Some c))).
  { intros c. apply frame_assign. intros x. apply HI. }
  unfold openConnection, AmqpConnection.connection. frames.
  apply AmqpConnection.frame_connect; auto with motus.
Qed.
#[local] Hint Resolve frame_reset_channel frame_openConnection : motus.

Context (I_forgotten : ∀ x, I x → I (set_outstanding ∅ x.1, x.2)).
Context (I_routes : ∀ r x, I x → I (set_routes r x.1, x.2)).

Lemma frame_restore_session : preserves I (restore_session run).
Proof.
  pose proof (frame_declare I_routes). pose proof frame_startConsuming.
  unfold restore_session. frames.
Qed.

Lemma frame_destructor : preserves I (destroy run).
Proof. unfold destroy. frames. Qed.

Section retry.
Context (I_attempt : ∀ x, I x →
  I (set_retry (_policy x.1) (u32 (_failedAttempts x.1 + 1)) (_nextAttempt x.1) x.1, x.2)).
Context (I_cleared : ∀ x, I x → I (set_retry (_policy x.1) 0 (_nextAttempt x.1) x.1, x.2)).
Context (I_later : ∀ next x, I x →
  I (set_retry (_policy x.1) (_failedAttempts x.1) next x.1, x.2)).
Context (I_reconnects : ∀ x, I x → I (with_stats bump_reconnects x.1, x.2)).

Lemma frame_serviceReconnect : preserves I (serviceReconnect run).
Proof.
  pose proof frame_restore_session.
  unfold serviceReconnect, restore, restore_failed. frames.
Qed.
End retry.
End reset.
End framed.

(** A statement about members no assignment above touches, and which the handlers
    keep. *)
Lemma framed_plain (I : X → Prop) :
  (∀ w c x, I x → I (set_wire w c x.1, x.2)) →
  (∀ rs n x, I x → I (set_requests rs n x.1, x.2)) →
  (∀ f x, delivery_counter f → I x → I (with_stats f x.1, x.2)) →
  (∀ e x, I x → I (with_stats bump_abandoned (set_handlerFailure (Some e) x.1), x.2)) →
  (∀ d x, I x → I (set_outstanding d x.1, x.2)) → (∀ h d, preserves I (run h d)) → framed I.
Proof. intros Hw Hr Hs Ha Ho Hrun. split; [auto..|]. intros. apply frame_received; auto; intros; by apply Hw. Qed.
End frame.

(** ** Failures of handlers *)

(** What a run threw, and what is left waiting when these were stashed one after the
    other over what waited before. *)
Definition thrown {A} (o : outcome A) : list exn := match o with Throw e => [e] | _ => [] end.
Definition waiting (before : option exn) (failures : list exn) : option exn :=
  match last failures with Some e => Some e | None => before end.

Lemma waiting_app before l1 l2 : waiting before (l1 ++ l2) = waiting (waiting before l1) l2.
Proof. unfold waiting. rewrite last_app. by destruct (last l2). Qed.

(** [n] deliveries abandoned. *)
Definition abandon_all (n : nat) (count : Z) : Z := Nat.iter n incr64 count.

Lemma abandon_all_add m n count : abandon_all (m + n) count = abandon_all m (abandon_all n count).
Proof. unfold abandon_all. apply Nat.iter_add. Qed.

Section failures.
Context {W : Type} `{!AmqpLibrary W} {H S : Type} (run : Runner (AmqpCppTransport W H) H S)
  `{HC : !ConnState W (AmqpCppTransport W H * S)} (log : S → list exn).
Local Abbreviation T := (AmqpCppTransport W H).
Local Abbreviation X := (T * S)%type.

(** What the failure of a handler touches. *)
Definition failure_state (t : T) : option H * option exn * Z :=
  (_handler t, _handlerFailure t, abandoned (_stats t)).

(** Handlers whose failures the application writes down, and that do not pump or close
    the transport that calls them. *)
Definition logged : Prop := ∀ h d x, let '(o, x') := run h d x in
  log x'.2 = log x.2 ++ thrown o ∧ failure_state x'.1 = failure_state x.1.

(** Since [t0], with [l0] on record: the handler is there, each failure is counted as
    an abandoned delivery and the last of them waits. *)
Definition accounted (t0 : T) (l0 : list exn) (x : X) : Prop :=
  ∃ failures, log x.2 = l0 ++ failures ∧ _handler x.1 = _handler t0 ∧
    abandoned (_stats x.1) = abandon_all (length failures) (abandoned (_stats t0)) ∧
    _handlerFailure x.1 = waiting (_handlerFailure t0) failures.

Context (t0 : T) (l0 : list exn).
Local Abbreviation I := (accounted t0 l0).
Context (I_world : ∀ w x, I x → I (AmqpConnection.set_world w x)).
Context (I_conn : ∀ c x, I x → evolves (get_conn x) c → I (set_conn c x)).

Lemma accounted_stats f x : delivery_counter f → I x → I (with_stats f x.1, x.2).
Proof.
  intros Hf (l & Hl & Hh & Ha & Hw). exists l. split_and!; [done|done| |done].
  cbn. by rewrite (proj2 (delivery_counter_keeps _ _ Hf)).
Qed.

Lemma accounted_received body tag redelivered :
  is_Some (_handler t0) → logged → preserves I (onReceived run body tag redelivered).
Proof.
  intros [h0 Hh0] Hlog x Hx. unfold onReceived, modify_t. run.
  set (x1 := (with_stats count_received x.1, x.2)).
  assert (Hx1 : I x1) by (by apply (accounted_stats count_received); [constructor|]).
  clearbody x1. destruct Hx1 as (l & Hl & Hh & Ha & Hw).
  unfold try_catch, invoke_handler, get_t. run. rewrite Hh, Hh0.
  pose proof (Hlog h0 (mkDelivery body redelivered tag) x1) as Hrun.
  destruct (run h0 _ x1) as [o x2]. destruct Hrun as [Hl2 [= Hh2 Hw2 Ha2]].
  destruct o as [d|e|]; cbn [thrown] in Hl2; rewrite ?app_nil_r in Hl2.
  - apply frame_resolve; [done|done|apply accounted_stats|done|].
    exists l. split_and!; congruence.
  - exists (l ++ [e]). split_and!.
    + cbn. by rewrite Hl2, Hl, app_assoc.
    + cbn. congruence.
    + cbn. rewrite Ha2, Ha, length_app, Nat.add_comm. done.
    + cbn. by rewrite waiting_app.
  - cbn [snd]. exists l. split_and!; congruence.
Qed.
End failures.

(** ** Properties *)

Section properties.
Context {W : Type} `{!AmqpLibrary W} {H S : Type} (run : Runner (AmqpCppTransport W H) H S).
Local Abbreviation T := (AmqpCppTransport W H).
Local Abbreviation X := (T * S)%type.

(** One level of recursion is all [declare] ever uses. *)
Lemma declare_depth n topic options timeout x :
  declare_fuel run (2 + n) topic options timeout x = declare run topic options timeout x.
Proof. reflexivity. Qed.

Lemma require_channel_Ret op ch (x x' : X) :
  require_channel op x = (Ret ch, x') → x' = x ∧ _channel x.1 = Some ch.
Proof.
  unfold require_channel, get_t. run. cbn. by destruct (_channel x.1); intros [= -> <-].
Qed.

(** *** Routes *)

(** The route a declaration records. *)
Definition bind_route (topic : Topic) (options : TopicOptions)
    (routes : gmap string RouteBinding) : gmap string RouteBinding :=
  if is_empty (group options) then routes
  else <[topic := mkRouteBinding (group options)
           (if is_empty (route options) then topic else route options)]> routes.

Section routes.
Context (keeps_routes : ∀ h d R, preserves (λ x : X, _routes x.1 = R) (run h d)).

Lemma ask_routes f r step timeout failure timed_out x o x' :
  ask run f r step timeout failure timed_out x = (o, x') → _routes x'.1 = _routes x.1.
Proof.
  intros Ha. pose proof (frame_ask run (λ y, _routes y.1 = _routes x.1)) as Hf.
  specialize (Hf ltac:(apply framed_plain; auto) f r step timeout failure timed_out x eq_refl).
  by rewrite Ha in Hf.
Qed.

Lemma declare_destination_routes topic options timeout x n x' :
  declare_destination run topic options timeout x = (Ret n, x') →
  _routes x'.1 = bind_route topic options (_routes x.1).
Proof.
  unfold declare_destination, bind_route.
  intros (r & x1 & Hr & Hd)%M_bind_Ret. injection Hr as <- <-.
  apply M_bind_Ret in Hd as ([] & x2 & Hexchange & Hd).
  apply M_bind_Ret in Hd as ([] & x3 & Hqueue & Hd).
  apply M_bind_Ret in Hd as ([] & x4 & Hbind & Hd). injection Hd as _ <-.
  apply ask_routes in Hqueue as H3.
  destruct (is_empty (group options)).
  - injection Hexchange as <-. injection Hbind as <-. by rewrite H3.
  - apply ask_routes in Hexchange as H2. apply M_bind_Ret in Hbind as ([] & x5 & Hb & Hbind). injection Hbind as <-.
    apply ask_routes in Hb as H5. cbn in H2, H5 |- *.
    by rewrite H5, H3, H2.
Qed.

Lemma declare_routes topic options timeout x n x' :
  declare run topic options timeout x = (Ret n, x') →
  _routes x'.1 = bind_route topic options
    (if deadLetter options
     then bind_route (deadLetterTopic topic) (forensicTopicOptions topic) (_routes x.1)
     else _routes x.1).
Proof.
  unfold declare. simpl. intros (ch & x1 & Hch & Hd)%M_bind_Ret.
  apply require_channel_Ret in Hch as [-> _]. apply M_bind_Ret in Hd as ([] & x2 & Hf & Hd).
  apply declare_destination_routes in Hd as ->. f_equal.
  destruct (deadLetter options); [|by injection Hf as <-].
  apply M_bind_Ret in Hf as (n' & x3 & Hf & Hx). injection Hx as <-.
  apply M_bind_Ret in Hf as (ch' & x4 & Hch' & Hf). apply require_channel_Ret in Hch' as [-> _].
  exact (declare_destination_routes _ _ _ _ _ _ Hf).
Qed.

Lemma deadLetterTopic_ne topic : deadLetterTopic topic ≠ topic.
Proof.
  intros Heq. apply (f_equal String.length) in Heq. unfold deadLetterTopic in Heq.
  rewrite length_app_string in Heq. simpl in Heq. lia.
Qed.

(** Publishers follow declarations.  Once a topic is declared into a group, whatever
    is sent to it goes to that group's exchange under the declared key -- the topic
    name when none was given -- or under the key the message overrides it with; its
    forensic destination is reachable through the dead-letter exchange under the
    source's name; a declaration without a group moves nothing, and no declaration
    redirects another topic. *)
Lemma published_as_declared topic options timeout x x' :
  ensureTopic run topic options timeout x = (Ret tt, x') →
  (∀ so, group options ≠ "" → destination x'.1 topic so =
    (group options,
     if negb (is_empty (send_route so)) then send_route so
     else if is_empty (route options) then topic else route options)) ∧
  (∀ so, group options = "" → destination x'.1 topic so = destination x.1 topic so) ∧
  (deadLetter options = true → topic ≠ "" →
    destination x'.1 (deadLetterTopic topic) default_SendOptions = (kDeadLetterExchange, topic)) ∧
  (∀ other so, other ≠ topic → other ≠ deadLetterTopic topic →
    destination x'.1 other so = destination x.1 other so).
Proof.
  unfold ensureTopic. intros (n & x1 & Hd & Hx)%M_bind_Ret. injection Hx as <-.
  apply declare_routes in Hd. unfold destination. cbn [fst _routes set_topic]. rewrite Hd. clear Hd.
  pose proof (deadLetterTopic_ne topic) as Hne.
  set (R := if deadLetter options then _ else _).
  assert (HR : ∀ other, other ≠ deadLetterTopic topic → R !! other = _routes x.1 !! other).
  { intros other Ho. unfold R. destruct (deadLetter options); [|done]. unfold bind_route. cbn.
    by rewrite lookup_insert_ne. }
  unfold bind_route. split_and!.
  - intros so Hg. apply is_empty_false in Hg. rewrite Hg, lookup_insert_eq.
    cbn [binding_group binding_key]. rewrite Hg, andb_true_r. by destruct (is_empty (send_route so)).
  - intros so Hg. apply is_empty_true in Hg. rewrite Hg. by rewrite HR.
  - intros Hdl Htopic. assert (R !! deadLetterTopic topic =
      Some (mkRouteBinding kDeadLetterExchange topic)) as HRd.
    { unfold R. rewrite Hdl. unfold bind_route. cbn [group forensicTopicOptions route].
      apply is_empty_false in Htopic. rewrite Htopic.
      change (is_empty kDeadLetterExchange) with false.
      cbv beta iota. by rewrite lookup_insert_eq. }
    destruct (is_empty (group options)); [|rewrite lookup_insert_ne by done]; by rewrite HRd.
  - intros other so Ho1 Ho2. destruct (is_empty (group options)); [|rewrite lookup_insert_ne by done];
      by rewrite HR.
Qed.
End routes.

(** *** Sending *)

(** What [send] does.  Without a channel, or asked for a confirmation it cannot
    give, it refuses and touches nothing.  Otherwise the payload is handed to the
    library exactly once, at [destination] and with the asked persistence; the send
    is counted exactly when the library accepted it, and apart from that counter
    only the connection and the world can have changed. *)
Theorem send_outcome topic payload so (x : X) :
  (_channel x.1 = None ∨ send_confirm so = true →
   ∃ what, send topic payload so x = (Throw (logic_error what), x)) ∧
  (∀ ch, _channel x.1 = Some ch → send_confirm so = false →
   let '(exchange, routingKey) := destination x.1 topic so in
   let '(o, x1) := call (channel_publish ch exchange routingKey payload (send_durable so)) x in
   (∃ w c, x1 = (set_wire w c x.1, x.2)) ∧
   send topic payload so x =
     match o with
     | Ret true => (Ret true, (with_stats count_sent x1.1, x1.2))
     | _ => (o, x1)
     end).
Proof.
  unfold send, require_channel, get_t. run. cbn. split.
  - intros Hor. destruct (_channel x.1) as [ch|] eqn:Hch; [|by eexists].
    destruct Hor as [?|Hc]; [done|]. cbn. rewrite Hc. cbn. by eexists.
  - intros ch Hch Hc. rewrite Hch. cbn. rewrite Hc. cbn.
    destruct (destination x.1 topic so) as [exchange key].
    destruct (call_wire (channel_publish ch exchange key payload (send_durable so)) x)
      as (w & c & Hw).
    destruct (call _ x) as [[[]|e|] x1]; cbn in Hw |- *; (split; [by exists w, c|done]).
Qed.

(** *** Deliveries *)

(** The library call a disposition becomes. *)
Definition action (ch : Channel) (tag : Z) (d : Disposition) : W → Activity W ConnCallback unit :=
  match d with
  | Ack => channel_ack ch tag
  | Requeue => channel_reject ch tag true
  | Reject => channel_reject ch tag false
  | Deferred => λ w, Finished (Ret tt) w
  end.

Lemma resolve_delivery_run tag d ch (x : X) :
  _channel x.1 = Some ch → d ≠ Deferred →
  resolve_delivery tag d x =
    match call (action ch tag d) x with
    | (Ret _, x1) => (Ret tt, (with_stats (bump_disposition d) x1.1, x1.2))
    | (Throw e, x1) => (Throw e, x1)
    | (Undefined, x1) => (Undefined, x1)
    end.
Proof.
  intros Hch Hd. unfold resolve_delivery, the_channel, get_t, modify_t, action.
  destruct d; [..|done]; run; rewrite Hch; by destruct (call _ x) as [[[]|e|] x1].
Qed.

(** How one delivery is answered, inside the parser.  A handler that throws resolves
    nothing and its exception stays out of the parser: it is stashed, the delivery
    counted as abandoned, and the library is not called, so the broker still holds
    it.  A deferred delivery is remembered under its tag, again with no call.  Any
    other answer becomes exactly one library call, counted only when that call
    returned. *)
Lemma delivery_answered body tag redelivered (x : X) :
  let x1 := (with_stats count_received x.1, x.2) in
  match invoke_handler run (mkDelivery body redelivered tag) x1 with
  | (Throw e, x2) => onReceived run body tag redelivered x =
      (Ret tt, (with_stats bump_abandoned (set_handlerFailure (Some e) x2.1), x2.2))
  | (Ret Deferred, x2) => onReceived run body tag redelivered x =
      (Ret tt, (set_outstanding ({[tag]} ∪ _outstandingDeferred x2.1) x2.1, x2.2))
  | (Ret d, x2) => ∀ ch, _channel x2.1 = Some ch →
      let '(o, x3) := call (action ch tag d) x2 in
      (∃ w c, x3 = (set_wire w c x2.1, x2.2)) ∧
      onReceived run body tag redelivered x =
        match o with
        | Ret _ => (Ret tt, (with_stats (bump_disposition d) x3.1, x3.2))
        | _ => (o, x3)
        end
  | (Undefined, _) => True
  end.
Proof.
  cbv zeta. unfold onReceived, modify_t. run.
  set (x1 := (with_stats count_received x.1, x.2)).
  destruct (invoke_handler run _ x1) as [[d|e|] x2]; [|done..].
  assert (Hcall : ∀ ch, d ≠ Deferred → _channel x2.1 = Some ch →
    let '(o, x3) := call (action ch tag d) x2 in
    (∃ w c, x3 = (set_wire w c x2.1, x2.2)) ∧
    resolve_delivery tag d x2 = match o with
      | Ret _ => (Ret tt, (with_stats (bump_disposition d) x3.1, x3.2)) | _ => (o, x3) end).
  { intros ch Hd Hch. rewrite (resolve_delivery_run tag d ch x2 Hch Hd).
    destruct (call_wire (action ch tag d) x2) as (w & c & Hw).
    destruct (call _ x2) as [[[]|e|] x3]; cbn in Hw |- *; (split; [by exists w, c|done]). }
  destruct d; [intros ch Hch; by apply Hcall..|]. done.
Qed.
(** The failures of a whole run of the pump, reconnections included. *)
Section surfacing.
Context (log : S → list exn) (t0 : T) (l0 : list exn).
Context (t0_handler : is_Some (_handler t0)) (run_logged : logged run log).

Lemma accounted_framed : framed run (accounted log t0 l0).
Proof. split; [done..|]. intros. by apply accounted_received. Qed.

Lemma accounted_dying body tag redelivered :
  preserves (λ y : T * (S * AmqpConnection), accounted log t0 l0 (y.1, y.2.1))
    (@onReceived _ _ _ _ (run_dying run) dying_conn body tag redelivered).
Proof.
  apply (@accounted_received W _ H _ (run_dying run) dying_conn (λ s, log s.1) t0 l0); try done.
  intros h d [t [s c]]. unfold run_dying. specialize (run_logged h d (t, s)).
  cbn in *. by destruct (run h d (t, s)) as [o x'].
Qed.

Lemma accounted_service : preserves (accounted log t0 l0) (serviceReconnect run).
Proof.
  apply frame_serviceReconnect; [apply accounted_framed|done|apply accounted_dying|done..].
Qed.

Lemma accounted_pumping predicate slice :
  preserves (accounted log t0 l0) (pumpUntil run predicate slice).
Proof. apply frame_pumping, accounted_framed. Qed.
End surfacing.

(** C33. Where a handler's failure goes.  Every handler that throws during a [pump] -- in
    its slice or while it reconnects -- has its delivery counted as abandoned and its
    exception, that very one, put in the place of any still waiting.  When [pump] is
    over, the last one is waiting, or it was thrown, once, and none is waiting any
    more; and a live connection's slice that ends with one waiting ends the [pump]
    with that exception, outside the library's parser and before any reconnection. *)
Theorem handler_failure_surfaces (log : S → list exn) slice x :
  is_Some (_handler x.1) → logged run log →
  (let '(o, x') := pump run slice x in
   ∃ failures, log x'.2 = log x.2 ++ failures ∧
     abandoned (_stats x'.1) = abandon_all (length failures) (abandoned (_stats x.1)) ∧
     (_handlerFailure x'.1 = waiting (_handlerFailure x.1) failures ∨
      ∃ e, waiting (_handlerFailure x.1) failures = Some e ∧ o = Throw e ∧
        _handlerFailure x'.1 = None)) ∧
  (∀ c b x1 e, _connection x.1 = Some c → closed c = false →
    pumpUntil run (λ _, false) slice x = (Ret b, x1) → _handlerFailure x1.1 = Some e →
    pump run slice x = (Throw e, (set_handlerFailure None x1.1, x1.2))).
Proof.
  intros Hh Hlog. split.
  - assert (Hx : accounted log x.1 (log x.2) x)
      by (exists []; split_and!; [by rewrite app_nil_r|done..]).
    pose proof (accounted_service log x.1 (log x.2) Hh Hlog) as Hservice.
    pose proof (accounted_pumping log x.1 (log x.2) Hh Hlog (λ _, false) slice x Hx) as Hpump.
    assert (Hdone : ∀ o x', accounted log x.1 (log x.2) x' → ∃ failures, log x'.2 = log x.2 ++ failures ∧
      abandoned (_stats x'.1) = abandon_all (length failures) (abandoned (_stats x.1)) ∧
      (_handlerFailure x'.1 = waiting (_handlerFailure x.1) failures ∨
       ∃ e, waiting (_handlerFailure x.1) failures = Some e ∧ o = Throw (A:=bool) e ∧
         _handlerFailure x'.1 = None)) by (intros o x' (l & ? & ? & ? & ?); eauto 6).
    unfold pump, get_t. run. unfold id.
    destruct (match _connection x.1 with Some c => _ | None => _ end).
    { destruct (negb _); [by apply Hdone|]. specialize (Hservice x Hx).
      destruct (serviceReconnect run x). by apply Hdone. }
    destruct (pumpUntil _ _ _ x) as [[b|e|] x1]; cbn in Hpump; [|by apply Hdone..].
    unfold after_slice, get_t, modify_t. run. destruct (_handlerFailure x1.1) as [e|] eqn:He.
    + destruct Hpump as (l & Hl & _ & Ha & Hw). exists l. split_and!; [done|done|]. right.
      exists e. by rewrite <- Hw.
    + unfold id. destruct (_connection x1.1); [|by apply Hdone].
      destruct (_ && _); [|by apply Hdone]. specialize (Hservice x1 Hpump).
      destruct (serviceReconnect run x1). by apply Hdone.
  - intros c b x1 e Hc Hcl Hp He. unfold pump, get_t. run. unfold id. rewrite Hc, Hcl, Hp.
    unfold after_slice, get_t, modify_t. run. by rewrite He.
Qed.

(** *** Settling *)

Lemma settle_unknown tag d ch (y : X) :
  _channel y.1 = Some ch → d ≠ Deferred → tag ∉ _outstandingDeferred y.1 →
  ∃ what, settle tag d y = (Throw (logic_error what), y).
Proof.
  intros Hy Hd Hout. unfold settle, require_channel, get_t. run. rewrite Hy.
  rewrite (bool_decide_false (d = Deferred)) by done. cbn.
  rewrite bool_decide_false by done. cbn. by eexists.
Qed.

Lemma settle_known tag d ch (y : X) :
  _channel y.1 = Some ch → d ≠ Deferred → tag ∈ _outstandingDeferred y.1 →
  settle tag d y =
    resolve_delivery tag d (set_outstanding (_outstandingDeferred y.1 ∖ {[tag]}) y.1, y.2).
Proof.
  intros Hy Hd Hin. unfold settle, require_channel, get_t, modify_t. run. rewrite Hy.
  rewrite (bool_decide_false (d = Deferred)) by done. cbn.
  rewrite bool_decide_true by done. cbn. by destruct d.
Qed.

(** A deferred delivery is settled at most once.  Settling an unknown tag is refused
    before anything is touched.  Settling an outstanding one forgets the tag first,
    makes exactly the library call of the disposition and counts it when the call
    returned; from then on -- even if the call failed -- the same tag is refused. *)
Lemma settle_once tag d ch (x : X) :
  _channel x.1 = Some ch → d ≠ Deferred →
  let known := _outstandingDeferred x.1 in
  let x' := (settle tag d x).2 in
  (tag ∉ known → ∃ what, settle tag d x = (Throw (logic_error what), x)) ∧
  (tag ∈ known →
    (let '(o, x1) := call (action ch tag d) (set_outstanding (known ∖ {[tag]}) x.1, x.2) in
     settle tag d x = match o with
       | Ret _ => (Ret tt, (with_stats (bump_disposition d) x1.1, x1.2))
       | _ => (o, x1)
       end) ∧
    _outstandingDeferred x'.1 = known ∖ {[tag]} ∧
    ∀ d', d' ≠ Deferred → ∃ what, settle tag d' x' = (Throw (logic_error what), x')).
Proof.
  clear run. intros Hch Hd known x'. split; [by apply (settle_unknown _ _ ch)|]. intros Hin.
  set (x0 := (set_outstanding (known ∖ {[tag]}) x.1, x.2)).
  pose proof (settle_known tag d ch x Hch Hd Hin) as Hrun. fold known x0 in Hrun.
  unfold x'. rewrite Hrun, (resolve_delivery_run tag d ch x0 Hch Hd).
  destruct (call_wire (action ch tag d) x0) as (w & c & Hw).
  split; [by destruct (call _ x0) as [[]]|].
  assert (Hx' : ∀ y : X, y = (match call (action ch tag d) x0 with
      | (Ret _, x1) => (Ret (A:=unit) tt, (with_stats (bump_disposition d) x1.1, x1.2))
      | (Throw e, x1) => (Throw e, x1)
      | (Undefined, x1) => (Undefined, x1)
      end).2 → _outstandingDeferred y.1 = known ∖ {[tag]} ∧ _channel y.1 = Some ch).
  { intros y ->. by destruct (call _ x0) as [[]]; cbn in Hw |- *; subst. }
  destruct (Hx' _ eq_refl) as [Hout Hchan]. split; [exact Hout|].
  intros d' Hd'. apply (settle_unknown _ _ ch); [done|done|]. rewrite Hout. set_solver.
Qed.

(** *** Reconnection *)

(** What was asked for. *)
Definition identity (t : T) :
    Endpoint * ReconnectPolicy * Topic * TopicOptions * bool * bool * option H :=
  (_endpoint t, _policy t, _topic t, _topicOptions t, _topicDeclared t, _subscribed t, _handler t).

(** ... and the state of the retries. *)
Definition attempts (t : T) : Z * Z * Z :=
  (_failedAttempts t, _nextAttempt t, reconnects (_stats t)).

Lemma restore_frozen x :
  (∀ h d k, preserves (λ x : X, (identity x.1, attempts x.1) = k) (run h d)) →
  (identity (restore_session run x).2.1, attempts (restore_session run x).2.1) =
    (identity x.1, attempts x.1).
Proof.
  intros Hrun. set (I := λ y : X, (identity y.1, attempts y.1) = (identity x.1, attempts x.1)).
  apply (frame_restore_session run I); try done;
    [apply framed_plain|apply (frame_dying run I)]; try done; try (intros h d; exact (Hrun h d _));
    intros f y Hf Hy; unfold I in *; rewrite <- Hy; unfold attempts; cbn; by rewrite (proj1 (delivery_counter_keeps _ _ Hf)).
Qed.

(** The state in which an attempt starts, its failure counted in advance. *)
Definition attempting (x : X) : X :=
  (set_retry (_policy x.1) (_failedAttempts x.1 + 1) (_nextAttempt x.1)
     (set_wire (steady_now (world x.1)).2 (_connection x.1) x.1), x.2).

(** One call of [serviceReconnect].  Whatever the network and the broker do, what was
    asked for -- endpoint, policy, topic and its options, subscription, handler --
    is unchanged.  It answers [false] only when no attempt is allowed, changing
    nothing; it answers [true] either because the back-off has not elapsed (no
    attempt, nothing but the clock read), or after one attempt: a success clears the
    count of consecutive failures and is counted, a failure adds one and schedules
    the next attempt by the back-off. *)
Lemma service_attempt (x : X) :
  (∀ h d k, preserves (λ x : X, (identity x.1, attempts x.1) = k) (run h d)) →
  0 ≤ _failedAttempts x.1 → _failedAttempts x.1 + 1 < 2 ^ 32 →
  let may_try := enabled (_policy x.1) = true ∧ _failedAttempts x.1 < maxAttempts (_policy x.1) in
  let '(o, x') := serviceReconnect run x in
  identity x'.1 = identity x.1 ∧
  match o with
  | Ret false => x' = x ∧ ¬ may_try
  | Ret true => may_try ∧
      ((x' = (set_wire (steady_now (world x.1)).2 (_connection x.1) x.1, x.2) ∧
        (steady_now (world x.1)).1 < _nextAttempt x.1) ∨
       ((steady_now (world x.1)).1 >= _nextAttempt x.1 ∧ _failedAttempts x'.1 = 0 ∧
        _nextAttempt x'.1 = _nextAttempt x.1 ∧
        reconnects (_stats x'.1) = incr64 (reconnects (_stats x.1))) ∨
       ((steady_now (world x.1)).1 >= _nextAttempt x.1 ∧
        _failedAttempts x'.1 = _failedAttempts x.1 + 1 ∧
        reconnects (_stats x'.1) = reconnects (_stats x.1) ∧
        ∃ d, backoff (_policy x.1) (_failedAttempts x.1 + 1) = Ret d ∧
          _nextAttempt x'.1 = (steady_now (world (restore_session run (attempting x)).2.1)).1 +
            d * ticks_per_ms))
  | Throw e => is_std e = false
  | Undefined => True
  end.
Proof.
  intros Hrun H0 H1. unfold serviceReconnect, get_t, modify_t. run. unfold id.
  destruct (enabled (_policy x.1)) eqn:He; cbn [negb]; [|by split; [|split; [|intros [? ?]]]].
  case_bool_decide as Hmax; [by split; [|split; [|intros [? ?]; lia]]|].
  unfold now, on_pure, on_world. cbn [get_world transport_conn AmqpConnection.set_world].
  destruct (steady_now (world x.1)) as [n w] eqn:Hnow. cbn.
  case_bool_decide as Hwait.
  { split; [done|]. split; [split; [done|lia]|]. by left. }
  cbn [fst snd set_wire _policy _failedAttempts _nextAttempt]. rewrite u32_small by lia.
  unfold attempting. rewrite Hnow. cbn [snd].
  match goal with |- context [restore run ?y] => set (x1 := y) end.
  unfold restore. run.
  pose proof (restore_frozen x1 Hrun) as Hf.
  destruct (restore_session run x1) as [[[]|e|] x2]; cbn in Hf; injection Hf as ?????????? ;
    (assert (Hid : identity x2.1 = identity x.1) by (unfold identity; congruence)).
  - cbn. split; [done|]. split; [split; [done|lia]|]. right. left. split_and!; [cbn; lia|done|congruence|congruence].
  - destruct (is_std e) eqn:Hstd; [|by split].
    unfold restore_failed, get_t, modify_t, now, on_pure, on_world. run. unfold id.
    assert (Hpol : _policy x2.1 = _policy x.1) by congruence.
    assert (Hfail : _failedAttempts x2.1 = _failedAttempts x.1 + 1) by congruence.
    rewrite Hpol, Hfail.
    destruct (backoff (_policy x.1) (_failedAttempts x.1 + 1)) as [d|e'|] eqn:Hb.
    + cbn [snd fst get_world transport_conn AmqpConnection.set_world].
      destruct (steady_now (world x2.1)) as [n2 w2]. cbn.
      split; [done|]. split; [split; [done|lia]|]. right. right.
      split; [cbn; lia|]. split; [done|]. split; [congruence|]. by exists d.
    + exfalso. revert Hb. unfold backoff, shl64. run. by repeat case_match.
    + by split.
  - by split.
Qed.

(** C34. A half-open connection is never retried.  Once a connection object exists that
    is not closed -- as after an attempt that timed out in the handshake or in the
    redeclaration -- a silent peer keeps [pump] answering [true] with everything but
    the world unchanged: no channel is opened, no attempt is made and none is counted,
    whatever the reconnection policy says. *)
Theorem half_open_never_retried (silent : W → Prop) slice c (x : X) :
  (∀ w, silent w → silent (steady_now w).2) →
  (∀ timeout w, silent w → ∃ w', async_read timeout w = (None, w') ∧ silent w') →
  _connection x.1 = Some c → closed c = false → _handlerFailure x.1 = None → silent (world x.1) →
  ∃ w', pump run slice x = (Ret true, (set_wire w' (Some c) x.1, x.2)) ∧ silent w'.
Proof.
  intros Hclock Hread Hc Hcl Hf Hw. destruct x as [t s]. cbn in Hc, Hf, Hw.
  unfold pump, get_t. run. unfold id. rewrite Hc, Hcl.
  assert (∃ w', pumpUntil run (λ _, false) slice (t, s) =
    (Ret false, (set_wire w' (Some c) t, s)) ∧ silent w') as (w' & Hp & Hw').
  { unfold pumpUntil, get_t. run. rewrite Hc.
    unfold AmqpConnection.pumpUntil, pump_fuel, on_pure, on_world. run. simpl.
    apply Hclock in Hw. destruct (steady_now (world t)) as [start w1].
    unfold on_pure, on_world. run. simpl.
    apply Hclock in Hw. simpl in Hw. destruct (steady_now w1) as [n w2]. run. simpl.
    case_bool_decide; [by exists w2; rewrite Hc|].
    unfold pumpOnce, on_pure, on_world. run. simpl.
    destruct (Hread (Z.quot (start + slice * ticks_per_ms - n) ticks_per_ms) w2 Hw) as (w3 & -> & ?).
    exists w3. by rewrite Hc. }
  exists w'. split; [|done]. rewrite Hp. unfold after_slice, get_t. run.
  cbn [set_wire _handlerFailure]. rewrite Hf. run. unfold id.
  cbn [set_wire _connection]. by rewrite Hcl.
Qed.

(** *** Teardown *)

(** C35. Closing over a lost peer.  The channel writes a frame as it dies.  If the end of
    the connection was noticed, that write is silent and the channel is simply gone;
    if it was not -- the peer vanished but nothing has been read since -- and the
    write fails, the exception meets the destructor of the channel and the program
    is terminated, from [close] and from the transport's own destructor alike,
    whose [catch] comes too late. *)
Theorem close_over_lost_peer c ch timeout (x : X) :
  _connection x.1 = Some c → _channel x.1 = Some ch →
  (closed c = true → (∀ w, soft (Channel_release ch w)) →
   ∃ x', reset_channel x = (Ret tt, x') ∧ _channel x'.1 = None) ∧
  (∀ data w resume message w', closed c = false →
   Channel_release ch (world x.1) = Calls (call_onData data) w resume →
   socket_write data w = (Some message, w') →
   (close run timeout x).1 = Undefined ∧ (destroy run x).1 = Undefined).
Proof.
  intros Hc Hch. split.
  - intros Hcl Hsoft. unfold reset_channel, get_t, modify_t. run. rewrite Hch. run.
    set (x0 := (_, _)).
    assert (Hcl0 : closed (get_conn x0) = true) by (cbn; unfold the_conn; cbn; by rewrite Hc).
    destruct (call_noexcept_closed (Channel_release ch) x0 Hcl0 Hsoft) as ([] & x' & Hx' & _).
    destruct (call_noexcept_wire (Channel_release ch) x0) as (w & c' & Hw).
    exists x'. split; [done|]. rewrite Hx' in Hw. cbn in Hw. by rewrite Hw.
  - intros data w resume message w' Hcl Hrel Hwrite.
    assert (Hreset : ∀ d, (reset_channel (set_outstanding d x.1, x.2)).1 = Undefined).
    { intros d. unfold reset_channel, get_t, modify_t. run. cbn [_channel set_outstanding].
      rewrite Hch. run. set (x0 := (_, _)).
      assert (Hcl0 : closed (get_conn x0) = false) by (cbn; unfold the_conn; cbn; by rewrite Hc).
      destruct (call_live_failure (Channel_release ch) x0 data w resume message w' Hcl0 Hrel Hwrite)
        as (x' & Hx' & _). unfold call_noexcept, try_catch. by rewrite Hx'. }
    split.
    + unfold close, modify_t. run. specialize (Hreset ∅).
      by destruct (reset_channel _) as [[[]|e|] x'].
    + assert (Hself : (set_outstanding (_outstandingDeferred x.1) x.1, x.2) = x)
        by (by destruct x as [[] ?]).
      specialize (Hreset (_outstandingDeferred x.1)). rewrite Hself in Hreset.
      unfold destroy, try_catch. run. by destruct (reset_channel x) as [[[]|e|] x'].
Qed.
End properties.

(** ** The properties on the toy library *)

Module Demo.
Import Sample.

Local Abbreviation T := (AmqpCppTransport Wire (option Disposition)).

(** A handler is its answer, or a worker that dies. *)
Definition run : Runner T (option Disposition) unit := λ h d x,
  (match h with Some d => Ret d | None => Throw (runtime_error "worker died") end, x).

Definition start : T * unit := (new_AmqpCppTransport (wire true []), tt).
Definition connected : T * unit := (connect run default_Endpoint 1000 start).2.

(** The peer's script changes. *)
Definition with_wire (f : Wire → Wire) (x : T * unit) : T * unit :=
  (set_wire (f (world x.1)) (_connection x.1) x.1, x.2).

Definition grouped : TopicOptions :=
  mkTopicOptions true true false true 0 DropHead "plant" "pump.#" Pattern.

Definition declared : T * unit := (ensureTopic run "jobs" grouped 1000 connected).2.
Definition retrying : T * unit :=
  (setReconnectPolicy (mkReconnectPolicy true 5 250 5000) declared).2.
Definition subscribed (h : option Disposition) : T * unit :=
  (subscribe run "jobs" (Some h) 1000 retrying).2.
Definition delivering (h : option Disposition) : T * unit := with_wire (says "D") (subscribed h).

(** The peer vanishes, and a pump notices and fails to reconnect; then it is back but
    never completes a handshake, and the next attempt times out. *)
Definition lost : T * unit := with_wire (set_up false) (subscribed (Some Ack)).
Definition down : T * unit := (pump run 100 lost).2.
Definition mute (x : T * unit) : T * unit :=
  with_wire (λ w, tick 10000 (set_script "" "" (set_up true w))) x.
Definition half_open : T * unit := (pump run 100 (mute down)).2.

Lemma published_as_declared_witness :
  (ensureTopic run "jobs" grouped 1000 connected).1 = Ret tt ∧
  destination declared.1 "jobs" default_SendOptions = ("plant", "pump.#") ∧
  destination declared.1 (deadLetterTopic "jobs") default_SendOptions = (kDeadLetterExchange, "jobs").
Proof.
  assert (He : ensureTopic run "jobs" grouped 1000 connected = (Ret tt, declared))
    by (vm_compute; reflexivity).
  destruct (published_as_declared run (λ _ _ _ _ H, H) "jobs" grouped 1000 connected declared He)
    as (H1 & _ & H2 & _).
  split; [by rewrite He|]. split; [by apply H1|by apply H2].
Defined.

Lemma send_outcome_witness :
  (send "jobs" "x" default_SendOptions start).2 = start ∧
  (send "jobs" "x" default_SendOptions declared).1 = Ret true ∧
  sent (_stats (send "jobs" "x" default_SendOptions declared).2.1) = 1.
Proof.
  split; [destruct (send_outcome (S:=unit) "jobs" "x" default_SendOptions start) as [H _];
    destruct H as [what ->]; [by left|done]|].
  assert (Hch : _channel declared.1 = Some tt) by (vm_compute; reflexivity).
  pose proof (proj2 (send_outcome "jobs" "x" default_SendOptions declared) _ Hch eq_refl) as H.
  assert (Hd : destination declared.1 "jobs" default_SendOptions = ("plant", "pump.#"))
    by (vm_compute; reflexivity).
  rewrite Hd in H. cbv beta iota in H.
  assert (Hcall : ∃ x1, call (channel_publish tt "plant" "pump.#" "x" true) declared = (Ret true, x1) ∧
    sent (_stats x1.1) = 0) by (eexists; split; vm_compute; reflexivity).
  destruct Hcall as (x1 & Hcall & Hs). cbn [send_durable default_SendOptions] in H.
  rewrite Hcall in H. destruct H as [_ H]. rewrite H.
  split; [reflexivity|]. cbn. rewrite Hs. reflexivity.
Defined.

Lemma delivery_answered_witness :
  (onReceived run "job" 1 false (subscribed None)).1 = Ret tt ∧
  _handlerFailure (onReceived run "job" 1 false (subscribed None)).2.1 =
    Some (runtime_error "worker died").
Proof.
  pose proof (delivery_answered run "job" 1 false (subscribed None)) as H. cbv zeta in H.
  assert (Hi : ∃ x2, invoke_handler run (mkDelivery "job" false 1)
    (with_stats count_received (subscribed None).1, (subscribed None).2) =
    (Throw (runtime_error "worker died"), x2)) by (eexists; vm_compute; reflexivity).
  destruct Hi as [x2 Hi]. rewrite Hi in H. rewrite H. split; reflexivity.
Defined.

(** The same handlers, in an application that keeps their failures. *)
Definition recording : Runner T (option Disposition) (list exn) := λ h d x,
  match h with
  | Some d => (Ret d, x)
  | None => (Throw (runtime_error "worker died"), (x.1, x.2 ++ [runtime_error "worker died"]))
  end.

Definition failing : T * list exn := ((delivering None).1, []).

Lemma recording_logged : logged recording id.
Proof. intros [d|] d' y; split; cbn; unfold id; rewrite ?app_nil_r; reflexivity. Qed.

Lemma failing_facts :
  is_Some (_handler failing.1) ∧ abandoned (_stats failing.1) = 0 ∧
  (∃ c, _connection failing.1 = Some c ∧ closed c = false) ∧
  (∃ x1, pumpUntil recording (λ _, false) 100 failing = (Ret false, x1) ∧
    _handlerFailure x1.1 = Some (runtime_error "worker died")) ∧
  (pump recording 100 failing).2.2 = [runtime_error "worker died"].
Proof. split_and!; [vm_compute; eauto|..|vm_compute; reflexivity]; vm_compute; eauto. Qed.

Lemma handler_failure_surfaces_witness :
  (pump recording 100 failing).1 = Throw (runtime_error "worker died") ∧
  abandoned (_stats (pump recording 100 failing).2.1) = 1.
Proof.
  destruct failing_facts as (Hh & Ha0 & (c & Hc & Hcl) & (x1 & Hp & He) & Hlog).
  destruct (handler_failure_surfaces recording id 100 failing Hh recording_logged) as [H1 H2].
  split; [by rewrite (H2 c false x1 _ Hc Hcl Hp He)|].
  destruct (pump recording 100 failing) as [o x']. destruct H1 as (l & Hl & Ha & _).
  cbn [snd fst] in *. rewrite Ha, Ha0. change (x'.2 = [] ++ l) in Hl. rewrite Hlog in Hl. cbn in Hl.
  subst l. reflexivity.
Defined.

(** A delivery deferred by its handler. *)
Definition deferring : T * unit := (pump run 100 (delivering (Some Deferred))).2.

Lemma settle_once_witness :
  _outstandingDeferred deferring.1 = {[1]} ∧
  _outstandingDeferred (settle 1 Ack deferring).2.1 = ∅ ∧
  ∃ what, settle 1 Reject (settle 1 Ack deferring).2 =
    (Throw (logic_error what), (settle 1 Ack deferring).2).
Proof.
  assert (Hch : _channel deferring.1 = Some tt) by (vm_compute; reflexivity).
  assert (Hk : _outstandingDeferred deferring.1 = {[1]}) by (vm_compute; reflexivity).
  destruct (settle_once 1 Ack _ deferring Hch ltac:(done)) as [_ H].
  rewrite Hk in H. destruct (H ltac:(set_solver)) as (_ & H1 & H2).
  split; [done|]. split; [rewrite H1; vm_compute; reflexivity|]. by apply H2.
Defined.

Lemma service_attempt_witness :
  identity (serviceReconnect run (with_wire (tick 10000) down)).2.1 =
    identity (subscribed (Some Ack)).1 ∧
  _failedAttempts down.1 = 1 ∧
  (serviceReconnect run (with_wire (λ w, set_up true (tick 10000 w)) down)).1 = Ret true ∧
  reconnects (_stats (serviceReconnect run (with_wire (λ w, set_up true (tick 10000 w)) down)).2.1) = 1.
Proof.
  split; [|split; [vm_compute; reflexivity|split; vm_compute; reflexivity]].
  pose proof (service_attempt run (with_wire (tick 10000) down) (λ _ _ _ _ H, H)) as H.
  destruct (serviceReconnect run (with_wire (tick 10000) down)) as [o x'].
  destruct H as [H _]; [vm_compute; by intros|by vm_compute|]. cbn [snd]. rewrite H.
  vm_compute. reflexivity.
Defined.

Lemma half_open_never_retried_witness :
  (_failedAttempts half_open.1 = 2 ∧ ready half_open.1 = false ∧ _channel half_open.1 = None) ∧
  (∃ w' c, pump run 250 half_open = (Ret true, (set_wire w' (Some c) half_open.1, half_open.2))) ∧
  (let late := (pump run 250 (with_wire (says "R") half_open)).2.1 in
   ready late = true ∧ _channel late = None).
Proof.
  split; [vm_compute; auto|]. split; [|vm_compute; auto].
  assert (Hc : ∃ c, _connection half_open.1 = Some c ∧ closed c = false)
    by (eexists; split; vm_compute; reflexivity).
  destruct Hc as (c & Hc & Hcl).
  destruct (half_open_never_retried run
    (λ w, wire_reads w = [] ∧ wire_up w = true ∧ wire_open w = true) 250 c half_open)
    as (w' & H & _).
  - done.
  - intros timeout w (Hr & Hu & Ho). simpl. rewrite Hr, Hu, Ho. eexists. split; [reflexivity|].
    simpl. rewrite Hr, Hu, Ho. auto.
  - exact Hc.
  - exact Hcl.
  - vm_compute. reflexivity.
  - split; [vm_compute; reflexivity|split; vm_compute; reflexivity].
  - exact (ex_intro _ w' (ex_intro _ c H)).
Defined.

Lemma close_over_lost_peer_witness :
  (close run 250 lost).1 = Undefined ∧ (destroy run lost).1 = Undefined.
Proof.
  assert (Hc : ∃ c, _connection lost.1 = Some c ∧ closed c = false)
    by (eexists; split; vm_compute; reflexivity).
  destruct Hc as (c & Hc & Hcl).
  assert (Hch : _channel lost.1 = Some tt) by (vm_compute; reflexivity).
  destruct (close_over_lost_peer run c tt 250 lost Hc Hch) as [_ H].
  assert (Hw : socket_write "channel.close" (world lost.1) = (Some "broken pipe", world lost.1))
    by (vm_compute; reflexivity).
  exact (H "channel.close" (world lost.1) _ "broken pipe" (world lost.1) Hcl eq_refl Hw).
Defined.

End Demo.
End AmqpCpp.
