(* ===== verification/Retry.v ===== *)
(** The discipline of reconnecting, for both AMQP backends.

    [Retry] is what the retrying of a transport depends on, [retry_step] the abstract
    machine: an attempt is refused, waits, succeeds or fails, at instants of the
    clock.  A backend is [Retrying] when each of its [serviceReconnect] calls is a
    step of that machine at the instants the call read off the transport's own clock
    ([happened]); [retrying_disciplined] is proved once, against that interface. *)

From S2P Require Import Prelude ITransport Reconnect.
From S2P Require Import SimpleAmqpTransport AmqpConnection AmqpCppTransport.
#[local] Open Scope Z_scope.

(** ** The machine *)

Record Retry : Type := mkRetry {
  retry_policy : ReconnectPolicy;
  retry_failed : Z;
  retry_next : Z;
  retry_made : Z;
}.

(** What one call did, and when: the instant at which it looked at the clock, and that
    at which the attempt had failed. *)
Inductive Attempt : Type :=
  | Refused | Waited (now : Z) | Succeeded (began : Z) | Failed (began ended : Z).

Definition answer (l : Attempt) : bool := match l with Refused => false | _ => true end.

Definition allowed (r : Retry) : Prop :=
  enabled (retry_policy r) = true ∧ retry_failed r < maxAttempts (retry_policy r).

Inductive retry_step (ticks : Z) : Retry → Attempt → Retry → Prop :=
  | step_refused r : ¬ allowed r → retry_step ticks r Refused r
  | step_waited r now : allowed r → now < retry_next r → retry_step ticks r (Waited now) r
  | step_succeeded r began : allowed r → began >= retry_next r →
      retry_step ticks r (Succeeded began)
        (mkRetry (retry_policy r) 0 (retry_next r) (incr64 (retry_made r)))
  | step_failed r began ended d : allowed r → began >= retry_next r →
      backoff (retry_policy r) (retry_failed r + 1) = Ret d →
      retry_step ticks r (Failed began ended)
        (mkRetry (retry_policy r) (retry_failed r + 1) (ended + d * ticks) (retry_made r)).

Inductive retry_steps (ticks : Z) : Retry → list Attempt → Retry → Prop :=
  | steps_none r : retry_steps ticks r [] r
  | steps_next r l r1 ls r2 :
      retry_step ticks r l r1 → retry_steps ticks r1 ls r2 → retry_steps ticks r (l :: ls) r2.

(** ** The interface *)

(** [unsigned] members that cannot wrap. *)
Definition counting (r : Retry) : Prop :=
  0 ≤ retry_failed r ≤ maxAttempts (retry_policy r) ∧ maxAttempts (retry_policy r) + 1 < 2 ^ 32.

(** An attempt with these instants. *)
Definition at_instants (began ended : Z) (l : Attempt) : Prop :=
  match l with
  | Refused => True
  | Waited n | Succeeded n => n = began
  | Failed n n' => n = began ∧ n' = ended
  end.

Class Retrying (X : Type) : Type := {
  ticks : Z;
  retry_of : X → Retry;
  attempt : M X bool;
  (** The reading of the clock a call in this state starts with, and the one taken when
      the attempt it then makes has failed. *)
  began_at : X → Z;
  ended_at : X → Z;
  attempt_step x b x' : counting (retry_of x) → attempt x = (Ret b, x') →
    ∃ l, answer l = b ∧ retry_step ticks (retry_of x) l (retry_of x') ∧
      at_instants (began_at x) (ended_at x) l;
}.

(** What the call made in a state did, by that state's clock. *)
Definition happened {X} `{!Retrying X} (x : X) : Attempt → Prop :=
  at_instants (began_at x) (ended_at x).
Definition succeeded (l : Attempt) : bool := match l with Succeeded _ => true | _ => false end.

(** ** Lemmas on the machine *)

Definition failures (ls : list Attempt) : list (Z * Z) :=
  omap (λ l, match l with Failed began ended => Some (began, ended) | _ => None end) ls.

Section machine.
Context (tk : Z).

Lemma step_counting r l r' : retry_step tk r l r' → counting r →
  counting r' ∧ retry_policy r' = retry_policy r.
Proof.
  unfold counting. destruct 1 as [| |r began [_ Ha] _|r began ended d [_ Ha] _ _]; cbn; intros [Hc Hm];
    (split; [|done]); split; lia || done.
Qed.

Lemma steps_failures r ls r' : retry_steps tk r ls r' → Forall (λ l, succeeded l = false) ls →
  retry_policy r' = retry_policy r ∧
  retry_failed r' = retry_failed r + Z.of_nat (length (failures ls)) ∧
  (counting r → retry_failed r' ≤ maxAttempts (retry_policy r)) ∧
  (∀ i began ended, failures ls !! i = Some (began, ended) →
     if i is S j then
       ∃ began' ended' d, failures ls !! j = Some (began', ended') ∧
         backoff (retry_policy r) (retry_failed r + Z.of_nat i) = Ret d ∧ ended' + d * tk ≤ began
     else retry_next r ≤ began).
Proof.
  induction 1 as [r|r l r1 ls r2 Hstep _ IH]; intros Hno.
  { cbn. split_and!; [done|lia|intros [? _]; lia|done]. }
  apply Forall_cons in Hno as [Hl Hno]. specialize (IH Hno).
  destruct IH as (Hp & Hf & Hmax & Hgap). pose proof (step_counting _ _ _ Hstep) as Hc.
  destruct Hstep as [r Hr|r now Ha Hw|r began Ha Hn|r began ended d Ha Hn Hb];
    [by cbn [failures omap list_omap] in *..|done|].
  cbn [retry_policy retry_failed retry_next] in *. change (failures (Failed began ended :: ls))
    with ((began, ended) :: failures ls). split_and!; [done| |tauto|].
  - cbn [length]. lia.
  - intros [|i] b e; [intros [= <- <-]; lia|]. cbn [lookup list_lookup]. intros Hi.
    specialize (Hgap i b e Hi). destruct i as [|j].
    + exists began, ended, d. split; [done|]. split; [by rewrite Z.add_comm, Z.add_comm in *|lia].
    + destruct Hgap as (b' & e' & d' & Hj & Hb' & Hle). exists b', e', d'. split; [exact Hj|].
      split; [|done]. rewrite <- Hb'. f_equal. lia.
Qed.

(** Once refused, always refused. *)
Lemma refused_forever r ls r' : retry_steps tk r ls r' → ¬ allowed r → Forall (eq Refused) ls.
Proof.
  induction 1 as [r|r l r1 ls r2 Hstep _ IH]; intros Hr; [done|].
  destruct Hstep; [|done..]. by constructor; [|apply IH].
Qed.

Lemma refused_from r ls r' : retry_steps tk r ls r' →
  ∀ ls1 ls2, ls = ls1 ++ Refused :: ls2 → Forall (eq Refused) ls2.
Proof.
  induction 1 as [r|r l r1 ls r2 Hstep Hsteps IH]; intros [|l1 ls1] ls2 Heq; [done..| |].
  - injection Heq as -> <-. inversion Hstep; subst. by eapply refused_forever.
  - injection Heq as _ Heq. by eapply IH.
Qed.
End machine.

(** ** Calls of [serviceReconnect] *)

Section client.
Context {X : Type} `{!Retrying X}.

(** Calls that returned: the states they were made in, and their answers; whatever
    happens between two calls leaves the members the discipline is about alone. *)
Inductive serviced : X → list (X * bool) → X → Prop :=
  | serviced_none x : serviced x [] x
  | serviced_next x b x1 x2 calls x3 :
      attempt x = (Ret b, x1) → retry_of x2 = retry_of x1 → serviced x2 calls x3 →
      serviced x ((x, b) :: calls) x3.

Lemma serviced_steps x calls x' : serviced x calls x' → counting (retry_of x) →
  ∃ ls, calls.*2 = answer <$> ls ∧ Forall2 happened calls.*1 ls ∧
    retry_steps ticks (retry_of x) ls (retry_of x').
Proof.
  induction 1 as [x|x b x1 x2 calls x3 Hcall Heq _ IH]; intros Hc; [exists []; by split_and!; constructor|].
  destruct (attempt_step x b x1 Hc Hcall) as (l & Hl & Hstep & Hx).
  destruct (step_counting _ _ _ _ Hstep Hc) as [Hc1 _]. rewrite <- Heq in Hc1, Hstep.
  destruct (IH Hc1) as (ls & Hls & Hall & Hsteps). exists (l :: ls).
  split; [by rewrite !fmap_cons, Hl, Hls|]. split; [by constructor|by econstructor].
Qed.

(** The discipline: the calls, at the instants their clock showed, are a run of the
    machine; once a call has answered [false] every later one does; while none
    succeeds, there are at most the attempts the policy allows beyond the failures
    there were, and the next attempt begins no earlier than the back-off after the
    end of the last. *)
Definition disciplined : Prop := ∀ (x x' : X) calls,
  counting (retry_of x) → serviced x calls x' →
  ∃ ls, calls.*2 = answer <$> ls ∧ Forall2 happened calls.*1 ls ∧
    retry_steps ticks (retry_of x) ls (retry_of x') ∧
    (∀ bs1 bs2, calls.*2 = bs1 ++ false :: bs2 → Forall (eq false) bs2) ∧
    (Forall (λ l, succeeded l = false) ls →
       let p := retry_policy (retry_of x) in
       retry_failed (retry_of x) + Z.of_nat (length (failures ls)) ≤ maxAttempts p ∧
       ∀ n began ended began' ended',
         failures ls !! n = Some (began, ended) → failures ls !! S n = Some (began', ended') →
         ∃ d, backoff p (retry_failed (retry_of x) + Z.of_nat (S n)) = Ret d ∧
           ended + d * ticks ≤ began').

Lemma retrying_disciplined : disciplined.
Proof.
  intros x x' calls Hc Hs. destruct (serviced_steps x calls x' Hs Hc) as (ls & Hls & Hall & Hsteps).
  exists ls. split_and!; [done..| |].
  - intros bs1 bs2 Heq. rewrite Hls in Heq.
    apply fmap_app_inv in Heq as (ls1 & ls2 & -> & Heq & ->).
    destruct ls2 as [|l ls2]; [done|]. injection Heq as Hl ->. destruct l; [|done..].
    pose proof (refused_from _ _ _ _ Hsteps ls1 ls2 eq_refl) as Href.
    apply Forall_fmap. eapply Forall_impl; [exact Href|]. by intros ? <-.
  - intros Hno. destruct (steps_failures _ _ _ _ Hsteps Hno) as (_ & Hf & Hmax & Hgap).
    split; [specialize (Hmax Hc); lia|]. intros n b e b' e' Hn Hn'.
    destruct (Hgap (S n) b' e' Hn') as (b0 & e0 & d & Hn0 & Hd & Hle).
    rewrite Hn in Hn0. injection Hn0 as <- <-. by exists d.
Qed.
End client.
Arguments disciplined {X} _.

(** ** The backends *)

Section simpleamqp.
Context {W : Type} `{!SimpleAmqpClient W} {H : Type}.
Local Abbreviation T := (@SimpleAmqp.SimpleAmqpTransport W _ H).

Definition simple_retry (t : T) : Retry :=
  mkRetry (SimpleAmqp._policy t) (SimpleAmqp._failedAttempts t) (SimpleAmqp._nextAttempt t)
    (reconnects (SimpleAmqp._stats t)).

#[export] Instance simple_retrying : Retrying T.
Proof.
  refine {| ticks := 1; retry_of := simple_retry; attempt := SimpleAmqp.serviceReconnect;
    began_at t := (SimpleAmqpTransport.steady_now (SimpleAmqp.world t)).1;
    ended_at t := (SimpleAmqpTransport.steady_now (SimpleAmqp.world
      (SimpleAmqp.restore_session (SimpleAmqp.attempting t)).2)).1 |}.
  intros t b t' [Hc Hm] Hcall. cbn in Hc, Hm.
  pose proof (SimpleAmqp.reconnect_attempt t ltac:(lia) ltac:(lia)) as Hs. rewrite Hcall in Hs.
  destruct Hs as [Hi Hs]. assert (Hpol : SimpleAmqp._policy t' = SimpleAmqp._policy t)
    by (unfold SimpleAmqp.identity in Hi; congruence).
  destruct b.
  - destruct Hs as [Ha [[-> Hw]|[(Hn & _ & Hf & Hx & Hst)|(Hn & _ & Hf & Hst & d & Hb & Hnext)]]].
    + exists (Waited (SimpleAmqpTransport.steady_now (SimpleAmqp.world t)).1).
      split_and!; [done|by econstructor|done].
    + exists (Succeeded (SimpleAmqpTransport.steady_now (SimpleAmqp.world t)).1).
      split_and!; [done| |done]. unfold simple_retry. rewrite Hpol, Hf, Hx, Hst.
      by apply (step_succeeded 1 (simple_retry t)).
    + eexists (Failed _ _). split_and!; [done| |by split].
      unfold simple_retry. rewrite Hpol, Hf, Hst, Hnext, <- (Z.mul_1_r d).
      by apply (step_failed 1 (simple_retry t)).
  - destruct Hs as [-> Hno]. exists Refused. split_and!; [done|by constructor|done].
Defined.
End simpleamqp.

Section amqpcpp.
Context {W : Type} `{!AmqpLibrary W} {H S : Type} (run : Runner (AmqpCpp.AmqpCppTransport W H) H S).
Local Abbreviation X := (AmqpCpp.AmqpCppTransport W H * S)%type.
(** Handlers may run while it resubscribes; they do not reconfigure the transport. *)
Hypothesis Hrun : ∀ h d k,
  preserves (λ x : X, (AmqpCpp.identity x.1, AmqpCpp.attempts x.1) = k) (run h d).

Definition cpp_retry (x : X) : Retry :=
  mkRetry (AmqpCpp._policy x.1) (AmqpCpp._failedAttempts x.1) (AmqpCpp._nextAttempt x.1)
    (reconnects (AmqpCpp._stats x.1)).

Definition amqpcpp_retrying : Retrying X.
Proof.
  refine {| ticks := ticks_per_ms; retry_of := cpp_retry; attempt := AmqpCpp.serviceReconnect run;
    began_at x := (steady_now (AmqpCpp.world x.1)).1;
    ended_at x := (steady_now (AmqpCpp.world
      (AmqpCpp.restore_session run (AmqpCpp.attempting x)).2.1)).1 |}.
  intros x b x' [Hc Hm] Hcall. cbn in Hc, Hm.
  pose proof (AmqpCpp.service_attempt run x Hrun ltac:(lia) ltac:(lia)) as Hs.
  cbn zeta in Hs. rewrite Hcall in Hs.
  destruct Hs as [Hi Hs]. assert (Hpol : AmqpCpp._policy x'.1 = AmqpCpp._policy x.1)
    by (unfold AmqpCpp.identity in Hi; congruence).
  destruct b.
  - destruct Hs as [Ha [[-> Hw]|[(Hn & Hf & Hx & Hst)|(Hn & Hf & Hst & d & Hb & Hnext)]]].
    + exists (Waited (steady_now (AmqpCpp.world x.1)).1). split_and!; [done|by econstructor|done].
    + exists (Succeeded (steady_now (AmqpCpp.world x.1)).1). split_and!; [done| |done].
      unfold cpp_retry. rewrite Hpol, Hf, Hx, Hst. by apply (step_succeeded ticks_per_ms (cpp_retry x)).
    + eexists (Failed _ _). split_and!; [done| |by split].
      unfold cpp_retry. rewrite Hpol, Hf, Hst, Hnext. by apply (step_failed ticks_per_ms (cpp_retry x)).
  - destruct Hs as [-> Hno]. exists Refused. split_and!; [done|by constructor|done].
Defined.
End amqpcpp.

(** C20. Both AMQP backends retry with discipline.  However often a transport services its
    reconnection, whatever its libraries, its network and its clock do in and between
    the calls: read off that clock -- when a call looks at it, and when its attempt has
    failed -- the calls are a run of the machine, so an attempt is made only once the
    clock has reached the instant its predecessor set, the end of that failure and the
    back-off; as long as none succeeds there are at most as many as the policy allows;
    and once a call has answered [false] every later call does, so a caller that stops
    polling there misses nothing. *)
Theorem reconnection_discipline :
  (∀ W (L : SimpleAmqpClient W) H, disciplined (simple_retrying (W:=W) (H:=H))) ∧
  (∀ W (L : AmqpLibrary W) H S (run : Runner (AmqpCpp.AmqpCppTransport W H) H S)
     (Hrun : ∀ h d k, preserves (λ x : AmqpCpp.AmqpCppTransport W H * S,
       (AmqpCpp.identity x.1, AmqpCpp.attempts x.1) = k) (run h d)),
     disciplined (amqpcpp_retrying run Hrun)).
Proof. split; intros; apply retrying_disciplined. Qed.

(** ** On the toy libraries *)

Module Persistent.

Import SimpleAmqp.

(** The broker stays away, and one attempt is allowed. *)
Definition gone : @SimpleAmqpTransport _ SimpleAmqpTransport.Sample.client bool :=
  set_retry (mkReconnectPolicy true 1 250 5000) 0 0 SimpleAmqpTransport.Sample.disconnected.

Definition gave_up := (serviceReconnect gone).2.

Definition calls : list (@SimpleAmqpTransport _ SimpleAmqpTransport.Sample.client bool * bool) :=
  [(gone, true); (gave_up, false); (gave_up, false)].

Lemma reconnection_discipline_witness :
  serviced gone calls gave_up ∧ retry_failed (retry_of gave_up) = 1 ∧
  ∃ ls, [true; false; false] = answer <$> ls ∧ Forall2 happened calls.*1 ls ∧
    retry_steps 1 (retry_of gone) ls (retry_of gave_up).
Proof.
  destruct reconnection_discipline as [Hsimple _].
  assert (H1 : serviceReconnect gone = (Ret true, gave_up)) by (vm_compute; reflexivity).
  assert (H2 : serviceReconnect gave_up = (Ret false, gave_up)) by (vm_compute; reflexivity).
  assert (Hs : serviced gone calls gave_up).
  { apply (serviced_next gone true gave_up gave_up); [exact H1|reflexivity|].
    do 2 (apply (serviced_next gave_up false gave_up gave_up); [exact H2|reflexivity|]). constructor. }
  split; [exact Hs|]. split; [vm_compute; reflexivity|].
  destruct (Hsimple _ _ _ gone gave_up calls) as (ls & Hls & Hall & Hsteps & _).
  - vm_compute. repeat split; discriminate.
  - exact Hs.
  - exists ls. split; [exact Hls|]. split; [exact Hall|exact Hsteps].
Defined.
End Persistent.
