(* ===== verification/AmqpCppState.v ===== *)
(** What a delivery tag names ([class AmqpCppTransport], [settle]): being a number of one
    channel, it does not survive a reconnection. *)

From S2P Require Import Prelude ITransport Reconnect AmqpConnection AmqpCppTransport.
#[local] Open Scope Z_scope.
Import AmqpCpp.

(** ** Tags and connections *)

Section tags.
Context {W : Type} `{!AmqpLibrary W} {H S : Type} (run : Runner (AmqpCppTransport W H) H S).
Local Abbreviation T := (AmqpCppTransport W H).
Local Abbreviation X := (T * S)%type.

(** C36. A tag is only a number.  A settlement for a delivery of a connection that was
    replaced -- its tag is no longer outstanding -- is refused as long as the new
    connection has not deferred a delivery of its own under that number, which
    brokers count from one again; once it has, the very same call is carried out on
    that other delivery, which is then no longer outstanding, so the settlement its
    own worker makes later is the one refused. *)
Theorem stale_settlement tag d ch body redelivered (x1 x2 : X) :
  d ≠ Deferred → _channel x1.1 = Some ch → tag ∉ _outstandingDeferred x1.1 →
  invoke_handler run (mkDelivery body redelivered tag) (with_stats count_received x1.1, x1.2) =
    (Ret Deferred, x2) →
  _channel x2.1 = Some ch → tag ∉ _outstandingDeferred x2.1 →
  (∃ what, settle tag d x1 = (Throw (logic_error what), x1)) ∧
  let x3 := (onReceived run body tag redelivered x1).2 in
  let '(o, x4) := call (action ch tag d) x2 in
  settle tag d x3 = match o with
    | Ret _ => (Ret tt, (with_stats (bump_disposition d) x4.1, x4.2))
    | _ => (o, x4)
    end ∧
  ∀ d', d' ≠ Deferred → ∃ what,
    settle tag d' (settle tag d x3).2 = (Throw (logic_error what), (settle tag d x3).2).
Proof.
  intros Hd Hch Hout Hrun Hch2 Hout2. split; [by apply (settle_unknown _ _ ch)|].
  assert (Hx3 : (onReceived run body tag redelivered x1).2 =
    (set_outstanding ({[tag]} ∪ _outstandingDeferred x2.1) x2.1, x2.2)).
  { unfold onReceived, modify_t. run. rewrite Hrun. done. }
  cbn zeta. rewrite Hx3.
  set (x3 := (set_outstanding ({[tag]} ∪ _outstandingDeferred x2.1) x2.1, x2.2)).
  assert (Hs : settle tag d x3 = resolve_delivery tag d x2).
  { assert (Hin : tag ∈ _outstandingDeferred x3.1)
      by (unfold x3; cbn [fst set_outstanding _outstandingDeferred]; set_solver).
    rewrite (settle_known tag d ch x3 Hch2 Hd Hin). f_equal.
    assert (Hback : ({[tag]} ∪ _outstandingDeferred x2.1) ∖ {[tag]} = _outstandingDeferred x2.1)
      by (clear -Hout2; set_solver).
    unfold x3. cbn [fst snd set_outstanding _outstandingDeferred]. rewrite Hback.
    by destruct x2 as [[] ?]. }
  rewrite Hs, (resolve_delivery_run tag d ch x2 Hch2 Hd).
  destruct (call_wire (action ch tag d) x2) as (w & c & Hw).
  assert (Hrefused : ∀ y : X, _channel y.1 = Some ch → tag ∉ _outstandingDeferred y.1 →
    ∀ d', d' ≠ Deferred → ∃ what, settle tag d' y = (Throw (logic_error what), y)).
  { intros y Hy Hy' d' Hd'. by apply (settle_unknown _ _ ch). }
  destruct (call (action ch tag d) x2) as [o x4]. cbn in Hw.
  destruct o as [[]|e|]; (split; [done|]); cbn [snd]; apply Hrefused; by rewrite ?Hw.
Qed.
End tags.

(** ** The properties on the toy library *)

Module Demo.
Import AmqpConnection.Sample.
Import AmqpCpp.Demo.

Local Abbreviation T := (AmqpCppTransport Wire (option Disposition)).

(** A delivery is deferred, the broker goes away with it, and the transport
    reconnects; its next delivery is number one again. *)
Definition replaced : T * unit :=
  (pump run 100 (with_wire (λ w, set_up true (tick 10000 w))
    (pump run 100 (with_wire (set_up false) deferring)).2)).2.
Definition second : T * unit := (onReceived run "another job" 1 false replaced).2.

Lemma stale_settlement_witness :
  _outstandingDeferred deferring.1 = {[1]} ∧ _outstandingDeferred replaced.1 = ∅ ∧
  wire_sent (world (settle 1 Ack second).2.1) = wire_sent (world second.1) ++ ["ack 1"] ∧
  ∃ what, settle 1 Reject (settle 1 Ack second).2 =
    (Throw (logic_error what), (settle 1 Ack second).2).
Proof.
  split; [vm_compute; reflexivity|]. split; [vm_compute; reflexivity|].
  set (x2 := (with_stats count_received replaced.1, replaced.2)).
  assert (Hrun : invoke_handler run (mkDelivery "another job" false 1) x2 = (Ret Deferred, x2))
    by (vm_compute; reflexivity).
  assert (Hch : _channel replaced.1 = Some tt) by (vm_compute; reflexivity).
  assert (Hch2 : _channel x2.1 = Some tt) by (vm_compute; reflexivity).
  assert (Hout : 1 ∉ _outstandingDeferred replaced.1)
    by (apply (bool_decide_unpack _); vm_compute; exact I).
  assert (Hout2 : 1 ∉ _outstandingDeferred x2.1)
    by (apply (bool_decide_unpack _); vm_compute; exact I).
  destruct (stale_settlement run 1 Ack tt "another job" false replaced x2 ltac:(discriminate)
    Hch Hout Hrun Hch2 Hout2) as [_ H].
  unfold second. cbv zeta in H.
  match type of H with (let '(o, x4) := ?c in _) =>
    assert (Hcall : ∃ x4, c = (Ret tt, x4) ∧
      wire_sent (world x4.1) =
        wire_sent (world (onReceived run "another job" 1 false replaced).2.1) ++ ["ack 1"])
      by (eexists; split; vm_compute; reflexivity) end.
  destruct Hcall as (x4 & Hcall & Hsent). rewrite Hcall in H. destruct H as [Hs Hrefused].
  split; [rewrite Hs; exact Hsent|]. apply (Hrefused Reject). discriminate.
Defined.
End Demo.
