(* ===== verification/AmqpCppSafety.v ===== *)
(** The AMQP-CPP backend never runs into undefined behaviour.

    [Lawful] is what the code relies on of AMQP-CPP, the socket and the clock: calls
    end, the clock never goes back and does not stand still for ever, a socket that is
    not connected gives no bytes, the parser consumes no more than it is given, a
    channel that does not exist calls nobody back.  [safe] is kept by every piece of the
    backend that runs over a lawful library: it does not reach an [Undefined] outcome
    -- a null channel or connection, a read past the buffer, a wait without end, a
    shift out of range, an exception out of a destructor -- and keeps the invariant.
    [never_undefined] says which methods are safe in which states; what it leaves out
    is what [close_over_lost_peer] shows to be unsafe. *)

From S2P Require Import Prelude ITransport Reconnect AmqpConnection AmqpCppTransport.
#[local] Open Scope Z_scope.

(** ** Laws of the libraries *)

(** An activity that follows [R] between callbacks, calls back only what [ok] allows
    and ends as [post] says. *)
Fixpoint obeys {W C A} (R : W → W → Prop) (ok : C → Prop) (post : W → outcome A → W → Prop)
    (w0 : W) (a : Activity W C A) : Prop :=
  match a with
  | Finished o w => o ≠ Undefined ∧ post w0 o w
  | Calls c w resume => R w0 w ∧ ok c ∧ ∀ w', R w w' → obeys R ok post w' (resume w')
  end.

(** Time passes; a world without a channel that could call back stays one, and so does
    one whose socket has no peer. *)
Definition later {W} (time : W → Z) (silent idle : W → Prop) (w w' : W) : Prop :=
  time w ≤ time w' ∧ (silent w → silent w') ∧ (idle w → idle w').

#[export] Instance later_preorder {W} (time : W → Z) silent idle : PreOrder (later time silent idle).
Proof.
  split; [by intros w|]. intros w1 w2 w3 (H1 & S1 & I1) (H2 & S2 & I2). split_and!; [lia|auto..].
Qed.

Definition ordinary {W A} (time : W → Z) silent idle (f : W → Activity W ConnCallback A) : Prop :=
  ∀ w, obeys (later time silent idle) (λ _, True) (λ w0 _ w1, later time silent idle w0 w1) w (f w).

Class Lawful (W : Type) `{!AmqpLibrary W} : Type := {
  (** Counted in possible readings of the clock. *)
  time : W → Z;
  silent : W → Prop;
  idle : W → Prop;
  (** The clock never goes back, and does not stand still for ever. *)
  law_clock w : reads_between (time w) (steady_now w).1 (time (steady_now w).2) ∧
    later time silent idle w (steady_now w).2;
  law_read timeout w : later time silent idle w (async_read timeout w).2;
  (** A socket that is not open, or was not connected, gives no bytes. *)
  law_closed w : socket_is_open w = false → idle w;
  law_idle timeout bytes w : idle w → (async_read timeout w).1 ≠ Some (read_bytes bytes);
  law_write data w : later time silent idle w (socket_write data w).2;
  law_resolve host port w : (resolve host port w).1 ≠ Undefined ∧
    later time silent idle w (resolve host port w).2;
  law_connect addresses port w : (socket_connect addresses port w).1 ≠ Undefined ∧
    (let w' := (socket_connect addresses port w).2 in
     time w ≤ time w' ∧ (silent w → silent w') ∧
     ((socket_connect addresses port w).1 = Ret None ∨ (idle w → idle w')));
  law_socket_close w : later time silent idle w (socket_close w) ∧ idle (socket_close w);
  law_parse b w : obeys (later time silent idle) (λ c, silent w → ∃ k, c = inl k)
    (λ w0 o w1, later time silent idle w0 w1 ∧ ∀ n, o = Ret n → n ≤ size_of b) w (Connection_parse b w);
  (** The constructor fails only if its header could not be written. *)
  law_create user password vhost w : soft (Connection_create user password vhost w) ∧
    ordinary time silent idle (Connection_create user password vhost);
  law_close : ordinary time silent idle Connection_close;
  (** The channel dies with its callbacks, and not by an exception of its own. *)
  law_release w : soft (Connection_release w) ∧ ordinary time silent idle Connection_release;
  law_channel_create w : obeys (later time silent idle) (λ _, True)
    (λ w0 o w1, time w0 ≤ time w1 ∧ ((∃ ch, o = Ret ch) ∨ later time silent idle w0 w1)) w (Channel_create w);
  law_channel_release ch w : soft (Channel_release ch w) ∧
    obeys (later time silent idle) (λ _, True) (λ w0 _ w1, time w0 ≤ time w1 ∧ silent w1) w
      (Channel_release ch w);
  law_exchange ch r name kind durable :
    ordinary time silent idle (declareExchange ch r name kind durable);
  law_queue ch r name flags arguments : ordinary time silent idle (declareQueue ch r name flags arguments);
  law_bind ch r exchange queue key : ordinary time silent idle (bindQueue ch r exchange queue key);
  law_purge ch r name : ordinary time silent idle (purgeQueue ch r name);
  law_qos ch n : ordinary time silent idle (setQos ch n);
  law_consume ch r name : ordinary time silent idle (consume ch r name);
  law_publish ch exchange key payload persistent :
    ordinary time silent idle (channel_publish ch exchange key payload persistent);
  law_ack ch tag : ordinary time silent idle (channel_ack ch tag);
  law_reject ch tag requeue : ordinary time silent idle (channel_reject ch tag requeue);
}.

(** ** Safe computations *)

Section safe.
Context {W : Type} `{!AmqpLibrary W, !Lawful W} {X : Type} `{!ConnState W X}.

Local Abbreviation passes := (later time silent idle).

Definition safe {A} (I : X → Prop) (m : M X A) : Prop := ∀ x, I x →
  (m x).1 ≠ Undefined ∧ I (m x).2 ∧ passes (get_world x) (get_world (m x).2).

Section combinators.
Context (I : X → Prop).

Lemma safe_ret {A} (a : A) : safe I (mret a).
Proof. intros x Hx. by split_and!. Qed.
Lemma safe_throw {A} e : safe (A:=A) I (throw e).
Proof. intros x Hx. by split_and!. Qed.
Lemma safe_gets {A} (f : X → A) : safe I (gets f).
Proof. intros x Hx. by split_and!. Qed.
Lemma safe_throw_if c e : safe I (throw_if c e).
Proof. destruct c; intros x Hx; by split_and!. Qed.

Lemma safe_bind {A B} (m : M X A) (f : A → M X B) :
  safe I m → (∀ a, safe I (f a)) → safe I (m ≫= f).
Proof.
  intros Hm Hf x Hx. destruct (Hm x Hx) as (Hd & Hi & Hl). run.
  destruct (m x) as [[a|e|] x1]; cbn in *; [|done..].
  destruct (Hf a x1 Hi) as (Hd' & Hi' & Hl'). split_and!; [done|done|by etrans].
Qed.

Lemma safe_try_catch {A} (m : M X A) (h : exn → M X A) :
  safe I m → (∀ e, safe I (h e)) → safe I (try_catch m h).
Proof.
  intros Hm Hh x Hx. destruct (Hm x Hx) as (Hd & Hi & Hl). unfold try_catch.
  destruct (m x) as [[a|e|] x1]; cbn in *; [done| |done].
  destruct (Hh e x1 Hi) as (Hd' & Hi' & Hl'). split_and!; [done|done|by etrans].
Qed.

(** A statement of how a run ends, and its rules. *)
Definition ends {A} (m : M X A) (x : X) (Q : outcome A → X → Prop) : Prop :=
  let '(o, x') := m x in Q o x'.

Lemma ends_bind {A B} (m : M X A) (f : A → M X B) x a x1 Q :
  m x = (Ret a, x1) → ends (f a) x1 Q → ends (m ≫= f) x Q.
Proof. intros Hm. unfold ends. run. by rewrite Hm. Qed.

Lemma ends_then {A B} (m : M X A) (f : A → M X B) x (P : outcome A → X → Prop) Q :
  ends m x P → (∀ x1, ¬ P Undefined x1) → (∀ a x1, P (Ret a) x1 → ends (f a) x1 Q) →
  (∀ e x1, P (Throw e) x1 → Q (Throw e) x1) → ends (m ≫= f) x Q.
Proof.
  unfold ends. intros Hm Hu Hf He. run. destruct (m x) as [[a|e|] x1]; [by apply Hf|by apply He|].
  by destruct (Hu x1).
Qed.

Lemma ends_safe {A B} (m : M X A) (f : A → M X B) x Q :
  safe I m → I x → (∀ a x1, I x1 → ends (f a) x1 Q) → (∀ e x1, I x1 → Q (Throw e) x1) →
  ends (m ≫= f) x Q.
Proof.
  intros Hm Hx Hf He. destruct (Hm x Hx) as (Hd & Hi & _). unfold ends in *. run.
  destruct (m x) as [[a|e|] x1]; cbn in *; [by apply Hf|by apply He|done].
Qed.
End combinators.

End safe.

#[local] Hint Resolve safe_ret safe_throw safe_gets safe_throw_if : motus.

(** Walk through a computation, binding by binding and branch by branch. *)
Ltac safes :=
  repeat first [solve [eauto with motus] | lazymatch goal with
    | |- ∀ _, _ => intros ?
    | |- safe _ (_ ≫= _) => apply safe_bind
    | |- safe _ (try_catch _ _) => apply safe_try_catch
    | |- safe _ _ => case_match
    end].

(** ** The connection *)

Section connections.
Context {W : Type} `{!AmqpLibrary W, !Lawful W} {X : Type} `{!ConnState W X}.
Local Abbreviation passes := (later time silent idle).

Section connection.
Context (I : X → Prop).
Context (I_world : ∀ w x, I x → passes (get_world x) w → I (set_world w x)).
Context (I_conn : ∀ c x, I x → evolves (get_conn x) c → I (set_conn c x)).

Lemma safe_modify_conn f : (∀ c, evolves c (f c)) → safe I (modify_conn f).
Proof.
  intros Hf x Hx. unfold modify_conn. run. rewrite get_world_conn. by split_and!; [|apply I_conn|].
Qed.
Lemma safe_member {A} (f : AmqpConnection → A) : safe I (get_member f).
Proof. apply safe_gets. Qed.

Lemma safe_on_world {A} (m : M W A) :
  (∀ w, (m w).1 ≠ Undefined ∧ passes w (m w).2) → safe I (on_world m).
Proof.
  intros Hm x Hx. unfold on_world. destruct (Hm (get_world x)) as [Hd Hl].
  destruct (m (get_world x)) as [o w]. cbn in *. rewrite get_set_world. by split_and!; [|apply I_world|].
Qed.
Lemma safe_on_pure {A} (f : W → A * W) : (∀ w, passes w (f w).2) → safe I (on_pure f).
Proof.
  intros Hf. apply safe_on_world. intros w. specialize (Hf w). destruct (f w) as [a w']. by split.
Qed.

Lemma safe_clock : safe I (on_pure steady_now).
Proof. apply safe_on_pure. intros w. apply law_clock. Qed.
#[local] Hint Resolve safe_modify_conn safe_member safe_clock law_read law_write evolves_connection
  evolves_ready evolves_closed evolves_error evolves_sent evolves_received
  evolves_inBuffer : motus.

Lemma safe_read timeout : safe I (on_pure (async_read timeout)).
Proof. apply safe_on_pure. auto with motus. Qed.
Lemma safe_write data : safe I (on_pure (socket_write data)).
Proof. apply safe_on_pure. auto with motus. Qed.
#[local] Hint Resolve safe_read safe_write : motus.

Lemma safe_on_conn c : safe I (on_conn c).
Proof. destruct c; simpl; unfold onData, onReady, onError, onClosed; safes. Qed.

(** A lawful activity ends, or one of its callbacks throws. *)
Lemma perform_lawful {C A} (on : C → M X unit) ok post (a : Activity W C A) :
  (∀ c, ok c → safe I (on c)) → ∀ x, I x → obeys passes ok post (get_world x) a →
  let '(o, x') := perform on a x in
  o ≠ Undefined ∧ ∃ x1, I x1 ∧ passes (get_world x) (get_world x1) ∧
    ((∃ w, x' = set_world w x1 ∧ post (get_world x1) o w) ∨ (x' = x1 ∧ ∃ e, o = Throw e)).
Proof.
  intros Hon. induction a as [o w|c w resume IH]; intros x Hx; cbn [obeys perform].
  { intros [Ho Hp]. split; [done|]. exists x. split; [done|]. split; [done|]. left. by exists w. }
  intros (Hw & Hc & Hr). destruct (Hon c Hc (set_world w x)) as (Hd & Hi & Hl); [by apply I_world|].
  rewrite get_set_world in Hl.
  destruct (on c (set_world w x)) as [[[]|e|] x1]; cbn in *; [| |done].
  - specialize (IH _ x1 Hi (Hr _ Hl)).
    destruct (perform on (resume (get_world x1)) x1) as [o x']. destruct IH as (Ho & x2 & Hi2 & Hl2 & H).
    split; [done|]. exists x2. split; [done|]. split; [|done]. by do 2 (etrans; [eassumption|]).
  - split; [done|]. exists x1. split; [done|]. split; [by etrans|]. right. eauto.
Qed.

Lemma safe_call {A} (f : W → Activity W ConnCallback A) :
  ordinary time silent idle f → safe I (call f).
Proof.
  intros Hf x Hx. unfold call.
  pose proof (perform_lawful on_conn (λ _, True) _ (f (get_world x)) (λ c _, safe_on_conn c) x Hx
    (Hf _)) as H.
  destruct (perform _ _ _) as [o x']. destruct H as (Ho & x1 & Hi & Hl & [(w & -> & Hp)|(-> & _)]);
    [|done]. cbn. rewrite get_set_world. split_and!; [done|by apply I_world|by etrans].
Qed.

#[local] Hint Resolve safe_on_conn safe_call : motus.

Section pump.
Context (on_channel : ChannelCallback → M X unit).
(** What may call back in these states is safe, and nothing reaches into the buffer
    that is being parsed. *)
Context (channel_safe : ∀ x k, I x → ¬ silent (get_world x) → safe I (on_channel k)).
Context (channel_buffer : ∀ k x, _inBuffer (get_conn (on_channel k x).2) = _inBuffer (get_conn x)).
(** Bytes come only where there is a parser. *)
Context (I_parser : (∀ x, I x → idle (get_world x)) ∨
  (∀ x, I x → AmqpConnection._connection (get_conn x) = true)).

Lemma safe_parse x : I x → AmqpConnection._connection (get_conn x) = true →
  let '(o, x') := parse on_channel x in
  o ≠ Undefined ∧ I x' ∧ passes (get_world x) (get_world x') ∧
  ∀ n, o = Ret n → n ≤ size_of (_inBuffer (get_conn x)).
Proof.
  intros Hx Hc. unfold parse. rewrite Hc.
  assert (Hon : ∀ c, (silent (get_world x) → ∃ k, c = inl k) → safe I (on_any on_channel c)).
  { intros [k|k] Hok; [apply safe_on_conn|]. apply (channel_safe x); [done|].
    intros Hs. by destruct (Hok Hs). }
  pose proof (perform_lawful _ _ _ _ Hon x Hx (law_parse (_inBuffer (get_conn x)) (get_world x))) as H.
  destruct (perform _ _ _) as [o x'].
  destruct H as (Ho & x1 & Hi & Hl & [(w & -> & Hp & Hn)|(-> & e & ->)]); [|done].
  rewrite get_set_world. split_and!; [done|by apply I_world|by etrans|done].
Qed.

(** The bytes of one read go through the parser. *)
Lemma safe_handed bytes : (∀ x, I x → AmqpConnection._connection (get_conn x) = true) →
  safe I (_ ← modify_conn (add_received (size_of bytes));
    _ ← modify_conn (λ c, set_inBuffer (_inBuffer c +:+ bytes) c);
    consumed ← parse on_channel;
    buffered ← get_member _inBuffer;
    if bool_decide (consumed > size_of buffered) then undefined
    else _ ← modify_conn (set_inBuffer (sdrop (Z.to_nat consumed) buffered)); mret true).
Proof.
  intros Hparser. do 2 (apply safe_bind; [auto with motus|]; intros []). intros x Hx.
  pose proof (safe_parse x Hx (Hparser x Hx)) as Hp.
  pose proof (parse_keeps_buffer on_channel x channel_buffer) as Hb.
  run. destruct (parse on_channel x) as [[n|e|] x1]; cbn in *; [|by destruct Hp as (? & ? & ? & _)..].
  destruct Hp as (_ & Hi & Hl & Hn). specialize (Hn n eq_refl). rewrite <- Hb in Hn.
  rewrite bool_decide_false by (unfold get_member; cbn; lia). cbn.
  rewrite get_world_conn. split_and!; [done|apply I_conn; auto with motus|done].
Qed.

Lemma safe_pumpOnce timeout : safe I (pumpOnce on_channel timeout).
Proof.
  destruct I_parser as [Hidle|Hparser].
  - intros x Hx. pose proof (λ b, law_idle timeout b (get_world x) (Hidle x Hx)) as Hread.
    pose proof (safe_read timeout x Hx) as (_ & Hi & Hl). unfold pumpOnce. run.
    unfold on_pure, on_world in *.
    destruct (async_read timeout (get_world x)) as [[[bytes| |message]|] w]; cbn in *;
      [by destruct (Hread bytes)|..|by split_and!];
      unfold modify_conn; run; rewrite get_world_conn;
      (split_and!; [done|apply I_conn; [done|auto with motus]|done]).
  - unfold pumpOnce. apply safe_bind; [auto with motus|]. intros [[bytes| |message]|];
      [by apply safe_handed|safes..].
Qed.
#[local] Hint Resolve safe_pumpOnce : motus.

(** The clock reaches the deadline before the fuel is used up. *)
Lemma safe_pump_until predicate fuel deadline x :
  I x → Z.max 0 (Zpos readings_per_tick * deadline - time (get_world x)) < Z.of_nat fuel →
  (pump_until on_channel predicate fuel deadline x).1 ≠ Undefined ∧
  I (pump_until on_channel predicate fuel deadline x).2 ∧
  passes (get_world x) (get_world (pump_until on_channel predicate fuel deadline x).2).
Proof.
  revert x. induction fuel as [|fuel IH]; intros x Hx Hfuel; [lia|]. cbn [pump_until]. run.
  destruct (predicate x); [by split_and!|].
  destruct (safe_clock x Hx) as (_ & Hi & Hl).
  destruct (law_clock (get_world x)) as ((Hlo & Hhi & Hlt) & _).
  unfold on_pure, on_world in *. destruct (steady_now (get_world x)) as [n w]. cbn in *.
  case_bool_decide as Hn; [done|]. rewrite get_set_world in Hl.
  destruct (safe_pumpOnce (Z.quot (deadline - n) ticks_per_ms) (set_world w x) Hi) as (Hd1 & Hi1 & Hl1).
  rewrite get_set_world in Hl1.
  destruct (pumpOnce _ _ _) as [[[]|e|] x1]; cbn in *; [|split_and!; [done|done|by etrans]..|done].
  destruct (IH x1 Hi1) as (Hd2 & Hi2 & Hl2); [destruct Hl1; nia|].
  split_and!; [done|done|]. by do 2 (etrans; [eassumption|]).
Qed.

Lemma safe_pumpUntil predicate timeout : safe I (AmqpConnection.pumpUntil on_channel predicate timeout).
Proof.
  intros x Hx. unfold AmqpConnection.pumpUntil. run.
  assert (Hfuel : Z.max 0 (Zpos readings_per_tick * (timeout * ticks_per_ms)) <
    Z.of_nat (pump_fuel timeout)) by (unfold pump_fuel; lia).
  set (fuel := pump_fuel timeout) in *. clearbody fuel.
  destruct (safe_clock x Hx) as (_ & Hi & Hl).
  destruct (law_clock (get_world x)) as ((Hlo & Hhi & Hlt) & _).
  unfold on_pure, on_world in *. destruct (steady_now (get_world x)) as [start w]. cbn in *.
  destruct (safe_pump_until predicate fuel (start + timeout * ticks_per_ms) (set_world w x) Hi)
    as (Hd1 & Hi1 & Hl1); [rewrite get_set_world; lia|].
  destruct (pump_until _ _ _ _ _) as [[[]|e|] x1]; cbn in *; [..|done];
    (split; [done|split; [done|by etrans]]).
Qed.
End pump.

Lemma safe_shut : safe I shut_socket.
Proof.
  unfold shut_socket. apply safe_bind; [apply safe_gets|]. intros w. case_match; [|apply safe_ret].
  intros x Hx. run. rewrite get_set_world.
  destruct (law_socket_close (get_world x)). split_and!; [done|by apply I_world|done].
Qed.

(** *** The end of a connection that is closed *)

Lemma shut_run (x : X) : ∃ x', shut_socket x = (Ret tt, x') ∧ get_conn x' = get_conn x ∧
  idle (get_world x') ∧ (I x → I x' ∧ passes (get_world x) (get_world x')).
Proof.
  destruct (shut_socket x) as [o x'] eqn:E. exists x'.
  pose proof (λ Hx, proj2 (safe_shut x Hx)) as Hs. rewrite E in Hs. unfold shut_socket in E. run_in E.
  destruct (socket_is_open (get_world x)) eqn:Ho; injection E as <- <-;
    (split; [done|split; [|split; [|exact Hs]]]).
  - by rewrite get_conn_world.
  - rewrite get_set_world. apply law_socket_close.
  - done.
  - by apply law_closed.
Qed.

Lemma noexcept_closed {A} (f : W → Activity W ConnCallback A) post x :
  I x → closed (get_conn x) = true → (∀ w, soft (f w)) →
  (∀ w, obeys passes (λ _, True) post w (f w)) →
  ∃ v x1 w, call_noexcept f x = (Ret v, set_world w x1) ∧ I x1 ∧
    passes (get_world x) (get_world x1) ∧ post (get_world x1) (Ret v) w ∧ closed (get_conn x1) = true.
Proof.
  intros Hx Hcl Hsoft Hf. destruct (call_noexcept_closed f x Hcl Hsoft) as (v & x' & Hcall & Hcl').
  exists v. pose proof (perform_lawful on_conn (λ _, True) post (f (get_world x)) (λ c _, safe_on_conn c) x
    Hx (Hf _)) as H.
  rewrite Hcall. unfold call_noexcept, try_catch, call in Hcall.
  destruct (perform _ _ _) as [[v'|e|] x0]; [|done..]. injection Hcall as -> ->.
  destruct H as (_ & x1 & Hi & Hl & [(w & -> & Hp)|(-> & e & ?)]); [|done].
  exists x1, w. rewrite get_conn_world in Hcl'. by split_and!.
Qed.

Lemma destroy_closed on_channel x :
  I x → closed (get_conn x) = true →
  ∃ x', AmqpConnection.destroy on_channel x = (Ret tt, x') ∧ I x' ∧ idle (get_world x') ∧
    passes (get_world x) (get_world x').
Proof.
  intros Hx Hcl. unfold AmqpConnection.destroy, AmqpConnection.close, get_member. run. unfold id.
  unfold closed in Hcl. rewrite Hcl, andb_false_r. run.
  destruct (shut_run x) as (x1 & -> & Hc1 & _ & Hk1). destruct (Hk1 Hx) as [Hi1 Hl1]. rewrite Hc1.
  destruct (AmqpConnection._connection (get_conn x)).
  - destruct (noexcept_closed Connection_release _ x1 Hi1 ltac:(unfold closed; by rewrite Hc1)
      (λ w, proj1 (law_release w)) (proj2 (law_release (get_world x1))))
      as (v & x2 & w & -> & Hi2 & Hl2 & Hp & _).
    assert (Hi3 : I (set_world w x2)) by by apply I_world.
    destruct (shut_run (set_world w x2)) as (x4 & -> & _ & Hidle & Hk4).
    destruct (Hk4 Hi3) as [Hi4 Hl4].
    rewrite get_set_world in Hl4. exists x4. split_and!; [done|done|done|].
    by do 3 (etrans; [eassumption|]).
  - run. destruct (shut_run x1) as (x2 & -> & _ & Hidle & Hk2). destruct (Hk2 Hi1) as [Hi2 Hl2].
    exists x2. split_and!; [done|done|done|by etrans].
Qed.
End connection.

(** *** Connecting *)

(** A connection that is not over has a parser, or a socket that gives no bytes. *)
Definition parsing (x : X) : Prop := AmqpConnection._connection (get_conn x) = true.
Definition joined (x : X) : Prop :=
  closed (get_conn x) = false → idle (get_world x) ∨ parsing x.

Lemma joined_world w x : joined x → passes (get_world x) w → joined (set_world w x).
Proof.
  intros Hx (_ & _ & Hw). unfold joined, parsing in *. rewrite get_conn_world, get_set_world.
  intros Hc. destruct (Hx Hc); auto.
Qed.
Lemma parsing_conn c x : parsing x → evolves (get_conn x) c → parsing (set_conn c x).
Proof. intros Hx (_ & Hc & _). unfold parsing. rewrite get_set_conn. auto. Qed.
Lemma joined_conn c x : joined x → evolves (get_conn x) c → joined (set_conn c x).
Proof.
  intros Hx Hc. unfold joined. rewrite get_set_conn, get_world_conn. intros Hcl.
  destruct Hx as [Hx|Hx]; [|by left|right; by apply parsing_conn].
  destruct Hc as (_ & _ & _ & Hc). unfold closed in *.
  destruct (_closed (get_conn x)); [by rewrite Hc in Hcl|done].
Qed.

(** The library's constructor fails by a write that failed. *)
Lemma on_conn_throws c (x x' : X) e :
  on_conn c x = (Throw e, x') → closed (get_conn x') = true.
Proof.
  destruct c; simpl; unfold onData, onReady, onError, onClosed, modify_conn, on_pure, on_world,
    get_member; run; try done.
  destruct (socket_write _ _) as [[message|] w]; cbn; [|done].
  rewrite get_conn_world, get_set_conn. destruct (_closed _); [done|].
  intros [= _ <-]. by rewrite get_set_conn.
Qed.
Lemma soft_throws {A} (a : Activity W ConnCallback A) (x x' : X) e :
  soft a → perform on_conn a x = (Throw e, x') → closed (get_conn x') = true.
Proof.
  revert x. induction a as [o w|c w resume IH]; intros x; simpl; [by intros [v ->]|]. intros Hs.
  destruct (on_conn c (set_world w x)) as [[[]|e'|] x1] eqn:Hc; [by apply IH| |done].
  intros [= -> ->]. by eapply on_conn_throws.
Qed.

Section connecting.
Context (I : X → Prop).
Context (I_world : ∀ w x, I x → (silent (get_world x) → silent w) → I (set_world w x)).
Context (I_conn : ∀ c x, I x → evolves (get_conn x) c → I (set_conn c x)).

Definition dialled (o : outcome (option string)) (x : X) : Prop :=
  o ≠ Undefined ∧ I x ∧ (o = Ret None ∨ idle (get_world x)).

Lemma dial_connect addresses port x :
  I x → idle (get_world x) → ends (on_world (socket_connect addresses port)) x dialled.
Proof.
  intros Hx Hid. unfold ends, on_world.
  destruct (law_connect addresses port (get_world x)) as (Hd & _ & Hs & Hi).
  destruct (socket_connect _ _ _) as [o w]. cbn in *. split; [done|].
  split; [by apply I_world|]. rewrite get_set_world. destruct Hi as [->|Hi]; auto.
Qed.

Lemma dial host port x :
  I x → idle (get_world x) →
  ends (match make_address host with
       | Some literal => on_world (socket_connect [literal] port)
       | None =>
           '(ec, endpoints) ← on_world (resolve host (pretty port));
           match ec with
           | Some message =>
               throw (runtime_error ("cannot resolve '" +:+ host +:+ "': " +:+ message +:+
                 " (pass an IP literal such as 127.0.0.1 instead -- restrictive DNS policy" +:+
                 " can break even localhost lookups)"))
           | None => on_world (socket_connect endpoints port)
           end
       end) x dialled.
Proof.
  intros Hx Hid. destruct (make_address host); [by apply dial_connect|]. unfold ends. run.
  unfold on_world at 1. destruct (law_resolve host (pretty port) (get_world x)) as (Hd & Hl).
  destruct (resolve _ _ _) as [o w]. cbn in *. destruct Hl as (_ & Hs & Hi).
  assert (Hx1 : I (set_world w x)) by by apply I_world.
  assert (Hid1 : idle (get_world (set_world w x))) by (rewrite get_set_world; auto).
  destruct o as [[[message|] endpoints]|e|]; [|by apply dial_connect| |done];
    (split; [done|split; [done|by right]]).
Qed.

Definition connected (o : outcome unit) (x : X) : Prop :=
  o ≠ Undefined ∧ I x ∧ joined x ∧ (o = Ret tt → parsing x).

Lemma parsed_connected o x : o ≠ Undefined → I x → parsing x → connected o x.
Proof. intros Ho Hx Hp. split_and!; [done|done|by right|done]. Qed.

Lemma connect_ends on_channel timeout x :
  (∀ predicate, safe (λ x, I x ∧ parsing x) (AmqpConnection.pumpUntil on_channel predicate timeout)) →
  I x → idle (get_world x) → ends (AmqpConnection.connect on_channel timeout) x connected.
Proof.
  intros Hpump Hx Hid. unfold AmqpConnection.connect. eapply ends_bind; [done|]. unfold id.
  eapply ends_then; [by apply dial|by intros x1 [? _]|..].
  2: { intros e x1 (_ & Hx1 & [?|Hi]); [done|]. by split_and!; [| |left|]. }
  intros [message|] x1 (_ & Hx1 & Hi).
  { destruct Hi as [?|Hi]; [done|]. by split_and!; [| |left|]. }
  pose proof (law_create (_user (get_conn x)) (_password (get_conn x)) (_vhost (get_conn x))
    (get_world x1)) as [Hsoft Hcreate].
  eapply (ends_then _ _ _ (λ o x2, o ≠ Undefined ∧ I x2 ∧
    ∀ e, o = Throw e → closed (get_conn x2) = true)); [|by intros x2 [? _]|..].
  { assert (Hw : ∀ w x, I x → passes (get_world x) w → I (set_world w x))
      by (intros w y Hy (_ & Hs & _); by apply I_world).
    destruct (safe_call I Hw I_conn _ Hcreate x1 Hx1) as (Hd & Hx2 & _). unfold ends, call in *.
    destruct (perform _ _ _) as [o x2] eqn:Hp. split_and!; [done|done|]. intros e ->.
    by eapply soft_throws. }
  2: { intros e x2 (Hd & Hx2 & Hc). split_and!; [done|done| |done].
       unfold joined. by rewrite (Hc e eq_refl). }
  intros [] x2 (_ & Hx2 & _). eapply ends_bind; [done|].
  eapply (ends_safe (λ x, I x ∧ parsing x)); [apply Hpump| | |].
  - split; [apply I_conn, evolves_connection; done|]. unfold parsing. by rewrite get_set_conn.
  - intros settled x3 [Hx3 Hp3]. eapply ends_bind; [done|]. unfold id, ends.
    destruct (negb (is_empty _)); [by apply parsed_connected|].
    destruct (_closed _); [by apply parsed_connected|].
    destruct (negb settled || _); by apply parsed_connected.
  - intros e x3 [Hx3 Hp3]. by apply parsed_connected.
Qed.
End connecting.
End connections.

Import AmqpCpp.

(** ** The transport *)

Section transport.
Context {W : Type} `{!AmqpLibrary W, !Lawful W} {H S : Type} (run : Runner (AmqpCppTransport W H) H S).
Local Abbreviation T := (AmqpCppTransport W H).
Local Abbreviation X := (T * S)%type.

(** What a handler must leave to the transport that is delivering to it: its channel,
    its connection, the bytes being parsed, its policy and the count of attempts.  It
    may send, settle or fail; it may not close or connect the transport, set its
    policy, or call what pumps -- [pump], [ensureTopic], [topicDepth], [purgeTopic]. *)
Definition grip (x : X) :=
  (_channel x.1, AmqpConnection._connection <$> _connection x.1, _inBuffer (get_conn x),
   (_policy x.1, _failedAttempts x.1)).

Context (run_defined : ∀ h d x, (run h d x).1 ≠ Undefined).
Context (run_grip : ∀ h d x, grip (run h d x).2 = grip x).
Context (run_later : ∀ h d x, later time silent idle (world x.1) (world (run h d x).2.1)).

Definition retry (x : X) : ReconnectPolicy * Z := (_policy x.1, _failedAttempts x.1).

(** With a channel, on a connection that has its parser; and with a connection that
    has no channel yet, whose socket may never have been connected. *)
Definition parses (x : X) : Prop := ∃ c, _connection x.1 = Some c ∧ AmqpConnection._connection c = true.
Definition live k (x : X) : Prop := is_Some (_channel x.1) ∧ parses x ∧ retry x = k.
Definition quiet k (x : X) : Prop :=
  _channel x.1 = None ∧ is_Some (_connection x.1) ∧ silent (world x.1) ∧ retry x = k.
Definition hushed k (x : X) : Prop := quiet k x ∧ joined x.

Lemma parses_conn c (x : X) : parses x → evolves (get_conn x) c → parses (set_conn c x).
Proof.
  intros (c0 & Hc & Hp) He. exists c. split; [done|]. destruct He as (_ & He & _). apply He.
  cbn. unfold the_conn. by rewrite Hc.
Qed.
Lemma parses_parsing (x : X) : parses x → parsing x.
Proof. intros (c & Hc & Hp). unfold parsing. cbn. unfold the_conn. by rewrite Hc. Qed.
Lemma parsing_parses (x : X) : parsing x → is_Some (_connection x.1) → parses x.
Proof. intros Hp [c Hc]. exists c. unfold parsing in Hp. cbn in Hp. unfold the_conn in Hp. by rewrite Hc in Hp. Qed.

Lemma live_world k w (x : X) : live k x → live k (AmqpConnection.set_world w x).
Proof. done. Qed.
Lemma live_conn k c (x : X) : live k x → evolves (get_conn x) c → live k (set_conn c x).
Proof. intros (? & ? & ?) ?. split_and!; [done|by apply parses_conn|done]. Qed.
Lemma quiet_world k w (x : X) :
  quiet k x → (silent (get_world x) → silent w) → quiet k (AmqpConnection.set_world w x).
Proof. intros (? & ? & Hs & ?) Hw. split_and!; [done|done|by apply Hw|done]. Qed.
Lemma quiet_conn k c (x : X) : quiet k x → evolves (get_conn x) c → quiet k (set_conn c x).
Proof. intros (? & _ & ? & ?) _. split_and!; [done|by eexists|done..]. Qed.

(** A quiet connection that also ... *)
Section quiet_and.
Context (k : ReconnectPolicy * Z) (J : X → Prop).
Context (J_world : ∀ w x, J x → later time silent idle (get_world x) w → J (AmqpConnection.set_world w x)).
Context (J_conn : ∀ c x, J x → evolves (get_conn x) c → J (set_conn c x)).
Lemma quiet_and_world w (x : X) : quiet k x ∧ J x → later time silent idle (get_world x) w →
  quiet k (AmqpConnection.set_world w x) ∧ J (AmqpConnection.set_world w x).
Proof. intros [Hx Hj] Hw. split; [|by apply J_world]. apply quiet_world; [done|]. apply Hw. Qed.
Lemma quiet_and_conn c (x : X) : quiet k x ∧ J x → evolves (get_conn x) c →
  quiet k (set_conn c x) ∧ J (set_conn c x).
Proof. intros [Hx Hj] Hc. split; [by apply quiet_conn|by apply J_conn]. Qed.
End quiet_and.

Lemma hushed_world k w (x : X) :
  hushed k x → later time silent idle (get_world x) w → hushed k (AmqpConnection.set_world w x).
Proof. apply quiet_and_world, joined_world. Qed.
Lemma hushed_conn k c (x : X) : hushed k x → evolves (get_conn x) c → hushed k (set_conn c x).
Proof. apply quiet_and_conn, joined_conn. Qed.
Lemma parsing_world w (x : X) : parsing x → later time silent idle (get_world x) w →
  parsing (AmqpConnection.set_world w x).
Proof. done. Qed.
#[local] Hint Resolve live_conn live_world hushed_world hushed_conn : motus.

Lemma safe_modify_t (I : X → Prop) f :
  (∀ x, I x → I (f x.1, x.2)) → (∀ t, world (f t) = world t) → safe I (modify_t f).
Proof. intros Hf Hw x Hx. unfold modify_t. run. cbn. rewrite Hw. by split_and!; [|apply Hf|]. Qed.
Lemma safe_get_t (I : X → Prop) {A} (f : T → A) : safe I (get_t f).
Proof. apply safe_gets. Qed.
#[local] Hint Resolve safe_get_t : motus.

(** A member is assigned that [live] does not look at. *)
Lemma live_modify k f :
  (∀ t, (_channel (f t), _connection (f t), _policy (f t), _failedAttempts (f t), world (f t)) =
    (_channel t, _connection t, _policy t, _failedAttempts t, world t)) →
  safe (live k) (modify_t f).
Proof.
  intros Hf. apply safe_modify_t; [|intros t; by injection (Hf t)]. intros x (Hc & Hn & Hk).
  injection (Hf x.1) as H1 H2 H3 H4 _. unfold live, retry, parses in *. cbn. rewrite H1, H2, H3, H4. done.
Qed.

Section live.
Context (k : ReconnectPolicy * Z).

Lemma live_call {A} (f : W → Activity W ConnCallback A) :
  ordinary time silent idle f → safe (live k) (call f).
Proof. apply safe_call; auto with motus. Qed.
#[local] Hint Resolve live_call law_exchange law_queue law_bind law_purge law_qos law_consume law_publish
  law_ack law_reject : motus.

Lemma live_the_channel : safe (live k) the_channel.
Proof.
  intros x Hx. pose proof Hx as ([ch Hch] & _). unfold the_channel, get_t. run. by rewrite Hch.
Qed.
#[local] Hint Resolve live_the_channel : motus.

Lemma live_resolve tag d : safe (live k) (resolve_delivery (H:=H) tag d).
Proof. unfold resolve_delivery. safes; by apply live_modify. Qed.
#[local] Hint Resolve live_resolve : motus.

Lemma live_invoke d : safe (live k) (invoke_handler run d).
Proof.
  unfold invoke_handler. apply safe_bind; [auto with motus|]. intros [h|]; [|auto with motus].
  intros x (Hc & Hn & Hk). pose proof (run_grip h d x) as Hg. unfold grip in Hg.
  injection Hg as H1 H2 _ H3 H4. split_and!; [apply run_defined| |apply run_later].
  split_and!; [by rewrite H1| |by rewrite <- Hk; unfold retry; rewrite H3, H4].
  destruct Hn as (c & Hn & Hp). unfold parses. rewrite Hn in H2. cbn in H2.
  destruct (_connection (run h d x).2.1) as [c'|]; [|done]. injection H2 as H2. exists c'.
  by rewrite H2.
Qed.
#[local] Hint Resolve live_invoke : motus.

Lemma live_received body tag redelivered : safe (live k) (onReceived run body tag redelivered).
Proof. unfold onReceived. safes; by apply live_modify. Qed.

Lemma live_on_channel c : safe (live k) (on_channel run c).
Proof. destruct c; cbn [on_channel]; [by apply live_modify..|apply live_received]. Qed.

(** *** With a channel *)

(** A delivery leaves the buffer that is being parsed alone. *)
Definition keeps_buffer {A} (m : M X A) : Prop :=
  ∀ x, _inBuffer (get_conn (m x).2) = _inBuffer (get_conn x).

Lemma buffer_on_channel c : keeps_buffer (on_channel run c).
Proof.
  intros x. set (J := λ y : X, _inBuffer (get_conn y) = _inBuffer (get_conn x)).
  assert (Hmod : ∀ f, (∀ t, _connection (f t) = _connection t) → preserves J (modify_t f)).
  { intros f Hf. apply preserves_modify. intros y Hy. unfold J in *. rewrite <- Hy. cbn.
    unfold the_conn. by rewrite Hf. }
  assert (Hcall : ∀ A (f : W → Activity W ConnCallback A), preserves J (call f)).
  { intros A f y Hy. unfold J in *. rewrite <- Hy. apply perform_keeps_buffer.
    intros. apply on_conn_keeps_buffer. }
  assert (Hrun : ∀ h d, preserves J (run h d)).
  { intros h d y Hy. pose proof (run_grip h d y) as Hg. injection Hg as _ _ Hb _ _.
    exact (eq_trans Hb Hy). }
  assert (Hget : ∀ A (f : T → A), preserves J (get_t f)) by (intros; apply preserves_gets).
  assert (Hch : preserves J the_channel) by (unfold the_channel; frames).
  assert (Hon : preserves J (on_channel run c)); [|by apply Hon].
  destruct c; cbn [on_channel]; [by apply Hmod..|].
  unfold onReceived, invoke_handler, resolve_delivery. frames; by apply Hmod.
Qed.
#[local] Hint Resolve buffer_on_channel : motus.

Lemma live_pumpUntil predicate timeout : safe (live k) (pumpUntil run predicate timeout).
Proof.
  intros x Hx. pose proof Hx as (_ & (c & Hc & _) & _). unfold pumpUntil, get_t. run. rewrite Hc.
  apply (safe_pumpUntil (live k)); [auto with motus..| | | |done].
  - intros _ c' _ _. apply live_on_channel.
  - apply buffer_on_channel.
  - right. intros y (_ & Hy & _). by apply parses_parsing.
Qed.
#[local] Hint Resolve live_pumpUntil live_on_channel : motus.

Lemma live_ask f r step timeout failure timed_out :
  (∀ ch r, ordinary time silent idle (f ch r)) → safe (live k) (ask run f r step timeout failure timed_out).
Proof. intros Hf. unfold ask. safes. Qed.

Lemma live_make_request : safe (live k) make_request.
Proof. unfold make_request. safes; by apply live_modify. Qed.
#[local] Hint Resolve live_make_request live_ask : motus.

Lemma live_declare_destination topic options timeout :
  safe (live k) (declare_destination run topic options timeout).
Proof. unfold declare_destination. safes; (apply live_ask; auto with motus) || by apply live_modify. Qed.
#[local] Hint Resolve live_declare_destination : motus.

Lemma live_require op : safe (live k) (require_channel op).
Proof. unfold require_channel. safes. Qed.
#[local] Hint Resolve live_require : motus.

(** The forensic destination has none of its own. *)
Lemma live_declare topic options timeout : safe (live k) (declare run topic options timeout).
Proof.
  assert (H1 : ∀ fuel topic options, deadLetter options = false →
    safe (live k) (declare_fuel run (Datatypes.S fuel) topic options timeout)).
  { intros fuel topic' options' Hd. cbn [declare_fuel]. rewrite Hd. safes. }
  unfold declare. cbn [declare_fuel]. apply safe_bind; [auto with motus|]. intros ch.
  apply safe_bind; [|intros; auto with motus]. case_match; [|auto with motus].
  apply safe_bind; [by apply (H1 0%nat)|]. intros; auto with motus.
Qed.

Lemma live_startConsuming timeout : safe (live k) (startConsuming run timeout).
Proof. unfold startConsuming. safes; apply live_ask; auto with motus. Qed.
#[local] Hint Resolve live_declare live_startConsuming : motus.
End live.

(** *** Without a channel *)

Section hushed.
Context (k : ReconnectPolicy * Z).

Local Abbreviation pumps J :=
  (∀ predicate timeout, safe (λ x : X, quiet k x ∧ J x)
    (AmqpConnection.pumpUntil (on_channel run) predicate timeout)).

Lemma quiet_pumps (J : X → Prop) :
  (∀ w x, J x → later time silent idle (get_world x) w → J (AmqpConnection.set_world w x)) →
  (∀ c x, J x → evolves (get_conn x) c → J (set_conn c x)) →
  (∀ x, J x → idle (get_world x)) ∨ (∀ x, J x → parsing x) → pumps J.
Proof.
  intros Hw Hc Hj predicate timeout. apply safe_pumpUntil.
  - by apply quiet_and_world.
  - by apply quiet_and_conn.
  - by intros x c [(_ & _ & Hs & _) _] [].
  - apply buffer_on_channel.
  - destruct Hj as [Hj|Hj]; [left|right]; intros x [_ Hx]; by apply Hj.
Qed.
Lemma parsing_pumps : pumps parsing.
Proof. apply quiet_pumps; [done|apply parsing_conn|by right]. Qed.
Lemma idle_pumps : pumps (λ x, idle (get_world x)).
Proof.
  apply quiet_pumps; [|done|by left]. intros w x Hx (_ & _ & Hw). rewrite get_set_world. by apply Hw.
Qed.

(** A slice of the pump before there is a channel. *)
Lemma hushed_pumpUntil predicate timeout (x : X) c :
  hushed k x → _connection x.1 = Some c → closed c = false →
  let '(o, x') := pumpUntil run predicate timeout x in o ≠ Undefined ∧ hushed k x'.
Proof.
  intros [Hx Hj] Hc Hcl. unfold pumpUntil, get_t. run. rewrite Hc.
  assert (Hor : idle (get_world x) ∨ parsing x).
  { apply Hj. cbn. unfold the_conn. by rewrite Hc. }
  assert (Hend : ∀ J, pumps J → J x → (∀ y, J y → joined y) →
    let '(o, x') := AmqpConnection.pumpUntil (on_channel run) predicate timeout x in
    o ≠ Undefined ∧ hushed k x').
  { intros J Hp Hjx Hjj. destruct (Hp predicate timeout x (conj Hx Hjx)) as (Hd & [Hq Hjy] & _).
    destruct (AmqpConnection.pumpUntil _ _ _ x) as [o x']. split; [done|]. split; [done|by apply Hjj]. }
  destruct Hor as [Hi|Hp]; [apply (Hend (λ x, idle (get_world x)))|apply (Hend parsing)];
    auto using parsing_pumps, idle_pumps.
  - intros y Hy _. by left.
  - intros y Hy _. by right.
Qed.

(** *** A connection that is over *)

Definition over (x : X) : Prop := ∀ c, _connection x.1 = Some c → closed c = true.

Lemma over_conn (x : X) : over x → is_Some (_connection x.1) → closed (get_conn x) = true.
Proof. intros Hx [c Hc]. cbn. unfold the_conn. rewrite Hc. by apply Hx. Qed.

Lemma conn_over (x : X) : closed (get_conn x) = true → over x.
Proof. intros Hx c Hc. cbn in Hx. unfold the_conn in Hx. by rewrite Hc in Hx. Qed.

(** A transport between two calls has a channel on a connection with its parser, or
    nothing that could call back. *)
Definition anchored (x : X) : Prop :=
  match _channel x.1 with
  | Some _ => parses x
  | None => silent (world x.1) ∧
      match _connection x.1 with Some _ => joined x | None => idle (world x.1) end
  end.

(** What is left when the channel is gone. *)
Definition ended (x : X) : Prop :=
  _channel x.1 = None ∧ silent (world x.1) ∧ over x ∧ retry x = k ∧
  (_connection x.1 = None → idle (world x.1)).

Lemma reset_channel_over (x : X) :
  over x → retry x = k → anchored x → ∃ x', reset_channel (H:=H) x = (Ret tt, x') ∧ ended x'.
Proof.
  intros Ho Hk Ha. unfold anchored in Ha. unfold reset_channel, get_t, modify_t. run.
  destruct (_channel x.1) as [ch|] eqn:Hch.
  2: { exists x. destruct Ha as [Hs Ha]. unfold ended. split_and!; try done. by destruct (_connection x.1). }
  run. set (x0 := (set_channel None x.1, x.2)).
  set (I := λ x : X, _channel x.1 = None ∧ is_Some (_connection x.1) ∧ retry x = k).
  destruct Ha as (c & Hc & _).
  destruct (noexcept_closed I) with (f := Channel_release ch) (x := x0)
    (post := λ (w0 : W) (_ : outcome unit) w1, time w0 ≤ time w1 ∧ silent w1)
    as (v & x1 & w & -> & (Hi1 & Hi2 & Hi3) & _ & (_ & Hs) & Hcl).
  - done.
  - intros c' y (? & _ & ?) _. split_and!; [done|by eexists|done].
  - split_and!; [done|cbn; rewrite Hc; by eexists|done].
  - apply over_conn; [intros c'; apply Ho|cbn; rewrite Hc; by eexists].
  - intros w. apply law_channel_release.
  - intros w. apply law_channel_release.
  - destruct v. eexists. split; [done|]. split_and!; [done|done| |done|].
    + apply conn_over. by rewrite get_conn_world.
    + cbn. intros Hn. rewrite Hn in Hi2. by destruct Hi2.
Qed.

(** A connection that is over makes room for another one, or for none. *)
Lemma assign_over new (x : X) :
  ended x → ∃ x', assign_connection run new x = (Ret tt, x') ∧ _connection x'.1 = new ∧
    _channel x'.1 = None ∧ silent (world x'.1) ∧ idle (world x'.1) ∧ retry x' = k.
Proof.
  intros (Hc & Hs & Ho & Hk & Hid). unfold assign_connection, get_t, modify_t. run.
  destruct (_connection x.1) as [c|] eqn:Hconn.
  2: { eexists. split; [done|]. split_and!; [done|done|done|by apply Hid|done]. }
  unfold retire. set (x0 := (_, (_, c))).
  set (I := λ y : T * (S * AmqpConnection), _connection y.1 = new ∧ _channel y.1 = None ∧
    silent (world y.1) ∧ retry (y.1, y.2.1) = k).
  destruct (@destroy_closed W _ _ _ dying_conn I) with (on_channel :=
    @on_channel W _ H _ (run_dying run) dying_conn) (x := x0)
    as (x' & -> & (H1 & H2 & H3 & H4) & Hid' & _).
  - intros w y (? & ? & Hsy & ?) (_ & Hw & _). split_and!; [done|done|by apply Hw|done].
  - done.
  - by split_and!.
  - by apply Ho.
  - eexists. split; [done|]. by split_and!.
Qed.

Lemma reset_connection_over (x : X) :
  ended x → ∃ x', reset_connection run x = (Ret tt, x') ∧ ended x' ∧ _connection x'.1 = None.
Proof.
  intros Hx. destruct (assign_over None x Hx) as (x' & Hr & Hn & Hc & Hs & Hi & Hk).
  exists x'. split; [done|]. split; [|done]. split_and!; [done|done| |done|done].
  intros c. by rewrite Hn.
Qed.

(** *** Opening a connection *)

Definition opened (o : outcome unit) (x : X) : Prop :=
  o ≠ Undefined ∧ (live k x ∨ hushed k x) ∧ (o = Ret tt → live k x).

Lemma hushed_throws e (x : X) : hushed k x → opened (Throw e) x.
Proof. intros Hx. split; [done|]. split; [by right|done]. Qed.

Local Abbreviation ready_made := (λ x : X, quiet k x ∧ parsing x).

Lemma made_hushed (x : X) : ready_made x → hushed k x.
Proof. intros [Hq Hp]. split; [done|]. intros _. by right. Qed.

Lemma channel_created f (x : X) : ready_made x →
  (∀ ch x1, ready_made x1 → ∀ w, ends (f ch) (set_wire w (_connection x1.1) x1.1, x1.2) opened) →
  ends (call Channel_create ≫= f) x opened.
Proof.
  intros Hx Hf. unfold ends. run.
  pose proof (quiet_and_world k parsing parsing_world) as Iw.
  pose proof (quiet_and_conn k parsing parsing_conn) as Ic.
  pose proof (perform_lawful ready_made Iw on_conn (λ _, True) _ (Channel_create (get_world x))
    (λ c _, safe_on_conn ready_made Iw Ic c) x Hx (law_channel_create _)) as Hc.
  unfold call. destruct (perform on_conn (Channel_create (get_world x)) x) as [o x'].
  destruct Hc as (Hd & x1 & Hi & _ & [(w & -> & _ & Hp)|(-> & e & ->)]);
    [|by apply hushed_throws, made_hushed].
  destruct o as [ch|e|]; [by apply Hf| |done]. destruct Hp as [[ch ?]|Hp]; [done|].
  by apply hushed_throws, made_hushed, Iw.
Qed.

Lemma open_over timeout (x : X) : ended x → ends (openConnection run timeout) x opened.
Proof.
  intros Hx. unfold openConnection. eapply ends_bind; [done|]. cbn zeta.
  match goal with |- context [assign_connection run ?new] =>
    destruct (assign_over new x Hx) as (x1 & Hr & Hn & Hc & Hs & Hid & Hk) end.
  eapply ends_bind; [exact Hr|].
  eapply (ends_then _ _ _ (connected (quiet k))); [|by intros x2 [? _]|..].
  { apply connect_ends; [apply quiet_world|apply quiet_conn|intros predicate; apply parsing_pumps| |done].
    split_and!; [done|rewrite Hn; by eexists|done..]. }
  - intros [] x2 (_ & Hx2 & _ & Hp). specialize (Hp eq_refl).
    eapply (ends_safe ready_made); [|done|..].
    + unfold AmqpConnection.connection. apply safe_bind; [apply safe_gets|].
      intros c. apply safe_throw_if.
    + intros [] x3 Hx3. apply channel_created; [done|].
      intros ch x4 [(Hc4 & Hn4 & _ & Hk4) Hp4] w.
      eapply ends_bind; [done|]. eapply ends_bind; [done|]. cbn [fst set_wire _channel]. rewrite Hc4.
      assert (Hl : live k (set_channel (Some ch) (set_wire w (_connection x4.1) x4.1), x4.2)).
      { split_and!; [by eexists| |done]. by apply (parsing_parses x4). }
      split; [done|]. split; [by left|done].
    + intros e x3 Hx3. by apply hushed_throws, made_hushed.
  - intros e x2 (_ & Hx2 & Hj & _). by apply hushed_throws.
Qed.

(** *** Reconnecting *)

Definition kept {A} (o : outcome A) (x : X) : Prop := o ≠ Undefined ∧ (live k x ∨ hushed k x).

(** From a live state everything that is safe ends well. *)
Lemma live_ends {A} (m : M X A) (x : X) : safe (live k) m → live k x → ends m x kept.
Proof.
  intros Hm Hx. destruct (Hm x Hx) as (Hd & Hi & _). unfold ends. destruct (m x) as [o x'].
  split; [done|by left].
Qed.

Lemma live_then {A B} (m : M X A) (f : A → M X B) (x : X) :
  safe (live k) m → live k x → (∀ a x1, live k x1 → ends (f a) x1 kept) → ends (m ≫= f) x kept.
Proof. intros Hm Hx Hf. apply (ends_safe (live k)); [done..|]. intros e x1 ?. split; [done|by left]. Qed.

Lemma restore_session_over (x : X) :
  over x → retry x = k → anchored x → ends (restore_session run) x kept.
Proof.
  intros Ho Hk Ha. unfold restore_session.
  destruct (reset_channel_over x Ho Hk Ha) as (x1 & Hr1 & H1). eapply ends_bind; [exact Hr1|].
  destruct (reset_connection_over x1 H1) as (x2 & Hr2 & H2 & _). eapply ends_bind; [exact Hr2|].
  eapply ends_bind; [done|].
  pose proof (open_over 5000 (set_outstanding ∅ x2.1, x2.2) H2) as Hopen. unfold ends in Hopen |- *.
  unfold mbind at 1, M_bind at 1. destruct (openConnection run 5000 _) as [[[]|e|] x3];
    destruct Hopen as (Hd & Hx3 & Hl); [|by split..]. specialize (Hl eq_refl).
  apply (live_then (get_t id)); [apply safe_gets|done|]. intros t x4 H4.
  apply live_then; [|done|].
  - destruct (_topicDeclared t); [|apply safe_ret].
    apply safe_bind; [apply live_declare|intros; apply safe_ret].
  - intros [] x5 H5. apply live_then; [apply safe_gets|done|]. intros t' x6 H6. apply live_ends; [|done].
    destruct (_subscribed t'); [apply live_startConsuming|apply safe_ret].
Qed.
End hushed.

(** ** Every method *)

(** A transport between two calls. *)
Definition retry_fine (k : ReconnectPolicy * Z) : Prop :=
  0 ≤ k.2 ∧ maxAttempts k.1 < 2 ^ 32 ∧ ∀ n, 1 ≤ n ≤ maxAttempts k.1 → backoff k.1 n ≠ Undefined.

Definition sane (x : X) : Prop := anchored x ∧ retry_fine (retry x).

Definition harmless {A} (m : M X A) (x : X) : Prop := ends m x (λ o x', o ≠ Undefined ∧ sane x').

Lemma kept_sane {A} k (o : outcome A) (x : X) :
  retry_fine k → kept k o x → o ≠ Undefined ∧ sane x.
Proof.
  intros Hk [Ho [(Hc & Hn & Hr)|[(Hc & Hn & Hs & Hr) Hj]]]; (split; [done|]); split; rewrite ?Hr;
    try done; unfold anchored.
  - by destruct Hc as [ch ->].
  - rewrite Hc. destruct Hn as [c ->]. by split.
Qed.

Lemma sane_live (x : X) : sane x → is_Some (_channel x.1) → live (retry x) x.
Proof.
  intros [Ha _] [ch Hch]. unfold anchored in Ha. rewrite Hch in Ha.
  by split_and!; [rewrite Hch; eexists|..].
Qed.

Lemma anchored_world w (x : X) :
  anchored x → later time silent idle (world x.1) w → anchored (AmqpConnection.set_world w x).
Proof.
  intros Ha Hw. unfold anchored in *. pose proof (λ Hj, joined_world w x Hj Hw) as Hj.
  change (_channel (AmqpConnection.set_world w x).1) with (_channel x.1).
  change (_connection (AmqpConnection.set_world w x).1) with (_connection x.1).
  destruct (_channel x.1); [done|]. destruct Ha as [Hs Ha].
  split; [by apply Hw|]. destruct (_connection x.1); [by apply Hj|by apply Hw].
Qed.

(** A method that needs a channel. *)
Lemma harmless_channel {A} (m : M X A) x :
  sane x → (∀ k, safe (live k) m) → (_channel x.1 = None → ∃ e, m x = (Throw e, x)) → harmless m x.
Proof.
  intros Hx Hm Hn. unfold harmless. destruct (_channel x.1) as [ch|] eqn:Hch.
  - pose proof (live_ends (retry x) m x (Hm _)
      (sane_live x Hx ltac:(rewrite Hch; by eexists))) as Hend.
    unfold ends in *. destruct (m x) as [o x']. apply (kept_sane (retry x)); [apply Hx|done].
  - destruct (Hn eq_refl) as [e He]. unfold ends. by rewrite He.
Qed.

Lemma sane_retry p a next (x : X) : sane x → retry_fine (p, a) → sane (set_retry p a next x.1, x.2).
Proof. intros [Hx _] Hk. by split. Qed.

Lemma kept_retry {A} k (o : outcome A) (x : X) : kept k o x → retry x = k.
Proof. by intros [_ [(_ & _ & ?)|[(_ & _ & _ & ?) _]]]. Qed.

(** The wait after a failure is one the policy can compute. *)
Lemma restore_failed_harmless (x : X) :
  sane x → 1 ≤ _failedAttempts x.1 ≤ maxAttempts (_policy x.1) → harmless restore_failed x.
Proof.
  intros Hx Hn. pose proof Hx as [Ha (H0 & Hm & Hb)]. unfold harmless, restore_failed. eapply ends_bind; [done|]. unfold id.
  pose proof (Hb _ Hn) as Hd0. cbn [fst retry] in Hd0.
  destruct (backoff (_policy x.1) (_failedAttempts x.1)) as [d|e|] eqn:Hd; [|by split|done].
  eapply ends_bind; [by unfold lift|].
  destruct (law_clock (world x.1)) as [_ Hs]. destruct (steady_now (world x.1)) as [t w] eqn:Ht.
  eapply ends_bind; [by unfold now, on_pure, on_world; cbn; rewrite Ht|].
  split; [done|]. split; [|by split_and!]. by apply (anchored_world w x).
Qed.

(** One attempt. *)
Lemma attempt_harmless (x : X) :
  sane x → over x → 1 ≤ _failedAttempts x.1 ≤ maxAttempts (_policy x.1) →
  harmless (try_catch (_ ← restore run; mret true)
    (λ e, if is_std e then _ ← restore_failed; mret true else throw e)) x.
Proof.
  intros [Ha Hf] Ho Hn. pose proof (restore_session_over (retry x) x Ho eq_refl Ha) as Hres.
  unfold harmless, ends in *. unfold try_catch, restore. run.
  destruct (restore_session run x) as [o x1].
  pose proof (kept_retry _ _ _ Hres) as Hk. destruct (kept_sane _ _ _ Hf Hres) as [Ho1 Hx1].
  destruct o as [[]|e|]; [| |done].
  - unfold modify_t. run. split; [done|]. apply (sane_retry (_policy x1.1) 0 (_nextAttempt x1.1) x1 Hx1).
    destruct Hx1 as [_ (_ & Hm & Hb)]. by split_and!.
  - destruct (is_std e); [|done]. injection Hk as Hk1 Hk2.
    pose proof (restore_failed_harmless x1 Hx1 ltac:(by rewrite Hk1, Hk2)) as Hfail.
    unfold harmless, ends in Hfail. destruct (restore_failed x1) as [[[]|e'|] x2];
      destruct Hfail as [Hu Hs2]; [by split..|by destruct Hu].
Qed.

Lemma service_harmless (x : X) : sane x → over x → harmless (serviceReconnect run) x.
Proof.
  intros Hx Ho. pose proof Hx as [Ha Hf]. unfold harmless, serviceReconnect.
  eapply ends_bind; [done|]. unfold id.
  destruct (enabled (_policy x.1)); [cbn [negb]|by split]. case_bool_decide as Hno; [by split|].
  destruct (law_clock (world x.1)) as [_ Hs]. destruct (steady_now (world x.1)) as [t w] eqn:Ht.
  set (x1 := (set_wire w (_connection x.1) x.1, x.2)).
  assert (Hx1 : sane x1) by (split; [|done]; by apply (anchored_world w x)).
  eapply ends_bind; [by unfold now, on_pure, on_world; cbn; rewrite Ht|].
  case_bool_decide as Hwait; [by split|]. eapply ends_bind; [done|].
  destruct Hf as (H0 & Hm & Hb). cbn [fst snd retry] in H0, Hm.
  apply (attempt_harmless (set_retry (_policy x.1) (u32 (_failedAttempts x.1 + 1)) (_nextAttempt x.1)
    x1.1, x1.2)).
  - apply sane_retry; [done|]. split; [cbn; rewrite u32_small by lia; lia|done].
  - exact Ho.
  - cbn. rewrite u32_small by lia. lia.
Qed.

Lemma after_slice_harmless (x : X) :
  sane x → is_Some (_connection x.1) → harmless (after_slice run) x.
Proof.
  intros Hx [c Hc]. unfold harmless, after_slice. eapply ends_bind; [done|].
  destruct (_handlerFailure x.1); [eapply ends_bind; [done|]; by destruct Hx|].
  eapply ends_bind; [done|]. unfold id. rewrite Hc.
  destruct (closed c && enabled (_policy x.1)) eqn:Hdown; [|by split].
  apply andb_true_iff in Hdown as [Hcl _]. apply service_harmless; [done|].
  intros c' Hc'. by simplify_eq.
Qed.

Lemma pump_harmless slice (x : X) : sane x → harmless (pump run slice) x.
Proof.
  intros Hx. pose proof Hx as [Ha Hf]. unfold harmless, pump. eapply ends_bind; [done|]. unfold id.
  assert (Hdown : over x → ends (if negb (enabled (_policy x.1)) then mret false else serviceReconnect run) x
    (λ o x', o ≠ Undefined ∧ sane x')).
  { intros Ho. destruct (enabled _); [by apply service_harmless|by split]. }
  destruct (_connection x.1) as [c|] eqn:Hc; [|apply Hdown; intros c'; by rewrite Hc].
  destruct (closed c) eqn:Hcl; [apply Hdown; intros c'; by rewrite Hc; intros [= <-]|].
  destruct (_channel x.1) as [ch|] eqn:Hch.
  - apply (ends_safe (live (retry x))); [apply live_pumpUntil|apply sane_live; [done|by rewrite Hch]|..].
    + intros b x1 H1. apply after_slice_harmless.
      * by apply (kept_sane (retry x) (Ret b)); [|split; [|left]].
      * destruct H1 as (_ & (c1 & -> & _) & _). by eexists.
    + intros e x1 H1. by apply (kept_sane (retry x)); [|split; [|left]].
  - unfold anchored in Ha. rewrite Hch, Hc in Ha. destruct Ha as [Hs Hj].
    eapply (ends_then _ _ _ (λ o x1, o ≠ Undefined ∧ hushed (retry x) x1));
      [|intros x1 [Hu _]; by apply Hu|..].
    + apply (hushed_pumpUntil (retry x) _ _ x c); [|done..].
      split; [|done]. split_and!; [done|by rewrite Hc|done..].
    + intros b x1 [_ H1]. apply after_slice_harmless; [|apply H1].
      by apply (kept_sane (retry x) (Ret b)); [|split; [|right]].
    + intros e x1 [_ H1]. by apply (kept_sane (retry x)); [|split; [|right]].
Qed.

(** *** The other methods *)

Lemma opened_harmless timeout (x : X) :
  sane x → _channel x.1 = None → over x → harmless (openConnection run timeout) x.
Proof.
  intros [Ha Hf] Hch Ho. unfold anchored in Ha. rewrite Hch in Ha. destruct Ha as [Hs Ha].
  assert (Hx : ended (retry x) x).
  { unfold ended. split_and!; try done. by destruct (_connection x.1). }
  pose proof (open_over (retry x) timeout x Hx) as Hopen. unfold harmless, ends in *.
  destruct (openConnection run timeout x) as [o x']. destruct Hopen as (Hd & Hx' & _).
  by apply (kept_sane (retry x)); [|split].
Qed.

Lemma ended_sane (x : X) : ended (retry x) x → retry_fine (retry x) → sane x.
Proof.
  intros (Hc & Hs & Ho & _ & Hi) Hf. split; [|done]. unfold anchored. rewrite Hc. split; [done|].
  destruct (_connection x.1) as [c|] eqn:Hn; [|by apply Hi].
  intros Hcl. pose proof (over_conn x Ho ltac:(rewrite Hn; by eexists)). congruence.
Qed.

Lemma close_harmless timeout (x : X) : sane x → over x → harmless (close run timeout) x.
Proof.
  intros [Ha Hf] Ho. unfold harmless, close. eapply ends_bind; [done|].
  destruct (reset_channel_over (retry x) (set_outstanding ∅ x.1, x.2) Ho eq_refl Ha)
    as (x1 & Hr & Hx1).
  eapply ends_bind; [exact Hr|]. eapply ends_bind; [done|]. pose proof Hx1 as (Hc1 & Hs1 & Ho1 & Hk1 & _).
  rewrite <- Hk1 in Hf, Hx1. apply ended_sane in Hx1; [|done].
  destruct (_connection x1.1) as [c|] eqn:Hconn; [|by do 2 (eapply ends_bind; [done|])].
  assert (Hcl : closed (get_conn x1) = true) by (apply over_conn; [done|by rewrite Hconn]).
  destruct (shut_run (hushed (retry x1)) (hushed_world _) x1) as (x2 & Hshut & _ & _ & Hk2).
  destruct Hk2 as [Hh2 _].
  { split; [split_and!; [done|rewrite Hconn; by eexists|done..]|].
    intros Hcl'. unfold closed in *. congruence. }
  assert (Hclose : AmqpConnection.close (on_channel run) timeout x1 = (Ret tt, x2)).
  { unfold AmqpConnection.close, get_member. run. unfold id. unfold closed in Hcl.
    by rewrite Hcl, andb_false_r. }
  eapply ends_bind; [exact Hclose|]. eapply ends_bind; [done|].
  destruct (kept_sane (retry x1) (Ret tt) x2 Hf) as [_ [Ha2 Hf2]]; [split; [done|by right]|].
  by split.
Qed.

Lemma destroy_harmless (x : X) : sane x → over x → harmless (destroy run) x.
Proof.
  intros [Ha Hf] Ho. unfold harmless, destroy, ends, try_catch. run.
  destruct (reset_channel_over (retry x) x Ho eq_refl Ha) as (x1 & -> & H1).
  destruct (reset_connection_over (retry x) x1 H1) as (x2 & -> & H2 & _).
  pose proof H2 as (_ & _ & _ & Hk2 & _). rewrite <- Hk2 in Hf, H2.
  split; [done|]. by apply ended_sane.
Qed.

(** ** Sessions *)

(** The calls an application makes, with their answers forgotten. *)
Inductive Method : Type :=
  | m_connect (endpoint : Endpoint) (timeout : Z)
  | m_close (timeout : Z)
  | m_destroy
  | m_ensureTopic (topic : Topic) (options : TopicOptions) (timeout : Z)
  | m_topicDepth (topic : Topic) (timeout : Z)
  | m_purgeTopic (topic : Topic) (timeout : Z)
  | m_send (topic : Topic) (payload : string) (options : SendOptions)
  | m_subscribe (topic : Topic) (handler : option H) (timeout : Z)
  | m_settle (tag : Z) (d : Disposition)
  | m_setReconnectPolicy (policy : ReconnectPolicy)
  | m_pump (slice : Z).

Definition invoke (m : Method) : M X unit :=
  match m with
  | m_connect endpoint timeout => connect run endpoint timeout
  | m_close timeout => close run timeout
  | m_destroy => destroy run
  | m_ensureTopic topic options timeout => ensureTopic run topic options timeout
  | m_topicDepth topic timeout => _ ← topicDepth run topic timeout; mret tt
  | m_purgeTopic topic timeout => _ ← purgeTopic run topic timeout; mret tt
  | m_send topic payload options => _ ← send topic payload options; mret tt
  | m_subscribe topic handler timeout => subscribe run topic handler timeout
  | m_settle tag d => settle tag d
  | m_setReconnectPolicy policy => setReconnectPolicy policy
  | m_pump slice => _ ← pump run slice; mret tt
  end.

(** Ending a connection is for one whose end was noticed, connecting for a transport
    that has none; a policy is one whose delays can be computed. *)
Definition permitted (m : Method) (x : X) : Prop :=
  match m with
  | m_connect _ _ => _channel x.1 = None ∧ over x
  | m_close _ | m_destroy => over x
  | m_setReconnectPolicy policy => retry_fine (policy, 0)
  | _ => True
  end.

Lemma harmless_forget {A} (m : M X A) x : harmless m x → harmless (_ ← m; mret tt) x.
Proof.
  unfold harmless, ends. intros Hm. run. destruct (m x) as [[a|e|] x']; destruct Hm as [Hd Hs];
    [by split..|by destruct Hd].
Qed.

Ltac members :=
  repeat lazymatch goal with
    | |- ∀ _, _ => intros ?
    | |- safe _ (_ ≫= _) => apply safe_bind
    | |- safe _ (get_t _) => apply safe_get_t
    | |- safe _ (throw_if _ _) => apply safe_throw_if
    | |- safe _ (mret _) => apply safe_ret
    | |- safe _ (modify_t _) => by apply live_modify
    | |- safe _ (require_channel _) => apply live_require
    | |- safe _ make_request => apply live_make_request
    end.

(** The six that need a channel. *)
Lemma live_ensureTopic k topic options timeout : safe (live k) (ensureTopic run topic options timeout).
Proof. unfold ensureTopic. members. apply live_declare. Qed.

Lemma live_topicDepth k topic timeout : safe (live k) (topicDepth run topic timeout).
Proof.
  unfold topicDepth. members. apply live_ask. intros. apply law_queue.
Qed.

Lemma live_purgeTopic k topic timeout : safe (live k) (purgeTopic run topic timeout).
Proof.
  unfold purgeTopic. members. apply live_ask. intros. apply law_purge.
Qed.

Lemma live_send k topic payload options : safe (live k) (send (H:=H) topic payload options).
Proof.
  unfold send. apply safe_bind; [apply live_require|]. intros ch. apply safe_bind; [apply safe_throw_if|].
  intros []. apply safe_bind; [apply safe_get_t|]. intros [exchange key].
  apply safe_bind; [apply live_call, law_publish|]. intros []; members.
Qed.

Lemma live_subscribe k topic handler timeout : safe (live k) (subscribe run topic handler timeout).
Proof.
  unfold subscribe. apply safe_bind; [apply live_require|]. intros ch.
  destruct handler as [h|]; [|apply safe_throw]. members. apply live_startConsuming.
Qed.

Lemma live_settle k tag d : safe (live k) (settle (H:=H) tag d).
Proof.
  unfold settle. members. destruct d; (apply live_resolve || apply safe_ret).
Qed.

Lemma invoke_harmless m x : sane x → permitted m x → harmless (invoke m) x.
Proof.
  intros Hx Hp.
  assert (Hnone : ∀ op A (f : Channel → M X A), _channel x.1 = None →
    ∃ e, (require_channel op ≫= f) x = (Throw e, x)).
  { intros op A f Hn. unfold require_channel, get_t. run. rewrite Hn. by eexists. }
  destruct m; cbn [invoke permitted] in *; try apply harmless_forget.
  - destruct Hp as [Hc Ho]. unfold harmless, connect. eapply ends_bind; [done|].
    by apply (opened_harmless _ (set_endpoint endpoint x.1, x.2)).
  - by apply close_harmless.
  - by apply destroy_harmless.
  - apply harmless_channel; [done|intros; apply live_ensureTopic|]. intros Hn.
    destruct (Hnone "ensureTopic" _ (λ _, mret tt) Hn) as [e He]. exists e.
    unfold ensureTopic, declare. cbn [declare_fuel]. run_in He. run.
    by destruct (require_channel _ x) as [[]]; simplify_eq.
  - apply harmless_channel; [done|intros; apply live_topicDepth|apply Hnone].
  - apply harmless_channel; [done|intros; apply live_purgeTopic|apply Hnone].
  - apply harmless_channel; [done|intros; apply live_send|apply Hnone].
  - apply harmless_channel; [done|intros; apply live_subscribe|apply Hnone].
  - apply harmless_channel; [done|intros; apply live_settle|apply Hnone].
  - split; [done|]. by apply sane_retry.
  - by apply pump_harmless.
Qed.

(** Any number of calls, with anything happening to the world in between. *)
Inductive session : X → list Method → X → Prop :=
  | session_none x : session x [] x
  | session_world x w s ms x' :
      later time silent idle (world x.1) w → session (set_wire w (_connection x.1) x.1, s) ms x' →
      session x ms x'
  | session_call m x ms x' :
      permitted m x → session (invoke m x).2 ms x' → session x (m :: ms) x'.

Lemma session_sane x ms x' : session x ms x' → sane x → sane x'.
Proof.
  induction 1 as [x|x w s ms x' Hw _ IH|m x ms x' Hp _ IH]; intros Hx; [done|apply IH..].
  - destruct Hx as [Ha Hf]. split; [|done]. by apply (anchored_world w x).
  - pose proof (invoke_harmless m x Hx Hp) as Hm. unfold harmless, ends in Hm.
    destruct (invoke m x) as [o x1]. apply Hm.
Qed.

Lemma default_retry_fine : retry_fine (default_ReconnectPolicy, 0).
Proof.
  split; [done|]. split; [done|]. cbn. intros n Hn.
  assert (n = 1 ∨ n = 2 ∨ n = 3 ∨ n = 4 ∨ n = 5) as Hcases by lia.
  by destruct Hcases as [->|[->|[->|[->| ->]]]].
Qed.

(** C18. No undefined behaviour.  Over lawful libraries and handlers that leave the
    channel, the connection, the receive buffer and the retry state of the transport
    calling them alone, however an application uses it -- in any order, with failing
    calls, lost peers and reconnections on the way, anything happening between the
    calls -- no method call dereferences a null channel, transport connection or
    library connection, overruns the receive buffer, waits without end, shifts out of
    range or lets an exception out of a destructor, as long as an end is put only to a
    connection whose end was noticed, [connect] is called without a channel, and the
    policy's delays can be computed. *)
Theorem never_undefined w s ms x :
  silent w → idle w → session (new_AmqpCppTransport w, s) ms x →
  ∀ m, permitted m x → (invoke m x).1 ≠ Undefined.
Proof.
  intros Hw Hi Hs m Hp. assert (Hx : sane x).
  { apply (session_sane _ ms _ Hs). split; [by split|apply default_retry_fine]. }
  pose proof (invoke_harmless m x Hx Hp) as Hm. unfold harmless, ends in Hm.
  destruct (invoke m x) as [o x']. apply Hm.
Qed.
End transport.

(** The handlers' side of the bargain is needed: one that closes the transport it is
    called by and then answers anything but [Deferred] has its answer sent through
    the null channel. *)
Lemma closing_handler_undefined {W} `{!AmqpLibrary W} {H S} (run : Runner (AmqpCppTransport W H) H S)
    body tag redelivered d (x x' : AmqpCppTransport W H * S) :
  invoke_handler run (mkDelivery body redelivered tag) (with_stats count_received x.1, x.2) = (Ret d, x') →
  _channel x'.1 = None → d ≠ Deferred → (onReceived run body tag redelivered x).1 = Undefined.
Proof.
  intros Hrun Hch Hd. unfold onReceived, modify_t. run. rewrite Hrun. run.
  destruct d; [..|done]; unfold resolve_delivery, the_channel, get_t; run; by rewrite Hch.
Qed.

(** ** The property on the toy library *)

Module Session.
Import AmqpConnection.Sample.
Import AmqpCpp.Demo.

Local Abbreviation T := (AmqpCppTransport Wire (option Disposition)).

Definition no_channel_yet (w : Wire) : Prop := wire_channel w = false.
Definition no_socket (w : Wire) : Prop := wire_open w = false.
Local Abbreviation passes := (later wire_now no_channel_yet no_socket).

Lemma sends_ordinary {A} s (k : Wire → Wire) (a : A) (g : Wire → Wire) :
  (∀ w, passes w (k w)) → (∀ w, passes w (g w)) →
  ordinary wire_now no_channel_yet no_socket (λ w, sends s k a (g w)).
Proof. intros Hk Hg w. split; [apply Hg|]. split; [done|]. intros w' _. by split; [|apply Hk]. Qed.

Lemma says_passes s w : passes w (says s w).
Proof. unfold says. by case_match. Qed.

Lemma asks_ordinary r step s : ordinary wire_now no_channel_yet no_socket (asks r step s).
Proof. apply (sends_ordinary s _ _ (set_request (r, step))); [|done]. intros w. apply says_passes. Qed.

Lemma frames_of_lawful s n w b :
  n + size_of s ≤ size_of b →
  obeys passes (λ c, no_channel_yet w → ∃ k, c = inl k)
    (λ w0 o w1, passes w0 w1 ∧ ∀ m, o = Ret m → m ≤ size_of b) w (frames_of s n w).
Proof.
  set (ok := λ c : AnyCallback, no_channel_yet w → ∃ k, c = inl k).
  set (post := λ (w0 : Wire) (o : outcome Z) w1, passes w0 w1 ∧ ∀ m, o = Ret m → m ≤ size_of b).
  assert (H : ∀ s n w0 w1, n + size_of s ≤ size_of b → passes w w1 → passes w0 w1 →
    obeys passes ok post w0 (frames_of s n w1)); [|by intros; apply H].
  clear s n. intros s. induction s as [s IH] using (induction_ltof1 _ String.length).
  intros n w0 w1 Hn Hw1 Hw0. destruct s as [|c rest]; simpl.
  { split; [done|]. split; [done|]. intros m [= <-]. unfold size_of in Hn. cbn in Hn. unfold size_of. lia. }
  assert (Hrest : n + 1 + size_of rest ≤ size_of b) by (unfold size_of in *; cbn in Hn; lia).
  case_bool_decide; [destruct rest as [|c' rest]|].
  - split; [done|]. split; [done|]. intros m [= <-]. unfold size_of in *. cbn in Hrest. lia.
  - apply IH; [unfold ltof; simpl; lia| |done..]. unfold size_of in *. cbn in Hrest. lia.
  - match goal with |- obeys _ _ _ _ (if is_channel ?cb && _ then frames_of _ _ ?w2 else _) =>
      assert (passes w1 w2 ∧ wire_channel w2 = wire_channel w1) as [Hw2 Hc2] by (by destruct (_ || _));
      generalize dependent w2; generalize cb end.
    intros callback w2 Hw2 Hc2. destruct (is_channel callback && negb (wire_channel w2)) eqn:Hlive.
    + apply IH; [unfold ltof; simpl; lia|done|by etrans..].
    + split; [by etrans|]. split.
      * intros Hs. destruct callback as [k|k]; [by eexists|]. exfalso. cbn in Hlive.
        apply negb_false_iff in Hlive. rewrite Hc2 in Hlive. destruct Hw1 as (_ & Hw1 & _).
        specialize (Hw1 Hs). unfold no_channel_yet in Hw1. congruence.
      * intros w' Hw'. apply IH; [unfold ltof; simpl; lia|done| |done].
        etrans; [exact Hw1|]. by etrans.
Qed.

#[export] Instance wire_lawful : Lawful Wire.
Proof.
  refine {| time := wire_now; silent := no_channel_yet; idle := no_socket |}; try (intros; apply asks_ordinary);
    try (intros; by apply (sends_ordinary _ _ _ id)).
  - intros w. split; [unfold reads_between; cbn; lia|]. split; [cbn; lia|done].
  - intros timeout w. cbn. repeat case_match; split; try done; cbn; lia.
  - done.
  - intros timeout bytes w Hw. cbn. unfold no_socket in Hw. by rewrite Hw.
  - intros data w. cbn. by case_match.
  - intros host port w. by split.
  - intros addresses port w. cbn. case_match; (split; [done|]; split; [done|]; split; [done|]); auto.
  - done.
  - intros b w. apply frames_of_lawful. lia.
  - intros user password vhost w. split; [by eexists|]. apply (sends_ordinary _ _ _ id); [|done].
    intros w'. apply says_passes.
  - intros w. split; [by eexists|done].
  - intros w. split; [done|]. split; [done|]. intros w' _. split; [done|]. split; [done|]. left. by eexists.
  - intros ch w. split; [intros w'; by eexists|]. split; [done|]. split; [done|].
    intros w' _. split; [done|]. by split.
Defined.

Local Abbreviation Calls := (list (Method (H:=option Disposition))).

Definition invoked (ms : Calls) (x : T * unit) : T * unit := foldl (λ x m, (invoke run m x).2) x ms.

Lemma session_free ms ms' x x' :
  Forall (λ m, ∀ x : T * unit, permitted m x) ms → session run (invoked ms x) ms' x' →
  session run x (ms ++ ms') x'.
Proof.
  intros Hms. revert x. induction Hms as [|m ms Hm _ IH]; intros x Hs; [done|].
  apply session_call; [apply Hm|]. by apply IH.
Qed.

Lemma session_meanwhile f ms (x x' : T * unit) :
  (∀ w, passes w (f w)) → session run (with_wire f x) ms x' → session run x ms x'.
Proof. intros Hf Hs. eapply session_world; [|exact Hs]. apply Hf. Qed.

(** A transport at work; the broker goes away and an attempt fails; it is back, the
    next attempt succeeds and a job arrives. *)
Definition opening : Calls := [m_connect default_Endpoint 1000].
Definition working : Calls :=
  [m_setReconnectPolicy (mkReconnectPolicy true 5 250 5000); m_ensureTopic "jobs" grouped 1000;
   m_subscribe "jobs" (Some (Some Ack)) 1000].
Definition polling : Calls := [m_pump 100; m_pump 100].

Definition at_work : T * unit := invoked working (invoked opening start).
Definition outage : T * unit := invoked polling (with_wire (set_up false) at_work).
Definition back : T * unit := invoked polling (with_wire (λ w, set_up true (tick 10000 w)) outage).
Definition busy : T * unit := with_wire (says "D") back.

Lemma served_session : session run start (opening ++ working ++ polling ++ polling) busy.
Proof.
  assert (Hover : over start) by (intros c [=]). unfold busy, back, outage, at_work.
  change (invoked opening start) with (invoke run (m_connect default_Endpoint 1000) start).2.
  apply session_call; [by split|].
  apply session_free.
  { constructor; [|by repeat constructor]. intros x. split; [done|]. split; [done|]. cbn. intros n Hn.
    assert (n = 1 ∨ n = 2 ∨ n = 3 ∨ n = 4 ∨ n = 5) as Hcases by lia.
    by destruct Hcases as [->|[->|[->|[->| ->]]]]. }
  apply (session_meanwhile (set_up false)); [done|].
  apply session_free; [by repeat constructor|].
  apply (session_meanwhile (λ w, set_up true (tick 10000 w))); [intros w; split; [cbn; lia|done]|].
  rewrite <- (app_nil_r polling).
  apply session_free; [by repeat constructor|].
  apply (session_meanwhile (says "D")); [intros w; apply says_passes|]. apply session_none.
Qed.

Lemma never_undefined_witness :
  _failedAttempts outage.1 = 1 ∧ reconnects (_stats back.1) = 1 ∧
  (invoke run (m_pump 100) busy).1 ≠ Undefined ∧
  wire_sent (world (invoke run (m_pump 100) busy).2.1) = wire_sent (world busy.1) ++ ["ack 1"].
Proof.
  split; [vm_compute; reflexivity|]. split; [vm_compute; reflexivity|].
  split; [|vm_compute; reflexivity].
  refine (never_undefined run _ _ _ (wire true []) tt _ busy _ _ served_session (m_pump 100) I);
    [intros [d|] d' x; discriminate|intros [d|] d' x; reflexivity|intros [d|] d' x; reflexivity|reflexivity|reflexivity].
Defined.
End Session.
