(* ===== verification/AmqpCppConsumer.v ===== *)
(** A consumer over the AMQP-CPP backend.

    The backend implements [ITransport], but it is not [Accountable]: it answers
    deliveries inside the library's parser, so the library call of an answer can
    fail while a reconnection is being made, which swallows the exception.  What
    holds is that nothing is performed that was not decided, in order, and that the
    two agree when no reconnection is allowed; [reconnection_loses_answer] is the
    case in between. *)

From S2P Require Import Prelude ITransport ByteMessage Dispatch Consumer.
From S2P Require Import Reconnect AmqpConnection AmqpCppTransport.
#[local] Open Scope Z_scope.
Import AmqpCpp.

(** An operation that runs no handler needs no application state. *)
Definition alone {T A} (m : M (T * unit) A) : M T A := λ t,
  let '(o, (t, _)) := m (t, tt) in (o, t).

(** ** What is decided and what is performed *)

Lemma performed_bumped d s : performed (bump_disposition d s) = tally d (performed s).
Proof. by destruct d. Qed.

Section answers.
Context {W : Type} `{!AmqpLibrary W} {H : Type}.
Local Abbreviation T := (AmqpCppTransport W H).

(** The counters are members; [stats] adds those of the connection. *)
Lemma performed_stats (t : T) : performed (stats t) = performed (_stats t).
Proof. unfold stats. by destruct (_connection t). Qed.

Section runner.
Context {S : Type} (run : Runner T H S) {B : Type} (book : S → B) (note : Disposition → B → B).

(** A book of the application's in which every answer is noted by the handler that
    gives it; those handlers answer by returning, and leave the transport's policy
    alone. *)
Definition noting : Prop := ∀ h d x, let '(o, x') := run h d x in
  book x'.2 = match o with Ret d => note d (book x.2) | _ => book x.2 end ∧
  performed (_stats x'.1) = performed (_stats x.1) ∧ _policy x'.1 = _policy x.1.

(** From where they were: [ds] was decided and [ps] performed. *)
Definition booked (b0 : B) (p0 : Z * Z * Z) (ds ps : list Disposition) (x : T * S) : Prop :=
  book x.2 = foldl (λ b d, note d b) b0 ds ∧
  performed (_stats x.1) = foldl (λ n d, tally d n) p0 ps.

Context `{HC : !ConnState W (T * S)} (b0 : B) (p0 : Z * Z * Z).
Local Abbreviation booked' := (booked b0 p0).
Context (booked_world : ∀ ds ps w x, booked' ds ps x → booked' ds ps (AmqpConnection.set_world w x)).
Context (booked_conn : ∀ ds ps c x, booked' ds ps x → booked' ds ps (set_conn c x)).
Context (run_notes : noting).

Lemma foldl_snoc {A} (f : Disposition → A → A) n ds d :
  foldl (λ n d, f d n) n (ds ++ [d]) = f d (foldl (λ n d, f d n) n ds).
Proof. by rewrite foldl_app. Qed.

(** The answer is counted only once its library call returned. *)
Lemma resolve_books tag d ds ps (x : T * S) : booked' ds ps x →
  let '(o, x') := resolve_delivery tag d x in
  match o with Ret _ => booked' ds (ps ++ [d]) x' | _ => booked' ds ps x' end.
Proof.
  intros Hb.
  assert (Hcall : ∀ f : W → Activity W ConnCallback unit, booked' ds ps (call f x).2).
  { intros f. apply (frame_calls (booked' ds ps)); auto. }
  assert (Hbump : ∀ x, booked' ds ps x → booked' ds (ps ++ [d]) (with_stats (bump_disposition d) x.1, x.2)).
  { intros y [Hd Hp]. split; [done|]. rewrite foldl_snoc, <- Hp. apply performed_bumped. }
  unfold resolve_delivery, the_channel, get_t, modify_t.
  destruct d; run; try (destruct (_channel x.1) as [ch|]; [|done]).
  - specialize (Hcall (channel_ack ch tag)). destruct (call _ x) as [[[]|e|] x1]; [by apply Hbump|done..].
  - specialize (Hcall (channel_reject ch tag false)).
    destruct (call _ x) as [[[]|e|] x1]; [by apply Hbump|done..].
  - specialize (Hcall (channel_reject ch tag true)).
    destruct (call _ x) as [[[]|e|] x1]; [by apply Hbump|done..].
  - destruct Hb as [Hd Hp]. split; [done|]. by rewrite foldl_snoc, <- Hp.
Qed.

(** How one delivery moves the books: the decision is noted before the answer is
    sent. *)
Lemma received_books body tag redelivered ds ps (x : T * S) : booked' ds ps x →
  let '(o, x') := onReceived run body tag redelivered x in
  match o with
  | Ret _ => booked' ds ps x' ∨ ∃ d, booked' (ds ++ [d]) (ps ++ [d]) x'
  | _ => booked' ds ps x' ∨ ∃ d, booked' (ds ++ [d]) ps x'
  end.
Proof.
  intros [Hd Hp]. unfold onReceived, modify_t. run. unfold try_catch, invoke_handler, get_t. run.
  cbn [fst _handler with_stats]. destruct (_handler x.1) as [h|]; [|by left].
  pose proof (run_notes h (mkDelivery body redelivered tag) (with_stats count_received x.1, x.2)) as Hrun.
  destruct (run h _ _) as [[d|e|] x2]; destruct Hrun as (Hn & Hs & _);
    [|left; split; [by rewrite <- Hd|by rewrite <- Hp]..].
  assert (Hb : booked' (ds ++ [d]) ps x2).
  { split; [by rewrite foldl_snoc, <- Hd|]. by rewrite <- Hp, Hs. }
  pose proof (resolve_books tag d _ _ x2 Hb) as Hres.
  destruct (resolve_delivery tag d x2) as [[[]|e|] x3]; right; by exists d.
Qed.

Definition behind (x : T * S) : Prop := ∃ ds ps, sublist ps ds ∧ booked' ds ps x.
Definition even (x : T * S) : Prop := ∃ ds, booked' ds ds x.

Lemma behind_received body tag redelivered : preserves behind (onReceived run body tag redelivered).
Proof.
  intros x (ds & ps & Hsub & Hb).
  pose proof (received_books body tag redelivered ds ps x Hb) as Hr.
  destruct (onReceived _ _ _ _ x) as [o x']. cbn.
  assert (Hgrow : ∀ d, sublist ps (ds ++ [d])) by (intros d; by apply sublist_inserts_r).
  destruct o as [[]|e|]; destruct Hr as [Hr|[d Hr]]; try (by exists ds, ps);
    try (by exists (ds ++ [d]), ps).
  exists (ds ++ [d]), (ps ++ [d]). split; [|done]. by apply sublist_app.
Qed.

Lemma even_received body tag redelivered : returning even (onReceived run body tag redelivered).
Proof.
  intros x r x' [ds Hb] Hrun. pose proof (received_books body tag redelivered ds ds x Hb) as Hr.
  rewrite Hrun in Hr. destruct Hr as [Hr|[d Hr]]; [by exists ds|by exists (ds ++ [d])].
Qed.
End runner.

(** A pump, with or without reconnections. *)
Section pumping.
Context {S : Type} (run : Runner T H S) {B : Type} (book : S → B) (note : Disposition → B → B).
Context (b0 : B) (p0 : Z * Z * Z) (run_notes : noting run book note).
Local Abbreviation X := (T * S)%type.
Local Abbreviation behind' := (behind book note b0 p0).
Local Abbreviation even' := (even book note b0 p0).

Lemma behind_framed : framed run behind'.
Proof. split; [done..|]. intros. by apply behind_received. Qed.

Lemma behind_dying body tag redelivered : preserves (λ y, behind' (y.1, y.2.1))
  (@onReceived _ _ _ _ (run_dying run) dying_conn body tag redelivered).
Proof.
  apply (behind_received (HC:=dying_conn) (run_dying run) (λ s, book s.1) note b0 p0); try done.
  intros h d [t [s c]]. unfold run_dying. pose proof (run_notes h d (t, s)) as Hn.
  cbn in *. by destruct (run h d (t, s)) as [o x'].
Qed.

Lemma behind_pump slice : preserves behind' (pump run slice).
Proof.
  pose proof (frame_pumping _ behind' behind_framed) as Hp.
  assert (Hs : preserves behind' (serviceReconnect run)).
  { apply frame_serviceReconnect; [apply behind_framed|done|apply behind_dying|done..]. }
  assert (preserves behind' (modify_t (set_handlerFailure None (W:=W) (H:=H)) : M X unit))
    by by apply frame_modify_t.
  assert (∀ A (f : T → A), preserves behind' (get_t f : M X A)) by (intros; apply frame_get_t).
  unfold pump, after_slice. frames.
Qed.

(** Without reconnection a slice is only pumped, and what is pumped either moves the
    books together or does not return. *)
Definition level (x : X) : Prop := even' x ∧ enabled (_policy x.1) = false.

Lemma off_received body tag redelivered :
  preserves (λ x : X, enabled (_policy x.1) = false) (onReceived run body tag redelivered).
Proof.
  apply frame_received; try done. intros h d x Hx. pose proof (run_notes h d x) as Hn.
  destruct (run h d x) as [o x']. destruct Hn as (_ & _ & Hn). cbn [snd]. by rewrite Hn.
Qed.

Lemma level_on_channel c : returning level (on_channel run c).
Proof.
  intros x r x' [Heven Hoff] Hrun. destruct c as [q step n|q step message|body tag redelivered];
    [by injection Hrun as <- <-..|].
  pose proof (off_received body tag redelivered x Hoff) as Hoff'.
  cbn [on_channel] in Hrun. split; [|by rewrite Hrun in Hoff'].
  by eapply (even_received run book note b0 p0).
Qed.

Lemma even_pump slice x b x' : enabled (_policy x.1) = false → even' x →
  pump run slice x = (Ret b, x') → even' x'.
Proof.
  intros Hoff Hx. unfold pump. intros (t & x0 & [= <- <-] & Hrun)%M_bind_Ret. revert Hrun.
  unfold id. rewrite Hoff. cbn [negb].
  destruct (_connection x.1) as [c|] eqn:Hc; [|by intros [= _ <-]].
  destruct (closed c) eqn:Hcl; [by intros [= _ <-]|].
  intros (b1 & x1 & Hp & Hafter)%M_bind_Ret.
  assert (Hl : level x1).
  { unfold AmqpCpp.pumpUntil in Hp. apply M_bind_Ret in Hp as (t & x0 & [= <- <-] & Hp).
    rewrite Hc in Hp. eapply (returning_pumpUntil level); [..|exact (conj Hx Hoff)|exact Hp];
      [by intros ? ? []..|apply level_on_channel]. }
  destruct Hl as [Heven Hoff1]. revert Hafter. unfold after_slice.
  intros (failure & x0 & [= <- <-] & Hafter)%M_bind_Ret. revert Hafter.
  destruct (_handlerFailure x1.1) as [e|]; [by intros (? & ? & [= <- <-] & ?)%M_bind_Ret|].
  intros (t & x0 & [= <- <-] & Hafter)%M_bind_Ret. revert Hafter. unfold id.
  destruct (_connection x1.1) as [c1|]; [|done].
  rewrite Hoff1, andb_false_r. by intros [= _ <-].
Qed.
End pumping.

(** C29. What was performed had been decided.  Take an application that writes every
    answer its handlers give into a log.  Whatever a [pump] does -- deliveries,
    handlers that throw, answers whose library call fails, reconnections -- and
    however it ends, the transport's counters of answers move by a subsequence of
    exactly the answers the log gained: none is performed twice, or that was not
    given; and where no reconnection is allowed, a [pump] that returns performed
    every one of them. *)
Theorem performed_was_decided {S} (run : Runner T H S) (log : S → list Disposition) slice x :
  noting run log (λ d ds, ds ++ [d]) →
  let '(o, x') := pump run slice x in
  ∃ ds ps, log x'.2 = log x.2 ++ ds ∧ sublist ps ds ∧
    performed (stats x'.1) = foldl (λ n d, tally d n) (performed (stats x.1)) ps ∧
    ∀ b, o = Ret b → enabled (_policy x.1) = false → ps = ds.
Proof.
  intros Hrun. set (note := λ (d : Disposition) ds, ds ++ [d]).
  assert (Hlog : ∀ l ds, foldl (λ b d, note d b) l ds = l ++ ds).
  { intros l ds. revert l. induction ds as [|d ds IH]; intros l; cbn; [by rewrite app_nil_r|].
    rewrite IH. unfold note. by rewrite <- app_assoc. }
  assert (Hx : booked log note (log x.2) (performed (_stats x.1)) [] [] x) by done.
  pose proof (behind_pump run log note (log x.2) (performed (_stats x.1)) Hrun slice x) as Hbehind.
  pose proof (even_pump run log note (log x.2) (performed (_stats x.1)) Hrun slice x) as Heven.
  destruct (pump run slice x) as [o x']. setoid_rewrite performed_stats.
  destruct (decide (∃ b, o = Ret b ∧ enabled (_policy x.1) = false)) as [(b & -> & Hoff)|Hno].
  - destruct (Heven b x' Hoff) as (ds & Hd & Hp); [by exists []|done|].
    exists ds, ds. rewrite Hlog in Hd. by split_and!.
  - destruct Hbehind as (ds & ps & Hsub & Hd & Hp); [by exists [], []; split; [constructor|]|].
    exists ds, ps. rewrite Hlog in Hd. split_and!; [done..|]. intros b Ho Hoff. destruct Hno. by exists b.
Qed.
End answers.

Section instance.
Context {W : Type} `{!AmqpLibrary W}.
Local Abbreviation T := (AmqpCppTransport W Subscription).

#[export] Instance amqpcpp_transport : ITransport.ITransport T Subscription := {|
  ITransport.Slice := Z;
  ITransport.capabilities := capabilities;
  ITransport.connect S := @connect W _ Subscription S;
  ITransport.close S := @close W _ Subscription S;
  ITransport.ready := ready;
  ITransport.ensureTopic S := @ensureTopic W _ Subscription S;
  ITransport.topicDepth S := @topicDepth W _ Subscription S;
  ITransport.purgeTopic S := @purgeTopic W _ Subscription S;
  ITransport.send topic payload options := alone (send topic payload options);
  ITransport.subscribe S := @subscribe W _ Subscription S;
  ITransport.settle tag d := alone (settle tag d);
  ITransport.setReconnectPolicy policy := alone (setReconnectPolicy policy);
  ITransport.pump S := @pump W _ Subscription S;
  ITransport.stats := stats;
|}.

(** Handlers may use the network, through other transports. *)
#[export] Instance amqpcpp_spectated : Spectated T.
Proof.
  refine {| by_others t t' := ∃ w, t' = set_wire w (_connection t) t |}.
  intros t. exists (world t). by destruct t.
Defined.

Section consumer.
Context {U : Type} (handlers : Handlers (T * (Consumer * U))).
Local Abbreviation X := (T * (Consumer * U))%type.
Hypothesis (Hw : well_behaved handlers).

Lemma handler_run sub delivery (x : X) :
  let '(o, x') := on_delivery handlers sub delivery x in
  (∃ w, x'.1 = set_wire w (_connection x.1) x.1) ∧
  decided x'.2.1 = match o with Ret d => tally d (decided x.2.1) | _ => decided x.2.1 end.
Proof.
  pose proof (on_delivery_by_others handlers sub delivery x Hw) as Hothers.
  rewrite on_delivery_run in *.
  destruct (dispatch_well_behaved handlers (delivery_body delivery) (delivery_redelivered delivery)
    (delivery_tag delivery) x Hw) as [_ Hd].
  destruct (dispatch _ _ _ _ x) as [[r|e|] [t [c u]]]; cbn in *; (split; [done|]); [|done..].
  by rewrite decided_count_decided, Hd.
Qed.

(** Settling a delivery that was deferred. *)
Lemma settle_performed tag d (t : T) :
  let '(o, t') := ITransport.settle tag d t in
  _policy t' = _policy t ∧
  performed (_stats t') =
    match o with Ret _ => tally d (performed (_stats t)) | _ => performed (_stats t) end.
Proof.
  cbn. unfold alone.
  destruct (_channel t) as [ch|] eqn:Hch.
  2:{ unfold settle, require_channel, get_t. run. by rewrite Hch. }
  destruct (decide (d = Deferred)) as [->|Hd].
  { unfold settle, require_channel, get_t. run. by rewrite Hch. }
  destruct (decide (tag ∈ _outstandingDeferred t)) as [Hin|Hout].
  2:{ destruct (settle_unknown tag d ch (t, tt) Hch Hd Hout) as [what ->]. done. }
  rewrite (settle_known tag d ch (t, tt) Hch Hd Hin). cbn [fst snd].
  set (x := (set_outstanding _ t, tt)).
  rewrite (resolve_delivery_run tag d ch x Hch Hd).
  destruct (call_wire (action ch tag d) x) as (w & c & Hx).
  destruct (call _ x) as [[[]|e|] x1]; cbn in Hx; subst x1; cbn; (split; [done|]); [|done..].
  by rewrite performed_bumped.
Qed.

(** A consumer's counters are such a book. *)
Lemma consumer_notes : noting (on_delivery handlers) (λ s, decided s.1) tally.
Proof.
  intros sub delivery x. pose proof (handler_run sub delivery x) as Hrun.
  destruct (on_delivery _ _ _ x) as [o x']. destruct Hrun as [[w Hx'] Hd].
  split; [by destruct o|]. by rewrite Hx'.
Qed.

Section books.
Context (d0 p0 : Z * Z * Z).
Local Abbreviation booked' := (booked (H:=Subscription) (λ s : Consumer * U, decided s.1) tally d0 p0).

(** A settlement from the queue is counted by both sides, or by neither. *)
Lemma drain_books fuel pushes : ∀ x ds ps, booked' ds ps x →
  let x' := (drain fuel pushes x).2 in
  _policy x'.1 = _policy x.1 ∧ ∃ es, booked' (ds ++ es) (ps ++ es) x'.
Proof.
  revert pushes. induction fuel as [|fuel IH]; intros pushes [t [c u]] ds ps Hb.
  { cbn. split; [done|]. exists []. by rewrite !app_nil_r. }
  destruct (_settlements c) as [q|] eqn:Hq.
  2:{ cbn [drain]. unfold on_consumer, try_pop, push_all. run. rewrite Hq, Hq.
      split; [done|]. exists []. by rewrite !app_nil_r. }
  rewrite (drain_step _ _ _ _ _ q Hq). destruct Hb as [Hd Hp].
  destruct (q ++ _) as [|[handle d] q'].
  { split; [done|]. exists []. by rewrite !app_nil_r. }
  pose proof (settle_performed handle d t) as Hs.
  destruct (ITransport.settle handle d t) as [o t'].
  destruct Hs as [Hpol Hs].
  destruct o as [[]|e|]; [|split; [done|]; exists []; rewrite !app_nil_r;
    split; cbn [fst snd]; [done|by rewrite Hs]..].
  destruct (IH (tail pushes) (t', (count_settled d (with_settlements q' c), u))
    (ds ++ [d]) (ps ++ [d])) as [Hpol' (es & Hes)].
  { split; cbn [fst snd]; rewrite foldl_snoc; [by rewrite decided_count_settled, <- Hd|].
    rewrite Hs. f_equal. exact Hp. }
  split; [by rewrite Hpol'|]. exists (d :: es). rewrite <- !app_assoc in Hes. exact Hes.
Qed.

Lemma poll_run pushes slice (x : X) :
  poll handlers pushes slice x =
    match (if bool_decide (_settlements x.2.1 = None) then mret tt
           else drain (drain_fuel pushes x.2.1) pushes) x with
    | (Ret _, x1) => pump (on_delivery handlers) slice x1
    | (Throw e, x1) => (Throw e, x1)
    | (Undefined, x1) => (Undefined, x1)
    end.
Proof.
  destruct x as [t [c u]]. unfold poll. run. unfold id. cbn [fst snd].
  case_bool_decide; [done|]. by destruct (drain _ _ _) as [[[]| |] x1].
Qed.

End books.

(** C30. Decided is performed, without reconnection.  Over an AMQP-CPP transport that may
    not reconnect -- the default -- a consumer whose counters agree with its
    transport's still agrees with it after every poll that returns: each settlement
    taken from the queue and each verdict on a delivery was counted once by both. *)
Theorem decided_and_performed pushes slice (t : T) (c : Consumer) (u : U) :
  enabled (_policy t) = false → decided c = performed (stats t) →
  let '(o, (t', (c', _))) := poll handlers pushes slice (t, (c, u)) in
  ∀ b, o = Ret b → decided c' = performed (stats t').
Proof.
  intros Hoff Hc. rewrite performed_stats in Hc. rewrite poll_run.
  set (p := performed (_stats t)) in *. set (x := (t, (c, u))).
  assert (Hb : booked (H:=Subscription) (λ s : Consumer * U, decided s.1) tally p p [] [] x) by done.
  set (m := if bool_decide _ then _ else _).
  assert (Hm : _policy (m x).2.1 = _policy t ∧ even (λ s : Consumer * U, decided s.1) tally p p (m x).2).
  { unfold m, even. case_bool_decide; [split; [done|by exists []]|].
    destruct (drain_books p p (drain_fuel pushes x.2.1) pushes x [] [] Hb) as [Hpol [es Hes]].
    split; [done|by exists es]. }
  destruct (m x) as [o1 x1]. destruct Hm as [Hpol Heven]. cbn [snd] in Hpol, Heven.
  destruct o1 as [[]|e|]; [|by destruct x1 as [? [? ?]]..].
  pose proof (even_pump _ _ _ p p consumer_notes slice x1) as Hpump.
  destruct (pump (on_delivery handlers) slice x1) as [o [t' [c' u']]]. intros b ->.
  destruct (Hpump b (t', (c', u')) ltac:(by rewrite Hpol) Heven eq_refl) as (ds & Hd & Hp).
  rewrite performed_stats. cbn [fst snd] in Hd, Hp. by rewrite Hd, Hp.
Qed.
End consumer.
End instance.

(** ** An answer lost *)

Module Lost.
Import AmqpConnection.Sample.

Local Abbreviation T := (AmqpCppTransport Wire Subscription).
Local Abbreviation X := (T * (Consumer * unit))%type.

Definition with_wire (f : Wire → Wire) (x : X) : X :=
  (set_wire (f (world x.1)) (_connection x.1) x.1, x.2).

(** The job is done, and meanwhile the peer goes away. *)
Definition handlers : Handlers X :=
  mkHandlers (Some (λ _ x, (Ret tt, with_wire (set_up false) x))) None.

Definition started : X :=
  let run := on_delivery handlers in
  let x := (new_AmqpCppTransport (wire true []), (mkConsumer 0 0 0 0 None, tt)) in
  let x := (connect run default_Endpoint 1000 x).2 in
  let x := (setReconnectPolicy (mkReconnectPolicy true 5 250 5000) x).2 in
  (subscribe run "jobs" (Some (mkSubscription "jobs" false)) 1000 x).2.

(** The connection is lost; the peer is back, with a job waiting in the queue. *)
Definition back : X :=
  with_wire (λ w, tick 10000 (set_script "R" "SM" (set_up true w)))
    (pump (on_delivery handlers) 100 (with_wire (set_up false) started)).2.

Lemma handlers_well_behaved : well_behaved handlers.
Proof.
  split; [|done]. intros h m x Hh. cbn in Hh. injection Hh as <-. by split; [eexists|].
Qed.

(** A poll can return with its books apart.  From a connected, subscribed consumer
    whose counters agree with its transport's, the poll that reconnects is handed
    the waiting message while it resubscribes; the handler returns and the
    acknowledgement is decided, the peer is gone before it is sent, and the failure
    counts as that of the attempt: [poll] returns [true] with one acknowledgement
    decided and none performed, nothing abandoned and no exception. *)
Example reconnection_loses_answer :
  let '(t, (c, u)) := back in
  decided c = performed (stats t) ∧
  let '(o, (t', (c', _))) := poll handlers [] 100 (t, (c, u)) in
  o = Ret true ∧ decided c' = (1, 0, 0) ∧ performed (stats t') = (0, 0, 0) ∧
  abandoned (stats t') = 0 ∧ _handlerFailure t' = None.
Proof. vm_compute. done. Qed.

(** The same job, in an application with a log. *)
Definition writing : Runner (AmqpCppTransport Wire unit) unit (list Disposition) := λ _ _ x,
  (Ret Ack, (set_wire (set_up false (world x.1)) (_connection x.1) x.1, x.2 ++ [Ack])).
Definition resubscribing : AmqpCppTransport Wire unit * list Disposition :=
  let x := (new_AmqpCppTransport (wire true []), []) in
  let x := (connect writing default_Endpoint 1000 x).2 in
  let x := (setReconnectPolicy (mkReconnectPolicy true 5 250 5000) x).2 in
  let x := (subscribe writing "jobs" (Some tt) 1000 x).2 in
  let x := (pump writing 100 (set_wire (set_up false (world x.1)) (_connection x.1) x.1, x.2)).2 in
  (set_wire (tick 10000 (set_script "R" "SM" (set_up true (world x.1)))) (_connection x.1) x.1, x.2).

Lemma writing_notes : noting writing id (λ d ds, ds ++ [d]).
Proof. intros h d x. split; [reflexivity|]. split; reflexivity. Qed.

Lemma writing_facts :
  (pump writing 100 resubscribing).2.2 = [Ack] ∧ resubscribing.2 = [] ∧
  performed (stats resubscribing.1) = (0, 0, 0).
Proof. split; [vm_compute; reflexivity|]. split; vm_compute; reflexivity. Qed.

Lemma performed_was_decided_witness :
  let '(o, (t, l)) := pump writing 100 resubscribing in
  l = [Ack] ∧ ∃ ps, sublist ps [Ack] ∧ performed (stats t) = foldl (λ n d, tally d n) (0, 0, 0) ps.
Proof.
  pose proof (performed_was_decided writing id 100 resubscribing writing_notes) as Hp.
  destruct writing_facts as (Hl & Hl0 & Hp0). rewrite Hp0, Hl0 in Hp.
  revert Hp Hl. generalize (pump writing 100 resubscribing). intros [o [t l]] Hp Hl.
  destruct Hp as (ds & ps & Hds & Hsub & Hperf & _). change (l = ds) in Hds. change (l = [Ack]) in Hl.
  rewrite <- Hds, Hl in Hsub. split; [exact Hl|]. exists ps. split; [exact Hsub|exact Hperf].
Defined.

(** Without a policy, a delivery that arrives over a healthy connection. *)
Definition steady : Handlers X := mkHandlers (Some (λ _ x, (Ret tt, x))) None.
Lemma steady_well_behaved : well_behaved steady.
Proof.
  split; [|done]. intros h m x Hh. cbn in Hh. injection Hh as <-. split; [|done].
  exists (world x.1). by destruct x as [[] ?].
Qed.
Definition at_work : X :=
  let run := on_delivery steady in
  let x := (new_AmqpCppTransport (wire true []), (mkConsumer 0 0 0 0 None, tt)) in
  let x := (connect run default_Endpoint 1000 x).2 in
  with_wire (says "M") (subscribe run "jobs" (Some (mkSubscription "jobs" false)) 1000 x).2.

Lemma at_work_facts :
  enabled (_policy at_work.1) = false ∧ decided at_work.2.1 = performed (stats at_work.1) ∧
  (at_work.1, (at_work.2.1, at_work.2.2)) = at_work ∧
  let '(o, (_, (c', _))) := poll steady [] 100 at_work in o = Ret true ∧ decided c' = (1, 0, 0).
Proof. split_and!; vm_compute; auto. Qed.

Lemma decided_and_performed_witness :
  let '(o, (t', (c', _))) := poll steady [] 100 at_work in
  o = Ret true ∧ decided c' = (1, 0, 0) ∧ performed (stats t') = (1, 0, 0).
Proof.
  destruct at_work_facts as (Hoff & Hc & Hx & Hrun).
  pose proof (decided_and_performed steady steady_well_behaved [] 100 at_work.1 at_work.2.1
    at_work.2.2 Hoff Hc) as Hagree.
  rewrite Hx in Hagree. revert Hagree Hrun. generalize (poll steady [] 100 at_work).
  intros [o [t' [c' u']]] Hagree [Hr Hd]. split; [exact Hr|]. split; [exact Hd|].
  rewrite <- (Hagree true Hr). exact Hd.
Defined.
End Lost.
