(* ===== verification/Contract.v ===== *)
(** What every backend owes its callers when it is misused.

    The interface documents some of its errors ([include/motus/transport/ITransport.hpp]);
    the three backends implement them separately.  [Guarded] states them once:
    nothing works before [connect] or after [close], a subscription needs a handler
    and there is one at most, a delivery is never settled as deferred, and every
    refusal leaves the transport exactly as it was.  The three backends are shown to
    be [Guarded]; the clients' theorems are proved against the class. *)

From S2P Require Import Prelude ITransport ByteMessage Dispatch InMemoryTransport Producer Consumer System.
From S2P Require Import SimpleAmqpTransport AmqpConnection AmqpCppTransport AmqpCppConsumer.
#[local] Open Scope Z_scope.
#[local] Existing Instances InMemory.inmemory_transport SimpleAmqp.simpleamqp_transport.

(** ** The contract *)

(** Calls that need a connection, with their answers forgotten. *)
Inductive Request (H : Type) : Type :=
  | req_ensureTopic (topic : Topic) (options : TopicOptions) (timeout : Z)
  | req_topicDepth (topic : Topic) (timeout : Z)
  | req_purgeTopic (topic : Topic) (timeout : Z)
  | req_send (topic : Topic) (payload : string) (options : SendOptions)
  | req_subscribe (topic : Topic) (handler : option H) (timeout : Z)
  | req_settle (tag : Z) (disposition : Disposition).
Arguments req_ensureTopic {H}. Arguments req_topicDepth {H}. Arguments req_purgeTopic {H}.
Arguments req_send {H}. Arguments req_subscribe {H}. Arguments req_settle {H}.

Definition ask {T H S} `{!ITransport T H} (run : Runner T H S) (r : Request H) : M (T * S) unit :=
  match r with
  | req_ensureTopic topic options timeout => ensureTopic run topic options timeout
  | req_topicDepth topic timeout => _ ← topicDepth run topic timeout; mret tt
  | req_purgeTopic topic timeout => _ ← purgeTopic run topic timeout; mret tt
  | req_send topic payload options => _ ← on_fst (send topic payload options); mret tt
  | req_subscribe topic handler timeout => subscribe run topic handler timeout
  | req_settle tag d => on_fst (settle tag d)
  end.

(** Refused with that kind of exception, and nothing happened. *)
Definition refused {X A} (kind : string → exn) (m : M X A) (x : X) : Prop :=
  ∃ what, m x = (Throw (kind what), x).

(** Whether a transport is between [connect] and [close], and subscribed. *)
Class Usage (T : Type) : Type := { usable : T → bool; active : T → bool }.

Class Guarded (T H : Type) `{!ITransport T H, !Usage T, !Spectated T} : Prop := {
  guarded_unusable {S} (run : Runner T H S) r x :
    usable x.1 = false → refused logic_error (ask run r) x;
  guarded_closed {S} (run : Runner T H S) timeout x x' :
    (∀ h d t s, by_others t (run h d (t, s)).2.1) →
    ITransport.close run timeout x = (Ret tt, x') → usable x'.1 = false ∧ active x'.1 = false;
  guarded_handler {S} (run : Runner T H S) topic timeout x :
    usable x.1 = true → refused invalid_argument (subscribe run topic None timeout) x;
  guarded_second {S} (run : Runner T H S) topic h timeout x :
    usable x.1 = true → active x.1 = true →
    refused logic_error (subscribe run topic (Some h) timeout) x;
  guarded_subscribed {S} (run : Runner T H S) topic h timeout x x' :
    subscribe run topic h timeout x = (Ret tt, x') → active x'.1 = true;
  guarded_deferred t tag :
    usable t = true →
    if cap_deferredAcknowledgement (capabilities t)
    then refused invalid_argument (settle tag Deferred) t
    else ∀ d, refused logic_error (settle tag d) t;
}.

(** ** The in-memory backend *)

Lemma refused_fst {T S A} kind (m : M T A) (x : T * S) : refused kind m x.1 → refused kind (on_fst m) x.
Proof. intros [what Hm]. exists what. unfold on_fst. destruct x as [t s]. cbn in Hm. by rewrite Hm. Qed.

Lemma refused_bind {X A B} kind (m : M X A) (f : A → M X B) (x : X) :
  refused kind m x → refused kind (m ≫= f) x.
Proof. intros [what Hm]. exists what. run. by rewrite Hm. Qed.

Lemma refused_after {X A B} kind (m : M X A) (f : A → M X B) (x : X) a :
  m x = (Ret a, x) → refused kind (f a) x → refused kind (m ≫= f) x.
Proof. intros Hm [what Hf]. exists what. run. by rewrite Hm. Qed.

Lemma refused_if {X} kind what (x : X) : refused kind (throw_if true (kind what)) x.
Proof. by exists what. Qed.

#[export] Instance inmemory_usage {H} : Usage (InMemory.InMemoryTransport H) :=
  {| usable := InMemory._connected; active := InMemory._subscribed |}.

#[export] Instance inmemory_guarded : Guarded (InMemory.InMemoryTransport Subscription) Subscription.
Proof.
  set (T := InMemory.InMemoryTransport Subscription).
  assert (Hdown : ∀ op (t : T), InMemory._connected t = false →
    refused logic_error (InMemory.require_connected op) t).
  { intros op t Ht. eexists. unfold InMemory.require_connected. run. by rewrite Ht. }
  assert (Hup : ∀ op (t : T), InMemory._connected t = true →
    InMemory.require_connected op t = (Ret tt, t)).
  { intros op t Ht. unfold InMemory.require_connected. run. by rewrite Ht. }
  split; cbn [usable active inmemory_usage].
  - intros S run r x Hx. destruct r; cbn [ask]; try apply refused_bind; apply refused_fst;
      apply refused_bind, Hdown, Hx.
  - intros S run timeout [t s] x' _ Hc. cbn in Hc. unfold on_fst, InMemory.close in Hc.
    run_in Hc. destruct (InMemory.returnOutstanding t) as [[[]| |] t1]; [|done..].
    by injection Hc as <-.
  - intros S run topic timeout x Hx. apply refused_fst. eapply refused_after; [by apply Hup|].
    apply refused_bind. rewrite bool_decide_true by done. apply refused_if.
  - intros S run topic h timeout x Hx Ha. apply refused_fst. eapply refused_after; [by apply Hup|].
    eapply refused_after; [by rewrite bool_decide_false|]. eapply refused_after; [done|].
    apply refused_bind. unfold id. rewrite Ha. apply refused_if.
  - intros S run topic h timeout [t s] [t' s'] Hs. cbn in Hs. unfold on_fst in Hs.
    destruct (InMemory.subscribe topic h timeout t) as [o t1] eqn:E. injection Hs as -> <- <-.
    unfold InMemory.subscribe in E. apply M_bind_Ret in E as ([] & t2 & _ & E).
    apply M_bind_Ret in E as ([] & t3 & _ & E). apply M_bind_Ret in E as (t4 & t5 & _ & E).
    apply M_bind_Ret in E as ([] & t6 & _ & E). by injection E as <-.
  - intros t tag Ht. eapply refused_after; [by apply Hup|]. apply refused_bind.
    rewrite bool_decide_true by done. apply refused_if.
Qed.

(** ** The SimpleAmqp backend *)

Section simpleamqp.
Context {W : Type} (L : SimpleAmqpClient W).
Local Abbreviation T := (@SimpleAmqp.SimpleAmqpTransport W L Subscription).

#[export] Instance simpleamqp_usage : Usage T :=
  {| usable t := bool_decide (is_Some (SimpleAmqp._channel t)); active := SimpleAmqp._subscribed |}.

Lemma simple_down op (t : T) : usable t = false → refused logic_error (SimpleAmqp.require_channel op) t.
Proof.
  intros Ht%bool_decide_eq_false. eexists. unfold SimpleAmqp.require_channel. run. unfold id.
  destruct (SimpleAmqp._channel t); [by destruct Ht|done].
Qed.

Lemma simple_up op (t : T) : usable t = true → ∃ ch, SimpleAmqp.require_channel op t = (Ret ch, t).
Proof.
  intros [ch Hch]%bool_decide_eq_true. exists ch. unfold SimpleAmqp.require_channel. run.
  unfold id. by rewrite Hch.
Qed.

Lemma simple_closed timeout (t t' : T) :
  SimpleAmqp.close timeout t = (Ret tt, t') →
  SimpleAmqp._channel t' = None ∧ SimpleAmqp._subscribed t' = false ∧ SimpleAmqp._connected t' = false ∧
  SimpleAmqp._policy t' = SimpleAmqp._policy t ∧ SimpleAmqp._endpoint t' = SimpleAmqp._endpoint t ∧
  SimpleAmqp._failedAttempts t' = SimpleAmqp._failedAttempts t ∧
  SimpleAmqp._nextAttempt t' = SimpleAmqp._nextAttempt t.
Proof.
  unfold SimpleAmqp.close. intros (? & ? & [= <- <-] & Hc)%M_bind_Ret. unfold id in Hc.
  apply M_bind_Ret in Hc as ([] & t1 & Hcancel & Hc).
  assert (∃ w, t1 = SimpleAmqp.set_world w t) as [w ->].
  { destruct (SimpleAmqp._channel t) as [ch|]; [destruct (_ && _)|].
    - unfold SimpleAmqp.swallow_std, try_catch, SimpleAmqp.on_world in Hcancel.
      destruct (BasicCancel ch _ _) as [[[]|e|] w]; [..|done].
      + injection Hcancel as <-. by exists w.
      + destruct (is_std e); [|done]. injection Hcancel as <-. by exists w.
    - injection Hcancel as <-. exists (SimpleAmqp.world t). by destruct t.
    - injection Hcancel as <-. exists (SimpleAmqp.world t). by destruct t. }
  apply M_bind_Ret in Hc as ([] & t2 & Hreset & Hc).
  assert (∃ w', t2 = SimpleAmqp.set_channel None (SimpleAmqp.set_world w' t)) as [w' ->].
  { unfold SimpleAmqp.reset_channel, try_catch in Hreset. run_in Hreset. unfold id in Hreset.
    cbn [SimpleAmqp._channel SimpleAmqp.set_world] in Hreset.
    destruct (SimpleAmqp._channel t) as [ch|] eqn:Hch.
    - unfold SimpleAmqp.on_world in Hreset.
      destruct (SimpleAmqpTransport.Channel_release ch _) as [[[]|e|] w']; [..|done];
        injection Hreset as <-; exists w'; by destruct t.
    - injection Hreset as <-. exists w. destruct t. cbn in *. by rewrite Hch. }
  apply M_bind_Ret in Hc as ([] & ? & [= <-] & Hc). apply M_bind_Ret in Hc as ([] & ? & [= <-] & Hc).
  apply M_bind_Ret in Hc as ([] & ? & [= <-] & Hc). injection Hc as <-. done.
Qed.

#[export] Instance simpleamqp_guarded : Guarded T Subscription.
Proof.
  split.
  - intros S run r x Hx. destruct r as [| | | | |tag d]; cbn [ask]; try apply refused_bind; apply refused_fst;
      try (by eexists); apply refused_bind; by apply simple_down.
  - intros S run timeout [t s] [t' s'] _ Hc. cbn in Hc. unfold on_fst in Hc.
    destruct (SimpleAmqp.close timeout t) as [o t1] eqn:E. injection Hc as -> <- <-.
    destruct (simple_closed _ _ _ E) as (Hch & Hsub & _). cbn. by rewrite Hch, Hsub.
  - intros S run topic timeout x Hx. apply refused_fst. destruct (simple_up "subscribe" x.1 Hx) as [ch Hch].
    eapply refused_after; [exact Hch|]. apply refused_bind. rewrite bool_decide_true by done.
    apply refused_if.
  - intros S run topic h timeout x Hx Ha. apply refused_fst.
    destruct (simple_up "subscribe" x.1 Hx) as [ch Hch]. eapply refused_after; [exact Hch|].
    eapply refused_after; [by rewrite bool_decide_false|]. eapply refused_after; [done|].
    apply refused_bind. unfold id. cbn in Ha. rewrite Ha. apply refused_if.
  - intros S run topic h timeout [t s] [t' s'] Hs. cbn in Hs. unfold on_fst in Hs.
    destruct (SimpleAmqp.subscribe topic h timeout t) as [o t1] eqn:E. injection Hs as -> <- <-.
    unfold SimpleAmqp.subscribe in E.
    repeat (apply M_bind_Ret in E as (? & ? & _ & E)). by injection E as <-.
  - intros t tag _ d. by eexists.
Qed.
End simpleamqp.

(** ** The AMQP-CPP backend *)

Section amqpcpp.
Import AmqpCpp.
Context {W : Type} (L : AmqpLibrary W).
Local Abbreviation T := (AmqpCppTransport W Subscription).

#[export] Instance amqpcpp_usage : Usage T :=
  {| usable t := bool_decide (is_Some (_channel t)); active := _subscribed |}.

Lemma cpp_down {S} op (x : T * S) : usable x.1 = false → refused logic_error (require_channel op) x.
Proof.
  intros Hx%bool_decide_eq_false. eexists. unfold require_channel, get_t. run. cbn.
  destruct (_channel x.1); [by destruct Hx|done].
Qed.

Lemma cpp_up {S} op (x : T * S) : usable x.1 = true → ∃ ch, require_channel op x = (Ret ch, x).
Proof.
  intros [ch Hch]%bool_decide_eq_true. exists ch. unfold require_channel, get_t. run. cbn. by rewrite Hch.
Qed.

(** An operation that needs no application state. *)
Lemma refused_alone {A S} kind (m : M (T * unit) A) (x : T * S) :
  refused kind m (x.1, tt) → refused kind (on_fst (alone m)) x.
Proof.
  intros [what Hm]. exists what. unfold on_fst, alone. destruct x as [t s]. cbn in Hm. by rewrite Hm.
Qed.

#[export] Instance amqpcpp_guarded : Guarded T Subscription.
Proof.
  split.
  - intros S run r x Hx. destruct r as [| | |topic payload options|topic h timeout|tag d]; cbn [ask].
    + apply refused_bind. by apply refused_bind, cpp_down.
    + apply refused_bind. by apply refused_bind, cpp_down.
    + apply refused_bind. by apply refused_bind, cpp_down.
    + apply refused_bind, refused_alone. by apply refused_bind, cpp_down.
    + by apply refused_bind, cpp_down.
    + apply refused_alone. by apply refused_bind, cpp_down.
  - intros S run timeout x x' Hby Hc.
    assert (HI : framed run (λ x : T * S, _channel x.1 = None)).
    { apply framed_plain; try done. intros h d y Hy. destruct (Hby h d y.1 y.2) as [w Hw].
      destruct y as [t s]. cbn in Hw |- *. by rewrite Hw. }
    cbn in Hc. unfold close in Hc. apply M_bind_Ret in Hc as ([] & x1 & _ & Hc).
    apply M_bind_Ret in Hc as ([] & x2 & Hreset & Hc).
    assert (Hch : _channel x2.1 = None).
    { unfold reset_channel in Hreset. apply M_bind_Ret in Hreset as (ch & ? & [= <- <-] & Hreset).
      destruct (_channel x1.1) as [ch|] eqn:E; [|by injection Hreset as <-].
      apply M_bind_Ret in Hreset as ([] & ? & [= <-] & Hreset).
      match type of Hreset with call_noexcept ?f ?y = _ =>
        destruct (call_noexcept_wire f y) as (w & c & Hw) end.
      rewrite Hreset in Hw. cbn in Hw. by rewrite Hw. }
    apply M_bind_Ret in Hc as (c & ? & [= <- <-] & Hc).
    apply M_bind_Ret in Hc as ([] & x3 & Hclose & Hc).
    assert (Hch3 : _channel x3.1 = None).
    { destruct (_connection x2.1); [|by injection Hclose as <-].
      assert (Hp : preserves (λ x : T * S, _channel x.1 = None)
        (AmqpConnection.close (on_channel run) timeout)).
      { apply AmqpConnection.frame_close; [apply HI|intros; by apply HI|].
        intros c. by apply frame_on_channel. }
      specialize (Hp x2 Hch). by rewrite Hclose in Hp. }
    apply M_bind_Ret in Hc as ([] & ? & [= <-] & Hc). injection Hc as <-. cbn. by rewrite Hch3.
  - intros S run topic timeout x Hx. destruct (cpp_up "subscribe" x Hx) as [ch Hch].
    eapply refused_after; [exact Hch|]. by eexists.
  - intros S run topic h timeout x Hx Ha. destruct (cpp_up "subscribe" x Hx) as [ch Hch].
    eapply refused_after; [exact Hch|]. eapply refused_after; [done|]. apply refused_bind.
    unfold id. cbn in Ha. rewrite Ha. apply refused_if.
  - intros S run topic h timeout x x' Hs. cbn in Hs. unfold subscribe in Hs.
    apply M_bind_Ret in Hs as (ch & x1 & _ & Hs). destruct h as [h|]; [|done].
    repeat (apply M_bind_Ret in Hs as (? & ? & _ & Hs)). by injection Hs as <-.
  - intros t tag Ht. cbn. eexists. unfold alone. destruct (cpp_up "settle" (t, tt) Ht) as [ch Hch].
    unfold settle. run. rewrite Hch. done.
Qed.
End amqpcpp.

(** ** Clients *)

Section clients.
Context {T : Type} `{!ITransport T Subscription, !Usage T, !Spectated T, !Guarded T Subscription}.

Lemma publish_refused {Message S} (serialize : Message → outcome string) topic m wire (t : T) p (s : S) :
  serialize m = Ret wire → usable t = false →
  refused logic_error (Producer.publish serialize topic m) (t, (p, s)).
Proof.
  intros Hser Ht.
  destruct (guarded_unusable (T:=T) (H:=Subscription) (S:=unit) (λ _ _ x, (Ret Ack, x))
    (req_send topic wire (producer_options p)) (t, tt) Ht) as [what Hw].
  exists what. unfold Producer.publish, publishWith, MessagePublisher_publish. run. unfold id.
  rewrite Hser. cbn [ask] in Hw. run_in Hw.
  destruct (send topic wire (producer_options p) t) as [[b|e|] t1]; [done| |done].
  by injection Hw as -> ->.
Qed.

Lemma start_refused {U} (handlers : Handlers (T * (Consumer * U))) topic timeout options allowAsymmetric
    t (w : Consumer * U) :
  checkTopicOptions (capabilities t) options allowAsymmetric = Ret tt → usable t = false →
  refused logic_error (start handlers topic timeout options allowAsymmetric) (t, w).
Proof.
  intros Hopt Ht. destruct (guarded_unusable (on_delivery handlers)
    (req_ensureTopic topic options timeout) (t, w) Ht) as [what Hw].
  exists what. unfold start. run. unfold id. rewrite Hopt. cbn [ask] in Hw. by rewrite Hw.
Qed.

(** Nothing works after [close].  Over any guarded backend, once [close] has returned
    and until [connect] is called, a producer's publish of a message it can serialise
    and a consumer's start with options the backend can honour are refused with
    [std::logic_error]: no publish is counted, no handler is registered, and the
    transport, the counters and the application are exactly as they were. *)
Lemma used_after_close {S U Message} (run : Runner T Subscription S) timeout x x'
    (serialize : Message → outcome string) m wire topic p (s : S)
    (handlers : Handlers (T * (Consumer * U))) options allowAsymmetric (w : Consumer * U) timeout' :
  (∀ h d t s, by_others t (run h d (t, s)).2.1) → ITransport.close run timeout x = (Ret tt, x') →
  serialize m = Ret wire → checkTopicOptions (capabilities x'.1) options allowAsymmetric = Ret tt →
  refused logic_error (Producer.publish serialize topic m) (x'.1, (p, s)) ∧
  refused logic_error (start handlers topic timeout' options allowAsymmetric) (x'.1, w).
Proof.
  intros Hrun Hclose Hser Hopt. destruct (guarded_closed run timeout x x' Hrun Hclose) as [Hu _].
  split; [by eapply publish_refused|by apply start_refused].
Qed.
End clients.

(** C21. The three backends refuse misuse alike, before [connect], after [close], without a
    handler, for a second subscription and for a settlement that settles nothing:
    with the documented kind of exception, and leaving everything as it was. *)
Theorem backends_guarded :
  Guarded (InMemory.InMemoryTransport Subscription) Subscription ∧
  (∀ W (L : SimpleAmqpClient W),
     Guarded (@SimpleAmqp.SimpleAmqpTransport W L Subscription) Subscription) ∧
  (∀ W (L : AmqpLibrary W), Guarded (AmqpCpp.AmqpCppTransport W Subscription) Subscription).
Proof. split_and!; intros; apply _. Qed.

(** ** Closing and polling on *)

(** C22. A closed transport is opened again by the next pump.  Where a reconnection policy
    is enabled, its attempts are not used up and its back-off is over, pumping a
    SimpleAmqp transport after [close] is one reconnection attempt: the transport
    cannot tell its own [close] from the loss of its peer.  A successful one probed
    the endpoint that was closed and got its channel from it, with its credentials;
    the transport is ready again, without a subscription. *)
Theorem close_is_not_final {W} (L : SimpleAmqpClient W) {S}
    (run : Runner (@SimpleAmqp.SimpleAmqpTransport W L Subscription) Subscription S) timeout slice t t' s :
  SimpleAmqp.close timeout t = (Ret tt, t') → enabled (SimpleAmqp._policy t) = true →
  SimpleAmqp._failedAttempts t < maxAttempts (SimpleAmqp._policy t) →
  SimpleAmqp._nextAttempt t ≤ (SimpleAmqpTransport.steady_now (SimpleAmqp.world t')).1 →
  SimpleAmqp.ready t' = false ∧
  SimpleAmqp.pump run slice (t', s) = on_fst SimpleAmqp.serviceReconnect (t', s) ∧
  ∀ t1 t2,
    t1 = SimpleAmqp.set_retry (SimpleAmqp._policy t) (u32 (SimpleAmqp._failedAttempts t + 1))
           (SimpleAmqp._nextAttempt t)
           (SimpleAmqp.set_world (SimpleAmqpTransport.steady_now (SimpleAmqp.world t')).2 t') →
    SimpleAmqp.restore_session t1 = (Ret tt, t2) →
    SimpleAmqp.contacted (SimpleAmqp._endpoint t) 5000 (SimpleAmqp.world t1) ∧
    ∃ t3, SimpleAmqp.pump run slice (t', s) = (Ret true, (t3, s)) ∧ SimpleAmqp.ready t3 = true ∧
      SimpleAmqp._subscribed t3 = false ∧ SimpleAmqp._endpoint t3 = SimpleAmqp._endpoint t.
Proof.
  intros Hclose He Hmax Hnow. destruct (simple_closed L _ _ _ Hclose)
    as (Hch & Hsub & Hcon & Hpol & Hend & Hf & Hn).
  assert (Hready : SimpleAmqp.ready t' = false) by (unfold SimpleAmqp.ready; by rewrite Hcon).
  assert (Hpump : SimpleAmqp.pump run slice (t', s) = on_fst SimpleAmqp.serviceReconnect (t', s)).
  { unfold SimpleAmqp.pump. run. unfold id. rewrite Hready. cbn [negb].
    unfold SimpleAmqp.reconnect_or_stop. run. unfold id. rewrite Hpol, He. done. }
  split; [done|]. split; [done|]. intros t1 t2 Ht1 Hres. rewrite Hpump.
  assert (Hend1 : SimpleAmqp._endpoint t1 = SimpleAmqp._endpoint t) by (by rewrite Ht1).
  split.
  { rewrite <- Hend1. apply (SimpleAmqp.restore_session_contacts t1 t2); [by rewrite Ht1|done]. }
  set (t3 := SimpleAmqp.with_stats bump_reconnects
    (SimpleAmqp.set_retry (SimpleAmqp._policy t2) 0 (SimpleAmqp._nextAttempt t2) t2)).
  assert (Hservice : SimpleAmqp.serviceReconnect t' = (Ret true, t3)).
  { unfold SimpleAmqp.serviceReconnect. run. unfold id. rewrite Hpol, He, Hf. cbn [negb].
    rewrite bool_decide_false by lia. unfold SimpleAmqp.now.
    destruct (SimpleAmqpTransport.steady_now (SimpleAmqp.world t')) as [n w] eqn:En.
    cbn [fst snd SimpleAmqp.set_world SimpleAmqp._nextAttempt SimpleAmqp._policy
      SimpleAmqp._failedAttempts] in *. rewrite bool_decide_false by lia.
    match goal with |- context [SimpleAmqp.restore ?y] =>
      assert (y = t1) as -> by (rewrite Ht1, <- Hpol, <- Hf, <- Hn; done) end.
    by rewrite SimpleAmqp.restore_run, Hres. }
  exists t3. unfold on_fst. rewrite Hservice. split; [done|].
  split; [exact (SimpleAmqp.restore_session_ready _ _ Hres)|].
  pose proof (SimpleAmqp.restore_session_frozen t1) as (Hi & _). rewrite Hres in Hi.
  unfold SimpleAmqp.identity in Hi. cbn [snd] in Hi.
  assert (Hs2 : SimpleAmqp._subscribed t2 = SimpleAmqp._subscribed t1) by congruence.
  assert (He2 : SimpleAmqp._endpoint t2 = SimpleAmqp._endpoint t1) by congruence.
  split; [|by rewrite <- Hend1, <- He2]. change (SimpleAmqp._subscribed t2 = false).
  by rewrite Hs2, Ht1.
Qed.

(** ** On the toy libraries *)

Module Closing.

Lemma used_after_close_witness :
  ∃ what, Producer.publish ByteMessage.serialize "jobs" (mkByteMessage "late")
    ((InMemory.close 0 demo_subscribed).2, (demo_producer, tt)) =
    (Throw (logic_error what), ((InMemory.close 0 demo_subscribed).2, (demo_producer, tt))).
Proof.
  set (run := (λ _ _ x, (Ret Ack, x)) :
    Runner (InMemory.InMemoryTransport Subscription) Subscription unit).
  assert (Hrun : ∀ h d t s, by_others t (run h d (t, s)).2.1) by (intros; apply by_others_refl).
  assert (Hclose : ITransport.close run 0 (demo_subscribed, tt) =
    (Ret tt, ((InMemory.close 0 demo_subscribed).2, tt))) by (vm_compute; reflexivity).
  destruct (used_after_close run 0 _ _ ByteMessage.serialize (mkByteMessage "late") "motus:1:late" "jobs"
    demo_producer tt (mkHandlers None None : Handlers (_ * (Consumer * unit))) default_TopicOptions false
    (demo_consumer, tt) 0 Hrun Hclose eq_refl eq_refl) as [H _].
  exact H.
Defined.

Import SimpleAmqpTransport.Sample.

Definition opened : @SimpleAmqp.SimpleAmqpTransport _ client Subscription :=
  (SimpleAmqp.setReconnectPolicy (mkReconnectPolicy true 5 250 5000)
    (SimpleAmqp.connect default_Endpoint 1000
      (SimpleAmqp.new_SimpleAmqpTransport (mkBroker true [] [] []))).2).2.
Definition shut := (SimpleAmqp.close 1000 opened).2.

Lemma close_is_not_final_witness :
  SimpleAmqp.ready shut = false ∧
  ∃ t, SimpleAmqp.pump (λ _ _ x, (Ret Ack, x)) 100 (shut, tt) = (Ret true, (t, tt)) ∧
    SimpleAmqp.ready t = true ∧ SimpleAmqp._endpoint t = default_Endpoint.
Proof.
  assert (Hclose : SimpleAmqp.close 1000 opened = (Ret tt, shut)) by (vm_compute; reflexivity).
  destruct (close_is_not_final client (λ _ _ x, (Ret Ack, x)) 1000 100 opened shut tt Hclose)
    as (H1 & _ & H2); [vm_compute; reflexivity..|vm_compute; discriminate|].
  split; [exact H1|].
  match type of H2 with ∀ t1 t2, t1 = ?x → _ => set (t1 := x) in H2;
    assert (Hres : SimpleAmqp.restore_session t1 = (Ret tt, (SimpleAmqp.restore_session t1).2))
      by (vm_compute; reflexivity) end.
  destruct (H2 _ _ eq_refl Hres) as (_ & t3 & Hp & Hr & _ & He). exists t3.
  split; [exact Hp|]. split; [exact Hr|]. rewrite He. vm_compute. reflexivity.
Defined.
End Closing.
