(* ===== verification/Interop.v ===== *)
(** Two clients, one protocol.

    Processes that use the AMQP-CPP backend and processes that use the SimpleAmqp
    backend meet on one broker, so what one declares the other must declare with
    exactly the same arguments.  A [Frame] is the AMQP method a library call stands
    for; [SimpleAmqpSpeaks] and [AmqpCppSpeaks] state what the two client libraries
    document about their calls -- which method each sends -- and nothing about what
    the broker answers.  [plain_frames] is the reference: the methods an operation
    must send whichever backend carries it out. *)

From S2P Require Import Prelude ITransport.
From S2P Require Import Consumer SimpleAmqpTransport AmqpConnection AmqpCppTransport AmqpCppConsumer.
#[local] Open Scope Z_scope.
#[local] Existing Instance SimpleAmqp.simpleamqp_transport.

(** ** The protocol *)

Inductive Frame : Type :=
  | exchange_declare (name : string) (type : ExchangeType) (durable : bool)
  | queue_declare (name : string) (durable exclusive autodelete : bool)
      (arguments : list (string * AmqpValue))
  | queue_bind (queue exchange key : string)
  | basic_publish (exchange key body : string) (persistent : bool)
  | basic_qos (prefetch : Z)
  | basic_consume (queue : string).

Definition amqp_value (v : TableValue) : AmqpValue :=
  match v with table_string s => amqp_string s | table_int32 z => amqp_int32 z end.
Definition amqp_table (t : Table) : list (string * AmqpValue) := prod_map id amqp_value <$> t.

(** ** What the client libraries document *)

Class SimpleAmqpSpeaks (W : Type) `{!SimpleAmqpClient W} : Type := {
  said : W → list Frame;
  said_exchange ch name durable w w' :
    DeclareExchange ch name false durable false w = (Ret tt, w') →
    said w' = said w ++ [exchange_declare name exchange_direct durable];
  said_queue ch name durable exclusive autodelete arguments w w' :
    DeclareQueue ch name false durable exclusive autodelete arguments w = (Ret tt, w') →
    said w' = said w ++ [queue_declare name durable exclusive autodelete (amqp_table arguments)];
  said_bind ch queue exchange key w w' :
    BindQueue ch queue exchange key w = (Ret tt, w') →
    said w' = said w ++ [queue_bind queue exchange key];
  said_publish ch exchange key body persistent w w' :
    BasicPublish ch exchange key body persistent w = (Ret tt, w') →
    said w' = said w ++ [basic_publish exchange key body persistent];
  (** [BasicConsume(channel, queue, "", no_local, no_ack, exclusive, prefetch)] *)
  said_consume ch queue prefetch w tag w' :
    BasicConsume ch queue "" false false false prefetch w = (Ret tag, w') →
    said w' = said w ++ [basic_qos prefetch; basic_consume queue];
}.

(** A call that can only end as described, whatever its callbacks do to the rest of
    the world. *)
Fixpoint ends {W C A} (talk : W → list Frame) (Q : A → W → Prop) (a : Activity W C A) : Prop :=
  match a with
  | Finished (Ret v) w => Q v w
  | Finished _ _ => True
  | Calls c w resume => ∀ w', talk w' = talk w → ends talk Q (resume w')
  end.

(** A call that sends no method of the above. *)
Fixpoint silent {W C A} (talk : W → list Frame) (F : list Frame) (a : Activity W C A) : Prop :=
  match a with
  | Finished _ w => talk w = F
  | Calls c w resume => talk w = F ∧ ∀ w', talk w' = F → silent talk F (resume w')
  end.

(** A channel request is sent, or fails at once with a reason. *)
Definition requests_frame {W} (talk : W → list Frame) (w : W) (f : Frame)
    (a : Activity W ConnCallback (option string)) : Prop :=
  ends talk (λ i w', match i with None => talk w' = talk w ++ [f] | Some m => m ≠ "" end) a.

Class AmqpCppSpeaks (W : Type) `{!AmqpLibrary W} : Type := {
  talk : W → list Frame;
  talk_now w : talk (steady_now w).2 = talk w;
  talk_read timeout w : talk (async_read timeout w).2 = talk w;
  talk_write data w : talk (socket_write data w).2 = talk w;
  talk_parse buffer w : silent talk (talk w) (Connection_parse buffer w);
  talk_ack ch tag w : silent talk (talk w) (channel_ack ch tag w);
  talk_reject ch tag requeue w : silent talk (talk w) (channel_reject ch tag requeue w);
  talk_exchange ch r name type durable w :
    requests_frame talk w (exchange_declare name type durable) (declareExchange ch r name type durable w);
  talk_queue ch r name durable exclusive autodelete arguments w :
    requests_frame talk w (queue_declare name durable exclusive autodelete arguments)
      (declareQueue ch r name (mkQueueFlags durable exclusive autodelete false) arguments w);
  talk_bind ch r exchange queue key w :
    requests_frame talk w (queue_bind queue exchange key) (bindQueue ch r exchange queue key w);
  talk_consume ch r queue w : requests_frame talk w (basic_consume queue) (consume ch r queue w);
  talk_qos ch n w : ends talk (λ _ w', talk w' = talk w ++ [basic_qos n]) (setQos ch n w);
  talk_publish ch exchange key body persistent w :
    ends talk (λ ok w', ok = true → talk w' = talk w ++ [basic_publish exchange key body persistent])
      (channel_publish ch exchange key body persistent w);
}.

(** ** Scripts *)

(** What an application asks of a transport, for topics that are in no group. *)
Inductive Op (H : Type) : Type :=
  | op_declare (topic : Topic) (options : TopicOptions) (timeout : Z)
  | op_send (topic : Topic) (payload : string) (options : SendOptions)
  | op_subscribe (topic : Topic) (handler : option H) (timeout : Z).
Arguments op_declare {H}. Arguments op_send {H}. Arguments op_subscribe {H}.

Definition plain {H} (o : Op H) : Prop :=
  match o with
  | op_declare topic options _ => topic ≠ "" ∧ group options = ""
  | op_send topic _ _ => SimpleAmqp.is_forensic topic = false
  | op_subscribe _ _ _ => True
  end.

Section script.
Context {T H S : Type} `{!ITransport T H} (run : Runner T H S).

(** One operation; [false] is a refused frame. *)
Definition run_op (o : Op H) : M (T * S) bool :=
  match o with
  | op_declare topic options timeout => _ ← ensureTopic run topic options timeout; mret true
  | op_send topic payload options => on_fst (send topic payload options)
  | op_subscribe topic handler timeout => _ ← subscribe run topic handler timeout; mret true
  end.

(** The operations in order, as long as none is refused. *)
Fixpoint run_script (ops : list (Op H)) : M (T * S) bool :=
  match ops with
  | [] => mret true
  | o :: ops =>
      ok ← run_op o;
      if (ok : bool) then run_script ops else mret false
  end.
End script.

(** The reference: the methods of one operation. *)
Definition declare_frame (topic : Topic) (options : TopicOptions) : Frame :=
  queue_declare topic (durable options) (negb (shared options)) (deleteWhenUnused options)
    (AmqpCpp.queueArguments topic options).
Definition forensic_frames (topic : Topic) : list Frame :=
  [exchange_declare kDeadLetterExchange exchange_direct true;
   declare_frame (deadLetterTopic topic) (forensicTopicOptions topic);
   queue_bind (deadLetterTopic topic) kDeadLetterExchange topic].
Definition plain_frames {H} (o : Op H) : list Frame :=
  match o with
  | op_declare topic options _ =>
      (if deadLetter options then forensic_frames topic else []) ++ [declare_frame topic options]
  | op_send topic payload options => [basic_publish "" topic payload (send_durable options)]
  | op_subscribe topic _ _ => [basic_qos 1; basic_consume topic]
  end.

(** The two tables agree, entry by entry. *)
Lemma queueArguments_agree topic options :
  amqp_table (SimpleAmqp.queueArguments topic options) = AmqpCpp.queueArguments topic options.
Proof.
  unfold SimpleAmqp.queueArguments, AmqpCpp.queueArguments, amqp_table.
  rewrite fmap_app. by destruct (deadLetter options), (bool_decide _).
Qed.

(** ** The SimpleAmqp side *)

Section simple.
Context {W H S : Type} `{!SimpleAmqpClient W, !SimpleAmqpSpeaks W}.
Local Abbreviation T := (@SimpleAmqp.SimpleAmqpTransport W _ H).

(** A library call that returned. *)
Lemma on_world_Ret {A} (m : M W A) (t t' : T) (a : A) :
  SimpleAmqp.on_world m t = (Ret a, t') →
  ∃ w, m (SimpleAmqp.world t) = (Ret a, w) ∧ t' = SimpleAmqp.set_world w t.
Proof.
  unfold SimpleAmqp.on_world. destruct (m (SimpleAmqp.world t)) as [o w]. intros [= -> <-]. by exists w.
Qed.

Lemma simple_channel op ch (t t' : T) :
  SimpleAmqp.require_channel op t = (Ret ch, t') → t' = t.
Proof. unfold SimpleAmqp.require_channel. run. cbn. destruct (SimpleAmqp._channel t); by intros [= _ <-]. Qed.

Ltac world_call H :=
  let w := fresh "w" in let E := fresh "E" in apply on_world_Ret in H as (w & E & ->);
  cbn [SimpleAmqp.world SimpleAmqp.set_world SimpleAmqp.set_handler SimpleAmqp.set_topic] in E.

Lemma simple_declares topic options timeout (t t' : T) :
  SimpleAmqp.ensureTopic topic options timeout t = (Ret tt, t') →
  said (SimpleAmqp.world t') = said (SimpleAmqp.world t) ++
    (if deadLetter options then forensic_frames topic else []) ++ [declare_frame topic options].
Proof.
  unfold SimpleAmqp.ensureTopic. intros (ch & t0 & Hch & He)%M_bind_Ret.
  apply simple_channel in Hch as ->. apply M_bind_Ret in He as ([] & t1 & Hf & He).
  apply M_bind_Ret in He as ([] & t2 & Hq & He). injection He as <-. world_call Hq.
  apply said_queue in E. rewrite queueArguments_agree in E. cbn [SimpleAmqp.world SimpleAmqp.set_topic
    SimpleAmqp.set_world]. rewrite E, app_assoc. f_equal. clear E.
  destruct (deadLetter options); [|injection Hf as <-; by rewrite app_nil_r].
  apply M_bind_Ret in Hf as ([] & t3 & H1 & Hf). apply M_bind_Ret in Hf as ([] & t4 & H2 & H3).
  world_call H1. world_call H2. world_call H3.
  apply said_exchange in E. apply said_queue in E0. apply said_bind in E1.
  rewrite queueArguments_agree in E0. cbn. rewrite E1, E0, E. by rewrite <- !app_assoc.
Qed.

Lemma simple_sends topic payload options (t t' : T) ok :
  SimpleAmqp.send topic payload options t = (Ret ok, t') →
  said (SimpleAmqp.world t') =
    said (SimpleAmqp.world t) ++ [basic_publish "" topic payload (send_durable options)].
Proof.
  unfold SimpleAmqp.send. intros (ch & t0 & Hch & He)%M_bind_Ret. apply simple_channel in Hch as ->.
  apply M_bind_Ret in He as ([] & t1 & [_ ->]%throw_if_Ret & He).
  apply M_bind_Ret in He as ([] & t2 & Hp & He). world_call Hp. injection He as _ <-.
  by apply said_publish in E.
Qed.

Lemma simple_subscribes topic handler timeout (t t' : T) :
  SimpleAmqp.subscribe topic handler timeout t = (Ret tt, t') →
  said (SimpleAmqp.world t') = said (SimpleAmqp.world t) ++ [basic_qos 1; basic_consume topic].
Proof.
  unfold SimpleAmqp.subscribe. intros (ch & t0 & Hch & Hs)%M_bind_Ret. apply simple_channel in Hch as ->.
  apply M_bind_Ret in Hs as ([] & t1 & [_ ->]%throw_if_Ret & Hs).
  apply M_bind_Ret in Hs as (? & ? & [= <- <-] & Hs).
  apply M_bind_Ret in Hs as ([] & t1 & [_ ->]%throw_if_Ret & Hs).
  apply M_bind_Ret in Hs as ([] & ? & [= <-] & Hs). apply M_bind_Ret in Hs as ([] & ? & [= <-] & Hs).
  apply M_bind_Ret in Hs as ([] & t1 & Hc & Hs). injection Hs as <-.
  unfold SimpleAmqp.startConsuming in Hc. apply M_bind_Ret in Hc as (ch' & t2 & Hch & Hc).
  unfold SimpleAmqp.the_channel in Hch. run_in Hch.
  cbn in Hch. destruct (SimpleAmqp._channel t) as [ch0|]; [|done]. injection Hch as <- <-.
  apply M_bind_Ret in Hc as (? & ? & [= <- <-] & Hc). apply M_bind_Ret in Hc as (tag & t2 & Hb & Hc).
  injection Hc as <-. world_call Hb. by apply said_consume in E.
Qed.

Context (run : Runner T H S).

Lemma simple_op o (t t' : T) (s s' : S) ok :
  run_op run o (t, s) = (Ret ok, (t', s')) →
  said (SimpleAmqp.world t') = said (SimpleAmqp.world t) ++ plain_frames o.
Proof.
  destruct o as [topic options timeout|topic payload options|topic handler timeout]; cbn.
  - intros ([] & [t1 s1] & He & Hx)%M_bind_Ret. injection Hx as _ <- <-. unfold on_fst in He.
    destruct (SimpleAmqp.ensureTopic _ _ _ t) as [o t2] eqn:E. injection He as -> <- <-.
    by eapply simple_declares.
  - unfold on_fst. destruct (SimpleAmqp.send _ _ _ t) as [o t2] eqn:E. intros [= -> <- <-].
    by eapply simple_sends.
  - intros ([] & [t1 s1] & He & Hx)%M_bind_Ret. injection Hx as _ <- <-. unfold on_fst in He.
    destruct (SimpleAmqp.subscribe _ _ _ t) as [o t2] eqn:E. injection He as -> <- <-.
    by eapply simple_subscribes.
Qed.
End simple.

(** ** The AMQP-CPP side *)

Section cpp.
Import AmqpCpp.
Context {W H S : Type} `{!AmqpLibrary W, !AmqpCppSpeaks W}.
Local Abbreviation T := (AmqpCppTransport W H).
Local Abbreviation X := (T * S)%type.
Context (run : Runner T H S).
(** Handlers may use the world, but not this connection. *)
Hypothesis Hrun : ∀ h d (x : X), ∃ w,
  (run h d x).2.1 = set_wire w (_connection x.1) x.1 ∧ talk w = talk (world x.1).

(** What has been said so far. *)
Definition spoken (F : list Frame) (x : X) : Prop := talk (world x.1) = F.

Lemma spoken_world F (x : X) w : talk w = talk (world x.1) → spoken F x →
  spoken F (AmqpConnection.set_world w x).
Proof. unfold spoken. intros H1 H2. cbn. by rewrite H1. Qed.

Lemma spoken_conn F (x : X) c : spoken F x → spoken F (set_conn c x).
Proof. done. Qed.

Lemma spoken_pure F {A} (f : W → A * W) :
  (∀ w, talk (f w).2 = talk w) → preserves (spoken F) (on_pure f : M X A).
Proof.
  intros Hf x Hx. unfold on_pure, on_world. specialize (Hf (get_world x)).
  destruct (f (get_world x)) as [a w]. by apply spoken_world.
Qed.

Lemma spoken_on_conn F c : preserves (spoken F) (on_conn c : M X unit).
Proof.
  assert (Hm : ∀ f, preserves (spoken F) (modify_conn f : M X unit)).
  { intros f. apply preserves_modify. intros x. apply spoken_conn. }
  assert (Hg : ∀ A (f : _ → A), preserves (spoken F) (get_member f : M X A)) by (intros; apply preserves_gets).
  assert (Hw : ∀ data, preserves (spoken F) (on_pure (socket_write data) : M X _))
    by (intros; apply spoken_pure, talk_write).
  destruct c; simpl; unfold onData, onReady, onError, onClosed; frames.
Qed.

Lemma perform_silent {C A} (on : C → M X unit) F (a : Activity W C A) (x : X) :
  (∀ c, preserves (spoken F) (on c)) → silent talk F a → spoken F (perform on a x).2.
Proof.
  intros Hon. revert x. induction a as [o w|c w resume IH]; intros x Ha; [exact Ha|].
  destruct Ha as [Hw Ha]. cbn [perform]. specialize (Hon c (AmqpConnection.set_world w x) Hw).
  destruct (on c _) as [[[]|e|] x']; cbn [snd] in *; [|done..]. apply IH, Ha, Hon.
Qed.

Lemma perform_ends {A} Q (a : Activity W ConnCallback A) (x x' : X) v :
  ends talk Q a → perform on_conn a x = (Ret v, x') → Q v (world x'.1).
Proof.
  revert x. induction a as [o w|c w resume IH]; intros x Ha Hp; cbn in Hp.
  - injection Hp as -> <-. exact Ha.
  - pose proof (spoken_on_conn (talk w) c (AmqpConnection.set_world w x) eq_refl) as Hc.
    destruct (on_conn c _) as [[[]|e|] x1]; [|done..]. eapply IH, Hp. by apply Ha.
Qed.

Lemma spoken_silent F {A} (f : W → Activity W ConnCallback A) :
  (∀ w, silent talk (talk w) (f w)) → preserves (spoken F) (call f : M X A).
Proof.
  intros Hf x Hx. unfold call. apply perform_silent; [apply spoken_on_conn|].
  unfold spoken in Hx. rewrite <- Hx. apply Hf.
Qed.

Lemma call_ends {A} Q (f : W → Activity W ConnCallback A) (x x' : X) v :
  ends talk Q (f (world x.1)) → call f x = (Ret v, x') → Q v (world x'.1).
Proof. intros Hf. by apply perform_ends. Qed.

Lemma spoken_modify F f : (∀ t, world (f t) = world t) → preserves (spoken F) (modify_t f : M X unit).
Proof. intros Hf. apply preserves_modify. intros x. unfold spoken. cbn. by rewrite Hf. Qed.

Lemma spoken_invoke F d : preserves (spoken F) (invoke_handler run d).
Proof.
  intros x Hx. unfold invoke_handler, get_t. run. cbn. destruct (_handler x.1) as [h|]; [|done].
  destruct (Hrun h d x) as (w & Hr & Hw). unfold spoken. rewrite Hr. cbn. by rewrite Hw.
Qed.

Lemma spoken_received F body tag redelivered :
  preserves (spoken F) (onReceived run body tag redelivered).
Proof.
  assert (∀ f : T → T, (∀ t, world (f t) = world t) → preserves (spoken F) (modify_t f : M X unit))
    by (intros; by apply spoken_modify).
  assert (Hc : preserves (spoken F) (the_channel : M X Channel)).
  { unfold the_channel, get_t. frames. }
  assert (∀ ch, preserves (spoken F) (call (channel_ack ch tag) : M X unit))
    by (intros; apply spoken_silent, talk_ack).
  assert (∀ ch b, preserves (spoken F) (call (λ w, channel_reject ch tag b w) : M X unit))
    by (intros; apply spoken_silent, talk_reject).
  unfold onReceived, resolve_delivery. pose proof (spoken_invoke F). frames.
Qed.

Lemma spoken_on_channel F c : preserves (spoken F) (on_channel run c).
Proof. destruct c; simpl; [by apply spoken_modify..|apply spoken_received]. Qed.

Lemma spoken_pumpUntil F predicate timeout : preserves (spoken F) (pumpUntil run predicate timeout).
Proof.
  assert (Hm : ∀ f, preserves (spoken F) (modify_conn f : M X unit)).
  { intros f. apply preserves_modify. intros x. apply spoken_conn. }
  assert (Hg : ∀ A (f : _ → A), preserves (spoken F) (get_member f : M X A)) by (intros; apply preserves_gets).
  assert (Hn : preserves (spoken F) (on_pure steady_now : M X Z)) by apply spoken_pure, talk_now.
  assert (Hr : ∀ n, preserves (spoken F) (on_pure (async_read n) : M X _))
    by (intros; apply spoken_pure, talk_read).
  assert (Hp : preserves (spoken F) (parse (on_channel run))).
  { intros x Hx. unfold parse. case_match; [|done]. apply perform_silent.
    - intros [c|c]; [apply spoken_on_conn|apply spoken_on_channel].
    - unfold spoken in Hx. rewrite <- Hx. apply talk_parse. }
  assert (Ho : ∀ n, preserves (spoken F) (pumpOnce (on_channel run) n)) by (intros; unfold pumpOnce; frames).
  assert (Hl : ∀ fuel deadline, preserves (spoken F) (pump_until (on_channel run) predicate fuel deadline)).
  { intros fuel deadline. induction fuel; cbn [pump_until]; frames. }
  unfold pumpUntil, AmqpConnection.pumpUntil, get_t. frames.
Qed.

(** *** Requests *)

Lemma the_channel_Ret ch (x x' : X) : the_channel x = (Ret ch, x') → x' = x.
Proof.
  unfold the_channel. intros (o & x0 & [= <- <-] & Hch)%M_bind_Ret.
  destruct (_channel x.1); by injection Hch.
Qed.

(** The cells of a request stay allocated. *)
Definition allocated (r : Z) (x : X) : Prop := is_Some (requests x.1 !! r).

Lemma handler_keeps I h d : (∀ w x, I x → I (set_wire w (_connection x.1) x.1, x.2)) →
  (∀ s x, I x → I (x.1, s)) → preserves I (run h d).
Proof.
  intros Hw Hs x Hx. destruct (Hrun h d x) as (w & Hr & _).
  destruct (run h d x) as [o [t s]]. cbn in Hr |- *. rewrite Hr.
  apply (Hs s (set_wire w (_connection x.1) x.1, x.2)), Hw, Hx.
Qed.

Lemma allocated_framed r : framed run (allocated r).
Proof.
  unfold allocated. split; [done..| | |].
  - intros r' f x Hx. cbn. by apply lookup_alter_is_Some.
  - intros x Hx. cbn. rewrite lookup_insert_is_Some'. by right.
  - intros. apply frame_received; try done. intros h d. by apply handler_keeps.
Qed.

(** A request refused at once is not waited for. *)
Lemma refused_not_awaited r step m timeout (x x' : X) b :
  allocated r x → m ≠ "" → on_channel run (call_onFailure r step (Some m)) x = (Ret tt, x') →
  let predicate y := step_done step (the_request r y.1) ||
    negb (is_empty (cell_failure (the_request r y.1))) in
  ∀ y, pumpUntil run predicate timeout x' = (Ret b, y) → cell_failure (the_request r y.1) = m.
Proof.
  intros [q Hq] Hm [= <-] predicate y Hpump. unfold allocated in Hq.
  set (x1 := (_, _)) in Hpump.
  assert (Hcell : ∀ w, cell_failure (the_request r (set_wire w (_connection x1.1) x1.1)) = m).
  { intros w. unfold the_request, x1. cbn. by rewrite lookup_alter_eq, Hq. }
  assert (Hpred : ∀ w, predicate (set_wire w (_connection x1.1) x1.1, x1.2) = true).
  { intros w. unfold predicate. cbn [fst]. rewrite Hcell. apply is_empty_false in Hm. rewrite Hm.
    by rewrite orb_true_r. }
  clearbody x1. unfold pumpUntil in Hpump. apply M_bind_Ret in Hpump as (c & ? & [= <- <-] & Hpump).
  destruct (_connection x1.1) as [c|] eqn:Hc; [|done].
  unfold AmqpConnection.pumpUntil in Hpump. apply M_bind_Ret in Hpump as (n & x2 & Hn & Hpump).
  assert (∃ w, x2 = (set_wire w (_connection x1.1) x1.1, x1.2)) as [w ->].
  { unfold on_pure, on_world in Hn. destruct (steady_now _) as [k w]. injection Hn as _ <-.
    rewrite Hc. by exists w. }
  unfold pump_fuel in Hpump. cbn [pump_until] in Hpump.
  apply M_bind_Ret in Hpump as ([] & x3 & Hp & Hpump). injection Hpump as _ <-.
  apply M_bind_Ret in Hp as (d & ? & [= <- <-] & Hp). rewrite Hc in Hp.
  rewrite Hpred in Hp. injection Hp as <-. apply Hcell.
Qed.

Lemma ask_speaks f frame r step timeout failure timed_out (x x' : X) :
  (∀ ch w, requests_frame talk w frame (f ch r w)) → allocated r x →
  ask run f r step timeout failure timed_out x = (Ret tt, x') →
  talk (world x'.1) = talk (world x.1) ++ [frame] ∧ allocated r x'.
Proof.
  intros Hf Hr Hask. split.
  2:{ pose proof (frame_ask run (allocated r) (allocated_framed r) f r step timeout failure timed_out x Hr)
        as Ha. by rewrite Hask in Ha. }
  unfold ask in Hask. apply M_bind_Ret in Hask as (ch & x0 & Hch & Hask).
  assert (x0 = x) as -> by (by apply the_channel_Ret in Hch).
  apply M_bind_Ret in Hask as (immediate & x1 & Hcall & Hask).
  pose proof (call_ends _ _ _ _ _ (Hf ch (world x.1)) Hcall) as Hsaid.
  assert (Hr1 : allocated r x1).
  { destruct (call_wire (f ch r) x) as (w & c & Hx). rewrite Hcall in Hx. cbn in Hx. by rewrite Hx. }
  apply M_bind_Ret in Hask as ([] & x2 & Himm & Hask).
  apply M_bind_Ret in Hask as (b & x3 & Hpump & Hask).
  set (predicate := λ y : X, _) in Hpump. change (pumpUntil run predicate timeout x2 = (Ret b, x3)) in Hpump.
  assert (Hkeep : ∀ F, talk (world x2.1) = F → talk (world x3.1) = F).
  { intros F HF. pose proof (spoken_pumpUntil F predicate timeout x2 HF) as Hs. by rewrite Hpump in Hs. }
  apply M_bind_Ret in Hask as (t & ? & [= <- <-] & Hask).
  apply M_bind_Ret in Hask as ([] & x4 & [Hempty ->]%throw_if_Ret & [_ ->]%throw_if_Ret).
  apply negb_false_iff, is_empty_true in Hempty.
  destruct immediate as [m|]; [|injection Himm as <-; by apply Hkeep].
  pose proof (refused_not_awaited r step m timeout x1 x2 b Hr1 Hsaid Himm x3 Hpump) as Hm.
  unfold id in Hempty. congruence.
Qed.

(** *** Operations *)

Lemma declare_destination_speaks topic options timeout (x x' : X) n :
  declare_destination run topic options timeout x = (Ret n, x') →
  talk (world x'.1) = talk (world x.1) ++
    (if is_empty (group options) then [] else
       [exchange_declare (group options) (amqpExchangeType (routing options)) (durable options)]) ++
    [declare_frame topic options] ++
    (if is_empty (group options) then [] else
       [queue_bind topic (group options) (if is_empty (route options) then topic else route options)]).
Proof.
  unfold declare_destination. intros (r & x1 & Hr & Hd)%M_bind_Ret.
  assert (allocated r x1 ∧ talk (world x1.1) = talk (world x.1)) as [Ha1 Hx1].
  { unfold make_request in Hr. injection Hr as <- <-. unfold allocated. cbn.
    by rewrite lookup_insert_eq. }
  apply M_bind_Ret in Hd as ([] & x2 & Hexchange & Hd).
  apply M_bind_Ret in Hd as ([] & x3 & Hqueue & Hd).
  apply M_bind_Ret in Hd as ([] & x4 & Hbind & Hd). injection Hd as _ <-.
  assert (H2 : talk (world x2.1) = talk (world x1.1) ++ (if is_empty (group options) then [] else
       [exchange_declare (group options) (amqpExchangeType (routing options)) (durable options)])
       ∧ allocated r x2).
  { destruct (is_empty (group options)); [injection Hexchange as <-; by rewrite app_nil_r|].
    eapply ask_speaks, Hexchange; [|done]. intros. apply talk_exchange. }
  destruct H2 as [H2 Ha2]. eapply (ask_speaks _ (declare_frame topic options)) in Hqueue as [H3 Ha3];
    [|intros; apply talk_queue|done].
  assert (H4 : talk (world x4.1) = talk (world x3.1) ++ (if is_empty (group options) then [] else
       [queue_bind topic (group options) (if is_empty (route options) then topic else route options)])).
  { destruct (is_empty (group options)); [injection Hbind as <-; by rewrite app_nil_r|].
    apply M_bind_Ret in Hbind as ([] & x5 & Hb & Hbind). injection Hbind as <-.
    eapply ask_speaks in Hb as [Hb _]; [|intros; apply talk_bind|done]. exact Hb. }
  rewrite H4, H3, H2, Hx1. by rewrite <- !app_assoc.
Qed.

Lemma declare_speaks topic options timeout (x x' : X) n :
  topic ≠ "" → group options = "" → declare run topic options timeout x = (Ret n, x') →
  talk (world x'.1) = talk (world x.1) ++
    (if deadLetter options then forensic_frames topic else []) ++ [declare_frame topic options].
Proof.
  intros Htopic Hgroup. unfold declare. simpl. intros (ch & x1 & Hch & Hd)%M_bind_Ret.
  apply require_channel_Ret in Hch as [-> _]. apply M_bind_Ret in Hd as ([] & x2 & Hf & Hd).
  apply declare_destination_speaks in Hd as ->. apply is_empty_true in Hgroup. rewrite Hgroup.
  rewrite app_nil_r, app_nil_l, (app_assoc (talk (world x.1))). f_equal.
  destruct (deadLetter options); [|injection Hf as <-; by rewrite app_nil_r].
  apply M_bind_Ret in Hf as (n' & x3 & Hf & Hx). injection Hx as <-.
  apply M_bind_Ret in Hf as (ch' & x4 & Hch' & Hf). apply require_channel_Ret in Hch' as [-> _].
  apply M_bind_Ret in Hf as ([] & ? & [= <-] & Hf).
  apply declare_destination_speaks in Hf as ->. f_equal. apply is_empty_false in Htopic.
  unfold forensic_frames. cbn [group forensicTopicOptions route durable routing].
  change (is_empty kDeadLetterExchange) with false. by rewrite Htopic.
Qed.

Lemma subscribe_speaks topic handler timeout (x x' : X) :
  subscribe run topic handler timeout x = (Ret tt, x') →
  talk (world x'.1) = talk (world x.1) ++ [basic_qos 1; basic_consume topic].
Proof.
  unfold subscribe. intros (ch & x1 & Hch & Hs)%M_bind_Ret.
  apply require_channel_Ret in Hch as [-> _]. destruct handler as [h|]; [|done].
  apply M_bind_Ret in Hs as (t & ? & [= <- <-] & Hs).
  apply M_bind_Ret in Hs as ([] & ? & [_ ->]%throw_if_Ret & Hs).
  apply M_bind_Ret in Hs as ([] & ? & [= <-] & Hs). apply M_bind_Ret in Hs as ([] & ? & [= <-] & Hs).
  apply M_bind_Ret in Hs as ([] & x1 & Hc & Hs). injection Hs as <-. cbn [fst set_subscribed world].
  set (x0 := (_, _)) in Hc. change (talk (world x.1)) with (talk (world x0.1)).
  unfold startConsuming in Hc. apply M_bind_Ret in Hc as (topic' & ? & [= <- <-] & Hc).
  apply M_bind_Ret in Hc as (ch' & x2 & ->%the_channel_Ret & Hc).
  apply M_bind_Ret in Hc as ([] & x2 & Hq & Hc).
  pose proof (call_ends _ _ _ _ _ (talk_qos ch' 1 _) Hq) as Hqos. cbn beta in Hqos.
  apply M_bind_Ret in Hc as (r & x3 & Hr & Hc).
  assert (allocated r x3 ∧ talk (world x3.1) = talk (world x2.1)) as [Ha3 Hx3].
  { unfold make_request in Hr. injection Hr as <- <-. unfold allocated. cbn. by rewrite lookup_insert_eq. }
  eapply ask_speaks in Hc as [Hc _]; [|intros; apply talk_consume|done].
  rewrite Hc, Hx3, Hqos. by rewrite <- app_assoc.
Qed.

(** Only forensic destinations are in a group. *)
Definition ungrouped (x : X) : Prop :=
  ∀ k, is_Some (_routes x.1 !! k) → SimpleAmqp.is_forensic k = true.

Lemma ungrouped_same (x x' : X) : _routes x'.1 = _routes x.1 → ungrouped x → ungrouped x'.
Proof. unfold ungrouped. by intros ->. Qed.

Lemma forensic_is_forensic topic : SimpleAmqp.is_forensic (deadLetterTopic topic) = true.
Proof. unfold SimpleAmqp.is_forensic, deadLetterTopic. by rewrite stake_app, String.eqb_refl. Qed.

Lemma keeps_routes h d R : preserves (λ x : X, _routes x.1 = R) (run h d).
Proof. by apply handler_keeps. Qed.

Lemma subscribe_routes topic handler timeout R :
  preserves (λ x : X, _routes x.1 = R) (subscribe run topic handler timeout).
Proof.
  assert (HI : framed run (λ x : X, _routes x.1 = R)).
  { apply framed_plain; try done. intros. apply keeps_routes. }
  pose proof (frame_startConsuming run _ HI timeout).
  pose proof (frame_require (S:=S) (λ x : X, _routes x.1 = R) "subscribe").
  assert (∀ f : T → T, (∀ t, _routes (f t) = _routes t) →
    preserves (λ x : X, _routes x.1 = R) (modify_t f)).
  { intros f Hf. apply preserves_modify. intros x. cbn. by rewrite Hf. }
  unfold subscribe, get_t. frames.
Qed.

Lemma send_speaks topic payload options (x x' : X) :
  ungrouped x → SimpleAmqp.is_forensic topic = false →
  send topic payload options x = (Ret true, x') →
  talk (world x'.1) = talk (world x.1) ++ [basic_publish "" topic payload (send_durable options)] ∧
  ungrouped x'.
Proof.
  intros Hx Htopic. unfold send. intros (ch & x1 & Hch & Hs)%M_bind_Ret.
  apply require_channel_Ret in Hch as [-> _].
  apply M_bind_Ret in Hs as ([] & ? & [_ ->]%throw_if_Ret & Hs).
  assert (Hdest : destination x.1 topic options = ("", topic)).
  { unfold destination. destruct (_routes x.1 !! topic) eqn:Hr.
    - rewrite Hx in Htopic; [done|by rewrite Hr].
    - change (is_empty "") with true. by rewrite andb_false_r. }
  apply M_bind_Ret in Hs as ([exchange key] & ? & [= Hd <-] & Hs). rewrite Hdest in Hd.
  injection Hd as <- <-. apply M_bind_Ret in Hs as (ok & x1 & Hcall & Hs).
  pose proof (call_ends _ _ _ _ _ (talk_publish ch "" topic payload (send_durable options) _) Hcall) as Hp.
  assert (Hx1 : ungrouped x1).
  { destruct (call_wire (channel_publish ch "" topic payload (send_durable options)) x) as (w & c & Hw).
    rewrite Hcall in Hw. cbn in Hw. by subst x1. }
  apply M_bind_Ret in Hs as ([] & x2 & Hm & Hs). injection Hs as -> <-.
  injection Hm as <-. split; [by apply Hp|]. by apply (ungrouped_same x1).
Qed.

End cpp.

(** ** Agreement *)

Section agreement.
Context {W1 : Type} `{!SimpleAmqpClient W1, !SimpleAmqpSpeaks W1} {S1 : Type}.
Context {W2 : Type} `{!AmqpLibrary W2, !AmqpCppSpeaks W2} {S2 : Type}.
Local Abbreviation T1 := (@SimpleAmqp.SimpleAmqpTransport W1 _ Subscription).
Local Abbreviation T2 := (AmqpCpp.AmqpCppTransport W2 Subscription).
Context (run1 : Runner T1 Subscription S1) (run2 : Runner T2 Subscription S2).
Hypothesis Hrun2 : ∀ h d (x : T2 * S2), ∃ w,
  (run2 h d x).2.1 = AmqpCpp.set_wire w (AmqpCpp._connection x.1) x.1 ∧
  talk w = talk (AmqpCpp.world x.1).

Lemma cpp_op o (x x' : T2 * S2) :
  plain o → ungrouped x → run_op run2 o x = (Ret true, x') →
  talk (AmqpCpp.world x'.1) = talk (AmqpCpp.world x.1) ++ plain_frames o ∧ ungrouped x'.
Proof.
  intros Ho Hx. destruct o as [topic options timeout|topic payload options|topic handler timeout];
    cbn [run_op plain_frames].
  - destruct Ho as [Htopic Hgroup]. intros ([] & x1 & He & Hret)%M_bind_Ret. injection Hret as <-.
    apply M_bind_Ret in He as (n & x2 & Hd & He). injection He as <-.
    split; [by apply (declare_speaks run2 Hrun2 topic options timeout x x2 n)|].
    apply AmqpCpp.declare_routes in Hd; [|apply (keeps_routes run2 Hrun2)].
    intros k Hk. cbn [fst AmqpCpp._routes AmqpCpp.set_topic] in Hk. rewrite Hd in Hk.
    unfold AmqpCpp.bind_route in Hk. rewrite Hgroup in Hk. change (is_empty "") with true in Hk.
    destruct (deadLetter options); [|by apply Hx].
    change (is_empty (group (forensicTopicOptions topic))) with false in Hk. cbv iota in Hk.
    apply lookup_insert_is_Some in Hk as [<-|[_ Hk]]; [apply forensic_is_forensic|by apply Hx].
  - intros Hs. unfold on_fst in Hs. cbn [ITransport.send amqpcpp_transport] in Hs. unfold alone in Hs.
    destruct x as [t s]. destruct (AmqpCpp.send topic payload options (t, tt)) as [o [t1 []]] eqn:E.
    injection Hs as -> <-. by apply (send_speaks topic payload options (t, tt) (t1, tt)) in E.
  - intros ([] & x1 & He & Hret)%M_bind_Ret. injection Hret as <-. split.
    + by apply (subscribe_speaks run2 Hrun2 topic handler timeout).
    + apply (ungrouped_same x); [|done].
      pose proof (subscribe_routes run2 Hrun2 topic handler timeout _ x eq_refl) as Hr.
      change (AmqpCpp.subscribe run2 topic handler timeout x = (Ret tt, x1)) in He.
      by rewrite He in Hr.
Qed.

(** C19. The two backends speak alike.  Whatever the two client libraries and their
    brokers do, an application that runs the same script of declarations, sends and
    subscriptions over either backend -- named topics outside any group, as both can
    express, and none of the sends to a forensic topic -- and is refused nothing makes
    both send the broker
    exactly the methods of the reference, in the same order: the same properties for
    the same queue, the forensic exchange, queue and binding of a dead-lettered
    topic, prefetch one.  So a process on one backend never finds a queue declared
    differently by a process on the other.  The handlers the AMQP-CPP backend may run
    while it subscribes leave that transport alone and send nothing ([Hrun2]). *)
Theorem backends_speak_alike (ops : list (Op Subscription)) (x1 x1' : T1 * S1) (x2 x2' : T2 * S2) :
  Forall plain ops → ungrouped x2 →
  run_script run1 ops x1 = (Ret true, x1') → run_script run2 ops x2 = (Ret true, x2') →
  said (SimpleAmqp.world x1'.1) = said (SimpleAmqp.world x1.1) ++ concat (plain_frames <$> ops) ∧
  talk (AmqpCpp.world x2'.1) = talk (AmqpCpp.world x2.1) ++ concat (plain_frames <$> ops).
Proof.
  intros Hops. revert x1 x2. induction Hops as [|o ops Ho Hops IH]; intros x1 x2 Hx H1 H2.
  { injection H1 as <-. injection H2 as <-. by rewrite !app_nil_r. }
  cbn [run_script] in H1, H2.
  apply M_bind_Ret in H1 as ([] & y1 & Hop1 & H1); [|done].
  apply M_bind_Ret in H2 as ([] & y2 & Hop2 & H2); [|done].
  apply cpp_op in Hop2 as [Ht2 Hy2]; [|done..].
  destruct x1 as [t1 s1], y1 as [t1' s1']. apply simple_op in Hop1.
  destruct (IH _ _ Hy2 H1 H2) as [-> ->]. cbn [fst]. rewrite Hop1, Ht2.
  cbn [fmap list_fmap concat]. by rewrite <- !app_assoc.
Qed.
End agreement.

(** ** Two recorders *)

Module Recorder.

(** A SimpleAmqpClient that only writes down what it is asked. *)
Definition write {A} (fs : list Frame) (a : A) : M (list Frame) A := λ w, (Ret a, w ++ fs).

#[local] Instance client : SimpleAmqpClient (list Frame) := {|
  SimpleAmqpTransport.Channel := unit;
  Envelope := unit;
  SimpleAmqpTransport.Address := unit;
  Message_Body _ := "";
  Redelivered _ := false;
  DeliveryTag _ := 0;
  SimpleAmqpTransport.steady_now w := (0, w);
  SimpleAmqpTransport.make_address _ := Some tt;
  SimpleAmqpTransport.resolve _ _ := mret (None, [tt]);
  connect_within _ _ _ := mret (Some None);
  Channel_Create _ _ _ _ _ := mret tt;
  SimpleAmqpTransport.Channel_release _ := mret tt;
  DeclareExchange _ name _ durable _ := write [exchange_declare name exchange_direct durable] tt;
  DeclareQueue _ name _ durable exclusive autodelete arguments :=
    write [queue_declare name durable exclusive autodelete (amqp_table arguments)] tt;
  DeclareQueueWithCounts _ _ _ _ _ _ _ := mret 0;
  BindQueue _ queue exchange key := write [queue_bind queue exchange key] tt;
  PurgeQueue _ _ := mret tt;
  BasicPublish _ exchange key body persistent := write [basic_publish exchange key body persistent] tt;
  BasicConsume _ queue _ _ _ _ prefetch := write [basic_qos prefetch; basic_consume queue] "tag";
  BasicConsumeMessage _ _ _ := mret None;
  BasicCancel _ _ := mret tt;
  BasicAck _ _ := mret tt;
  BasicReject _ _ _ := mret tt;
|}.

#[local] Instance client_speaks : SimpleAmqpSpeaks (list Frame).
Proof. refine {| said w := w |}; intros; match goal with H : _ = (Ret _, _) |- _ => by injection H end. Defined.

(** An AMQP-CPP whose broker grants every request: the frames, the clock and the
    answers on their way ([None] is the end of the handshake). *)
Record Tape : Type := mkTape {
  tape_frames : list Frame;
  tape_now : Z;
  tape_answers : list (option (Z * RequestStep));
}.

Definition tick (w : Tape) : Tape := mkTape (tape_frames w) (tape_now w + 1) (tape_answers w).
Definition note (fs : list Frame) (w : Tape) : Tape :=
  mkTape (tape_frames w ++ fs) (tape_now w) (tape_answers w).
Definition grants {A} (a : option (Z * RequestStep)) (v : A) (w : Tape) : Activity Tape ConnCallback A :=
  Finished (Ret v) (mkTape (tape_frames w) (tape_now w) (tape_answers w ++ [a])).
Definition grants_request (f : Frame) (r : Z) (step : RequestStep) (w : Tape) :
    Activity Tape ConnCallback (option string) :=
  grants (Some (r, step)) None (note [f] w).

#[local] Instance tape_library : AmqpLibrary Tape := {|
  Address := unit;
  Channel := unit;
  ticks_per_ms := 1;
  readings_per_tick := 1;
  steady_now w := (tape_now w, tick w);
  make_address _ := Some tt;
  resolve _ _ := mret (None, [tt]);
  socket_connect _ _ := mret None;
  socket_write _ w := (None, w);
  socket_is_open _ := true;
  socket_close w := w;
  async_read _ w := (match tape_answers w with [] => None | _ => Some (read_bytes "answer") end, tick w);
  Connection_create _ _ _ := grants None tt;
  Connection_parse buffer w :=
    match tape_answers w with
    | [] => Finished (Ret (size_of buffer)) w
    | a :: rest =>
        Calls (match a with
               | None => inl call_onReady
               | Some (r, step) => inr (call_onSuccess r step 0)
               end) (mkTape (tape_frames w) (tape_now w) rest) (λ w, Finished (Ret (size_of buffer)) w)
    end;
  Connection_close w := Finished (Ret tt) w;
  Connection_release w := Finished (Ret tt) w;
  Channel_create w := Finished (Ret tt) w;
  Channel_release _ w := Finished (Ret tt) w;
  declareExchange _ r name type durable :=
    grants_request (exchange_declare name type durable) r ExchangeStep;
  declareQueue _ r name flags arguments :=
    grants_request (queue_declare name (flag_durable flags) (flag_exclusive flags)
      (flag_autodelete flags) arguments) r QueueStep;
  bindQueue _ r exchange queue key := grants_request (queue_bind queue exchange key) r BindStep;
  purgeQueue _ r _ := grants (Some (r, QueueStep)) None;
  setQos _ n w := Finished (Ret tt) (note [basic_qos n] w);
  consume _ r queue := grants_request (basic_consume queue) r QueueStep;
  channel_publish _ exchange key body persistent w :=
    Finished (Ret true) (note [basic_publish exchange key body persistent] w);
  channel_ack _ _ w := Finished (Ret tt) w;
  channel_reject _ _ _ w := Finished (Ret tt) w;
|}.

#[local] Instance tape_speaks : AmqpCppSpeaks Tape.
Proof.
  refine {| talk := tape_frames |}; try done.
  intros buffer [frames n [|a rest]]; [done|]. split; [done|]. by intros w' <-.
Defined.

Definition run1 : Runner (@SimpleAmqp.SimpleAmqpTransport (list Frame) _ Subscription) Subscription unit :=
  λ _ _ x, (Ret Ack, x).
Definition run2 : Runner (AmqpCpp.AmqpCppTransport Tape Subscription) Subscription unit :=
  λ _ _ x, (Ret Ack, x).

Definition script : list (Op Subscription) :=
  [op_declare "jobs" default_TopicOptions 1000;
   op_subscribe "jobs" (Some (mkSubscription "jobs" true)) 1000;
   op_send "results" "done" default_SendOptions].

Definition start1 : @SimpleAmqp.SimpleAmqpTransport (list Frame) _ Subscription * unit :=
  (ITransport.connect run1 default_Endpoint 1000 (SimpleAmqp.new_SimpleAmqpTransport [], tt)).2.
Definition start2 : AmqpCpp.AmqpCppTransport Tape Subscription * unit :=
  (ITransport.connect run2 default_Endpoint 1000
    (AmqpCpp.new_AmqpCppTransport (mkTape [] 0 []), tt)).2.

Definition transcript : list Frame := concat (plain_frames <$> script).

Lemma backends_speak_alike_witness :
  said (SimpleAmqp.world (run_script run1 script start1).2.1) = transcript ∧
  talk (AmqpCpp.world (run_script run2 script start2).2.1) = transcript ∧
  length transcript = 7%nat.
Proof.
  assert (Hrun2 : ∀ h d (x : AmqpCpp.AmqpCppTransport Tape Subscription * unit), ∃ w,
    (run2 h d x).2.1 = AmqpCpp.set_wire w (AmqpCpp._connection x.1) x.1 ∧
    talk w = talk (AmqpCpp.world x.1)).
  { intros h d x. exists (AmqpCpp.world x.1). split; [|reflexivity]. by destruct x as [[] ?]. }
  assert (H1 : run_script run1 script start1 = (Ret true, (run_script run1 script start1).2))
    by (vm_compute; reflexivity).
  assert (H2 : run_script run2 script start2 = (Ret true, (run_script run2 script start2).2))
    by (vm_compute; reflexivity).
  assert (Hplain : Forall plain script) by (repeat constructor; discriminate).
  assert (Hroutes : ungrouped start2) by (intros k [b Hk]; vm_compute in Hk; destruct k; discriminate).
  destruct (backends_speak_alike run1 run2 Hrun2 script start1 (run_script run1 script start1).2
    start2 (run_script run2 script start2).2 Hplain Hroutes H1 H2) as [E1 E2].
  rewrite E1, E2. assert (F1 : said (SimpleAmqp.world start1.1) = []) by (vm_compute; reflexivity).
  assert (F2 : talk (AmqpCpp.world start2.1) = []) by (vm_compute; reflexivity).
  rewrite F1, F2. split; [reflexivity|]. split; [reflexivity|]. vm_compute. reflexivity.
Defined.
End Recorder.
